(* ===== verification/_CoqProject ===== *)
-Q . S2P
Prelude.v
F64.v
Json.v
Slot.v
Bitmap.v
Segment.v
Snapshot.v
Text.v
BTree.v
Manifest.v
Publish.v
Publication.v
Progress.v
Acquisition.v
Command.v
CommandSink.v
CommandProtocol.v
CommandListener.v
CommandPath.v
Application.v
Dispatcher.v
Rules.v
RuleConditions.v
RuleSafety.v
RuleControl.v
RuleScheduler.v
Topology.v
Cleanup.v
Spool.v
Journal.v
Codec.v
FileSpool.v
ControlWire.v
ControlLedger.v
ControlProcessor.v
Dl645.v
DataTask.v
DataProcessing.v
DataRuns.v
DataCalls.v
Registers.v
Modbus.v
ModbusPolls.v
ModbusRuns.v
