(* ===== verification/Prelude.v ===== *)
(** * AetherEdge: a verification of the edge runtime's core

    AetherEdge is an industrial edge runtime: protocol services acquire points
    from field devices into a shared-memory data plane, other services read it,
    rules and operators act on it, and a cloud link carries facts up and
    governed actions down. This library models the parts whose correctness the
    rest relies on, in the Rust crates of the repository, and proves what makes
    them correct. This file is the shared vocabulary; every other file models
    one component, states what it guarantees, or composes several.

    ** Parts, files and how they interact

    - The data plane, [crates/aether-dataplane/src/core]. [Slot] is [slot.rs]:
      the 32-byte point slot, a seqlock; its Module [SeqLock] interleaves one
      writer and one reader access by access. [Bitmap] is [bitmap.rs], the slot
      allocator with its shared-memory view. [Segment] is
      [header.rs], [writer.rs], [reader.rs], [slot_io.rs]: the mapped segment, its
      two handles, the dirty bitmap; the traits [SlotIo] and [SlotIoWrite] are
      type classes with laws the writer discharges. [Snapshot] is
      [snapshot_save.rs] and [snapshot_load.rs], byte for byte.
    - Publication, [extensions/shm-bridge/src]. [Manifest] is [manifest.rs] with
      the point kinds of [crates/aether-domain/src/point.rs]: which point lives
      in which slot. [Publish] is [runtime.rs] with the swap of [config.rs],
      [authority.rs] and [writer.rs]: a segment is staged, the old generation
      invalidated, the staging file renamed over the canonical path.
      [Publication] proves it atomic and [Progress] that it succeeds.
      [Acquisition] is [acquisition_writer.rs]: batches of samples into the
      published segment. [Cleanup] is the startup removal of orphaned staging
      files.
    - Commands. [Command] is the domain command with its limits and the 56-byte
      frame; [CommandSink] is [command_sink.rs], which mirrors a command into its
      slot under the authority lease and notifies the IO service over a socket;
      [CommandProtocol] proves its stage protocol, [CommandListener] is the
      listener of the IO service, [CommandPath] composes the two ends. [F64] is
      the double-precision arithmetic of the limits.
    - Governance. [Application] is [crates/aether-application/src]: policy,
      capabilities, audit and the use cases; [Dispatcher] is the dispatcher of
      [services/automation/src/infra/application_control.rs], from a request
      through [Application] to [CommandSink]. [Topology] is
      [runtime_topology.rs]: the generation of routes that commands pin and
      routing mutations revoke.
    - Rules, [libs/aether-rules/src]. [Rules] is [executor.rs] with its traits as
      classes, [RuleConditions] the declarative reading of a switch, [RuleSafety]
      what an execution may do, [RuleControl] the executor composed with
      [Application], [Dispatcher] and [CommandSink], [RuleScheduler] is
      [scheduler.rs]: when rules run.
    - The durable cloud stream, [extensions/store-local/src] and
      [crates/aether-ports/src/cloudlink.rs]. [Spool] is [cloudlink_spool.rs],
      the bounded window of records; the port is the class [CloudLinkSpool] with
      laws. [Journal] is the framing of the journal, [FileSpool] is
      [file_cloudlink_spool.rs], recovery and compaction with failing system
      calls and crashes, proved to refine the in-memory spool. [Codec] builds a
      concrete entry codec.
    - Data processing. [DataTask] is
      [crates/aether-domain/src/data_processing.rs], the contract of tasks, frames
      and results; [DataProcessing] the use case of
      [crates/aether-application/src/data_processing.rs]; [DataRuns] and
      [DataCalls] are its specifications and properties.
    - Integration control, [crates/aether-integration-control/src].
      [ControlWire] is the wire contract ([validation.rs], [wire.rs],
      [codec.rs]), [ControlLedger] the ledger port of [ports.rs] as a class with
      laws and its adapter [memory.rs], [ControlProcessor] the job state machine
      [processor.rs], proved against the class.
    - Device protocols. [Dl645] is [libs/aether-core/src/codec/dl645.rs], the
      DL/T 645-2007 meter codec.
      [Registers] is [services/io/src/protocols/codec/byte_order.rs], values in
      16-bit registers; [Modbus] is the Modbus channel of
      [services/io/src/protocols/adapters] ([modbus.rs], [modbus_poll.rs],
      [command_batcher.rs]), with the answers of the device as inputs,
      [ModbusPolls] and [ModbusRuns] its polls and writes.
    - [Text], [BTree] and [Json] model what the sources use of Rust strings,
      [BTreeMap] and [serde_json::Value].

    ** Conventions

    A [w]-bit integer is a [Z] in [[0, 2^w)] ([fits]) and wraps through
    [wrap]; a byte string is a list of such bytes or a [string]; an [f64] is its
    bit pattern; slot indices and lengths are [nat]. A fallible function
    returns [outcome]: a value, a Rust error or a panic, which the release
    profile turns into an abort. A method on [&mut self] or on the file system
    is [ST]: the state is returned on every path; [etriple] is its program
    logic, in which a panic is never allowed. Where a debug and a release
    build differ, the build is an argument. Error messages and log lines are
    dropped, error reasons kept. Definitions carry the names of the source
    where a name is free. A trait is a class; what its users rely on is a class
    of laws, which the adapters discharge.

    What other tasks, the kernel, the network and the clocks do is an oracle: a
    function of a tick that every question advances, about which only the stated
    hypotheses are known. Tasks that interleave are step relations, with one
    constructor per piece of code between two awaits, and a dropped future is a
    step.

    Code outside the repository is a parameter with its documented behaviour:
    the encoder of the journal (decoding what was encoded gives it back), JSON
    and canonical JSON, SHA-256, the signature verifier, the [FxHasher] of the
    layout fingerprint and [evalexpr]. SQL lookups are what they return. Every
    theorem with a hypothesis is applied at a concrete instance by its [_witness].

    ** What the theorems show

    - No reader returns a mixture of two writes ([seqlock_no_torn_read]) unless
      [2^31] writes complete during one read, and that bound is exact.
    - Opening a segment never lets an index reach outside the mapping; what is
      written is read back; the dirty drain reports exactly the written slots;
      the allocator hands out free, disjoint, in-range runs and finds one if
      there is one; a snapshot loads to what was saved and holds only
      consistent reads.
    - In every visible state of a publication, and after any failed system
      call or crash, the canonical path names the old segment or the complete
      new one; a writer left on a replaced segment can commit nothing; a batch is
      committed entirely or not at all and never touches the slots or the cache
      lines of the command path. When no system call fails, a publication that
      fits its segment succeeds.
    - No slot is written and no frame sent for a command unless the actor is
      authorised and confirmed, the limits hold and the attempt is audited; a
      notification reaches the queue of its channel at most once and unchanged,
      whatever the sockets do; every device effect of a rule is such a
      command, fenced by the generation the rule read.
    - A rule execution never panics, issues finite values after present
      measurements only, and ends; the scheduler keeps intervals, deadbands and
      cooldowns over reloads; a pinned topology stays current and a sequence
      identifies its routes.
    - The spool answers every unacknowledged position with the records or with
      loss evidence, below the last position; a crash at any byte of the journal
      recovers the state before or after the interrupted operation; each call of
      the file spool, whatever system call fails, is that call of the memory spool
      or fails with the file at the path recoverable.
    - A processor is called only with an authorised, audited request whose frame meets
      the quality limits of its task, and derived data is a result in its window that
      fits its request.
    - A value written in any register format and byte order is read back; a poll of
      a Modbus channel reports each point from its own registers, a write sends only
      the encoded value of a configured point, and a merged write has the effect of
      the single ones.
    - The control processor calls the provider at most once per job, only
      behind every check and a granted claim; an offer whose job is known is
      answered from the ledger; startup recovery closes every claimed job; an
      accepted receipt is backed by the provider's answer and the audit. The laws
      of the ledger are the comments of its trait; [memory.rs] keeps them.
    - A meter response decodes exactly if it has the documented layout, up to
      60 data bytes; longer ones panic, recorded as a finding.

    ** Bounds and fuel

    [load_consistent] retries 32768 times and a rule walks at most 100 nodes, as
    the source does. The recovery loop runs on the number of bytes left, which
    every frame shortens; a dirty word is drained in at most 64 rounds; a [u64]
    prints in at most 20 digits; a lease is awaited for as many rounds as fit the
    command window ([ACQUIRE_FUEL]), and running out of it would show as a panic,
    which is excluded. Every other loop is structural.

    ** Memory model and what is left out

    The seqlock is verified for accesses in program order on one shared slot:
    the fences of the source, which provide that order between the sequence and
    the data, are not modelled themselves. File locks, [rename], [fsync] and the
    kernel's page cache are taken as documented. Not modelled: the HTTP, MQTT,
    SQL and device I/O of the services and tools, third-party expression
    evaluation, and the parts the plan below names.

    ** Plan

    Next, over the modelled ports: the file-backed ledger and outbox, the session
    and publisher of the cloud link, the commit of the point and health planes with
    their readers, the PointWatch fan-out, the alarm service, the rule parser, the
    CAN codec, routing and the wire codec of data processing (a parameter here). *)

From Stdlib Require Export ZArith Lia ZifyBool ZifyNat.
From stdpp Require Export base tactics list list_numbers gmap strings numbers.

#[global] Open Scope Z_scope.

(** ** Results of Rust code

    [Ok]/[Err] are [Result::Ok]/[Result::Err]; [Panic] is a Rust panic (an
    out-of-range index, a failed assertion, a checked overflow), which the
    release profile turns into a process abort. *)

Inductive outcome (E A : Type) : Type :=
| Ok (a : A)
| Err (e : E)
| Panic.
Arguments Ok {E A} a.
Arguments Err {E A} e.
Arguments Panic {E A}.

Declare Scope rust_scope.
Delimit Scope rust_scope with rust.
#[global] Open Scope rust_scope.

(** The [?] operator. *)
Definition obind {E A B} (c : outcome E A) (k : A -> outcome E B) : outcome E B :=
  match c with
  | Ok a => k a
  | Err e => Err e
  | Panic => Panic
  end.

Notation "'let?' x := c 'in' k" := (obind c (fun x => k))
  (at level 10, x pattern, c at level 200, k at level 200) : rust_scope.

(** [Option::ok_or]. *)
Definition ok_or {E A} (e : E) (o : option A) : outcome E A :=
  match o with Some a => Ok a | None => Err e end.

(** [Result::map_err]. *)
Definition map_err {E E' A} (f : E -> E') (c : outcome E A) : outcome E' A :=
  match c with Ok a => Ok a | Err e => Err (f e) | Panic => Panic end.

Definition is_ok {E A} (c : outcome E A) : bool :=
  match c with Ok _ => true | _ => false end.

(** ** Methods that mutate their receiver

    [ST S E A] is a method on [&mut self] of state [S] that returns
    [Result<A, E>]: the state is returned on every path, so what an early
    return leaves behind is visible. *)

Definition ST (S E A : Type) : Type := S -> S * outcome E A.

Definition st_ret {S E A} (a : A) : ST S E A := fun s => (s, Ok a).
Definition st_fail {S E A} (e : E) : ST S E A := fun s => (s, Err e).
Definition st_lift {S E A} (c : outcome E A) : ST S E A := fun s => (s, c).
Definition st_get {S E} : ST S E S := fun s => (s, Ok s).
Definition st_modify {S E} (f : S -> S) : ST S E unit := fun s => (f s, Ok tt).
Definition st_bind {S E A B} (c : ST S E A) (k : A -> ST S E B) : ST S E B :=
  fun s => match c s with
           | (s', Ok a) => k a s'
           | (s', Err e) => (s', Err e)
           | (s', Panic) => (s', Panic)
           end.

Notation "'let!' x := c 'in' k" := (st_bind c (fun x => k))
  (at level 10, x pattern, c at level 200, k at level 200) : rust_scope.

(** [if !b { return Err(e) }]. *)
Definition ensure {E} (b : bool) (e : E) : outcome E unit := if b then Ok tt else Err e.

(** ** Machine integers

    A [w]-bit unsigned integer is a [Z] in [[0, 2^w)]; wrap-around is explicit. *)

Definition fits (w z : Z) : Prop := 0 <= z < 2 ^ w.
#[export] Instance fits_dec w z : Decision (fits w z).
Proof. unfold fits. apply _. Defined.
Definition wrap (w z : Z) : Z := z mod 2 ^ w.
Definition checked_add (w x y : Z) : option Z :=
  if x + y <? 2 ^ w then Some (x + y) else None.
Definition checked_mul (w x y : Z) : option Z :=
  if x * y <? 2 ^ w then Some (x * y) else None.
Definition saturating_sub (x y : Z) : Z := Z.max 0 (x - y).
(** [!x] on a [w]-bit integer. *)
Definition bit_not (w x : Z) : Z := Z.lxor x (Z.ones w).

Definition u32_max : Z := 2 ^ 32 - 1.
Definition u64_max : Z := 2 ^ 64 - 1.

(** [usize::div_ceil(64)], on [nat] indices. *)
Definition div_ceil64 (n : nat) : nat := Nat.div (n + 63) 64.

(** ** Byte strings

    Bytes are [Z] values in [[0, 256)]. [to_le]/[from_le] are
    [to_le_bytes]/[from_le_bytes]; native order is little-endian on the
    deployed targets (aarch64 and x86_64). *)

Fixpoint to_le (n : nat) (z : Z) : list Z :=
  match n with
  | O => []
  | S n' => z mod 256 :: to_le n' (z / 256)
  end.

Fixpoint from_le (bs : list Z) : Z :=
  match bs with
  | [] => 0
  | b :: bs' => b + 256 * from_le bs'
  end.

(** [bytes.get(off..off + len)]. *)
Definition slice {A} (off len : nat) (l : list A) : option (list A) :=
  if bool_decide (off + len <= length l)%nat then Some (take len (drop off l)) else None.

(** ** [f64] bit patterns

    A stored [f64] is kept as its bit pattern, as the shared-memory code does. *)

Definition f64_exponent (b : Z) : Z := Z.land (Z.shiftr b 52) 2047.
Definition f64_fraction (b : Z) : Z := Z.land b (Z.ones 52).
Definition f64_is_nan (b : Z) : bool :=
  (f64_exponent b =? 2047) && negb (f64_fraction b =? 0).
Definition f64_is_finite (b : Z) : bool := negb (f64_exponent b =? 2047).

(** ** Automation *)

Create HintDb rust.

(** Splits the innermost tests of the goal or of a hypothesis, keeping the
    equation of each test. *)
Ltac split_if :=
  match goal with
  | |- context [if ?b then _ else _] =>
      lazymatch b with
      | context [if _ then _ else _] => fail
      | _ => let E := fresh "E" in destruct b eqn:E
      end
  end.

Ltac split_if_in H :=
  match type of H with
  | context [if ?b then _ else _] =>
      lazymatch b with
      | context [if _ then _ else _] => fail
      | _ => let E := fresh "E" in destruct b eqn:E
      end
  end.

(** Breaks boolean connectives in the hypotheses into facts [lia] reads. *)
Ltac bool_facts :=
  repeat match goal with
  | H : (_ && _)%bool = true |- _ => apply andb_true_iff in H; destruct H
  | H : (_ || _)%bool = false |- _ => apply orb_false_iff in H; destruct H
  | H : negb _ = true |- _ => apply negb_true_iff in H
  | H : negb _ = false |- _ => apply negb_false_iff in H
  | H : bool_decide _ = true |- _ => apply bool_decide_eq_true in H
  | H : bool_decide _ = false |- _ => apply bool_decide_eq_false in H
  end.

(** Proves a decidable proposition by evaluating its decision procedure. *)
Ltac by_decide := apply (bool_decide_unpack _); vm_compute; exact I.

(** ** Generic lemmas *)

Lemma Ok_inj {E A} (a b : A) : @Ok E A a = Ok b -> a = b.
Proof. congruence. Qed.

Lemma obind_ok {E A B} (c : outcome E A) (k : A -> outcome E B) b :
  obind c k = Ok b <-> exists a, c = Ok a /\ k a = Ok b.
Proof. destruct c; simpl; naive_solver. Qed.

Lemma obind_panic {E A B} (c : outcome E A) (k : A -> outcome E B) :
  obind c k = Panic <-> c = Panic \/ exists a, c = Ok a /\ k a = Panic.
Proof. destruct c; simpl; naive_solver. Qed.

Lemma obind_not_panic {E A B} (c : outcome E A) (k : A -> outcome E B) :
  c <> Panic -> (forall a, k a <> Panic) -> obind c k <> Panic.
Proof. destruct c; simpl; auto. Qed.

Lemma ensure_not_panic {E} b (e : E) : ensure b e <> Panic.
Proof. by destruct b. Qed.

Lemma ensure_ok {E} b (e : E) u : ensure b e = Ok u <-> b = true.
Proof. destruct b, u; simpl; naive_solver. Qed.

Lemma st_bind_lift {S E A B} (c : outcome E A) (k : A -> ST S E B) s :
  st_bind (st_lift c) k s =
  match c with Ok a => k a s | Err e => (s, Err e) | Panic => (s, Panic) end.
Proof. by destruct c. Qed.

Lemma st_bind_ok {S E A B} (c : ST S E A) (k : A -> ST S E B) s s' b :
  st_bind c k s = (s', Ok b) <-> exists s1 a, c s = (s1, Ok a) /\ k a s1 = (s', Ok b).
Proof. unfold st_bind. destruct (c s) as [s1 []]; naive_solver. Qed.

Lemma ok_or_ok {E A} (e : E) (o : option A) a : ok_or e o = Ok a <-> o = Some a.
Proof. destruct o; simpl; naive_solver. Qed.

(** ** A program logic

    [etriple P c Q R]: from a state in [P], [c] does not panic, ends in [Q] when
    it succeeds and in [R e] when it fails with [e]. *)

(** A guard whose [Drop] runs [h] when the guarded code returns an error. *)
Definition on_err {S E A} (c : ST S E A) (h : S -> S) : ST S E A := fun s =>
  match c s with
  | (s', Err e) => (h s', Err e)
  | r => r
  end.

Definition etriple {St E A} (P : St -> Prop) (c : ST St E A) (Q : A -> St -> Prop) (R : E -> St -> Prop) : Prop :=
  forall f, P f -> match c f with
                   | (f', Ok a) => Q a f'
                   | (f', Err e) => R e f'
                   | (_, Panic) => False
                   end.

(** The same when the error does not matter. *)
Definition triple {St E A} (P : St -> Prop) (c : ST St E A) (Q : A -> St -> Prop) (R : St -> Prop) : Prop :=
  etriple P c Q (fun _ => R).

Section Triples.
Context {St E : Type}.
Implicit Types P : St -> Prop.

Lemma etriple_bind {A B} P (c : ST St E A) Q (k : A -> ST St E B) Q' R :
  etriple P c Q R -> (forall a, etriple (Q a) (k a) Q' R) -> etriple P (st_bind c k) Q' R.
Proof.
  intros Hc Hk f Hf. specialize (Hc f Hf). unfold st_bind.
  destruct (c f) as [f' [a|e|]]; [by apply Hk|done|done].
Qed.

Lemma etriple_conseq {A} P P' (c : ST St E A) Q Q' (R R' : E -> St -> Prop) :
  etriple P c Q R -> (forall f, P' f -> P f) -> (forall a f, Q a f -> Q' a f) -> (forall e f, R e f -> R' e f) ->
  etriple P' c Q' R'.
Proof.
  intros Hc HP HQ HR f Hf. specialize (Hc f (HP f Hf)).
  destruct (c f) as [f' [a|e|]]; auto.
Qed.

Lemma etriple_ret {A} P (a : A) (Q : A -> St -> Prop) R : (forall f, P f -> Q a f) -> etriple P (st_ret (E := E) a) Q R.
Proof. intros H f Hf. by apply H. Qed.

Lemma etriple_fail {A} P (e : E) (Q : A -> St -> Prop) (R : E -> St -> Prop) :
  (forall f, P f -> R e f) -> etriple P (st_fail e) Q R.
Proof. intros H f Hf. by apply H. Qed.

Lemma etriple_get P (R : E -> St -> Prop) : etriple P st_get (fun a f => a = f /\ P f) R.
Proof. by intros f Hf. Qed.

Lemma etriple_lift {A} P (c : outcome E A) (Q : A -> St -> Prop) (R : E -> St -> Prop) :
  (forall a f, c = Ok a -> P f -> Q a f) -> (forall e f, c = Err e -> P f -> R e f) -> (forall f, P f -> c <> Panic) ->
  etriple P (st_lift c) Q R.
Proof. intros H1 H2 H3 f Hf. unfold st_lift. specialize (H3 f Hf). destruct c; [by apply H1|by apply H2|done]. Qed.

Lemma etriple_ensure P b (e : E) (R : E -> St -> Prop) :
  (forall f, P f -> R e f) -> etriple P (st_lift (ensure b e)) (fun _ f => P f /\ b = true) R.
Proof. intros HR f Hf. destruct b; simpl; auto. Qed.

Lemma etriple_modify P g (Q : unit -> St -> Prop) R :
  (forall f, P f -> Q tt (g f)) -> etriple P (st_modify (E := E) g) Q R.
Proof. intros H f Hf. by apply H. Qed.

(** A fact that does not depend on the state moves out of the precondition. *)
Lemma etriple_pure {A} P (p : Prop) (c : ST St E A) Q R : (p -> etriple P c Q R) -> etriple (fun f => P f /\ p) c Q R.
Proof. intros H f [Hf Hp]. by apply H. Qed.

Lemma etriple_pure_l {A} P (p : Prop) (c : ST St E A) Q R : (p -> etriple P c Q R) -> etriple (fun f => p /\ P f) c Q R.
Proof. intros H f [Hp Hf]. by apply H. Qed.

Lemma etriple_exists {A X} (P : X -> St -> Prop) (c : ST St E A) Q R :
  (forall x, etriple (P x) c Q R) -> etriple (fun f => exists x, P x f) c Q R.
Proof. intros H f [x Hf]. by apply (H x). Qed.

Lemma triple_bind {A B} P (c : ST St E A) Q (k : A -> ST St E B) Q' R :
  triple P c Q R -> (forall a, triple (Q a) (k a) Q' R) -> triple P (st_bind c k) Q' R.
Proof. apply etriple_bind. Qed.

Lemma triple_conseq {A} P P' (c : ST St E A) Q Q' (R R' : St -> Prop) :
  triple P c Q R -> (forall f, P' f -> P f) -> (forall a f, Q a f -> Q' a f) -> (forall f, R f -> R' f) ->
  triple P' c Q' R'.
Proof. intros Hc HP HQ HR. by apply (etriple_conseq _ _ _ _ _ _ _ Hc). Qed.

Lemma triple_ret {A} P (a : A) (Q : A -> St -> Prop) R : (forall f, P f -> Q a f) -> triple P (st_ret (E := E) a) Q R.
Proof. apply etriple_ret. Qed.

Lemma triple_get P (R : St -> Prop) : triple P (st_get (E := E)) (fun a f => a = f /\ P f) R.
Proof. apply etriple_get. Qed.

Lemma triple_lift {A} P (c : outcome E A) (Q : A -> St -> Prop) (R : St -> Prop) :
  (forall a f, c = Ok a -> P f -> Q a f) -> (forall f, P f -> R f) -> (forall f, P f -> c <> Panic) ->
  triple P (st_lift c) Q R.
Proof. intros H1 H2 H3. apply etriple_lift; auto. Qed.

Lemma triple_ensure P b (e : E) (R : St -> Prop) :
  (forall f, P f -> R f) -> triple P (st_lift (ensure b e)) (fun _ f => P f /\ b = true) R.
Proof. intros H. by apply etriple_ensure. Qed.

Lemma triple_modify P g (Q : unit -> St -> Prop) R : (forall f, P f -> Q tt (g f)) -> triple P (st_modify (E := E) g) Q R.
Proof. apply etriple_modify. Qed.

Lemma triple_on_err {A} P (c : ST St E A) Q (R R' : St -> Prop) h :
  triple P c Q R -> (forall f, R f -> R' (h f)) -> triple P (on_err c h) Q R'.
Proof. intros Hc Hh f Hf. specialize (Hc f Hf). unfold on_err. destruct (c f) as [f' [a|e|]]; auto. Qed.

Lemma triple_pure {A} P (p : Prop) (c : ST St E A) Q R : (p -> triple P c Q R) -> triple (fun f => P f /\ p) c Q R.
Proof. apply etriple_pure. Qed.

End Triples.

(** An invariant of a step relation holds in every reachable state. *)
Lemma rtc_invariant {S} (R : S -> S -> Prop) (I : S -> Prop) :
  (forall x y, I x -> R x y -> I y) -> forall x y, rtc R x y -> I x -> I y.
Proof. intros HI x y Hxy. induction Hxy; eauto. Qed.

Lemma pow2_pos w : 0 <= w -> 0 < 2 ^ w.
Proof. intros. apply Z.pow_pos_nonneg; lia. Qed.

Lemma wrap_fits w z : 0 <= w -> fits w (wrap w z).
Proof. intros. apply Z.mod_pos_bound, pow2_pos; lia. Qed.

Lemma wrap_small w z : fits w z -> wrap w z = z.
Proof. intros. apply Z.mod_small. exact H. Qed.

Lemma wrap_add_l w x y : wrap w (wrap w x + y) = wrap w (x + y).
Proof.
  unfold wrap. destruct (decide (2 ^ w = 0)) as [->|]; [by rewrite !Z.mod_0_r|].
  by rewrite Z.add_mod_idemp_l.
Qed.

Lemma checked_add_Some w x y z :
  checked_add w x y = Some z <-> z = x + y /\ x + y < 2 ^ w.
Proof. unfold checked_add. split_if; split; intros; simplify_eq; naive_solver lia. Qed.

(** *** Bits of machine words *)

Lemma fits_testbit w z i : 0 <= w <= i -> fits w z -> Z.testbit z i = false.
Proof.
  intros Hw Hz. destruct (decide (z = 0)) as [->|]; [apply Z.bits_0|].
  apply Z.bits_above_log2; [unfold fits in *; lia|].
  apply Z.lt_le_trans with w; [|lia]. apply Z.log2_lt_pow2; unfold fits in *; lia.
Qed.

Lemma testbit_fits w z :
  0 <= w -> 0 <= z -> (forall i, w <= i -> Z.testbit z i = false) -> fits w z.
Proof.
  intros Hw Hz Hb. split; [done|].
  destruct (decide (z = 0)) as [->|]; [apply pow2_pos; lia|].
  apply Z.log2_lt_pow2; [lia|].
  destruct (decide (Z.log2 z < w)); [done|].
  specialize (Hb (Z.log2 z) ltac:(lia)). rewrite Z.bit_log2 in Hb by lia. done.
Qed.

Lemma testbit_one_shl b i :
  0 <= b -> Z.testbit (Z.shiftl 1 b) i = (b =? i).
Proof.
  intros Hb. rewrite Z.shiftl_1_l. destruct (Z.eqb_spec b i) as [->|Hne].
  - by apply Z.pow2_bits_true.
  - by apply Z.pow2_bits_false.
Qed.

Lemma testbit_set w b i :
  0 <= b -> Z.testbit (Z.lor w (Z.shiftl 1 b)) i = Z.testbit w i || (b =? i).
Proof. intros. by rewrite Z.lor_spec, testbit_one_shl. Qed.

Lemma testbit_bit_not n x i :
  0 <= i < n -> Z.testbit (bit_not n x) i = negb (Z.testbit x i).
Proof.
  intros. unfold bit_not. rewrite Z.lxor_spec, Z.ones_spec_low by lia.
  by destruct (Z.testbit x i).
Qed.

Lemma testbit_clear n w b i :
  0 <= b -> 0 <= i < n ->
  Z.testbit (Z.land w (bit_not n (Z.shiftl 1 b))) i = Z.testbit w i && negb (b =? i).
Proof. intros. by rewrite Z.land_spec, testbit_bit_not, testbit_one_shl. Qed.

Lemma fits_lor n x y : 0 <= n -> fits n x -> fits n y -> fits n (Z.lor x y).
Proof.
  intros Hn Hx Hy. apply testbit_fits; [done|apply Z.lor_nonneg; unfold fits in *; lia|].
  intros i Hi. by rewrite Z.lor_spec, !(fits_testbit n) by (lia || done).
Qed.

Lemma fits_land_l n x y : 0 <= n -> fits n x -> fits n (Z.land x y).
Proof.
  intros Hn Hx. apply testbit_fits; [done|apply Z.land_nonneg; unfold fits in *; lia|].
  intros i Hi. by rewrite Z.land_spec, (fits_testbit n x) by (lia || done).
Qed.

Lemma fits_one_shl n b : 0 <= b < n -> fits n (Z.shiftl 1 b).
Proof.
  intros. rewrite Z.shiftl_1_l. split; [apply Z.pow_nonneg; lia|].
  apply Z.pow_lt_mono_r; lia.
Qed.

(** [w & (1 << b) != 0] tests bit [b]. *)
Lemma land_one_shl_zero w b :
  0 <= b -> (Z.land w (Z.shiftl 1 b) =? 0) = negb (Z.testbit w b).
Proof.
  intros Hb. destruct (Z.testbit w b) eqn:E; simpl.
  - apply Z.eqb_neq. intros H0.
    assert (Z.testbit (Z.land w (Z.shiftl 1 b)) b = false) as H1 by (rewrite H0; apply Z.bits_0).
    rewrite Z.land_spec, E, testbit_one_shl, Z.eqb_refl in H1 by done. done.
  - apply Z.eqb_eq, Z.bits_inj'. intros i Hi.
    rewrite Z.land_spec, testbit_one_shl, Z.bits_0 by done.
    destruct (Z.eqb_spec b i) as [->|]; [by rewrite E|]. apply andb_false_r.
Qed.

(** *** Little-endian codes *)

Lemma to_le_length n z : length (to_le n z) = n.
Proof. revert z. induction n; intros; simpl; auto. Qed.

Lemma to_le_bytes n z : Forall (fits 8) (to_le n z).
Proof.
  revert z. induction n; intros; simpl; constructor; auto.
  apply Z.mod_pos_bound. lia.
Qed.

Lemma from_to_le n z : from_le (to_le n z) = wrap (8 * Z.of_nat n) z.
Proof.
  unfold wrap. revert z. induction n as [|n IH]; intros z; cbn [to_le from_le].
  - by rewrite Z.mod_1_r.
  - rewrite IH. replace (8 * Z.of_nat (S n)) with (8 + 8 * Z.of_nat n) by lia.
    rewrite Z.pow_add_r by lia. change (2 ^ 8) with 256.
    rewrite Z.rem_mul_r by (try apply pow2_pos; lia). lia.
Qed.

Lemma from_to_le_fits n z :
  fits (8 * Z.of_nat n) z -> from_le (to_le n z) = z.
Proof. intros. rewrite from_to_le. by apply wrap_small. Qed.

Lemma from_le_fits bs :
  Forall (fits 8) bs -> fits (8 * Z.of_nat (length bs)) (from_le bs).
Proof.
  induction 1 as [|b bs Hb _ IH]; cbn [from_le length].
  - unfold fits. simpl. lia.
  - unfold fits in *. replace (8 * Z.of_nat (S (length bs))) with (8 + 8 * Z.of_nat (length bs)) by lia.
    rewrite Z.pow_add_r by lia. change (2 ^ 8) with 256 in *. nia.
Qed.

Lemma to_from_le bs :
  Forall (fits 8) bs -> to_le (length bs) (from_le bs) = bs.
Proof.
  induction 1 as [|b bs Hb _ IH]; simpl; [done|].
  assert (b mod 256 = b) by (apply Z.mod_small; exact Hb).
  rewrite Z.mul_comm, Z.mod_add, Z.div_add by lia.
  rewrite (Z.div_small b 256) by exact Hb. f_equal; [done|]. exact IH.
Qed.

(** *** Slices *)

Lemma slice_app_mid {A} (a b c : list A) :
  slice (length a) (length b) (a ++ b ++ c) = Some b.
Proof.
  unfold slice. rewrite !length_app, bool_decide_eq_true_2 by lia.
  by rewrite drop_app_length, take_app_length.
Qed.

(** *** Lists *)

Lemma Forall_elem {A} {P : A -> Prop} {l : list A} {x} : Forall P l -> x ∈ l -> P x.
Proof. intros HP Hx. induction HP; [by apply not_elem_of_nil in Hx|]. apply elem_of_cons in Hx as [->|]; auto. Qed.

Lemma Forall_weaken {A} {P : A -> Prop} (Q : A -> Prop) {l : list A} :
  Forall P l -> (forall x, P x -> Q x) -> Forall Q l.
Proof. intros HP HQ. induction HP; constructor; auto. Qed.

Lemma filter_none {A} (P : A -> Prop) {HP : forall x, Decision (P x)} (l : list A) :
  (forall x, x ∈ l -> ~ P x) -> filter P l = [].
Proof.
  intros H. induction l as [|x l IH]; [done|]. rewrite filter_cons_False; [|apply H; left].
  apply IH. intros y Hy. apply H. by right.
Qed.

Lemma list_filter_ext {A} (P Q : A -> Prop) {HP : forall x, Decision (P x)}
    {HQ : forall x, Decision (Q x)} (l : list A) :
  (forall x, x ∈ l -> P x <-> Q x) -> filter P l = filter Q l.
Proof.
  intros H. induction l as [|x l IH]; [done|]. rewrite !filter_cons.
  rewrite IH by (intros y Hy; apply H; by right).
  specialize (H x ltac:(left)). do 2 case_decide; naive_solver.
Qed.

#[export] Hint Resolve wrap_fits to_le_length to_le_bytes pow2_pos : rust.
