(* ===== verification/F64.v ===== *)
(** * Double-precision arithmetic

    The [f64] operations the sources use, on bit patterns: [of_bits] decodes a
    pattern into the Standard Library's [spec_float], on which arithmetic with
    rounding to nearest even is executable, and [units] is the exact value of a
    finite number as an integer multiple of [2^-1074]. *)

From Stdlib Require Export SpecFloat.
From Stdlib Require Import Ascii.
From S2P Require Import Prelude.

Definition prec : Z := 53.
Definition emax : Z := 1024.

Definition f64_sign (b : Z) : bool := Z.testbit b 63.

Definition magnitude (s : bool) (m e : Z) : spec_float :=
  match m with Zpos p => S754_finite s p e | _ => S754_zero s end.

(** [f64::from_bits]. *)
Definition of_bits (b : Z) : spec_float :=
  let e := f64_exponent b in
  let f := f64_fraction b in
  if e =? 2047 then (if f =? 0 then S754_infinity (f64_sign b) else S754_nan)
  else if e =? 0 then magnitude (f64_sign b) f (-1074)
  else magnitude (f64_sign b) (2 ^ 52 + f) (e - 1075).

Definition f64_zero : spec_float := S754_zero false.
Definition f64_add : spec_float -> spec_float -> spec_float := SFadd prec emax.
Definition f64_sub : spec_float -> spec_float -> spec_float := SFsub prec emax.
Definition f64_mul : spec_float -> spec_float -> spec_float := SFmul prec emax.
Definition f64_ltb : spec_float -> spec_float -> bool := SFltb.
Definition f64_leb : spec_float -> spec_float -> bool := SFleb.
Definition f64_abs : spec_float -> spec_float := SFabs.
Definition sf_is_finite (x : spec_float) : bool :=
  match x with S754_zero _ | S754_finite _ _ _ => true | _ => false end.

(** The [%] operator: the remainder is exact and has the sign of the dividend. *)
Definition f64_rem (x y : spec_float) : spec_float :=
  match x, y with
  | S754_nan, _ | _, S754_nan | S754_infinity _, _ | _, S754_zero _ => S754_nan
  | S754_zero _, _ | _, S754_infinity _ => x
  | S754_finite sx mx ex, S754_finite _ my ey =>
      let e := Z.min ex ey in
      let r := (Zpos mx * 2 ^ (ex - e)) mod (Zpos my * 2 ^ (ey - e)) in
      match r with Zpos p => binary_round prec emax sx p e | _ => S754_zero sx end
  end.

(** ** Exact values *)

Definition units (x : spec_float) : Z :=
  match x with
  | S754_finite s m e => (if s then -1 else 1) * (Zpos m * 2 ^ (e + 1074))
  | _ => 0
  end.

(** What [of_bits] produces: 53-bit mantissas, normalised above the least exponent. *)
Definition canonical (x : spec_float) : Prop :=
  match x with
  | S754_finite _ m e => -1074 <= e /\ Zpos m < 2 ^ 53 /\ (e = -1074 \/ 2 ^ 52 <= Zpos m)
  | _ => True
  end.

Lemma f64_fraction_fits b : fits 52 (f64_fraction b).
Proof. unfold f64_fraction. rewrite Z.land_ones by lia. apply Z.mod_pos_bound. lia. Qed.

Lemma f64_exponent_range b : 0 <= f64_exponent b < 2048.
Proof. unfold f64_exponent. change 2047 with (Z.ones 11). rewrite Z.land_ones by lia. apply Z.mod_pos_bound. lia. Qed.

Lemma of_bits_canonical b : canonical (of_bits b).
Proof.
  unfold of_bits. pose proof (f64_fraction_fits b) as Hf. pose proof (f64_exponent_range b) as He. unfold fits in Hf.
  destruct (Z.eqb_spec (f64_exponent b) 2047); [by destruct (_ =? 0)|].
  destruct (Z.eqb_spec (f64_exponent b) 0); [destruct (f64_fraction b) eqn:E|destruct (2 ^ 52 + f64_fraction b) eqn:E]; simpl; lia.
Qed.

Lemma of_bits_finite b : f64_is_finite b = true <-> sf_is_finite (of_bits b) = true.
Proof.
  unfold f64_is_finite, of_bits. destruct (Z.eqb_spec (f64_exponent b) 2047).
  - by destruct (_ =? 0).
  - destruct (_ =? 0); unfold magnitude; repeat case_match; done.
Qed.

(** A larger exponent means a larger magnitude. *)
Lemma units_lt_exponent m1 e1 m2 e2 :
  -1074 <= e1 -> Zpos m1 < 2 ^ 53 -> 2 ^ 52 <= Zpos m2 -> e1 < e2 ->
  Zpos m1 * 2 ^ (e1 + 1074) < Zpos m2 * 2 ^ (e2 + 1074).
Proof.
  intros He1 H1 H2 Hlt. set (k := e1 + 1074). replace (e2 + 1074) with (k + 1 + (e2 - e1 - 1)) by lia.
  rewrite !Z.pow_add_r by lia. pose proof (pow2_pos k ltac:(lia)). pose proof (pow2_pos (e2 - e1 - 1) ltac:(lia)).
  change (2 ^ 53) with (2 * 2 ^ 52) in H1. change (2 ^ 1) with 2. set (q := 2 ^ (e2 - e1 - 1)) in *. set (p := 2 ^ k) in *.
  assert (Zpos m2 * p * 2 <= Zpos m2 * (p * 2 * q)) by nia. nia.
Qed.

(** Comparison of finite numbers is comparison of their exact values. *)
Lemma SFcompare_units x y :
  canonical x -> canonical y -> sf_is_finite x = true -> sf_is_finite y = true ->
  SFcompare x y = Some (units x ?= units y).
Proof.
  assert (forall m e, -1074 <= e -> 0 < Zpos m * 2 ^ (e + 1074)) as Hpos.
  { intros m e He. apply Z.mul_pos_pos; [lia|]. apply pow2_pos. lia. }
  assert (forall m1 e1 m2 e2, -1074 <= e1 -> Zpos m1 < 2 ^ 53 -> (e1 = -1074 \/ 2 ^ 52 <= Zpos m1) ->
    -1074 <= e2 -> Zpos m2 < 2 ^ 53 -> (e2 = -1074 \/ 2 ^ 52 <= Zpos m2) ->
    (Zpos m1 * 2 ^ (e1 + 1074) ?= Zpos m2 * 2 ^ (e2 + 1074)) =
    match Z.compare e1 e2 with Lt => Lt | Gt => Gt | Eq => Pos.compare_cont Eq m1 m2 end) as Hcmp.
  { intros m1 e1 m2 e2 He1 H1 N1 He2 H2 N2. destruct (Z.compare_spec e1 e2) as [->|Hlt|Hgt].
    - rewrite <- Zmult_compare_compat_r by (apply Z.lt_gt, pow2_pos; lia). done.
    - apply Z.compare_lt_iff, units_lt_exponent; lia.
    - apply Z.compare_gt_iff, units_lt_exponent; lia. }
  destruct x as [s1|s1| |s1 m1 e1], y as [s2|s2| |s2 m2 e2]; cbn [canonical sf_is_finite units SFcompare]; try done.
  - intros _ (? & _) _ _. specialize (Hpos m2 e2). f_equal. symmetry.
    destruct s2; [apply Z.compare_gt_iff|apply Z.compare_lt_iff]; lia.
  - intros (? & _) _ _ _. specialize (Hpos m1 e1). f_equal. symmetry.
    destruct s1; [apply Z.compare_lt_iff|apply Z.compare_gt_iff]; lia.
  - intros (? & ? & ?) (? & ? & ?) _ _. pose proof (Hpos m1 e1). pose proof (Hpos m2 e2). f_equal.
    destruct s1, s2; rewrite ?Z.mul_1_l.
    + replace (-1 * (Zpos m1 * 2 ^ (e1 + 1074))) with (- (Zpos m1 * 2 ^ (e1 + 1074))) by lia.
      replace (-1 * (Zpos m2 * 2 ^ (e2 + 1074))) with (- (Zpos m2 * 2 ^ (e2 + 1074))) by lia.
      rewrite <- Zcompare_opp, Hcmp, (Z.compare_antisym e1 e2) by lia.
      destruct (e1 ?= e2); simpl; try done. symmetry. apply Pos.compare_antisym.
    + symmetry. apply Z.compare_lt_iff. lia.
    + symmetry. apply Z.compare_gt_iff. lia.
    + symmetry. apply Hcmp; lia.
Qed.

Lemma f64_ltb_units x y :
  canonical x -> canonical y -> sf_is_finite x = true -> sf_is_finite y = true ->
  f64_ltb x y = (units x <? units y).
Proof.
  intros. unfold f64_ltb, SFltb. rewrite SFcompare_units by done. unfold Z.ltb. by destruct (_ ?= _).
Qed.

(** ** Conversions *)

Definition f64_div : spec_float -> spec_float -> spec_float := SFdiv prec emax.
Definition f64_eqb : spec_float -> spec_float -> bool := SFeqb.

(** [f64::to_bits]; a NaN produced by an operation is the quiet one. *)
Definition F64_NAN : Z := 0x7FF8000000000000.
Definition to_bits (x : spec_float) : Z :=
  let sign (s : bool) := if s then 2 ^ 63 else 0 in
  match x with
  | S754_zero s => sign s
  | S754_infinity s => sign s + 0x7FF0000000000000
  | S754_nan => F64_NAN
  | S754_finite s m e =>
      wrap 64 (if Zpos m <? 2 ^ 52 then sign s + Zpos m else sign s + (e + 1075) * 2 ^ 52 + (Zpos m - 2 ^ 52))
  end.

(** An integer cast to [f64], rounded to nearest even. *)
Definition f64_of_Z (z : Z) : Z := to_bits (binary_normalize prec emax z 0 false).

(** The number [m * 10^k], rounded to nearest even: a quotient of more than
    [54] bits with a sticky bit in the last place rounds like the exact value. *)
Definition round_decimal (s : bool) (m k : Z) : spec_float :=
  if m =? 0 then S754_zero s
  else if 0 <=? k then binary_normalize prec emax (if s then - (m * 10 ^ k) else m * 10 ^ k) 0 s
  else
    let d := 10 ^ (- k) in
    let shift := Z.max 0 (Z.log2 d - Z.log2 m + 64) in
    let q := (m * 2 ^ shift) / d in
    let sticky := if (m * 2 ^ shift) mod d =? 0 then 0 else 1 in
    let v := 2 * q + sticky in
    binary_normalize prec emax (if s then - v else v) (- shift - 1) s.

(** [str::parse::<f64>]: an optional sign, then [inf], [infinity] or [nan] in
    any case, or digits with an optional point and exponent. *)
Definition digit_of (c : ascii) : option Z :=
  let n := Z.of_nat (nat_of_ascii c) in
  if (48 <=? n) && (n <=? 57) then Some (n - 48) else None.

Fixpoint take_digits (acc : Z) (l : list ascii) : Z * nat * list ascii :=
  match l with
  | c :: l' =>
      match digit_of c with
      | Some d => let '(v, n, rest) := take_digits (10 * acc + d) l' in (v, S n, rest)
      | None => (acc, 0%nat, l)
      end
  | [] => (acc, 0%nat, [])
  end.

Definition take_sign (l : list ascii) : bool * list ascii :=
  match l with
  | c :: l' => if decide (c = "-"%char) then (true, l') else if decide (c = "+"%char) then (false, l') else (false, l)
  | [] => (false, [])
  end.

Definition take_exponent (l : list ascii) : option Z :=
  match l with
  | [] => Some 0
  | c :: l' =>
      if decide (c = "e"%char \/ c = "E"%char) then
        let (neg, l2) := take_sign l' in
        match take_digits 0 l2 with
        | (v, S _, []) => Some (if neg then - v else v)
        | _ => None
        end
      else None
  end.

Definition lower (c : ascii) : ascii :=
  let n := nat_of_ascii c in
  if (65 <=? n)%nat && (n <=? 90)%nat then ascii_of_nat (n + 32) else c.

Definition parse_f64 (text : string) : option Z :=
  let (neg, l) := take_sign (String.list_ascii_of_string text) in
  let word := String.string_of_list_ascii (lower <$> l) in
  if decide (word = "inf" \/ word = "infinity") then Some (to_bits (S754_infinity neg))
  else if decide (word = "nan") then Some F64_NAN
  else
    let '(int, n, rest) := take_digits 0 l in
    let '(mant, k, rest) :=
      match rest with
      | c :: rest' => if decide (c = "."%char) then take_digits int rest' else (int, 0%nat, rest)
      | [] => (int, 0%nat, rest)
      end in
    if (n + k =? 0)%nat then None
    else match take_exponent rest with
         | Some e => Some (to_bits (round_decimal neg mant (e - Z.of_nat k)))
         | None => None
         end.

Lemma to_bits_fits x : fits 64 (to_bits x).
Proof. destruct x as [[]|[]| |s m e]; try (unfold fits; cbn; unfold F64_NAN; lia). apply wrap_fits; lia. Qed.

Lemma f64_of_Z_fits z : fits 64 (f64_of_Z z).
Proof. apply to_bits_fits. Qed.

Lemma parse_f64_fits s b : parse_f64 s = Some b -> fits 64 b.
Proof.
  unfold parse_f64. intros H. repeat case_match; simplify_eq; try apply to_bits_fits; unfold fits, F64_NAN; lia.
Qed.

Example parse_f64_values :
  parse_f64 "0.1" = Some 0x3FB999999999999A /\ parse_f64 "1e23" = Some 0x44B52D02C7E14AF6 /\
  parse_f64 "-5" = Some 0xC014000000000000 /\ parse_f64 "4.9e-324" = Some 1 /\ parse_f64 "1e400" = Some 0x7FF0000000000000 /\
  parse_f64 "." = None /\ parse_f64 "5." = Some 0x4014000000000000 /\ parse_f64 "X1" = None /\
  f64_of_Z 9007199254740993 = 0x4340000000000000.
Proof. vm_compute. done. Qed.
