(* ===== verification/Json.v ===== *)
(** * JSON values as the sources see them

    [serde_json::Value] with the accessors the sources call. A number is kept
    as its three documented views, of which [as_i64] and [as_u64] may fail; the
    entries of an object are kept in order. *)

From S2P Require Import Prelude.

Record Number := mkNumber { num_f64 : option Z; num_i64 : option Z; num_u64 : option Z }.

Inductive Value :=
| VNull
| VBool (b : bool)
| VNumber (n : Number)
| VString (s : string)
| VArray (items : list Value)
| VObject (entries : list (string * Value)).

Definition as_f64 (v : Value) : option Z := match v with VNumber n => num_f64 n | _ => None end.
Definition as_i64 (v : Value) : option Z := match v with VNumber n => num_i64 n | _ => None end.
Definition as_str (v : Value) : option string := match v with VString s => Some s | _ => None end.
Definition as_object (v : Value) : option (list (string * Value)) := match v with VObject m => Some m | _ => None end.

(** [value.get(key)]. *)
Fixpoint entry (key : string) (m : list (string * Value)) : option Value :=
  match m with
  | [] => None
  | (k, v) :: rest => if decide (k = key) then Some v else entry key rest
  end.
(** Numbers of the sizes the sources write. *)
Definition jnat (n : Z) (bits : Z) : Value := VNumber (mkNumber (Some bits) (Some n) (Some n)).
(** What every parsed number satisfies: its views are machine values. *)
Definition number_ok (n : Number) : Prop :=
  (forall b, num_f64 n = Some b -> fits 64 b) /\ (forall u, num_u64 n = Some u -> fits 64 u) /\
  (forall i, num_i64 n = Some i -> - 2 ^ 63 <= i < 2 ^ 63).

Definition value_ok (v : Value) : Prop := match v with VNumber n => number_ok n | _ => True end.
