(* ===== verification/Slot.v ===== *)
(** * The point slot: a seqlock in shared memory

    [crates/aether-dataplane/src/core/slot.rs]. A slot holds an engineering
    value, a raw value and a timestamp behind a [u32] sequence counter that is
    odd while a write is in progress. The atomic accesses of [PointSlot::set]
    and [PointSlot::try_load_consistent] are definitions of their own; the
    sequential operations compose them, and [SeqLock] interleaves the same
    accesses of one writer and one reader in every order.

    Memory model: the release and acquire fences of the source order the
    accesses of each thread; the model executes each thread's accesses in
    program order on one shared slot. *)

From S2P Require Import Prelude.

(** [struct PointSlot]: five atomic cells. *)
Record PointSlot := mkSlot {
  value_bits : Z;
  timestamp : Z;
  raw_bits : Z;
  seq : Z;
  dirty : Z
}.

#[global] Instance PointSlot_eq_dec : EqDecision PointSlot.
Proof. solve_decision. Defined.

(** Quiet NaN, the "no data" marker. *)
Definition SLOT_UNWRITTEN_BITS : Z := 0x7FF8000000000000.

(** What a consistent read returns: value bits, raw bits and timestamp. *)
Definition reading : Type := Z * Z * Z.

Definition slot_new : PointSlot :=
  mkSlot SLOT_UNWRITTEN_BITS 0 SLOT_UNWRITTEN_BITS 0 0.

Definition is_unwritten (s : PointSlot) : bool := f64_is_nan (value_bits s).

Definition init_unwritten (s : PointSlot) : PointSlot :=
  mkSlot SLOT_UNWRITTEN_BITS (timestamp s) SLOT_UNWRITTEN_BITS (seq s) (dirty s).

Definition get_value (s : PointSlot) : Z := value_bits s.
Definition get_timestamp (s : PointSlot) : Z := timestamp s.
Definition get_raw (s : PointSlot) : Z := raw_bits s.
Definition is_dirty (s : PointSlot) : bool := negb (dirty s =? 0).
Definition clear_dirty (s : PointSlot) : PointSlot :=
  mkSlot (value_bits s) (timestamp s) (raw_bits s) (seq s) 0.

(** ** The atomic accesses of [set] *)

(** [seq.fetch_add(1)], wrapping at 32 bits. *)
Definition seq_incr (s : PointSlot) : PointSlot :=
  mkSlot (value_bits s) (timestamp s) (raw_bits s) (wrap 32 (seq s + 1)) (dirty s).
Definition store_value (v : Z) (s : PointSlot) : PointSlot :=
  mkSlot v (timestamp s) (raw_bits s) (seq s) (dirty s).
Definition store_raw (r : Z) (s : PointSlot) : PointSlot :=
  mkSlot (value_bits s) (timestamp s) r (seq s) (dirty s).
Definition store_timestamp (t : Z) (s : PointSlot) : PointSlot :=
  mkSlot (value_bits s) t (raw_bits s) (seq s) (dirty s).
Definition store_dirty (s : PointSlot) : PointSlot :=
  mkSlot (value_bits s) (timestamp s) (raw_bits s) (seq s) 1.

(** [PointSlot::set]: odd sequence, three data stores, even sequence, dirty. *)
Definition set (v r t : Z) (s : PointSlot) : PointSlot :=
  store_dirty (seq_incr (store_timestamp t (store_raw r (store_value v (seq_incr s))))).

(** The [debug_assert!] at the head of [set]: no write is already open. *)
Definition set_entry_ok (s : PointSlot) : bool := negb (Z.odd (seq s)).

(** [PointSlot::try_load_consistent], the five loads run back to back. *)
Definition try_load_consistent (s : PointSlot) : option reading :=
  let seq1 := seq s in
  if Z.odd seq1 then None else
  let value := value_bits s in
  let raw := raw_bits s in
  let ts := timestamp s in
  let seq2 := seq s in
  if seq1 =? seq2 then Some (value, raw, ts) else None.

Definition MAX_CONSISTENCY_RETRIES : nat := Z.to_nat 32768.

(** The loop of [PointSlot::load_consistent]; [attempt i] is the result of its
    [i]-th call of [try_load_consistent] (the slot may change in between). *)
Fixpoint load_retry (n : nat) (i : nat) (attempt : nat -> option reading) : option reading :=
  match n with
  | O => None
  | S n' =>
      match attempt i with
      | Some r => Some r
      | None => load_retry n' (S i) attempt
      end
  end.

Definition load_consistent (attempt : nat -> option reading) : option reading :=
  load_retry MAX_CONSISTENCY_RETRIES 0 attempt.

(** Every field holds a value of its width. *)
Definition slot_wf (s : PointSlot) : Prop :=
  fits 64 (value_bits s) /\ fits 64 (timestamp s) /\ fits 64 (raw_bits s) /\
  fits 32 (seq s) /\ fits 32 (dirty s).

(** The committed content of a slot. *)
Definition content (s : PointSlot) : reading := (value_bits s, raw_bits s, timestamp s).

(** ** Sequential behaviour *)

Lemma wrap32_two_odd z : Z.odd (wrap 32 z) = Z.odd z.
Proof.
  unfold wrap. rewrite <- !Z.bit0_odd. apply Z.mod_pow2_bits_low. lia.
Qed.

Lemma wrap32_incr2 z : wrap 32 (wrap 32 (z + 1) + 1) = wrap 32 (z + 2).
Proof. rewrite wrap_add_l. f_equal. lia. Qed.

Lemma try_load_even s :
  Z.odd (seq s) = false -> try_load_consistent s = Some (content s).
Proof. intros H. unfold try_load_consistent. by rewrite H, Z.eqb_refl. Qed.

Lemma set_seq v r t s : seq (set v r t s) = wrap 32 (seq s + 2).
Proof. apply wrap32_incr2. Qed.

Lemma set_seq_even v r t s :
  set_entry_ok s = true -> set_entry_ok (set v r t s) = true.
Proof.
  unfold set_entry_ok. rewrite set_seq, wrap32_two_odd, Z.odd_add. simpl.
  by rewrite xorb_false_r.
Qed.

Lemma set_wf v r t s :
  fits 64 v -> fits 64 r -> fits 64 t -> slot_wf s -> slot_wf (set v r t s).
Proof.
  intros Hv Hr Ht (_ & _ & _ & Hq & _). unfold slot_wf, set; simpl.
  split_and!; auto with rust lia. unfold fits. lia.
Qed.

Lemma slot_new_wf : slot_wf slot_new.
Proof. unfold slot_wf, fits; simpl. unfold SLOT_UNWRITTEN_BITS. lia. Qed.

Lemma load_retry_Some n i attempt r :
  load_retry n i attempt = Some r <->
  exists k, (k < n)%nat /\ attempt (i + k)%nat = Some r /\
            forall j, (j < k)%nat -> attempt (i + j)%nat = None.
Proof.
  revert i. induction n as [|n IH]; intros i; simpl; [naive_solver lia|].
  destruct (attempt i) as [r'|] eqn:E; split.
  - intros [= ->]. exists 0%nat. rewrite Nat.add_0_r. split_and!; [lia|done|lia].
  - intros (k & Hk & Hr & Hn). destruct k as [|k]; [rewrite Nat.add_0_r in Hr; congruence|].
    specialize (Hn 0%nat ltac:(lia)). rewrite Nat.add_0_r in Hn. congruence.
  - intros (k & Hk & Hr & Hn)%IH. exists (S k). rewrite <- Nat.add_succ_comm.
    split_and!; [lia|done|]. intros [|j] Hj; [by rewrite Nat.add_0_r|].
    rewrite <- Nat.add_succ_comm. apply Hn. lia.
  - intros (k & Hk & Hr & Hn). apply IH. destruct k as [|k].
    + rewrite Nat.add_0_r in Hr. congruence.
    + exists k. rewrite Nat.add_succ_comm. split_and!; [lia|done|].
      intros j Hj. rewrite Nat.add_succ_comm. apply Hn. lia.
Qed.

#[export] Hint Resolve set_wf slot_new_wf : rust.

(** ** One writer, one reader, every interleaving *)

Module SeqLock.

(** Where the writer is inside [set]: the next access it performs. *)
Inductive wpc :=
| WIdle
| WBegun (d : reading)
| WValue (d : reading)
| WRaw (d : reading)
| WTime (d : reading)
| WEnded.

(** Where the reader is inside [try_load_consistent], with its registers.
    [n1] and [n2] are ghosts: the writes completed when the first and the last
    load of the sequence happened. *)
Inductive rpc :=
| RIdle
| RSeq (n1 : nat) (s1 : Z)
| RVal (n1 : nat) (s1 v : Z)
| RRaw (n1 : nat) (s1 v r : Z)
| RTime (n1 : nat) (s1 v r t : Z)
| RDone (n1 n2 : nat) (res : option reading).

(** [hist] is a ghost: the contents committed so far, oldest first, the
    content the slot started with at index 0. *)
Record sys := mkSys {
  slot : PointSlot;
  wr : wpc;
  rd : rpc;
  hist : list reading
}.

Definition writes (s : sys) : nat := pred (length (hist s)).

Definition init (s0 : PointSlot) : sys := mkSys s0 WIdle RIdle [content s0].

(** A write is open: the sequence counter is odd. *)
Definition inflight (w : wpc) : bool :=
  match w with WIdle | WEnded => false | _ => true end.

Inductive step : sys -> sys -> Prop :=
| w_begin s d :
    wr s = WIdle -> step s (mkSys (seq_incr (slot s)) (WBegun d) (rd s) (hist s))
| w_value s v r t :
    wr s = WBegun (v, r, t) ->
    step s (mkSys (store_value v (slot s)) (WValue (v, r, t)) (rd s) (hist s))
| w_raw s v r t :
    wr s = WValue (v, r, t) ->
    step s (mkSys (store_raw r (slot s)) (WRaw (v, r, t)) (rd s) (hist s))
| w_time s v r t :
    wr s = WRaw (v, r, t) ->
    step s (mkSys (store_timestamp t (slot s)) (WTime (v, r, t)) (rd s) (hist s))
| w_end s d :
    wr s = WTime d -> step s (mkSys (seq_incr (slot s)) WEnded (rd s) (hist s ++ [d]))
| w_dirty s :
    wr s = WEnded -> step s (mkSys (store_dirty (slot s)) WIdle (rd s) (hist s))
| r_odd s :
    rd s = RIdle -> Z.odd (seq (slot s)) = true ->
    step s (mkSys (slot s) (wr s) (RDone (writes s) (writes s) None) (hist s))
| r_even s :
    rd s = RIdle -> Z.odd (seq (slot s)) = false ->
    step s (mkSys (slot s) (wr s) (RSeq (writes s) (seq (slot s))) (hist s))
| r_value s n1 s1 :
    rd s = RSeq n1 s1 ->
    step s (mkSys (slot s) (wr s) (RVal n1 s1 (value_bits (slot s))) (hist s))
| r_raw s n1 s1 v :
    rd s = RVal n1 s1 v ->
    step s (mkSys (slot s) (wr s) (RRaw n1 s1 v (raw_bits (slot s))) (hist s))
| r_time s n1 s1 v r :
    rd s = RRaw n1 s1 v r ->
    step s (mkSys (slot s) (wr s) (RTime n1 s1 v r (timestamp (slot s))) (hist s))
| r_check s n1 s1 v r t :
    rd s = RTime n1 s1 v r t ->
    step s (mkSys (slot s) (wr s)
              (RDone n1 (writes s) (if s1 =? seq (slot s) then Some (v, r, t) else None))
              (hist s))
| r_retry s n1 n2 res :
    rd s = RDone n1 n2 res -> step s (mkSys (slot s) (wr s) RIdle (hist s))
| e_clear s :
    step s (mkSys (clear_dirty (slot s)) (wr s) (rd s) (hist s)).

(** *** The invariant *)

Section Invariant.
Context (q0 : Z).

(** The sequence value after [n] completed writes. *)
Definition seq_at (n : nat) (open : bool) : Z :=
  wrap 32 (q0 + 2 * Z.of_nat n + (if open then 1 else 0)).

(** As long as no write has started since the reader's first load, the
    registers it has filled agree with the slot. *)
Definition agrees (s : sys) (n1 : nat) (s1 : Z) (P : reading -> Prop) : Prop :=
  (n1 <= writes s)%nat /\ s1 = seq_at n1 false /\
  (writes s = n1 -> inflight (wr s) = false -> P (content (slot s))).

(** The fields already stored by an open write. *)
Definition stored (w : wpc) (c : reading) : Prop :=
  match w with
  | WValue (v, _, _) => c.1.1 = v
  | WRaw (v, r, _) => c.1 = (v, r)
  | WTime d => c = d
  | _ => True
  end.

Definition reader_inv (s : sys) : Prop :=
  match rd s with
  | RIdle => True
  | RSeq n1 s1 => agrees s n1 s1 (fun _ => True)
  | RVal n1 s1 v => agrees s n1 s1 (fun c => c.1.1 = v)
  | RRaw n1 s1 v r => agrees s n1 s1 (fun c => c.1 = (v, r))
  | RTime n1 s1 v r t => agrees s n1 s1 (fun c => c = (v, r, t))
  | RDone n1 n2 None => True
  | RDone n1 n2 (Some d) =>
      (n1 <= n2)%nat /\ (Z.of_nat (n2 - n1) < 2 ^ 31 -> hist s !! n1 = Some d)
  end.

Definition Inv (s : sys) : Prop :=
  hist s <> [] /\
  seq (slot s) = seq_at (writes s) (inflight (wr s)) /\
  (inflight (wr s) = false -> hist s !! writes s = Some (content (slot s))) /\
  stored (wr s) (content (slot s)) /\
  reader_inv s.

Lemma seq_at_odd n b : Z.odd q0 = false -> Z.odd (seq_at n b) = b.
Proof.
  intros Hq. unfold seq_at. rewrite wrap32_two_odd, Z.odd_add, Z.odd_add, Hq.
  rewrite Z.odd_mul. by destruct b.
Qed.

Lemma seq_at_incr n : wrap 32 (seq_at n false + 1) = seq_at n true.
Proof. unfold seq_at. rewrite wrap_add_l. f_equal. lia. Qed.

Lemma seq_at_next n : wrap 32 (seq_at n true + 1) = seq_at (S n) false.
Proof. unfold seq_at. rewrite wrap_add_l. f_equal. lia. Qed.

(** Fewer than [2^31] writes cannot bring the counter back to its value. *)
Lemma seq_at_inj n1 n2 b :
  Z.odd q0 = false -> (n1 <= n2)%nat -> Z.of_nat (n2 - n1) < 2 ^ 31 ->
  seq_at n1 false = seq_at n2 b -> n1 = n2 /\ b = false.
Proof.
  intros Hq Hle Hlt Heq.
  assert (b = false) as ->.
  { rewrite <- (seq_at_odd n2 b), <- Heq by done. by apply seq_at_odd. }
  split; [|done]. unfold seq_at, wrap in Heq. rewrite !Z.add_0_r in Heq.
  assert (((q0 + 2 * Z.of_nat n2) - (q0 + 2 * Z.of_nat n1)) mod 2 ^ 32 = 0) as Hm.
  { rewrite Zminus_mod, Heq, Z.sub_diag. done. }
  replace (q0 + 2 * Z.of_nat n2 - (q0 + 2 * Z.of_nat n1)) with (2 * Z.of_nat (n2 - n1))
    in Hm by lia.
  rewrite Z.mod_small in Hm by lia. lia.
Qed.

Lemma writes_app (h : list reading) d : h <> [] -> pred (length (h ++ [d])) = S (pred (length h)).
Proof. rewrite length_app. destruct h; simpl; [done|lia]. Qed.

Lemma hist_app_lookup (h : list reading) d n d' : h !! n = Some d' -> (h ++ [d]) !! n = Some d'.
Proof. intros H. apply lookup_app_l_Some. done. Qed.

(** A step of the writer that leaves the history alone keeps what the reader
    knows, provided it opens the write or the write is already open. *)
Lemma reader_inv_store s sl w :
  reader_inv s -> (inflight w = true \/ (inflight w = inflight (wr s) /\ content sl = content (slot s))) ->
  reader_inv (mkSys sl w (rd s) (hist s)).
Proof.
  unfold reader_inv, agrees, writes, content. simpl.
  intros Hr [Hw|[Hw [= Hv Hw' Ht]]]; destruct (rd s) as [| | | | |? ? [?|]]; simpl in *;
    rewrite ?Hw, ?Hv, ?Hw', ?Ht; try done;
    (destruct Hr as (? & ? & Hag); split_and!; [done|done|try done; intros; by apply Hag]).
Qed.

(** Committing the open write extends the history. *)
Lemma reader_inv_commit s sl d :
  hist s <> [] -> reader_inv s -> reader_inv (mkSys sl WEnded (rd s) (hist s ++ [d])).
Proof.
  unfold reader_inv, agrees, writes. simpl. intros Hne Hr.
  destruct (rd s) as [| | | | |n1 n2 [?|]]; simpl in *; rewrite ?writes_app by done;
    try done; try (destruct Hr as (? & ? & ?); split_and!; [lia|done|lia]).
  destruct Hr as [? Hd]. split; [done|]. intros Hlt. apply hist_app_lookup; auto.
Qed.

(** A step of the reader: it fills one more register from the slot. *)
Lemma agrees_read s n1 s1 (P Q : reading -> Prop) rd' :
  agrees s n1 s1 P -> (P (content (slot s)) -> Q (content (slot s))) ->
  agrees (mkSys (slot s) (wr s) rd' (hist s)) n1 s1 Q.
Proof. unfold agrees, writes. simpl. intros (? & ? & ?) HQ. split_and!; auto. Qed.

Lemma reader_inv_check s n1 s1 v r t :
  Z.odd q0 = false ->
  seq (slot s) = seq_at (writes s) (inflight (wr s)) ->
  (inflight (wr s) = false -> hist s !! writes s = Some (content (slot s))) ->
  agrees s n1 s1 (fun c => c = (v, r, t)) ->
  reader_inv (mkSys (slot s) (wr s)
    (RDone n1 (writes s) (if s1 =? seq (slot s) then Some (v, r, t) else None)) (hist s)).
Proof.
  intros Hq Hseq Hcom (Hle & Hs1 & Hag). unfold reader_inv. simpl.
  destruct (Z.eqb_spec s1 (seq (slot s))) as [Heq|]; [|done].
  split; [done|]. intros Hlt. rewrite Hs1, Hseq in Heq.
  apply seq_at_inj in Heq as [-> Hb]; [|done..].
  rewrite Hcom by done. f_equal. by apply Hag.
Qed.

Lemma Inv_step s s' : Z.odd q0 = false -> Inv s -> step s s' -> Inv s'.
Proof.
  intros Hq (Hne & Hseq & Hcom & Hst & Hrd) Hstep.
  destruct Hstep;
    repeat match goal with H : wr s = _ |- _ => rewrite H in Hseq, Hcom, Hst end;
    unfold Inv; simpl in *; unfold writes in *; simpl.
  - split_and!; [done| |done|done|].
    + rewrite Hseq. apply seq_at_incr.
    + apply reader_inv_store; [done|by left].
  - split_and!; [done..|]. apply reader_inv_store; [done|by left].
  - split_and!; [done|done|done|by simplify_eq/=|]. apply reader_inv_store; [done|by left].
  - split_and!; [done|done|done|by simplify_eq/=|]. apply reader_inv_store; [done|by left].
  - split_and!; [by destruct (hist s)| | |done|by apply reader_inv_commit].
    + rewrite writes_app, Hseq by done. apply seq_at_next.
    + intros _. rewrite writes_app by done. rewrite lookup_app_r by (destruct (hist s); simpl in *; [done|lia]).
      replace (S (pred (length (hist s))) - length (hist s))%nat with 0%nat
        by (destruct (hist s); simpl; [done|lia]).
      rewrite <- Hst. done.
  - split_and!; [done..|]. apply reader_inv_store; [done|right]. by rewrite H.
  - split_and!; done.
  - split_and!; [done..|]. unfold reader_inv, agrees, writes. simpl.
    split_and!; [lia| |done]. rewrite Hseq.
    rewrite Hseq, seq_at_odd in H0 by done. by rewrite H0.
  - split_and!; [done..|]. unfold reader_inv in *. rewrite H in Hrd. simpl.
    by eapply agrees_read.
  - split_and!; [done..|]. unfold reader_inv in *. rewrite H in Hrd. simpl.
    eapply agrees_read; [done|]. simpl. by intros ->.
  - split_and!; [done..|]. unfold reader_inv in *. rewrite H in Hrd. simpl.
    eapply agrees_read; [done|]. unfold content. simpl. intros [= -> ->]. done.
  - split_and!; [done..|]. unfold reader_inv in Hrd. rewrite H in Hrd.
    by apply reader_inv_check.
  - split_and!; done.
  - split_and!; [done..|]. apply reader_inv_store; [done|by right].
Qed.

Lemma Inv_init s0 : seq s0 = q0 -> fits 32 q0 -> Inv (init s0).
Proof.
  intros Hs Hf. unfold Inv, init, writes, seq_at, reader_inv; simpl.
  split_and!; [done| |done..]. rewrite !Z.add_0_r, wrap_small by done. done.
Qed.
End Invariant.

Lemma reachable_Inv s0 s :
  slot_wf s0 -> set_entry_ok s0 = true -> rtc step (init s0) s -> Inv (seq s0) s.
Proof.
  intros (_ & _ & _ & Hq & _) Ho Hr.
  apply negb_true_iff in Ho.
  eapply (rtc_invariant step (Inv (seq s0))); [|exact Hr|by apply Inv_init].
  intros x y Hx Hxy. by eapply Inv_step.
Qed.

(** *** Running whole writes *)

Definition set_of (d : reading) (sl : PointSlot) : PointSlot :=
  set d.1.1 d.1.2 d.2 sl.

(** The six accesses of [set], run without interference, are one [set]. *)
Lemma run_set s d :
  wr s = WIdle ->
  rtc step s (mkSys (set_of d (slot s)) WIdle (rd s) (hist s ++ [d])).
Proof.
  destruct d as [[v r] t]. intros Hw.
  eapply rtc_l; [by apply w_begin with (d := (v, r, t))|].
  eapply rtc_l; [by eapply w_value|]. eapply rtc_l; [by eapply w_raw|].
  eapply rtc_l; [by eapply w_time|]. eapply rtc_l; [by eapply w_end|].
  eapply rtc_l; [by eapply w_dirty|]. apply rtc_refl.
Qed.

Lemma run_sets k d s :
  wr s = WIdle ->
  rtc step s (mkSys (Nat.iter k (set_of d) (slot s)) WIdle (rd s) (hist s ++ replicate k d)).
Proof.
  induction k as [|k IH]; intros Hw; simpl.
  - rewrite app_nil_r. destruct s; simpl in *; subst. apply rtc_refl.
  - etrans; [by apply IH|]. replace (d :: replicate k d) with (replicate k d ++ [d]).
    + rewrite app_assoc. apply (run_set (mkSys _ WIdle _ _)). done.
    + by rewrite <- replicate_S_end.
Qed.

Lemma iter_set_seq k d sl :
  fits 32 (seq sl) -> seq (Nat.iter k (set_of d) sl) = wrap 32 (seq sl + 2 * Z.of_nat k).
Proof.
  intros Hf. induction k as [|k IH].
  - simpl. rewrite Z.add_0_r. by rewrite wrap_small.
  - rewrite Nat.iter_succ. unfold set_of at 1. rewrite set_seq, IH, wrap_add_l. f_equal. lia.
Qed.

Lemma iter_set_content k d sl :
  (0 < k)%nat -> content (Nat.iter k (set_of d) sl) = d.
Proof. destruct k; [lia|]. intros _. by destruct d as [[v r] t]. Qed.

(** ** Properties *)

(** C1. No torn reads: whatever the interleaving of a single writer and a
    reader, a reading that [try_load_consistent] accepts is exactly the
    content committed by one whole write (or the initial content), namely the
    one current when the read began, as long as fewer than [2^31] writes
    complete during that one read. *)
Theorem seqlock_no_torn_read s0 s n1 n2 d :
  slot_wf s0 -> set_entry_ok s0 = true -> rtc step (init s0) s ->
  rd s = RDone n1 n2 (Some d) -> Z.of_nat (n2 - n1) < 2 ^ 31 ->
  hist s !! n1 = Some d.
Proof.
  intros Hwf Ho Hr Hd Hlt. apply reachable_Inv in Hr as (_ & _ & _ & _ & Hrd); [|done..].
  unfold reader_inv in Hrd. rewrite Hd in Hrd. by apply Hrd.
Qed.

(** Runs one step of a concrete system and evaluates the state it reaches. *)
Ltac run_step c := eapply rtc_l; [eapply c; reflexivity|]; vm_compute.

(** A reader that starts before a write and is overtaken by it. *)
Definition overtaken : sys :=
  mkSys (set_of (1, 2, 3) slot_new) WIdle
    (RDone 1 1 (Some (1, 2, 3))) [content slot_new; (1, 2, 3)].

Lemma seqlock_no_torn_read_witness :
  rtc step (init slot_new) overtaken /\ hist overtaken !! 1%nat = Some (1, 2, 3).
Proof.
  assert (rtc step (init slot_new) overtaken) as Hr.
  { run_step (w_begin (init slot_new) (1, 2, 3)).
    run_step r_odd. run_step r_retry. run_step w_value. run_step w_raw. run_step w_time.
    run_step w_end. run_step r_even. run_step r_value. run_step w_dirty. run_step r_raw.
    run_step r_time. run_step r_check. apply rtc_refl. }
  split; [exact Hr|].
  apply (seqlock_no_torn_read slot_new overtaken 1 1 (1, 2, 3));
    [apply slot_new_wf|reflexivity|exact Hr|reflexivity|simpl; lia].
Defined.

(** C40. The bound is exact: with [2^31] writes inside one read the [u32]
    counter comes back to its value and a reading mixing two writes is
    accepted. *)
Theorem seqlock_bound_is_exact :
  exists s n1 n2 d,
    rtc step (init slot_new) s /\ rd s = RDone n1 n2 (Some d) /\
    Z.of_nat (n2 - n1) = 2 ^ 31 /\ d ∉ hist s.
Proof.
  destruct (Z_of_nat_complete (2 ^ 31)) as [k Hk]; [lia|].
  assert (0 < k)%nat as Hpos by lia.
  set (w := (1, 1, 1) : reading).
  assert (exists sl, rtc step (init slot_new)
      (mkSys sl WIdle (RVal 0 0 SLOT_UNWRITTEN_BITS) (content slot_new :: replicate k w)) /\
      seq sl = 0 /\ content sl = w) as (sl & Hr & Hs & Hc).
  { exists (Nat.iter k (set_of w) slot_new). split_and!.
    - eapply rtc_l; [by apply r_even|]. eapply rtc_l; [by eapply r_value|].
      by apply (run_sets k w (mkSys slot_new WIdle (RVal 0 0 SLOT_UNWRITTEN_BITS) [content slot_new])).
    - rewrite iter_set_seq, <- Hk; [done|]. unfold fits; simpl; lia.
    - by apply iter_set_content. }
  injection Hc as _ Hraw Hts.
  exists (mkSys sl WIdle (RDone 0 k (Some (SLOT_UNWRITTEN_BITS, 1, 1)))
            (content slot_new :: replicate k w)), 0%nat, k, (SLOT_UNWRITTEN_BITS, 1, 1).
  split_and!; [|done|lia|].
  - etrans; [exact Hr|]. eapply rtc_l; [by eapply r_raw|]. eapply rtc_l; [by eapply r_time|].
    eapply rtc_l; [by eapply r_check|]. simpl.
    rewrite Hs, Hraw, Hts. unfold writes. simpl. rewrite length_replicate. apply rtc_refl.
  - intros [Heq|Hin]%elem_of_cons; [discriminate Heq|].
    apply elem_of_replicate_inv in Hin. discriminate Hin.
Qed.

(** The [debug_assert!] of [set] never fires under a single writer: in
    every reachable state where the writer is outside [set], the counter is
    even. *)
Lemma seqlock_entry_assertion s0 s :
  slot_wf s0 -> set_entry_ok s0 = true -> rtc step (init s0) s -> wr s = WIdle ->
  set_entry_ok (slot s) = true.
Proof.
  intros Hwf Ho Hr Hw. pose proof Hr as Hr'.
  apply reachable_Inv in Hr' as (_ & Hseq & _); [|done..].
  unfold set_entry_ok in *. rewrite Hseq, Hw, seq_at_odd; [done|].
  by apply negb_true_iff.
Qed.

End SeqLock.

(** A completed [set] is what the next [load_consistent] returns, at its
    first attempt; the slot is then dirty, ready for another [set], and no
    longer reports the unwritten marker when the value is not a NaN. *)
Lemma set_load_roundtrip v r t s :
  set_entry_ok s = true ->
  load_consistent (fun _ => try_load_consistent (set v r t s)) = Some (v, r, t) /\
  is_dirty (set v r t s) = true /\
  set_entry_ok (set v r t s) = true /\
  is_unwritten (set v r t s) = f64_is_nan v.
Proof.
  intros Ho. pose proof (set_seq_even v r t s Ho) as He. split_and!; try done.
  apply load_retry_Some. exists 0%nat. split_and!; [unfold MAX_CONSISTENCY_RETRIES; lia| |lia].
  rewrite try_load_even; [done|]. by apply negb_true_iff in He.
Qed.
