(* ===== verification/Bitmap.v ===== *)
(** * The slot allocator: a bitmap with a first-free hint

    [crates/aether-dataplane/src/core/bitmap.rs]: the in-memory [SlotBitmap]
    and the shared-memory [SlotBitmapView] whose header counters are atomics
    of 32 bits. Slot numbers ([usize]) are [nat]; words are 64-bit [Z].

    An index into the word vector is total here; [word_in_range] shows it is in
    range for every slot below [total_slots], and [free], which takes its range
    from the caller, panics where the source does. *)

From S2P Require Import Prelude.

(** [bitmap_data_size], in bytes: one [u64] word per started 64 slots. *)
Definition bitmap_data_size (total : nat) : nat := div_ceil64 total * 8.

(** [SlotBitmapHeader::SIZE] plus the data. *)
Definition total_bitmap_size (total : nat) : nat := 64 + bitmap_data_size total.

Record SlotAllocation := mkAlloc { base_slot : nat; count : nat }.

#[global] Instance SlotAllocation_eq_dec : EqDecision SlotAllocation.
Proof. solve_decision. Defined.

(** ** Words and bits *)

(** [self.bitmap[slot / 64] & (1 << (slot % 64)) != 0]. *)
Definition word_bit (words : list Z) (slot : nat) : bool :=
  negb (Z.land (default 0 (words !! (slot / 64)%nat)) (Z.shiftl 1 (Z.of_nat (slot mod 64))) =? 0).

(** [self.bitmap[slot / 64] |= 1 << (slot % 64)]. *)
Definition set_bit (words : list Z) (slot : nat) : list Z :=
  alter (fun w => Z.lor w (Z.shiftl 1 (Z.of_nat (slot mod 64)))) (slot / 64)%nat words.

(** [self.bitmap[slot / 64] &= !(1 << (slot % 64))]. *)
Definition clear_bit (words : list Z) (slot : nat) : list Z :=
  alter (fun w => Z.land w (bit_not 64 (Z.shiftl 1 (Z.of_nat (slot mod 64))))) (slot / 64)%nat words.

(** The scan shared by both [find_contiguous_free] bodies: [fuel] slots remain
    from [slot] on; [alloc] is [is_allocated]. *)
Fixpoint find_free_loop (alloc : nat -> bool) (slot fuel consecutive block_start cnt : nat)
  : option nat :=
  match fuel with
  | O => None
  | S fuel' =>
      if alloc slot then find_free_loop alloc (S slot) fuel' 0 (S slot) cnt
      else
        let consecutive := S consecutive in
        if (cnt <=? consecutive)%nat then Some block_start
        else find_free_loop alloc (S slot) fuel' consecutive block_start cnt
  end.

(** ** [SlotBitmap] *)

Record SlotBitmap := mkBitmap {
  total_slots : nat;
  allocated_count : nat;
  first_free_hint : nat;
  bitmap : list Z
}.

Definition bitmap_new (total : nat) : SlotBitmap :=
  mkBitmap total 0 0 (replicate (div_ceil64 total) 0).

Definition free_count (b : SlotBitmap) : nat := total_slots b - allocated_count b.

Definition is_allocated (b : SlotBitmap) (slot : nat) : bool :=
  if (total_slots b <=? slot)%nat then false else word_bit (bitmap b) slot.

Definition find_contiguous_free (b : SlotBitmap) (start cnt : nat) : option nat :=
  find_free_loop (is_allocated b) start (total_slots b - start) 0 start cnt.

Definition mark_allocated (b : SlotBitmap) (base cnt : nat) : SlotBitmap :=
  mkBitmap (total_slots b) (allocated_count b + cnt)
    (if (base + cnt <? total_slots b)%nat then (base + cnt)%nat else first_free_hint b)
    (foldl set_bit (bitmap b) (seq base cnt)).

Definition alloc_contiguous (b : SlotBitmap) (cnt : nat) : SlotBitmap * option SlotAllocation :=
  if (cnt =? 0)%nat then (b, None)
  else if (free_count b <? cnt)%nat then (b, None)
  else
    let start_pos := Nat.min (first_free_hint b) (total_slots b - cnt) in
    match find_contiguous_free b start_pos cnt with
    | Some base => (mark_allocated b base cnt, Some (mkAlloc base cnt))
    | None =>
        if (0 <? start_pos)%nat then
          match find_contiguous_free b 0 cnt with
          | Some base => (mark_allocated b base cnt, Some (mkAlloc base cnt))
          | None => (b, None)
          end
        else (b, None)
    end.

(** [SlotBitmap::free]. [dbg] is the build's [debug_assertions] (which also
    enable overflow checks): the range assertion and the counter underflow
    panic there and are silent, the counter wrapping, in release; indexing
    past the word vector panics in both. *)
Definition free (dbg : bool) (b : SlotBitmap) (base cnt : nat) : outcome unit SlotBitmap :=
  if dbg && (total_slots b <? base + cnt)%nat then Panic
  else if (0 <? cnt)%nat && (length (bitmap b) <=? (base + cnt - 1) / 64)%nat then Panic
  else if dbg && (allocated_count b <? cnt)%nat then Panic
  else
    Ok (mkBitmap (total_slots b)
          (Z.to_nat (wrap 64 (Z.of_nat (allocated_count b) - Z.of_nat cnt)))
          (if (base <? first_free_hint b)%nat then base else first_free_hint b)
          (foldl clear_bit (bitmap b) (seq base cnt))).

Record BitmapStats := mkStats {
  st_total : nat; st_allocated : nat; st_free : nat; st_utilization_pct : nat
}.

Definition stats (b : SlotBitmap) : BitmapStats :=
  mkStats (total_slots b) (allocated_count b) (free_count b)
    (if (0 <? total_slots b)%nat then (allocated_count b * 100) / total_slots b else 0)%nat.

(** ** Well-formed bitmaps *)

(** How many of the first [n] slots satisfy [f]. *)
Fixpoint count_true (f : nat -> bool) (n : nat) : nat :=
  match n with
  | O => O
  | S n' => count_true f n' + Nat.b2n (f n')
  end.

Definition wf (b : SlotBitmap) : Prop :=
  length (bitmap b) = div_ceil64 (total_slots b) /\
  Forall (fits 64) (bitmap b) /\
  allocated_count b = count_true (is_allocated b) (total_slots b).

(** All slots of a range are free. *)
Definition free_run (b : SlotBitmap) (base cnt : nat) : Prop :=
  (base + cnt <= total_slots b)%nat /\
  forall i, (base <= i < base + cnt)%nat -> is_allocated b i = false.

Definition in_range (base cnt i : nat) : bool := (base <=? i)%nat && (i <? base + cnt)%nat.

(** *** Counting *)

Lemma count_true_ext f g n :
  (forall i, (i < n)%nat -> f i = g i) -> count_true f n = count_true g n.
Proof. intros H. induction n as [|n IH]; simpl; [done|]. rewrite IH, H by auto; done. Qed.

Lemma count_true_le f n : (count_true f n <= n)%nat.
Proof. induction n as [|n IH]; simpl; [done|]. destruct (f n); simpl; lia. Qed.

Lemma count_true_disjoint f g n :
  (forall i, (i < n)%nat -> f i && g i = false) ->
  count_true (fun i => f i || g i) n = (count_true f n + count_true g n)%nat.
Proof.
  intros H. induction n as [|n IH]; simpl; [done|]. rewrite IH by auto.
  specialize (H n ltac:(lia)). destruct (f n), (g n); simpl in *; try lia; done.
Qed.

Lemma count_true_range base cnt n :
  (base + cnt <= n)%nat -> count_true (in_range base cnt) n = cnt.
Proof.
  assert (forall m, count_true (in_range base cnt) m = (Nat.min m (base + cnt) - Nat.min m base)%nat) as H.
  { induction m as [|m IH]; cbn [count_true]; [lia|]. rewrite IH. unfold in_range.
    destruct (Nat.leb_spec base m), (Nat.ltb_spec m (base + cnt)); cbn [andb Nat.b2n]; lia. }
  intros. rewrite H. lia.
Qed.

Lemma count_true_false n : count_true (fun _ => false) n = 0%nat.
Proof. induction n; simpl; lia. Qed.

(** *** Bits of the word vector *)

Lemma word_bit_testbit words slot :
  word_bit words slot = Z.testbit (default 0 (words !! (slot / 64)%nat)) (Z.of_nat (slot mod 64)).
Proof. unfold word_bit. rewrite land_one_shl_zero by lia. apply negb_involutive. Qed.

Lemma word_in_range total slot :
  (slot < total)%nat -> (slot / 64 < div_ceil64 total)%nat.
Proof.
  intros H. unfold div_ceil64.
  pose proof (Nat.div_mod_eq slot 64). pose proof (Nat.div_mod_eq (total + 63) 64).
  pose proof (Nat.mod_upper_bound slot 64 ltac:(done)).
  pose proof (Nat.mod_upper_bound (total + 63) 64 ltac:(done)). lia.
Qed.

Lemma slot_split_inj i j : (i / 64 = j / 64)%nat -> (i mod 64 = j mod 64)%nat -> i = j.
Proof. intros. pose proof (Nat.div_mod_eq i 64). pose proof (Nat.div_mod_eq j 64). lia. Qed.

(** [set_bit] changes the bit of its slot only. *)
Lemma word_bit_set words s i :
  (s / 64 < length words)%nat ->
  word_bit (set_bit words s) i = word_bit words i || (s =? i)%nat.
Proof.
  intros Hs. rewrite !word_bit_testbit. unfold set_bit.
  destruct (decide (s / 64 = i / 64)%nat) as [He|Hne].
  - rewrite <- He, list_lookup_alter_eq.
    apply lookup_lt_is_Some in Hs as [w Hw]. rewrite Hw. simpl.
    rewrite testbit_set by lia. f_equal.
    destruct (Nat.eqb_spec s i) as [->|Hn]; [apply Z.eqb_refl|].
    apply Z.eqb_neq. intros Hm%Nat2Z.inj. by apply Hn, slot_split_inj.
  - rewrite list_lookup_alter_ne by done.
    destruct (Nat.eqb_spec s i) as [->|_]; [done|]. by rewrite orb_false_r.
Qed.

Lemma word_bit_clear words s i :
  (s / 64 < length words)%nat ->
  word_bit (clear_bit words s) i = word_bit words i && negb (s =? i)%nat.
Proof.
  intros Hs. rewrite !word_bit_testbit. unfold clear_bit.
  destruct (decide (s / 64 = i / 64)%nat) as [He|Hne].
  - rewrite <- He, list_lookup_alter_eq.
    apply lookup_lt_is_Some in Hs as [w Hw]. rewrite Hw. simpl.
    pose proof (Nat.mod_upper_bound i 64 ltac:(done)).
    rewrite testbit_clear by lia. do 2 f_equal.
    destruct (Nat.eqb_spec s i) as [->|Hn]; [apply Z.eqb_refl|].
    apply Z.eqb_neq. intros Hm%Nat2Z.inj. by apply Hn, slot_split_inj.
  - rewrite list_lookup_alter_ne by done.
    destruct (Nat.eqb_spec s i) as [->|_]; [done|]. by rewrite andb_true_r.
Qed.

Lemma Forall_alter_fits (f : Z -> Z) words k :
  (forall w, fits 64 w -> fits 64 (f w)) -> Forall (fits 64) words ->
  Forall (fits 64) (alter f k words).
Proof. intros Hf Hw. apply Forall_alter; auto. Qed.

(** The loops of [mark_allocated] and [free] over a range of slots. *)
Lemma foldl_set_bit words base n i :
  (forall s, (base <= s < base + n)%nat -> (s / 64 < length words)%nat) ->
  word_bit (foldl set_bit words (seq base n)) i = word_bit words i || in_range base n i.
Proof.
  revert words base. induction n as [|n IH]; intros words base H; simpl.
  - unfold in_range. destruct (Nat.leb_spec base i), (Nat.ltb_spec i (base + 0)); simpl;
      rewrite ?orb_false_r; done || lia.
  - rewrite IH, word_bit_set; [|apply H; lia|].
    + rewrite <- orb_assoc. f_equal. unfold in_range.
      destruct (Nat.eqb_spec base i), (Nat.leb_spec base i), (Nat.leb_spec (S base) i),
        (Nat.ltb_spec i (S base + n)), (Nat.ltb_spec i (base + S n)); simpl; done || lia.
    + intros s Hs. unfold set_bit. rewrite length_alter. apply H. lia.
Qed.

Lemma foldl_clear_bit words base n i :
  (forall s, (base <= s < base + n)%nat -> (s / 64 < length words)%nat) ->
  word_bit (foldl clear_bit words (seq base n)) i = word_bit words i && negb (in_range base n i).
Proof.
  revert words base. induction n as [|n IH]; intros words base H; simpl.
  - unfold in_range. destruct (Nat.leb_spec base i), (Nat.ltb_spec i (base + 0)); simpl;
      rewrite ?andb_true_r; done || lia.
  - rewrite IH, word_bit_clear; [|apply H; lia|].
    + rewrite <- andb_assoc. f_equal. unfold in_range.
      destruct (Nat.eqb_spec base i), (Nat.leb_spec base i), (Nat.leb_spec (S base) i),
        (Nat.ltb_spec i (S base + n)), (Nat.ltb_spec i (base + S n)); simpl; done || lia.
    + intros s Hs. unfold clear_bit. rewrite length_alter. apply H. lia.
Qed.

Lemma foldl_words_wf (f : list Z -> nat -> list Z) words l :
  (forall ws s, length (f ws s) = length ws /\ (Forall (fits 64) ws -> Forall (fits 64) (f ws s))) ->
  Forall (fits 64) words ->
  length (foldl f words l) = length words /\ Forall (fits 64) (foldl f words l).
Proof.
  intros Hf. revert words. induction l as [|s l IH]; intros words Hw; simpl; [done|].
  destruct (Hf words s) as [Hl Hwf]. rewrite <- Hl. apply IH. auto.
Qed.

Lemma set_bit_wf ws s :
  length (set_bit ws s) = length ws /\ (Forall (fits 64) ws -> Forall (fits 64) (set_bit ws s)).
Proof.
  split; [apply length_alter|]. apply Forall_alter_fits. intros w Hw.
  apply fits_lor; [lia|done|]. apply fits_one_shl.
  pose proof (Nat.mod_upper_bound s 64 ltac:(done)). lia.
Qed.

Lemma clear_bit_wf ws s :
  length (clear_bit ws s) = length ws /\ (Forall (fits 64) ws -> Forall (fits 64) (clear_bit ws s)).
Proof.
  split; [apply length_alter|]. apply Forall_alter_fits. intros w Hw.
  apply fits_land_l; [lia|done].
Qed.

(** *** The first-fit scan *)

(** Loop invariant of [find_contiguous_free]: slots [block_start, slot) are free,
    fewer than [cnt] of them, and no run starts in [start, block_start). *)
Lemma find_free_loop_spec (b : SlotBitmap) start cnt slot fuel consecutive block_start :
  (0 < cnt)%nat ->
  (slot + fuel = total_slots b)%nat ->
  (block_start + consecutive = slot)%nat -> (start <= block_start)%nat ->
  (consecutive < cnt)%nat ->
  (forall i, (block_start <= i < slot)%nat -> is_allocated b i = false) ->
  (forall base, (start <= base < block_start)%nat -> ~ free_run b base cnt) ->
  match find_free_loop (is_allocated b) slot fuel consecutive block_start cnt with
  | Some base =>
      (start <= base)%nat /\ free_run b base cnt /\
      forall base', (start <= base' < base)%nat -> ~ free_run b base' cnt
  | None => forall base, (start <= base)%nat -> ~ free_run b base cnt
  end.
Proof.
  intros Hcnt. revert slot consecutive block_start.
  induction fuel as [|fuel IH]; intros slot consecutive block_start Htot Hbs Hst Hc Hfree Hnone; simpl.
  - intros base Hb [Hle Hrun]. destruct (decide (base < block_start)%nat); [|lia].
    eapply Hnone; [|split; eauto]. lia.
  - destruct (is_allocated b slot) eqn:Ea.
    + apply IH; try lia. intros base Hb Hr. destruct (decide (base < block_start)%nat).
      * eapply Hnone; eauto. lia.
      * destruct Hr as [_ Hr]. rewrite Hr in Ea by lia. done.
    + assert (forall i, (block_start <= i < S slot)%nat -> is_allocated b i = false) as Hfree'.
      { intros i Hi. destruct (decide (i = slot)) as [->|]; [done|]. apply Hfree. lia. }
      destruct (Nat.leb_spec cnt (S consecutive)) as [Hle|Hlt].
      * split_and!; [lia| |done]. split; [lia|]. intros i Hi. apply Hfree'. lia.
      * apply IH; try lia; done.
Qed.

Lemma find_contiguous_free_spec b start cnt :
  (0 < cnt)%nat -> (start <= total_slots b)%nat ->
  match find_contiguous_free b start cnt with
  | Some base =>
      (start <= base)%nat /\ free_run b base cnt /\
      forall base', (start <= base' < base)%nat -> ~ free_run b base' cnt
  | None => forall base, (start <= base)%nat -> ~ free_run b base cnt
  end.
Proof. intros. apply find_free_loop_spec; try lia; intros; lia. Qed.

(** *** Marking and freeing a range *)

Lemma range_words b base cnt :
  length (bitmap b) = div_ceil64 (total_slots b) -> (base + cnt <= total_slots b)%nat ->
  forall s, (base <= s < base + cnt)%nat -> (s / 64 < length (bitmap b))%nat.
Proof. intros Hl Hle s Hs. rewrite Hl. apply word_in_range. lia. Qed.

Lemma is_allocated_mark b base cnt i :
  wf b -> (base + cnt <= total_slots b)%nat ->
  is_allocated (mark_allocated b base cnt) i = is_allocated b i || in_range base cnt i.
Proof.
  intros (Hl & _ & _) Hle. unfold is_allocated. simpl.
  destruct (Nat.leb_spec (total_slots b) i).
  - unfold in_range. destruct (Nat.ltb_spec i (base + cnt)); [lia|]. by rewrite andb_false_r.
  - apply foldl_set_bit. by apply range_words.
Qed.

Lemma mark_allocated_wf b base cnt :
  wf b -> free_run b base cnt -> wf (mark_allocated b base cnt).
Proof.
  intros Hwf [Hle Hfree]. pose proof Hwf as (Hl & Hf & Hc).
  destruct (foldl_words_wf set_bit (bitmap b) (seq base cnt) set_bit_wf Hf) as [Hl' Hf'].
  split_and!; [simpl; congruence|done|].
  change (total_slots (mark_allocated b base cnt)) with (total_slots b).
  rewrite (count_true_ext _ (fun i => is_allocated b i || in_range base cnt i))
    by (intros; by apply is_allocated_mark).
  rewrite count_true_disjoint.
  - by rewrite count_true_range, <- Hc.
  - intros i _. unfold in_range. destruct (is_allocated b i) eqn:E; [|done]. simpl.
    destruct (Nat.leb_spec base i), (Nat.ltb_spec i (base + cnt)); simpl; try done.
    rewrite Hfree in E by lia. done.
Qed.

(** Every way [alloc_contiguous] succeeds marks a free run it found. *)
Lemma alloc_contiguous_cases b cnt :
  wf b ->
  (exists base, free_run b base cnt /\ (0 < cnt)%nat /\
     alloc_contiguous b cnt = (mark_allocated b base cnt, Some (mkAlloc base cnt))) \/
  (alloc_contiguous b cnt = (b, None) /\
     (cnt = 0%nat \/ forall base, ~ free_run b base cnt)).
Proof.
  intros (_ & _ & Hc). unfold alloc_contiguous.
  destruct (Nat.eqb_spec cnt 0) as [->|Hcnt]; [by auto|].
  unfold free_count. destruct (Nat.ltb_spec (total_slots b - allocated_count b) cnt) as [Hfew|Hok].
  { right. split; [done|]. right. intros base [Hle Hrun].
    assert (count_true (is_allocated b) (total_slots b) + cnt <= total_slots b)%nat; [|lia].
    rewrite <- (count_true_range base cnt (total_slots b)) at 1 by done.
    rewrite <- count_true_disjoint; [apply count_true_le|].
    intros i _. unfold in_range. destruct (is_allocated b i) eqn:E; [|done]. simpl.
    destruct (Nat.leb_spec base i), (Nat.ltb_spec i (base + cnt)); simpl; try done.
    rewrite Hrun in E by lia. done. }
  set (start := Nat.min _ _).
  pose proof (find_contiguous_free_spec b start cnt ltac:(lia) ltac:(lia)) as H1.
  destruct (find_contiguous_free b start cnt) as [base|] eqn:E1.
  { left. exists base. naive_solver lia. }
  pose proof (find_contiguous_free_spec b 0 cnt ltac:(lia) ltac:(lia)) as H2.
  destruct (Nat.ltb_spec 0 start).
  - destruct (find_contiguous_free b 0 cnt) as [base|] eqn:E2.
    + left. exists base. naive_solver lia.
    + right. split; [done|]. right. intros base. apply H2. lia.
  - right. split; [done|]. right. intros base. apply H1. lia.
Qed.

Lemma is_allocated_free dbg b base cnt b' i :
  wf b -> (base + cnt <= total_slots b)%nat -> free dbg b base cnt = Ok b' ->
  is_allocated b' i = is_allocated b i && negb (in_range base cnt i).
Proof.
  intros (Hl & _ & _) Hle. unfold free. do 3 (split_if; [discriminate|]). intros [= <-].
  unfold is_allocated. simpl. destruct (Nat.leb_spec (total_slots b) i); [done|].
  apply foldl_clear_bit. by apply range_words.
Qed.

(** On an allocated range [free] takes none of its panicking branches. *)
Lemma free_ok dbg b base cnt :
  length (bitmap b) = div_ceil64 (total_slots b) -> (base + cnt <= total_slots b)%nat ->
  (cnt <= allocated_count b)%nat -> Z.of_nat (allocated_count b) < 2 ^ 64 ->
  free dbg b base cnt =
  Ok (mkBitmap (total_slots b) (allocated_count b - cnt)
        (if (base <? first_free_hint b)%nat then base else first_free_hint b)
        (foldl clear_bit (bitmap b) (seq base cnt))).
Proof.
  intros Hl Hle Hc Hfit. unfold free.
  replace (total_slots b <? base + cnt)%nat with false by (symmetry; apply Nat.ltb_ge; lia).
  replace (allocated_count b <? cnt)%nat with false by (symmetry; apply Nat.ltb_ge; lia).
  rewrite !andb_false_r. destruct (Nat.ltb_spec 0 cnt); cbn [andb].
  - destruct (Nat.leb_spec (length (bitmap b)) ((base + cnt - 1) / 64)) as [Hge|].
    { rewrite Hl in Hge. pose proof (word_in_range (total_slots b) (base + cnt - 1)). lia. }
    rewrite wrap_small by (unfold fits; lia).
    by replace (Z.to_nat (Z.of_nat (allocated_count b) - Z.of_nat cnt))
      with (allocated_count b - cnt)%nat by lia.
  - rewrite wrap_small by (unfold fits; lia).
    by replace (Z.to_nat (Z.of_nat (allocated_count b) - Z.of_nat cnt))
      with (allocated_count b - cnt)%nat by lia.
Qed.

(** The slots of an allocated range, counted apart from the others. *)
Lemma count_true_remove b base cnt :
  (base + cnt <= total_slots b)%nat ->
  (forall i, (base <= i < base + cnt)%nat -> is_allocated b i = true) ->
  (count_true (is_allocated b) (total_slots b) =
   count_true (fun i => is_allocated b i && negb (in_range base cnt i)) (total_slots b) + cnt)%nat.
Proof.
  intros Hle Hall.
  etrans; [|exact (f_equal (Nat.add _) (count_true_range base cnt (total_slots b) Hle))].
  rewrite <- count_true_disjoint.
  - apply count_true_ext. intros i _. destruct (in_range base cnt i) eqn:E; simpl.
    + unfold in_range in E. bool_facts. rewrite Hall by lia. done.
    + by rewrite andb_true_r, orb_false_r.
  - intros i _. destruct (in_range base cnt i); simpl; by rewrite ?andb_false_r.
Qed.

Lemma free_wf dbg b base cnt b' :
  wf b -> (base + cnt <= total_slots b)%nat -> Z.of_nat (total_slots b) < 2 ^ 64 ->
  (forall i, (base <= i < base + cnt)%nat -> is_allocated b i = true) ->
  free dbg b base cnt = Ok b' -> wf b' /\ (allocated_count b' + cnt = allocated_count b)%nat.
Proof.
  intros Hwf Hle Hfit Hall Hfree. pose proof Hwf as (Hl & Hf & Hc).
  pose proof (count_true_remove b base cnt Hle Hall) as Hr.
  pose proof (count_true_le (is_allocated b) (total_slots b)) as Hb.
  pose proof (fun i => is_allocated_free dbg b base cnt _ i Hwf Hle Hfree) as Hi.
  rewrite free_ok in Hfree by (try done; lia). simplify_eq.
  destruct (foldl_words_wf clear_bit (bitmap b) (seq base cnt) clear_bit_wf Hf) as [Hl' Hf'].
  split; [unfold wf; split_and!; simpl; [congruence|done|]|simpl; lia].
  rewrite (count_true_ext _ _ _ (fun i _ => Hi i)). lia.
Qed.

Lemma bitmap_new_free total i : is_allocated (bitmap_new total) i = false.
Proof.
  unfold is_allocated. split_if; [done|]. simpl. rewrite word_bit_testbit.
  destruct (replicate (div_ceil64 total) 0 !! (i / 64)%nat) as [w|] eqn:Hw; simpl; [|apply Z.bits_0].
  apply lookup_replicate in Hw as [-> _]. apply Z.bits_0.
Qed.

Lemma bitmap_new_wf total : wf (bitmap_new total).
Proof.
  split_and!; simpl.
  - apply length_replicate.
  - apply Forall_replicate. unfold fits. lia.
  - rewrite (count_true_ext _ (fun _ => false)), count_true_false; [done|].
    intros. apply bitmap_new_free.
Qed.

Lemma alloc_contiguous_wf b cnt : wf b -> wf (alloc_contiguous b cnt).1.
Proof.
  intros Hwf. destruct (alloc_contiguous_cases b cnt Hwf) as [(base & Hr & _ & ->)|[-> _]]; simpl;
    [by apply mark_allocated_wf|done].
Qed.

#[export] Hint Resolve bitmap_new_wf alloc_contiguous_wf : rust.

(** ** [SlotBitmapView]: the allocator over a shared-memory header *)

Module View.

(** The atomics of [SlotBitmapHeader] (32-bit) and the mapped words. *)
Record SlotBitmapView := mkView {
  v_total : Z;
  v_allocated : Z;
  v_hint : Z;
  v_bitmap : list Z
}.

(** [SlotBitmapHeader::init] followed by [init_all_free]. *)
Definition init_all_free (v : SlotBitmapView) : SlotBitmapView :=
  mkView (v_total v) 0 0 (replicate (length (v_bitmap v)) 0).

(** [SlotBitmapView::from_raw]: the atomics as the header holds them, over
    [total_slots.div_ceil(64)] of the words behind [bitmap_ptr]. *)
Definition from_raw (total allocated hint : Z) (words : list Z) : SlotBitmapView :=
  mkView total allocated hint (take (div_ceil64 (Z.to_nat total)) words).

Definition view_total (v : SlotBitmapView) : nat := Z.to_nat (v_total v).
Definition view_allocated (v : SlotBitmapView) : nat := Z.to_nat (v_allocated v).

Definition view_is_allocated (v : SlotBitmapView) (slot : nat) : bool :=
  if (view_total v <=? slot)%nat then false else word_bit (v_bitmap v) slot.

Definition view_find (v : SlotBitmapView) (start cnt : nat) : option nat :=
  find_free_loop (view_is_allocated v) start (view_total v - start) 0 start cnt.

(** [allocated_count.fetch_add(count as u32)], [first_free_hint.store(_ as u32)]. *)
Definition view_mark (v : SlotBitmapView) (base cnt : nat) : SlotBitmapView :=
  mkView (v_total v) (wrap 32 (v_allocated v + wrap 32 (Z.of_nat cnt)))
    (if (base + cnt <? view_total v)%nat then wrap 32 (Z.of_nat (base + cnt)) else v_hint v)
    (foldl set_bit (v_bitmap v) (seq base cnt)).

Definition view_alloc (v : SlotBitmapView) (cnt : nat) : SlotBitmapView * option SlotAllocation :=
  if (cnt =? 0)%nat then (v, None)
  else
    let total := view_total v in
    if (total - view_allocated v <? cnt)%nat then (v, None)
    else
      let start_pos := Nat.min (Z.to_nat (v_hint v)) (total - cnt) in
      match view_find v start_pos cnt with
      | Some base => (view_mark v base cnt, Some (mkAlloc base cnt))
      | None =>
          if (0 <? start_pos)%nat then
            match view_find v 0 cnt with
            | Some base => (view_mark v base cnt, Some (mkAlloc base cnt))
            | None => (v, None)
            end
          else (v, None)
      end.

(** [SlotBitmapView::free]: debug builds also assert that each slot was
    allocated; [fetch_sub] wraps. *)
Definition view_free (dbg : bool) (v : SlotBitmapView) (base cnt : nat)
  : outcome unit SlotBitmapView :=
  if dbg && (view_total v <? base + cnt)%nat then Panic
  else if (0 <? cnt)%nat && (length (v_bitmap v) <=? (base + cnt - 1) / 64)%nat then Panic
  else if dbg && negb (forallb (word_bit (v_bitmap v)) (seq base cnt)) then Panic
  else
    Ok (mkView (v_total v) (wrap 32 (v_allocated v - wrap 32 (Z.of_nat cnt)))
          (if (base <? Z.to_nat (v_hint v))%nat then wrap 32 (Z.of_nat base) else v_hint v)
          (foldl clear_bit (v_bitmap v) (seq base cnt))).

Definition view_stats (v : SlotBitmapView) : BitmapStats :=
  mkStats (view_total v) (view_allocated v) (view_total v - view_allocated v)
    (if (0 <? view_total v)%nat then (view_allocated v * 100) / view_total v else 0)%nat.

(** The in-memory bitmap a view stands for. *)
Definition abs (v : SlotBitmapView) : SlotBitmap :=
  mkBitmap (view_total v) (view_allocated v) (Z.to_nat (v_hint v)) (v_bitmap v).

(** Header fields of their width, over a well-formed bitmap. *)
Definition view_wf (v : SlotBitmapView) : Prop :=
  fits 32 (v_total v) /\ fits 32 (v_allocated v) /\ fits 32 (v_hint v) /\ wf (abs v).

Lemma view_mark_abs v base cnt :
  view_wf v -> free_run (abs v) base cnt ->
  abs (view_mark v base cnt) = mark_allocated (abs v) base cnt /\
  fits 32 (v_allocated (view_mark v base cnt)) /\ fits 32 (v_hint (view_mark v base cnt)).
Proof.
  intros (Ht & Ha & Hh & Hwf) Hrun.
  pose proof (mark_allocated_wf _ _ _ Hwf Hrun) as (_ & _ & Hc).
  pose proof (count_true_le (is_allocated (mark_allocated (abs v) base cnt)) (view_total v)) as Hle.
  destruct Hrun as [Hb _]. simpl in *. unfold view_total, view_allocated, fits in *. simpl in *.
  unfold abs, view_mark, mark_allocated, view_total, view_allocated; simpl.
  rewrite !(wrap_small 32 (Z.of_nat cnt)) by (unfold fits; lia).
  rewrite (wrap_small 32) by (unfold fits; lia).
  rewrite (wrap_small 32) by (unfold fits; lia).
  split_and!; [|lia|lia|split_if; lia|split_if; lia].
  f_equal; [lia|]. split_if; lia.
Qed.

Lemma view_alloc_cases v cnt :
  view_wf v ->
  (exists base, free_run (abs v) base cnt /\
     view_alloc v cnt = (view_mark v base cnt, Some (mkAlloc base cnt)) /\
     alloc_contiguous (abs v) cnt = (mark_allocated (abs v) base cnt, Some (mkAlloc base cnt))) \/
  (view_alloc v cnt = (v, None) /\ alloc_contiguous (abs v) cnt = (abs v, None)).
Proof.
  intros (_ & _ & _ & Hwf).
  destruct (alloc_contiguous_cases (abs v) cnt Hwf) as [(base & Hr & _ & He)|[He _]]; [left|right];
    [exists base; split_and!; [done| |done]|split; [|done]]; revert He;
    unfold alloc_contiguous, view_alloc, find_contiguous_free, free_count;
    change (is_allocated (abs v)) with (view_is_allocated v); simpl;
    fold (view_find v 0 cnt);
    change (find_free_loop (view_is_allocated v) ?s (view_total v - ?s) 0 ?s cnt)
      with (view_find v s cnt);
    repeat case_match; intros; simplify_eq; done.
Qed.

(** Freeing a range all of whose slots are allocated: what both versions do. *)
Lemma view_free_ok dbg v base cnt :
  view_wf v -> (base + cnt <= view_total v)%nat ->
  (forall i, (base <= i < base + cnt)%nat -> view_is_allocated v i = true) ->
  exists v', view_free dbg v base cnt = Ok v' /\ view_wf v' /\
             free dbg (abs v) base cnt = Ok (abs v').
Proof.
  intros (Ht & Ha & Hh & Hwf) Hle Hall. pose proof Hwf as (Hl & Hf & Hc). simpl in Hl, Hf, Hc.
  pose proof (count_true_remove (abs v) base cnt Hle Hall) as Hr. simpl in Hr.
  assert (cnt <= view_allocated v)%nat as Hca by lia.
  pose proof (free_ok dbg (abs v) base cnt Hl Hle Hca) as Hok.
  destruct (foldl_words_wf clear_bit (v_bitmap v) (seq base cnt) clear_bit_wf Hf) as [Hl' Hf'].
  unfold fits, view_total, view_allocated in *.
  specialize (Hok ltac:(simpl; unfold view_allocated; lia)).
  set (v' := mkView (v_total v) (wrap 32 (v_allocated v - wrap 32 (Z.of_nat cnt)))
          (if (base <? Z.to_nat (v_hint v))%nat then wrap 32 (Z.of_nat base) else v_hint v)
          (foldl clear_bit (v_bitmap v) (seq base cnt))).
  assert (fits 32 (v_allocated v') /\ fits 32 (v_hint v') /\ free dbg (abs v) base cnt = Ok (abs v'))
    as (Hva & Hvh & Hfree).
  { subst v'. rewrite Hok. unfold abs, fits, view_total, view_allocated. simpl.
    rewrite !(wrap_small 32) by (unfold fits; try rewrite wrap_small; unfold fits; lia).
    split_and!; [lia|lia|split_if; lia|split_if; lia|].
    do 2 f_equal; [lia|]. split_if; lia. }
  exists v'. split_and!.
  - unfold view_free, view_total.
    replace (Z.to_nat (v_total v) <? base + cnt)%nat with false by lia.
    replace (forallb (word_bit (v_bitmap v)) (seq base cnt)) with true.
    2: { symmetry. apply forallb_forall. intros i Hi%in_seq.
         specialize (Hall i ltac:(lia)). unfold view_is_allocated in Hall.
         by split_if_in Hall. }
    rewrite !andb_false_r. destruct (Nat.ltb_spec 0 cnt); cbn [andb]; [|done].
    destruct (Nat.leb_spec (length (v_bitmap v)) ((base + cnt - 1) / 64)) as [Hge|]; [|done].
    rewrite Hl in Hge. pose proof (word_in_range (view_total v) (base + cnt - 1)).
    unfold view_total in *. lia.
  - split_and!; [done..|]. eapply free_wf; [| | | |exact Hfree]; simpl; auto.
    unfold view_total. lia.
  - exact Hfree.
Qed.

End View.

(** ** Properties *)

(** C30. [alloc_contiguous] is sound: a block it returns lies inside the pool,
    was entirely free, and afterwards exactly its slots have become allocated;
    the counters stay exact. *)
Theorem alloc_contiguous_sound b cnt b' a :
  wf b -> alloc_contiguous b cnt = (b', Some a) ->
  wf b' /\ count a = cnt /\ free_run b (base_slot a) cnt /\
  allocated_count b' = (allocated_count b + cnt)%nat /\
  forall i, is_allocated b' i = is_allocated b i || in_range (base_slot a) cnt i.
Proof.
  intros Hwf Ha. destruct (alloc_contiguous_cases b cnt Hwf) as [(base & Hr & _ & He)|[He _]];
    rewrite He in Ha; simplify_eq. split_and!; try done.
  - by apply mark_allocated_wf.
  - intros i. apply is_allocated_mark; [done|apply Hr].
Qed.

(** C31. [alloc_contiguous] is complete: it fails, leaving the bitmap alone, if
    and only if nothing was asked for or no run of [cnt] free slots exists
    anywhere in the pool; the hint never hides a block. *)
Theorem alloc_contiguous_complete b cnt :
  wf b ->
  (alloc_contiguous b cnt).2 = None <->
  cnt = 0%nat \/ forall base, ~ free_run b base cnt.
Proof.
  intros Hwf. destruct (alloc_contiguous_cases b cnt Hwf) as [(base & Hr & Hc & ->)|[-> Hn]]; simpl.
  - split; [done|]. intros [->|Hno]; [lia|]. by destruct (Hno base).
  - done.
Qed.

(** Freeing an allocated range never panics, in either build, releases
    exactly that range and keeps the counters exact. *)
Lemma free_sound dbg b base cnt :
  wf b -> (base + cnt <= total_slots b)%nat -> Z.of_nat (total_slots b) < 2 ^ 64 ->
  (forall i, (base <= i < base + cnt)%nat -> is_allocated b i = true) ->
  exists b', free dbg b base cnt = Ok b' /\ wf b' /\
    (allocated_count b' + cnt = allocated_count b)%nat /\ free_run b' base cnt /\
    forall i, is_allocated b' i = is_allocated b i && negb (in_range base cnt i).
Proof.
  intros Hwf Hle Hfit Hall. pose proof Hwf as (Hl & _ & Hc).
  pose proof (count_true_remove b base cnt Hle Hall) as Hr.
  pose proof (count_true_le (is_allocated b) (total_slots b)) as Hb.
  pose proof (free_ok dbg b base cnt Hl Hle ltac:(lia) ltac:(lia)) as Hok.
  pose proof (fun i => is_allocated_free dbg b base cnt _ i Hwf Hle Hok) as Hi.
  destruct (free_wf dbg b base cnt _ Hwf Hle Hfit Hall Hok) as [Hwf' Hc'].
  eexists. split; [exact Hok|]. split_and!; [done|done| |done].
  split; [done|]. intros i Hri. rewrite Hi. unfold in_range.
  destruct (Nat.leb_spec base i), (Nat.ltb_spec i (base + cnt)); try lia.
Qed.

(** The integer percentage of [stats] stays in [0..=100]. *)
Lemma stats_utilization_bound b : wf b -> (st_utilization_pct (stats b) <= 100)%nat.
Proof.
  intros (_ & _ & Hc). pose proof (count_true_le (is_allocated b) (total_slots b)).
  simpl. split_if; [|lia]. apply Nat.Div0.div_le_upper_bound. nia.
Qed.

(** The shared-memory allocator implements the in-memory one: on a
    well-formed view whose pool size is a [u32], [SlotBitmapView] allocation
    and release give the results of [SlotBitmap] on the bitmap the view
    stands for, and the 32-bit counters never wrap. *)
Lemma view_refines_bitmap v dbg cnt base n :
  View.view_wf v ->
  (base + n <= View.view_total v)%nat ->
  (forall i, (base <= i < base + n)%nat -> View.view_is_allocated v i = true) ->
  (View.view_wf (View.view_alloc v cnt).1 /\
   (View.abs (View.view_alloc v cnt).1, (View.view_alloc v cnt).2) =
   alloc_contiguous (View.abs v) cnt) /\
  (exists v', View.view_free dbg v base n = Ok v' /\ View.view_wf v' /\
              free dbg (View.abs v) base n = Ok (View.abs v')).
Proof.
  intros Hv Hle Hall. split; [|by apply View.view_free_ok].
  destruct (View.view_alloc_cases v cnt Hv) as [(b0 & Hr & -> & ->)|[-> ->]]; simpl; [|done].
  destruct (View.view_mark_abs v b0 cnt Hv Hr) as (He & Ha & Hh). rewrite He. split; [|done].
  destruct Hv as (Ht & _ & _ & Hwf). split_and!; [done..|].
  rewrite He. by apply mark_allocated_wf.
Qed.

(** *** Witnesses: a pool of 130 slots, 70 of them handed out *)

Definition pool130 : SlotBitmap := (alloc_contiguous (bitmap_new 130) 70).1.

Lemma alloc_contiguous_sound_witness :
  wf (alloc_contiguous pool130 60).1 /\ free_run pool130 70 60.
Proof.
  destruct (alloc_contiguous_sound pool130 60 (alloc_contiguous pool130 60).1 (mkAlloc 70 60))
    as (H & _ & Hr & _); [unfold pool130; auto with rust|vm_compute; reflexivity|].
  exact (conj H Hr).
Defined.

Lemma alloc_contiguous_complete_witness :
  (alloc_contiguous pool130 61).2 = None /\ forall base, ~ free_run pool130 base 61.
Proof.
  assert ((alloc_contiguous pool130 61).2 = None) as H by (vm_compute; reflexivity).
  split; [exact H|].
  destruct (proj1 (alloc_contiguous_complete pool130 61 ltac:(unfold pool130; auto with rust)) H)
    as [He|Hn]; [discriminate He|exact Hn].
Defined.
