(* ===== verification/Segment.v ===== *)
(** * The shared-memory segment: header, writer and reader

    [crates/aether-dataplane/src/core/{header,writer,reader,slot_io,config}.rs].
    A segment is a 64-byte header followed by 32-byte point slots, mapped by
    one writer and any number of readers. A [Mapping] is the mapped memory;
    [SlotWriter]/[SlotReader] are the process-local handles. The [SlotIo] and
    [SlotIoWrite] traits are type classes with the laws their documentation
    states. *)

From S2P Require Import Prelude Slot Bitmap.

(** [enum DataplaneError], without messages. *)
Inductive DataplaneError := EIo | EInvalidLayout | EInvalidPath.

#[global] Instance DataplaneError_eq_dec : EqDecision DataplaneError.
Proof. solve_decision. Defined.

(** ** Header *)

Definition UNIFIED_MAGIC : Z := 0x564F4C544147455F.
Definition UNIFIED_VERSION : Z := 4.
Definition HEADER_SIZE : nat := 64.
Definition SLOT_SIZE : nat := 32.

(** [struct UnifiedHeader]; [h_pad] and [h_reserved] are the byte arrays
    [_pad] and [_reserved] read as integers. *)
Record UnifiedHeader := mkHeader {
  h_magic : Z;
  h_version : Z;
  h_max_slots : Z;
  h_slot_count : Z;
  h_pad : Z;
  h_last_update_ts : Z;
  h_writer_heartbeat : Z;
  h_routing_hash : Z;
  h_writer_generation : Z;
  h_reserved : Z
}.

(** [struct HeaderSnapshot]. *)
Record HeaderSnapshot := mkHeaderSnapshot {
  hs_magic : Z;
  hs_version : Z;
  hs_max_slots : Z;
  hs_slot_count : Z;
  hs_last_update_ts : Z;
  hs_writer_heartbeat : Z;
  hs_routing_hash : Z;
  hs_writer_generation : Z
}.

Definition publication_epoch (h : UnifiedHeader) : Z := h_reserved h.

Definition header_snapshot (h : UnifiedHeader) : HeaderSnapshot :=
  mkHeaderSnapshot (h_magic h) (h_version h) (h_max_slots h) (h_slot_count h)
    (h_last_update_ts h) (h_writer_heartbeat h) (h_routing_hash h) (h_writer_generation h).

Definition set_heartbeat (t : Z) (h : UnifiedHeader) : UnifiedHeader :=
  mkHeader (h_magic h) (h_version h) (h_max_slots h) (h_slot_count h) (h_pad h)
    (h_last_update_ts h) t (h_routing_hash h) (h_writer_generation h) (h_reserved h).

Definition set_generation (g : Z) (h : UnifiedHeader) : UnifiedHeader :=
  mkHeader (h_magic h) (h_version h) (h_max_slots h) (h_slot_count h) (h_pad h)
    (h_last_update_ts h) (h_writer_heartbeat h) (h_routing_hash h) g (h_reserved h).

Definition calculate_file_size (max_slots : Z) : nat := HEADER_SIZE + Z.to_nat max_slots * SLOT_SIZE.
Definition slot_offset : nat := HEADER_SIZE.

Definition validate_mapping_layout (mapped_len : nat) (max_slots : Z) (slot_count : nat)
  : outcome DataplaneError unit :=
  if (Z.to_nat max_slots <? slot_count)%nat then Err EInvalidLayout
  else if (mapped_len <? calculate_file_size max_slots)%nat then Err EInvalidLayout
  else Ok tt.

(** [generation == 0 || generation & 1 != 0] negated: a published generation. *)
Definition stable_generation (g : Z) : bool := negb ((g =? 0) || negb (Z.land g 1 =? 0)).

(** ** Mapped memory *)

(** The mapped file: a header, the slots it has room for, and the bytes left. *)
Record Mapping := mkMapping {
  m_header : UnifiedHeader;
  m_slots : list PointSlot;
  m_tail : nat
}.

Definition mapped_len (m : Mapping) : nat := HEADER_SIZE + length (m_slots m) * SLOT_SIZE + m_tail m.

(** ** Handles *)

(** [struct SlotReader] over a mapping. *)
Record SlotReader := mkReader { r_max_slots : Z; r_slot_count : nat }.

(** [struct SlotWriter]; [w_identity] is the backing file's identity and
    [w_dirty_words] the process-local dirty bitmap. *)
Record SlotWriter := mkWriter {
  w_path : string;
  w_max_slots : Z;
  w_slot_count : nat;
  w_identity : nat;
  w_dirty_words : list Z
}.

(** [struct SlotRead]. *)
Record SlotRead := mkRead { rd_value : Z; rd_raw : Z; rd_timestamp_ms : Z }.

#[global] Instance SlotRead_eq_dec : EqDecision SlotRead.
Proof. solve_decision. Defined.

Definition dirty_word_count (slot_count : nat) : nat := div_ceil64 slot_count.
Definition new_dirty_words (slot_count : nat) : list Z := replicate (dirty_word_count slot_count) 0.

(** [SlotReader::from_mmap] and [SlotWriter::from_mmap_with_identity]. *)
Definition reader_from_mmap (m : Mapping) (max_slots : Z) (slot_count : nat)
  : outcome DataplaneError SlotReader :=
  let? _ := validate_mapping_layout (mapped_len m) max_slots slot_count in
  Ok (mkReader max_slots slot_count).

Definition writer_from_mmap (m : Mapping) (path : string) (max_slots : Z) (slot_count : nat)
  (identity : nat) : outcome DataplaneError SlotWriter :=
  let? _ := validate_mapping_layout (mapped_len m) max_slots slot_count in
  Ok (mkWriter path max_slots slot_count identity (new_dirty_words slot_count)).

(** What [std::fs] says of a path: absent, too short to hold a header, or a
    file that maps. *)
Inductive File := FMissing | FShort (len : nat) | FMapped (identity : nat) (m : Mapping).

(** [SlotReader::open]. *)
Definition reader_open (f : File) : outcome DataplaneError SlotReader :=
  match f with
  | FMissing => Err EIo
  | FShort _ => Err EInvalidLayout
  | FMapped _ m =>
      let snapshot := header_snapshot (m_header m) in
      if negb (hs_magic snapshot =? UNIFIED_MAGIC) then Err EInvalidLayout
      else if negb (hs_version snapshot =? UNIFIED_VERSION) then Err EInvalidLayout
      else reader_from_mmap m (hs_max_slots snapshot) (Z.to_nat (hs_slot_count snapshot))
  end.

(** [SlotWriter::open_existing]. *)
Definition open_existing (f : File) (path : string) (expected_slot_count : nat)
  (expected_layout_hash : Z) : outcome DataplaneError SlotWriter :=
  match f with
  | FMissing => Err EIo
  | FShort _ => Err EInvalidLayout
  | FMapped identity m =>
      if negb (h_magic (m_header m) =? UNIFIED_MAGIC) then Err EInvalidLayout
      else if negb (h_version (m_header m) =? UNIFIED_VERSION) then Err EInvalidLayout
      else
        let snapshot := header_snapshot (m_header m) in
        let slot_count := Z.to_nat (hs_slot_count snapshot) in
        let? _ := validate_mapping_layout (mapped_len m) (hs_max_slots snapshot) slot_count in
        if negb (slot_count =? expected_slot_count)%nat then Err EInvalidLayout
        else if negb (hs_routing_hash snapshot =? expected_layout_hash) then Err EInvalidLayout
        else if negb (stable_generation (hs_writer_generation snapshot)) then Err EInvalidLayout
        else writer_from_mmap m path (hs_max_slots snapshot) slot_count identity
  end.

(** [new_generation]: the process-wide sequence advances by two; the result is
    even and at least two. *)
Definition new_generation (sequence wall_nanos : Z) : Z :=
  Z.max (Z.land (wrap 64 (wrap 64 wall_nanos + sequence)) (bit_not 64 1)) 2.

Definition zero_slot : PointSlot := mkSlot 0 0 0 0 0.

(** [SlotWriter::create_at_epoch], once the file system calls have succeeded:
    [set_len] zero-fills, the header is written, the live slots are marked
    unwritten. *)
Definition create_at_epoch (path : string) (identity : nat) (max_slots : Z) (slot_count : nat)
  (layout_hash epoch generation : Z) : outcome DataplaneError (SlotWriter * Mapping) :=
  if (Z.to_nat max_slots <? slot_count)%nat then Err EInvalidLayout
  else
    let header := mkHeader UNIFIED_MAGIC UNIFIED_VERSION max_slots (wrap 32 (Z.of_nat slot_count)) 0
                    0 0 layout_hash generation epoch in
    let zeroed := replicate (Z.to_nat max_slots) zero_slot in
    let? w := writer_from_mmap (mkMapping header zeroed 0) path max_slots slot_count identity in
    Ok (w, mkMapping header
             ((init_unwritten <$> take slot_count zeroed) ++ drop slot_count zeroed) 0).

(** ** Slot access *)

(** [slot_at]: asserts the index is live, then dereferences the slot array. *)
Definition slot_at (m : Mapping) (slot_count index : nat) : outcome DataplaneError PointSlot :=
  if (index <? slot_count)%nat then
    match m_slots m !! index with Some s => Ok s | None => Panic end
  else Panic.

Definition to_slot_read (r : reading) : SlotRead := mkRead r.1.1 r.1.2 r.2.

(** [SlotIo::read_slot] of both handles. *)
Definition read_at (m : Mapping) (slot_count index : nat) : option SlotRead :=
  if (slot_count <=? index)%nat then None
  else match slot_at m slot_count index with
       | Ok s => to_slot_read <$> try_load_consistent s
       | _ => None
       end.

(** [mark_dirty_slot]: [fetch_or] on the word, if there is one. *)
Definition mark_dirty_slot (words : list Z) (slot : nat) : list Z := set_bit words slot.

(** The memory effect of [set_direct]/[write_slot] on a live index. *)
Definition store_slot (m : Mapping) (index : nat) (v r t : Z) : Mapping :=
  mkMapping (set_heartbeat t (m_header m)) (alter (set v r t) index (m_slots m)) (m_tail m).

(** [SlotIoWrite::write_slot]. *)
Definition write_slot (w : SlotWriter) (m : Mapping) (index : nat) (v r t : Z)
  : SlotWriter * Mapping * bool :=
  if (w_slot_count w <=? index)%nat then (w, m, false)
  else (mkWriter (w_path w) (w_max_slots w) (w_slot_count w) (w_identity w)
          (mark_dirty_slot (w_dirty_words w) index),
        store_slot m index v r t, true).

(** [SlotWriter::set_direct]: the same, panicking instead of refusing. *)
Definition set_direct (w : SlotWriter) (m : Mapping) (slot : nat) (v r t : Z)
  : outcome DataplaneError (SlotWriter * Mapping) :=
  if (slot <? w_slot_count w)%nat then
    Ok (mkWriter (w_path w) (w_max_slots w) (w_slot_count w) (w_identity w)
          (mark_dirty_slot (w_dirty_words w) slot), store_slot m slot v r t)
  else Panic.

Definition update_heartbeat (m : Mapping) (t : Z) : Mapping :=
  mkMapping (set_heartbeat t (m_header m)) (m_slots m) (m_tail m).

(** [SlotReader::is_writer_alive] at wall-clock time [now_ms]. *)
Definition is_writer_alive (m : Mapping) (now_ms timeout_ms : Z) : bool :=
  let last_hb := h_writer_heartbeat (m_header m) in
  if last_hb =? 0 then false else saturating_sub now_ms last_hb <? timeout_ms.

(** ** Draining the dirty bitmap *)

(** [u64::trailing_zeros] of a non-zero word. *)
Fixpoint pos_trailing_zeros (p : positive) : nat :=
  match p with
  | xO q => S (pos_trailing_zeros q)
  | _ => O
  end.

Definition trailing_zeros (z : Z) : nat :=
  match z with Zpos p => pos_trailing_zeros p | _ => 64%nat end.

(** [while bits != 0 { ...; bits &= bits - 1 }]; a word has 64 bits, so 64
    iterations are enough. *)
Fixpoint drain_word (fuel : nat) (bits : Z) (base slot_count : nat) : list nat :=
  match fuel with
  | O => []
  | S fuel' =>
      if bits =? 0 then []
      else
        let slot := (base + trailing_zeros bits)%nat in
        let rest := drain_word fuel' (Z.land bits (bits - 1)) base slot_count in
        if (slot <? slot_count)%nat then slot :: rest else rest
  end.

Fixpoint drain_words (words : list Z) (word_idx slot_count : nat) : list nat :=
  match words with
  | [] => []
  | w :: words' =>
      drain_word 64 w (word_idx * 64) slot_count ++ drain_words words' (S word_idx) slot_count
  end.

(** [SlotWriter::take_dirty_slots]: every word is swapped with zero. *)
Definition take_dirty_slots (w : SlotWriter) : SlotWriter * list nat :=
  (mkWriter (w_path w) (w_max_slots w) (w_slot_count w) (w_identity w)
     (replicate (length (w_dirty_words w)) 0),
   drain_words (w_dirty_words w) 0 (w_slot_count w)).

(** ** Well-formedness *)

(** The slot array is as long as the mapped bytes allow, and every header field
    has its width. *)
Definition mapping_wf (m : Mapping) : Prop :=
  (m_tail m < SLOT_SIZE)%nat /\
  fits 32 (h_max_slots (m_header m)) /\ fits 32 (h_slot_count (m_header m)).

(** A handle's live slots are backed by memory. *)
Definition backed (slot_count : nat) (m : Mapping) : Prop := (slot_count <= length (m_slots m))%nat.

Definition dirty_wf (w : SlotWriter) : Prop :=
  length (w_dirty_words w) = dirty_word_count (w_slot_count w) /\
  Forall (fits 64) (w_dirty_words w).

Lemma validate_backed m max_slots slot_count :
  mapping_wf m -> validate_mapping_layout (mapped_len m) max_slots slot_count = Ok tt ->
  (slot_count <= Z.to_nat max_slots)%nat /\ backed slot_count m.
Proof.
  intros [Ht _]. unfold validate_mapping_layout, mapped_len, calculate_file_size, backed.
  unfold HEADER_SIZE, SLOT_SIZE in *. do 2 (split_if; [discriminate|]). intros _. lia.
Qed.

Lemma stable_generation_spec g : stable_generation g = true <-> g <> 0 /\ Z.odd g = false.
Proof.
  unfold stable_generation. rewrite <- Z.bit0_odd.
  change (Z.land g 1) with (Z.land g (Z.shiftl 1 0)). rewrite land_one_shl_zero by lia.
  destruct (Z.testbit g 0), (Z.eqb_spec g 0); simpl; naive_solver.
Qed.

Lemma read_at_some m n i s :
  (i < n)%nat -> m_slots m !! i = Some s -> read_at m n i = to_slot_read <$> try_load_consistent s.
Proof.
  intros Hi Hs. unfold read_at, slot_at. rewrite Hs.
  by destruct (Nat.leb_spec n i), (Nat.ltb_spec i n); try lia.
Qed.

(** ** Trailing zeros and the drain loop *)

Lemma pos_trailing_zeros_spec p :
  exists m, 0 <= m /\ Zpos p = 2 ^ Z.of_nat (pos_trailing_zeros p) * (2 * m + 1).
Proof.
  induction p as [p _|p (m & Hm & IH)|]; cbn [pos_trailing_zeros].
  - exists (Zpos p). lia.
  - exists m. split; [done|]. rewrite Pos2Z.inj_xO, IH, Nat2Z.inj_succ, Z.pow_succ_r by lia. ring.
  - exists 0. lia.
Qed.

(** [x & (x - 1)] clears the lowest set bit and nothing else. *)
Lemma testbit_clear_lowest t m i :
  0 <= t -> 0 <= i ->
  let x := 2 ^ t * (2 * m + 1) in
  Z.testbit (Z.land x (x - 1)) i = Z.testbit x i && negb (t =? i).
Proof.
  intros Ht Hi x. pose proof (pow2_pos t Ht) as Hp. rewrite Z.land_spec.
  destruct (Z.ltb_spec i t) as [Hlt|Hge].
  - assert (Z.testbit x i = false) as ->; [|done].
    unfold x. rewrite Z.mul_comm. by rewrite Z.mul_pow2_bits_low.
  - assert (x - 1 = 2 ^ t * (2 * m) + (2 ^ t - 1)) as -> by (unfold x; ring).
    replace i with (t + (i - t)) by lia. set (j := i - t).
    assert (Z.testbit (2 ^ t * (2 * m) + (2 ^ t - 1)) (t + j) = Z.testbit (2 * m) j) as ->.
    { rewrite (Z.add_comm t j), <- Z.shiftr_spec, Z.shiftr_div_pow2 by lia.
      by rewrite (Z.mul_comm (2 ^ t)), Z.div_add_l, Z.div_small, Z.add_0_r by lia. }
    assert (Z.testbit x (t + j) = Z.testbit (2 * m + 1) j) as ->.
    { unfold x. by rewrite (Z.mul_comm (2 ^ t)), Z.mul_pow2_bits_add by lia. }
    destruct (Z.eqb_spec t (t + j)) as [He|Hne].
    + assert (j = 0) as -> by lia. rewrite Z.testbit_even_0. by rewrite !andb_false_r.
    + replace j with (Z.succ (j - 1)) by lia.
      rewrite Z.testbit_even_succ, Z.testbit_odd_succ by lia.
      by rewrite andb_diag, andb_true_r.
Qed.

(** The set bits of a word, in increasing order. *)
Definition positions (z : Z) : list nat :=
  filter (fun i => Z.testbit z (Z.of_nat i) = true) (List.seq 0 64).

(** Draining peels the lowest set bit first. *)
Lemma positions_step z :
  0 < z < 2 ^ 64 ->
  positions z = trailing_zeros z :: positions (Z.land z (z - 1)) /\
  (trailing_zeros z < 64)%nat /\ fits 64 (Z.land z (z - 1)).
Proof.
  intros Hz. destruct z as [|p|p]; try lia.
  destruct (pos_trailing_zeros_spec p) as (m & Hm & Hp).
  change (trailing_zeros (Zpos p)) with (pos_trailing_zeros p).
  set (t := pos_trailing_zeros p) in *. clearbody t. rewrite Hp in *.
  pose proof (testbit_clear_lowest (Z.of_nat t) m) as Hb. simpl in Hb.
  set (x := 2 ^ Z.of_nat t * (2 * m + 1)) in *.
  assert (Z.of_nat t < 64) as Ht.
  { apply (Z.pow_lt_mono_r_iff 2); [lia..|]. unfold x in Hz. nia. }
  split_and!; [|lia|apply fits_land_l; unfold fits; lia].
  unfold positions. replace 64%nat with (t + (1 + (63 - t)))%nat by lia.
  rewrite !seq_app, !list.filter_app. simpl List.seq.
  assert (forall i, (i < t)%nat -> Z.testbit x (Z.of_nat i) = false) as Hlow.
  { intros i Hi. unfold x. rewrite Z.mul_comm. apply Z.mul_pow2_bits_low. lia. }
  assert (Z.testbit x (Z.of_nat t) = true) as Hbit.
  { unfold x. rewrite Z.mul_comm. rewrite <- (Z.add_0_r (Z.of_nat t)) at 2.
    rewrite Z.mul_pow2_bits_add by lia. apply Z.testbit_odd_0. }
  rewrite (filter_none _ (List.seq 0 t)); [|intros i Hi%elem_of_seq; rewrite Hlow by lia; done].
  rewrite (filter_none _ (List.seq 0 t)).
  2: { intros i Hi%elem_of_seq. rewrite Hb, Hlow by lia. done. }
  simpl app. rewrite (filter_cons_True _ t) by done.
  rewrite (filter_cons_False _ t) by (rewrite Hb, Z.eqb_refl, andb_false_r by lia; done).
  f_equal. apply list_filter_ext. intros i Hi%elem_of_seq.
  rewrite Hb by lia. destruct (Z.eqb_spec (Z.of_nat t) (Z.of_nat i)); [lia|].
  by rewrite andb_true_r.
Qed.

Lemma drain_word_spec fuel z base n :
  fits 64 z -> (length (positions z) <= fuel)%nat ->
  drain_word fuel z base n = filter (fun s => (s < n)%nat) ((fun i => base + i)%nat <$> positions z).
Proof.
  revert z. induction fuel as [|fuel IH]; intros z Hz Hl.
  - destruct (positions z) as [|? ?] eqn:E; [done|simpl in Hl; lia].
  - cbn [drain_word]. destruct (Z.eqb_spec z 0) as [->|Hne]; [done|].
    destruct (positions_step z) as (Hp & _ & Hf); [unfold fits in Hz; lia|].
    rewrite Hp in Hl |- *. simpl in Hl. rewrite IH by (done || lia).
    rewrite fmap_cons, filter_cons.
    destruct (Nat.ltb_spec (base + trailing_zeros z) n); case_decide; done || lia.
Qed.

Lemma positions_length z : (length (positions z) <= 64)%nat.
Proof. unfold positions. etrans; [apply length_filter|]. by rewrite length_seq. Qed.

Lemma filter_fmap_comm {A B} (f : A -> B) (P : B -> Prop) {HP : forall x, Decision (P x)} (l : list A) :
  filter P (f <$> l) = f <$> filter (fun x => P (f x)) l.
Proof.
  induction l as [|x l IH]; [done|]. rewrite fmap_cons, !filter_cons, IH.
  by case_decide.
Qed.

Lemma shifted_positions z base :
  ((fun i => base + i)%nat <$> positions z) =
  filter (fun s => Z.testbit z (Z.of_nat (s - base)) = true) (List.seq base 64).
Proof.
  unfold positions. replace (List.seq base 64) with ((fun i => base + i)%nat <$> List.seq 0 64).
  - rewrite filter_fmap_comm. f_equal. apply list_filter_ext. intros i _.
    by replace (base + i - base)%nat with i by lia.
  - rewrite fmap_add_seq. by rewrite Nat.add_0_r.
Qed.

Lemma drain_words_spec words k n :
  Forall (fits 64) words ->
  drain_words words k n =
  filter (fun s => (s < n)%nat /\ word_bit words (s - k * 64) = true)
    (List.seq (k * 64) (length words * 64)).
Proof.
  intros Hw. revert k. induction Hw as [|w words Hfw _ IH]; intros k; cbn [drain_words length]; [done|].
  replace (S (length words) * 64)%nat with (64 + length words * 64)%nat by lia.
  rewrite seq_app, list.filter_app. f_equal.
  - rewrite drain_word_spec, shifted_positions by (done || apply positions_length).
    rewrite list_filter_filter. apply list_filter_ext. intros s Hs%elem_of_seq.
    rewrite word_bit_testbit. rewrite Nat.div_small, Nat.mod_small by lia. simpl. naive_solver.
  - rewrite IH. replace (S k * 64)%nat with (k * 64 + 64)%nat by lia.
    apply list_filter_ext. intros s Hs%elem_of_seq.
    rewrite !word_bit_testbit.
    replace (s - k * 64)%nat with ((s - (k * 64 + 64)) + 1 * 64)%nat by lia.
    rewrite Nat.Div0.mod_add, Nat.div_add, Nat.add_1_r by lia. done.
Qed.

(** A drain reports exactly the dirty live slots, in increasing order. *)
Lemma take_dirty_slots_spec w :
  dirty_wf w ->
  (take_dirty_slots w).2 =
  filter (fun s => word_bit (w_dirty_words w) s = true) (List.seq 0 (w_slot_count w)).
Proof.
  intros [Hl Hf]. simpl. rewrite drain_words_spec by done. simpl.
  assert (w_slot_count w <= length (w_dirty_words w) * 64)%nat as Hle.
  { rewrite Hl. unfold dirty_word_count, div_ceil64.
    pose proof (Nat.div_mod_eq (w_slot_count w + 63) 64).
    pose proof (Nat.mod_upper_bound (w_slot_count w + 63) 64 ltac:(done)). lia. }
  replace (length (w_dirty_words w) * 64)%nat
    with (w_slot_count w + (length (w_dirty_words w) * 64 - w_slot_count w))%nat by lia.
  rewrite seq_app, list.filter_app, (filter_none _ (List.seq (0 + w_slot_count w) _)), app_nil_r.
  - apply list_filter_ext. intros s Hs%elem_of_seq. rewrite Nat.sub_0_r. naive_solver lia.
  - intros s Hs%elem_of_seq. lia.
Qed.

(** ** The traits as interfaces *)

(** [trait SlotIo]. *)
Class SlotIo (T : Type) := {
  io_slot_count : T -> nat;
  io_read_slot : T -> nat -> option SlotRead;
  io_generation : T -> Z;
  io_writer_heartbeat : T -> Z;
  io_header : T -> HeaderSnapshot
}.

(** [trait SlotIoWrite: SlotIo]. *)
Class SlotIoWrite (T : Type) `{SlotIo T} := {
  io_write_slot : T -> nat -> Z -> Z -> Z -> T * bool;
  io_take_dirty_slots : T -> T * list nat
}.

(** What the trait documentation promises: a write out of bounds is refused
    and changes nothing; every written slot is dirty until drained, and a
    drain returns exactly the dirty live slots. [io_inv] is the handle's own
    invariant and [io_dirty] its set of dirty slots. *)
Class SlotIoWriteLaws (T : Type) `{SlotIoWrite T} := {
  io_inv : T -> Prop;
  io_dirty : T -> nat -> bool;
  io_write_oob h i v r t :
    (io_slot_count h <= i)%nat -> io_write_slot h i v r t = (h, false);
  io_write_ok h i v r t :
    io_inv h -> (i < io_slot_count h)%nat ->
    let '(h', ok) := io_write_slot h i v r t in
    ok = true /\ io_inv h' /\ io_slot_count h' = io_slot_count h /\
    forall j, (j < io_slot_count h)%nat -> io_dirty h' j = io_dirty h j || (i =? j)%nat;
  io_drain h :
    io_inv h ->
    let '(h', l) := io_take_dirty_slots h in
    l = filter (fun s => io_dirty h s = true) (List.seq 0 (io_slot_count h)) /\
    io_inv h' /\ io_slot_count h' = io_slot_count h /\
    forall j, (j < io_slot_count h)%nat -> io_dirty h' j = false
}.

#[export] Instance SlotReader_SlotIo : SlotIo (SlotReader * Mapping) := {|
  io_slot_count h := r_slot_count h.1;
  io_read_slot h i := read_at h.2 (r_slot_count h.1) i;
  io_generation h := h_writer_generation (m_header h.2);
  io_writer_heartbeat h := h_writer_heartbeat (m_header h.2);
  io_header h := header_snapshot (m_header h.2)
|}.

#[export] Instance SlotWriter_SlotIo : SlotIo (SlotWriter * Mapping) := {|
  io_slot_count h := w_slot_count h.1;
  io_read_slot h i := read_at h.2 (w_slot_count h.1) i;
  io_generation h := h_writer_generation (m_header h.2);
  io_writer_heartbeat h := h_writer_heartbeat (m_header h.2);
  io_header h := header_snapshot (m_header h.2)
|}.

#[export] Instance SlotWriter_SlotIoWrite : SlotIoWrite (SlotWriter * Mapping) := {|
  io_write_slot h i v r t :=
    let '(w', m', ok) := write_slot h.1 h.2 i v r t in ((w', m'), ok);
  io_take_dirty_slots h :=
    let '(w', l) := take_dirty_slots h.1 in ((w', h.2), l)
|}.

#[export, refine] Instance SlotWriter_laws : SlotIoWriteLaws (SlotWriter * Mapping) := {|
  io_inv h := dirty_wf h.1 /\ backed (w_slot_count h.1) h.2;
  io_dirty h j := word_bit (w_dirty_words h.1) j
|}.
Proof.
  - intros [w m] i v r t Hi. simpl in *. unfold write_slot.
    by destruct (Nat.leb_spec (w_slot_count w) i); [|lia].
  - intros [w m] i v r t [[Hl Hf] Hb] Hi. simpl in *. unfold write_slot.
    destruct (Nat.leb_spec (w_slot_count w) i); [lia|].
    destruct (set_bit_wf (w_dirty_words w) i) as [Hl' Hf']. simpl.
    split_and!; [done| | |done|].
    + split; [exact (eq_trans Hl' Hl)|by apply Hf'].
    + unfold backed in *. simpl. by rewrite length_alter.
    + intros j Hj. apply word_bit_set. rewrite Hl. by apply word_in_range.
  - intros [w m] [Hw Hb]. pose proof (take_dirty_slots_spec w Hw) as Hd.
    destruct Hw as [Hl Hf]. simpl in *.
    split_and!; [done| |done|done|].
    + split; simpl; [by rewrite length_replicate|]. apply Forall_replicate. unfold fits. lia.
    + intros j _. rewrite word_bit_testbit. simpl.
      destruct (replicate _ 0 !! _) as [x|] eqn:Hx; simpl; [|apply Z.bits_0].
      apply lookup_replicate in Hx as [-> _]. apply Z.bits_0.
Defined.

(** ** A client of the interface *)

Section Client.
Context {T : Type} `{SlotIoWriteLaws T}.

(** A batch of slot writes [(index, value, raw, timestamp)]. *)
Definition run_writes (h : T) (ws : list (nat * Z * Z * Z)) : T :=
  foldl (fun h '(i, v, r, t) => (io_write_slot h i v r t).1) h ws.

Definition touched (ws : list (nat * Z * Z * Z)) (s : nat) : bool :=
  existsb (fun w => (w.1.1.1 =? s)%nat) ws.

Lemma run_writes_spec h ws :
  io_inv h ->
  io_inv (run_writes h ws) /\ io_slot_count (run_writes h ws) = io_slot_count h /\
  forall j, (j < io_slot_count h)%nat ->
    io_dirty (run_writes h ws) j = io_dirty h j || touched ws j.
Proof.
  revert h. induction ws as [|[[[i v] r] t] ws IH]; intros h Hinv; simpl.
  - split_and!; try done. intros. by rewrite orb_false_r.
  - destruct (decide (i < io_slot_count h)%nat) as [Hlt|Hge].
    + pose proof (io_write_ok h i v r t Hinv Hlt) as Hw.
      destruct (io_write_slot h i v r t) as [h' ok]. destruct Hw as (_ & Hi' & Hc & Hd).
      simpl. destruct (IH h' Hi') as (Hri & Hrc & Hrd). split_and!; [done|congruence|].
      intros j Hj. rewrite Hrd, Hd, <- orb_assoc by lia. done.
    + rewrite io_write_oob by lia. simpl. destruct (IH h Hinv) as (Hri & Hrc & Hrd).
      split_and!; try done. intros j Hj. rewrite Hrd by done.
      destruct (Nat.eqb_spec i j); [lia|done].
Qed.

(** A batch followed by a drain: exactly the slots dirty before or written
    since, whatever implements the interface. *)
Lemma drain_after_writes h ws :
  io_inv h ->
  (io_take_dirty_slots (run_writes h ws)).2 =
  filter (fun s => io_dirty h s || touched ws s = true) (List.seq 0 (io_slot_count h)).
Proof.
  intros Hinv. destruct (run_writes_spec h ws Hinv) as (Hi & Hc & Hd).
  pose proof (io_drain (run_writes h ws) Hi) as Hdr.
  destruct (io_take_dirty_slots (run_writes h ws)) as [h' l]. destruct Hdr as (-> & _).
  simpl. rewrite Hc. apply list_filter_ext. intros s Hs%elem_of_seq. by rewrite Hd by lia.
Qed.
End Client.

(** ** Opening *)

Lemma fresh_writer_wf path max n i : dirty_wf (mkWriter path max n i (new_dirty_words n)).
Proof.
  split; [apply length_replicate|]. apply Forall_replicate. unfold fits. lia.
Qed.

Lemma fresh_words_clean n j : word_bit (new_dirty_words n) j = false.
Proof.
  rewrite word_bit_testbit. unfold new_dirty_words.
  destruct (replicate _ 0 !! _) as [x|] eqn:Hx; simpl; [|apply Z.bits_0].
  apply lookup_replicate in Hx as [-> _]. apply Z.bits_0.
Qed.

Lemma reader_open_backed i m r :
  mapping_wf m -> reader_open (FMapped i m) = Ok r ->
  backed (r_slot_count r) m /\ (r_slot_count r <= Z.to_nat (r_max_slots r))%nat.
Proof.
  intros Hm. unfold reader_open, reader_from_mmap. do 2 (split_if; [discriminate|]).
  intros (u & Hv & [= <-])%obind_ok. destruct u. apply validate_backed in Hv as [? ?]; done.
Qed.

Lemma open_existing_backed i m path n hash w :
  mapping_wf m -> open_existing (FMapped i m) path n hash = Ok w ->
  w_slot_count w = n /\ w_identity w = i /\ backed n m /\ dirty_wf w /\
  stable_generation (h_writer_generation (m_header m)) = true /\
  h_routing_hash (m_header m) = hash.
Proof.
  intros Hm. unfold open_existing, writer_from_mmap. do 2 (split_if; [discriminate|]).
  intros (u & Hv & Hk)%obind_ok. destruct u. pose proof Hv as Hv'.
  apply validate_backed in Hv' as [Hle Hb]; [|done]. rewrite Hv in Hk. simpl in Hk.
  do 3 (split_if_in Hk; [discriminate|]). injection Hk as <-. bool_facts. simpl.
  apply Nat.eqb_eq in E1. apply Z.eqb_eq in E2. subst.
  split_and!; try done. apply fresh_writer_wf.
Qed.

Lemma new_generation_stable sequence wall :
  stable_generation (new_generation sequence wall) = true.
Proof.
  apply stable_generation_spec. unfold new_generation.
  set (g := Z.land _ _).
  assert (Z.odd g = false) as Ho.
  { unfold g. rewrite <- Z.bit0_odd, Z.land_spec, testbit_bit_not by lia. apply andb_false_r. }
  destruct (Z.max_spec g 2) as [[? ->]|[? ->]]; split; done || lia.
Qed.

(** ** Properties *)

(** Writer to reader: after [write_slot] on a live slot whose counter is
    even, a reader of the same mapping reads exactly what was written, sees
    the writer's heartbeat, and reads every other slot as before; an index out
    of range is refused and changes nothing. *)
Lemma write_slot_read_back w m (r : SlotReader) i v raw t s :
  backed (w_slot_count w) m -> r_slot_count r = w_slot_count w ->
  m_slots m !! i = Some s -> set_entry_ok s = true ->
  let '(w', m', ok) := write_slot w m i v raw t in
  if ok then
    (i < w_slot_count w)%nat /\
    io_read_slot (r, m') i = Some (mkRead v raw t) /\
    io_writer_heartbeat (r, m') = t /\ io_generation (r, m') = io_generation (r, m) /\
    forall j, j <> i -> io_read_slot (r, m') j = io_read_slot (r, m) j
  else (w_slot_count w <= i)%nat /\ w' = w /\ m' = m.
Proof.
  intros Hb Hr Hs Ho. unfold write_slot. destruct (Nat.leb_spec (w_slot_count w) i); [done|].
  split_and!; [done| |done|done|].
  - simpl. rewrite (read_at_some _ _ _ (set v raw t s)).
    + rewrite try_load_even; [done|]. apply (set_seq_even v raw t) in Ho.
      by apply negb_true_iff in Ho.
    + lia.
    + simpl. rewrite list_lookup_alter_eq, Hs. done.
  - intros j Hj. simpl. unfold read_at, slot_at. simpl. by rewrite list_lookup_alter_ne.
Qed.

(** C26. Dirty tracking is exact: after any batch of writes on a drained writer,
    [take_dirty_slots] returns the live slots written by the batch, each once,
    in increasing order, and a second drain returns nothing. *)
Theorem take_dirty_slots_exact w m ws :
  dirty_wf w -> backed (w_slot_count w) m ->
  (forall j, (j < w_slot_count w)%nat -> word_bit (w_dirty_words w) j = false) ->
  let '(h', drained) := io_take_dirty_slots (run_writes (w, m) ws) in
  drained = filter (fun s => touched ws s = true) (List.seq 0 (w_slot_count w)) /\
  (io_take_dirty_slots h').2 = [].
Proof.
  intros Hw Hb Hclean.
  assert (io_inv (w, m)) as Hinv by done.
  pose proof (drain_after_writes (w, m) ws Hinv) as Hd.
  destruct (run_writes_spec (w, m) ws Hinv) as (Hi & Hc & _).
  pose proof (io_drain _ Hi) as Hdr.
  destruct (io_take_dirty_slots (run_writes (w, m) ws)) as [h' l].
  destruct Hdr as (_ & Hi' & Hc' & Hcl). split.
  - simpl in Hd. rewrite Hd. apply list_filter_ext. intros s Hs%elem_of_seq.
    by rewrite Hclean by lia.
  - pose proof (io_drain h' Hi') as Hdr2. destruct (io_take_dirty_slots h') as [h2 l2].
    destruct Hdr2 as (-> & _). cbn [snd]. apply filter_none. intros s Hs%elem_of_seq.
    rewrite Hcl; [done|]. rewrite <- Hc'. lia.
Qed.

(** C16. No access outside the mapping: a handle that [open] or [open_existing]
    hands out has all its live slots inside the mapped bytes, so [slot_at]
    panics on no live index; [open_existing] moreover vouches for the expected
    layout and for a stable generation. *)
Theorem open_memory_safe i m path n hash :
  mapping_wf m ->
  (forall r, reader_open (FMapped i m) = Ok r ->
     forall k, (k < r_slot_count r)%nat -> slot_at m (r_slot_count r) k <> Panic) /\
  (forall w, open_existing (FMapped i m) path n hash = Ok w ->
     w_slot_count w = n /\ h_routing_hash (m_header m) = hash /\
     stable_generation (h_writer_generation (m_header m)) = true /\
     forall k, (k < w_slot_count w)%nat -> slot_at m (w_slot_count w) k <> Panic).
Proof.
  intros Hm.
  assert (forall c k, backed c m -> (k < c)%nat -> slot_at m c k <> Panic) as Hsafe.
  { intros c k Hb Hk. unfold slot_at. destruct (Nat.ltb_spec k c); [|lia].
    destruct (lookup_lt_is_Some_2 (m_slots m) k) as [x ->]; [unfold backed in Hb; lia|done]. }
  split.
  - intros r Hr k Hk. apply Hsafe; [|done]. by eapply reader_open_backed.
  - intros w Hw. apply open_existing_backed in Hw as (Hc & _ & Hb & _ & Hg & Hh); [|done].
    split_and!; try done. intros k Hk. apply Hsafe; [|done]. by rewrite Hc.
Qed.

(** Sufficient conditions for the two ways of opening a segment. *)
Lemma open_ok id m path n :
  h_magic (m_header m) = UNIFIED_MAGIC -> h_version (m_header m) = UNIFIED_VERSION ->
  h_slot_count (m_header m) = Z.of_nat n ->
  validate_mapping_layout (mapped_len m) (h_max_slots (m_header m)) n = Ok tt ->
  reader_open (FMapped id m) = Ok (mkReader (h_max_slots (m_header m)) n) /\
  (stable_generation (h_writer_generation (m_header m)) = true ->
   open_existing (FMapped id m) path n (h_routing_hash (m_header m)) =
   Ok (mkWriter path (h_max_slots (m_header m)) n id (new_dirty_words n))).
Proof.
  intros Hm Hver Hc Hv.
  unfold reader_open, open_existing, reader_from_mmap, writer_from_mmap, header_snapshot.
  cbn [hs_magic hs_version hs_slot_count hs_max_slots hs_routing_hash hs_writer_generation].
  rewrite Hm, Hver, !Z.eqb_refl, Hc, Nat2Z.id, Hv. split; [done|].
  intros ->. cbn [obind negb]. by rewrite Nat.eqb_refl.
Qed.

Lemma created_slots slot_count max k :
  (slot_count <= max)%nat -> (k < slot_count)%nat ->
  ((init_unwritten <$> take slot_count (replicate max zero_slot)) ++
     drop slot_count (replicate max zero_slot)) !! k =
  Some (mkSlot SLOT_UNWRITTEN_BITS 0 SLOT_UNWRITTEN_BITS 0 0).
Proof.
  intros Hle Hk. rewrite take_replicate, Nat.min_l, fmap_replicate by lia.
  rewrite lookup_app_l by (rewrite length_replicate; lia).
  by rewrite lookup_replicate_2.
Qed.

(** C34. Creating a segment publishes it: for a live count within the declared
    capacity, [create_at_epoch] succeeds, any reader opens the result, the
    same manifest reopens it for writing, its epoch is the requested one, and
    every live slot reads as unwritten (never as a measured zero). A live
    count above the capacity is refused. *)
Theorem create_then_open path id max_slots slot_count hash epoch sequence wall :
  fits 32 max_slots ->
  let generation := new_generation sequence wall in
  match create_at_epoch path id max_slots slot_count hash epoch generation with
  | Ok (w, m) =>
      (slot_count <= Z.to_nat max_slots)%nat /\
      open_existing (FMapped id m) path slot_count hash = Ok w /\
      publication_epoch (m_header m) = epoch /\
      exists r, reader_open (FMapped id m) = Ok r /\ r_slot_count r = slot_count /\
        forall k, (k < slot_count)%nat ->
          io_read_slot (r, m) k = Some (mkRead SLOT_UNWRITTEN_BITS SLOT_UNWRITTEN_BITS 0)
  | Err e => e = EInvalidLayout /\ (Z.to_nat max_slots < slot_count)%nat
  | Panic => False
  end.
Proof.
  intros Hmax generation. pose proof (new_generation_stable sequence wall) as Hg.
  fold generation in Hg. clearbody generation.
  unfold create_at_epoch. destruct (Nat.ltb_spec (Z.to_nat max_slots) slot_count) as [|Hle]; [done|].
  assert (forall ss, length ss = Z.to_nat max_slots ->
    forall h, validate_mapping_layout (mapped_len (mkMapping h ss 0)) max_slots slot_count = Ok tt) as Hv.
  { intros ss Hss h. unfold validate_mapping_layout, mapped_len, calculate_file_size. simpl.
    rewrite Hss. do 2 (split_if; [lia|]). done. }
  unfold writer_from_mmap at 1. rewrite Hv by apply length_replicate. simpl obind. cbv beta iota.
  assert (wrap 32 (Z.of_nat slot_count) = Z.of_nat slot_count) as Hw
    by (apply wrap_small; unfold fits in *; lia).
  set (ss := (init_unwritten <$> _) ++ _).
  assert (length ss = Z.to_nat max_slots) as Hss.
  { unfold ss. rewrite length_app, length_fmap, length_take, length_drop, length_replicate. lia. }
  destruct (open_ok id (mkMapping (mkHeader UNIFIED_MAGIC UNIFIED_VERSION max_slots
    (wrap 32 (Z.of_nat slot_count)) 0 0 0 hash generation epoch) ss 0) path slot_count
    eq_refl eq_refl Hw (Hv ss Hss _)) as [Hr Ho].
  split_and!; [done|by apply Ho|done|].
  eexists. split_and!; [exact Hr|done|].
  intros k Hk. simpl. erewrite read_at_some; [|done|by apply created_slots]. done.
Qed.

(** *** Witnesses: a segment of capacity 8 with 4 live slots *)

Definition demo_header : UnifiedHeader :=
  mkHeader UNIFIED_MAGIC UNIFIED_VERSION 8 4 0 0 0 0xA37E 2 0.
Definition demo_mapping : Mapping := mkMapping demo_header (replicate 8 slot_new) 0.
Definition demo_writer : SlotWriter := mkWriter "live.shm" 8 4 1 (new_dirty_words 4).

Lemma open_memory_safe_witness :
  open_existing (FMapped 1 demo_mapping) "live.shm" 4 0xA37E = Ok demo_writer /\
  slot_at demo_mapping 4 3 <> Panic.
Proof.
  split; [reflexivity|].
  destruct (open_memory_safe 1 demo_mapping "live.shm" 4 0xA37E) as [_ H].
  - unfold mapping_wf, fits. simpl. unfold SLOT_SIZE. lia.
  - apply (H demo_writer); [reflexivity|simpl; lia].
Defined.

Lemma take_dirty_slots_exact_witness :
  (io_take_dirty_slots (run_writes (demo_writer, demo_mapping)
     [(3%nat, 1, 1, 1); (9%nat, 1, 1, 1); (0%nat, 2, 2, 2); (3%nat, 3, 3, 3)])).2 = [0; 3]%nat.
Proof.
  apply (take_dirty_slots_exact demo_writer demo_mapping
     [(3%nat, 1, 1, 1); (9%nat, 1, 1, 1); (0%nat, 2, 2, 2); (3%nat, 3, 3, 3)]);
    [apply fresh_writer_wf|vm_compute; lia|].
  intros j _. apply fresh_words_clean.
Defined.

Lemma create_then_open_witness :
  fits 32 8 /\ is_ok (create_at_epoch "live.shm" 1 8 4 0xA37E 5 (new_generation 2 1000)) = true.
Proof.
  assert (fits 32 8) as H8 by (unfold fits; lia). split; [exact H8|].
  pose proof (create_then_open "live.shm" 1 8 4 0xA37E 5 2 1000 H8) as H. cbv zeta in H.
  destruct (create_at_epoch "live.shm" 1 8 4 0xA37E 5 (new_generation 2 1000));
    [reflexivity|destruct H; lia|destruct H].
Defined.
