(* ===== verification/Snapshot.v ===== *)
(** * Snapshots of a segment: tear-resistant save, validated load

    [crates/aether-dataplane/src/core/{snapshot_save,snapshot_load}.rs]. The
    save side copies the header and reads every slot through the seqlock; the
    load side validates every field before it hands out an image. File-system
    calls (temporary file, sync, rename) are left out: the model is the byte
    string that ends at the snapshot path. *)

From S2P Require Import Prelude Slot Bitmap Segment.

(** ** Save *)

(** Fixed-width little-endian fields laid out one after the other. *)
Definition layout_bytes (fields : list (nat * Z)) : list Z :=
  mjoin ((fun f => to_le f.1 f.2) <$> fields).

(** The 64 bytes of [UnifiedHeader] ([repr(C)]). *)
Definition header_fields (h : UnifiedHeader) : list (nat * Z) :=
  [(8%nat, h_magic h); (4%nat, h_version h); (4%nat, h_max_slots h); (4%nat, h_slot_count h);
   (4%nat, h_pad h); (8%nat, h_last_update_ts h); (8%nat, h_writer_heartbeat h);
   (8%nat, h_routing_hash h); (8%nat, h_writer_generation h); (8%nat, h_reserved h)].

Definition header_bytes (h : UnifiedHeader) : list Z := layout_bytes (header_fields h).

(** [slot_snapshot_bytes] and [slot_unwritten_bytes]: value, timestamp, raw,
    sequence, dirty. *)
Definition slot_fields (v t r sequence : Z) : list (nat * Z) :=
  [(8%nat, v); (8%nat, t); (8%nat, r); (4%nat, sequence); (4%nat, 0)].

Definition slot_snapshot_bytes (v raw ts : Z) : list Z := layout_bytes (slot_fields v ts raw 2).

Definition slot_unwritten_bytes : list Z :=
  layout_bytes (slot_fields SLOT_UNWRITTEN_BITS 0 SLOT_UNWRITTEN_BITS 0).

Definition slot_bytes (read : option reading) : list Z :=
  match read with
  | Some (v, r, t) => slot_snapshot_bytes v r t
  | None => slot_unwritten_bytes
  end.

(** [save_snapshot_impl]; [reads] are the results of [try_load_consistent] on
    slots [0 .. slot_count), [None] for a slot that was being written. *)
Definition save_snapshot_impl (m : Mapping) (slot_count : nat) (reads : nat -> option reading)
  : outcome DataplaneError (list Z) :=
  let? slots_len := ok_or EInvalidLayout (checked_mul 64 (Z.of_nat slot_count) (Z.of_nat SLOT_SIZE)) in
  let? required := ok_or EInvalidLayout (checked_add 64 (Z.of_nat slot_offset) slots_len) in
  if Z.of_nat (mapped_len m) <? required then Err EInvalidLayout
  else Ok (header_bytes (m_header m) ++ mjoin ((fun i => slot_bytes (reads i)) <$> List.seq 0 slot_count)).

(** What a snapshot reads when nobody writes meanwhile. *)
Definition quiet_reads (m : Mapping) (i : nat) : option reading :=
  match m_slots m !! i with Some s => try_load_consistent s | None => None end.

(** [SlotWriter::save_snapshot] uses the live header count,
    [SlotReader::save_snapshot] the count captured at open. *)
Definition writer_save_snapshot (m : Mapping) (reads : nat -> option reading) :=
  save_snapshot_impl m (Z.to_nat (h_slot_count (m_header m))) reads.
Definition reader_save_snapshot (r : SlotReader) (m : Mapping) (reads : nat -> option reading) :=
  save_snapshot_impl m (r_slot_count r) reads.

(** ** Load *)

Record SnapshotImage := mkImage {
  si_header : HeaderSnapshot;
  si_publication_epoch : Z;
  si_slots : list (option SlotRead)
}.

(** [read_u64] and [read_u32]: [n] bytes at an offset. *)
Definition read_uint (n : nat) (bytes : list Z) (offset : nat) : outcome DataplaneError Z :=
  let? b := ok_or EInvalidLayout (slice offset n bytes) in
  Ok (from_le b).

Definition decode_header (bytes : list Z) : outcome DataplaneError HeaderSnapshot :=
  let? magic := read_uint 8 bytes 0 in
  let? version := read_uint 4 bytes 8 in
  let? max_slots := read_uint 4 bytes 12 in
  let? slot_count := read_uint 4 bytes 16 in
  let? last_update_ts := read_uint 8 bytes 24 in
  let? writer_heartbeat := read_uint 8 bytes 32 in
  let? routing_hash := read_uint 8 bytes 40 in
  let? writer_generation := read_uint 8 bytes 48 in
  Ok (mkHeaderSnapshot magic version max_slots slot_count last_update_ts writer_heartbeat
        routing_hash writer_generation).

Definition decode_slot (bytes : list Z) (slot : nat) : outcome DataplaneError (option SlotRead) :=
  let base := (slot_offset + slot * SLOT_SIZE)%nat in
  let? value_bits := read_uint 8 bytes base in
  let? timestamp_ms := read_uint 8 bytes (base + 8) in
  let? raw_bits := read_uint 8 bytes (base + 16) in
  let? sequence := read_uint 4 bytes (base + 24) in
  if Z.odd sequence then Err EInvalidLayout
  else if (value_bits =? SLOT_UNWRITTEN_BITS) && (raw_bits =? SLOT_UNWRITTEN_BITS) then Ok None
  else if negb (f64_is_finite value_bits) || negb (f64_is_finite raw_bits) then Err EInvalidLayout
  else Ok (Some (mkRead value_bits raw_bits timestamp_ms)).

Fixpoint decode_slots (bytes : list Z) (slot n : nat) : outcome DataplaneError (list (option SlotRead)) :=
  match n with
  | O => Ok []
  | S n' =>
      let? s := decode_slot bytes slot in
      let? rest := decode_slots bytes (S slot) n' in
      Ok (s :: rest)
  end.

(** [SnapshotImage::load], on the bytes read from the path. *)
Definition load (bytes : list Z) : outcome DataplaneError SnapshotImage :=
  if (length bytes <? slot_offset)%nat then Err EInvalidLayout else
  let? header := decode_header bytes in
  let? epoch := read_uint 8 bytes 56 in
  if negb (hs_magic header =? UNIFIED_MAGIC) then Err EInvalidLayout
  else if negb (hs_version header =? UNIFIED_VERSION) then Err EInvalidLayout
  else if hs_max_slots header <? hs_slot_count header then Err EInvalidLayout
  else if negb (stable_generation (hs_writer_generation header)) then Err EInvalidLayout
  else
    let? slots_len := ok_or EInvalidLayout (checked_mul 64 (hs_slot_count header) (Z.of_nat SLOT_SIZE)) in
    let? required := ok_or EInvalidLayout (checked_add 64 (Z.of_nat slot_offset) slots_len) in
    if negb (Z.of_nat (length bytes) =? required) then Err EInvalidLayout
    else
      let? slots := decode_slots bytes 0 (Z.to_nat (hs_slot_count header)) in
      Ok (mkImage header epoch slots).

(** ** Field layout *)

Definition width (fields : list (nat * Z)) : nat := sum_list (fst <$> fields).

Lemma layout_bytes_app f g : layout_bytes (f ++ g) = layout_bytes f ++ layout_bytes g.
Proof. unfold layout_bytes. by rewrite fmap_app, join_app. Qed.

Lemma layout_bytes_length f : length (layout_bytes f) = width f.
Proof.
  induction f as [|[n z] f IH]; [done|].
  change (layout_bytes ((n, z) :: f)) with (to_le n z ++ layout_bytes f).
  change (width ((n, z) :: f)) with (n + width f)%nat.
  by rewrite length_app, to_le_length, IH.
Qed.

Lemma read_uint_shift n a b off :
  read_uint n (a ++ b) (length a + off) = read_uint n b off.
Proof.
  unfold read_uint, slice. rewrite length_app.
  rewrite drop_app_ge, (Nat.add_comm (length a)), Nat.add_sub by lia.
  repeat case_bool_decide; done || lia.
Qed.

Lemma read_uint_head n z c :
  fits (8 * Z.of_nat n) z -> read_uint n (to_le n z ++ c) 0 = Ok z.
Proof.
  intros Hz. unfold read_uint.
  rewrite <- (to_le_length n z) at 1. pose proof (slice_app_mid [] (to_le n z) c) as Hs.
  simpl in Hs. rewrite Hs. simpl. by rewrite from_to_le_fits.
Qed.

(** Reading a field of a layout at its offset gives its value. *)
Lemma read_field fields k n z rest :
  fields !! k = Some (n, z) -> fits (8 * Z.of_nat n) z ->
  read_uint n (layout_bytes fields ++ rest) (width (take k fields)) = Ok z.
Proof.
  intros Hk Hz. rewrite <- (take_drop_middle fields k (n, z) Hk) at 1.
  rewrite layout_bytes_app, <- app_assoc, <- layout_bytes_length.
  rewrite <- (Nat.add_0_r (length (layout_bytes (take k fields)))), read_uint_shift.
  change (layout_bytes ((n, z) :: drop (S k) fields))
    with (to_le n z ++ layout_bytes (drop (S k) fields)).
  rewrite <- app_assoc. by apply read_uint_head.
Qed.

Lemma header_bytes_length h : length (header_bytes h) = 64%nat.
Proof. unfold header_bytes. by rewrite layout_bytes_length. Qed.

Lemma slot_bytes_length o : length (slot_bytes o) = 32%nat.
Proof. destruct o as [[[v r] t]|]; apply layout_bytes_length. Qed.

(** Every field of a header fits its cell. *)
Definition header_wf (h : UnifiedHeader) : Prop :=
  Forall (fun f => fits (8 * Z.of_nat f.1) f.2) (header_fields h).

Lemma header_field h k n z rest :
  header_wf h -> header_fields h !! k = Some (n, z) ->
  read_uint n (header_bytes h ++ rest) (width (take k (header_fields h))) = Ok z.
Proof.
  intros Hw Hk. apply read_field; [done|].
  by apply (Forall_lookup_1 _ _ _ _ Hw Hk).
Qed.

Lemma decode_header_bytes h rest :
  header_wf h ->
  decode_header (header_bytes h ++ rest) = Ok (header_snapshot h) /\
  read_uint 8 (header_bytes h ++ rest) 56 = Ok (publication_epoch h).
Proof.
  intros Hw. pose proof (fun k n z => header_field h k n z rest Hw) as Hf.
  pose proof (Hf 0%nat _ _ eq_refl : read_uint 8 _ 0 = _) as H0.
  pose proof (Hf 1%nat _ _ eq_refl : read_uint 4 _ 8 = _) as H1.
  pose proof (Hf 2%nat _ _ eq_refl : read_uint 4 _ 12 = _) as H2.
  pose proof (Hf 3%nat _ _ eq_refl : read_uint 4 _ 16 = _) as H3.
  pose proof (Hf 5%nat _ _ eq_refl : read_uint 8 _ 24 = _) as H5.
  pose proof (Hf 6%nat _ _ eq_refl : read_uint 8 _ 32 = _) as H6.
  pose proof (Hf 7%nat _ _ eq_refl : read_uint 8 _ 40 = _) as H7.
  pose proof (Hf 8%nat _ _ eq_refl : read_uint 8 _ 48 = _) as H8.
  split; [|exact (Hf 9%nat _ _ eq_refl)].
  unfold decode_header. by rewrite H0, H1, H2, H3, H5, H6, H7, H8.
Qed.

(** *** Slots *)

(** What a saved slot loads as. *)
Definition image_slot (read : option reading) : option SlotRead :=
  match read with
  | Some (v, r, t) =>
      if (v =? SLOT_UNWRITTEN_BITS) && (r =? SLOT_UNWRITTEN_BITS) then None
      else Some (mkRead v r t)
  | None => None
  end.

(** A read the loader accepts: torn, unwritten, or finite in both values. *)
Definition storable (read : option reading) : bool :=
  match read with
  | Some (v, r, t) =>
      (v =? SLOT_UNWRITTEN_BITS) && (r =? SLOT_UNWRITTEN_BITS) ||
      (f64_is_finite v && f64_is_finite r)
  | None => true
  end.

Definition read_fits (read : option reading) : Prop :=
  match read with
  | Some (v, r, t) => fits 64 v /\ fits 64 r /\ fits 64 t
  | None => True
  end.

(** The loader's verdict on one slot, from the read it was saved from. *)
Definition slot_verdict (read : option reading) : outcome DataplaneError (option SlotRead) :=
  if storable read then Ok (image_slot read) else Err EInvalidLayout.

Lemma mjoin_length_const {A} (l : list (list A)) k :
  Forall (fun x => length x = k) l -> length (mjoin l) = (length l * k)%nat.
Proof.
  induction 1 as [|x l Hx _ IH]; [done|].
  change (mjoin (x :: l)) with (x ++ mjoin l). rewrite length_app, Hx, IH. simpl. lia.
Qed.

Lemma mjoin_split {A} (l : list (list A)) i x :
  l !! i = Some x -> mjoin l = mjoin (take i l) ++ x ++ mjoin (drop (S i) l).
Proof.
  intros Hi. rewrite <- (take_drop_middle l i x Hi) at 1. by rewrite join_app.
Qed.

Lemma read_uint_slot h (reads : list (option reading)) i o :
  reads !! i = Some o ->
  exists rest, forall n off,
    read_uint n (header_bytes h ++ mjoin (slot_bytes <$> reads)) (slot_offset + i * SLOT_SIZE + off) =
    read_uint n (slot_bytes o ++ rest) off.
Proof.
  intros Hi. exists (mjoin (drop (S i) (slot_bytes <$> reads))). intros n off.
  rewrite (mjoin_split _ i (slot_bytes o)) by (rewrite list_lookup_fmap, Hi; done).
  replace (slot_offset + i * SLOT_SIZE + off)%nat
    with (length (header_bytes h) + (length (mjoin (take i (slot_bytes <$> reads))) + off))%nat.
  - by rewrite !read_uint_shift.
  - rewrite header_bytes_length, (mjoin_length_const _ 32).
    + rewrite length_take, length_fmap. apply lookup_lt_Some in Hi.
      unfold slot_offset, HEADER_SIZE, SLOT_SIZE. lia.
    + apply Forall_take, Forall_fmap, Forall_true. intros x. apply slot_bytes_length.
Qed.

(** The four fields of a saved slot read back. *)
Lemma slot_fields_read o rest :
  read_fits o ->
  exists v t r q,
    read_uint 8 (slot_bytes o ++ rest) 0 = Ok v /\
    read_uint 8 (slot_bytes o ++ rest) 8 = Ok t /\
    read_uint 8 (slot_bytes o ++ rest) 16 = Ok r /\
    read_uint 4 (slot_bytes o ++ rest) 24 = Ok q /\ Z.odd q = false /\
    match o with
    | Some x => x = (v, r, t)
    | None => v = SLOT_UNWRITTEN_BITS /\ r = SLOT_UNWRITTEN_BITS
    end.
Proof.
  assert (forall v t r q, fits 64 v -> fits 64 t -> fits 64 r -> fits 32 q ->
    let b := layout_bytes (slot_fields v t r q) ++ rest in
    read_uint 8 b 0 = Ok v /\ read_uint 8 b 8 = Ok t /\
    read_uint 8 b 16 = Ok r /\ read_uint 4 b 24 = Ok q) as H.
  { intros v t r q Hv Ht Hr Hq b. split_and!.
    - exact (read_field (slot_fields v t r q) 0 8 v rest eq_refl Hv).
    - exact (read_field (slot_fields v t r q) 1 8 t rest eq_refl Ht).
    - exact (read_field (slot_fields v t r q) 2 8 r rest eq_refl Hr).
    - exact (read_field (slot_fields v t r q) 3 4 q rest eq_refl Hq). }
  destruct o as [[[v r] t]|]; intros Hf.
  - destruct Hf as (Hv & Hr & Ht).
    destruct (H v t r 2 Hv Ht Hr) as (? & ? & ? & ?); [unfold fits; lia|].
    exists v, t, r, 2. split_and!; [assumption..|reflexivity|reflexivity].
  - destruct (H SLOT_UNWRITTEN_BITS 0 SLOT_UNWRITTEN_BITS 0) as (? & ? & ? & ?);
      [unfold fits, SLOT_UNWRITTEN_BITS; lia..|].
    exists SLOT_UNWRITTEN_BITS, 0, SLOT_UNWRITTEN_BITS, 0.
    split_and!; [assumption..|reflexivity|reflexivity|reflexivity].
Qed.

Lemma decode_slot_saved h reads i o :
  reads !! i = Some o -> read_fits o ->
  decode_slot (header_bytes h ++ mjoin (slot_bytes <$> reads)) i = slot_verdict o.
Proof.
  intros Hi Hf. unfold decode_slot.
  destruct (read_uint_slot h reads i o Hi) as [rest Hr].
  destruct (slot_fields_read o rest Hf) as (v & t & r & q & Hv & Ht & Hraw & Hq & Ho & Hx).
  rewrite <- (Nat.add_0_r (slot_offset + i * SLOT_SIZE)) at 1.
  rewrite !Hr, Hv, Ht, Hraw, Hq. cbn [obind]. rewrite Ho. unfold slot_verdict.
  destruct o as [x|].
  - subst x. unfold storable, image_slot.
    destruct ((v =? SLOT_UNWRITTEN_BITS) && (r =? SLOT_UNWRITTEN_BITS)); [done|].
    cbn [orb]. by destruct (f64_is_finite v), (f64_is_finite r).
  - by destruct Hx as [-> ->].
Qed.

Lemma decode_slots_saved h pre l :
  Forall read_fits l ->
  decode_slots (header_bytes h ++ mjoin (slot_bytes <$> (pre ++ l))) (length pre) (length l) =
  if forallb storable l then Ok (image_slot <$> l) else Err EInvalidLayout.
Proof.
  intros Hl. revert pre. induction Hl as [|o l Ho _ IH]; intros pre; [done|].
  cbn [length decode_slots forallb].
  rewrite (decode_slot_saved h (pre ++ o :: l) (length pre) o); [|by apply list_lookup_middle|done].
  unfold slot_verdict. destruct (storable o); simpl; [|done].
  specialize (IH (pre ++ [o])). rewrite <- app_assoc, length_app, Nat.add_1_r in IH.
  simpl app in IH. rewrite IH. by destruct (forallb storable l).
Qed.

(** A saved snapshot, as bytes. *)
Lemma save_bytes m n reads bytes :
  save_snapshot_impl m n reads = Ok bytes ->
  bytes = header_bytes (m_header m) ++ mjoin (slot_bytes <$> (reads <$> List.seq 0 n)) /\
  length bytes = (64 + n * 32)%nat /\ Z.of_nat n * 32 < 2 ^ 64 - 64.
Proof.
  unfold save_snapshot_impl.
  intros (sl & Hs%ok_or_ok & (rq & Hr%ok_or_ok & Hk)%obind_ok)%obind_ok.
  unfold checked_mul in Hs. split_if_in Hs; [|discriminate].
  apply checked_add_Some in Hr as [-> Hlt]. split_if_in Hk; [discriminate|]. apply Ok_inj in Hk as <-.
  rewrite <- list_fmap_compose. split_and!; [done| |].
  - rewrite length_app, header_bytes_length, (mjoin_length_const _ 32).
    + by rewrite length_fmap, length_seq.
    + apply Forall_fmap, Forall_true. intros x. apply slot_bytes_length.
  - unfold slot_offset, HEADER_SIZE, SLOT_SIZE in *. simplify_eq. lia.
Qed.

(** The loader on a saved snapshot, every header check included. *)
Lemma load_saved m n reads bytes :
  header_wf (m_header m) -> (forall i, (i < n)%nat -> read_fits (reads i)) ->
  save_snapshot_impl m n reads = Ok bytes ->
  load bytes =
  if (h_magic (m_header m) =? UNIFIED_MAGIC) && (h_version (m_header m) =? UNIFIED_VERSION) &&
     (h_slot_count (m_header m) <=? h_max_slots (m_header m)) &&
     stable_generation (h_writer_generation (m_header m)) &&
     (h_slot_count (m_header m) =? Z.of_nat n) &&
     forallb storable (reads <$> List.seq 0 n)
  then Ok (mkImage (header_snapshot (m_header m)) (publication_epoch (m_header m))
             (image_slot <$> (reads <$> List.seq 0 n)))
  else Err EInvalidLayout.
Proof.
  intros Hw Hf (-> & Hlen & Hbig)%save_bytes. unfold load. rewrite Hlen.
  unfold slot_offset, HEADER_SIZE. destruct (Nat.ltb_spec (64 + n * 32) 64); [lia|].
  destruct (decode_header_bytes (m_header m) (mjoin (slot_bytes <$> (reads <$> List.seq 0 n))) Hw)
    as [-> ->]. cbn [obind].
  set (h := m_header m) in *. unfold header_snapshot.
  cbn [hs_magic hs_version hs_slot_count hs_max_slots hs_writer_generation].
  destruct (h_magic h =? UNIFIED_MAGIC); cbn [negb andb]; [|done].
  destruct (h_version h =? UNIFIED_VERSION); cbn [negb andb]; [|done].
  rewrite Z.leb_antisym. destruct (h_max_slots h <? h_slot_count h); cbn [negb andb]; [done|].
  destruct (stable_generation (h_writer_generation h)); cbn [negb andb]; [|done].
  assert (fits 32 (h_slot_count h)) as Hc
    by exact (Forall_lookup_1 _ _ 3 _ Hw eq_refl).
  unfold checked_mul, checked_add, SLOT_SIZE, fits in *.
  replace (h_slot_count h * Z.of_nat 32 <? 2 ^ 64) with true by lia. cbn [ok_or obind].
  replace (Z.of_nat 64 + h_slot_count h * Z.of_nat 32 <? 2 ^ 64) with true by lia. cbn [ok_or obind].
  destruct (Z.eqb_spec (h_slot_count h) (Z.of_nat n)) as [Heq|Hne].
  - rewrite Heq. replace (Z.of_nat (64 + n * 32) =? _) with true by lia. cbn [negb andb].
    rewrite Nat2Z.id.
    pose proof (decode_slots_saved h [] (reads <$> List.seq 0 n)) as Hd.
    rewrite length_fmap, length_seq in Hd. cbn [length app] in Hd. rewrite Hd; [by split_if|].
    apply Forall_fmap, Forall_seq. intros j Hj. apply Hf. lia.
  - by replace (Z.of_nat (64 + n * 32) =? _) with false by lia.
Qed.

Lemma save_ok m n reads :
  backed n m -> Z.of_nat n * 32 < 2 ^ 64 - 64 ->
  exists bytes, save_snapshot_impl m n reads = Ok bytes.
Proof.
  intros Hb Hn. unfold save_snapshot_impl, checked_mul, checked_add, backed, mapped_len in *.
  unfold slot_offset, HEADER_SIZE, SLOT_SIZE in *.
  replace (Z.of_nat n * Z.of_nat 32 <? 2 ^ 64) with true by lia. cbn [ok_or obind].
  replace (Z.of_nat 64 + Z.of_nat n * Z.of_nat 32 <? 2 ^ 64) with true by lia. cbn [ok_or obind].
  split_if; [lia|eauto].
Qed.

(** ** Properties *)

(** C28. Save then load: a quiescent segment with a published header whose live
    slots are unwritten or finite saves, and the loader accepts the bytes and
    returns its header, its epoch and, slot by slot, what a reader of the
    segment sees ([None] for the unwritten marker). *)
Theorem snapshot_roundtrip m :
  let h := m_header m in let n := Z.to_nat (h_slot_count h) in
  header_wf h -> h_magic h = UNIFIED_MAGIC -> h_version h = UNIFIED_VERSION ->
  h_slot_count h <= h_max_slots h -> stable_generation (h_writer_generation h) = true ->
  backed n m -> Forall slot_wf (m_slots m) ->
  (forall i, (i < n)%nat -> storable (quiet_reads m i) = true) ->
  exists bytes, writer_save_snapshot m (quiet_reads m) = Ok bytes /\
    load bytes = Ok (mkImage (header_snapshot h) (publication_epoch h)
                       ((fun i => image_slot (quiet_reads m i)) <$> List.seq 0 n)).
Proof.
  intros h n Hw Hm Hv Hc Hg Hb Hs Hst.
  assert (fits 32 (h_slot_count h)) as Hf by exact (Forall_lookup_1 _ _ 3 _ Hw eq_refl).
  destruct (save_ok m n (quiet_reads m) Hb) as [bytes Hsave]; [unfold fits, n in *; lia|].
  exists bytes. split; [done|].
  rewrite (load_saved m n (quiet_reads m) bytes) by
    (done || (intros i _; unfold quiet_reads; destruct (m_slots m !! i) as [s|] eqn:E; [|done];
              destruct (Forall_lookup_1 _ _ _ _ Hs E) as (? & ? & ? & _);
              unfold try_load_consistent; repeat split_if; done)).
  fold h. rewrite Hm, Hv, !Z.eqb_refl, Hg.
  replace (h_slot_count h <=? h_max_slots h) with true by lia.
  replace (h_slot_count h =? Z.of_nat n) with true by (unfold n, fits in *; lia).
  replace (forallb storable (quiet_reads m <$> List.seq 0 n)) with true.
  - cbn [andb]. by rewrite <- list_fmap_compose.
  - symmetry. apply forallb_forall. intros o Ho. apply list_elem_of_In, list_elem_of_fmap in Ho as (i & -> & Hi).
    apply Hst. apply elem_of_seq in Hi. lia.
Qed.

(** C29. Nothing torn is ever restored: whatever slots were being written while
    the snapshot was taken, an image the loader returns has one entry per
    saved slot, and a value in it is exactly a value a consistent read
    returned for that slot, finite in both parts. *)
Theorem snapshot_restores_only_consistent_reads m n reads bytes img i rd :
  header_wf (m_header m) -> (forall i, (i < n)%nat -> read_fits (reads i)) ->
  save_snapshot_impl m n reads = Ok bytes -> load bytes = Ok img ->
  si_slots img !! i = Some (Some rd) ->
  (i < n)%nat /\ reads i = Some (rd_value rd, rd_raw rd, rd_timestamp_ms rd) /\
  f64_is_finite (rd_value rd) = true /\ f64_is_finite (rd_raw rd) = true.
Proof.
  intros Hw Hf Hs Hl Hi. rewrite (load_saved m n reads bytes Hw Hf Hs) in Hl.
  split_if_in Hl; [|discriminate]. apply Ok_inj in Hl. subst img. simpl in Hi.
  apply list_lookup_fmap_Some in Hi as (o & Ho & Hi).
  apply list_lookup_fmap_Some in Hi as (j & -> & Hj%lookup_seq). destruct Hj as [-> Hlt].
  bool_facts. match goal with H : forallb _ _ = true |- _ => rename H into Hall end.
  rewrite forallb_forall in Hall.
  assert (storable (reads i) = true) as Hst.
  { apply Hall, list_elem_of_In, list_elem_of_fmap. exists i. split; [done|]. apply elem_of_seq. lia. }
  unfold image_slot, storable in *. simpl in Ho. destruct (reads i) as [[[v r] t]|]; [|discriminate].
  split; [done|]. destruct ((v =? SLOT_UNWRITTEN_BITS) && (r =? SLOT_UNWRITTEN_BITS)); [discriminate|].
  apply (inj Some) in Ho. subst rd. cbn [orb] in Hst.
  apply andb_true_iff in Hst as [Hv Hr]. exact (conj eq_refl (conj Hv Hr)).
Qed.

(** The loader accepts a saved file if and only if its header carries the
    current magic, version, a live count within the capacity and equal to the
    number of slots saved, a stable generation, and every consistently read
    slot is unwritten or finite: a count captured before a reconfiguration, an
    interrupted generation or a single non-finite value rejects the file. *)
Lemma snapshot_accepted_iff m n reads bytes :
  header_wf (m_header m) -> (forall i, (i < n)%nat -> read_fits (reads i)) ->
  save_snapshot_impl m n reads = Ok bytes ->
  let h := m_header m in
  is_ok (load bytes) = true <->
  h_magic h = UNIFIED_MAGIC /\ h_version h = UNIFIED_VERSION /\
  h_slot_count h <= h_max_slots h /\ stable_generation (h_writer_generation h) = true /\
  h_slot_count h = Z.of_nat n /\ forall i, (i < n)%nat -> storable (reads i) = true.
Proof.
  intros Hw Hf Hs h. rewrite (load_saved m n reads bytes Hw Hf Hs). fold h.
  assert (forallb storable (reads <$> List.seq 0 n) = true <->
          forall i, (i < n)%nat -> storable (reads i) = true) as Hall.
  { rewrite forallb_forall. setoid_rewrite <- list_elem_of_In. setoid_rewrite list_elem_of_fmap.
    split.
    - intros H i Hi. apply H. exists i. split; [done|]. apply elem_of_seq. lia.
    - intros H o (i & -> & Hi%elem_of_seq). apply H. lia. }
  rewrite <- Hall, <- Z.eqb_eq, <- (Z.eqb_eq (h_version h)), <- (Z.eqb_eq (h_slot_count h)), <- Z.leb_le.
  split_if; simpl; [bool_facts; tauto|]. split; [done|].
  intros (H1 & H2 & H3 & H4 & H5 & H6). rewrite H1, H2, H3, H4, H5, H6 in E. done.
Qed.

(** *** Witnesses: two live slots, one written, one not *)

Definition snap_mapping : Mapping :=
  mkMapping (mkHeader UNIFIED_MAGIC UNIFIED_VERSION 4 2 0 0 0 0xA37E 2 7)
    [set 0 0 5 slot_new; slot_new; slot_new; slot_new] 0.

Lemma snap_header_wf : header_wf (m_header snap_mapping).
Proof. unfold header_wf. by_decide. Qed.

Lemma snap_reads_fit i : (i < 2)%nat -> read_fits (quiet_reads snap_mapping i).
Proof.
  destruct i as [|[|i]]; [..|lia]; intros _; [|split_and!; by_decide].
  split_and!; by_decide.
Qed.

Definition snap_bytes : list Z :=
  match writer_save_snapshot snap_mapping (quiet_reads snap_mapping) with Ok b => b | _ => [] end.

Lemma snap_saved : save_snapshot_impl snap_mapping 2 (quiet_reads snap_mapping) = Ok snap_bytes.
Proof. vm_compute. reflexivity. Qed.

Definition snap_image : SnapshotImage :=
  mkImage (header_snapshot (m_header snap_mapping)) 7 [Some (mkRead 0 0 5); None].

Lemma snapshot_roundtrip_witness :
  exists bytes, writer_save_snapshot snap_mapping (quiet_reads snap_mapping) = Ok bytes /\
                load bytes = Ok snap_image.
Proof.
  destruct (snapshot_roundtrip snap_mapping) as (bytes & Hs & Hl);
    [exact snap_header_wf|reflexivity|reflexivity|simpl; lia|reflexivity|vm_compute; lia| | |].
  - repeat apply Forall_cons_2; [..|apply Forall_nil_2]; unfold slot_wf; split_and!; by_decide.
  - intros i Hi. destruct i as [|[|i]]; [reflexivity|reflexivity|]. simpl in Hi. lia.
  - exists bytes. split; [exact Hs|exact Hl].
Defined.

Lemma snapshot_restores_only_consistent_reads_witness :
  load snap_bytes = Ok snap_image /\ quiet_reads snap_mapping 0 = Some (0, 0, 5).
Proof.
  assert (load snap_bytes = Ok snap_image) as Hl by (vm_compute; reflexivity).
  split; [exact Hl|].
  apply (snapshot_restores_only_consistent_reads snap_mapping 2 (quiet_reads snap_mapping)
           snap_bytes snap_image 0 (mkRead 0 0 5) snap_header_wf snap_reads_fit snap_saved Hl).
  reflexivity.
Defined.
