(* ===== verification/Text.v ===== *)
(** * Text: ASCII classes and decimal integers

    The [u8::is_ascii_*] classes, [str::bytes], and [u64] decimal text as
    [str::parse::<u64>] reads it and [u64::to_string] writes it. Strings are
    byte strings ([String.string]); every format checked here is ASCII. *)

From S2P Require Import Prelude.
From Stdlib Require Export Ascii.

(** ** Classes *)

Definition ascii_in (lo hi : Z) (c : ascii) : bool :=
  let n := Z.of_nat (nat_of_ascii c) in (lo <=? n) && (n <=? hi).
Definition is_ascii_digit : ascii -> bool := ascii_in 48 57.
Definition is_ascii_uppercase : ascii -> bool := ascii_in 65 90.
Definition is_ascii_lowercase : ascii -> bool := ascii_in 97 122.
Definition is_ascii_alphanumeric (c : ascii) : bool :=
  is_ascii_digit c || is_ascii_uppercase c || is_ascii_lowercase c.
Definition is_ascii_hexdigit (c : ascii) : bool :=
  is_ascii_digit c || ascii_in 65 70 c || ascii_in 97 102 c.

(** [str::bytes()]. *)
Definition str_bytes (s : string) : list ascii := String.list_ascii_of_string s.

Definition transport_safe (c : ascii) : bool :=
  is_ascii_alphanumeric c || existsb (Ascii.eqb c) ["."; "_"; ":"; "-"]%char.

(** Character at an index the length check made valid. *)
Definition byte_at (l : list ascii) (i : nat) : ascii := nth i l "000"%char.

Definition lower_hex (c : ascii) : bool := is_ascii_hexdigit c && negb (is_ascii_uppercase c).
Definition base64url (c : ascii) : bool := is_ascii_alphanumeric c || Ascii.eqb c "_" || Ascii.eqb c "-".

(** A lowercase UUID of version 1 to 8 and the RFC variant. *)
Definition uuid_separator (i : nat) : bool := existsb (Nat.eqb i) [8; 13; 18; 23]%nat.
Definition uuid_text (value : string) : bool :=
  let bytes := str_bytes value in
  (length bytes =? 36)%nat &&
  Ascii.eqb (byte_at bytes 8) "-" && Ascii.eqb (byte_at bytes 13) "-" &&
  Ascii.eqb (byte_at bytes 18) "-" && Ascii.eqb (byte_at bytes 23) "-" &&
  ascii_in 49 56 (byte_at bytes 14) &&
  existsb (Ascii.eqb (byte_at bytes 19)) ["8"; "9"; "a"; "b"]%char &&
  forallb (fun '(i, c) => uuid_separator i || lower_hex c) (zip (List.seq 0 36) bytes).

(** [str::from_utf8(..).is_ok()]: the well-formed byte sequences of Unicode. *)
Definition continuation : ascii -> bool := ascii_in 128 191.
Fixpoint utf8_valid (l : list ascii) : bool :=
  match l with
  | [] => true
  | a :: l =>
      if ascii_in 0 127 a then utf8_valid l
      else match l with
      | [] => false
      | b :: l =>
          if ascii_in 194 223 a then continuation b && utf8_valid l
          else match l with
          | [] => false
          | c :: l =>
              if ascii_in 224 239 a then
                (if ascii_in 224 224 a then ascii_in 160 191 b else if ascii_in 237 237 a then ascii_in 128 159 b else continuation b) &&
                continuation c && utf8_valid l
              else match l with
              | [] => false
              | d :: l =>
                  ascii_in 240 244 a &&
                  (if ascii_in 240 240 a then ascii_in 144 191 b else if ascii_in 244 244 a then ascii_in 128 143 b else continuation b) &&
                  continuation c && continuation d && utf8_valid l
              end
          end
      end
  end.

(** ** Decimal [u64] *)

Definition digit_value (c : ascii) : Z := Z.of_nat (nat_of_ascii c) - 48.
Definition digit_char (d : Z) : ascii := ascii_of_nat (Z.to_nat (d + 48)).

(** Digits from the left, with the checked arithmetic of the parser. *)
Fixpoint parse_digits (acc : Z) (l : list ascii) : option Z :=
  match l with
  | [] => Some acc
  | c :: l =>
      if is_ascii_digit c then
        let acc' := acc * 10 + digit_value c in
        if acc' <? 2 ^ 64 then parse_digits acc' l else None
      else None
  end.

(** [str::parse::<u64>]: an optional [+], then at least one digit. *)
Definition parse_u64 (s : string) : option Z :=
  let l := str_bytes s in
  let l := match l with "+"%char :: l => l | _ => l end in
  if (length l =? 0)%nat then None else parse_digits 0 l.

Fixpoint dec_digits (fuel : nat) (n : Z) : list ascii :=
  match fuel with
  | O => []
  | S fuel => if n <? 10 then [digit_char n] else dec_digits fuel (n / 10) ++ [digit_char (n mod 10)]
  end.

(** [u64::to_string]: twenty digits are enough for a [u64]. *)
Definition u64_to_string (n : Z) : string := String.string_of_list_ascii (dec_digits 20 n).

Example parse_u64_samples :
  (parse_u64 "0", parse_u64 "007", parse_u64 "+12", parse_u64 "", parse_u64 "-1", parse_u64 "18446744073709551616",
   u64_to_string 18446744073709551615) =
  (Some 0, Some 7, Some 12, None, None, None, "18446744073709551615"%string).
Proof. reflexivity. Qed.

Lemma digit_char_spec d :
  0 <= d < 10 -> is_ascii_digit (digit_char d) = true /\ digit_value (digit_char d) = d /\ digit_char d <> "+"%char.
Proof.
  intros Hd. assert (d ∈ seqZ 0 10) as Hin by (apply elem_of_seqZ; lia).
  assert (Forall (fun d => is_ascii_digit (digit_char d) = true /\ digit_value (digit_char d) = d /\
                           digit_char d <> "+"%char) (seqZ 0 10)) as Hall by (by repeat constructor).
  exact (Forall_elem Hall Hin).
Qed.

Lemma parse_digits_snoc l acc c :
  parse_digits acc (l ++ [c]) = parse_digits acc l ≫= fun a => parse_digits a [c].
Proof.
  revert acc. induction l as [|x l IH]; intros acc; [done|]. simpl.
  destruct (is_ascii_digit x); [|done]. destruct (_ <? _); [apply IH|done].
Qed.

Lemma parse_dec_digits fuel n :
  0 <= n < 2 ^ 64 -> n < 10 ^ Z.of_nat fuel -> (0 < fuel)%nat -> parse_digits 0 (dec_digits fuel n) = Some n.
Proof.
  revert n. induction fuel as [|fuel IH]; intros n Hn Hf Hpos; [lia|].
  cbn [dec_digits]. destruct (Z.ltb_spec n 10) as [Hlt|Hge].
  - destruct (digit_char_spec n ltac:(lia)) as (Hd & Hv & _). cbn [parse_digits]. rewrite Hd, Hv.
    by replace (0 * 10 + n <? 2 ^ 64) with true by lia; rewrite Z.mul_0_l, Z.add_0_l.
  - rewrite Nat2Z.inj_succ, Z.pow_succ_r in Hf by lia.
    assert (0 <= n / 10 < 2 ^ 64) by (split; [apply Z.div_pos|apply Z.div_lt_upper_bound]; lia).
    rewrite parse_digits_snoc, IH; [|lia|apply Z.div_lt_upper_bound; lia|].
    + pose proof (Z.mod_pos_bound n 10 ltac:(lia)) as Hm.
      destruct (digit_char_spec (n mod 10) Hm) as (Hd & Hv & _). cbn [mbind option_bind parse_digits].
      rewrite Hd, Hv. pose proof (Z.div_mod n 10 ltac:(lia)).
      replace (n / 10 * 10 + n mod 10) with n by lia. by replace (n <? 2 ^ 64) with true by lia.
    + destruct fuel; [simpl in Hf; lia|lia].
Qed.

Lemma dec_digits_head fuel n :
  (0 < fuel)%nat -> 0 <= n -> exists c l, dec_digits fuel n = c :: l /\ c <> "+"%char.
Proof.
  revert n. induction fuel as [|fuel IH]; intros n Hf Hn; [lia|]. cbn [dec_digits].
  destruct (Z.ltb_spec n 10) as [Hlt|Hge].
  - exists (digit_char n), []. split; [done|]. by destruct (digit_char_spec n ltac:(lia)) as (_ & _ & ?).
  - destruct fuel as [|fuel].
    + simpl. pose proof (Z.mod_pos_bound n 10 ltac:(lia)) as Hm.
      exists (digit_char (n mod 10)), []. split; [done|].
      by destruct (digit_char_spec (n mod 10) Hm) as (_ & _ & ?).
    + destruct (IH (n / 10)) as (c & l & -> & Hc); [lia|apply Z.div_pos; lia|]. eexists _, _. by split.
Qed.

(** Printing then parsing. *)
Lemma parse_u64_to_string n : fits 64 n -> parse_u64 (u64_to_string n) = Some n.
Proof.
  intros Hn. unfold parse_u64, u64_to_string, str_bytes.
  rewrite String.list_ascii_of_string_of_list_ascii.
  destruct (dec_digits_head 20 n ltac:(lia) ltac:(unfold fits in *; lia)) as (c & l & E & Hc).
  pose proof (parse_dec_digits 20 n Hn) as Hp. rewrite E in *.
  assert ((match c :: l with "+"%char :: l => l | _ => c :: l end) = c :: l) as ->.
  { destruct c as [[] [] [] [] [] [] [] []]; try done; by destruct Hc. }
  cbn [length Nat.eqb]. apply Hp; [|lia]. unfold fits in Hn.
  apply Z.lt_trans with (2 ^ 64); [lia|]. by vm_compute.
Qed.

Lemma parse_u64_fits s n : parse_u64 s = Some n -> fits 64 n.
Proof.
  unfold parse_u64. set (l := match str_bytes s with "+"%char :: l => l | _ => str_bytes s end).
  destruct (length l =? 0)%nat; [done|].
  assert (forall acc, fits 64 acc -> parse_digits acc l = Some n -> fits 64 n) as H;
    [|apply H; unfold fits; lia].
  induction l as [|c l IH]; intros acc Ha Hp; simpl in Hp; [by simplify_eq|].
  unfold is_ascii_digit, ascii_in, digit_value in *. split_if_in Hp; [|done]. split_if_in Hp; [|done].
  apply (IH _) in Hp; [done|]. unfold fits in *. bool_facts. lia.
Qed.
