(* ===== verification/BTree.v ===== *)
(** * [std::collections::BTreeMap<u64, V>]

    An ordered map is the list of its entries in key order. The operations are
    the ones the stores use; the lemmas are about windows of consecutive keys,
    which is the shape every position-indexed store keeps. *)

From stdpp Require Import sorting.
From S2P Require Import Prelude.

Section BTree.
Context {V : Type}.
Implicit Types (m : list (Z * V)) (k lo : Z) (v : V).

Definition btree : Type := list (Z * V).

Fixpoint bt_get k m : option V :=
  match m with
  | [] => None
  | (k', v) :: m' => if k' =? k then Some v else bt_get k m'
  end.

Fixpoint bt_insert k v m : list (Z * V) :=
  match m with
  | [] => [(k, v)]
  | (k', v') :: m' =>
      if k <? k' then (k, v) :: m
      else if k =? k' then (k, v) :: m'
      else (k', v') :: bt_insert k v m'
  end.

Definition bt_remove k m : list (Z * V) := filter (fun kv => kv.1 <> k) m.

(** [get_mut(k)] followed by an in-place update. *)
Definition bt_alter (f : V -> V) k m : list (Z * V) :=
  (fun kv => if kv.1 =? k then (kv.1, f kv.2) else kv) <$> m.

(** [keys().next()], [range(k..)], [range(..=k)], [values()]. *)
Definition first_key m : option Z := fst <$> head m.
Definition bt_from k m : list (Z * V) := filter (fun kv => k <= kv.1) m.
Definition bt_upto k m : list (Z * V) := filter (fun kv => kv.1 <= k) m.
Definition bt_values m : list V := snd <$> m.

(** ** Windows of consecutive keys *)

Fixpoint contig lo m : Prop :=
  match m with
  | [] => True
  | (k, _) :: m' => k = lo /\ contig (lo + 1) m'
  end.

Lemma contig_app lo m1 m2 :
  contig lo (m1 ++ m2) <-> contig lo m1 /\ contig (lo + Z.of_nat (length m1)) m2.
Proof.
  revert lo. induction m1 as [|[k v] m1 IH]; intros lo; simpl.
  - rewrite Z.add_0_r. tauto.
  - rewrite IH. replace (lo + 1 + Z.of_nat (length m1)) with (lo + Z.of_nat (S (length m1))) by lia. tauto.
Qed.

Lemma contig_keys lo m :
  contig lo m -> Forall (fun kv => lo <= kv.1 < lo + Z.of_nat (length m)) m.
Proof.
  revert lo. induction m as [|[k v] m IH]; intros lo; simpl; [by constructor|].
  intros [-> Hm]. constructor; simpl; [lia|].
  apply (Forall_weaken _ (IH _ Hm)). simpl. lia.
Qed.

Lemma contig_lookup lo m i kv :
  contig lo m -> m !! i = Some kv -> kv.1 = lo + Z.of_nat i.
Proof.
  revert lo i. induction m as [|[k v] m IH]; intros lo i; [done|].
  intros [-> Hm] Hi. destruct i as [|i]; simpl in Hi; [simplify_eq; simpl; lia|].
  rewrite (IH (lo + 1) i Hm Hi). lia.
Qed.

Lemma contig_drop lo m n :
  (n <= length m)%nat -> contig lo m -> contig (lo + Z.of_nat n) (drop n m).
Proof.
  intros Hn. rewrite <- (take_drop n m) at 1. rewrite contig_app, length_take.
  rewrite Nat.min_l by done. tauto.
Qed.

Lemma first_key_contig lo m :
  contig lo m -> m <> [] -> first_key m = Some lo.
Proof. destruct m as [|[k v] m]; [done|]. by intros [-> _] _. Qed.

Lemma bt_get_elem k m v : bt_get k m = Some v -> (k, v) ∈ m.
Proof.
  induction m as [|[k' v'] m IH]; simpl; [done|].
  destruct (Z.eqb_spec k' k); intros; simplify_eq; [by left|right; auto].
Qed.

Lemma bt_insert_last k v m :
  Forall (fun kv => kv.1 < k) m -> bt_insert k v m = m ++ [(k, v)].
Proof.
  induction 1 as [|[k' v'] m Hk _ IH]; simpl in *; [done|].
  destruct (Z.ltb_spec k k'); [lia|]. destruct (Z.eqb_spec k k'); [lia|]. by rewrite IH.
Qed.

Lemma bt_get_below k m : Forall (fun kv => kv.1 < k) m -> bt_get k m = None.
Proof.
  induction 1 as [|[k' v] m Hk _ IH]; simpl in *; [done|]. destruct (Z.eqb_spec k' k); [lia|done].
Qed.

Lemma filter_id {A} (P : A -> Prop) {HP : forall x, Decision (P x)} (l : list A) :
  Forall P l -> filter P l = l.
Proof. induction 1; [done|]. rewrite filter_cons_True by done. by f_equal. Qed.

Lemma bt_remove_head lo kv m :
  contig lo (kv :: m) -> bt_remove kv.1 (kv :: m) = m.
Proof.
  destruct kv as [k v]. intros [-> Hm]. unfold bt_remove. rewrite filter_cons_False by tauto.
  apply filter_id. apply (Forall_weaken _ (contig_keys _ _ Hm)). intros x Hx ?. simpl in *. lia.
Qed.

(** Removing the first keys one by one drops them. *)
Lemma bt_remove_prefix lo m n :
  contig lo m -> (n <= length m)%nat ->
  foldl (fun acc k => bt_remove k acc) m (fst <$> take n m) = drop n m.
Proof.
  revert lo n. induction m as [|kv m IH]; intros lo [|n] Hm Hn; simpl in *; [done|lia|done|].
  pose proof (bt_remove_head lo kv m Hm) as Hr. simpl in Hr. rewrite Hr.
  destruct kv as [k v]. apply (IH (lo + 1)); [apply Hm|lia].
Qed.

Lemma bt_upto_contig lo m k :
  contig lo m -> bt_upto k m = take (Z.to_nat (k + 1 - lo)) m.
Proof.
  revert lo. induction m as [|[k' v] m IH]; intros lo.
  - by destruct (Z.to_nat (k + 1 - lo)).
  - intros [-> Hm]. unfold bt_upto in *. destruct (decide (lo <= k)).
    + rewrite filter_cons_True by done. rewrite (IH (lo + 1) Hm).
      by replace (Z.to_nat (k + 1 - lo)) with (S (Z.to_nat (k + 1 - (lo + 1)))) by lia.
    + rewrite filter_cons_False by done. rewrite (IH (lo + 1) Hm).
      by replace (Z.to_nat (k + 1 - lo)) with 0%nat by lia;
         replace (Z.to_nat (k + 1 - (lo + 1))) with 0%nat by lia.
Qed.

Lemma bt_from_contig lo m k :
  contig lo m -> lo <= k -> bt_from k m = drop (Z.to_nat (k - lo)) m.
Proof.
  revert lo. induction m as [|[k' v] m IH]; intros lo.
  - by rewrite drop_nil.
  - intros [-> Hm] Hk. unfold bt_from in *. destruct (decide (lo = k)) as [->|Hne].
    + rewrite Z.sub_diag. apply filter_id.
      constructor; [simpl; lia|]. apply (Forall_weaken _ (contig_keys _ _ Hm)). simpl. lia.
    + rewrite filter_cons_False by (simpl; lia). rewrite (IH (lo + 1)) by (done || lia).
      by replace (Z.to_nat (k - lo)) with (S (Z.to_nat (k - (lo + 1)))) by lia.
Qed.

Lemma bt_alter_length f k m : length (bt_alter f k m) = length m.
Proof. apply length_fmap. Qed.

Lemma bt_alter_keys f k m : fst <$> bt_alter f k m = fst <$> m.
Proof.
  unfold bt_alter. rewrite <- list_fmap_compose. apply list_fmap_ext. intros i kv _. simpl.
  by destruct (kv.1 =? k).
Qed.

Lemma contig_keys_eq lo m1 m2 : fst <$> m1 = fst <$> m2 -> contig lo m1 -> contig lo m2.
Proof.
  revert lo m2. induction m1 as [|[k v] m1 IH]; intros lo [|[k2 v2] m2]; simpl; try done.
  intros [= -> Heq] [-> Hm]. split; [done|]. by apply (IH (lo + 1) m2).
Qed.

Lemma contig_alter lo f k m : contig lo m -> contig lo (bt_alter f k m).
Proof. apply contig_keys_eq. by rewrite bt_alter_keys. Qed.

Lemma Forall_bt_alter (P : Z * V -> Prop) f k m :
  Forall P m -> (forall v, P (k, v) -> P (k, f v)) -> Forall P (bt_alter f k m).
Proof.
  intros HP Hf. apply Forall_fmap. apply (Forall_weaken _ HP). intros [k' v] Hv. simpl.
  destruct (Z.eqb_spec k' k) as [->|]; [by apply Hf|done].
Qed.

End BTree.

Arguments btree V : clear implicits.

#[export] Hint Resolve contig_alter : rust.

(** ** [BTreeMap<K, V>] for other ordered keys

    Insertion keeps the entries in the order of [ltb], the [Ord] of the key. *)

Section OMap.
Context {K V : Type} `{EqDecision K} (ltb : K -> K -> bool).
Implicit Types (m : list (K * V)) (k : K) (v : V).

Fixpoint om_get k m : option V :=
  match m with
  | [] => None
  | (k', v) :: m' => if decide (k' = k) then Some v else om_get k m'
  end.

Fixpoint om_insert k v m : list (K * V) :=
  match m with
  | [] => [(k, v)]
  | (k', v') :: m' =>
      if decide (k = k') then (k, v) :: m'
      else if ltb k k' then (k, v) :: m
      else (k', v') :: om_insert k v m'
  end.

Lemma om_get_insert k v m : om_get k (om_insert k v m) = Some v.
Proof.
  induction m as [|[k' v'] m IH]; simpl; [by rewrite decide_True|].
  destruct (decide (k = k')) as [->|]; simpl; [by rewrite decide_True|].
  destruct (ltb k k'); simpl; [by rewrite decide_True|]. rewrite decide_False by congruence. exact IH.
Qed.

Lemma om_get_insert_ne k k2 v m : k2 <> k -> om_get k2 (om_insert k v m) = om_get k2 m.
Proof.
  intros Hne. induction m as [|[k' v'] m IH]; simpl.
  - rewrite decide_False by congruence. done.
  - destruct (decide (k = k')) as [<-|]; simpl.
    + rewrite !decide_False by congruence. done.
    + destruct (ltb k k'); simpl; [|by rewrite IH].
      rewrite (decide_False (P := k = k2)) by congruence. done.
Qed.

Lemma om_get_elem k v m : om_get k m = Some v -> (k, v) ∈ m.
Proof.
  induction m as [|[k' v'] m IH]; simpl; [done|].
  destruct (decide (k' = k)) as [->|]; intros; simplify_eq; [by left|right; auto].
Qed.

End OMap.

(** ** Sets *)

(** *** Sorted keys *)

Lemma bt_insert_keys {V} k (v : V) m x : x ∈ fst <$> bt_insert k v m <-> x = k \/ x ∈ fst <$> m.
Proof.
  induction m as [|[k' v'] m IH]; cbn; [rewrite list_elem_of_singleton, elem_of_nil; tauto|].
  destruct (Z.ltb_spec k k'); [cbn; rewrite elem_of_cons; done|]. destruct (Z.eqb_spec k k') as [->|]; cbn; rewrite !elem_of_cons; [tauto|].
  rewrite IH. tauto.
Qed.

Lemma bt_insert_sorted {V} k (v : V) m : StronglySorted Z.lt (fst <$> m) -> StronglySorted Z.lt (fst <$> bt_insert k v m).
Proof.
  induction m as [|[k' v'] m IH]; cbn; intros Hs; [by repeat constructor|]. pose proof Hs as [Hm Hk]%StronglySorted_inv.
  destruct (Z.ltb_spec k k').
  { cbn. constructor; [done|]. constructor; [done|]. apply (Forall_weaken _ Hk). lia. }
  destruct (Z.eqb_spec k k') as [->|]; [done|]. cbn. constructor; [by apply IH|]. apply list.Forall_forall. intros x Hx.
  apply bt_insert_keys in Hx as [-> | Hx]; [lia|]. rewrite list.Forall_forall in Hk. by apply Hk.
Qed.

Lemma sorted_NoDup (l : list Z) : StronglySorted Z.lt l -> NoDup l.
Proof.
  induction 1 as [|x l _ IH Hx]; constructor; [|done]. intros Hin. rewrite list.Forall_forall in Hx. specialize (Hx _ Hin). lia.
Qed.

