(* ===== verification/Manifest.v ===== *)
(** * The channel-point manifest

    [extensions/shm-bridge/src/manifest.rs] and the point addresses of
    [crates/aether-domain/src/point.rs]: the deterministic assignment of every
    channel point to a slot of the shared-memory segment. Channel and point
    identifiers are [u32] values ([Z]), slots are [nat]; [usize] has 64 bits.
    The layout fingerprint is the third-party [FxHasher] applied to the ordered
    counts, a parameter of the files that use it. *)

From S2P Require Import Prelude BTree.

(** ** Point kinds and addresses *)

Inductive PointKind := Telemetry | Status | Command | Action.
#[global] Instance PointKind_eq_dec : EqDecision PointKind.
Proof. solve_decision. Defined.

Definition is_writable (k : PointKind) : bool := match k with Command | Action => true | _ => false end.
Definition is_acquisition_owned (k : PointKind) : bool := match k with Telemetry | Status => true | _ => false end.

Definition CHANNEL_POINT_KINDS : list PointKind := [Telemetry; Status; Command; Action].

Record PhysicalPointAddress := mkPhysical { pa_channel_id : Z; pa_kind : PointKind; pa_point_id : Z }.
#[global] Instance PhysicalPointAddress_eq_dec : EqDecision PhysicalPointAddress.
Proof. solve_decision. Defined.

(** ** Layouts *)

(** [[u32; 4]] and [[usize; 4]] in kind order. *)
Record by_kind (A : Type) := mkByKind { bk_t : A; bk_s : A; bk_c : A; bk_a : A }.
Arguments mkByKind {A} _ _ _ _.
Arguments bk_t {A} _.
Arguments bk_s {A} _.
Arguments bk_c {A} _.
Arguments bk_a {A} _.

(** Indexing by [kind_index]. *)
Definition at_kind {A} (a : by_kind A) (k : PointKind) : A :=
  match k with Telemetry => bk_t a | Status => bk_s a | Command => bk_c a | Action => bk_a a end.

Definition kind_index (k : PointKind) : nat :=
  match k with Telemetry => 0 | Status => 1 | Command => 2 | Action => 3 end.

Record ChannelPointLayout := mkLayout {
  lay_base_slot : nat;
  lay_type_offsets : by_kind nat;
  lay_type_counts : by_kind Z
}.

Definition type_offset (l : ChannelPointLayout) (k : PointKind) : nat := at_kind (lay_type_offsets l) k.
Definition layout_point_count (l : ChannelPointLayout) (k : PointKind) : Z := at_kind (lay_type_counts l) k.

(** [ChannelPointLayout::slot]. *)
Definition layout_slot (l : ChannelPointLayout) (k : PointKind) (point_id : Z) : option nat :=
  if at_kind (lay_type_counts l) k <=? point_id then None
  else Some (lay_base_slot l + at_kind (lay_type_offsets l) k + Z.to_nat point_id)%nat.

(** [usize::saturating_add] and [(slot + 1) & !1]. *)
Definition saturating_add_usize (a : nat) (b : Z) : nat :=
  if Z.of_nat a + b <=? u64_max then (a + Z.to_nat b)%nat else Z.to_nat u64_max.
Definition align_to_cache_line (slot : nat) : nat :=
  Z.to_nat (Z.land (wrap 64 (Z.of_nat slot + 1)) (bit_not 64 1)).

(** One round of the loop over the kinds: the offset given to a kind and the
    next free slot. *)
Definition place_kind (base next : nat) (align : bool) (count : Z) : nat * nat :=
  let next := if align then align_to_cache_line next else next in
  ((next - base)%nat, saturating_add_usize next count).

(** The body of the loop over the channels. *)
Definition layout_channel (next_slot : nat) (counts : by_kind Z) : ChannelPointLayout * nat :=
  let base := align_to_cache_line next_slot in
  let has_action_slots := 0 <? Z.min u32_max (bk_c counts + bk_a counts) in
  let '(ot, n) := place_kind base base false (bk_t counts) in
  let '(os, n) := place_kind base n false (bk_s counts) in
  let '(oc, n) := place_kind base n has_action_slots (bk_c counts) in
  let '(oa, n) := place_kind base n false (bk_a counts) in
  (mkLayout base (mkByKind ot os oc oa) counts, n).

Fixpoint build_layouts (next_slot : nat) (counts : list (Z * by_kind Z))
  : list (Z * ChannelPointLayout) * nat :=
  match counts with
  | [] => ([], next_slot)
  | (channel_id, c) :: rest =>
      let '(l, n) := layout_channel next_slot c in
      let '(ls, n) := build_layouts n rest in
      ((channel_id, l) :: ls, n)
  end.

(** ** The reverse table *)

(** The points of a channel in loop order, with their slots. *)
Definition channel_points (channel_id : Z) (l : ChannelPointLayout) : list (nat * PhysicalPointAddress) :=
  CHANNEL_POINT_KINDS ≫= fun k =>
    seqZ 0 (layout_point_count l k) ≫= fun p =>
      match layout_slot l k p with
      | Some slot => [(slot, mkPhysical channel_id k p)]
      | None => []
      end.

Definition all_points (layouts : list (Z * ChannelPointLayout)) : list (nat * PhysicalPointAddress) :=
  layouts ≫= fun cl => channel_points cl.1 cl.2.

(** [physical_points[slot] = Some(address)], which panics out of range. *)
Fixpoint fill_points (table : list (option PhysicalPointAddress)) (points : list (nat * PhysicalPointAddress))
  : outcome unit (list (option PhysicalPointAddress)) :=
  match points with
  | [] => Ok table
  | (slot, address) :: points' =>
      if (slot <? length table)%nat then fill_points (<[slot := Some address]> table) points'
      else Panic
  end.

(** ** The manifest *)

Record ChannelPointManifest := mkManifest {
  mf_counts : list (Z * by_kind Z);
  mf_layouts : list (Z * ChannelPointLayout);
  mf_physical_points : list (option PhysicalPointAddress);
  mf_point_count : nat;
  mf_slot_count : nat
}.

Definition from_map (counts : list (Z * by_kind Z)) : outcome unit ChannelPointManifest :=
  let '(layouts, next_slot) := build_layouts 0 counts in
  let points := all_points layouts in
  let? table := fill_points (replicate next_slot None) points in
  Ok (mkManifest counts layouts table (length points) next_slot).

(** [collect::<BTreeMap<_, _>>()]: a later entry replaces an earlier one. *)
Definition from_entries (entries : list (Z * by_kind Z)) : outcome unit ChannelPointManifest :=
  from_map (foldl (fun m e => bt_insert e.1 e.2 m) [] entries).

Definition slot_for (m : ChannelPointManifest) (a : PhysicalPointAddress) : option nat :=
  match bt_get (pa_channel_id a) (mf_layouts m) with
  | Some l => layout_slot l (pa_kind a) (pa_point_id a)
  | None => None
  end.

Definition physical_point_at (m : ChannelPointManifest) (slot : nat) : option PhysicalPointAddress :=
  mjoin (mf_physical_points m !! slot).

(** [iter_physical_points]: ascending slots, padding skipped. *)
Definition iter_physical_points (m : ChannelPointManifest) : list (nat * PhysicalPointAddress) :=
  omap (fun sa => (fun a => (sa.1, a)) <$> sa.2) (imap (fun i a => (i, a)) (mf_physical_points m)).

Example manifest_sample :
  (let? m := from_entries [(7, mkByKind 3 0 1 0); (2, mkByKind 1 1 0 0)] in
   Ok (mf_slot_count m, slot_for m (mkPhysical 7 Command 0), physical_point_at m 2, mf_point_count m)) =
  Ok (7%nat, Some 6%nat, Some (mkPhysical 7 Telemetry 0), 6%nat).
Proof. reflexivity. Qed.

(** ** Shape of a layout *)

Definition counts_fit (c : by_kind Z) : Prop := forall k, fits 32 (at_kind c k).
Definition points_in (c : by_kind Z) : Z := bk_t c + bk_s c + bk_c c + bk_a c.

(** An upper bound of the slots a list of channels needs, padding included. *)
Definition slots_needed (counts : list (Z * by_kind Z)) : Z :=
  foldr (fun kc n => points_in kc.2 + 2 + n) 0 counts.

(** A count map the process can hold: distinct channels, [u32] counts and
    fewer slots than [usize] counts. *)
Definition counts_ok (counts : list (Z * by_kind Z)) : Prop :=
  NoDup (counts.*1) /\ Forall (fun kc => counts_fit kc.2) counts /\ slots_needed counts < u64_max.

Definition address_fits (a : PhysicalPointAddress) : Prop :=
  fits 32 (pa_channel_id a) /\ fits 32 (pa_point_id a).

Lemma land_not_one x : fits 64 x -> Z.land x (bit_not 64 1) = 2 * (x / 2).
Proof.
  intros Hx. replace (2 * (x / 2)) with (Z.shiftl (Z.shiftr x 1) 1)
    by (rewrite Z.shiftl_mul_pow2, Z.shiftr_div_pow2 by lia; change (2 ^ 1) with 2; lia).
  apply Z.bits_inj'. intros i Hi. rewrite Z.land_spec.
  destruct (Z.eqb_spec i 0) as [->|].
  - rewrite testbit_bit_not, Z.shiftl_spec_low by lia. apply andb_false_r.
  - rewrite Z.shiftl_spec, Z.shiftr_spec by lia. replace (i - 1 + 1) with i by lia.
    destruct (Z.ltb_spec i 64).
    + rewrite testbit_bit_not by lia. change 1 with (2 ^ 0). rewrite Z.pow2_bits_false by lia. apply andb_true_r.
    + by rewrite (fits_testbit 64 x) by (lia || done).
Qed.

Lemma align_spec n : Z.of_nat n < u64_max -> align_to_cache_line n = (n + n mod 2)%nat.
Proof.
  intros Hn. unfold align_to_cache_line, u64_max in *.
  assert (fits 64 (Z.of_nat n + 1)) by (unfold fits; lia).
  rewrite wrap_small, land_not_one by done. lia.
Qed.

(** [l] occupies [lo, hi): telemetry and status from an even base, then
    commands and actions, from an even slot [mid] if there are any. *)
Definition occupies (lo hi : nat) (c : by_kind Z) (l : ChannelPointLayout) : Prop :=
  exists mid, lay_type_counts l = c /\ counts_fit c /\
    (lo <= lay_base_slot l)%nat /\ (lay_base_slot l mod 2 = 0)%nat /\
    lay_type_offsets l = mkByKind 0%nat (Z.to_nat (bk_t c)) (mid - lay_base_slot l)%nat
                           (mid - lay_base_slot l + Z.to_nat (bk_c c))%nat /\
    (lay_base_slot l + Z.to_nat (bk_t c) + Z.to_nat (bk_s c) <= mid)%nat /\
    (0 < bk_c c + bk_a c -> (mid mod 2 = 0)%nat) /\
    hi = (mid + Z.to_nat (bk_c c) + Z.to_nat (bk_a c))%nat.

Lemma saturating_small a b : 0 <= b -> Z.of_nat a + b <= u64_max -> saturating_add_usize a b = (a + Z.to_nat b)%nat.
Proof. intros Hb H. unfold saturating_add_usize. split_if; [done|lia]. Qed.

Lemma layout_channel_occupies next c :
  counts_fit c -> Z.of_nat next + points_in c + 2 < u64_max ->
  occupies next (layout_channel next c).2 c (layout_channel next c).1 /\
  Z.of_nat (layout_channel next c).2 <= Z.of_nat next + points_in c + 2.
Proof.
  intros Hc Hn. unfold points_in in Hn.
  pose proof (Hc Telemetry) as Ht. pose proof (Hc Status) as Hs. pose proof (Hc Command) as Hco. pose proof (Hc Action) as Ha.
  unfold fits, at_kind in *.
  unfold layout_channel, place_kind, occupies, points_in. cbn [fst snd lay_base_slot lay_type_offsets lay_type_counts].
  rewrite (align_spec next) by lia.
  set (base := (next + next mod 2)%nat). assert (base <= next + 1 /\ base mod 2 = 0)%nat as [Hb Hbe] by (unfold base; lia).
  rewrite (saturating_small base) by lia. rewrite (saturating_small (base + Z.to_nat (bk_t c)) (bk_s c)) by lia.
  set (m := (base + Z.to_nat (bk_t c) + Z.to_nat (bk_s c))%nat).
  assert (0 <? Z.min u32_max (bk_c c + bk_a c) = (0 <? bk_c c + bk_a c)) as -> by (unfold u32_max; lia).
  set (mid := if 0 <? bk_c c + bk_a c then align_to_cache_line m else m).
  assert ((m <= mid <= m + 1)%nat /\ (0 < bk_c c + bk_a c -> (mid mod 2 = 0)%nat)) as [Hm Hme].
  { unfold mid. rewrite align_spec by lia. split_if; lia. }
  rewrite (saturating_small mid) by lia. rewrite (saturating_small (mid + Z.to_nat (bk_c c))) by lia.
  split; [|lia]. exists mid. assert (base <= m)%nat by (unfold m; lia).
  split_and!; try done; try lia. f_equal; lia.
Qed.

(** Consecutive layouts of a list of channels. *)
Fixpoint chained (lo : nat) (counts : list (Z * by_kind Z)) (ls : list (Z * ChannelPointLayout)) (hi : nat) : Prop :=
  match counts, ls with
  | [], [] => hi = lo
  | (id, c) :: counts', (id', l) :: ls' =>
      id' = id /\ exists mid, occupies lo mid c l /\ chained mid counts' ls' hi
  | _, _ => False
  end.

Lemma counts_fit_points c : counts_fit c -> 0 <= points_in c.
Proof.
  intros Hc. pose proof (Hc Telemetry). pose proof (Hc Status). pose proof (Hc Command). pose proof (Hc Action).
  unfold fits, at_kind, points_in in *. lia.
Qed.

Lemma slots_needed_nonneg counts : Forall (fun kc => counts_fit kc.2) counts -> 0 <= slots_needed counts.
Proof. induction 1 as [|? ? ?%counts_fit_points]; cbn [slots_needed foldr]; [lia|]. unfold slots_needed in *. lia. Qed.

Lemma build_layouts_chained next counts :
  Forall (fun kc => counts_fit kc.2) counts -> Z.of_nat next + slots_needed counts < u64_max ->
  chained next counts (build_layouts next counts).1 (build_layouts next counts).2.
Proof.
  intros Hc. revert next. induction Hc as [|[id c] counts Hc Hcs IH]; intros next Hn; [done|].
  pose proof (slots_needed_nonneg _ Hcs).
  cbn [build_layouts slots_needed foldr fst snd] in *. fold (slots_needed counts) in Hn.
  destruct (layout_channel_occupies next c) as [Ho Hle]; [done|lia|].
  destruct (layout_channel next c) as [l n] eqn:El. cbn [fst snd] in *.
  specialize (IH n ltac:(lia)). destruct (build_layouts n counts) as [ls hi]. cbn [fst snd] in *.
  simpl. split; [done|]. eauto.
Qed.

(** *** Slots of one layout *)

(** Splits [occupies] into arithmetic facts. *)
Ltac open_layout H :=
  let mid := fresh "mid" in
  destruct H as (mid & ? & ? & ? & ? & ? & ? & ? & ?).

Lemma occupies_counts lo hi c l k : occupies lo hi c l -> fits 32 (layout_point_count l k).
Proof. intros H. open_layout H. subst. unfold layout_point_count. auto. Qed.

Lemma layout_slot_range lo hi c l k p s :
  occupies lo hi c l -> 0 <= p -> layout_slot l k p = Some s -> (lay_base_slot l <= s < hi)%nat.
Proof.
  intros H Hp. open_layout H. unfold layout_slot. split_if; [done|]. intros [= <-]. subst.
  match goal with Ho : lay_type_offsets l = _ |- _ => rewrite Ho end.
  pose proof (H0 Telemetry). pose proof (H0 Status). pose proof (H0 Command). pose proof (H0 Action).
  unfold fits, at_kind in *. destruct k; cbn [bk_t bk_s bk_c bk_a]; lia.
Qed.

(** Two points of one channel share a slot only if they are the same, and a
    cache line only if both or neither belong to acquisition. *)
Lemma layout_slot_separate lo hi c l k p k' p' s s' :
  occupies lo hi c l -> 0 <= p -> 0 <= p' ->
  layout_slot l k p = Some s -> layout_slot l k' p' = Some s' ->
  (s = s' -> k = k' /\ p = p') /\
  ((s / 2 = s' / 2)%nat -> is_acquisition_owned k = is_acquisition_owned k').
Proof.
  intros H Hp Hp'. open_layout H. unfold layout_slot.
  destruct (at_kind (lay_type_counts l) k <=? p) eqn:E1; [done|].
  destruct (at_kind (lay_type_counts l) k' <=? p') eqn:E2; [done|]. intros [= <-] [= <-]. subst.
  match goal with Ho : lay_type_offsets l = _ |- _ => rewrite Ho end.
  pose proof (H0 Telemetry). pose proof (H0 Status). pose proof (H0 Command). pose proof (H0 Action).
  unfold fits, at_kind in *. destruct k, k'; cbn [bk_t bk_s bk_c bk_a is_acquisition_owned] in *;
    (split; [intros; split; [try done; lia|lia]|intros; try done; exfalso; lia]).
Qed.

(** *** Slots of the whole manifest *)

Lemma occupies_le lo hi c l : occupies lo hi c l -> (lo <= lay_base_slot l)%nat /\ (lo <= hi)%nat.
Proof. intros H. open_layout H. lia. Qed.

Lemma chained_le lo counts ls hi : chained lo counts ls hi -> (lo <= hi)%nat.
Proof.
  revert lo ls. induction counts as [|[id c] counts IH]; intros lo [|[id' l] ls]; simpl; try done; [lia|].
  intros (_ & mid & Ho & Hc). apply IH in Hc. apply occupies_le in Ho. lia.
Qed.

Lemma chained_get lo counts ls hi id l :
  chained lo counts ls hi -> bt_get id ls = Some l ->
  exists lo' hi' c, (lo <= lo')%nat /\ (hi' <= hi)%nat /\ occupies lo' hi' c l.
Proof.
  revert lo ls. induction counts as [|[id0 c] counts IH]; intros lo [|[id1 l1] ls]; simpl; try done.
  intros (_ & mid & Ho & Hc) Hg. destruct (id1 =? id).
  - simplify_eq. exists lo, mid, c. pose proof (chained_le _ _ _ _ Hc). eauto.
  - destruct (IH _ _ Hc Hg) as (lo' & hi' & c' & ? & ? & ?). pose proof (occupies_le _ _ _ _ Ho).
    exists lo', hi', c'. split_and!; [lia|lia|done].
Qed.

Lemma occupies_line lo hi c l s s' : occupies lo hi c l -> (lay_base_slot l <= s)%nat -> (s' < lo)%nat -> (s / 2 <> s' / 2)%nat.
Proof. intros H. open_layout H. lia. Qed.

Lemma chained_separate lo counts ls hi id id' l l' k p k' p' s s' :
  chained lo counts ls hi -> bt_get id ls = Some l -> bt_get id' ls = Some l' -> id <> id' ->
  0 <= p -> 0 <= p' -> layout_slot l k p = Some s -> layout_slot l' k' p' = Some s' ->
  (s / 2 <> s' / 2)%nat.
Proof.
  intros Hc Hg Hg' Hne Hp Hp' Hs Hs'. revert lo ls Hc Hg Hg'.
  induction counts as [|[id0 c] counts IH]; intros lo [|[id1 l1] ls]; simpl; try done.
  intros (_ & mid & Ho & Hc) Hg Hg'.
  destruct (Z.eqb_spec id1 id) as [->|], (Z.eqb_spec id id') as [->|]; simplify_eq; try done.
  - destruct (Z.eqb_spec id id'); [done|]. destruct (chained_get _ _ _ _ _ _ Hc Hg') as (lo' & hi' & c' & ? & ? & Ho').
    pose proof (layout_slot_range _ _ _ _ _ _ _ Ho Hp Hs). pose proof (layout_slot_range _ _ _ _ _ _ _ Ho' Hp' Hs').
    symmetry. apply (occupies_line _ _ _ _ _ _ Ho'); lia.
  - destruct (Z.eqb_spec id1 id'); simplify_eq; [|by eapply IH].
    destruct (chained_get _ _ _ _ _ _ Hc Hg) as (lo' & hi' & c' & ? & ? & Ho').
    pose proof (layout_slot_range _ _ _ _ _ _ _ Ho Hp' Hs'). pose proof (layout_slot_range _ _ _ _ _ _ _ Ho' Hp Hs).
    apply (occupies_line _ _ _ _ _ _ Ho'); lia.
Qed.

(** What [from_map] establishes. *)
Definition manifest_ok (m : ChannelPointManifest) : Prop :=
  counts_ok (mf_counts m) /\ chained 0 (mf_counts m) (mf_layouts m) (mf_slot_count m) /\
  mf_layouts m = (build_layouts 0 (mf_counts m)).1.

Lemma from_map_layouts counts m :
  counts_ok counts -> from_map counts = Ok m -> manifest_ok m /\ mf_counts m = counts.
Proof.
  intros Hok. unfold from_map. pose proof Hok as (_ & Hf & Hn).
  pose proof (build_layouts_chained 0 counts Hf ltac:(lia)) as Hc.
  destruct (build_layouts 0 counts) as [ls hi] eqn:E. intros (t & _ & Hm)%obind_ok. simplify_eq.
  unfold manifest_ok. simpl. by rewrite E.
Qed.

Lemma slot_for_get m a s :
  slot_for m a = Some s <-> exists l, bt_get (pa_channel_id a) (mf_layouts m) = Some l /\
    layout_slot l (pa_kind a) (pa_point_id a) = Some s.
Proof. unfold slot_for. destruct (bt_get _ _); naive_solver. Qed.

Lemma manifest_slot_range m a s :
  manifest_ok m -> 0 <= pa_point_id a -> slot_for m a = Some s -> (s < mf_slot_count m)%nat.
Proof.
  intros (_ & Hc & _) Hp (l & Hg & Hs)%slot_for_get.
  destruct (chained_get _ _ _ _ _ _ Hc Hg) as (lo & hi & c & ? & ? & Ho).
  pose proof (layout_slot_range _ _ _ _ _ _ _ Ho Hp Hs). lia.
Qed.

Lemma manifest_slot_separate m a b s s' :
  manifest_ok m -> 0 <= pa_point_id a -> 0 <= pa_point_id b ->
  slot_for m a = Some s -> slot_for m b = Some s' ->
  (s = s' -> a = b) /\
  ((s / 2 = s' / 2)%nat -> pa_channel_id a = pa_channel_id b /\
     is_acquisition_owned (pa_kind a) = is_acquisition_owned (pa_kind b)).
Proof.
  intros (_ & Hc & _) Ha Hb (l & Hg & Hs)%slot_for_get (l' & Hg' & Hs')%slot_for_get.
  destruct a as [ca ka pa], b as [cb kb pb]. simpl in *.
  destruct (decide (ca = cb)) as [->|Hne].
  - simplify_eq. destruct (chained_get _ _ _ _ _ _ Hc Hg) as (lo & hi & c & _ & _ & Ho).
    destruct (layout_slot_separate _ _ _ _ _ _ _ _ _ _ Ho Ha Hb Hs Hs') as [H1 H2].
    split; [intros ->; by destruct (H1 eq_refl) as [-> ->]|auto].
  - pose proof (chained_separate _ _ _ _ _ _ _ _ _ _ _ _ _ _ Hc Hg Hg' Hne Ha Hb Hs Hs').
    split; [intros ->|intros]; done.
Qed.

(** *** The reverse table *)

Lemma fill_points_spec points table :
  Forall (fun sa => (sa.1 < length table)%nat) points -> NoDup (points.*1) ->
  exists table', fill_points table points = Ok table' /\ length table' = length table /\
    (forall s a, (s, a) ∈ points -> table' !! s = Some (Some a)) /\
    (forall s, s ∉ points.*1 -> table' !! s = table !! s).
Proof.
  revert table. induction points as [|[s a] points IH]; intros table Hl Hn; [exists table; set_solver|].
  cbn [fill_points]. apply Forall_cons_1 in Hl as [Hs Hl]. rewrite fmap_cons in Hn.
  apply list.NoDup_cons in Hn as [Hni Hn]. cbn [fst] in *.
  replace (s <? length table)%nat with true by (symmetry; apply Nat.ltb_lt; done).
  destruct (IH (<[s := Some a]> table)) as (t & Ht & Hlen & H1 & H2);
    [by rewrite length_insert|done|].
  rewrite length_insert in Hlen. exists t. split_and!; [done|done| |].
  - intros s' a' [[= -> ->]|Hin]%elem_of_cons; [|by apply H1].
    rewrite H2 by done. by apply list_lookup_insert_eq.
  - intros s' Hs'. rewrite fmap_cons in Hs'. apply not_elem_of_cons in Hs' as [Hne Hs'].
    rewrite H2 by done. by apply list_lookup_insert_ne.
Qed.

Lemma elem_of_channel_points id l s a lo hi c :
  occupies lo hi c l ->
  (s, a) ∈ channel_points id l <->
  pa_channel_id a = id /\ 0 <= pa_point_id a /\ layout_slot l (pa_kind a) (pa_point_id a) = Some s.
Proof.
  intros Ho. unfold channel_points. rewrite list_elem_of_bind. split.
  - intros (k & Hin & _). apply list_elem_of_bind in Hin as (p & Hin & Hp%elem_of_seqZ).
    destruct (layout_slot l k p) eqn:E; [|by apply not_elem_of_nil in Hin].
    apply list_elem_of_singleton in Hin. simplify_eq. simpl. split_and!; [done|lia|done].
  - destruct a as [ca k p]. simpl. intros (-> & Hp & Hs). exists k. split; [|destruct k; set_solver].
    apply list_elem_of_bind. exists p. rewrite Hs. split; [set_solver|]. apply elem_of_seqZ.
    unfold layout_slot, layout_point_count in *. split_if_in Hs; [done|]. lia.
Qed.

Lemma bt_get_NoDup {V} id (v : V) ls : NoDup (ls.*1) -> bt_get id ls = Some v <-> (id, v) ∈ ls.
Proof.
  intros Hn. split; [apply bt_get_elem|]. induction ls as [|[k w] ls IH]; [set_solver|].
  rewrite fmap_cons in Hn. apply list.NoDup_cons in Hn as [Hni Hn]. cbn [fst bt_get] in *.
  intros [[= -> ->]|Hin]%elem_of_cons; [by rewrite Z.eqb_refl|].
  destruct (Z.eqb_spec k id) as [->|]; [|auto].
  exfalso. apply Hni, list_elem_of_fmap. by exists (id, v).
Qed.

Lemma chained_keys lo counts ls hi : chained lo counts ls hi -> ls.*1 = counts.*1.
Proof.
  revert lo ls. induction counts as [|[id c] counts IH]; intros lo [|[id' l] ls]; simpl; try done.
  intros (-> & mid & _ & Hc). f_equal. by eapply IH.
Qed.

Lemma chained_elem lo counts ls hi id l :
  chained lo counts ls hi -> (id, l) ∈ ls -> exists lo' hi' c, occupies lo' hi' c l.
Proof.
  revert lo ls. induction counts as [|[id0 c] counts IH]; intros lo [|[id1 l1] ls]; simpl; try done; [set_solver|].
  intros (_ & mid & Ho & Hc) [[= -> ->]|Hin]%elem_of_cons; eauto.
Qed.

Lemma elem_of_all_points counts ls hi s a :
  chained 0 counts ls hi -> NoDup (counts.*1) ->
  (s, a) ∈ all_points ls <->
  0 <= pa_point_id a /\ exists l, bt_get (pa_channel_id a) ls = Some l /\ layout_slot l (pa_kind a) (pa_point_id a) = Some s.
Proof.
  intros Hc Hn. rewrite <- (chained_keys _ _ _ _ Hc) in Hn. unfold all_points. rewrite list_elem_of_bind. split.
  - intros ([id l] & Hin & Hl). destruct (chained_elem _ _ _ _ _ _ Hc Hl) as (? & ? & ? & Ho).
    apply (elem_of_channel_points _ _ _ _ _ _ _ Ho) in Hin as (-> & ? & ?). split; [done|].
    exists l. split; [by apply bt_get_NoDup|done].
  - intros (Hp & l & Hg & Hs). apply bt_get_NoDup in Hg; [|done].
    destruct (chained_elem _ _ _ _ _ _ Hc Hg) as (? & ? & ? & Ho).
    exists (pa_channel_id a, l). split; [|done]. by apply (elem_of_channel_points _ _ _ _ _ _ _ Ho).
Qed.

Lemma channel_points_NoDup id l : NoDup (channel_points id l).
Proof.
  unfold channel_points. apply NoDup_bind; [| |by_decide].
  - intros k k' [s a] _ _ (p & Hp & _)%list_elem_of_bind (p' & Hp' & _)%list_elem_of_bind.
    destruct (layout_slot l k p), (layout_slot l k' p'); set_solver.
  - intros k _. apply NoDup_bind; [| |apply NoDup_seqZ].
    + intros p p' y _ _ Hp Hp'. destruct (layout_slot l k p), (layout_slot l k p'); set_solver.
    + intros p _. destruct (layout_slot l k p); [apply NoDup_singleton|constructor].
Qed.

Lemma all_points_NoDup counts ls hi :
  chained 0 counts ls hi -> NoDup (counts.*1) -> NoDup (all_points ls).
Proof.
  intros Hc Hn. rewrite <- (chained_keys _ _ _ _ Hc) in Hn. unfold all_points.
  apply NoDup_bind; [|intros; apply channel_points_NoDup|by eapply NoDup_fmap_1].
  intros [id l] [id' l'] [s a] Hl Hl' Ha Ha'. cbn [fst snd] in Ha, Ha'.
  destruct (chained_elem _ _ _ _ _ _ Hc Hl) as (? & ? & ? & Ho), (chained_elem _ _ _ _ _ _ Hc Hl') as (? & ? & ? & Ho').
  apply (elem_of_channel_points _ _ _ _ _ _ _ Ho) in Ha as (<- & _ & _).
  apply (elem_of_channel_points _ _ _ _ _ _ _ Ho') in Ha' as (<- & _ & _).
  apply bt_get_NoDup in Hl, Hl'; [|done..]. by simplify_eq.
Qed.

(** [from_map] builds its table on every count map the process can hold. *)
Lemma from_map_total counts :
  counts_ok counts ->
  exists m, from_map counts = Ok m /\ manifest_ok m /\ mf_counts m = counts /\
    length (mf_physical_points m) = mf_slot_count m /\ mf_point_count m = length (all_points (mf_layouts m)) /\
    (forall s a, (s, a) ∈ all_points (mf_layouts m) -> mf_physical_points m !! s = Some (Some a)) /\
    (forall s, s ∉ (all_points (mf_layouts m)).*1 -> mjoin (mf_physical_points m !! s) = None).
Proof.
  intros Hok. pose proof Hok as (Hn & Hf & Hb).
  pose proof (build_layouts_chained 0 counts Hf ltac:(lia)) as Hc.
  unfold from_map. destruct (build_layouts 0 counts) as [ls hi] eqn:E. cbn [fst snd] in Hc.
  set (m0 := mkManifest counts ls [] 0 hi).
  assert (manifest_ok m0) as Hm0 by (unfold manifest_ok; simpl; by rewrite E).
  pose proof (fun s a => elem_of_all_points counts ls hi s a Hc Hn) as Hel.
  destruct (fill_points_spec (all_points ls) (replicate hi None)) as (t & Ht & Hl & H1 & H2).
  - rewrite length_replicate. apply list.Forall_forall. intros [s a] (Hp & Hs)%Hel. cbn [fst].
    by apply (manifest_slot_range m0 a s Hm0 Hp), slot_for_get.
  - apply NoDup_fmap_2_strong; [|by eapply all_points_NoDup].
    intros [s a] [s' b] (Hp & Hs)%Hel (Hp' & Hs')%Hel Heq. cbn [fst] in Heq. subst s'. f_equal.
    by apply (manifest_slot_separate m0 a b s s Hm0 Hp Hp'); [apply slot_for_get..|].
  - rewrite Ht. cbn [obind]. eexists. split; [done|]. rewrite length_replicate in Hl.
    unfold manifest_ok. simpl. rewrite E. split_and!; try done.
    intros s Hs. rewrite H2 by done. destruct (replicate hi None !! s) as [x|] eqn:Ex; [|done].
    by apply lookup_replicate in Ex as [-> _].
Qed.

(** *** Counting points *)

Lemma bind_length_const {A B} (f : A -> list B) (l : list A) :
  (forall x, x ∈ l -> length (f x) = 1%nat) -> length (l ≫= f) = length l.
Proof.
  induction l as [|x l IH]; intros H; [done|]. csimpl. rewrite length_app, H, IH; [done| |left].
  intros y Hy. apply H. by right.
Qed.

Lemma channel_points_length id l lo hi c :
  occupies lo hi c l -> Z.of_nat (length (channel_points id l)) = points_in c.
Proof.
  intros Ho. pose proof (fun k => occupies_counts _ _ _ _ k Ho) as Hf.
  assert (forall k, Z.of_nat (length (seqZ 0 (layout_point_count l k) ≫= fun p =>
      match layout_slot l k p with Some slot => [(slot, mkPhysical id k p)] | None => [] end)) =
      layout_point_count l k) as Hk.
  { intros k. rewrite bind_length_const.
    - rewrite length_seqZ. specialize (Hf k). unfold fits in Hf. lia.
    - intros p Hp%elem_of_seqZ. unfold layout_slot, layout_point_count in *. split_if; [lia|done]. }
  unfold channel_points, CHANNEL_POINT_KINDS. csimpl. rewrite !length_app, !Nat2Z.inj_add, !Hk.
  destruct Ho as (mid & <- & _). unfold points_in, layout_point_count, at_kind. simpl. lia.
Qed.

Lemma all_points_length lo counts ls hi :
  chained lo counts ls hi ->
  Z.of_nat (length (all_points ls)) = foldr (fun kc n => points_in kc.2 + n) 0 counts.
Proof.
  revert lo ls. induction counts as [|[id c] counts IH]; intros lo [|[id' l] ls]; simpl; try done.
  intros (-> & mid & Ho & Hc). specialize (IH _ _ Hc). unfold all_points in *. csimpl.
  rewrite length_app, Nat2Z.inj_add, IH, (channel_points_length _ _ _ _ _ Ho). done.
Qed.

(** ** Claims *)

(** C32. Every point of a compiled manifest has its own live slot, and no cache
    line (a pair of slots) is shared by two channels, nor by acquisition-owned
    and command-owned points: the acquisition writer and the command writer
    never touch the same line. *)
Theorem manifest_separates counts m a b s s' :
  counts_ok counts -> from_map counts = Ok m -> address_fits a -> address_fits b ->
  slot_for m a = Some s -> slot_for m b = Some s' ->
  (s < mf_slot_count m)%nat /\ (s = s' -> a = b) /\
  ((s / 2 = s' / 2)%nat -> pa_channel_id a = pa_channel_id b /\
     is_acquisition_owned (pa_kind a) = is_acquisition_owned (pa_kind b)).
Proof.
  intros Hok Hm [_ Ha] [_ Hb] Hs Hs'. destruct (from_map_layouts _ _ Hok Hm) as [Hmo _].
  assert (0 <= pa_point_id a /\ 0 <= pa_point_id b) as [Ha0 Hb0] by (unfold fits in *; lia).
  split; [by apply (manifest_slot_range m a)|].
  by apply (manifest_slot_separate m).
Qed.

(** C33. Compiling a count map never panics, and the reverse table is the
    inverse of the forward resolution: a slot shows exactly the point resolved
    to it and padding shows none; the point count is the sum of the counts. *)
Theorem manifest_table_inverse counts :
  counts_ok counts ->
  exists m, from_map counts = Ok m /\ mf_counts m = counts /\
    (forall s a, physical_point_at m s = Some a <-> 0 <= pa_point_id a /\ slot_for m a = Some s) /\
    Z.of_nat (mf_point_count m) = foldr (fun kc n => points_in kc.2 + n) 0 counts.
Proof.
  intros Hok. destruct (from_map_total counts Hok) as (m & Hm & (Hmok & Hc & _) & Hcm & _ & Hpc & H1 & H2).
  exists m. rewrite <- Hcm in *. split_and!; [done|done| |].
  - intros s a. rewrite slot_for_get, <- (elem_of_all_points (mf_counts m) (mf_layouts m) (mf_slot_count m)) by (done || apply Hmok).
    unfold physical_point_at. split; [|intros Hin; by rewrite (H1 _ _ Hin)].
    intros Hp. destruct (decide (s ∈ (all_points (mf_layouts m)).*1)) as [Hin|Hni]; [|by rewrite H2 in Hp].
    apply list_elem_of_fmap in Hin as ([s' b] & -> & Hin). cbn [fst] in *.
    rewrite (H1 _ _ Hin) in Hp. simpl in Hp. by simplify_eq.
  - rewrite Hpc. by apply (all_points_length _ _ _ _ Hc).
Qed.

Definition sample_counts : list (Z * by_kind Z) := [(2, mkByKind 1 1 0 0); (7, mkByKind 3 0 1 0)].

#[export] Instance address_fits_dec a : Decision (address_fits a).
Proof. unfold address_fits. apply _. Defined.

Lemma sample_counts_ok : counts_ok sample_counts.
Proof.
  split_and!; [by_decide| |by vm_compute].
  repeat (apply List.Forall_cons || apply List.Forall_nil); intros []; by_decide.
Qed.

Lemma manifest_separates_witness :
  exists m, from_map sample_counts = Ok m /\ (4 < mf_slot_count m)%nat /\
    slot_for m (mkPhysical 7 Telemetry 2) = Some 4%nat /\ slot_for m (mkPhysical 7 Command 0) = Some 6%nat /\
    ((4 / 2 = 6 / 2)%nat -> is_acquisition_owned Telemetry = is_acquisition_owned Command).
Proof.
  eexists. split; [vm_compute; reflexivity|].
  destruct (manifest_separates sample_counts _ (mkPhysical 7 Telemetry 2) (mkPhysical 7 Command 0) 4 6
    sample_counts_ok eq_refl ltac:(by_decide) ltac:(by_decide) eq_refl eq_refl) as (H1 & _ & H2).
  split_and!; [exact H1|reflexivity|reflexivity|intros H; apply (H2 H)].
Defined.

Lemma manifest_table_inverse_witness :
  exists m, from_map sample_counts = Ok m /\ Z.of_nat (mf_point_count m) = 6.
Proof. destruct (manifest_table_inverse sample_counts sample_counts_ok) as (m & H1 & _ & _ & H2). exists m. exact (conj H1 H2). Defined.
