(* ===== verification/Publish.v ===== *)
(** * Publishing a shared-memory generation

    [extensions/shm-bridge/src/runtime.rs] with the parts of
    [crates/aether-dataplane/src/core/{config,authority,writer}.rs] it drives:
    a fresh segment is built under a staging name, the old canonical generation
    is invalidated in place, and the staging file is renamed over the canonical
    path.

    The file system is a map from paths to inodes and from inodes to contents;
    an unlinked inode keeps its content, as a mapped file does. Every change a
    process outside the lock could see, or a crash could leave behind, is
    appended to [fs_log], and every system call that can fail consumes one bit
    of [fs_faults]. The exclusive authority lease keeps other publications and
    transactions out for the whole call, which is why the steps of one call run
    without interleaved writers; readers are not excluded, they see the log. *)

From S2P Require Import Prelude Slot Bitmap Segment Snapshot Text BTree Manifest.

(** ** Port errors *)

Inductive PortErrorKind :=
| PUnavailable | PTimeout | PNotFound | PRejected | PInvalidData | PConflict | PPermanent.
#[global] Instance PortErrorKind_eq_dec : EqDecision PortErrorKind.
Proof. solve_decision. Defined.

Definition map_dataplane_error (e : DataplaneError) : PortErrorKind :=
  match e with EIo => PUnavailable | EInvalidLayout | EInvalidPath => PConflict end.

(** ** Paths

    A path is a string whose last component is a file name. *)

Fixpoint rsplit_once (c : ascii) (l : list ascii) : option (list ascii * list ascii) :=
  match l with
  | [] => None
  | x :: l' =>
      match rsplit_once c l' with
      | Some (a, b) => Some (x :: a, b)
      | None => if Ascii.eqb x c then Some ([], l') else None
      end
  end.

(** The directory with its slash ([parent] and [join]) and [file_name]. *)
Definition split_dir (p : string) : list ascii * list ascii :=
  match rsplit_once "/" (str_bytes p) with
  | Some (d, n) => (d ++ ["/"%char], n)
  | None => ([], str_bytes p)
  end.

(** The stem and the extension with its dot; a leading dot starts no extension. *)
Definition stem_suffix (name : list ascii) : list ascii * list ascii :=
  match rsplit_once "." name with
  | Some ([], _) | None => (name, [])
  | Some (stem, ext) => (stem, "."%char :: ext)
  end.

Definition generation_file_path (base : string) (generation : Z) : string :=
  let '(dir, name) := split_dir base in
  let '(stem, suffix) := stem_suffix name in
  String.string_of_list_ascii
    (dir ++ stem ++ ["-"%char] ++ str_bytes (u64_to_string generation) ++ suffix).

Example generation_file_path_samples :
  (generation_file_path "/dev/shm/aether-rtdb.shm" 42, generation_file_path "/tmp/aether" 7,
   generation_file_path "/tmp/aether.shm.bak" 3, generation_file_path "aether.shm" 1,
   generation_file_path "/tmp/.aether" 5) =
  ("/dev/shm/aether-rtdb-42.shm", "/tmp/aether-7", "/tmp/aether.shm-3.bak", "aether-1.shm", "/tmp/.aether-5")%string.
Proof. reflexivity. Qed.

(** ** The file system *)

Inductive Inode := ISegment (m : Mapping) | IShort (len : nat).

Definition View : Type := gmap string nat * gmap nat Inode.

Record Fs := mkFs {
  fs_names : gmap string nat;
  fs_inodes : gmap nat Inode;
  fs_next : nat;
  fs_faults : list bool;
  fs_log : list View
}.

Definition fs_view (f : Fs) : View := (fs_names f, fs_inodes f).

Definition FsM : Type -> Type := ST Fs DataplaneError.

(** A system call that may fail. *)
Definition syscall : FsM unit := fun f =>
  match fs_faults f with
  | [] => (f, Ok tt)
  | b :: rest => (mkFs (fs_names f) (fs_inodes f) (fs_next f) rest (fs_log f), if b then Err EIo else Ok tt)
  end.

(** A visible change. *)
Definition publish_view (names : gmap string nat) (inodes : gmap nat Inode) (next : nat) (f : Fs) : Fs :=
  mkFs names inodes next (fs_faults f) (fs_log f ++ [(names, inodes)]).

Definition set_inode (id : nat) (i : Inode) (f : Fs) : Fs :=
  publish_view (fs_names f) (<[id := i]> (fs_inodes f)) (fs_next f) f.
Definition set_names (names : gmap string nat) (f : Fs) : Fs :=
  publish_view names (fs_inodes f) (fs_next f) f.

(** What opening a path finds. *)
Definition file_at (path : string) (f : Fs) : File :=
  match fs_names f !! path with
  | None => FMissing
  | Some id => match fs_inodes f !! id with
               | Some (ISegment m) => FMapped id m
               | Some (IShort n) => FShort n
               | None => FMissing
               end
  end.

(** The memory behind a writer; a mapping whose file was cut short faults. *)
Definition mapping_of (w : SlotWriter) : FsM Mapping := fun f =>
  match fs_inodes f !! w_identity w with
  | Some (ISegment m) => (f, Ok m)
  | _ => (f, Panic)
  end.

(** [open] with [create] and [truncate]: an existing file keeps its inode. *)
Definition open_truncated (path : string) : FsM nat := fun f =>
  match fs_names f !! path with
  | Some id => (set_inode id (IShort 0) f, Ok id)
  | None => (publish_view (<[path := fs_next f]> (fs_names f)) (<[fs_next f := IShort 0]> (fs_inodes f))
               (S (fs_next f)) f, Ok (fs_next f))
  end.

(** [rename(2)] of an existing source. *)
Definition rename (src dst : string) : FsM unit := fun f =>
  match fs_names f !! src with
  | None => (f, Err EIo)
  | Some id => (set_names (<[dst := id]> (delete src (fs_names f))) f, Ok tt)
  end.

Definition remove_file (path : string) : FsM unit :=
  let! _ := syscall in
  fun f => match fs_names f !! path with
           | None => (f, Err EIo)
           | Some _ => (set_names (delete path (fs_names f)) f, Ok tt)
           end.

(** [.map_err(map_dataplane_error)]. *)
Definition port {A} (c : FsM A) : ST Fs PortErrorKind A := fun f =>
  match c f with
  | (f', Ok a) => (f', Ok a)
  | (f', Err e) => (f', Err (map_dataplane_error e))
  | (f', Panic) => (f', Panic)
  end.

(** ** Segment files *)

Definition zero_mapping (max_slots : Z) : Mapping :=
  mkMapping (mkHeader 0 0 0 0 0 0 0 0 0 0) (replicate (Z.to_nat max_slots) zero_slot) 0.

(** [SlotWriter::create_at_epoch] with its file system calls. *)
Definition create_file (path : string) (max_slots : Z) (slot_count : nat) (layout_hash epoch generation : Z)
  : FsM SlotWriter :=
  let! _ := st_lift (ensure (slot_count <=? Z.to_nat max_slots)%nat EInvalidLayout) in
  let! _ := syscall in (* directory and open *)
  let! id := open_truncated path in
  let! _ := syscall in (* set_len *)
  let! _ := st_modify (set_inode id (ISegment (zero_mapping max_slots))) in
  let! _ := syscall in (* mmap and metadata *)
  let! (w, m) := st_lift (create_at_epoch path id max_slots slot_count layout_hash epoch generation) in
  let! _ := st_modify (set_inode id (ISegment m)) in
  let! _ := syscall in (* flush *)
  st_ret w.

Definition open_existing_file (path : string) (slot_count : nat) (layout_hash : Z) : FsM SlotWriter :=
  let! _ := syscall in
  let! f := st_get in
  st_lift (open_existing (file_at path f) path slot_count layout_hash).

Definition validate_authoritative_path (w : SlotWriter) : FsM unit :=
  let! _ := syscall in
  let! f := st_get in
  match fs_names f !! w_path w with
  | None => st_fail EIo
  | Some id => if (id =? w_identity w)%nat then st_ret tt else st_fail EInvalidLayout
  end.

(** ** The authority lease and the generation swap *)

(** [AuthorityWriteGuard]: an exclusive lease tied to one canonical path. *)
Record AuthorityWriteGuard := mkGuard { guard_path : string }.
Definition acquire (canonical : string) : FsM AuthorityWriteGuard :=
  let! _ := syscall in st_ret (mkGuard canonical).
Definition guards (g : AuthorityWriteGuard) (canonical : string) : bool := bool_decide (guard_path g = canonical).

Definition store_generation (w : SlotWriter) (g : Z) : FsM unit :=
  let! m := mapping_of w in
  st_modify (set_inode (w_identity w) (ISegment (mkMapping (set_generation g (m_header m)) (m_slots m) (m_tail m)))).

(** [begin_generation_swap]: the invalidation it returns holds the original
    generation. The lease excludes the concurrent change its
    [compare_exchange] guards against. *)
Definition begin_generation_swap (w : SlotWriter) (authority : AuthorityWriteGuard) : FsM Z :=
  let! _ := st_lift (ensure (guards authority (w_path w)) EInvalidPath) in
  let! _ := validate_authoritative_path w in
  let! m := mapping_of w in
  let generation := h_writer_generation (m_header m) in
  let! _ := st_lift (ensure (stable_generation generation) EInvalidLayout) in
  let! _ := store_generation w (Z.lor generation 1) in
  st_ret generation.

(** [Drop for GenerationInvalidation], uncommitted. *)
Definition drop_invalidation (inv : option (SlotWriter * Z)) (f : Fs) : Fs :=
  match inv with
  | Some (w, original) => (store_generation w original f).1
  | None => f
  end.

Definition commit_generation_swap_locked (staging canonical : string) (authority : AuthorityWriteGuard) : FsM unit :=
  let! _ := st_lift (ensure (guards authority canonical) EInvalidPath) in
  let! _ := syscall in
  rename staging canonical.

Definition open_canonical_for_replacement (path : string) (authority : AuthorityWriteGuard) : FsM (option SlotWriter) :=
  let! _ := st_lift (ensure (guards authority path) EInvalidPath) in
  let! _ := syscall in
  let! f := st_get in
  match file_at path f with
  | FMissing => st_ret None
  | FShort n => st_lift (let? _ := reader_open (FShort n) in Ok None)
  | FMapped id m =>
      let! _ := st_lift (reader_open (FMapped id m)) in
      let header := header_snapshot (m_header m) in
      if negb (stable_generation (hs_writer_generation header)) then st_ret None
      else
        let! w := open_existing_file path (Z.to_nat (hs_slot_count header)) (hs_routing_hash header) in
        let! _ := validate_authoritative_path w in
        st_ret (Some w)
  end.

(** A flushed staging file takes the canonical path, with the invalidated
    generation restored when the rename fails. *)
Definition swap_in (canonical staging : string) (previous : option SlotWriter) (authority : AuthorityWriteGuard) : FsM unit :=
  let! _ := syscall in (* flush *)
  let! previous_writer := match previous with
                          | Some pw => st_ret (Some pw)
                          | None => open_canonical_for_replacement canonical authority
                          end in
  let! invalidation := match previous_writer with
                       | Some pw => let! g := begin_generation_swap pw authority in st_ret (Some (pw, g))
                       | None => st_ret None
                       end in
  on_err (commit_generation_swap_locked staging canonical authority) (drop_invalidation invalidation).

(** What a publication puts at a path. *)
Record SegmentSpec := mkSpec { sg_path : string; sg_max_slots : Z; sg_slot_count : nat; sg_hash : Z }.

(** ** The acquisition writer's handle *)

(** [struct ShmAcquisitionStateWriter]; gates and observers are arguments of
    the operations that use them. *)
Record ShmAcquisitionStateWriter := mkAcquisition {
  aw_writer : SlotWriter;
  aw_manifest : ChannelPointManifest;
  aw_expected_generation : Z
}.

Record ShmRuntimeConfig := mkConfig { cfg_path : string; cfg_max_slots : Z }.

(** [struct ShmWriterGeneration]; its writer is the acquisition writer's. *)
Record ShmWriterGeneration := mkGeneration { gen_acquisition : ShmAcquisitionStateWriter }.

Record ShmWriterHandle := mkHandle {
  hd_current : option ShmWriterGeneration;
  hd_config : ShmRuntimeConfig
}.

Section Runtime.
(** [FxHasher] over the ordered counts. *)
Context (fx_hash : list (Z * by_kind Z) -> Z).

Definition layout_hash (m : ChannelPointManifest) : Z := fx_hash (mf_counts m).

Definition PortM : Type -> Type := ST Fs PortErrorKind.

(** [ShmAcquisitionStateWriter::new]. *)
Definition acquisition_new (w : SlotWriter) (manifest : ChannelPointManifest) : PortM ShmAcquisitionStateWriter :=
  let! m := port (mapping_of w) in
  st_ret (mkAcquisition w manifest (h_writer_generation (m_header m))).

Definition validate_generation (aw : ShmAcquisitionStateWriter) : PortM unit :=
  let! _ := port (validate_authoritative_path (aw_writer aw)) in
  let! m := port (mapping_of (aw_writer aw)) in
  let header := header_snapshot (m_header m) in
  if (hs_writer_generation header =? aw_expected_generation aw) &&
     stable_generation (aw_expected_generation aw) &&
     (hs_routing_hash header =? layout_hash (aw_manifest aw)) &&
     (Z.to_nat (hs_slot_count header) =? mf_slot_count (aw_manifest aw))%nat
  then st_ret tt else st_fail PConflict.

(** [ShmWriterGeneration::compose]. *)
Definition compose (w : SlotWriter) (manifest : ChannelPointManifest) : PortM ShmWriterGeneration :=
  let! aw := acquisition_new w manifest in
  let! _ := validate_generation aw in
  st_ret (mkGeneration aw).

(** ** Restoring a snapshot *)

(** [for (slot, value) in snapshot.slots().iter().enumerate()]. *)
Fixpoint restore_slots (slots : list (option SlotRead)) (slot : nat) (w : SlotWriter) (m : Mapping)
  : outcome DataplaneError (SlotWriter * Mapping) :=
  match slots with
  | [] => Ok (w, m)
  | None :: rest => restore_slots rest (S slot) w m
  | Some r :: rest =>
      let? (w', m') := set_direct w m slot (rd_value r) (rd_raw r) (rd_timestamp_ms r) in
      restore_slots rest (S slot) w' m'
  end.

(** [bytes] is what reading the snapshot file gives. *)
Definition restore_exact_snapshot (w : SlotWriter) (bytes : option (list Z)) (manifest : ChannelPointManifest)
  : PortM SlotWriter :=
  let! image := port (st_lift (let? b := ok_or EIo bytes in Snapshot.load b)) in
  let header := si_header image in
  if negb (Z.to_nat (hs_slot_count header) =? mf_slot_count manifest)%nat ||
     negb (hs_routing_hash header =? layout_hash manifest)
  then st_fail PConflict
  else
    let! m := port (mapping_of w) in
    let! (w', m') := port (st_lift (restore_slots (si_slots image) 0 w m)) in
    let! _ := st_modify (set_inode (w_identity w) (ISegment m')) in
    st_ret w'.

(** ** [publish_generation] *)

Definition validate_capacity (config : ShmRuntimeConfig) (manifest : ChannelPointManifest) : outcome PortErrorKind unit :=
  ensure (mf_slot_count manifest <=? Z.to_nat (cfg_max_slots config))%nat PInvalidData.

(** Filling the staging file and swapping it in; the staging file is removed by
    the caller on every early return. *)
Definition stage_and_swap (config : ShmRuntimeConfig) (manifest : ChannelPointManifest)
    (snapshot : option (option (list Z))) (previous : option SlotWriter) (publication_epoch : Z)
    (staging : string) (authority : AuthorityWriteGuard) (generation : Z) : PortM unit :=
  let! w := port (create_file staging (cfg_max_slots config) (mf_slot_count manifest) (layout_hash manifest)
                    publication_epoch generation) in
  let! _ := match snapshot with
            | Some bytes => restore_exact_snapshot w bytes manifest
            | None => st_ret w
            end in
  port (swap_in (cfg_path config) staging previous authority).

(** [staging_sequence] is the wall clock in nanoseconds, [generation] the
    value of [new_generation]. *)
Definition publish_generation (config : ShmRuntimeConfig) (manifest : ChannelPointManifest)
    (snapshot : option (option (list Z))) (gate_poisoned : bool) (previous : option SlotWriter)
    (publication_epoch staging_sequence generation : Z) : PortM ShmWriterGeneration :=
  let! _ := st_lift (ensure (negb gate_poisoned) PPermanent) in
  let! authority := port (acquire (cfg_path config)) in
  let staging := generation_file_path (cfg_path config) (Z.max staging_sequence 1) in
  let! _ := on_err (stage_and_swap config manifest snapshot previous publication_epoch staging authority generation)
              (fun f => (remove_file staging f).1) in
  let! w := port (open_existing_file (cfg_path config) (mf_slot_count manifest) (layout_hash manifest)) in
  compose w manifest.

(** ** The handle *)

Definition handle_empty (config : ShmRuntimeConfig) : ShmWriterHandle := mkHandle None config.

Definition create_published (config : ShmRuntimeConfig) (manifest : ChannelPointManifest)
    (snapshot : option (option (list Z))) (publication_epoch staging_sequence generation : Z) : PortM ShmWriterHandle :=
  let! _ := st_lift (validate_capacity config manifest) in
  let! g := publish_generation config manifest snapshot false None publication_epoch staging_sequence generation in
  st_ret (mkHandle (Some g) config).

(** [rebuild_internal]: the handle is changed only on success. *)
Definition rebuild (h : ShmWriterHandle) (gate_poisoned : bool) (manifest : ChannelPointManifest)
    (publication_epoch staging_sequence generation : Z) : PortM ShmWriterHandle :=
  let! _ := st_lift (validate_capacity (hd_config h) manifest) in
  let previous := (fun g => aw_writer (gen_acquisition g)) <$> hd_current h in
  let! g := publish_generation (hd_config h) manifest None gate_poisoned previous
              publication_epoch staging_sequence generation in
  st_ret (mkHandle (Some g) (hd_config h)).

Definition validate_topology_publication_epoch (publication_epoch : Z) : outcome PortErrorKind unit :=
  ensure (negb ((publication_epoch =? 0) || (publication_epoch =? u64_max))) PInvalidData.

Definition rebuild_for_publication (h : ShmWriterHandle) (gate_poisoned : bool) (manifest : ChannelPointManifest)
    (epoch staging_sequence generation : Z) : PortM ShmWriterHandle :=
  let! _ := st_lift (validate_topology_publication_epoch epoch) in
  let! used := match hd_current h with
               | Some g => let! m := port (mapping_of (aw_writer (gen_acquisition g))) in
                           st_ret (publication_epoch (m_header m) =? epoch)
               | None => st_ret false
               end in
  let! _ := st_lift (ensure (negb used) PInvalidData) in
  rebuild h gate_poisoned manifest epoch staging_sequence generation.

End Runtime.

Definition sample_fx (counts : list (Z * by_kind Z)) : Z := Z.of_nat (length counts) + 77.
Definition sample_manifest : ChannelPointManifest :=
  Eval vm_compute in match from_map sample_counts with Ok m => m | _ => mkManifest [] [] [] 0 0 end.
Definition empty_fs : Fs := mkFs ∅ ∅ 0 [] [].
Definition sample_config : ShmRuntimeConfig := mkConfig "/dev/shm/live.shm" 16.

Example publish_sample :
  (let r := (let! h := create_published sample_fx sample_config sample_manifest None 0 5 100 in
             rebuild sample_fx h false sample_manifest 3 6 200) empty_fs in
   (map_to_list (fs_names r.1), is_ok r.2, length (fs_log r.1))) = ([("/dev/shm/live.shm"%string, 1%nat)], true, 9%nat).
Proof. vm_compute. reflexivity. Qed.

(** ** Staging names *)

Lemma rsplit_once_app c l a b : rsplit_once c l = Some (a, b) -> l = a ++ c :: b.
Proof.
  revert a b. induction l as [|x l IH]; intros a b; simpl; [done|].
  destruct (rsplit_once c l) as [[a' b']|]; [intros [= <- <-]; by rewrite (IH a' b')|].
  destruct (Ascii.eqb_spec x c); intros; by simplify_eq.
Qed.

Lemma stem_suffix_app name : (stem_suffix name).1 ++ (stem_suffix name).2 = name.
Proof.
  unfold stem_suffix. destruct (rsplit_once "." name) as [[[|x a] b]|] eqn:E; simpl; rewrite ?app_nil_r; try done.
  by rewrite (rsplit_once_app _ _ _ _ E).
Qed.

Lemma split_dir_app p : (split_dir p).1 ++ (split_dir p).2 = str_bytes p.
Proof.
  unfold split_dir. destruct (rsplit_once "/" (str_bytes p)) as [[a b]|] eqn:E; [|done].
  simpl. rewrite <- app_assoc. by rewrite (rsplit_once_app _ _ _ _ E).
Qed.

Lemma generation_file_path_bytes p g :
  str_bytes (generation_file_path p g) =
  (split_dir p).1 ++ (stem_suffix (split_dir p).2).1 ++ ["-"%char] ++ str_bytes (u64_to_string g) ++
  (stem_suffix (split_dir p).2).2.
Proof.
  unfold generation_file_path, str_bytes. destruct (split_dir p) as [d n]. simpl.
  destruct (stem_suffix n) as [s x]. simpl. apply String.list_ascii_of_string_of_list_ascii.
Qed.

Lemma generation_file_path_ne p g : generation_file_path p g <> p.
Proof.
  intros H. apply (f_equal (fun q => length (str_bytes q))) in H.
  rewrite generation_file_path_bytes in H. pose proof (f_equal length (split_dir_app p)) as H1.
  pose proof (f_equal length (stem_suffix_app (split_dir p).2)) as H2.
  rewrite !length_app in *. simpl in H. lia.
Qed.

(** ** Triples of the file system *)

(** A predicate that does not look at the faults to come. *)
Definition fault_free (P : Fs -> Prop) : Prop :=
  forall f fl, P f -> P (mkFs (fs_names f) (fs_inodes f) (fs_next f) fl (fs_log f)).

Lemma triple_port {A} P (c : FsM A) Q R : triple P c Q R -> triple P (port c) Q R.
Proof. intros Hc f Hf. specialize (Hc f Hf). unfold port. by destruct (c f) as [f' [a|e|]]. Qed.

Lemma triple_syscall (P R : Fs -> Prop) :
  fault_free P -> (forall f, P f -> R f) -> triple P syscall (fun _ => P) R.
Proof. intros HP HR f Hf. unfold syscall. destruct (fs_faults f) as [|[] rest]; auto. Qed.
