(* ===== verification/Publication.v ===== *)
(** * Publication is atomic

    The theorems about [Publish]: at every moment of a publication, on every
    error path and after every crash, the canonical path names either the old
    segment or the complete new one, and from the moment it names the new one
    the old one is marked unstable. *)

From S2P Require Import Prelude Slot Bitmap Segment Snapshot Text BTree Manifest Publish.

(** ** Restoring *)

Lemma set_heartbeat_twice a b h : set_heartbeat a (set_heartbeat b h) = set_heartbeat a h.
Proof. done. Qed.

Lemma set_heartbeat_same h : set_heartbeat (h_writer_heartbeat h) h = h.
Proof. by destruct h. Qed.

(** The value a snapshot holds for the slot [i], counted from [k]. *)
Definition restored_at (slots : list (option SlotRead)) (k i : nat) : option SlotRead :=
  if (k <=? i)%nat then mjoin (slots !! (i - k)%nat) else None.

Definition apply_read (o : option SlotRead) (s : PointSlot) : PointSlot :=
  match o with Some r => set (rd_value r) (rd_raw r) (rd_timestamp_ms r) s | None => s end.

Lemma restore_slots_spec slots k w m :
  (k + length slots <= w_slot_count w)%nat ->
  exists w' hb ss, restore_slots slots k w m = Ok (w', mkMapping (set_heartbeat hb (m_header m)) ss (m_tail m)) /\
    w_identity w' = w_identity w /\ length ss = length (m_slots m) /\
    forall i, ss !! i = apply_read (restored_at slots k i) <$> m_slots m !! i.
Proof.
  revert k w m. induction slots as [|o slots IH]; intros k w m Hk; cbn [restore_slots length] in *.
  - exists w, (h_writer_heartbeat (m_header m)), (m_slots m). rewrite set_heartbeat_same. destruct m.
    split_and!; try done. intros i. unfold restored_at. destruct (k <=? i)%nat; simpl;
      rewrite ?lookup_nil; simpl; by destruct (_ !! i).
  - assert (forall i, restored_at (o :: slots) k i = if (i =? k)%nat then o else restored_at slots (S k) i) as Hr.
    { intros i. unfold restored_at. destruct (Nat.eqb_spec i k) as [->|Hne].
      - by rewrite Nat.leb_refl, Nat.sub_diag.
      - destruct (Nat.leb_spec k i), (Nat.leb_spec (S k) i); try lia; [|done].
        by replace (i - k)%nat with (S (i - S k)) by lia. }
    assert (forall i, (S k <=? i)%nat = false -> restored_at slots (S k) i = None) as Hn.
    { intros i Hi. unfold restored_at. by rewrite Hi. }
    destruct o as [r|].
    + unfold set_direct. replace (k <? w_slot_count w)%nat with true by (symmetry; apply Nat.ltb_lt; lia).
      cbn [obind]. edestruct (IH (S k)) as (w' & hb & ss & Heq & Hid & Hl & Hss);
        [|exists w', hb, ss; rewrite Heq; unfold store_slot; cbn [m_header m_tail]; rewrite set_heartbeat_twice].
      { simpl. lia. }
      split_and!; [done|by rewrite Hid|by rewrite Hl; cbn [m_slots store_slot]; rewrite length_alter|].
      intros i. rewrite Hss, Hr. cbn [m_slots store_slot]. destruct (Nat.eqb_spec i k) as [->|Hne].
      * rewrite Hn by (apply Nat.leb_gt; lia). rewrite list_lookup_alter_eq. by destruct (m_slots m !! k).
      * by rewrite list_lookup_alter_ne by done.
    + destruct (IH (S k) w m) as (w' & hb & ss & Heq & Hid & Hl & Hss); [lia|].
      exists w', hb, ss. split_and!; try done. intros i. rewrite Hss, Hr.
      destruct (Nat.eqb_spec i k) as [->|]; [|done]. by rewrite Hn by (apply Nat.leb_gt; lia).
Qed.

Lemma decode_slots_length bytes i k slots : decode_slots bytes i k = Ok slots -> length slots = k.
Proof.
  revert i slots. induction k as [|k IH]; intros i slots; simpl; [by intros [= <-]|].
  intros (x & _ & (r & Hr & [= <-])%obind_ok)%obind_ok. simpl. f_equal. by eapply IH.
Qed.

Lemma load_slots_length bytes img :
  Snapshot.load bytes = Ok img -> length (si_slots img) = Z.to_nat (hs_slot_count (si_header img)).
Proof.
  unfold Snapshot.load. split_if; [done|].
  intros (h & _ & (e & _ & H)%obind_ok)%obind_ok. do 4 (split_if_in H; [done|]).
  apply obind_ok in H as (a & _ & (b & _ & H)%obind_ok). split_if_in H; [done|].
  apply obind_ok in H as (slots & Hs & [= <-]). simpl. by eapply decode_slots_length.
Qed.

(** Reading a snapshot fails with an error, never with a panic. *)
Lemma read_uint_no_panic n bytes off : read_uint n bytes off <> Panic.
Proof. unfold read_uint. by destruct (slice off n bytes). Qed.

Lemma decode_slots_no_panic bytes i k : decode_slots bytes i k <> Panic.
Proof.
  revert i. induction k as [|k IH]; intros i; cbn [decode_slots]; [done|].
  rewrite obind_panic. intros [H|(x & _ & H)].
  - unfold decode_slot in H. do 4 (apply obind_panic in H as [H|(? & _ & H)]; [by apply read_uint_no_panic in H|]).
    by repeat split_if_in H.
  - apply obind_panic in H as [H|(? & _ & H)]; [by apply IH in H|done].
Qed.

Lemma ok_or_no_panic {E A} (e : E) (o : option A) : ok_or e o <> Panic.
Proof. by destruct o. Qed.

Lemma load_no_panic bytes : Snapshot.load bytes <> Panic.
Proof.
  unfold Snapshot.load. split_if; [done|]. intros H.
  apply obind_panic in H as [H|(h & _ & H)].
  - unfold decode_header in H. by do 8 (apply obind_panic in H as [H|(? & _ & H)]; [by apply read_uint_no_panic in H|]).
  - apply obind_panic in H as [H|(e & _ & H)]; [by apply read_uint_no_panic in H|].
    do 4 (split_if_in H; [done|]).
    do 2 (apply obind_panic in H as [H|(? & _ & H)]; [by apply ok_or_no_panic in H|]).
    split_if_in H; [done|]. apply obind_panic in H as [H|(? & _ & H)]; [by apply decode_slots_no_panic in H|done].
Qed.

(** ** The view of a publication *)

(** Names do not alias, and inodes are numbered below the next one. *)
Definition wf_fs (f : Fs) : Prop :=
  (forall p q id, fs_names f !! p = Some id -> fs_names f !! q = Some id -> p = q) /\
  (forall p id, fs_names f !! p = Some id -> (id < fs_next f)%nat /\ is_Some (fs_inodes f !! id)).

Definition invalidated (m : Mapping) : Mapping :=
  mkMapping (set_generation (Z.lor (h_writer_generation (m_header m)) 1) (m_header m)) (m_slots m) (m_tail m).

Definition unstable (i : Inode) : Prop :=
  match i with ISegment m => stable_generation (h_writer_generation (m_header m)) = false | IShort _ => False end.

Lemma invalidated_unstable m : unstable (ISegment (invalidated m)).
Proof.
  simpl. destruct (stable_generation _) eqn:E; [|done]. apply stable_generation_spec in E as [_ E].
  rewrite <- Z.bit0_odd, Z.lor_spec in E. by rewrite orb_true_r in E.
Qed.

Lemma restore_generation m :
  mkMapping (set_generation (h_writer_generation (m_header m)) (m_header (invalidated m)))
    (m_slots (invalidated m)) (m_tail (invalidated m)) = m.
Proof. by destruct m as [[] ? ?]. Qed.

Lemma validate_path_triple (P R : Fs -> Prop) w :
  fault_free P -> (forall f, P f -> R f) ->
  triple P (validate_authoritative_path w)
    (fun _ f => P f /\ fs_names f !! w_path w = Some (w_identity w)) R.
Proof.
  intros HP Hb. unfold validate_authoritative_path.
  eapply triple_bind; [by apply triple_syscall|intros []; cbv beta].
  eapply triple_bind; [apply triple_get|intros f0; cbv beta].
  intros f [-> Hf]. destruct (fs_names f !! w_path w) as [id|] eqn:E; [|by apply Hb].
  destruct (Nat.eqb_spec id (w_identity w)) as [->|]; [by split|by apply Hb].
Qed.

Lemma mapping_of_triple (P : Fs -> Prop) w R :
  (forall f, P f -> exists m, fs_inodes f !! w_identity w = Some (ISegment m)) ->
  triple P (mapping_of w) (fun m f => P f /\ fs_inodes f !! w_identity w = Some (ISegment m)) R.
Proof. intros H f Hf. destruct (H f Hf) as [m Hm]. unfold mapping_of. by rewrite Hm. Qed.

(** A successful [validate_generation] says what the writer's memory is. *)
Definition authoritative (fx_hash : list (Z * by_kind Z) -> Z) (aw : ShmAcquisitionStateWriter) (f : Fs) : Prop :=
  fs_names f !! w_path (aw_writer aw) = Some (w_identity (aw_writer aw)) /\
  exists m, fs_inodes f !! w_identity (aw_writer aw) = Some (ISegment m) /\
    h_writer_generation (m_header m) = aw_expected_generation aw /\
    stable_generation (aw_expected_generation aw) = true /\
    h_routing_hash (m_header m) = layout_hash fx_hash (aw_manifest aw) /\
    Z.to_nat (h_slot_count (m_header m)) = mf_slot_count (aw_manifest aw).

Lemma validate_generation_triple fx_hash (P : Fs -> Prop) aw :
  fault_free P -> (forall f, P f -> exists m, fs_inodes f !! w_identity (aw_writer aw) = Some (ISegment m)) ->
  triple P (validate_generation fx_hash aw) (fun _ f => P f /\ authoritative fx_hash aw f) P.
Proof.
  intros HP Hm. unfold validate_generation.
  eapply triple_bind; [by apply triple_port, (validate_path_triple P P)|intros []; cbv beta].
  eapply triple_bind; [apply triple_port, mapping_of_triple; intros f [Hf _]; by apply Hm|intros m; cbv beta].
  intros f [[Hf Hn] Hi]. cbn [header_snapshot hs_writer_generation hs_routing_hash hs_slot_count].
  destruct (_ && _) eqn:E; [|done]. bool_facts. split; [done|]. split; [done|]. exists m.
  repeat match goal with Hz : (_ =? _)%nat = true |- _ => apply Nat.eqb_eq in Hz | Hz : (_ =? _) = true |- _ => apply Z.eqb_eq in Hz end.
  by split_and!.
Qed.

Section Publication.
Context (sg : SegmentSpec) (reads : nat -> option SlotRead) (epoch staging_sequence generation : Z) (fs0 : Fs).

Definition canonical_path : string := sg_path sg.
Definition staging_path : string := generation_file_path (sg_path sg) (Z.max staging_sequence 1).
Definition new_inode : nat := default (fs_next fs0) (fs_names fs0 !! staging_path).

(** A segment of the requested layout whose live slots hold what [reads] says
    and are unwritten otherwise. *)
Definition built (content : nat -> option SlotRead) (m : Mapping) : Prop :=
  (exists hb, m_header m = mkHeader UNIFIED_MAGIC UNIFIED_VERSION (sg_max_slots sg)
     (Z.of_nat (sg_slot_count sg)) 0 0 hb (sg_hash sg) generation epoch) /\
  length (m_slots m) = Z.to_nat (sg_max_slots sg) /\ m_tail m = 0%nat /\
  forall i, (i < sg_slot_count sg)%nat -> m_slots m !! i = Some (apply_read (content i) slot_new).

Definition complete : Mapping -> Prop := built reads.

(** The old segment is untouched and canonical. *)
Definition before (v : View) : Prop :=
  (forall p, p <> staging_path -> v.1 !! p = fs_names fs0 !! p) /\
  (forall id, id <> new_inode -> v.2 !! id = fs_inodes fs0 !! id).

(** The old segment [m] is canonical and invalidated; the new one is complete. *)
Definition window (id : nat) (m : Mapping) (v : View) : Prop :=
  (forall p, p <> staging_path -> v.1 !! p = fs_names fs0 !! p) /\
  fs_names fs0 !! canonical_path = Some id /\ fs_inodes fs0 !! id = Some (ISegment m) /\
  stable_generation (h_writer_generation (m_header m)) = true /\
  v.2 !! id = Some (ISegment (invalidated m)) /\
  (forall id', id' <> new_inode -> id' <> id -> v.2 !! id' = fs_inodes fs0 !! id') /\
  v.1 !! staging_path = Some new_inode /\ exists m', v.2 !! new_inode = Some (ISegment m') /\ complete m'.

Definition invalid_window (v : View) : Prop := exists id m, window id m v.

(** The new segment is canonical and complete; the old one, if any, unstable. *)
Definition after (v : View) : Prop :=
  v.1 !! canonical_path = Some new_inode /\ v.1 !! staging_path = None /\
  (forall p, p <> staging_path -> p <> canonical_path -> v.1 !! p = fs_names fs0 !! p) /\
  (exists m, v.2 !! new_inode = Some (ISegment m) /\ complete m) /\
  (forall id, id <> new_inode -> fs_names fs0 !! canonical_path <> Some id -> v.2 !! id = fs_inodes fs0 !! id) /\
  (forall id, fs_names fs0 !! canonical_path = Some id -> id <> new_inode /\
     exists i, v.2 !! id = Some i /\ unstable i /\
       (fs_inodes fs0 !! id = Some i \/ exists m, fs_inodes fs0 !! id = Some (ISegment m) /\ i = ISegment (invalidated m))).

Definition coherent (v : View) : Prop := before v \/ invalid_window v \/ after v.

(** The state is in a phase, and every view since the start is coherent. *)
Definition at_phase (Ph : View -> Prop) (f : Fs) : Prop :=
  Ph (fs_view f) /\ exists vs, fs_log f = fs_log fs0 ++ vs /\ Forall coherent vs.

Lemma at_phase_fault_free Ph : fault_free (at_phase Ph).
Proof. intros f fl H. exact H. Qed.

Lemma at_phase_publish Ph Ph' names inodes next f :
  at_phase Ph f -> Ph' (names, inodes) -> coherent (names, inodes) ->
  at_phase Ph' (publish_view names inodes next f).
Proof.
  intros (_ & vs & Hl & Hvs) HP Hc. split; [done|]. exists (vs ++ [(names, inodes)]).
  simpl. rewrite Hl, app_assoc. split; [done|]. apply Forall_app. split; [done|]. by apply Forall_singleton.
Qed.

Lemma at_phase_weaken Ph Ph' f : (Ph (fs_view f) -> Ph' (fs_view f)) -> at_phase Ph f -> at_phase Ph' f.
Proof. intros H [HP Hl]. split; [by apply H|done]. Qed.

(** *** Staging *)

Definition staged (content : nat -> option SlotRead) (v : View) : Prop :=
  before v /\ v.1 !! staging_path = Some new_inode /\ exists m, v.2 !! new_inode = Some (ISegment m) /\ built content m.

Lemma before_insert v i : before v -> before (v.1, <[new_inode := i]> v.2).
Proof. intros [Hn Hi]. split; [done|]. intros id Hid. simpl. rewrite lookup_insert_ne by done. auto. Qed.

Lemma before_coherent v : before v -> coherent v.
Proof. by left. Qed.

(** The staging name refers to the new inode. *)
Definition named (v : View) : Prop := before v /\ v.1 !! staging_path = Some new_inode.

(** Writing the staging inode keeps the old segment as it was. *)
Lemma set_new_inode Ph i f :
  at_phase Ph f -> (Ph (fs_view f) -> before (fs_view f)) ->
  at_phase (fun v => before v /\ v.1 !! staging_path = fs_names f !! staging_path /\ v.2 !! new_inode = Some i) (set_inode new_inode i f).
Proof.
  intros Hf HP. destruct Hf as [HPf Hl]. pose proof (before_insert _ i (HP HPf)) as Hb.
  apply (at_phase_publish Ph); [by split| |by apply before_coherent].
  split_and!; [exact Hb|done|]. simpl. by rewrite lookup_insert_eq.
Qed.

Lemma set_named_inode Ph i f :
  at_phase Ph f -> (Ph (fs_view f) -> named (fs_view f)) ->
  at_phase (fun v => named v /\ v.2 !! new_inode = Some i) (set_inode new_inode i f).
Proof.
  intros Hf HP. pose proof (HP (proj1 Hf)) as [Hb Hs].
  pose proof (set_new_inode Ph i f Hf (fun _ => Hb)) as Hset.
  apply (at_phase_weaken (fun v => before v /\ v.1 !! staging_path = fs_names f !! staging_path /\ v.2 !! new_inode = Some i));
    [|done]. intros (? & Hn & ?). split_and!; [split|]; [done|by rewrite Hn|done].
Qed.

Lemma set_inode_triple {E} (Ph : View -> Prop) i R :
  (forall v, Ph v -> named v) ->
  triple (at_phase Ph) (st_modify (E := E) (set_inode new_inode i))
    (fun _ => at_phase (fun v => named v /\ v.2 !! new_inode = Some i)) R.
Proof. intros HP. apply triple_modify. intros f Hf. apply (set_named_inode Ph); [done|apply HP]. Qed.

Lemma open_truncated_triple :
  triple (fun f => at_phase before f /\ fs_names f = fs_names fs0 /\ fs_next f = fs_next fs0)
    (open_truncated staging_path)
    (fun id f => at_phase named f /\ id = new_inode)
    (at_phase before).
Proof.
  intros f (Hf & Hn & Hx). unfold open_truncated. rewrite Hn.
  destruct (fs_names fs0 !! staging_path) as [id|] eqn:E; simpl.
  - assert (id = new_inode) as Hid by (unfold new_inode; by rewrite E). rewrite Hid. split; [|done].
    apply (at_phase_weaken (fun v => before v /\ v.1 !! staging_path = fs_names f !! staging_path /\ v.2 !! new_inode = Some (IShort 0))).
    + intros (? & Hs & _). split; [done|]. rewrite Hs, Hn, E. by f_equal.
    + by apply (set_new_inode before).
  - assert (fs_next f = new_inode) as Hnew by (unfold new_inode; by rewrite E, Hx). rewrite Hnew. split; [|done].
    assert (before (<[staging_path := new_inode]> (fs_names fs0), <[new_inode := IShort 0]> (fs_inodes f))) as Hb.
    { destruct Hf as [Hb _]. pose proof (before_insert _ (IShort 0) Hb) as [_ Hi]. split; [|exact Hi].
      intros p Hp. simpl. by rewrite lookup_insert_ne. }
    apply (at_phase_publish before); [done| |by apply before_coherent].
    split; [done|]. simpl. by rewrite lookup_insert_eq.
Qed.

Lemma created_built w m :
  fits 32 (sg_max_slots sg) ->
  create_at_epoch staging_path new_inode (sg_max_slots sg) (sg_slot_count sg) (sg_hash sg)
    epoch generation = Ok (w, m) ->
  built (fun _ => None) m /\ w_identity w = new_inode /\ w_slot_count w = sg_slot_count sg.
Proof.
  intros Hmax. unfold create_at_epoch.
  destruct (Nat.ltb_spec (Z.to_nat (sg_max_slots sg)) (sg_slot_count sg)) as [|Hle]; [done|].
  intros (w' & Hw & Heq)%obind_ok. apply Ok_inj in Heq.
  apply obind_ok in Hw as (u & _ & Hw). apply Ok_inj in Hw. subst w'. injection Heq as <- <-.
  split_and!; [|done|done]. unfold built. cbn [m_header m_slots m_tail]. split_and!; [|..|done|].
  - exists 0. f_equal. apply wrap_small. unfold fits in *. lia.
  - rewrite length_app, length_fmap, length_take, length_drop, length_replicate. lia.
  - intros i Hi. by apply created_slots.
Qed.

Definition at_start (f : Fs) : Prop :=
  at_phase before f /\ fs_names f = fs_names fs0 /\ fs_next f = fs_next fs0.

(** A call that may fail, in a phase with the old segment untouched. *)
Lemma syscall_phase (P : Fs -> Prop) (Ph : View -> Prop) :
  fault_free P -> (forall f, P f -> at_phase Ph f) -> (forall v, Ph v -> before v) ->
  triple P syscall (fun _ => P) (at_phase before).
Proof.
  intros HP Hat Hb. apply triple_syscall; [done|]. intros f Hf. apply (at_phase_weaken Ph); [apply Hb|by apply Hat].
Qed.

Lemma create_file_triple :
  fits 32 (sg_max_slots sg) ->
  triple at_start
    (create_file staging_path (sg_max_slots sg) (sg_slot_count sg) (sg_hash sg) epoch generation)
    (fun w f => (at_phase (staged (fun _ => None)) f /\ w_identity w = new_inode) /\ w_slot_count w = sg_slot_count sg)
    (at_phase before).
Proof.
  intros Hmax. unfold create_file.
  eapply triple_bind; [apply triple_ensure; by intros f [? _]|intros []; cbv beta].
  apply triple_pure. intros _.
  eapply triple_bind; [eapply (syscall_phase _ before); [by intros f fl H|by intros f [? _]|done]|intros []; cbv beta].
  eapply triple_bind; [apply open_truncated_triple|intros id]. apply triple_pure. intros Hid. subst id.
  eapply triple_bind; [eapply (syscall_phase _ named); [apply at_phase_fault_free|done|by intros v [? _]]|intros []; cbv beta].
  eapply triple_bind; [apply (set_inode_triple named); done|intros []; cbv beta].
  eapply triple_bind; [eapply (syscall_phase _ _); [apply at_phase_fault_free|intros f Hf; exact Hf|by intros v [[? _] _]]|intros []; cbv beta].
  eapply triple_bind.
  { apply (triple_lift _ _ (fun wm f => at_phase named f /\
      (built (fun _ => None) wm.2 /\ w_identity wm.1 = new_inode /\ w_slot_count wm.1 = sg_slot_count sg))).
    - intros [w m] f Hc Hf. split; [|by apply created_built]. revert Hf. apply at_phase_weaken. by intros [? _].
    - intros f Hf. revert Hf. apply at_phase_weaken. by intros [[? _] _].
    - intros f _. unfold create_at_epoch, writer_from_mmap, validate_mapping_layout. repeat split_if; done. }
  intros [w m]. apply triple_pure. intros (Hb & Hid & Hc). cbn [fst snd] in *.
  eapply triple_bind; [apply (set_inode_triple named); done|intros []; cbv beta].
  eapply triple_bind; [eapply (syscall_phase _ _); [apply at_phase_fault_free|intros f Hf; exact Hf|by intros v [[? _] _]]|intros []; cbv beta].
  apply triple_ret. intros f Hf. split_and!; [|done|done]. revert Hf. apply at_phase_weaken.
  intros [[? ?] ?]. split_and!; eauto.
Qed.

(** *** Finding and invalidating the old generation *)

Context (Hwf : wf_fs fs0).

Lemma staging_ne_canonical : staging_path <> canonical_path.
Proof. apply generation_file_path_ne. Qed.

Lemma old_ne_new id : fs_names fs0 !! canonical_path = Some id -> id <> new_inode.
Proof.
  intros Hc Heq. destruct Hwf as [Hinj Hlt]. unfold new_inode in Heq.
  destruct (fs_names fs0 !! staging_path) as [n|] eqn:E; simpl in Heq.
  - subst n. by apply staging_ne_canonical, (Hinj _ _ _ E Hc).
  - apply Hlt in Hc as [Hc _]. subst id. by apply Nat.lt_irrefl in Hc.
Qed.

(** No stable generation is canonical at the start. *)
Definition no_stable_old : Prop :=
  forall id, fs_names fs0 !! canonical_path = Some id -> exists i, fs_inodes fs0 !! id = Some i /\ unstable i.

Definition live (w : SlotWriter) : Prop :=
  w_identity w <> new_inode /\ exists m, fs_inodes fs0 !! w_identity w = Some (ISegment m).

Lemma staged_canonical content v : staged content v -> v.1 !! canonical_path = fs_names fs0 !! canonical_path.
Proof. intros [[Hn _] _]. apply Hn. intros H. by apply staging_ne_canonical. Qed.

Lemma staged_old content v id : staged content v -> id <> new_inode -> v.2 !! id = fs_inodes fs0 !! id.
Proof. intros [[_ Hi] _]. apply Hi. Qed.

Lemma staged_before content f : at_phase (staged content) f -> at_phase before f.
Proof. apply at_phase_weaken. by intros [? _]. Qed.

Lemma open_existing_handle id m path n hash w :
  open_existing (FMapped id m) path n hash = Ok w ->
  w_identity w = id /\ w_path w = path /\ w_slot_count w = n /\ w_max_slots w = h_max_slots (m_header m) /\
  stable_generation (h_writer_generation (m_header m)) = true /\
  h_routing_hash (m_header m) = hash /\ Z.to_nat (h_slot_count (m_header m)) = n.
Proof.
  unfold open_existing. do 2 (split_if; [done|]). intros (u & _ & H)%obind_ok.
  do 3 (split_if_in H; [done|]). unfold writer_from_mmap in H. apply obind_ok in H as (u' & _ & H).
  apply Ok_inj in H as <-. bool_facts. simpl in *. apply Nat.eqb_eq in E1. apply Z.eqb_eq in E2. done.
Qed.

Lemma open_existing_no_panic f path n hash : open_existing f path n hash <> Panic.
Proof.
  destruct f as [| |id m]; [done..|]. unfold open_existing. do 2 (split_if; [done|]). intros [H|(u & _ & H)]%obind_panic.
  - unfold validate_mapping_layout in H. by repeat split_if_in H.
  - do 3 (split_if_in H; [done|]). unfold writer_from_mmap in H. apply obind_panic in H as [H|(u' & _ & H)]; [|done].
    unfold validate_mapping_layout in H. by repeat split_if_in H.
Qed.

Lemma open_stable_triple content id m :
  fs_names fs0 !! canonical_path = Some id -> fs_inodes fs0 !! id = Some (ISegment m) ->
  triple (at_phase (staged content))
    (let! w := open_existing_file canonical_path (Z.to_nat (h_slot_count (m_header m))) (h_routing_hash (m_header m)) in
     let! _ := validate_authoritative_path w in st_ret (Some w))
    (fun o f => at_phase (staged content) f /\ match o with None => no_stable_old | Some w => live w end)
    (at_phase before).
Proof.
  intros Hc Hm. pose proof (old_ne_new id Hc) as Hne.
  eapply (triple_bind _ _ (fun w f => at_phase (staged content) f /\ live w)).
  - unfold open_existing_file.
    eapply triple_bind; [apply triple_syscall; [apply at_phase_fault_free|apply staged_before]|intros []; cbv beta].
    eapply triple_bind; [apply triple_get|intros f0]. cbv beta. intros f [-> Hf].
    unfold file_at. pose proof (staged_canonical _ _ (proj1 Hf)) as Hcv. simpl in Hcv. rewrite Hcv, Hc.
    pose proof (staged_old _ _ id (proj1 Hf) Hne) as Hi. simpl in Hi. rewrite Hi, Hm. unfold st_lift.
    destruct (open_existing _ _ _ _) as [w|e|] eqn:Eo; [|by eapply staged_before|by apply open_existing_no_panic in Eo].
    apply open_existing_handle in Eo as (<- & _). split; [done|]. split; [done|]. by exists m.
  - intros w. apply triple_pure. intros Hlive.
    eapply triple_bind; [apply validate_path_triple; [apply at_phase_fault_free|apply staged_before]|intros []; cbv beta].
    apply triple_ret. by intros f [? _].
Qed.

Lemma open_canonical_triple content :
  triple (at_phase (staged content)) (open_canonical_for_replacement canonical_path (mkGuard canonical_path))
    (fun o f => at_phase (staged content) f /\ match o with None => no_stable_old | Some w => live w end)
    (at_phase before).
Proof.
  unfold open_canonical_for_replacement.
  eapply triple_bind; [apply triple_ensure, staged_before|intros []]. apply triple_pure. intros _.
  eapply triple_bind; [apply triple_syscall; [apply at_phase_fault_free|apply staged_before]|intros []; cbv beta].
  eapply triple_bind; [apply triple_get|intros f0]. cbv beta. intros f [-> Hf]. revert f Hf.
  assert (forall f, at_phase (staged content) f -> file_at canonical_path f = file_at canonical_path fs0) as Hfile.
  { intros f [Hst _]. unfold file_at. pose proof (staged_canonical _ _ Hst) as Hc. simpl in Hc. rewrite Hc.
    destruct (fs_names fs0 !! canonical_path) as [id|] eqn:E; [|done].
    pose proof (staged_old _ _ id Hst (old_ne_new id E)) as Hi. simpl in Hi. by rewrite Hi. }
  intros f Hf. rewrite (Hfile f Hf).
  unfold file_at. destruct (fs_names fs0 !! canonical_path) as [id|] eqn:E.
  2: { split; [done|]. intros id Hid. by rewrite E in Hid. }
  destruct Hwf as [_ Hlt]. destruct (Hlt _ _ E) as [_ [i Hi]]. rewrite Hi.
  destruct i as [m|len]; [|by eapply staged_before].
  unfold st_bind at 1, st_lift at 1.
  destruct (reader_open (FMapped id m)) as [r|e|] eqn:Er; [|by eapply staged_before|].
  - cbn [header_snapshot hs_writer_generation hs_slot_count hs_routing_hash].
    destruct (stable_generation (h_writer_generation (m_header m))) eqn:Es; cbn [negb].
    + exact (open_stable_triple content id m E Hi f Hf).
    + split; [done|]. intros id' Hid'. simplify_eq. by exists (ISegment m).
  - exfalso. revert Er. unfold reader_open, reader_from_mmap, validate_mapping_layout. by repeat split_if.
Qed.

(** [begin_generation_swap] opens the window, on the canonical inode. *)
Lemma begin_swap_triple w :
  live w ->
  triple (at_phase (staged reads)) (begin_generation_swap w (mkGuard canonical_path))
    (fun g f => exists m, at_phase (window (w_identity w) m) f /\ g = h_writer_generation (m_header m))
    (at_phase before).
Proof.
  intros [Hne [m Hm]]. unfold begin_generation_swap.
  eapply triple_bind; [apply triple_ensure, staged_before|intros []]. apply triple_pure.
  intros Hg. unfold guards in Hg. simpl in Hg. bool_facts.
  eapply triple_bind; [apply validate_path_triple; [apply at_phase_fault_free|apply staged_before]|intros []; cbv beta].
  intros f [Hf Hname]. pose proof Hf as [Hst Hlog]. rewrite <- Hg in Hname.
  pose proof (staged_canonical _ _ Hst) as Hc. simpl in Hc. rewrite Hname in Hc. symmetry in Hc.
  pose proof (staged_old _ _ _ Hst Hne) as Hi. simpl in Hi. rewrite Hm in Hi.
  unfold st_bind, mapping_of at 1, st_lift, ensure. rewrite Hi.
  destruct (stable_generation (h_writer_generation (m_header m))) eqn:Es; [|by eapply staged_before].
  unfold store_generation, st_bind, mapping_of, st_modify, st_ret. rewrite Hi. exists m. split; [|done].
  destruct Hst as ([Hn Hino] & Hsn & m' & Hm' & Hbuilt). simpl in Hn, Hino, Hsn, Hm'.
  assert (window (w_identity w) m (fs_names f, <[w_identity w := ISegment (invalidated m)]> (fs_inodes f))) as Hw.
  { unfold window. cbn [fst snd]. rewrite lookup_insert_eq, lookup_insert_ne by done.
    split_and!; try done; [|by exists m']. intros id' H1 H2. rewrite lookup_insert_ne by done. auto. }
  apply (at_phase_publish (staged reads)); [done|exact Hw|]. right. left. by exists (w_identity w), m.
Qed.

(** Dropping the uncommitted invalidation restores the old segment exactly. *)
Lemma drop_window w m f :
  at_phase (window (w_identity w) m) f ->
  at_phase before (drop_invalidation (Some (w, h_writer_generation (m_header m))) f).
Proof.
  intros Hf. pose proof Hf as [(Hn & Hc & Hm & Hs & Hi & Ho & _) _]. simpl in Hn, Hi, Ho.
  unfold drop_invalidation, store_generation, st_bind, mapping_of, st_modify. rewrite Hi.
  rewrite restore_generation. cbn [fst].
  assert (before (fs_names f, <[w_identity w := ISegment m]> (fs_inodes f))) as Hb.
  { split; [done|]. intros id Hid. simpl. destruct (decide (id = w_identity w)) as [->|Hne].
    - by rewrite lookup_insert_eq.
    - rewrite lookup_insert_ne by done. auto. }
  apply (at_phase_publish (window (w_identity w) m)); [done|done|by left].
Qed.

(** The rename, from a state in which no stable generation is canonical. *)
Lemma rename_after (Ph : View -> Prop) f :
  at_phase Ph f -> (forall p, p <> staging_path -> fs_names f !! p = fs_names fs0 !! p) ->
  fs_names f !! staging_path = Some new_inode ->
  (exists m, fs_inodes f !! new_inode = Some (ISegment m) /\ complete m) ->
  (forall id, id <> new_inode -> fs_names fs0 !! canonical_path <> Some id -> fs_inodes f !! id = fs_inodes fs0 !! id) ->
  (forall id, fs_names fs0 !! canonical_path = Some id -> exists i, fs_inodes f !! id = Some i /\ unstable i /\
     (fs_inodes fs0 !! id = Some i \/ exists m, fs_inodes fs0 !! id = Some (ISegment m) /\ i = ISegment (invalidated m))) ->
  match rename staging_path canonical_path f with
  | (f', Ok _) => at_phase after f'
  | _ => False
  end.
Proof.
  intros Hf Hn Hs Hnew Hi Hold. unfold rename. rewrite Hs. pose proof staging_ne_canonical as Hne.
  set (names := <[canonical_path := new_inode]> _).
  assert (after (names, fs_inodes f)) as Ha.
  { unfold after, names. cbn [fst snd]. split_and!; [by rewrite lookup_insert_eq| | |done|done|].
    - rewrite lookup_insert_ne by done. apply lookup_delete_eq.
    - intros p H1 H2. rewrite lookup_insert_ne, lookup_delete_ne by done. by apply Hn.
    - intros id Hid. split; [by apply old_ne_new|by apply Hold]. }
  apply (at_phase_publish Ph); [done|exact Ha|right; by right].
Qed.

Lemma commit_triple (Ph : View -> Prop) :
  (forall f, at_phase Ph f -> match rename staging_path canonical_path f with (f', Ok _) => at_phase after f' | _ => False end) ->
  triple (at_phase Ph) (commit_generation_swap_locked staging_path canonical_path (mkGuard canonical_path))
    (fun _ => at_phase after) (at_phase Ph).
Proof.
  intros Hr. unfold commit_generation_swap_locked.
  eapply triple_bind; [by apply triple_ensure|intros []]. apply triple_pure. intros _.
  eapply triple_bind; [apply triple_syscall; [apply at_phase_fault_free|done]|intros []; cbv beta].
  intros f Hf. specialize (Hr f Hf). by destruct (rename staging_path canonical_path f) as [f' []].
Qed.

Lemma commit_from_window id m :
  triple (at_phase (window id m)) (commit_generation_swap_locked staging_path canonical_path (mkGuard canonical_path))
    (fun _ => at_phase after) (at_phase (window id m)).
Proof.
  apply commit_triple. intros f Hf. pose proof Hf as [(Hn & Hc & Hm & Hs & Hi & Ho & Hsn & Hnew) _]. simpl in *.
  apply (rename_after (window id m)); try done.
  - intros id' H1 H2. apply Ho; [done|]. intros ->. done.
  - intros id' Hid'. rewrite Hc in Hid'. injection Hid' as <-.
    exists (ISegment (invalidated m)). split_and!; [done|apply invalidated_unstable|right; by exists m].
Qed.

Lemma commit_from_staged :
  no_stable_old ->
  triple (at_phase (staged reads)) (commit_generation_swap_locked staging_path canonical_path (mkGuard canonical_path))
    (fun _ => at_phase after) (at_phase (staged reads)).
Proof.
  intros Hold. apply commit_triple. intros f Hf. pose proof Hf as [([Hn Hi] & Hsn & Hnew) _]. simpl in *.
  apply (rename_after (staged reads)); try done; [by auto|].
  intros id Hid. destruct (Hold id Hid) as (i & Hii & Hu). exists i. split_and!; [|done|by left].
  rewrite Hi; [done|by apply old_ne_new].
Qed.

(** *** The whole call *)

Context (Hmax : fits 32 (sg_max_slots sg)).

Lemma resolve_previous_triple (previous : option SlotWriter) :
  (forall pw, previous = Some pw -> live pw) ->
  triple (at_phase (staged reads))
    (match previous with
     | Some pw => st_ret (Some pw)
     | None => open_canonical_for_replacement canonical_path (mkGuard canonical_path)
     end)
    (fun o f => at_phase (staged reads) f /\ match o with None => no_stable_old | Some w => live w end)
    (at_phase before).
Proof.
  intros Hp. destruct previous as [pw|]; [|apply open_canonical_triple].
  apply triple_ret. intros f Hf. split; [done|by apply Hp].
Qed.

Lemma swap_in_triple previous :
  (forall pw, previous = Some pw -> live pw) ->
  triple (at_phase (staged reads)) (swap_in canonical_path staging_path previous (mkGuard canonical_path))
    (fun _ => at_phase after) (at_phase before).
Proof.
  intros Hp. unfold swap_in.
  eapply triple_bind; [apply triple_syscall; [apply at_phase_fault_free|apply staged_before]|intros []; cbv beta].
  eapply triple_bind; [by apply resolve_previous_triple|intros o; cbv beta]. apply triple_pure. intros Ho.
  destruct o as [pw|].
  - eapply (triple_bind _ _ (fun inv f => exists m, at_phase (window (w_identity pw) m) f /\
      inv = Some (pw, h_writer_generation (m_header m)))).
    + eapply triple_bind; [by apply begin_swap_triple|intros g; cbv beta].
      apply triple_ret. intros f (m & Hf & ->). by exists m.
    + intros inv f (m & Hf & ->). revert f Hf. eapply triple_on_err; [apply commit_from_window|].
      intros f Hf. by apply drop_window.
  - eapply (triple_bind _ _ (fun inv f => at_phase (staged reads) f /\ inv = None)).
    + apply triple_ret. by intros f Hf.
    + intros inv. apply triple_pure. intros ->.
      eapply triple_on_err; [by apply commit_from_staged|]. intros f Hf. by eapply staged_before.
Qed.

(** Removing the staging file leaves the old segment as it was. *)
Lemma remove_staging f : at_phase before f -> at_phase before (remove_file staging_path f).1.
Proof.
  intros Hf. unfold remove_file, st_bind, syscall.
  assert (forall g, at_phase before g -> at_phase before
    (match fs_names g !! staging_path with None => (g, Err EIo)
     | Some _ => (set_names (delete staging_path (fs_names g)) g, @Ok DataplaneError unit tt) end).1) as Hrm.
  { intros g Hg. destruct (fs_names g !! staging_path); [|done]. cbn [fst].
    assert (before (delete staging_path (fs_names g), fs_inodes g)) as Hb.
    { destruct Hg as [[Hn Hi] _]. split; [|exact Hi]. intros p Hp. simpl. rewrite lookup_delete_ne by done. by apply Hn. }
    apply (at_phase_publish before); [done|done|by left]. }
  destruct (fs_faults f) as [|[] rest]; [by apply Hrm|exact Hf|].
  by apply Hrm.
Qed.

(** Opening the canonical path finds the new inode. *)
Lemma reopen_existing_triple :
  triple (at_phase after) (open_existing_file canonical_path (sg_slot_count sg) (sg_hash sg))
    (fun w f => at_phase after f /\ (w_identity w = new_inode /\ w_path w = canonical_path /\ w_slot_count w = sg_slot_count sg))
    (at_phase after).
Proof.
  unfold open_existing_file.
  eapply triple_bind; [by apply triple_syscall; [apply at_phase_fault_free|]|intros []; cbv beta].
  eapply triple_bind; [apply triple_get|intros f0]. cbv beta. intros f [-> Hf].
  pose proof Hf as [(Hc & _ & _ & (m & Hm & _) & _) _]. simpl in Hc, Hm.
  unfold file_at. rewrite Hc, Hm. unfold st_lift.
  destruct (open_existing _ _ _ _) as [w|e|] eqn:Eo; [|done|by apply open_existing_no_panic in Eo].
  by apply open_existing_handle in Eo as (? & ? & ? & _).
Qed.

End Publication.

Lemma at_start_refl sg reads epoch staging_sequence generation fs0 : at_start sg reads epoch staging_sequence generation fs0 fs0.
Proof. split_and!; [|done|done]. split; [by split|]. exists []. by rewrite app_nil_r. Qed.

(** ** The point plane *)

Definition point_spec (fx_hash : list (Z * by_kind Z) -> Z) (config : ShmRuntimeConfig) (manifest : ChannelPointManifest) : SegmentSpec :=
  mkSpec (cfg_path config) (cfg_max_slots config) (mf_slot_count manifest) (layout_hash fx_hash manifest).

(** The value the snapshot holds for a slot. *)
Definition snapshot_read (snapshot : option (option (list Z))) (i : nat) : option SlotRead :=
  match snapshot with
  | Some (Some bytes) => match Snapshot.load bytes with Ok img => mjoin (si_slots img !! i) | _ => None end
  | _ => None
  end.

(** What the caller gets: a writer on the new inode. *)
Definition published (config : ShmRuntimeConfig) (manifest : ChannelPointManifest) (staging_sequence generation : Z) (fs0 : Fs)
    (g : ShmWriterGeneration) : Prop :=
  let aw := gen_acquisition g in
  w_identity (aw_writer aw) = new_inode (point_spec (fun _ => 0) config manifest) staging_sequence fs0 /\ w_path (aw_writer aw) = cfg_path config /\
  w_slot_count (aw_writer aw) = mf_slot_count manifest /\ aw_manifest aw = manifest /\
  aw_expected_generation aw = generation.

Section PointPublication.
Context (fx_hash : list (Z * by_kind Z) -> Z) (config : ShmRuntimeConfig) (manifest : ChannelPointManifest).
Context (snapshot : option (option (list Z))) (epoch staging_sequence generation : Z) (fs0 : Fs).
Context (Hwf : wf_fs fs0) (Hmax : fits 32 (cfg_max_slots config)).

Notation sg := (point_spec fx_hash config manifest).
Notation phase := (at_phase sg (snapshot_read snapshot) epoch staging_sequence generation fs0).
Notation before := (before sg staging_sequence fs0).
Notation after := (after sg (snapshot_read snapshot) epoch staging_sequence generation fs0).
Notation staged := (staged sg epoch staging_sequence generation fs0).
Notation named := (named sg staging_sequence fs0).
Notation new_inode := (new_inode sg staging_sequence fs0).
Notation live := (live sg staging_sequence fs0).

Lemma restore_triple bytes w :
  snapshot = Some bytes -> w_identity w = new_inode -> w_slot_count w = mf_slot_count manifest ->
  triple (phase (staged (fun _ => None))) (restore_exact_snapshot fx_hash w bytes manifest)
    (fun _ => phase (staged (snapshot_read snapshot))) (phase before).
Proof.
  intros Hsnap Hid Hcount f Hf. pose proof Hf as [(Hb & Hn & m & Hm & (Hh & Hl & Ht & Hs)) _].
  assert (phase before f) as Hbf by (revert Hf; apply at_phase_weaken; by intros [? _]).
  unfold restore_exact_snapshot, st_bind, port, st_lift.
  destruct bytes as [bytes|]; [|done]. cbn [ok_or obind].
  destruct (Snapshot.load bytes) as [img|e|] eqn:El; [|done|by apply load_no_panic in El].
  destruct (_ || _) eqn:Eg; [done|]. bool_facts. apply Nat.eqb_eq in H.
  unfold mapping_of. rewrite Hid. cbn [fs_view snd] in Hm. rewrite Hm. pose proof (load_slots_length _ _ El) as Hlen.
  destruct (restore_slots_spec (si_slots img) 0 w m) as (w' & hb & ss & -> & Hid' & Hls & Hss); [lia|].
  cbn [st_modify st_ret]. apply (at_phase_weaken _ _ _ _ _ _ (fun v => named v /\ v.2 !! new_inode =
    Some (ISegment (mkMapping (set_heartbeat hb (m_header m)) ss (m_tail m))))).
  - intros [[? ?] ?]. split_and!; [done|done|]. eexists. split; [done|]. split_and!; simpl; [|exact (eq_trans Hls Hl)|done|].
    + destruct Hh as [hb0 ->]. by exists hb.
    + intros i Hi. rewrite Hss, (Hs i Hi). unfold restored_at, snapshot_read. rewrite Hsnap, El. simpl.
      by rewrite Nat.sub_0_r.
  - apply (set_named_inode _ _ _ _ _ _ (staged (fun _ => None))); [done|]. intros (? & ? & _). by split.
Qed.

Lemma stage_and_swap_triple previous :
  (forall pw, previous = Some pw -> live pw) ->
  triple (at_start sg (snapshot_read snapshot) epoch staging_sequence generation fs0)
    (stage_and_swap fx_hash config manifest snapshot previous epoch (staging_path sg staging_sequence) (mkGuard (cfg_path config)) generation)
    (fun _ => phase after) (phase before).
Proof.
  intros Hp. unfold stage_and_swap.
  eapply triple_bind; [apply triple_port, (create_file_triple sg); done|intros w; cbv beta].
  apply triple_pure. intros Hcount. apply triple_pure. intros Hid.
  eapply (triple_bind _ _ (fun _ => phase (staged (snapshot_read snapshot)))).
  { destruct snapshot as [bytes|] eqn:Es; [rewrite <- Es; by apply restore_triple|].
    apply triple_ret. intros f. apply at_phase_weaken. intros (Hb & Hn & m & Hm & Hbuilt).
    split_and!; [done|done|]. exists m. by split. }
  intros _; cbv beta. by apply triple_port, (swap_in_triple sg).
Qed.

Lemma reopen_triple :
  triple (phase after)
    (let! w := port (open_existing_file (cfg_path config) (mf_slot_count manifest) (layout_hash fx_hash manifest)) in
     compose fx_hash w manifest)
    (fun g f => phase after f /\ published config manifest staging_sequence generation fs0 g) (phase after).
Proof.
  eapply triple_bind; [apply triple_port, (reopen_existing_triple sg)|].
  intros w. apply triple_pure. intros (Hid & Hpath & Hcount). unfold compose.
  assert (forall f, phase after f -> exists m, fs_inodes f !! w_identity w = Some (ISegment m)) as Hmap.
  { intros f [(_ & _ & _ & (m & Hm & _) & _) _]. exists m. by rewrite Hid. }
  eapply (triple_bind _ _ (fun aw f => phase after f /\ aw = mkAcquisition w manifest generation)).
  - unfold acquisition_new. eapply triple_bind; [by apply triple_port, mapping_of_triple|intros m; cbv beta].
    apply triple_ret. intros f [Hf Hm]. split; [done|].
    destruct Hf as [(_ & _ & _ & (m' & Hm' & ([hb Hh] & _)) & _) _]. simpl in Hm'.
    rewrite Hid, Hm' in Hm. simplify_eq. by rewrite Hh.
  - intros aw. apply triple_pure. intros ->.
    eapply triple_bind; [apply (validate_generation_triple _ (phase after)); [apply at_phase_fault_free|done]|intros []; cbv beta].
    apply triple_ret. intros f [Hf _]. split; [done|]. by split_and!.
Qed.

Lemma publish_triple gate_poisoned previous :
  (forall pw, previous = Some pw -> live pw) ->
  triple (at_start sg (snapshot_read snapshot) epoch staging_sequence generation fs0)
    (publish_generation fx_hash config manifest snapshot gate_poisoned previous epoch staging_sequence generation)
    (fun g f => phase after f /\ published config manifest staging_sequence generation fs0 g) (fun f => phase before f \/ phase after f).
Proof.
  intros Hp. unfold publish_generation.
  eapply triple_bind; [apply triple_ensure; intros f [? _]; by left|intros []]. apply triple_pure. intros _.
  eapply (triple_bind _ _ (fun a f => at_start sg (snapshot_read snapshot) epoch staging_sequence generation fs0 f /\ a = mkGuard (cfg_path config))).
  { apply triple_port. unfold acquire. eapply triple_bind; [apply triple_syscall; [by intros f fl H|by intros f [? _]; left]|].
    intros []. by apply triple_ret. }
  intros a. apply triple_pure. intros ->.
  eapply triple_bind.
  { eapply triple_on_err; [by apply stage_and_swap_triple|]. intros f Hf. left. by apply (remove_staging sg). }
  intros []; cbv beta. eapply triple_conseq; [apply reopen_triple|done|done|]. intros f Hf. by right.
Qed.

End PointPublication.

(** ** Claims *)

(** C8. Publishing a generation is atomic, whatever system call fails and
    wherever the process dies: in every visible state since the start the
    canonical path names the old segment untouched, or the old segment with
    its generation marked unstable (while the new one is already complete), or
    the complete new segment, and in the last case the old one is unstable, so
    a mapping of it is refused from the moment of the rename on. A failed call
    leaves the old segment exactly as it was, or the new one published; the
    call never panics and a successful one returns a writer on the new
    segment. *)
Theorem publication_atomic fx_hash config manifest snapshot gate_poisoned previous epoch staging_sequence generation fs0 f' r :
  wf_fs fs0 -> fits 32 (cfg_max_slots config) ->
  (forall pw, previous = Some pw -> live (point_spec fx_hash config manifest) staging_sequence fs0 pw) ->
  publish_generation fx_hash config manifest snapshot gate_poisoned previous epoch staging_sequence generation fs0 = (f', r) ->
  let sg := point_spec fx_hash config manifest in
  let before := before sg staging_sequence fs0 in
  let after := after sg (snapshot_read snapshot) epoch staging_sequence generation fs0 in
  (exists vs, fs_log f' = fs_log fs0 ++ vs /\
     Forall (coherent sg (snapshot_read snapshot) epoch staging_sequence generation fs0) vs) /\
  match r with
  | Ok g => after (fs_view f') /\ published config manifest staging_sequence generation fs0 g
  | Err _ => before (fs_view f') \/ after (fs_view f')
  | Panic => False
  end.
Proof.
  intros Hwf Hmax Hp Hrun sg before after.
  pose proof (publish_triple fx_hash config manifest snapshot epoch staging_sequence generation fs0 Hwf Hmax
    gate_poisoned previous Hp fs0 (at_start_refl _ _ _ _ _ _)) as H. rewrite Hrun in H.
  destruct r as [g|e|]; [destruct H as [[Ha Hl] Hg]|destruct H as [[Hb Hl]|[Ha Hl]]|done]; auto.
Qed.

(** A published segment, and a rebuild of it through its writer. *)
Definition sample_mapping : Mapping :=
  mkMapping (mkHeader UNIFIED_MAGIC UNIFIED_VERSION 16 7 0 0 0 (layout_hash sample_fx sample_manifest) 100 3)
    (replicate 16 slot_new) 0.
Definition sample_writer : SlotWriter := mkWriter (cfg_path sample_config) 16 7 0 (new_dirty_words 7).
Definition sample_fs : Fs :=
  mkFs {[cfg_path sample_config := 0%nat]} {[0%nat := ISegment sample_mapping]} 1 [] [].
Definition sample_run : Fs * outcome PortErrorKind ShmWriterGeneration :=
  publish_generation sample_fx sample_config sample_manifest None false (Some sample_writer) 9 5 200 sample_fs.

Lemma sample_fs_wf : wf_fs sample_fs.
Proof.
  split; intros *; unfold sample_fs; simpl; rewrite !lookup_singleton_Some; [naive_solver|].
  intros [_ <-]. split; [lia|]. by rewrite lookup_singleton_eq.
Qed.

Lemma publication_atomic_witness :
  is_ok sample_run.2 = true /\
  exists vs, fs_log sample_run.1 = [] ++ vs /\
    Forall (coherent (point_spec sample_fx sample_config sample_manifest) (snapshot_read None) 9 5 200 sample_fs) vs.
Proof.
  split; [by vm_compute|].
  refine (proj1 (publication_atomic sample_fx sample_config sample_manifest None false (Some sample_writer) 9 5 200 sample_fs
    sample_run.1 sample_run.2 sample_fs_wf _ _ _)); [by_decide| |apply surjective_pairing].
  intros pw [= <-]. split; [by vm_compute|]. exists sample_mapping. by apply lookup_singleton_eq.
Defined.
