(* ===== verification/Progress.v ===== *)
(** * Publication makes progress

    Total correctness for [Publish] when no system call fails: a publication
    that fits its segment succeeds, over an absent, an interrupted or a stable
    canonical segment. *)

From S2P Require Import Prelude Slot Bitmap Segment Snapshot Text BTree Manifest Publish Publication.

(** [total P c Q]: from [P], with no fault to come, [c] succeeds in [Q]. *)
Definition total {E A} (P : Fs -> Prop) (c : ST Fs E A) (Q : A -> Fs -> Prop) : Prop :=
  forall f, P f -> fs_faults f = [] -> exists f' a, c f = (f', Ok a) /\ fs_faults f' = [] /\ Q a f'.

Lemma total_bind {E A B} P (c : ST Fs E A) Q (k : A -> ST Fs E B) Q' :
  total P c Q -> (forall a, total (Q a) (k a) Q') -> total P (st_bind c k) Q'.
Proof.
  intros Hc Hk f Hf Hq. destruct (Hc f Hf Hq) as (f1 & a & Ha & Hq1 & HQ).
  destruct (Hk a f1 HQ Hq1) as (f2 & b & Hb & Hq2 & HQ2). exists f2, b. unfold st_bind. by rewrite Ha.
Qed.

(** A partial-correctness result strengthens a run known to succeed. *)
Lemma total_triple {E A} P (c : ST Fs E A) Q Q' R :
  total P c Q' -> triple P c Q R -> total P c (fun a f => Q a f /\ Q' a f).
Proof.
  intros Ht Hc f Hf Hq. destruct (Ht f Hf Hq) as (f' & a & Ha & Hq' & HQ'). specialize (Hc f Hf).
  rewrite Ha in Hc. by exists f', a.
Qed.

Lemma total_weaken {E A} (P P' : Fs -> Prop) (c : ST Fs E A) (Q Q' : A -> Fs -> Prop) :
  total P c Q -> (forall f, P' f -> P f) -> (forall a f, Q a f -> Q' a f) -> total P' c Q'.
Proof. intros Ht HP HQ f Hf Hq. destruct (Ht f (HP f Hf) Hq) as (f' & a & ? & ? & ?). eauto 10. Qed.

Lemma total_ret {E A} (P : Fs -> Prop) (a : A) (Q : A -> Fs -> Prop) :
  (forall f, P f -> Q a f) -> total P (st_ret (E := E) a) Q.
Proof. intros H f Hf Hq. exists f, a. auto. Qed.

Lemma total_lift {E A} (P : Fs -> Prop) (c : outcome E A) (Q : A -> Fs -> Prop) :
  (forall f, P f -> exists a, c = Ok a /\ Q a f) -> total P (st_lift c) Q.
Proof. intros H f Hf Hq. destruct (H f Hf) as (a & -> & HQ). by exists f, a. Qed.

Lemma total_ensure {E} (P : Fs -> Prop) b (e : E) : b = true -> total P (st_lift (ensure b e)) (fun _ => P).
Proof. intros ->. apply total_lift. intros f Hf. by exists tt. Qed.

Lemma total_get {E} (P : Fs -> Prop) : total P (st_get (E := E)) (fun a f => a = f /\ P f).
Proof. intros f Hf Hq. by exists f, f. Qed.

Lemma total_modify {E} (P : Fs -> Prop) g (Q : unit -> Fs -> Prop) :
  (forall f, fs_faults (g f) = fs_faults f) -> (forall f, P f -> Q tt (g f)) -> total P (st_modify (E := E) g) Q.
Proof. intros Hg H f Hf Hq. exists (g f), tt. rewrite Hg. auto. Qed.

Lemma total_port {A} P (c : FsM A) Q : total P c Q -> total P (port c) Q.
Proof. intros Hc f Hf Hq. destruct (Hc f Hf Hq) as (f' & a & Ha & ? & ?). exists f', a. unfold port. by rewrite Ha. Qed.

Lemma total_syscall (P : Fs -> Prop) : total P syscall (fun _ => P).
Proof. intros f Hf Hq. exists f, tt. unfold syscall. by rewrite Hq. Qed.

Lemma total_mapping (P : Fs -> Prop) w :
  (forall f, P f -> exists m, fs_inodes f !! w_identity w = Some (ISegment m)) ->
  total P (mapping_of w) (fun m f => P f /\ fs_inodes f !! w_identity w = Some (ISegment m)).
Proof. intros H f Hf Hq. destruct (H f Hf) as [m Hm]. exists f, m. unfold mapping_of. by rewrite Hm. Qed.

Lemma total_validate_path (P : Fs -> Prop) w :
  (forall f, P f -> fs_names f !! w_path w = Some (w_identity w)) ->
  total P (validate_authoritative_path w) (fun _ => P).
Proof.
  intros H. unfold validate_authoritative_path. eapply total_bind; [apply total_syscall|intros []; cbv beta].
  eapply total_bind; [apply total_get|intros f0; cbv beta]. intros f [-> Hf] Hq. rewrite (H f Hf), Nat.eqb_refl.
  by exists f, tt.
Qed.

Lemma total_on_err {E A} P (c : ST Fs E A) h Q : total P c Q -> total P (on_err c h) Q.
Proof. intros Hc f Hf Hq. destruct (Hc f Hf Hq) as (f' & a & Ha & ? & ?). exists f', a. unfold on_err. by rewrite Ha. Qed.

(** A mapping with room for exactly its capacity passes the layout check. *)
Lemma validate_exact h ss max_slots slot_count :
  length ss = Z.to_nat max_slots -> (slot_count <= Z.to_nat max_slots)%nat ->
  validate_mapping_layout (mapped_len (mkMapping h ss 0)) max_slots slot_count = Ok tt.
Proof.
  intros Hl Hle. unfold validate_mapping_layout, mapped_len, calculate_file_size. cbn [m_slots m_tail]. rewrite Hl.
  by do 2 (split_if; [lia|]).
Qed.

(** Creating the staging file. *)
Lemma total_create_file path max_slots slot_count hash epoch generation :
  (slot_count <= Z.to_nat max_slots)%nat ->
  total (fun _ => True) (create_file path max_slots slot_count hash epoch generation) (fun _ _ => True).
Proof.
  intros Hle. unfold create_file. eapply total_bind; [apply total_ensure, Nat.leb_le, Hle|intros []; cbv beta].
  eapply total_bind; [apply total_syscall|intros []; cbv beta].
  eapply (total_bind _ _ (fun _ _ => True)).
  { intros f _ Hq. unfold open_truncated. destruct (fs_names f !! path); eexists _, _; by split_and!. }
  intros id. eapply total_bind; [apply total_syscall|intros []; cbv beta].
  eapply (total_bind _ _ (fun _ _ => True)); [by apply total_modify|intros []; cbv beta].
  eapply total_bind; [apply total_syscall|intros []; cbv beta].
  eapply (total_bind _ _ (fun _ _ => True)).
  { apply total_lift. intros f _. unfold create_at_epoch.
    destruct (Nat.ltb_spec (Z.to_nat max_slots) slot_count); [lia|].
    unfold writer_from_mmap. rewrite validate_exact by (done || apply length_replicate).
    cbn [obind]. eexists. by split. }
  intros [w m]. eapply (total_bind _ _ (fun _ _ => True)); [by apply total_modify|intros []; cbv beta].
  eapply total_bind; [apply total_syscall|intros []; cbv beta]. by apply total_ret.
Qed.

Section Progress.
Context (fx_hash : list (Z * by_kind Z) -> Z) (config : ShmRuntimeConfig) (manifest : ChannelPointManifest).
Context (epoch staging_sequence generation : Z) (fs0 : Fs).
Context (Hwf : wf_fs fs0) (Hmax : fits 32 (cfg_max_slots config)).
Context (Hcap : (mf_slot_count manifest <= Z.to_nat (cfg_max_slots config))%nat).
Context (Hgen : stable_generation generation = true).

Notation canonical := (cfg_path config).
Notation sg := (point_spec fx_hash config manifest).
Notation phase := (at_phase sg (snapshot_read None) epoch staging_sequence generation fs0).
Notation staged := (staged sg epoch staging_sequence generation fs0 (snapshot_read None)).

(** A writer whose inode is canonical and stable. *)
Definition swappable (w : SlotWriter) : Prop :=
  w_path w = canonical /\ fs_names fs0 !! canonical = Some (w_identity w) /\
  exists m, fs_inodes fs0 !! w_identity w = Some (ISegment m) /\
    stable_generation (h_writer_generation (m_header m)) = true.

(** What the canonical path may hold when no writer is at hand: nothing, or a
    segment a reader accepts. *)
Definition replaceable : Prop :=
  forall id, fs_names fs0 !! canonical = Some id -> exists m, fs_inodes fs0 !! id = Some (ISegment m) /\
    mapping_wf m /\ is_ok (reader_open (FMapped id m)) = true.

Lemma swappable_live w : swappable w -> live sg staging_sequence fs0 w.
Proof.
  intros (_ & Hn & m & Hm & _). split; [by apply (old_ne_new sg staging_sequence fs0 Hwf)|by exists m].
Qed.

(** A segment a reader accepts is opened for writing if its generation is stable. *)
Lemma reopen_accepted id m path :
  mapping_wf m -> is_ok (reader_open (FMapped id m)) = true ->
  stable_generation (h_writer_generation (m_header m)) = true ->
  exists w, open_existing (FMapped id m) path (Z.to_nat (h_slot_count (m_header m))) (h_routing_hash (m_header m)) = Ok w.
Proof.
  intros (_ & _ & Hsc) Hr Hs. unfold reader_open in Hr. cbn [header_snapshot hs_magic hs_version hs_max_slots hs_slot_count] in Hr.
  destruct (Z.eqb_spec (h_magic (m_header m)) UNIFIED_MAGIC) as [Hm|]; [|done].
  destruct (Z.eqb_spec (h_version (m_header m)) UNIFIED_VERSION) as [Hv|]; [|done]. cbn [negb] in Hr.
  unfold reader_from_mmap in Hr. destruct (validate_mapping_layout _ _ _) as [[]|e|] eqn:El; [|done..].
  eexists. apply (open_ok id m path (Z.to_nat (h_slot_count (m_header m)))); try done.
  unfold fits in Hsc. lia.
Qed.

Lemma total_open_canonical :
  replaceable ->
  total (phase staged) (open_canonical_for_replacement canonical (mkGuard canonical))
    (fun o f => phase staged f /\ match o with None => no_stable_old sg fs0 | Some w => swappable w end).
Proof.
  intros Hrep. unfold open_canonical_for_replacement.
  eapply total_bind; [apply total_ensure; unfold guards; by apply bool_decide_eq_true|intros []; cbv beta].
  eapply total_bind; [apply total_syscall|intros []; cbv beta].
  eapply total_bind; [apply total_get|intros f0; cbv beta]. intros f [-> Hf] Hq. pose proof Hf as [Hst _].
  pose proof (staged_canonical _ _ _ _ _ _ _ Hst) as Hc. unfold canonical_path in Hc. simpl in Hc.
  unfold file_at. rewrite Hc. destruct (fs_names fs0 !! canonical) as [id|] eqn:En.
  2: { exists f, None. split_and!; [done|done|done|]. intros id Hid. unfold canonical_path in Hid. simpl in Hid. congruence. }
  destruct (Hrep id En) as (m & Hm & Hmw & Hr).
  pose proof (staged_old _ _ _ _ _ _ _ id Hst (old_ne_new sg staging_sequence _ Hwf id En)) as Hi. simpl in Hi. rewrite Hi, Hm.
  destruct (reader_open (FMapped id m)) as [r|e|] eqn:Er; [|done..].
  unfold st_bind at 1, st_lift. cbn [header_snapshot hs_writer_generation hs_slot_count hs_routing_hash].
  destruct (stable_generation (h_writer_generation (m_header m))) eqn:Es; cbn [negb].
  - destruct (reopen_accepted id m canonical Hmw ltac:(by rewrite Er) Es) as [w Hw].
    pose proof (open_existing_handle _ _ _ _ _ _ Hw) as (Hwi & Hwp & _).
    exists f, (Some w). unfold st_bind, open_existing_file, validate_authoritative_path, st_bind, st_get, st_lift, st_ret, syscall.
    rewrite Hq. unfold file_at. rewrite Hc, Hi, Hm, Hw, Hq, Hwp, Hc, Hwi, Nat.eqb_refl.
    split_and!; [done|done|done|]. unfold swappable. rewrite Hwi. eauto.
  - exists f, None. split_and!; [done|done|done|]. intros id' Hid'. unfold canonical_path in Hid'. simpl in Hid'.
    rewrite En in Hid'. injection Hid' as <-. by exists (ISegment m).
Qed.

Lemma total_begin_swap w :
  swappable w ->
  total (phase staged) (begin_generation_swap w (mkGuard canonical)) (fun _ _ => True).
Proof.
  intros (Hp & Hn & m & Hm & Hs). unfold begin_generation_swap.
  eapply total_bind; [apply total_ensure; unfold guards; by apply bool_decide_eq_true|intros []; cbv beta].
  assert (forall f, phase staged f -> fs_names f !! w_path w = Some (w_identity w) /\
    fs_inodes f !! w_identity w = Some (ISegment m)) as Hst.
  { intros f [Hf _]. pose proof (staged_canonical _ _ _ _ _ _ _ Hf) as Hc. unfold canonical_path in Hc. simpl in Hc.
    pose proof (staged_old _ _ _ _ _ _ _ _ Hf (old_ne_new sg staging_sequence _ Hwf _ Hn)) as Hi. simpl in Hi.
    by rewrite Hp, Hc, Hi. }
  eapply total_bind; [apply total_validate_path; intros f Hf; by apply Hst|intros []; cbv beta].
  eapply total_bind; [apply total_mapping; intros f Hf; exists m; by apply Hst|intros m'; cbv beta].
  eapply (total_bind _ _ (fun _ f => fs_inodes f !! w_identity w = Some (ISegment m))).
  { apply total_lift. intros f [Hf Hm']. destruct (Hst f Hf) as [_ Hi]. rewrite Hi in Hm'. injection Hm' as <-.
    rewrite Hs. by exists tt. }
  intros []; cbv beta. eapply (total_bind _ _ (fun _ _ => True)); [|intros []; by apply total_ret].
  intros f Hi Hq. unfold store_generation, st_bind, mapping_of, st_modify. rewrite Hi. eexists _, _. by split_and!.
Qed.

Lemma total_commit Ph :
  (forall f, phase Ph f -> is_Some (fs_names f !! staging_path sg staging_sequence)) ->
  total (phase Ph) (commit_generation_swap_locked (staging_path sg staging_sequence) canonical (mkGuard canonical))
    (fun _ _ => True).
Proof.
  intros Hs. unfold commit_generation_swap_locked.
  eapply total_bind; [apply total_ensure; unfold guards; by apply bool_decide_eq_true|intros []; cbv beta].
  eapply total_bind; [apply total_syscall|intros []; cbv beta].
  intros f Hf Hq. destruct (Hs f Hf) as [id Hid]. unfold rename. rewrite Hid. eexists _, _. by split_and!.
Qed.

Lemma total_reopen :
  total (phase (after sg (snapshot_read None) epoch staging_sequence generation fs0))
    (let! w := port (open_existing_file canonical (mf_slot_count manifest) (layout_hash fx_hash manifest)) in
     compose fx_hash w manifest) (fun _ _ => True).
Proof.
  intros f Hf Hq. pose proof Hf as [(Hc & _ & _ & (m & Hm & ([hb Hh] & Hl & Ht & _)) & _) _]. simpl in Hc, Hm.
  unfold canonical_path in Hc. simpl in Hc, Hl. cbn [sg_max_slots sg_slot_count sg_hash point_spec] in Hh.
  assert (m = mkMapping (m_header m) (m_slots m) 0) as Heta by (destruct m; simpl in Ht; by subst).
  destruct (open_ok (new_inode sg staging_sequence fs0) m canonical (mf_slot_count manifest)) as [_ Ho];
    [by rewrite Hh..|rewrite Heta; cbn [m_header]; rewrite Hh; by apply validate_exact|].
  rewrite Hh in Ho. cbn [h_writer_generation h_routing_hash h_max_slots] in Ho. specialize (Ho Hgen).
  unfold st_bind, port, open_existing_file, compose, acquisition_new, validate_generation, validate_authoritative_path,
    st_bind, st_get, st_lift, st_ret, mapping_of, syscall, port.
  rewrite Hq. unfold file_at. rewrite Hc, Hm, Ho. cbn [w_identity w_path aw_writer].
  rewrite Hm. cbn [aw_writer w_identity w_path]. rewrite Hq, Hc, Nat.eqb_refl, Hm.
  cbn [aw_expected_generation aw_manifest header_snapshot hs_writer_generation hs_routing_hash hs_slot_count]. rewrite Hh.
  cbn [h_writer_generation h_routing_hash h_slot_count]. rewrite !Z.eqb_refl, Hgen, Nat2Z.id, Nat.eqb_refl.
  eexists _, _. by split_and!.
Qed.

(** The writer at hand, or what the canonical path holds without one. *)
Definition ready (previous : option SlotWriter) : Prop :=
  match previous with Some pw => swappable pw | None => replaceable end.

Lemma total_stage_and_swap previous :
  ready previous ->
  total (at_start sg (snapshot_read None) epoch staging_sequence generation fs0)
    (stage_and_swap fx_hash config manifest None previous epoch (staging_path sg staging_sequence) (mkGuard canonical) generation)
    (fun _ _ => True).
Proof.
  intros Hready. unfold stage_and_swap.
  eapply (total_bind _ _ (fun _ => phase staged)).
  { eapply total_weaken; [eapply total_triple;
      [eapply total_weaken; [by apply total_port, total_create_file|done|done]
      |by apply triple_port, create_file_triple]|done|]. by intros w f [[[Hf _] _] _]. }
  intros w. eapply (total_bind _ _ (fun _ => phase staged)); [by apply total_ret|intros _; cbv beta].
  apply total_port. unfold swap_in. eapply total_bind; [apply total_syscall|intros []; cbv beta].
  eapply (total_bind _ _ (fun o f => phase staged f /\ match o with None => no_stable_old sg fs0 | Some w => swappable w end)).
  { destruct previous as [pw|]; [by apply total_ret|by apply total_open_canonical]. }
  intros [pw|] f [Hf Ho] Hq; revert f Hf Hq.
  - eapply (total_bind _ _ (fun inv f => exists m, phase (window sg (snapshot_read None) epoch staging_sequence generation fs0 (w_identity pw) m) f)).
    + eapply (total_bind _ _ (fun g f => exists m, phase (window sg (snapshot_read None) epoch staging_sequence generation fs0 (w_identity pw) m) f)).
      * eapply total_weaken; [eapply total_triple; [by apply total_begin_swap
          |by apply begin_swap_triple, swappable_live]|done|]. intros g f [(m & Hf & _) _]. by exists m.
      * intros g. by apply total_ret.
    + intros inv f [m Hf] Hq. revert f Hf Hq. apply total_on_err, total_commit.
      intros f [(_ & _ & _ & _ & _ & _ & Hs & _) _]. by eexists.
  - eapply (total_bind _ _ (fun _ => phase staged)); [by apply total_ret|].
    intros inv. apply total_on_err, total_commit. intros f [(_ & Hs & _) _]. by eexists.
Qed.

End Progress.

(** C27. A publication that restores no snapshot, under a gate that is not
    poisoned, succeeds whenever no system call fails: with a live count within
    the capacity, over a canonical path that is free, holds a segment a reader
    accepts (an interrupted replacement's unstable one included), or is held by
    the writer at hand. *)
Theorem publication_succeeds fx_hash config manifest previous epoch staging_sequence sequence wall fs0 :
  wf_fs fs0 -> fs_faults fs0 = [] -> fits 32 (cfg_max_slots config) ->
  (mf_slot_count manifest <= Z.to_nat (cfg_max_slots config))%nat -> ready config fs0 previous ->
  exists f' g, publish_generation fx_hash config manifest None false previous epoch staging_sequence
    (new_generation sequence wall) fs0 = (f', Ok g).
Proof.
  intros Hwf Hq Hmax Hcap Hready. set (generation := new_generation sequence wall).
  pose proof (new_generation_stable sequence wall) as Hgen. fold generation in Hgen.
  assert (forall pw, previous = Some pw -> live (point_spec fx_hash config manifest) staging_sequence fs0 pw) as Hlive.
  { intros pw ->. by apply swappable_live. }
  pose proof (total_stage_and_swap fx_hash config manifest epoch staging_sequence generation fs0 Hwf Hmax Hcap Hgen previous Hready) as Hswap.
  eapply total_triple in Hswap; [|by apply stage_and_swap_triple].
  destruct (Hswap fs0 (at_start_refl _ _ _ _ _ _) Hq) as (f1 & [] & Hs & Hq1 & Ha & _).
  destruct (total_reopen fx_hash config manifest epoch staging_sequence generation fs0 Hcap Hgen f1 Ha Hq1) as (f2 & g & Hg & _).
  exists f2, g. unfold publish_generation, st_bind at 1, st_lift. cbn [ensure negb].
  unfold acquire, port at 1, st_bind at 1 2, syscall. rewrite Hq. cbn [st_ret].
  unfold on_err, st_bind at 1. unfold staging_path in Hs. cbn [sg_path point_spec] in Hs. rewrite Hs. exact Hg.
Qed.

Lemma publication_succeeds_witness :
  exists f' g, publish_generation sample_fx sample_config sample_manifest None false (Some sample_writer) 9 5
    (new_generation 2 1000) sample_fs = (f', Ok g).
Proof.
  apply publication_succeeds; [apply sample_fs_wf|done|by_decide|vm_compute; lia|].
  split_and!; [done|by apply lookup_singleton_eq|]. exists sample_mapping. split; [by apply lookup_singleton_eq|done].
Defined.
