(* ===== verification/Acquisition.v ===== *)
(** * The acquisition writer

    [extensions/shm-bridge/src/acquisition_writer.rs] and the sample types of
    [crates/aether-domain/src/point.rs]: validated batches of telemetry and
    status samples written into the authoritative segment. A batch runs under
    the shared authority lease; [observe] is what the observer hook (or a
    process that ignores the lease) does to the file system between the last
    write and the final check. *)

From S2P Require Import Prelude Slot Bitmap Segment Snapshot Text BTree Manifest Publish Publication.

(** ** Samples *)

(** The point and command variants of [enum DomainError]. *)
Inductive DomainError :=
| PointNotWritable (k : PointKind) | PointNotAcquisitionOwned (k : PointKind) | PointNotCommandOwned (k : PointKind)
| NonFiniteAcquiredValue | NonFiniteAcquiredRawValue
| NonFiniteCommandValue | InvalidCommandWindow | CommandExpired
| InvalidCommandConstraints | CommandValueOutOfRange | CommandValueOffStep.

Record ChannelPointAddress := mkChannelPoint { cp_channel_id : Z; cp_kind : PointKind; cp_point_id : Z }.

Definition channel_point_new (channel_id : Z) (kind : PointKind) (point_id : Z)
  : outcome DomainError ChannelPointAddress :=
  if negb (is_acquisition_owned kind) then Err (PointNotAcquisitionOwned kind)
  else Ok (mkChannelPoint channel_id kind point_id).

Inductive PointQuality := Good | Uncertain | Bad | QUnavailable.

Record AcquiredPointSample := mkSample {
  sample_address : ChannelPointAddress;
  sample_value : Z;
  sample_raw : Z;
  sample_timestamp : Z;
  sample_quality : PointQuality
}.

Definition sample_new (address : ChannelPointAddress) (value raw timestamp : Z) (quality : PointQuality)
  : outcome DomainError AcquiredPointSample :=
  if negb (f64_is_finite value) then Err NonFiniteAcquiredValue
  else if negb (f64_is_finite raw) then Err NonFiniteAcquiredRawValue
  else Ok (mkSample address value raw timestamp quality).

(** [PhysicalPointAddress::new] on a sample's address. *)
Definition physical (s : AcquiredPointSample) : PhysicalPointAddress :=
  let a := sample_address s in mkPhysical (cp_channel_id a) (cp_kind a) (cp_point_id a).

(** ** [commit_batch] *)

Section Commit.
Context (fx_hash : list (Z * by_kind Z) -> Z).

(** The validation loop; [seen] is the set of addresses so far. *)
Fixpoint resolve (manifest : ChannelPointManifest) (live : nat) (seen : list PhysicalPointAddress)
    (samples : list AcquiredPointSample) : outcome PortErrorKind (list (nat * AcquiredPointSample)) :=
  match samples with
  | [] => Ok []
  | sample :: rest =>
      let? _ := ensure (is_acquisition_owned (cp_kind (sample_address sample))) PRejected in
      let? _ := ensure (negb (bool_decide (physical sample ∈ seen))) PInvalidData in
      let? slot := ok_or PNotFound (slot_for manifest (physical sample)) in
      let? _ := ensure (slot <? live)%nat PConflict in
      let? resolved := resolve manifest live (physical sample :: seen) rest in
      Ok ((slot, sample) :: resolved)
  end.

(** [for &(slot, sample) in &resolved { writer.set_direct(..) }]. *)
Fixpoint write_resolved (resolved : list (nat * AcquiredPointSample)) (w : SlotWriter) (m : Mapping)
  : outcome DataplaneError (SlotWriter * Mapping) :=
  match resolved with
  | [] => Ok (w, m)
  | (slot, s) :: rest =>
      let? (w', m') := set_direct w m slot (sample_value s) (sample_raw s) (sample_timestamp s) in
      write_resolved rest w' m'
  end.

Definition with_writer (w : SlotWriter) (aw : ShmAcquisitionStateWriter) : ShmAcquisitionStateWriter :=
  mkAcquisition w (aw_manifest aw) (aw_expected_generation aw).

Definition AcqM : Type -> Type := ST (Fs * ShmAcquisitionStateWriter) PortErrorKind.

Definition on_fs {A} (c : ShmAcquisitionStateWriter -> PortM A) : AcqM A := fun s =>
  let '(f, r) := c s.2 s.1 in ((f, s.2), r).

(** The hook changes what paths and inodes hold. *)
Definition run_observer (observe : View -> View) (f : Fs) : Fs :=
  let v := observe (fs_view f) in mkFs v.1 v.2 (fs_next f) (fs_faults f) (fs_log f).

(** The batch behind the first authority check. The result is the count
    returned and the points the observer is told of. *)
Definition write_batch (observe : View -> View) (samples : list AcquiredPointSample)
  : AcqM (nat * list (nat * AcquiredPointSample)) :=
  let! m := on_fs (fun aw => port (mapping_of (aw_writer aw))) in
  let header := header_snapshot (m_header m) in
  let! (_, aw) := st_get in
  let! resolved := st_lift (resolve (aw_manifest aw) (Z.to_nat (hs_slot_count header)) [] samples) in
  let! (w', m') := on_fs (fun aw => port (st_lift (write_resolved resolved (aw_writer aw) m))) in
  let! _ := st_modify (fun s => (set_inode (w_identity (aw_writer s.2)) (ISegment m') s.1, with_writer w' s.2)) in
  let! _ := st_modify (fun s => (run_observer observe s.1, s.2)) in
  let! _ := on_fs (validate_generation fx_hash) in
  st_ret (length samples, resolved).

Definition commit_batch (gate_poisoned : bool) (observe : View -> View) (samples : list AcquiredPointSample)
  : AcqM (nat * list (nat * AcquiredPointSample)) :=
  let! _ := st_lift (ensure (negb gate_poisoned) PPermanent) in
  let! _ := on_fs (fun _ => port syscall) in (* acquire_authority_read *)
  let! _ := on_fs (validate_generation fx_hash) in
  write_batch observe samples.

(** ** Validation *)

Lemma resolve_ok manifest live seen samples resolved :
  resolve manifest live seen samples = Ok resolved ->
  resolved.*2 = samples /\
  Forall (fun sx => slot_for manifest (physical sx.2) = Some sx.1 /\ (sx.1 < live)%nat /\
                    is_acquisition_owned (cp_kind (sample_address sx.2)) = true) resolved /\
  NoDup (physical <$> samples) /\ (forall s, s ∈ samples -> physical s ∉ seen).
Proof.
  revert seen resolved. induction samples as [|s samples IH]; intros seen resolved; cbn [resolve].
  { intros [= <-]. split_and!; [done|constructor|constructor|set_solver]. }
  intros (u1 & H1 & (u2 & H2 & (slot & H3 & (u3 & H4 & (r & Hr & [= <-])%obind_ok)%obind_ok)%obind_ok)%obind_ok)%obind_ok.
  apply ensure_ok in H1, H2, H4. apply ok_or_ok in H3. bool_facts. apply Nat.ltb_lt in H4.
  destruct (IH _ _ Hr) as (<- & Hf & Hn & Hs). split_and!.
  - done.
  - constructor; [done|exact Hf].
  - rewrite fmap_cons. apply list.NoDup_cons. split; [|done].
    intros (x & Hx & Hin)%list_elem_of_fmap. apply (Hs x Hin). rewrite <- Hx. set_solver.
  - intros x [->|Hin]%elem_of_cons; [done|]. specialize (Hs x Hin). set_solver.
Qed.

Lemma resolve_no_panic manifest live seen samples : resolve manifest live seen samples <> Panic.
Proof.
  revert seen. induction samples as [|s samples IH]; intros seen; cbn [resolve]; [done|].
  destruct (ensure _ PRejected) eqn:E1; [|done|by unfold ensure in E1; split_if_in E1].
  cbn [obind]. destruct (ensure _ PInvalidData) eqn:E2; [|done|by unfold ensure in E2; split_if_in E2].
  cbn [obind]. destruct (slot_for _ _); [|done]. cbn [ok_or obind].
  destruct (ensure _ PConflict) eqn:E3; [|done|by unfold ensure in E3; split_if_in E3].
  cbn [obind]. specialize (IH (physical s :: seen)). by destruct (resolve _ _ _ _).
Qed.

(** ** Writing *)

Lemma write_resolved_spec resolved w m :
  Forall (fun sx => (sx.1 < w_slot_count w)%nat) resolved -> NoDup (resolved.*1) ->
  exists w' hb ss, write_resolved resolved w m = Ok (w', mkMapping (set_heartbeat hb (m_header m)) ss (m_tail m)) /\
    w_identity w' = w_identity w /\ w_path w' = w_path w /\ w_slot_count w' = w_slot_count w /\
    (forall slot s, (slot, s) ∈ resolved ->
       ss !! slot = set (sample_value s) (sample_raw s) (sample_timestamp s) <$> m_slots m !! slot) /\
    (forall i, i ∉ resolved.*1 -> ss !! i = m_slots m !! i).
Proof.
  revert w m. induction resolved as [|[slot s] resolved IH]; intros w m Hl Hn; cbn [write_resolved].
  - exists w, (h_writer_heartbeat (m_header m)), (m_slots m). rewrite set_heartbeat_same. destruct m. set_solver.
  - apply Forall_cons_1 in Hl as [Hs Hl]. rewrite fmap_cons in Hn. apply list.NoDup_cons in Hn as [Hni Hn]. cbn [fst] in *.
    unfold set_direct. replace (slot <? w_slot_count w)%nat with true by (symmetry; apply Nat.ltb_lt; lia). cbn [obind].
    edestruct IH as (w' & hb & ss & Heq & Hid & Hp & Hc & H1 & H2); [| |rewrite Heq].
    { exact Hl. }
    { exact Hn. }
    exists w', hb, ss. cbn [store_slot m_header m_tail m_slots] in *. rewrite set_heartbeat_twice.
    split_and!; [done|done|done|done| |].
    + intros slot' s' [[= -> ->]|Hin]%elem_of_cons.
      * rewrite H2 by done. by rewrite list_lookup_alter_eq.
      * rewrite (H1 _ _ Hin). rewrite list_lookup_alter_ne; [done|].
        intros ->. apply Hni, list_elem_of_fmap. by exists (slot', s').
    + intros i Hi. rewrite fmap_cons in Hi. apply not_elem_of_cons in Hi as [Hne Hi]. rewrite H2 by done.
      by rewrite list_lookup_alter_ne by done.
Qed.

(** Every sample is in its slot, every other slot is as before. *)
Definition batch_effect (manifest : ChannelPointManifest) (samples : list AcquiredPointSample) (m m' : Mapping) : Prop :=
  (exists hb, m_header m' = set_heartbeat hb (m_header m)) /\
  (forall s, s ∈ samples -> exists slot old, slot_for manifest (physical s) = Some slot /\
     m_slots m !! slot = Some old /\
     m_slots m' !! slot = Some (set (sample_value s) (sample_raw s) (sample_timestamp s) old)) /\
  (forall i, (forall s, s ∈ samples -> slot_for manifest (physical s) <> Some i) -> m_slots m' !! i = m_slots m !! i).

Definition sample_fits (s : AcquiredPointSample) : Prop := address_fits (physical s).

Lemma resolved_slots_NoDup manifest live samples resolved :
  manifest_ok manifest -> Forall sample_fits samples ->
  resolve manifest live [] samples = Ok resolved -> NoDup (resolved.*1).
Proof.
  intros Hm Hs (Heq & Hf & Hn & _)%resolve_ok. subst samples.
  assert (NoDup resolved) as Hnr by (by eapply NoDup_fmap_1, NoDup_fmap_1).
  apply NoDup_fmap_2_strong; [|done]. intros [s x] [s' y] Hx Hy Heq. cbn [fst] in Heq. subst s'.
  assert (physical x = physical y) as Hphys.
  { destruct (Forall_elem Hf Hx) as (H1 & _), (Forall_elem Hf Hy) as (H2 & _). cbn [fst snd] in *.
    assert (0 <= pa_point_id (physical x) /\ 0 <= pa_point_id (physical y)) as [? ?].
    { rewrite Forall_fmap in Hs. pose proof (Forall_elem Hs Hx) as [_ Hx1]. pose proof (Forall_elem Hs Hy) as [_ Hy1].
      unfold fits in *. simpl in *. lia. }
    by apply (manifest_slot_separate manifest _ _ s s Hm). }
  apply list_elem_of_lookup in Hx as [i Hi], Hy as [j Hj].
  assert (i = j) as ->; [|rewrite Hi in Hj; congruence].
  apply (NoDup_lookup _ i j (physical x) Hn); rewrite !list_lookup_fmap, ?Hi, ?Hj; simpl; by rewrite ?Hphys.
Qed.

Lemma write_batch_effect manifest samples resolved w m :
  manifest_ok manifest -> Forall sample_fits samples -> w_slot_count w = mf_slot_count manifest ->
  backed (mf_slot_count manifest) m ->
  resolve manifest (mf_slot_count manifest) [] samples = Ok resolved ->
  exists w' m', write_resolved resolved w m = Ok (w', m') /\ w_identity w' = w_identity w /\ w_path w' = w_path w /\
    w_slot_count w' = w_slot_count w /\ batch_effect manifest samples m m'.
Proof.
  intros Hm Hs Hc Hb Hr. pose proof (resolved_slots_NoDup _ _ _ _ Hm Hs Hr) as Hn.
  apply resolve_ok in Hr as (<- & Hf & _ & _).
  destruct (write_resolved_spec resolved w m) as (w' & hb & ss & Heq & Hid & Hp & Hcnt & H1 & H2); [|done|].
  { apply (Forall_weaken _ Hf). intros sx (_ & ? & _). lia. }
  eexists w', _. split_and!; [exact Heq|done..|]. split_and!; simpl.
  - by exists hb.
  - intros s ([slot s'] & -> & Hin)%list_elem_of_fmap. cbn [snd].
    destruct (Forall_elem Hf Hin) as (Hslot & Hlt & _). cbn [fst snd] in *.
    destruct (lookup_lt_is_Some_2 (m_slots m) slot) as [old Hold]; [unfold backed in Hb; lia|].
    exists slot, old. split_and!; [done|done|]. by rewrite (H1 _ _ Hin), Hold.
  - intros i Hi. apply H2. intros ([slot s] & -> & Hin)%list_elem_of_fmap.
    apply (Hi s); [apply list_elem_of_fmap; by exists (slot, s)|]. by apply (Forall_elem Hf Hin).
Qed.

(** ** The whole call *)

Definition same_fs (g f : Fs) : Prop :=
  fs_view f = fs_view g /\ fs_next f = fs_next g /\ fs_log f = fs_log g.

Lemma same_fs_fault_free g : fault_free (same_fs g).
Proof. intros f fl H. exact H. Qed.

Definition mapped (aw : ShmAcquisitionStateWriter) (v : View) : Prop :=
  exists m, v.2 !! w_identity (aw_writer aw) = Some (ISegment m).

Lemma authoritative_same aw g f : same_fs g f -> authoritative fx_hash aw f -> authoritative fx_hash aw g.
Proof. intros (Hv & _) H. unfold authoritative in *. unfold fs_view in Hv. injection Hv as Hn Hi. by rewrite Hn, Hi in H. Qed.

(** [validate_generation] only looks. *)
Lemma validate_generation_same aw f :
  mapped aw (fs_view f) ->
  match validate_generation fx_hash aw f with
  | (f', Ok _) => same_fs f f' /\ authoritative fx_hash aw f
  | (f', Err _) => same_fs f f'
  | (_, Panic) => False
  end.
Proof.
  intros [m Hm]. pose proof (validate_generation_triple fx_hash (same_fs f) aw (same_fs_fault_free f)) as H.
  specialize (H ltac:(intros f' (Hv & _); exists m; unfold fs_view in Hv; injection Hv as _ ->; exact Hm) f ltac:(by split_and!)).
  destruct (validate_generation fx_hash aw f) as [f' [[]|e|]]; [|done|done].
  destruct H as [Hs Ha]. split; [done|]. by eapply authoritative_same.
Qed.

Lemma syscall_same f : same_fs f (syscall f).1 /\ (syscall f).2 <> Panic.
Proof. unfold syscall. destruct (fs_faults f) as [|[] rest]; simpl; by split_and!. Qed.

(** The slots of command-owned points. *)
Definition commands_untouched (manifest : ChannelPointManifest) (m m' : Mapping) : Prop :=
  forall a i, address_fits a -> is_acquisition_owned (pa_kind a) = false ->
    slot_for manifest a = Some i -> m_slots m' !! i = m_slots m !! i.

Lemma resolved_commands_untouched manifest live samples resolved m m' :
  manifest_ok manifest -> Forall sample_fits samples ->
  resolve manifest live [] samples = Ok resolved -> batch_effect manifest samples m m' ->
  commands_untouched manifest m m'.
Proof.
  intros Hm Hs (<- & Hf & _ & _)%resolve_ok (_ & _ & Ho) a i [_ Ha] Hk Hslot. apply Ho.
  intros s ([slot s'] & -> & Hin)%list_elem_of_fmap Hslot'. cbn [snd] in *.
  destruct (Forall_elem Hf Hin) as (_ & _ & Hacq). cbn [snd] in Hacq.
  rewrite Forall_fmap in Hs. pose proof (Forall_elem Hs Hin) as [_ Hp]. simpl in Hp.
  destruct (manifest_slot_separate manifest (physical s') a i i Hm) as [He _]; [unfold fits in *; simpl; lia..|done|done|].
  rewrite <- (He eq_refl) in Hk. simpl in Hk. congruence.
Qed.

Lemma run_observer_view observe f : fs_view (run_observer observe f) = observe (fs_view f).
Proof. symmetry. apply surjective_pairing. Qed.

(** What [write_batch] does when the segment is authoritative. *)
Lemma write_batch_spec observe samples f aw m :
  manifest_ok (aw_manifest aw) -> Forall sample_fits samples ->
  w_slot_count (aw_writer aw) = mf_slot_count (aw_manifest aw) ->
  fs_inodes f !! w_identity (aw_writer aw) = Some (ISegment m) -> backed (mf_slot_count (aw_manifest aw)) m ->
  (forall v, mapped aw v -> mapped aw (observe v)) -> authoritative fx_hash aw f ->
  match write_batch observe samples (f, aw) with
  | (s', r) =>
    (s' = (f, aw) /\ exists e, r = Err e) \/
    (exists m', batch_effect (aw_manifest aw) samples m m' /\ commands_untouched (aw_manifest aw) m m' /\
       fs_view s'.1 = observe (fs_names f, <[w_identity (aw_writer aw) := ISegment m']> (fs_inodes f)) /\
       match r with
       | Ok (n, notified) => n = length samples /\ notified.*2 = samples /\ authoritative fx_hash s'.2 s'.1
       | Err _ => True
       | Panic => False
       end)
  end.
Proof.
  intros Hmok Hs Hc Hm Hb Hobs (_ & m0 & Hm0 & _ & _ & _ & Hcount). rewrite Hm in Hm0. injection Hm0 as <-.
  unfold write_batch, st_bind, st_lift, st_modify, st_get, st_ret, on_fs. cbn [fst snd].
  unfold port, mapping_of. rewrite Hm. cbn [header_snapshot hs_slot_count]. rewrite Hcount.
  destruct (resolve _ _ _ _) as [resolved|e|] eqn:Er; [|left; eauto|by apply resolve_no_panic in Er].
  destruct (write_batch_effect _ _ _ (aw_writer aw) m Hmok Hs Hc Hb Er) as (w' & m' & Hw & Hid & Hp & Hcnt & He).
  cbn [fst snd]. rewrite Hw. cbn [fst snd].
  pose proof (resolved_commands_untouched _ _ _ _ _ _ Hmok Hs Er He) as Hcu.
  set (f2 := run_observer observe _). set (aw2 := with_writer w' aw).
  assert (mapped aw2 (fs_view f2)) as Hmap.
  { unfold mapped. cbn [aw2 with_writer aw_writer]. rewrite Hid. apply Hobs. exists m'. simpl. by rewrite lookup_insert_eq. }
  pose proof (validate_generation_same aw2 f2 Hmap) as Hv.
  destruct (validate_generation fx_hash aw2 f2) as [f3 [[]|e|]]; [| |done]; right; exists m'; cbn [fst snd].
  - destruct Hv as [Hsame Ha]. split_and!; [done|done|destruct Hsame as [-> _]; by apply run_observer_view|done|by apply resolve_ok in Er as (? & _)|].
    unfold authoritative in *. destruct Hsame as [Hview _]. unfold fs_view in Hview. injection Hview as -> ->. exact Ha.
  - split_and!; [done|done|destruct Hv as [-> _]; by apply run_observer_view|done].
Qed.

(** ** Success *)

(** A batch acquisition may write: owned, distinct, known points. *)
Definition batch_valid (manifest : ChannelPointManifest) (samples : list AcquiredPointSample) : Prop :=
  Forall (fun s => is_acquisition_owned (cp_kind (sample_address s)) = true /\ is_Some (slot_for manifest (physical s))) samples /\
  NoDup (physical <$> samples).

Lemma resolve_complete manifest seen samples :
  manifest_ok manifest -> Forall sample_fits samples -> batch_valid manifest samples ->
  (forall s, s ∈ samples -> physical s ∉ seen) ->
  exists resolved, resolve manifest (mf_slot_count manifest) seen samples = Ok resolved.
Proof.
  intros Hm Hf [Hv Hn]. revert seen. induction samples as [|s samples IH]; intros seen Hs; [by exists []|].
  apply Forall_cons_1 in Hf as [Hfs Hf], Hv as [[Ho [slot Hslot]] Hv]. rewrite fmap_cons in Hn.
  apply list.NoDup_cons in Hn as [Hni Hn]. cbn [resolve]. rewrite Ho, Hslot. cbn [ensure obind ok_or].
  rewrite bool_decide_eq_false_2 by (apply Hs; left). cbn [negb ensure obind].
  assert (slot < mf_slot_count manifest)%nat as Hlt.
  { destruct Hfs as [_ Hp]. apply (manifest_slot_range manifest (physical s)); [done|unfold fits in Hp; lia|done]. }
  replace (slot <? mf_slot_count manifest)%nat with true by (symmetry; apply Nat.ltb_lt; lia). cbn [ensure obind].
  destruct (IH Hf Hv Hn (physical s :: seen)) as [r ->]; [|by eexists].
  intros x Hx. apply not_elem_of_cons. split; [|apply Hs; by right].
  intros Heq. apply Hni, list_elem_of_fmap. by exists x.
Qed.

Lemma validate_generation_ok aw f :
  fs_faults f = [] -> authoritative fx_hash aw f -> validate_generation fx_hash aw f = (f, Ok tt).
Proof.
  intros Hq (Hn & m & Hm & Hg & Hs & Hr & Hc).
  unfold validate_generation, port, validate_authoritative_path, mapping_of, st_bind, st_get, st_ret, syscall.
  rewrite Hq, Hn, Nat.eqb_refl, Hm. cbn [header_snapshot hs_writer_generation hs_routing_hash hs_slot_count].
  by rewrite Hg, Hr, Hc, !Z.eqb_refl, Hs, Nat.eqb_refl.
Qed.

(** Writing slots keeps a segment authoritative. *)
Lemma authoritative_after aw w' m m' f :
  authoritative fx_hash aw f -> fs_inodes f !! w_identity (aw_writer aw) = Some (ISegment m) ->
  (exists hb, m_header m' = set_heartbeat hb (m_header m)) ->
  w_identity w' = w_identity (aw_writer aw) -> w_path w' = w_path (aw_writer aw) ->
  authoritative fx_hash (with_writer w' aw) (run_observer (fun v => v) (set_inode (w_identity (aw_writer aw)) (ISegment m') f)).
Proof.
  intros (Hn & m0 & Hm0 & Hg & Hs & Hr & Hc) Hm [hb Hh] Hid Hp. rewrite Hm in Hm0. injection Hm0 as <-.
  unfold authoritative. cbn [with_writer aw_writer aw_manifest aw_expected_generation run_observer fs_names fs_inodes fst snd].
  rewrite Hid, Hp. split; [done|]. exists m'. split; [apply lookup_insert_eq|]. by rewrite Hh.
Qed.

End Commit.

Lemma commit_batch_cases fx_hash gate_poisoned observe samples f aw f' aw' r m :
  manifest_ok (aw_manifest aw) -> Forall sample_fits samples ->
  w_slot_count (aw_writer aw) = mf_slot_count (aw_manifest aw) ->
  fs_inodes f !! w_identity (aw_writer aw) = Some (ISegment m) -> backed (mf_slot_count (aw_manifest aw)) m ->
  (forall v, mapped aw v -> mapped aw (observe v)) ->
  commit_batch fx_hash gate_poisoned observe samples (f, aw) = ((f', aw'), r) ->
  (same_fs f f' /\ aw' = aw /\ exists e, r = Err e) \/
  (exists m', authoritative fx_hash aw f /\ batch_effect (aw_manifest aw) samples m m' /\
     commands_untouched (aw_manifest aw) m m' /\
     fs_view f' = observe (fs_names f, <[w_identity (aw_writer aw) := ISegment m']> (fs_inodes f)) /\
     match r with
     | Ok (n, notified) => n = length samples /\ notified.*2 = samples /\ authoritative fx_hash aw' f'
     | Err _ => True
     | Panic => False
     end).
Proof.
  intros Hmok Hs Hc Hm Hb Hobs. unfold commit_batch. unfold st_bind, st_lift.
  destruct (ensure (negb gate_poisoned) PPermanent) eqn:Eg; [|intros [= <- <- <-]; left; split_and!; [by split_and!|done|eauto]|];
    [|unfold ensure in Eg; by split_if_in Eg].
  unfold on_fs at 1. cbn [fst snd]. unfold port. destruct (syscall_same f) as [Hsame Hnp].
  destruct (syscall f) as [f1 [u|e|]]; cbn [fst snd] in Hsame, Hnp; [| |done].
  2: { intros [= <- <- <-]. left. eauto. }
  assert (mapped aw (fs_view f1)) as Hmap. { destruct Hsame as [-> _]. by exists m. }
  unfold on_fs at 1. cbn [fst snd]. pose proof (validate_generation_same fx_hash aw f1 Hmap) as Hv.
  destruct (validate_generation fx_hash aw f1) as [f2 [u'|e|]]; [| |done].
  2: { intros [= <- <- <-]. left. split_and!; [|done|eauto]. destruct Hsame as (? & ? & ?), Hv as (? & ? & ?). split_and!; congruence. }
  destruct Hv as [Hs2 Ha].
  assert (same_fs f f2) as Hsame2. { destruct Hsame as (? & ? & ?), Hs2 as (? & ? & ?). split_and!; congruence. }
  assert (fs_names f2 = fs_names f /\ fs_inodes f2 = fs_inodes f) as [Hn2 Hi2].
  { destruct Hsame2 as [Hv2 _]. unfold fs_view in Hv2. by injection Hv2. }
  assert (authoritative fx_hash aw f2) as Ha2. { unfold authoritative in *. destruct Hs2 as [Hv2 _]. unfold fs_view in Hv2. injection Hv2 as -> ->. exact Ha. }
  pose proof (write_batch_spec fx_hash observe samples f2 aw m Hmok Hs Hc ltac:(by rewrite Hi2) Hb Hobs Ha2) as Hw.
  intros Hrun. rewrite Hrun in Hw. destruct Hw as [[[= -> ->] He]|(m' & He & Hcu & Hview & Hr)]; [by left|].
  right. exists m'. rewrite Hn2, Hi2 in Hview. split_and!; try done.
  by apply (authoritative_same fx_hash aw f f2).
Qed.

(** ** Claims *)

(** C12. A batch is written entirely or not at all. Refused batches (poisoned
    gate, lock failure, stale or replaced generation, a point acquisition does
    not own, a duplicate, an unknown point) leave memory and the dirty set as
    they were. Otherwise the segment was the authoritative one, every sample is
    committed to the slot of its point, no other slot changes and in particular
    none that belongs to the command path; success is reported only if the
    segment is still authoritative after the writes. The call never panics. *)
Theorem commit_batch_atomic fx_hash gate_poisoned observe samples f aw f' aw' r m :
  manifest_ok (aw_manifest aw) -> Forall sample_fits samples ->
  w_slot_count (aw_writer aw) = mf_slot_count (aw_manifest aw) ->
  fs_inodes f !! w_identity (aw_writer aw) = Some (ISegment m) -> backed (mf_slot_count (aw_manifest aw)) m ->
  (forall v, mapped aw v -> mapped aw (observe v)) ->
  commit_batch fx_hash gate_poisoned observe samples (f, aw) = ((f', aw'), r) ->
  (same_fs f f' /\ aw' = aw /\ exists e, r = Err e) \/
  (exists m', authoritative fx_hash aw f /\ batch_effect (aw_manifest aw) samples m m' /\
     commands_untouched (aw_manifest aw) m m' /\
     fs_view f' = observe (fs_names f, <[w_identity (aw_writer aw) := ISegment m']> (fs_inodes f)) /\
     match r with
     | Ok (n, notified) => n = length samples /\ notified.*2 = samples /\ authoritative fx_hash aw' f'
     | Err _ => True
     | Panic => False
     end).
Proof. apply commit_batch_cases. Qed.

(** C15. Once a publication has returned, a writer that still maps the replaced
    segment is fenced off: whatever batch it is given, the call fails and
    neither memory nor its dirty set changes. *)
Theorem stale_writer_fenced fx_hash config manifest snapshot gate_poisoned previous epoch staging_sequence generation
    fs0 f1 g gate' observe samples aw f2 aw2 r m :
  wf_fs fs0 -> fits 32 (cfg_max_slots config) ->
  (forall pw, previous = Some pw -> live (point_spec fx_hash config manifest) staging_sequence fs0 pw) ->
  publish_generation fx_hash config manifest snapshot gate_poisoned previous epoch staging_sequence generation fs0 = (f1, Ok g) ->
  w_path (aw_writer aw) = cfg_path config ->
  w_identity (aw_writer aw) <> w_identity (aw_writer (gen_acquisition g)) ->
  manifest_ok (aw_manifest aw) -> Forall sample_fits samples ->
  w_slot_count (aw_writer aw) = mf_slot_count (aw_manifest aw) ->
  fs_inodes f1 !! w_identity (aw_writer aw) = Some (ISegment m) -> backed (mf_slot_count (aw_manifest aw)) m ->
  (forall v, mapped aw v -> mapped aw (observe v)) ->
  commit_batch fx_hash gate' observe samples (f1, aw) = ((f2, aw2), r) ->
  same_fs f1 f2 /\ aw2 = aw /\ exists e, r = Err e.
Proof.
  intros Hwf Hmax Hp Hpub Hpath Hne Hmok Hs Hc Hm Hb Hobs Hrun.
  destruct (commit_batch_cases _ _ _ _ _ _ _ _ _ _ Hmok Hs Hc Hm Hb Hobs Hrun) as [H|(m' & [Ha _] & _)]; [done|].
  exfalso. pose proof (publish_triple fx_hash config manifest snapshot epoch staging_sequence generation fs0 Hwf Hmax
    gate_poisoned previous Hp fs0 (at_start_refl _ _ _ _ _ _)) as H. rewrite Hpub in H.
  destruct H as [[(Hcan & _) _] (Hid & _)]. unfold canonical_path in Hcan. simpl in Hcan.
  rewrite Hpath, Hcan in Ha. injection Ha as Ha. by apply Hne; rewrite Hid, <- Ha.
Qed.

(** A valid batch on the authoritative segment succeeds when no system call
    fails and nothing interferes: the count of samples is returned and the
    observer is told of every one of them. *)
Lemma commit_batch_succeeds fx_hash samples f aw m :
  manifest_ok (aw_manifest aw) -> Forall sample_fits samples -> batch_valid (aw_manifest aw) samples ->
  w_slot_count (aw_writer aw) = mf_slot_count (aw_manifest aw) ->
  fs_inodes f !! w_identity (aw_writer aw) = Some (ISegment m) -> backed (mf_slot_count (aw_manifest aw)) m ->
  fs_faults f = [] -> authoritative fx_hash aw f ->
  exists s' notified, commit_batch fx_hash false (fun v => v) samples (f, aw) = (s', Ok (length samples, notified)) /\
    notified.*2 = samples.
Proof.
  intros Hmok Hs Hv Hc Hm Hb Hq Ha. pose proof Ha as (_ & m0 & Hm0 & _ & _ & _ & Hcount). rewrite Hm in Hm0. injection Hm0 as <-.
  destruct (resolve_complete (aw_manifest aw) [] samples Hmok Hs Hv) as [resolved Hr]; [set_solver|].
  destruct (write_batch_effect _ _ _ (aw_writer aw) m Hmok Hs Hc Hb Hr) as (w' & m' & Hw & Hid & Hp & _ & (Hh & _)).
  pose proof (authoritative_after fx_hash aw w' m m' f Ha Hm Hh Hid Hp) as Ha'.
  eexists _, resolved. split; [|by apply resolve_ok in Hr as (? & _)].
  unfold commit_batch, write_batch, st_bind, st_lift, st_get, st_modify, st_ret, on_fs. cbn [ensure negb fst snd].
  unfold port at 1, syscall. rewrite Hq. rewrite validate_generation_ok by done.
  unfold port, mapping_of. cbn [fst snd fs_inodes fs_names]. rewrite Hm. cbn [header_snapshot hs_slot_count]. rewrite Hcount, Hr. cbn [fst snd]. rewrite Hw.
  cbn [fst snd]. by rewrite validate_generation_ok.
Qed.

(** *** Witnesses *)

Definition sample_aw : ShmAcquisitionStateWriter := mkAcquisition sample_writer sample_manifest 100.
Definition sample_batch : list AcquiredPointSample :=
  [mkSample (mkChannelPoint 7 Telemetry 2) 0x3FF0000000000000 0x4000000000000000 1700 Good;
   mkSample (mkChannelPoint 2 Status 0) 0 0 1701 Good].

Lemma sample_manifest_ok : manifest_ok sample_manifest.
Proof. apply (from_map_layouts sample_counts); [apply sample_counts_ok|reflexivity]. Qed.

Lemma sample_batch_fits : Forall sample_fits sample_batch.
Proof. unfold sample_fits. by_decide. Qed.

Lemma commit_batch_atomic_witness :
  let run := commit_batch sample_fx false (fun v => v) sample_batch (sample_fs, sample_aw) in
  is_ok run.2 = true /\ exists m', batch_effect sample_manifest sample_batch sample_mapping m'.
Proof.
  intros run. assert (is_ok run.2 = true) as Hok by (by vm_compute). split; [done|].
  destruct (commit_batch_atomic sample_fx false (fun v => v) sample_batch sample_fs sample_aw run.1.1 run.1.2 run.2 sample_mapping)
    as [(_ & _ & e & He)|(m' & _ & He & _)]; [apply sample_manifest_ok|apply sample_batch_fits|done|done|unfold backed; by_decide|done|
    by rewrite <- !surjective_pairing|rewrite He in Hok; done|by exists m'].
Defined.

Lemma stale_writer_fenced_witness :
  let run := commit_batch sample_fx false (fun v => v) sample_batch (sample_run.1, sample_aw) in
  exists e, run.2 = Err e.
Proof.
  intros run. destruct sample_run.2 as [g|e|] eqn:Er; [|by vm_compute in Er..].
  assert (w_identity (aw_writer (gen_acquisition g)) = 1%nat) as Hid by (vm_compute in Er; by injection Er as <-).
  destruct (stale_writer_fenced sample_fx sample_config sample_manifest None false (Some sample_writer) 9 5 200
    sample_fs sample_run.1 g false (fun v => v) sample_batch sample_aw run.1.1 run.1.2 run.2 (invalidated sample_mapping))
    as (_ & _ & He); [apply sample_fs_wf|by_decide| | |done|by rewrite Hid|apply sample_manifest_ok|apply sample_batch_fits|done|
    by vm_compute|unfold backed; by_decide|done|by rewrite <- !surjective_pairing|exact He].
  - intros pw [= <-]. split; [by vm_compute|]. exists sample_mapping. by apply lookup_singleton_eq.
  - rewrite <- Er. apply surjective_pairing.
Defined.
