(* ===== verification/Command.v ===== *)
(** * Device commands and their wire frames

    [crates/aether-domain/src/command.rs], the command addresses of
    [point.rs], the 56-byte command frame of
    [extensions/shm-bridge/src/command_sink.rs] and the PointWatch hint of
    [events.rs]. Values are [f64] bit patterns; the arithmetic of the
    step check is that of [F64]. [validate_value] is
    [libs/aether-model/src/validation.rs]. *)

From S2P Require Import Prelude F64 Slot Bitmap Segment Snapshot Text BTree Manifest Publish Publication Acquisition.

Definition on_some {A} (f : A -> bool) (o : option A) : bool := match o with Some a => f a | None => false end.

(** ** Value validation *)

Record ValidationConfig := mkValidation { reject_nan : bool; reject_infinity : bool; max_abs_value : option Z }.
Definition validation_default : ValidationConfig := mkValidation true true None.

Inductive ValueValidationError := VNaN | VInfinity | VOutOfRange.

Definition f64_is_infinite (b : Z) : bool := (f64_exponent b =? 2047) && (f64_fraction b =? 0).

Definition validate_value (value : Z) (config : ValidationConfig) : outcome ValueValidationError Z :=
  if reject_nan config && f64_is_nan value then Err VNaN
  else if reject_infinity config && f64_is_infinite value then Err VInfinity
  else if on_some (fun hi => f64_ltb (of_bits hi) (f64_abs (of_bits value))) (max_abs_value config) then Err VOutOfRange
  else Ok value.

(** ** Constraints *)

Record CommandConstraints := mkConstraints {
  cc_minimum : option Z;
  cc_maximum : option Z;
  cc_step : option Z
}.

Definition constraints_new (minimum maximum step : option Z) : outcome DomainError CommandConstraints :=
  if on_some (fun v => negb (f64_is_finite v)) minimum ||
     on_some (fun v => negb (f64_is_finite v)) maximum ||
     on_some (fun v => negb (f64_is_finite v) || f64_leb (of_bits v) f64_zero) step ||
     match minimum, maximum with Some lo, Some hi => f64_ltb (of_bits hi) (of_bits lo) | _, _ => false end
  then Err InvalidCommandConstraints
  else Ok (mkConstraints minimum maximum step).

Definition constraints_unbounded : CommandConstraints := mkConstraints None None None.

(** The literals of the tolerance: [f64::EPSILON], [8.0], [1.0e-9], [1.0e-6]. *)
Definition EPSILON : spec_float := of_bits 0x3CB0000000000000.
Definition EIGHT : spec_float := of_bits 0x4020000000000000.
Definition NANO : spec_float := of_bits 0x3E112E0BE826D695.
Definition MICRO : spec_float := of_bits 0x3EB0C6F7A0B5ED8D.

(** The [if let Some(step)] block: is the value off its step? *)
Definition off_step (origin step value : spec_float) : bool :=
  let offset := f64_sub value origin in
  let remainder := f64_abs (f64_rem offset step) in
  let other := f64_abs (f64_sub step remainder) in
  let distance := if f64_ltb remainder other then remainder else other in
  let magnitude := f64_abs offset in
  let representation_tolerance := f64_mul (f64_mul EPSILON magnitude) EIGHT in
  let base_tolerance := f64_mul step NANO in
  let candidate := if f64_ltb base_tolerance representation_tolerance then representation_tolerance else base_tolerance in
  let maximum_tolerance := f64_mul step MICRO in
  let tolerance := if f64_ltb candidate maximum_tolerance then candidate else maximum_tolerance in
  f64_ltb tolerance distance.

Definition validate_command_value (c : CommandConstraints) (value : Z) : outcome DomainError unit :=
  if negb (f64_is_finite value) then Err NonFiniteCommandValue
  else if on_some (fun lo => f64_ltb (of_bits value) (of_bits lo)) (cc_minimum c) ||
          on_some (fun hi => f64_ltb (of_bits hi) (of_bits value)) (cc_maximum c)
  then Err CommandValueOutOfRange
  else match cc_step c with
       | Some step => if off_step (default f64_zero (of_bits <$> cc_minimum c)) (of_bits step) (of_bits value)
                      then Err CommandValueOffStep else Ok tt
       | None => Ok tt
       end.

(** 0.5 with the bounds 0 and 1: steps 0.1 and 0.5 take it, step 1 does not. *)
Example step_samples :
  ((fun step => validate_command_value (mkConstraints (Some 0) (Some 0x3FF0000000000000) (Some step)) 0x3FE0000000000000)
     <$> [0x3FB999999999999A; 0x3FE0000000000000; 0x3FF0000000000000]) = [Ok tt; Ok tt; Err CommandValueOffStep].
Proof. vm_compute. reflexivity. Qed.

(** ** Commands *)

Record PointAddress := mkPointAddress { lp_instance_id : Z; lp_kind : PointKind; lp_point_id : Z }.

Record ControlCommand := mkControl {
  ctl_id : Z; ctl_target : PointAddress; ctl_value : Z; ctl_issued_at : Z; ctl_expires_at : Z
}.

Definition control_command_new (id : Z) (target : PointAddress) (value issued_at expires_at : Z)
  : outcome DomainError ControlCommand :=
  if negb (is_writable (lp_kind target)) then Err (PointNotWritable (lp_kind target))
  else if negb (f64_is_finite value) then Err NonFiniteCommandValue
  else if expires_at <=? issued_at then Err InvalidCommandWindow
  else Ok (mkControl id target value issued_at expires_at).

Definition control_validate_at (c : ControlCommand) (now : Z) (constraints : CommandConstraints) : outcome DomainError unit :=
  if ctl_expires_at c <=? now then Err CommandExpired
  else validate_command_value constraints (ctl_value c).

Record ChannelCommandAddress := mkCommandAddress { ca_channel_id : Z; ca_kind : PointKind; ca_point_id : Z }.

Definition command_address_new (channel_id : Z) (kind : PointKind) (point_id : Z)
  : outcome DomainError ChannelCommandAddress :=
  if negb (is_writable kind) then Err (PointNotCommandOwned kind)
  else Ok (mkCommandAddress channel_id kind point_id).

Record PhysicalDeviceCommand := mkPhysicalCommand {
  pc_id : Z; pc_target : ChannelCommandAddress; pc_value : Z; pc_issued_at : Z; pc_expires_at : Z
}.

Definition physical_command_new (id : Z) (target : ChannelCommandAddress) (value issued_at expires_at : Z)
  : outcome DomainError PhysicalDeviceCommand :=
  if negb (f64_is_finite value) then Err NonFiniteCommandValue
  else if expires_at <=? issued_at then Err InvalidCommandWindow
  else Ok (mkPhysicalCommand id target value issued_at expires_at).

Definition physical_validate_at (c : PhysicalDeviceCommand) (now : Z) : outcome DomainError unit :=
  if pc_expires_at c <=? now then Err CommandExpired else Ok tt.

Record CommandReceipt := mkCommandReceipt { cr_command_id : Z; cr_completed_at : Z }.

(** What the constructors establish, with the widths of the fields. *)
Definition physical_command_ok (c : PhysicalDeviceCommand) : Prop :=
  is_writable (ca_kind (pc_target c)) = true /\ f64_is_finite (pc_value c) = true /\ pc_issued_at c < pc_expires_at c /\
  fits 32 (ca_channel_id (pc_target c)) /\ fits 32 (ca_point_id (pc_target c)) /\
  fits 64 (pc_value c) /\ fits 64 (pc_issued_at c) /\ fits 64 (pc_expires_at c).

(** ** The command frame *)

Record DeviceCommandFrame := mkCommandFrame {
  fr_channel_id : Z;
  fr_point_id : Z;
  fr_point_type : Z;
  fr_padding : list Z;
  fr_value_bits : Z;
  fr_timestamp_ms : Z;
  fr_expires_at_ms : Z;
  fr_producer_id : Z;
  fr_sequence : Z
}.

Definition FRAME_SIZE : nat := 56.

(** [DeviceCommandFrame::new]; [None] is the [InvalidInput] error. *)
Definition frame_new (c : PhysicalDeviceCommand) (producer_id sequence : Z) : option DeviceCommandFrame :=
  let target := pc_target c in
  let make point_type :=
    mkCommandFrame (ca_channel_id target) (ca_point_id target) point_type (replicate 7 0) (pc_value c)
      (pc_issued_at c) (pc_expires_at c) producer_id sequence in
  match ca_kind target with
  | Command => Some (make 2)
  | Action => Some (make 3)
  | Telemetry | Status => None
  end.

Definition frame_to_bytes (f : DeviceCommandFrame) : list Z :=
  to_le 4 (fr_channel_id f) ++ to_le 4 (fr_point_id f) ++ [fr_point_type f] ++ fr_padding f ++
  to_le 8 (fr_value_bits f) ++ to_le 8 (fr_timestamp_ms f) ++ to_le 8 (fr_expires_at_ms f) ++
  to_le 8 (fr_producer_id f) ++ to_le 8 (fr_sequence f).

Definition bytes_at (off len : nat) (bytes : list Z) : list Z := take len (drop off bytes).

Definition frame_from_bytes (bytes : list Z) : DeviceCommandFrame :=
  mkCommandFrame (from_le (bytes_at 0 4 bytes)) (from_le (bytes_at 4 4 bytes)) (default 0 (bytes !! 8%nat))
    (bytes_at 9 7 bytes) (from_le (bytes_at 16 8 bytes)) (from_le (bytes_at 24 8 bytes))
    (from_le (bytes_at 32 8 bytes)) (from_le (bytes_at 40 8 bytes)) (from_le (bytes_at 48 8 bytes)).

Definition frame_point_kind (f : DeviceCommandFrame) : option PointKind :=
  if fr_point_type f =? 2 then Some Command else if fr_point_type f =? 3 then Some Action else None.

(** ** The PointWatch hint *)

Record PointWatchEvent := mkWatchEvent {
  we_channel_id : Z; we_point_id : Z; we_point_type : Z; we_value_bits : Z; we_raw_bits : Z;
  we_slot_index : Z; we_timestamp_ms : Z; we_producer_id : Z
}.

Definition point_kind_code (k : PointKind) : Z := match k with Telemetry => 0 | Status => 1 | Command => 2 | Action => 3 end.

Definition watch_event_new (channel_id : Z) (kind : PointKind) (point_id slot_index value raw timestamp_ms producer_id : Z)
  : PointWatchEvent :=
  mkWatchEvent channel_id point_id (point_kind_code kind) value raw slot_index timestamp_ms producer_id.

Definition watch_to_bytes (e : PointWatchEvent) : list Z :=
  to_le 4 (we_channel_id e) ++ to_le 4 (we_point_id e) ++ [we_point_type e] ++ replicate 7 0 ++
  to_le 8 (we_value_bits e) ++ to_le 8 (we_raw_bits e) ++ to_le 8 (we_slot_index e) ++
  to_le 8 (we_timestamp_ms e) ++ to_le 8 (we_producer_id e).

Definition watch_from_bytes (bytes : list Z) : PointWatchEvent :=
  mkWatchEvent (from_le (bytes_at 0 4 bytes)) (from_le (bytes_at 4 4 bytes)) (default 0 (bytes !! 8%nat))
    (from_le (bytes_at 16 8 bytes)) (from_le (bytes_at 24 8 bytes)) (from_le (bytes_at 32 8 bytes))
    (from_le (bytes_at 40 8 bytes)) (from_le (bytes_at 48 8 bytes)).

Definition watch_point_kind (e : PointWatchEvent) : option PointKind :=
  if we_point_type e =? 0 then Some Telemetry else if we_point_type e =? 1 then Some Status
  else if we_point_type e =? 2 then Some Command else if we_point_type e =? 3 then Some Action else None.

(** [matches_manifest]: the hint still names its typed slot. *)
Definition matches_manifest (e : PointWatchEvent) (manifest : ChannelPointManifest) : bool :=
  match watch_point_kind e with
  | None => false
  | Some kind =>
      match slot_for manifest (mkPhysical (we_channel_id e) kind (we_point_id e)) with
      | Some slot => Z.of_nat slot =? we_slot_index e
      | None => false
      end
  end.

(** ** Frames *)

Definition frame_fits (f : DeviceCommandFrame) : Prop :=
  fits 32 (fr_channel_id f) /\ fits 32 (fr_point_id f) /\ fits 8 (fr_point_type f) /\ length (fr_padding f) = 7%nat /\
  fits 64 (fr_value_bits f) /\ fits 64 (fr_timestamp_ms f) /\ fits 64 (fr_expires_at_ms f) /\
  fits 64 (fr_producer_id f) /\ fits 64 (fr_sequence f).

Lemma frame_to_bytes_length f : length (fr_padding f) = 7%nat -> length (frame_to_bytes f) = FRAME_SIZE.
Proof. intros Hp. unfold frame_to_bytes. rewrite !length_app, !to_le_length, Hp. done. Qed.

(** A field of a fixed little-endian layout reads back. *)
Ltac le_field :=
  first
    [ reflexivity
    | match goal with |- _ = ?z => transitivity (from_le (to_le 8 z)); [reflexivity|by apply (from_to_le_fits 8)] end
    | match goal with |- _ = ?z => transitivity (from_le (to_le 4 z)); [reflexivity|by apply (from_to_le_fits 4)] end ].

Lemma frame_round f : frame_fits f -> frame_from_bytes (frame_to_bytes f) = f.
Proof.
  destruct f as [c p k pad v t x pr sq]. intros (Hc & Hp & Hk & Hl & Hv & Ht & Hx & Hpr & Hs). cbn in *.
  do 7 (destruct pad as [|? pad]; [done|]). destruct pad; [|done].
  unfold frame_from_bytes, frame_to_bytes. simpl. f_equal; le_field.
Qed.

Lemma frame_new_fits c producer sequence f :
  physical_command_ok c -> fits 64 producer -> fits 64 sequence -> frame_new c producer sequence = Some f -> frame_fits f.
Proof.
  intros (Hk & _ & _ & Hch & Hpt & Hv & Hi & He) Hp Hs Hf. unfold frame_new in Hf.
  destruct (ca_kind (pc_target c)); simplify_eq; unfold frame_fits; simpl; split_and!; try done.
Qed.

Lemma frame_new_kind c producer sequence f :
  frame_new c producer sequence = Some f -> frame_point_kind f = Some (ca_kind (pc_target c)).
Proof. unfold frame_new. destruct (ca_kind (pc_target c)) eqn:E; intros; by simplify_eq. Qed.

Lemma frame_new_length c producer sequence f :
  frame_new c producer sequence = Some f -> length (frame_to_bytes f) = FRAME_SIZE.
Proof. intros Hf. apply frame_to_bytes_length. unfold frame_new in Hf. destruct (ca_kind (pc_target c)); by simplify_eq. Qed.

Lemma frame_new_Some c producer sequence :
  is_writable (ca_kind (pc_target c)) = true -> exists f, frame_new c producer sequence = Some f.
Proof. unfold frame_new. destruct (ca_kind (pc_target c)); intros; try done; eauto. Qed.

Definition watch_fits (e : PointWatchEvent) : Prop :=
  fits 32 (we_channel_id e) /\ fits 32 (we_point_id e) /\ fits 8 (we_point_type e) /\ fits 64 (we_value_bits e) /\
  fits 64 (we_raw_bits e) /\ fits 64 (we_slot_index e) /\ fits 64 (we_timestamp_ms e) /\ fits 64 (we_producer_id e).

Lemma watch_round e : watch_fits e -> watch_from_bytes (watch_to_bytes e) = e.
Proof.
  destruct e. intros (? & ? & ? & ? & ? & ? & ? & ?). simpl in *. unfold watch_from_bytes, watch_to_bytes. simpl.
  f_equal; le_field.
Qed.

(** ** Constraints *)

Definition in_range (c : CommandConstraints) (value : Z) : Prop :=
  (forall lo, cc_minimum c = Some lo -> units (of_bits lo) <= units (of_bits value)) /\
  (forall hi, cc_maximum c = Some hi -> units (of_bits value) <= units (of_bits hi)).

Lemma constraints_new_ok lo hi step c :
  constraints_new lo hi step = Ok c ->
  c = mkConstraints lo hi step /\
  (forall v, lo = Some v -> f64_is_finite v = true) /\ (forall v, hi = Some v -> f64_is_finite v = true) /\
  (forall v, step = Some v -> f64_is_finite v = true /\ f64_leb (of_bits v) f64_zero = false).
Proof.
  unfold constraints_new. split_if; [done|]. intros [= <-]. bool_facts. split_and!; [done|intros v ->..].
  all: cbn [on_some] in *; by bool_facts.
Qed.

Lemma f64_ltb_bits a b :
  f64_is_finite a = true -> f64_is_finite b = true -> f64_ltb (of_bits a) (of_bits b) = (units (of_bits a) <? units (of_bits b)).
Proof. intros Ha%of_bits_finite Hb%of_bits_finite. apply f64_ltb_units; auto using of_bits_canonical. Qed.

Lemma validate_command_value_ok c value lo hi step :
  constraints_new lo hi step = Ok c -> validate_command_value c value = Ok tt ->
  f64_is_finite value = true /\ in_range c value.
Proof.
  intros (-> & Hlo & Hhi & _)%constraints_new_ok Hv. unfold validate_command_value in Hv. cbn [cc_minimum cc_maximum cc_step] in Hv.
  destruct (f64_is_finite value) eqn:Hf; cbn [negb] in Hv; [|discriminate]. split; [reflexivity|].
  split_if_in Hv; [discriminate|]. apply orb_false_iff in E as [E1 E2].
  split; cbn [cc_minimum cc_maximum]; intros v ->; cbn [on_some] in *.
  - rewrite f64_ltb_bits in E1 by auto. by apply Z.ltb_ge.
  - rewrite f64_ltb_bits in E2 by auto. by apply Z.ltb_ge.
Qed.
