(* ===== verification/CommandSink.v ===== *)
(** * The command sink

    [extensions/shm-bridge/src/command_sink.rs]: a physical command is mirrored
    into its command slot under the shared authority lease and announced to the
    IO service by one fixed frame on a Unix socket.

    A call runs between other tasks and processes. [others] is what they do at
    each point where the call can be interrupted, [system_time] the wall clock
    (which may jump), [delay] the time a step takes on the monotonic clock, and
    the [_io] oracles the answers of the kernel, each indexed by a tick that
    every consultation advances. The log records what the call itself did. *)

From S2P Require Import Prelude F64 Slot Bitmap Segment Snapshot Text BTree Manifest Publish Publication Acquisition Command.

(** ** State *)

Record CommandGeneration := mkCommandGeneration {
  cg_writer : SlotWriter;
  cg_manifest : ChannelPointManifest;
  cg_expected_generation : Z
}.

(** [struct CommandNotifier]; the stream is named by the tick of its connection. *)
Record CommandNotifier := mkNotifier {
  nt_stream : option nat;
  nt_producer_id : Z;
  nt_next_sequence : Z;
  nt_last_connect_attempt : option Z;
  nt_backoff : Z
}.

(** [struct ShmDeviceCommandSink]: generations are shared [Arc]s, named by
    their key in [sk_heap]; [sk_current] is the generation cell. *)
Record ShmDeviceCommandSink := mkSink {
  sk_heap : gmap nat CommandGeneration;
  sk_current : option nat;
  sk_poisoned : bool;
  sk_notifier : option CommandNotifier;
  sk_rebuilds : nat
}.

Inductive SinkAction :=
| Checked (fs : Fs) (current : option nat)
| Mirrored (slot : nat) (before after : Mapping)
| Framed (connection : nat) (sent : list Z).

Record World := mkWorld {
  wd_fs : Fs;
  wd_sink : ShmDeviceCommandSink;
  wd_tick : nat;
  wd_mono : Z; (* nanoseconds *)
  wd_leased : bool;
  wd_log : list SinkAction
}.

Inductive CommandNotifyError := NExpired | NTimeout | NIo | NCancelled.

Inductive LeaseAnswer := LeaseGranted | LeaseBusy | LeaseError (e : DataplaneError).
Inductive ConnectAnswer := Connected | Refused | ConnectTimeout | ConnectCancelled.
(** [write_all]: complete, or ended after [n] bytes. *)
Inductive WriteAnswer := Written | WriteFailed (n : nat) | WriteTimedOut (n : nat) | WriteCancelled (n : nat).

Definition ms : Z := 1000000.
Definition AUTHORITY_READ_TIMEOUT : Z := 350 * ms.
Definition AUTHORITY_RETRY_DELAY : Z := 2 * ms.
Definition MIN_BACKOFF : Z := 1000 * ms.
Definition MAX_BACKOFF : Z := 5000 * ms.
Definition SEND_RETRIES : nat := 3.
Definition RETRY_DELAY : Z := 10 * ms.

(** ** Updates *)

Definition set_fs (f : Fs) (w : World) : World := mkWorld f (wd_sink w) (wd_tick w) (wd_mono w) (wd_leased w) (wd_log w).
Definition set_sink (s : ShmDeviceCommandSink) (w : World) : World :=
  mkWorld (wd_fs w) s (wd_tick w) (wd_mono w) (wd_leased w) (wd_log w).
Definition set_leased (b : bool) (w : World) : World :=
  mkWorld (wd_fs w) (wd_sink w) (wd_tick w) (wd_mono w) b (wd_log w).
Definition log_action (a : SinkAction) (w : World) : World :=
  mkWorld (wd_fs w) (wd_sink w) (wd_tick w) (wd_mono w) (wd_leased w) (wd_log w ++ [a]).

Definition set_current (o : option nat) (s : ShmDeviceCommandSink) : ShmDeviceCommandSink :=
  mkSink (sk_heap s) o (sk_poisoned s) (sk_notifier s) (sk_rebuilds s).
Definition set_notifier (n : option CommandNotifier) (s : ShmDeviceCommandSink) : ShmDeviceCommandSink :=
  mkSink (sk_heap s) (sk_current s) (sk_poisoned s) n (sk_rebuilds s).
(** [rebuild_trigger.notify_one()]. *)
Definition notify_rebuild (s : ShmDeviceCommandSink) : ShmDeviceCommandSink :=
  mkSink (sk_heap s) (sk_current s) (sk_poisoned s) (sk_notifier s) (S (sk_rebuilds s)).
Definition set_generation_writer (gid : nat) (w : SlotWriter) (s : ShmDeviceCommandSink) : ShmDeviceCommandSink :=
  mkSink (alter (fun g => mkCommandGeneration w (cg_manifest g) (cg_expected_generation g)) gid (sk_heap s))
    (sk_current s) (sk_poisoned s) (sk_notifier s) (sk_rebuilds s).

(** What surrounds a call. *)
Record SinkEnv := mkEnv {
  system_time : nat -> Z;
  delay : nat -> nat;
  others : nat -> Fs * ShmDeviceCommandSink -> Fs * ShmDeviceCommandSink;
  lease_io : nat -> LeaseAnswer;
  connect_io : nat -> ConnectAnswer;
  write_io : nat -> WriteAnswer;
  lock_timeout : nat -> bool;
  sleep_cancelled : nat -> bool
}.

Section Sink.
Context (fx_hash : list (Z * by_kind Z) -> Z) (env : SinkEnv).

Definition SinkM (E A : Type) : Type := ST World E A.

(** ** Time and interference *)

(** One step: the tick advances and so does the monotonic clock. *)
Definition advance (d : Z) (w : World) : World :=
  mkWorld (wd_fs w) (wd_sink w) (S (wd_tick w)) (wd_mono w + d + Z.of_nat (delay env (wd_tick w))) (wd_leased w) (wd_log w).

Definition system_time_ms {E} : SinkM E Z := fun w => (advance 0 w, Ok (system_time env (wd_tick w))).

(** What other tasks and processes do; a notifier whose lock is held stays. *)
Definition disturb (locked : bool) (w : World) : World :=
  let '(f, s) := others env (wd_tick w) (wd_fs w, wd_sink w) in
  set_sink (if locked then set_notifier (sk_notifier (wd_sink w)) s else s) (set_fs f w).

(** An [await] or a hook: others run, then time has passed. *)
Definition interleave {E} (locked : bool) : SinkM E unit := fun w => (advance 0 (disturb locked w), Ok tt).

Definition sleep {E} (locked : bool) (d : Z) : SinkM E unit := fun w => (advance d (disturb locked w), Ok tt).

Definition on_wfs {A} (c : PortM A) : SinkM PortErrorKind A := fun w =>
  let '(f, r) := c (wd_fs w) in (set_fs f w, r).

Definition put_sink {E} (g : ShmDeviceCommandSink -> ShmDeviceCommandSink) : SinkM E unit :=
  st_modify (fun w => set_sink (g (wd_sink w)) w).

Definition record {E} (a : SinkAction) : SinkM E unit := st_modify (log_action a).

(** ** Generations *)

(** Dereferences an [Arc<CommandGeneration>]. *)
Definition deref {E} (gid : nat) : SinkM E CommandGeneration := fun w =>
  match sk_heap (wd_sink w) !! gid with Some g => (w, Ok g) | None => (w, Panic) end.

(** [ShmDeviceCommandSink::publish_generation]; the new [Arc] gets address [gid]. *)
Definition sink_publish (gid : nat) (writer : SlotWriter) (manifest : ChannelPointManifest) : SinkM PortErrorKind unit :=
  let! _ := on_wfs (port (validate_authoritative_path writer)) in
  let! m := on_wfs (port (mapping_of writer)) in
  let header := header_snapshot (m_header m) in
  if negb (w_slot_count writer =? mf_slot_count manifest)%nat ||
     negb (Z.to_nat (hs_slot_count header) =? mf_slot_count manifest)%nat ||
     negb (hs_routing_hash header =? layout_hash fx_hash manifest)
  then st_fail PConflict
  else if negb (stable_generation (hs_writer_generation header)) then st_fail PConflict
  else
    let! w := st_get in
    if sk_poisoned (wd_sink w) then st_fail PPermanent
    else put_sink (fun s => mkSink (<[gid := mkCommandGeneration writer manifest (hs_writer_generation header)]> (sk_heap s))
                              (Some gid) (sk_poisoned s) (sk_notifier s) (sk_rebuilds s)).

Definition open_generation (gid : nat) (path : string) (manifest : ChannelPointManifest) : SinkM PortErrorKind unit :=
  let! writer := on_wfs (port (open_existing_file path (mf_slot_count manifest) (layout_hash fx_hash manifest))) in
  sink_publish gid writer manifest.

Definition invalidate_and_rebuild (s : ShmDeviceCommandSink) : ShmDeviceCommandSink :=
  notify_rebuild (if sk_poisoned s then s else set_current None s).

(** [manifest_source().load()]. *)
Definition load_manifest (s : ShmDeviceCommandSink) : option ChannelPointManifest :=
  if sk_poisoned s then None else gid ← sk_current s; cg_manifest <$> sk_heap s !! gid.

Definition current_generation : SinkM PortErrorKind nat :=
  let! w := st_get in
  if sk_poisoned (wd_sink w) then st_fail PPermanent
  else match sk_current (wd_sink w) with
       | Some gid => st_ret gid
       | None => let! _ := put_sink notify_rebuild in st_fail PUnavailable
       end.

Definition invalidate_stale_generation (stale : nat) (s : ShmDeviceCommandSink) : ShmDeviceCommandSink :=
  notify_rebuild (if negb (sk_poisoned s) && bool_decide (sk_current s = Some stale) then set_current None s else s).

(** A failed authority check drops the stale generation from the cell. *)
Definition or_invalidate {A} (gid : nat) (c : SinkM PortErrorKind A) : SinkM PortErrorKind A :=
  on_err c (fun w => set_sink (invalidate_stale_generation gid (wd_sink w)) w).

Definition validate_authority (gid : nat) : SinkM PortErrorKind unit :=
  let! w := st_get in
  if sk_poisoned (wd_sink w) then st_fail PPermanent
  else
    or_invalidate gid (
      let! _ := st_lift (ensure (bool_decide (sk_current (wd_sink w) = Some gid)) PConflict) in
      let! g := deref gid in
      let! _ := on_wfs (port (validate_authoritative_path (cg_writer g))) in
      let! m := on_wfs (port (mapping_of (cg_writer g))) in
      let actual := h_writer_generation (m_header m) in
      let! _ := st_lift (ensure ((actual =? cg_expected_generation g) && stable_generation actual) PConflict) in
      let! w := st_get in
      record (Checked (wd_fs w) (sk_current (wd_sink w)))).

(** The retry loop of [acquire_authority]: 2 ms per round, 350 ms in all, so
    [ACQUIRE_FUEL] rounds are never used up. *)
Definition ACQUIRE_FUEL : nat := 177.

Fixpoint acquire_loop (fuel : nat) (gid : nat) (expires_at started : Z) : SinkM PortErrorKind unit :=
  match fuel with
  | O => st_lift Panic
  | S fuel' =>
      let! w := st_get in
      match lease_io env (wd_tick w) with
      | LeaseGranted => let! _ := interleave false in st_modify (set_leased true)
      | LeaseError e => st_fail (map_dataplane_error e)
      | LeaseBusy =>
          let! now := system_time_ms in
          let! _ := st_lift (ensure (negb (expires_at <=? now)) PRejected) in
          let! w := st_get in
          let! _ := st_lift (ensure (negb (AUTHORITY_READ_TIMEOUT <=? wd_mono w - started)) PTimeout) in
          let! _ := sleep false AUTHORITY_RETRY_DELAY in
          acquire_loop fuel' gid expires_at started
      end
  end.

Definition acquire_authority (gid : nat) (c : PhysicalDeviceCommand) : SinkM PortErrorKind unit :=
  let! w := st_get in acquire_loop ACQUIRE_FUEL gid (pc_expires_at c) (wd_mono w).

(** ** The notifier *)

Definition get_notifier : SinkM CommandNotifyError CommandNotifier := fun w =>
  match sk_notifier (wd_sink w) with Some n => (w, Ok n) | None => (w, Panic) end.
Definition put_notifier (n : CommandNotifier) : SinkM CommandNotifyError unit := put_sink (set_notifier (Some n)).

Definition disconnect (retry_immediately : bool) (now : Z) (n : CommandNotifier) : CommandNotifier :=
  mkNotifier None (nt_producer_id n) (nt_next_sequence n) (if retry_immediately then None else Some now) (nt_backoff n).

Definition disconnect_now (retry_immediately : bool) : SinkM CommandNotifyError unit :=
  let! n := get_notifier in
  let! w := st_get in
  put_notifier (disconnect retry_immediately (wd_mono w) n).

Definition backed_off (now : Z) (n : CommandNotifier) : CommandNotifier :=
  mkNotifier (nt_stream n) (nt_producer_id n) (nt_next_sequence n) (Some now) (Z.min (nt_backoff n * 2) MAX_BACKOFF).

Definition reconnected (stream : nat) (n : CommandNotifier) : CommandNotifier :=
  mkNotifier (Some stream) (nt_producer_id n) (nt_next_sequence n) None MIN_BACKOFF.

Definition waiting (now : Z) (n : CommandNotifier) : bool :=
  on_some (fun attempt => now - attempt <? nt_backoff n) (nt_last_connect_attempt n).

Definition try_reconnect : SinkM CommandNotifyError unit :=
  let! n := get_notifier in
  let! w := st_get in
  match nt_stream n with
  | Some _ => st_ret tt
  | None =>
      if waiting (wd_mono w) n then st_ret tt
      else
        let! _ := interleave true in
        let! w' := st_get in
        match connect_io env (wd_tick w) with
        | Connected => put_notifier (reconnected (wd_tick w) n)
        | Refused => put_notifier (backed_off (wd_mono w') n)
        | ConnectTimeout => let! _ := put_notifier (backed_off (wd_mono w') n) in st_fail NTimeout
        | ConnectCancelled => st_fail NCancelled
        end
  end.

(** A wait inside [notify], which the outer deadline may cancel. *)
Definition retry_sleep : SinkM CommandNotifyError unit :=
  let! w := st_get in
  let! _ := sleep true RETRY_DELAY in
  st_lift (ensure (negb (sleep_cancelled env (wd_tick w))) NCancelled).

Definition unexpired (c : PhysicalDeviceCommand) : SinkM CommandNotifyError unit :=
  let! now := system_time_ms in st_lift (ensure (negb (pc_expires_at c <=? now)) NExpired).

Fixpoint send_attempts (left : nat) (c : PhysicalDeviceCommand) (frame : list Z) : SinkM CommandNotifyError unit :=
  match left with
  | O => st_fail NIo
  | S left' =>
      let! _ := unexpired c in
      let! _ := try_reconnect in
      let! n := get_notifier in
      let! stream := st_lift (ok_or NIo (nt_stream n)) in
      let! w := st_get in
      let! _ := interleave true in
      let partial k := take (Nat.min k (length frame - 1)) frame in
      let failed k e :=
        let! _ := record (Framed stream (partial k)) in
        match left' with
        | O => let! _ := disconnect_now false in st_fail e
        | S _ => let! _ := disconnect_now true in let! _ := retry_sleep in send_attempts left' c frame
        end in
      match write_io env (wd_tick w) with
      | Written => record (Framed stream frame)
      | WriteFailed k => failed k NIo
      | WriteTimedOut k => failed k NTimeout
      | WriteCancelled k => let! _ := record (Framed stream (partial k)) in st_fail NCancelled
      end
  end.

Definition take_sequence (n : CommandNotifier) : CommandNotifier :=
  mkNotifier (nt_stream n) (nt_producer_id n) (Z.max (wrap 64 (nt_next_sequence n + 1)) 1)
    (nt_last_connect_attempt n) (nt_backoff n).

Definition notify (c : PhysicalDeviceCommand) : SinkM CommandNotifyError unit :=
  let! _ := try_reconnect in
  let! _ := unexpired c in
  let! n := get_notifier in
  let sequence := nt_next_sequence n in
  let! _ := put_notifier (take_sequence n) in
  let! frame := st_lift (ok_or NIo (frame_new c (nt_producer_id n) sequence)) in
  send_attempts SEND_RETRIES c (frame_to_bytes frame).

(** The [match tokio::time::timeout(UDS_NOTIFY_TIMEOUT, ..)]. *)
Definition notify_bounded (c : PhysicalDeviceCommand) : SinkM PortErrorKind unit := fun w =>
  match notify c w with
  | (w', Ok _) => (w', Ok tt)
  | (w', Err NCancelled) => ((disconnect_now false w').1, Err PTimeout)
  | (w', Err NExpired) => (w', Err PRejected)
  | (w', Err NTimeout) => (w', Err PTimeout)
  | (w', Err NIo) => (w', Err PUnavailable)
  | (w', Panic) => (w', Panic)
  end.

(** ** [send] *)

Definition command_physical (c : PhysicalDeviceCommand) : PhysicalPointAddress :=
  let t := pc_target c in mkPhysical (ca_channel_id t) (ca_kind t) (ca_point_id t).

Definition alive (c : PhysicalDeviceCommand) : SinkM PortErrorKind unit :=
  let! now := system_time_ms in
  st_lift (match physical_validate_at c now with Ok _ => Ok tt | _ => Err PRejected end).

(** The SHM write. *)
Definition mirror (gid : nat) (c : PhysicalDeviceCommand) : SinkM PortErrorKind unit :=
  let! g := deref gid in
  let! slot := st_lift (ok_or PNotFound (slot_for (cg_manifest g) (command_physical c))) in
  let! _ := interleave false in
  let! g := deref gid in
  let! m := on_wfs (port (mapping_of (cg_writer g))) in
  let! (w', m') := on_wfs (port (st_lift (set_direct (cg_writer g) m slot (pc_value c) (pc_value c) (pc_issued_at c)))) in
  let! _ := on_wfs (st_modify (set_inode (w_identity (cg_writer g)) (ISegment m'))) in
  let! _ := put_sink (set_generation_writer gid w') in
  record (Mirrored slot m m').

(** From the notifier lock to the end of the transport write. *)
Definition transport (gid : nat) (c : PhysicalDeviceCommand) : SinkM PortErrorKind unit :=
  let! w := st_get in
  let! _ := st_lift (ok_or PUnavailable (sk_notifier (wd_sink w))) in
  let! _ := interleave false in
  let! _ := st_lift (ensure (negb (lock_timeout env (wd_tick w))) PTimeout) in
  let! _ := alive c in
  let! _ := validate_authority gid in
  notify_bounded c.

(** The [AuthorityReadGuard] is dropped on every return. *)
Definition releasing {A} (c : SinkM PortErrorKind A) : SinkM PortErrorKind A := fun w =>
  let '(w', r) := c w in (set_leased false w', r).

Definition send (c : PhysicalDeviceCommand) : SinkM PortErrorKind CommandReceipt :=
  let! _ := alive c in
  let! gid := current_generation in
  releasing (
    let! _ := acquire_authority gid c in
    let! _ := validate_authority gid in
    let! _ := mirror gid c in
    let! _ := interleave false in (* after_shm_write *)
    let! _ := validate_authority gid in
    let! _ := transport gid c in
    let! _ := interleave false in (* after_transport_write *)
    let! _ := validate_authority gid in
    let! now := system_time_ms in
    st_ret (mkCommandReceipt (pc_id c) now)).

(** ** Configuration *)

Definition new_producer_id (nanos pid : Z) : Z := Z.max (Z.lxor (wrap 64 nanos) (Z.shiftl pid 32)) 1.

(** [CommandNotifier::connect]. *)
Definition notifier_connect (producer_id : Z) : SinkM PortErrorKind CommandNotifier :=
  let! w := st_get in
  let! _ := interleave false in
  let! w' := st_get in
  let stream := match connect_io env (wd_tick w) with Connected => Some (wd_tick w) | _ => None end in
  st_ret (mkNotifier stream producer_id 1 (match stream with None => Some (wd_mono w') | Some _ => None end) MIN_BACKOFF).

Definition configure_notifier (path : string) (producer_id : Z) : SinkM PortErrorKind unit :=
  let! _ := st_lift (ensure (negb (bool_decide (path = ""%string))) PInvalidData) in
  let! n := notifier_connect producer_id in
  let! w := st_get in
  let! _ := st_lift (ensure (bool_decide (sk_notifier (wd_sink w) = None)) PConflict) in
  put_sink (set_notifier (Some n)).

(** ** What others may do

    Generations stay reachable through the [Arc]s held, their memory stays
    mapped, and the notifier, once set, stays set. *)

Definition same_generation (g g' : CommandGeneration) : Prop :=
  cg_manifest g' = cg_manifest g /\ cg_expected_generation g' = cg_expected_generation g /\
  w_path (cg_writer g') = w_path (cg_writer g) /\ w_identity (cg_writer g') = w_identity (cg_writer g) /\
  w_slot_count (cg_writer g') = w_slot_count (cg_writer g).

Definition generation_ok (f : Fs) (g : CommandGeneration) : Prop :=
  manifest_ok (cg_manifest g) /\ w_slot_count (cg_writer g) = mf_slot_count (cg_manifest g) /\
  exists m, fs_inodes f !! w_identity (cg_writer g) = Some (ISegment m) /\ backed (mf_slot_count (cg_manifest g)) m.

Definition sound (fs : Fs * ShmDeviceCommandSink) : Prop :=
  map_Forall (fun _ g => generation_ok fs.1 g) (sk_heap fs.2) /\
  (forall gid, sk_current fs.2 = Some gid -> is_Some (sk_heap fs.2 !! gid)).

Definition kept (fs fs' : Fs * ShmDeviceCommandSink) : Prop :=
  (forall gid g, sk_heap fs.2 !! gid = Some g -> exists g', sk_heap fs'.2 !! gid = Some g' /\ same_generation g g') /\
  (is_Some (sk_notifier fs.2) -> is_Some (sk_notifier fs'.2)).

Definition respectful : Prop := forall t fs, sound fs -> sound (others env t fs) /\ kept fs (others env t fs).

End Sink.
