(* ===== verification/CommandProtocol.v ===== *)
(** * What the command sink guarantees

    The protocol of one [send] as a stage machine over its log, and the
    framing of the command socket over any number of notifications. *)

From S2P Require Import Prelude F64 Slot Bitmap Segment Snapshot Text BTree Manifest Publish Publication Acquisition Command CommandSink.

(** ** Framing of the socket *)

(** The writes on connection [k]. *)
Definition written_on (k : nat) (a : SinkAction) : list (list Z) :=
  match a with Framed k' b => if (k' =? k)%nat then [b] else [] | _ => [] end.
Definition sends (L : list SinkAction) (k : nat) : list (list Z) := L ≫= written_on k.

(** Every connection carries whole frames, at most the last write on a
    connection already given up is cut short, and connections are not reused. *)
Definition wire_ok (L : list SinkAction) (stream : option nat) (t : nat) : Prop :=
  (forall k b, Framed k b ∈ L -> (k < t)%nat) /\ (forall k, stream = Some k -> (k < t)%nat) /\
  (forall k, exists whole tail, sends L k = whole ++ tail /\ Forall (fun b => length b = FRAME_SIZE) whole /\
     (tail = [] \/ stream <> Some k /\ exists b, tail = [b] /\ (length b < FRAME_SIZE)%nat)).

Lemma sends_app L a k : sends (L ++ [a]) k = sends L k ++ written_on k a.
Proof. unfold sends. rewrite bind_app, bind_cons. simpl. by rewrite app_nil_r. Qed.

Lemma sends_fresh L k t : (forall k b, Framed k b ∈ L -> (k < t)%nat) -> (t <= k)%nat -> sends L k = [].
Proof.
  intros Hf Hk. unfold sends. induction L as [|a L IH]; [done|]. rewrite bind_cons, IH by (intros; eapply Hf; by right).
  destruct a as [| |k' b]; try done. simpl. destruct (Nat.eqb_spec k' k) as [->|]; [|done].
  specialize (Hf k b ltac:(left)). lia.
Qed.

Lemma wire_mono L s t t' : wire_ok L s t -> (t <= t')%nat -> wire_ok L s t'.
Proof. intros (H1 & H2 & H3) Ht. split_and!; [intros k b Hb; specialize (H1 k b Hb); lia|intros k Hk; specialize (H2 k Hk); lia|done]. Qed.

Lemma wire_drop L s t : wire_ok L s t -> wire_ok L None t.
Proof.
  intros (H1 & _ & H3). split_and!; [done|done|]. intros k. destruct (H3 k) as (wh & tl & Heq & Hw & Ht).
  exists wh, tl. split_and!; [done|done|]. destruct Ht as [|[_ ?]]; [by left|by right].
Qed.

Lemma wire_connect L t t' k : wire_ok L None t -> (t <= k < t')%nat -> wire_ok L (Some k) t'.
Proof.
  intros (H1 & _ & H3) Hk. split_and!.
  - intros j b Hj. specialize (H1 j b Hj). lia.
  - intros j [= <-]. lia.
  - intros j. destruct (decide (j = k)) as [->|Hne].
    + exists [], []. rewrite (sends_fresh L k t) by (done || lia). by split_and!; [|constructor|left].
    + destruct (H3 j) as (wh & tl & Heq & Hw & [->|[_ Ht]]).
      * exists wh, []. split_and!; [done|done|by left].
      * exists wh, tl. split_and!; [done|done|]. right. split; [congruence|done].
Qed.

Lemma wire_write (whole : bool) L k t b :
  wire_ok L (Some k) t -> (if whole then length b = FRAME_SIZE else length b < FRAME_SIZE)%nat ->
  wire_ok (L ++ [Framed k b]) (if whole then Some k else None) t.
Proof.
  intros (H1 & H2 & H3) Hb. split_and!.
  - intros j b' [Hj|Hj]%elem_of_app; [by apply (H1 j b')|]. apply list_elem_of_singleton in Hj as [= -> ->]. by apply H2.
  - intros j Hj. destruct whole; simplify_eq. by apply H2.
  - intros j. destruct (H3 j) as (wh & tl & Heq & Hw & Ht). rewrite sends_app, Heq. simpl.
    destruct (Nat.eqb_spec k j) as [->|Hne].
    + destruct Ht as [->|[? _]]; [|done]. rewrite app_nil_r. destruct whole.
      * exists (wh ++ [b]), []. rewrite app_nil_r. split_and!; [done| |by left].
        apply Forall_app. split; [done|]. by constructor.
      * exists wh, [b]. split_and!; [done|done|]. right. split; [done|by exists b].
    + exists wh, tl. rewrite app_nil_r. split_and!; [done|done|]. destruct Ht as [->|[_ Ht]]; [by left|right].
      split; [destruct whole; congruence|done].
Qed.

(** ** One notification *)

(** What a claim about the wire must be closed under to survive a notification:
    a new connection, a whole write, a write cut short on a connection that is
    then given up. *)
Class WireLaws (W : list SinkAction -> option nat -> nat -> Prop) := {
  wl_mono L s t t' : W L s t -> (t <= t')%nat -> W L s t';
  wl_drop L s t : W L s t -> W L None t;
  wl_connect L t t' k : W L None t -> (t <= k < t')%nat -> W L (Some k) t';
  wl_write (whole : bool) L k t b :
    W L (Some k) t -> (if whole then length b = FRAME_SIZE else length b < FRAME_SIZE)%nat ->
    W (L ++ [Framed k b]) (if whole then Some k else None) t
}.

#[export] Instance wire_ok_laws : WireLaws wire_ok :=
  {| wl_mono := wire_mono; wl_drop := wire_drop; wl_connect := wire_connect; wl_write := wire_write |}.
#[export] Instance no_wire_laws : WireLaws (fun _ _ _ => True).
Proof. by split. Qed.

Section Transport.
Context (env : SinkEnv) (X : World -> Prop) (W : list SinkAction -> option nat -> nat -> Prop) `{!WireLaws W}.

(** A fact about the world that the notifier's steps keep. *)
Record stable : Prop := {
  stable_advance d w : X w -> X (advance env d w);
  stable_disturb w : X w -> X (disturb env true w);
  stable_notifier n w : X w -> X (set_sink (set_notifier n (wd_sink w)) w);
  stable_log a w : X w -> X (log_action a w)
}.
Context (HX : stable).

Definition line (n : CommandNotifier) (L : list SinkAction) (t : nat) (w : World) : Prop :=
  X w /\ sk_notifier (wd_sink w) = Some n /\ wd_log w = L /\ (t <= wd_tick w)%nat.

Lemma disturb_notifier w : sk_notifier (wd_sink (disturb env true w)) = sk_notifier (wd_sink w).
Proof. unfold disturb. by destruct (others _ _ _). Qed.

Lemma disturb_rest b w :
  wd_tick (disturb env b w) = wd_tick w /\ wd_mono (disturb env b w) = wd_mono w /\
  wd_log (disturb env b w) = wd_log w /\ wd_leased (disturb env b w) = wd_leased w.
Proof. unfold disturb. by destruct (others _ _ _). Qed.

Lemma line_advance n L t d w : line n L t w -> line n L (S (wd_tick w)) (advance env d w).
Proof. intros (H1 & H2 & H3 & H4). split_and!; [by apply HX|done|done|simpl; lia]. Qed.

Lemma line_disturb n L t w : line n L t w -> line n L t (disturb env true w).
Proof.
  intros (H1 & H2 & H3 & H4). destruct (disturb_rest true w) as (Ht & _ & Hl & _).
  split_and!; [by apply HX|by rewrite disturb_notifier|by rewrite Hl|by rewrite Ht].
Qed.

Lemma line_le n L t t' w : line n L t w -> (t' <= t)%nat -> line n L t' w.
Proof. intros (? & ? & ? & ?) ?. split_and!; [done..|lia]. Qed.

Lemma unexpired_spec c n L t :
  etriple (line n L t) (unexpired env c) (fun _ => line n L t) (fun e w => e <> NCancelled /\ line n L t w).
Proof.
  intros w Hw. unfold unexpired, system_time_ms, st_bind, st_lift. pose proof (line_advance n L t 0 w Hw) as H.
  apply (line_le _ _ _ t) in H; [|destruct Hw as (_ & _ & _ & ?); lia]. by destruct (ensure _ _) eqn:E; unfold ensure in E; split_if_in E; simplify_eq.
Qed.

Definition reconnects (n : CommandNotifier) (t : nat) (n' : CommandNotifier) (t' : nat) : Prop :=
  (t <= t')%nat /\ nt_producer_id n' = nt_producer_id n /\ nt_next_sequence n' = nt_next_sequence n /\
  (nt_stream n' = nt_stream n \/ nt_stream n = None /\ exists k, nt_stream n' = Some k /\ (t <= k < t')%nat).

Lemma put_notifier_line n n' L t w : line n L t w -> line n' L t (set_sink (set_notifier (Some n') (wd_sink w)) w).
Proof. intros (? & ? & ? & ?). split_and!; [by apply HX|done..]. Qed.

Lemma try_reconnect_spec n L t :
  etriple (line n L t) (try_reconnect env)
    (fun _ w => exists n' t', line n' L t' w /\ reconnects n t n' t')
    (fun _ w => exists n' t', line n' L t' w /\ reconnects n t n' t').
Proof.
  intros w Hw. pose proof Hw as (HXw & Hn & HL & Ht).
  assert (reconnects n t n t) as Hsame by (split_and!; [lia|done|done|by left]).
  unfold try_reconnect, get_notifier, st_get, st_bind, st_ret, st_fail, interleave. rewrite Hn.
  destruct (nt_stream n) as [k|] eqn:Es; [by exists n, t|].
  destruct (waiting (wd_mono w) n); [by exists n, t|].
  set (w1 := advance env 0 (disturb env true w)).
  assert (line n L (S (wd_tick w)) w1) as H1.
  { destruct (disturb_rest true w) as (Hk & _). rewrite <- Hk. by eapply line_advance, line_disturb. }
  assert (forall n', nt_producer_id n' = nt_producer_id n -> nt_next_sequence n' = nt_next_sequence n ->
    (nt_stream n' = None \/ nt_stream n' = Some (wd_tick w)) -> reconnects n t n' (S (wd_tick w))) as Hr.
  { intros n' Hp Hq [Hs|Hs]; (split_and!; [lia|done|done|]); rewrite Es; [by left|right]. split; [done|]. exists (wd_tick w). split; [done|lia]. }
  unfold put_notifier, put_sink, st_modify. destruct (connect_io env (wd_tick w)).
  - exists (reconnected (wd_tick w) n), (S (wd_tick w)). split; [by apply (put_notifier_line n)|]. apply Hr; [done|done|by right].
  - exists (backed_off (wd_mono w1) n), (S (wd_tick w)). split; [by apply (put_notifier_line n)|]. apply Hr; [done|done|by left].
  - exists (backed_off (wd_mono w1) n), (S (wd_tick w)). split; [by apply (put_notifier_line n)|]. apply Hr; [done|done|by left].
  - exists n, (S (wd_tick w)). split; [done|]. apply Hr; [done|done|by left].
Qed.

(** A write that was cut short. *)
Definition attempt (frame : list Z) (a : SinkAction) : Prop :=
  exists k j, a = Framed k (take j frame) /\ (j < length frame)%nat.

(** The notifier and the wire after some writes [tr] of one frame. *)
Definition wrote (n : CommandNotifier) (L tr : list SinkAction)
    (given_up : bool) (w : World) : Prop :=
  exists n' t', line n' (L ++ tr) t' w /\ nt_producer_id n' = nt_producer_id n /\ nt_next_sequence n' = nt_next_sequence n /\
    W (L ++ tr) (if given_up then None else nt_stream n') t'.

Definition cancelled (e : CommandNotifyError) : bool := match e with NCancelled => true | _ => false end.

Lemma wire_reconnects L n t n' t' :
  W L (nt_stream n) t -> reconnects n t n' t' -> W L (nt_stream n') t'.
Proof.
  intros Hw (Ht & _ & _ & [->|(Hs & k & -> & Hk)]); [by apply (wl_mono _ _ t)|].
  rewrite Hs in Hw. by apply (wl_connect _ t).
Qed.

Lemma interleave_line n L t :
  etriple (line n L t) (interleave (E := CommandNotifyError) env true) (fun _ => line n L t) (fun _ _ => False).
Proof.
  intros w Hw. unfold interleave. pose proof (line_advance n L t 0 _ (line_disturb n L t w Hw)) as H.
  apply (line_le _ _ _ t) in H; [done|]. destruct (disturb_rest true w) as (-> & _). destruct Hw as (_ & _ & _ & ?). lia.
Qed.

Lemma record_line a n L t :
  etriple (line n L t) (record (E := CommandNotifyError) a) (fun _ => line n (L ++ [a]) t) (fun _ _ => False).
Proof. intros w (? & ? & ? & ?). split_and!; [by apply HX|done|simpl; by f_equal|done]. Qed.

Lemma disconnect_line b n L t :
  etriple (line n L t) (disconnect_now b) (fun _ w => exists now, line (disconnect b now n) L t w) (fun _ _ => False).
Proof.
  intros w Hw. unfold disconnect_now, get_notifier, st_bind, st_get. destruct Hw as (H1 & H2 & H3 & H4) eqn:E. rewrite H2.
  exists (wd_mono w). by apply (put_notifier_line n).
Qed.

Lemma retry_sleep_line n L t :
  etriple (line n L t) (retry_sleep env) (fun _ => line n L t) (fun _ => line n L t).
Proof.
  intros w Hw. unfold retry_sleep, sleep, st_bind, st_get, st_lift.
  pose proof (line_advance n L t RETRY_DELAY _ (line_disturb n L t w Hw)) as H.
  apply (line_le _ _ _ t) in H; [|destruct (disturb_rest true w) as (-> & _); destruct Hw as (_ & _ & _ & ?); lia].
  by destruct (sleep_cancelled env _).
Qed.

Lemma wrote_cons n n' L a tr b w :
  wrote n' (L ++ [a]) tr b w -> nt_producer_id n' = nt_producer_id n -> nt_next_sequence n' = nt_next_sequence n ->
  wrote n L (a :: tr) b w.
Proof.
  intros (n2 & t2 & Hl & Hp & Hs & Hw) Hp' Hs'. rewrite <- app_assoc in Hl, Hw. simpl in Hl, Hw.
  exists n2, t2. split_and!; [done|congruence|congruence|done].
Qed.

Lemma wrote_none n n' L t b w :
  line n' L t w -> nt_producer_id n' = nt_producer_id n -> nt_next_sequence n' = nt_next_sequence n ->
  W L (nt_stream n') t -> wrote n L [] b w.
Proof.
  intros Hl Hp Hs Hw. exists n', t. rewrite app_nil_r. split_and!; [done..|]. destruct b; [by eapply wl_drop|done].
Qed.

(** The writes on a connection at hand: whole, cut short and given up, or
    cancelled. *)
Lemma failed_write_spec left c frame n L t k j e :
  length frame = FRAME_SIZE -> nt_stream n = Some k -> cancelled e = false ->
  (forall n L t, etriple (fun w => line n L t w /\ W L (nt_stream n) t) (send_attempts env left c frame)
    (fun _ w => exists tr k, Forall (attempt frame) tr /\ (length tr < left)%nat /\ wrote n L (tr ++ [Framed k frame]) false w)
    (fun e w => exists tr, Forall (attempt frame) tr /\ (length tr <= left)%nat /\ wrote n L tr (cancelled e) w)) ->
  etriple (fun w => line n L t w /\ W L (nt_stream n) t)
    (let! _ := record (Framed k (take (Nat.min j (length frame - 1)) frame)) in
     match left with
     | O => let! _ := disconnect_now false in st_fail e
     | S _ => let! _ := disconnect_now true in let! _ := retry_sleep env in send_attempts env left c frame
     end)
    (fun _ w => exists tr k, Forall (attempt frame) tr /\ (length tr < S left)%nat /\ wrote n L (tr ++ [Framed k frame]) false w)
    (fun e w => exists tr, Forall (attempt frame) tr /\ (length tr <= S left)%nat /\ wrote n L tr (cancelled e) w).
Proof.
  intros Hlen Hk He IH. set (a := Framed k _).
  assert (attempt frame a) as Ha by (exists k, (Nat.min j (length frame - 1)); split; [done|unfold FRAME_SIZE in Hlen; lia]).
  apply etriple_pure. intros Hw. rewrite Hk in Hw.
  assert (W (L ++ [a]) None t) as Hw'.
  { apply (wl_write false); [done|]. rewrite length_take. unfold FRAME_SIZE in *. lia. }
  assert (forall b now e w, line (disconnect b now n) (L ++ [a]) t w -> wrote n L [a] e w) as Hone.
  { intros b now e0 w Hl. apply (wrote_cons n (disconnect b now n)); [|done..]. by apply (wrote_none _ (disconnect b now n) _ t). }
  eapply etriple_bind; [eapply etriple_conseq; [apply (record_line a n L t)|done|intros ? ? H; exact H|done]|intros []; cbv beta].
  destruct left as [|left'].
  - eapply etriple_bind; [eapply etriple_conseq; [apply (disconnect_line false n (L ++ [a]) t)|done|intros ? ? H; exact H|done]|intros []; cbv beta].
    apply etriple_fail. intros w [now Hl]. exists [a]. split_and!; [by constructor|simpl; lia|by apply (Hone false now)].
  - eapply etriple_bind; [eapply etriple_conseq; [apply (disconnect_line true n (L ++ [a]) t)|done|intros ? ? H; exact H|done]|intros []; cbv beta].
    apply etriple_exists. intros now.
    eapply etriple_bind; [eapply etriple_conseq; [apply (retry_sleep_line (disconnect true now n) (L ++ [a]) t)|done|intros ? ? H; exact H|]|intros []; cbv beta].
    { intros e0 w Hl. exists [a]. split_and!; [by constructor|simpl; lia|by apply (Hone true now)]. }
    eapply etriple_conseq; [apply (IH (disconnect true now n) (L ++ [a]) t)|by split| |].
    + intros _ w (tr & k' & Htr & Hl & Hwr). exists (a :: tr), k'. split_and!; [by constructor|simpl; lia|].
      by apply (wrote_cons n _ L a (tr ++ [Framed k' frame])) in Hwr.
    + intros e0 w (tr & Htr & Hl & Hwr). exists (a :: tr). split_and!; [by constructor|simpl; lia|by eapply wrote_cons].
Qed.

Lemma send_attempts_spec left c frame n L t :
  length frame = FRAME_SIZE ->
  etriple (fun w => line n L t w /\ W L (nt_stream n) t) (send_attempts env left c frame)
    (fun _ w => exists tr k, Forall (attempt frame) tr /\ (length tr < left)%nat /\ wrote n L (tr ++ [Framed k frame]) false w)
    (fun e w => exists tr, Forall (attempt frame) tr /\ (length tr <= left)%nat /\ wrote n L tr (cancelled e) w).
Proof.
  intros Hlen. revert n L t. induction left as [|left IH]; intros n L t; cbn [send_attempts].
  { apply etriple_fail. intros w [Hl Hw]. exists []. split_and!; [constructor|simpl; lia|]. by apply (wrote_none n n L t). }
  apply etriple_pure. intros Hw.
  eapply etriple_bind; [eapply etriple_conseq; [apply (unexpired_spec c n L t)|done|intros ? ? H; exact H|]|intros []; cbv beta].
  { intros e w [_ Hl]. exists []. split_and!; [constructor|simpl; lia|]. by apply (wrote_none n n L t). }
  eapply etriple_bind; [eapply etriple_conseq; [apply (try_reconnect_spec n L t)|done|intros ? ? H; exact H|]|intros []; cbv beta].
  { intros e w (n' & t' & Hl & Hr). exists []. split_and!; [constructor|simpl; lia|].
    pose proof (wire_reconnects _ _ _ _ _ Hw Hr). destruct Hr as (_ & ? & ? & _). by apply (wrote_none n n' L t'). }
  apply etriple_exists. intros n1. apply etriple_exists. intros t1.
  apply etriple_pure. intros Hr. pose proof (wire_reconnects _ _ _ _ _ Hw Hr) as Hw1. destruct Hr as (_ & Hp & Hs & _). intros w Hl.
  assert (forall b w', line n1 L t1 w' -> wrote n L [] b w') as Hnone by (intros; by apply (wrote_none n n1 L t1)).
  unfold st_bind at 1, get_notifier. pose proof Hl as (_ & Hn & _ & _). rewrite Hn. clear Hn.
  unfold st_bind at 1, st_lift. destruct (nt_stream n1) as [k|] eqn:Ek; cbn [ok_or].
  2:{ exists []. split_and!; [constructor|simpl; lia|by apply Hnone]. }
  unfold st_bind at 1, st_get. rewrite <- Ek in Hw1.
  generalize (write_io env (wd_tick w)). intros wr. revert w Hl.
  match goal with |- forall w, line n1 L t1 w -> match ?c w with _ => _ end =>
    enough (etriple (line n1 L t1) c
      (fun _ w => exists tr k, Forall (attempt frame) tr /\ (length tr < S left)%nat /\ wrote n L (tr ++ [Framed k frame]) false w)
      (fun e w => exists tr, Forall (attempt frame) tr /\ (length tr <= S left)%nat /\ wrote n L tr (cancelled e) w)) as H by (intros w Hl; exact (H w Hl)) end.
  assert (forall tr b w, wrote n1 L tr b w -> wrote n L tr b w) as Hwr.
  { intros tr b w (n2 & t2 & H1 & H2 & H3 & H4). exists n2, t2. split_and!; [done|congruence|congruence|done]. }
  eapply etriple_bind; [eapply etriple_conseq; [apply (interleave_line n1 L t1)|done|intros ? ? H; exact H|done]|intros []; cbv beta].
  destruct wr as [|j|j|j].
  - eapply etriple_conseq; [apply (record_line (Framed k frame) n1 L t1)|done| |done].
    intros [] w Hl. exists [], k. split_and!; [constructor|simpl; lia|]. apply Hwr. exists n1, t1. split_and!; [done..|].
    rewrite Ek. apply (wl_write true); [by rewrite <- Ek|done].
  - eapply etriple_conseq; [apply (failed_write_spec left c frame n1 L t1 k j NIo); auto|by split| |];
      naive_solver.
  - eapply etriple_conseq; [apply (failed_write_spec left c frame n1 L t1 k j NTimeout); auto|by split| |];
      naive_solver.
  - eapply etriple_bind; [eapply etriple_conseq; [apply record_line|intros ? H; exact H|intros ? ? H; exact H|done]|intros []; cbv beta].
    apply etriple_fail. intros w Hl. eexists [_]. split_and!; [|simpl; lia|apply Hwr; exists n1, t1; split_and!; [exact Hl|done|done|]].
    + constructor; [|constructor]. eexists k, _. split; [done|]. unfold FRAME_SIZE in Hlen. lia.
    + rewrite Ek in Hw1. apply (wl_write false); [done|]. rewrite length_take. unfold FRAME_SIZE in *. lia.
Qed.

Definition next_sequence (z : Z) : Z := Z.max (wrap 64 (z + 1)) 1.

(** The writes of one notification of [c] with sequence [sequence]: up to three
    attempts of one frame, of which only a last one that succeeds is whole. *)
Definition notification (c : PhysicalDeviceCommand) (producer sequence : Z) (ok : bool) (tr : list SinkAction) : Prop :=
  exists f cut, frame_new c producer sequence = Some f /\ Forall (attempt (frame_to_bytes f)) cut /\
    if ok then (length cut < SEND_RETRIES)%nat /\ exists k, tr = cut ++ [Framed k (frame_to_bytes f)]
    else (length cut <= SEND_RETRIES)%nat /\ tr = cut.

(** A sequence number is used up by every notification that gets as far as the
    first write. *)
Definition notified (c : PhysicalDeviceCommand) (n : CommandNotifier) (L : list SinkAction) (ok given_up : bool) (w : World) : Prop :=
  exists n' t' tr, line n' (L ++ tr) t' w /\ nt_producer_id n' = nt_producer_id n /\
    W (L ++ tr) (if given_up then None else nt_stream n') t' /\
    (ok = false /\ tr = [] /\ nt_next_sequence n' = nt_next_sequence n \/
     nt_next_sequence n' = next_sequence (nt_next_sequence n) /\
     notification c (nt_producer_id n) (nt_next_sequence n) ok tr).

Lemma not_notified c n n' L t b w :
  line n' L t w -> nt_producer_id n' = nt_producer_id n -> nt_next_sequence n' = nt_next_sequence n ->
  W L (nt_stream n') t -> notified c n L false b w.
Proof.
  intros Hl Hp Hs Hw. exists n', t, []. rewrite app_nil_r. split_and!; [done..| |by left].
  destruct b; [by eapply wl_drop|done].
Qed.

Lemma notify_spec c n L t :
  is_writable (ca_kind (pc_target c)) = true ->
  etriple (fun w => line n L t w /\ W L (nt_stream n) t) (notify env c)
    (fun _ w => notified c n L true false w) (fun e w => notified c n L false (cancelled e) w).
Proof.
  intros Hk. unfold notify. apply etriple_pure. intros Hw.
  eapply etriple_bind; [eapply etriple_conseq; [apply (try_reconnect_spec n L t)|done|intros ? ? H; exact H|]|intros []; cbv beta].
  { intros e w (n' & t' & Hl & Hr). pose proof (wire_reconnects _ _ _ _ _ Hw Hr). destruct Hr as (_ & ? & ? & _).
    by apply (not_notified c n n' L t'). }
  apply etriple_exists. intros n1. apply etriple_exists. intros t1.
  apply etriple_pure. intros Hr. pose proof (wire_reconnects _ _ _ _ _ Hw Hr) as Hw1. destruct Hr as (_ & Hp & Hs & _).
  eapply etriple_bind; [eapply etriple_conseq; [apply (unexpired_spec c n1 L t1)|done|intros ? ? H; exact H|]|intros []; cbv beta].
  { intros e w [_ Hl]. by apply (not_notified c n n1 L t1). }
  eapply (etriple_bind _ _ (fun n' w => n' = n1 /\ line n1 L t1 w)).
  { intros w Hl. unfold get_notifier. pose proof Hl as (_ & -> & _). by split. }
  intros n'. cbv beta. intros w [-> Hl]. revert w Hl.
  destruct (frame_new_Some c (nt_producer_id n) (nt_next_sequence n) Hk) as [f Hf]. rewrite Hp, Hs.
  set (bytes := frame_to_bytes f).
  pose proof (frame_new_length _ _ _ _ Hf) as Hlen. fold bytes in Hlen.
  enough (etriple (line n1 L t1)
    (let! _ := put_notifier (take_sequence n1) in
     let! frame := st_lift (ok_or NIo (frame_new c (nt_producer_id n) (nt_next_sequence n))) in
     send_attempts env SEND_RETRIES c (frame_to_bytes frame))
    (fun _ w => notified c n L true false w) (fun e w => notified c n L false (cancelled e) w)) as H by exact H.
  eapply (etriple_bind _ _ (fun _ => line (take_sequence n1) L t1)).
  { intros w Hl. by apply (put_notifier_line n1). }
  intros []. rewrite Hf. cbn [ok_or]. unfold st_bind, st_lift. fold bytes.
  eapply etriple_conseq; [apply (send_attempts_spec SEND_RETRIES c bytes (take_sequence n1) L t1 Hlen)|by split| |].
  - intros _ w (tr & k & Htr & Hl & n2 & t2 & Hline & Hp2 & Hs2 & Hw2). exists n2, t2, (tr ++ [Framed k bytes]).
    split_and!; [done|simpl in Hp2; congruence|done|]. right. split; [rewrite Hs2; simpl; by rewrite Hs|].
    exists f, tr. split_and!; [done|done|done|]. by exists k.
  - intros e w (tr & Htr & Hl & n2 & t2 & Hline & Hp2 & Hs2 & Hw2). exists n2, t2, tr.
    split_and!; [done|simpl in Hp2; congruence|done|]. right. split; [rewrite Hs2; simpl; by rewrite Hs|]. by exists f, tr.
Qed.

Lemma notify_bounded_spec c n L t :
  is_writable (ca_kind (pc_target c)) = true ->
  etriple (fun w => line n L t w /\ W L (nt_stream n) t) (notify_bounded env c)
    (fun _ w => notified c n L true false w) (fun _ w => notified c n L false false w).
Proof.
  intros Hk w Hw. pose proof (notify_spec c n L t Hk w Hw) as H. unfold notify_bounded.
  destruct (notify env c w) as [w' [[]|e|]]; [done| |done]. destruct e; try exact H.
  destruct H as (n' & t' & tr & Hl & Hp & Hwire & Hcase).
  pose proof (disconnect_line false n' (L ++ tr) t' w' Hl) as Hd. destruct (disconnect_now false w') as [w2 [[]|e|]]; [|done|done].
  destruct Hd as [now Hl2]. exists (disconnect false now n'), t', tr. by split_and!.
Qed.

End Transport.

(** ** One command *)

(** The segment of a generation is the canonical one, at its generation. *)
Definition command_authority (g : CommandGeneration) (f : Fs) : Prop :=
  fs_names f !! w_path (cg_writer g) = Some (w_identity (cg_writer g)) /\
  exists m, fs_inodes f !! w_identity (cg_writer g) = Some (ISegment m) /\
    h_writer_generation (m_header m) = cg_expected_generation g /\ stable_generation (cg_expected_generation g) = true.

(** The stages of a [send] and what it has done when it is there. *)
Inductive Stage := Idle | Authorised | Stored | Confirmed | Cleared | Failed | Transported | Completed.

Inductive protocol (c : PhysicalDeviceCommand) (gid : nat) (g : CommandGeneration) : Stage -> list SinkAction -> Prop :=
| pr_idle : protocol c gid g Idle []
| pr_authorise tr f :
    protocol c gid g Idle tr -> command_authority g f -> protocol c gid g Authorised (tr ++ [Checked f (Some gid)])
| pr_store tr slot m :
    protocol c gid g Authorised tr ->
    slot_for (cg_manifest g) (command_physical c) = Some slot -> (slot < length (m_slots m))%nat ->
    protocol c gid g Stored (tr ++ [Mirrored slot m (store_slot m slot (pc_value c) (pc_value c) (pc_issued_at c))])
| pr_confirm tr f :
    protocol c gid g Stored tr -> command_authority g f -> protocol c gid g Confirmed (tr ++ [Checked f (Some gid)])
| pr_clear tr f :
    protocol c gid g Confirmed tr -> command_authority g f -> protocol c gid g Cleared (tr ++ [Checked f (Some gid)])
| pr_fail tr cut producer sequence :
    protocol c gid g Cleared tr -> notification c producer sequence false cut -> protocol c gid g Failed (tr ++ cut)
| pr_transport tr tr' producer sequence :
    protocol c gid g Cleared tr -> notification c producer sequence true tr' -> protocol c gid g Transported (tr ++ tr')
| pr_complete tr f :
    protocol c gid g Transported tr -> command_authority g f -> protocol c gid g Completed (tr ++ [Checked f (Some gid)]).

Section Send.
Context (env : SinkEnv) (Henv : respectful env).
Context (gid : nat) (g : CommandGeneration).

Definition keeps (w : World) : Prop :=
  sound (wd_fs w, wd_sink w) /\ exists g', sk_heap (wd_sink w) !! gid = Some g' /\ same_generation g g'.

Lemma same_generation_trans g1 g2 g3 : same_generation g1 g2 -> same_generation g2 g3 -> same_generation g1 g3.
Proof. unfold same_generation. intuition congruence. Qed.

Lemma keeps_disturb b w : keeps w -> keeps (disturb env b w).
Proof.
  intros [Hs (g' & Hg & Hsame)]. unfold disturb. destruct (Henv (wd_tick w) _ Hs) as [Hs' [Hk _]].
  destruct (others env (wd_tick w) (wd_fs w, wd_sink w)) as [f s]. destruct (Hk gid g' Hg) as (g2 & Hg2 & Hsame2).
  split; [by destruct b|]. exists g2. split; [by destruct b|]. by eapply same_generation_trans.
Qed.

Lemma keeps_stable : stable env keeps.
Proof. split; [by intros d w H|apply keeps_disturb|by intros n w H|by intros a w H]. Qed.

Definition base (L : list SinkAction) (w : World) : Prop := keeps w /\ wd_log w = L.

Lemma base_interleave {E} L : etriple (base L) (interleave (E := E) env false) (fun _ => base L) (fun _ _ => False).
Proof. intros w [Hk HL]. destruct (disturb_rest env false w) as (_ & _ & Hl & _). split; [by apply keeps_disturb|]. simpl. congruence. Qed.

Lemma base_fs L w f : base L w -> fs_inodes f = fs_inodes (wd_fs w) -> base L (set_fs f w).
Proof.
  intros [[[Hs Hc] Hg] HL] Hi. split; [|done]. split; [|done]. split; [|done].
  intros k g1 Hk. specialize (Hs k g1 Hk). unfold generation_ok in *. simpl in *. by rewrite Hi.
Qed.

Lemma base_invalidate L w : base L w -> base L (set_sink (invalidate_stale_generation gid (wd_sink w)) w).
Proof.
  intros [[[Hs Hc] Hg] HL]. unfold invalidate_stale_generation. destruct (negb _ && _); (split; [|done]; split; [|done]; by split).
Qed.

Lemma alive_spec c L : etriple (base L) (alive env c) (fun _ => base L) (fun _ => base L).
Proof. intros w Hw. unfold alive, st_bind, system_time_ms, st_lift. by destruct (physical_validate_at _ _). Qed.

Lemma syscall_view f : fs_names (syscall f).1 = fs_names f /\ fs_inodes (syscall f).1 = fs_inodes f /\ (syscall f).2 <> Panic.
Proof. unfold syscall. by destruct (fs_faults f) as [|[] ?]. Qed.

Lemma validate_authority_spec L :
  etriple (base L) (validate_authority gid)
    (fun _ w => exists f, command_authority g f /\ base (L ++ [Checked f (Some gid)]) w) (fun _ => base L).
Proof.
  intros w Hw. unfold validate_authority, st_bind at 1, st_get. destruct (sk_poisoned (wd_sink w)); [done|].
  unfold or_invalidate, on_err, st_bind, st_lift, deref, on_wfs, port, validate_authoritative_path, st_bind, st_get.
  case_bool_decide as Hcur; cbn [ensure]; [|by apply base_invalidate].
  pose proof Hw as [[[Hs _] (g' & Hg & Hm & He & Hp & Hi & Hc)] HL]. rewrite Hg.
  destruct (Hs gid g' Hg) as (_ & _ & m & Hino & _). simpl in Hino.
  destruct (syscall_view (wd_fs w)) as (Hn1 & Hi1 & Hnp). destruct (syscall (wd_fs w)) as [f1 [[]|e|]] eqn:Es; [| |done]; simpl in Hn1, Hi1.
  2:{ apply base_invalidate, base_fs; done. }
  destruct (fs_names f1 !! w_path (cg_writer g')) as [id|] eqn:En; [|apply base_invalidate, base_fs; done].
  destruct (Nat.eqb_spec id (w_identity (cg_writer g'))) as [->|]; [|apply base_invalidate, base_fs; done].
  unfold st_ret, mapping_of. cbn [set_fs wd_fs]. rewrite Hi1, Hino.
  destruct (ensure _ PConflict) eqn:Ee; [|unfold ensure in Ee; split_if_in Ee; simplify_eq; apply base_invalidate, base_fs; [by apply base_fs|done]|unfold ensure in Ee; by split_if_in Ee].
  apply ensure_ok in Ee. bool_facts. apply Z.eqb_eq in H. exists f1. split.
  - split; [congruence|]. exists m. rewrite Hi1. split_and!; congruence.
  - cbn [set_fs wd_sink wd_fs]. rewrite Hcur. split; [|simpl; by rewrite HL]. by apply (base_fs L w f1).
Qed.

Lemma validate_authority_notifier w : sk_notifier (wd_sink (validate_authority gid w).1) = sk_notifier (wd_sink w).
Proof.
  unfold validate_authority, or_invalidate, on_err, st_bind, st_get, st_lift, deref, on_wfs, port, mapping_of, record, st_modify, st_fail.
  destruct (sk_poisoned _); [done|]. destruct (ensure _ _); cbn.
  2:{ unfold invalidate_stale_generation. by destruct (negb _ && _). }
  2: done.
  destruct (sk_heap (wd_sink w) !! gid); [|done].
  destruct (validate_authoritative_path _ _) as [f1 [[]|e|]]; cbn; [|unfold invalidate_stale_generation; by destruct (negb _ && _)|done].
  destruct (fs_inodes f1 !! _) as [[m|]|]; cbn; try done.
  destruct (ensure _ _); cbn; [done|unfold invalidate_stale_generation; by destruct (negb _ && _)|done].
Qed.

(** Storing into the slots of a segment keeps every generation sound. *)
Lemma sound_store f s id m m' w' :
  sound (f, s) -> fs_inodes f !! id = Some (ISegment m) -> length (m_slots m') = length (m_slots m) ->
  (forall g', sk_heap s !! gid = Some g' -> w_identity w' = w_identity (cg_writer g') /\ w_slot_count w' = w_slot_count (cg_writer g')) ->
  sound (set_inode id (ISegment m') f, set_generation_writer gid w' s).
Proof.
  intros [Hs Hc] Hm Hlen Hw. split.
  - intros k gk Hk. simpl in Hk.
    assert (exists g0, sk_heap s !! k = Some g0 /\ cg_manifest gk = cg_manifest g0 /\
      w_identity (cg_writer gk) = w_identity (cg_writer g0) /\ w_slot_count (cg_writer gk) = w_slot_count (cg_writer g0)) as (g0 & Hk0 & E1 & E2 & E3).
    { destruct (decide (k = gid)) as [->|Hne].
      - rewrite lookup_alter_eq in Hk. destruct (sk_heap s !! gid) as [g0|] eqn:E; [|done]. simpl in Hk. simplify_eq.
        exists g0. destruct (Hw g0 eq_refl). by split_and!.
      - rewrite lookup_alter_ne in Hk by done. by exists gk. }
    destruct (Hs k g0 Hk0) as (H1 & H2 & mk & H3 & H4). unfold generation_ok. rewrite E1, E2, E3. split_and!; [done|done|].
    simpl. destruct (decide (w_identity (cg_writer g0) = id)) as [Heq|Hne].
    + rewrite Heq, lookup_insert_eq. exists m'. split; [done|]. simpl in H3. rewrite Heq, Hm in H3. injection H3 as <-. unfold backed in *. lia.
    + rewrite lookup_insert_ne by done. by exists mk.
  - intros k Hk. simpl in *. destruct (Hc k Hk) as [gk Hgk]. destruct (decide (k = gid)) as [->|Hne].
    + rewrite lookup_alter_eq. simpl in Hgk. rewrite Hgk. eauto.
    + rewrite lookup_alter_ne by done. eauto.
Qed.

Lemma mirror_spec c L :
  physical_command_ok c ->
  etriple (base L) (mirror env gid c)
    (fun _ w => exists slot m, slot_for (cg_manifest g) (command_physical c) = Some slot /\ (slot < length (m_slots m))%nat /\
       base (L ++ [Mirrored slot m (store_slot m slot (pc_value c) (pc_value c) (pc_issued_at c))]) w) (fun _ => base L).
Proof.
  intros Hok. unfold mirror.
  eapply (etriple_bind _ _ (fun g' w => same_generation g g' /\ base L w)).
  { intros w Hw. unfold deref. pose proof Hw as [[_ (g' & -> & Hsame)] _]. by split. }
  intros g1. cbv beta. intros w [Hg1 Hw]. revert w Hw. destruct Hg1 as (Hm1 & _). rewrite Hm1.
  destruct (slot_for (cg_manifest g) (command_physical c)) as [slot|] eqn:Hslot.
  2:{ intros w Hw. unfold st_bind, st_lift. exact Hw. }
  intros w Hw. unfold st_bind at 1, st_lift at 1. cbn [ok_or]. revert w Hw.
  match goal with |- forall w, base L w -> match ?k w with _ => _ end =>
    enough (etriple (base L) k (fun _ w => exists slot m, Some slot = Some slot /\ slot_for (cg_manifest g) (command_physical c) = Some slot /\ (slot < length (m_slots m))%nat /\
       base (L ++ [Mirrored slot m (store_slot m slot (pc_value c) (pc_value c) (pc_issued_at c))]) w) (fun _ => base L)) as H
  end.
  { intros w Hw. specialize (H w Hw). destruct (st_bind _ _ w) as [? [|?|]]; naive_solver. }
  eapply etriple_bind; [eapply etriple_conseq; [apply (base_interleave L)|done|intros ? ? H; exact H|done]|intros []; cbv beta].
  intros w Hw. pose proof Hw as [[Hsnd (g' & Hg & Hsame)] HL]. pose proof Hsnd as [Hs _].
  destruct (Hs gid g' Hg) as (Hman & Hcnt & m & Hino & Hback). destruct Hsame as (Hm & He & Hp & Hi & Hc).
  simpl in Hino. rewrite Hm in Hman, Hcnt, Hback.
  assert (slot < mf_slot_count (cg_manifest g))%nat as Hlt.
  { destruct Hok as (_ & _ & _ & _ & Hpt & _). apply (manifest_slot_range (cg_manifest g) (command_physical c) slot); [done|unfold fits in Hpt; simpl; lia|done]. }
  unfold st_bind, deref, on_wfs, port, mapping_of, st_lift, st_modify, put_sink, record, set_direct. rewrite Hg, Hino.
  replace (slot <? w_slot_count (cg_writer g'))%nat with true by (symmetry; apply Nat.ltb_lt; lia).
  exists slot, m. unfold backed in Hback. split_and!; [done|done|lia|]. split; [split|]; simpl.
  - apply (sound_store (wd_fs w) (wd_sink w) (w_identity (cg_writer g')) m); [done|done|apply length_alter|].
    intros g2 Hg2. rewrite Hg in Hg2. by simplify_eq.
  - rewrite lookup_alter_eq, Hg. eexists. split; [done|]. unfold same_generation. simpl. by split_and!.
  - by rewrite HL.
Qed.

(** The lease loop ends: each round takes 2 ms of the 350. *)
Lemma acquire_loop_spec fuel expires_at started L :
  (0 < fuel)%nat ->
  etriple (fun w => base L w /\ AUTHORITY_READ_TIMEOUT <= wd_mono w - started + AUTHORITY_RETRY_DELAY * (Z.of_nat fuel - 1))
    (acquire_loop env fuel gid expires_at started) (fun _ => base L) (fun _ => base L).
Proof.
  intros Hfuel. induction fuel as [|fuel IH]; [lia|]. cbn [acquire_loop]. intros w [Hw Ht].
  unfold st_bind at 1, st_get at 1. destruct (lease_io env (wd_tick w)) as [| |e]; [|  |exact Hw].
  - pose proof (base_interleave (E := PortErrorKind) L w Hw) as H. unfold st_bind. by destruct (interleave env false w) as [w' [[]|e|]].
  - unfold st_bind at 1, system_time_ms. cbv beta iota. set (w1 := advance env 0 w).
    assert (base L w1 /\ wd_mono w <= wd_mono w1) as [Hw1 Hmono] by (split; [exact Hw|simpl; lia]).
    unfold st_bind at 1, st_lift at 1. destruct (negb (expires_at <=? _)); cbn [ensure]; [|done].
    unfold st_bind at 1, st_get at 1. unfold st_bind at 1, st_lift at 1.
    destruct (Z.leb_spec AUTHORITY_READ_TIMEOUT (wd_mono w1 - started)) as [|Hlt]; cbn [ensure negb]; [done|].
    unfold st_bind at 1, sleep. apply IH; [destruct fuel; [simpl in Ht; lia|lia]|].
    destruct (disturb_rest env false w1) as (_ & Hm & Hl & _). split.
    + destruct Hw1 as [Hk HL]. split; [by apply keeps_disturb|]. simpl. by rewrite Hl.
    + simpl wd_mono. rewrite Hm. unfold AUTHORITY_RETRY_DELAY, ms in *. lia.
Qed.

Lemma transport_spec c L :
  physical_command_ok c ->
  etriple (base L) (transport env gid c)
    (fun _ w => exists f tr producer sequence, command_authority g f /\ notification c producer sequence true tr /\
       base (L ++ [Checked f (Some gid)] ++ tr) w)
    (fun _ w => base L w \/ (exists f, command_authority g f /\ base (L ++ [Checked f (Some gid)]) w) \/
       exists f tr producer sequence, command_authority g f /\ notification c producer sequence false tr /\
       base (L ++ [Checked f (Some gid)] ++ tr) w).
Proof.
  intros Hok. unfold transport.
  set (listening w := base L w /\ is_Some (sk_notifier (wd_sink w))).
  intros w Hw. unfold st_bind at 1, st_get. unfold st_bind at 1, st_lift.
  destruct (sk_notifier (wd_sink w)) as [n|] eqn:En; cbn [ok_or]; [|by left].
  assert (listening (advance env 0 (disturb env false w))) as Hl.
  { pose proof (base_interleave (E := PortErrorKind) L w Hw) as H. split; [exact H|]. simpl.
    unfold disturb. destruct Hw as [[Hs _] _]. destruct (Henv (wd_tick w) _ Hs) as [_ [_ Hn]].
    destruct (others env (wd_tick w) (wd_fs w, wd_sink w)). apply Hn. simpl. by rewrite En. }
  unfold st_bind at 1, interleave. unfold st_bind at 1. destruct (negb (lock_timeout env (wd_tick w))); cbn [ensure]; [|left; apply Hl].
  clear Hw En n. revert Hl. generalize (advance env 0 (disturb env false w)). clear w.
  match goal with |- forall w, listening w -> match ?k w with _ => _ end =>
    enough (etriple listening k (fun _ w => exists f tr producer sequence, command_authority g f /\ notification c producer sequence true tr /\
       base (L ++ [Checked f (Some gid)] ++ tr) w)
    (fun _ w => base L w \/ (exists f, command_authority g f /\ base (L ++ [Checked f (Some gid)]) w) \/
       exists f tr producer sequence, command_authority g f /\ notification c producer sequence false tr /\
       base (L ++ [Checked f (Some gid)] ++ tr) w)) as H by exact H end.
  eapply (etriple_bind _ _ (fun _ => listening)).
  { intros w [Hw Hn]. pose proof (alive_spec c L w Hw) as H. unfold alive, st_bind, system_time_ms, st_lift in *.
    destruct (physical_validate_at _ _); [by split|by left|by left]. }
  intros []. eapply (etriple_bind _ _ (fun _ w => (exists f, command_authority g f /\ base (L ++ [Checked f (Some gid)]) w) /\ is_Some (sk_notifier (wd_sink w)))).
  { intros w [Hw Hn]. pose proof (validate_authority_spec L w Hw) as H. pose proof (validate_authority_notifier w) as Hv.
    destruct (validate_authority gid w) as [w' [[]|e|]]; [|by left|done]. simpl in Hv. by rewrite Hv. }
  intros []. intros w [(f & Hf & Hk & HL) [n Hn]].
  pose proof (notify_bounded_spec env keeps (fun _ _ _ => True) keeps_stable c n (L ++ [Checked f (Some gid)]) (wd_tick w) ltac:(apply Hok) w) as H.
  specialize (H ltac:(by split_and!)). destruct (notify_bounded env c w) as [w' [[]|e|]]; [| |done].
  - destruct H as (n' & t' & tr & (Hk' & _ & HL' & _) & _ & _ & [(? & _)|(_ & Hnot)]); [done|].
    exists f, tr, (nt_producer_id n), (nt_next_sequence n). rewrite app_assoc. by split_and!.
  - destruct H as (n' & t' & tr & (Hk' & _ & HL' & _) & _ & _ & [(_ & -> & _)|(_ & Hnot)]).
    + right; left. exists f. rewrite app_nil_r in HL'. by split_and!.
    + right; right. exists f, tr, (nt_producer_id n), (nt_next_sequence n). rewrite app_assoc. by split_and!.
Qed.

Lemma send_body_spec c L :
  physical_command_ok c ->
  etriple (base L)
    (let! _ := acquire_authority env gid c in
     let! _ := validate_authority gid in
     let! _ := mirror env gid c in
     let! _ := interleave env false in
     let! _ := validate_authority gid in
     let! _ := transport env gid c in
     let! _ := interleave env false in
     let! _ := validate_authority gid in
     let! now := system_time_ms env in
     st_ret (mkCommandReceipt (pc_id c) now))
    (fun r w => cr_command_id r = pc_id c /\ exists tr, protocol c gid g Completed tr /\ base (L ++ tr) w)
    (fun _ w => exists stage tr, stage <> Completed /\ protocol c gid g stage tr /\ base (L ++ tr) w).
Proof.
  intros Hok. set (bad := fun (_ : PortErrorKind) w => _).
  assert (forall stage tr w, stage <> Completed -> protocol c gid g stage tr -> base (L ++ tr) w -> forall e, bad e w) as Hbad by (intros; red; eauto).
  set (at_ stage w := exists tr, protocol c gid g stage tr /\ base (L ++ tr) w).
  assert (forall e w, base L w -> bad e w) as Hidle.
  { intros e w Hw. apply (Hbad Idle []); [done|constructor|by rewrite app_nil_r]. }
  assert (forall s s', s <> Completed -> (forall tr f, protocol c gid g s tr -> command_authority g f -> protocol c gid g s' (tr ++ [Checked f (Some gid)])) ->
    etriple (at_ s) (validate_authority gid) (fun _ => at_ s') bad) as Hcheck.
  { intros s s' Hs Hstep. apply etriple_exists. intros tr w [Hp Hw].
    pose proof (validate_authority_spec (L ++ tr) w Hw) as H. destruct (validate_authority gid w) as [w' [[]|e|]]; [|by apply (Hbad s tr)|done].
    destruct H as (f & Hf & Hb). exists (tr ++ [Checked f (Some gid)]). split; [by apply Hstep|by rewrite app_assoc]. }
  assert (forall s, etriple (at_ s) (interleave env false) (fun _ => at_ s) bad) as Hint.
  { intros s. apply etriple_exists. intros tr w [Hp Hw]. pose proof (base_interleave (E := PortErrorKind) (L ++ tr) w Hw) as H.
    destruct (interleave env false w) as [w' [[]|e|]]; [|done|done]. by exists tr. }
  eapply (etriple_bind _ _ (fun _ => at_ Idle)).
  { intros w Hw. unfold acquire_authority, st_bind at 1, st_get at 1.
    pose proof (acquire_loop_spec ACQUIRE_FUEL (pc_expires_at c) (wd_mono w) L ltac:(unfold ACQUIRE_FUEL; lia) w) as H.
    specialize (H ltac:(split; [done|unfold AUTHORITY_READ_TIMEOUT, AUTHORITY_RETRY_DELAY, ACQUIRE_FUEL, ms; lia])).
    destruct (acquire_loop _ _ _ _ _ w) as [w' [[]|e|]]; [|by apply Hidle|done].
    exists []. split; [constructor|by rewrite app_nil_r]. }
  intros []. eapply etriple_bind; [by apply (Hcheck Idle Authorised); [|intros; by constructor]|intros []].
  eapply (etriple_bind _ _ (fun _ => at_ Stored)).
  { apply etriple_exists. intros tr w [Hp Hw]. pose proof (mirror_spec c (L ++ tr) Hok w Hw) as H.
    destruct (mirror env gid c w) as [w' [[]|e|]]; [|by apply (Hbad Authorised tr)|done].
    destruct H as (slot & m & H1 & H2 & H3). eexists. split; [by apply pr_store|by rewrite app_assoc]. }
  intros []. eapply etriple_bind; [apply (Hint Stored)|intros []].
  eapply etriple_bind; [by apply (Hcheck Stored Confirmed); [|intros; by apply pr_confirm]|intros []].
  eapply (etriple_bind _ _ (fun _ => at_ Transported)).
  { apply etriple_exists. intros tr w [Hp Hw]. pose proof (transport_spec c (L ++ tr) Hok w Hw) as H.
    destruct (transport env gid c w) as [w' [[]|e|]]; [| |done].
    - destruct H as (f & tr' & producer & sequence & Hf & Hn & Hb). exists ((tr ++ [Checked f (Some gid)]) ++ tr').
      split; [eapply pr_transport; [by apply pr_clear|done]|by rewrite <- !app_assoc in *].
    - destruct H as [Hb|[(f & Hf & Hb)|(f & tr' & producer & sequence & Hf & Hn & Hb)]]; [by apply (Hbad Confirmed tr)| |].
      + apply (Hbad Cleared (tr ++ [Checked f (Some gid)])); [done|by apply pr_clear|by rewrite app_assoc].
      + apply (Hbad Failed ((tr ++ [Checked f (Some gid)]) ++ tr')); [done|eapply pr_fail; [by apply pr_clear|done]|by rewrite <- !app_assoc in *]. }
  intros []. eapply etriple_bind; [apply (Hint Transported)|intros []].
  eapply etriple_bind; [by apply (Hcheck Transported Completed); [|intros; by apply pr_complete]|intros []].
  intros w (tr & Hp & Hw). unfold st_bind, system_time_ms, st_ret. split; [done|]. by exists tr.
Qed.

End Send.

(** The slots of acquisition-owned points. *)
Definition acquisition_untouched (manifest : ChannelPointManifest) (m m' : Mapping) : Prop :=
  forall a i, address_fits a -> is_acquisition_owned (pa_kind a) = true ->
    slot_for manifest a = Some i -> m_slots m' !! i = m_slots m !! i.

Lemma protocol_spares_acquisition c gid g stage tr slot m m' :
  physical_command_ok c -> manifest_ok (cg_manifest g) -> protocol c gid g stage tr -> Mirrored slot m m' ∈ tr ->
  acquisition_untouched (cg_manifest g) m m'.
Proof.
  intros Hok Hman Hp Hin.
  assert (forall producer sequence ok tr', notification c producer sequence ok tr' -> Mirrored slot m m' ∉ tr') as Hnot.
  { intros producer sequence ok tr' (f & cut & _ & Hcut & Hcase) Hm.
    assert (Mirrored slot m m' ∈ cut) as Hc.
    { destruct ok; destruct Hcase as [_ Hcase]; [|by subst tr']. destruct Hcase as [k ->].
      apply elem_of_app in Hm as [|Hm]; [done|]. by apply list_elem_of_singleton in Hm. }
    destruct (Forall_elem Hcut Hc) as (k & j & ? & _). done. }
  induction Hp as [|tr f _ IH _|tr slot0 m0 _ IH Hs Hl|tr f _ IH _|tr f _ IH _|tr cut pr sq _ IH Hn|tr tr' pr sq _ IH Hn|tr f _ IH _];
    [by apply not_elem_of_nil in Hin|apply elem_of_app in Hin as [|Hin]..];
    try (by apply IH); try (by apply list_elem_of_singleton in Hin); try (by destruct (Hnot _ _ _ _ Hn)).
  apply list_elem_of_singleton in Hin as [= -> -> ->]. intros a i Ha Hk Hi. simpl.
  destruct (decide (i = slot0)) as [->|Hne]; [|by rewrite list_lookup_alter_ne].
  destruct Ha as [_ Hpa]. destruct Hok as (Hw & _ & _ & _ & Hpt & _). exfalso.
  destruct (manifest_slot_separate (cg_manifest g) a (command_physical c) slot0 slot0 Hman) as [He _]; [unfold fits in *; simpl; lia..|done|done|].
  rewrite (He eq_refl) in Hk. simpl in Hk. by destruct (ca_kind (pc_target c)).
Qed.

Lemma send_spec env c w :
  respectful env -> sound (wd_fs w, wd_sink w) -> wd_leased w = false -> physical_command_ok c ->
  match send env c w with
  | (w', r) =>
    r <> Panic /\ wd_leased w' = false /\ sound (wd_fs w', wd_sink w') /\
    exists tr, wd_log w' = wd_log w ++ tr /\
    (tr = [] /\ is_ok r = false \/
     exists gid g stage, sk_heap (wd_sink w) !! gid = Some g /\ protocol c gid g stage tr /\
       (is_ok r = true <-> stage = Completed) /\
       forall slot m m', Mirrored slot m m' ∈ tr -> acquisition_untouched (cg_manifest g) m m')
  end.
Proof.
  intros Henv Hs Hlease Hok. unfold send, st_bind at 1, alive, st_bind at 1, system_time_ms, st_lift at 1.
  destruct (physical_validate_at c _).
  2,3: split_and!; [done|done|done|]; exists []; rewrite app_nil_r; by split; [|left].
  unfold current_generation, st_bind at 1 2, st_get. cbn [wd_sink advance].
  destruct (sk_poisoned (wd_sink w)).
  { split_and!; [done|done|done|]. exists []. rewrite app_nil_r. by split; [|left]. }
  destruct (sk_current (wd_sink w)) as [gid|] eqn:Ec; cbn [st_ret].
  2:{ split_and!; [done|done|done|]. exists []. rewrite app_nil_r. by split; [|left]. }
  destruct (proj2 Hs gid Ec) as [g Hg]. simpl in Hg. destruct (proj1 Hs gid g Hg) as (Hman & _).
  unfold releasing. pose proof (send_body_spec env Henv gid g c (wd_log w) Hok (advance env 0 w)) as H.
  specialize (H ltac:(split; [split; [exact Hs|]; exists g; split; [exact Hg|by split_and!]|done])).
  destruct (st_bind _ _ _) as [w' [r|e|]]; [| |done].
  - destruct H as (_ & tr & Hp & [Hk _] & HL). split_and!; [done|done|exact Hk|]. exists tr. split; [done|right].
    exists gid, g, Completed. split_and!; [done|done|done|]. intros. by eapply protocol_spares_acquisition.
  - destruct H as (stage & tr & Hst & Hp & [Hk _] & HL). split_and!; [done|done|exact Hk|]. exists tr. split; [done|right].
    exists gid, g, stage. split_and!; [done|done|done|]. intros. by eapply protocol_spares_acquisition.
Qed.

(** ** Claims *)

(** Whatever other tasks and processes do meanwhile and whatever the clock
    and the kernel answer, a [send] returns (it neither panics nor waits for
    the lease for ever), has released the lease, and has followed the protocol:
    it stores only into the slot of its target, never one that acquisition
    owns, behind an authority check; it writes to the socket only behind two
    more checks, at most three attempts of one frame; and it returns a receipt
    exactly when the whole frame was written and the segment was still
    authoritative afterwards. *)
Lemma send_follows_protocol env c w :
  respectful env -> sound (wd_fs w, wd_sink w) -> wd_leased w = false -> physical_command_ok c ->
  match send env c w with
  | (w', r) =>
    r <> Panic /\ wd_leased w' = false /\ sound (wd_fs w', wd_sink w') /\
    exists tr, wd_log w' = wd_log w ++ tr /\
    (tr = [] /\ is_ok r = false \/
     exists gid g stage, sk_heap (wd_sink w) !! gid = Some g /\ protocol c gid g stage tr /\
       (is_ok r = true <-> stage = Completed) /\
       forall slot m m', Mirrored slot m m' ∈ tr -> acquisition_untouched (cg_manifest g) m m')
  end.
Proof. apply send_spec. Qed.

(** *** Witness *)

(** Alone on the machine; the first write breaks after ten bytes. *)
Definition demo_env : SinkEnv :=
  mkEnv (fun _ => 2000) (fun _ => 1%nat) (fun _ fs => fs) (fun _ => LeaseGranted) (fun _ => Connected)
    (fun t => if (t <? 10)%nat then WriteFailed 10 else Written) (fun _ => false) (fun _ => false).
Definition demo_command : PhysicalDeviceCommand :=
  mkPhysicalCommand 5 (mkCommandAddress 7 Command 0) 0x3FF0000000000000 1000 6000.
Definition demo_notifier : CommandNotifier := mkNotifier None 99 1 None MIN_BACKOFF.
Definition demo_sink : ShmDeviceCommandSink :=
  mkSink {[0%nat := mkCommandGeneration sample_writer sample_manifest 100]} (Some 0%nat) false (Some demo_notifier) 0.
Definition demo_world : World := mkWorld sample_fs demo_sink 0 0 false [].

Lemma demo_respectful : respectful demo_env.
Proof. intros t fs H. split; [done|]. split; [|done]. intros gid g Hg. exists g. by split_and!. Qed.

Lemma demo_sound : sound (wd_fs demo_world, wd_sink demo_world).
Proof.
  split.
  - intros gid g Hg. simpl in Hg. apply lookup_singleton_Some in Hg as [<- <-]. split_and!; [apply sample_manifest_ok|done|].
    exists sample_mapping. split; [by apply lookup_singleton_eq|unfold backed; by_decide].
  - intros gid [= <-]. simpl. rewrite lookup_singleton_eq. eauto.
Qed.

Lemma demo_command_ok : physical_command_ok demo_command.
Proof. unfold physical_command_ok. by_decide. Qed.
