(* ===== verification/CommandListener.v ===== *)
(** * The command listener of the IO service

    [services/io/src/core/channels/shm_listener.rs] with [validate_value] of
    [libs/aether-model/src/validation.rs]: 56-byte frames from the command
    sockets are checked, freed of duplicates and handed to the queue of their
    channel. Each connection has its own task; the tasks share the sequence
    map, whose entry is tested and replaced in one step, so the listener is a
    sequence of notifications in some order. *)

From Stdlib Require Import Sorting.Sorted.
From S2P Require Import Prelude F64 Slot Bitmap Segment Snapshot Text BTree Manifest Publish Publication Acquisition Command.

(** ** Commands for a channel *)

(** The command kinds of [PointType], which is all [point_kind] yields. *)
Inductive PointType := Control | Adjustment.

(** The single-point variants of [enum ChannelCommand]. *)
Inductive ChannelCommand :=
| ControlPoint (command_id : string) (point_id value timestamp expires_at_ms : Z)
| AdjustPoint (command_id : string) (point_id value timestamp expires_at_ms : Z).

(** [as i64]. *)
Definition to_i64 (z : Z) : Z := if z <? 2 ^ 63 then z else z - 2 ^ 64.
Definition i64_max : Z := 2 ^ 63 - 1.

Definition hex_digit (z : Z) : ascii :=
  Ascii.ascii_of_N (Z.to_N (if z <? 10 then 48 + z else 87 + z)).

(** [{:016x}]: the nibbles from the highest down. *)
Fixpoint hex_digits (n : nat) (z : Z) : list ascii :=
  match n with O => [] | S n' => hex_digit (Z.shiftr z (4 * Z.of_nat n') mod 16) :: hex_digits n' z end.

Definition uds_command_id (producer_id seq : Z) : string :=
  String.string_of_list_ascii (str_bytes "uds-" ++ hex_digits 16 producer_id ++ str_bytes "-" ++ str_bytes (u64_to_string seq)).

Example uds_command_id_sample : uds_command_id 0xBEEF01 42 = "uds-0000000000beef01-42"%string.
Proof. reflexivity. Qed.

Definition build_command (point_type : PointType) (point_id value timestamp expires_at_ms producer_id seq : Z) : ChannelCommand :=
  let command_id := uds_command_id producer_id seq in
  match point_type with
  | Control => ControlPoint command_id point_id value timestamp expires_at_ms
  | Adjustment => AdjustPoint command_id point_id value timestamp expires_at_ms
  end.

(** ** The listener *)

(** [(channel_id, point_type, address)]. *)
Definition seq_key : Type := Z * Z * Z.

Record ShmCommandListener := mkListener {
  ls_senders : gset Z;
  ls_last_sequences : gmap seq_key (Z * Z);
  ls_dropped_count : Z;
  ls_delivered : list (Z * ChannelCommand)
}.

Definition listener_new : ShmCommandListener := mkListener ∅ ∅ 0 [].
Definition register_channel (channel_id : Z) (l : ShmCommandListener) : ShmCommandListener :=
  mkListener ({[channel_id]} ∪ ls_senders l) (ls_last_sequences l) (ls_dropped_count l) (ls_delivered l).
Definition unregister_channel (channel_id : Z) (l : ShmCommandListener) : ShmCommandListener :=
  mkListener (ls_senders l ∖ {[channel_id]}) (ls_last_sequences l) (ls_dropped_count l) (ls_delivered l).

(** How handing a command to the queue ends within its 50 ms. *)
Inductive QueueAnswer := Queued | QueueClosed | QueueFull.

Definition wrapping_sub (x y : Z) : Z := wrap 64 (x - y).

Definition frame_key (f : DeviceCommandFrame) : seq_key := (fr_channel_id f, fr_point_type f, fr_point_id f).

(** [is_stale] or a duplicate of the last accepted frame of the key. *)
Definition superseded (last : option (Z * Z)) (f : DeviceCommandFrame) : bool :=
  match last with
  | Some (last_producer, last_seq) =>
      let same_producer := last_producer =? fr_producer_id f in
      (same_producer && (u64_max / 2 <? wrapping_sub (fr_sequence f) last_seq)) ||
      (same_producer && (fr_sequence f =? last_seq))
  | None => false
  end.

(** The checks before the sequence map. *)
Definition frame_type (f : DeviceCommandFrame) : option PointType :=
  match frame_point_kind f with Some Command => Some Control | Some Action => Some Adjustment | _ => None end.

Definition window_open (f : DeviceCommandFrame) (now_ms : Z) : bool :=
  negb ((fr_expires_at_ms f <=? fr_timestamp_ms f) || (fr_expires_at_ms f <=? now_ms)).

Definition command_of (f : DeviceCommandFrame) (t : PointType) (value : Z) : ChannelCommand :=
  build_command t (fr_point_id f) value (to_i64 (fr_timestamp_ms f)) (Z.min (fr_expires_at_ms f) i64_max)
    (fr_producer_id f) (fr_sequence f).

Definition deliver (f : DeviceCommandFrame) (t : PointType) (value : Z) (answer : QueueAnswer) (l : ShmCommandListener) : ShmCommandListener :=
  let command := command_of f t value in
  if decide (fr_channel_id f ∈ ls_senders l) then
    match answer with
    | Queued => mkListener (ls_senders l) (ls_last_sequences l) (ls_dropped_count l) (ls_delivered l ++ [(fr_channel_id f, command)])
    | QueueClosed => l
    | QueueFull => mkListener (ls_senders l) (ls_last_sequences l) (wrap 64 (ls_dropped_count l + 1)) (ls_delivered l)
    end
  else l.

(** [handle_notification]; [now_ms] is absent when the clock is before the epoch. *)
Definition handle_notification (f : DeviceCommandFrame) (now_ms : option Z) (answer : QueueAnswer) (l : ShmCommandListener)
  : ShmCommandListener :=
  match frame_type f, now_ms with
  | Some t, Some now =>
      if negb (window_open f now) then l
      else if superseded (ls_last_sequences l !! frame_key f) f then l
      else
        let l1 := mkListener (ls_senders l) (<[frame_key f := (fr_producer_id f, fr_sequence f)]> (ls_last_sequences l))
                    (ls_dropped_count l) (ls_delivered l) in
        match validate_value (fr_value_bits f) validation_default with
        | Ok value => deliver f t value answer l1
        | _ => l1
        end
  | _, _ => l
  end.

(** What happens to a listener, in order: frames and (un)registrations. *)
Inductive ListenerEvent :=
| Notified (bytes : list Z) (now_ms : option Z) (answer : QueueAnswer)
| Registered (channel_id : Z)
| Unregistered (channel_id : Z).

Definition listener_step (l : ShmCommandListener) (e : ListenerEvent) : ShmCommandListener :=
  match e with
  | Notified bytes now answer => handle_notification (frame_from_bytes bytes) now answer l
  | Registered id => register_channel id l
  | Unregistered id => unregister_channel id l
  end.

Definition listen (l : ShmCommandListener) (events : list ListenerEvent) : ShmCommandListener := foldl listener_step l events.

(** [handle_connection]'s [read_exact] loop: whole frames, in order; a cut tail
    ends the connection. *)
Fixpoint read_frames (fuel : nat) (bytes : list Z) : list (list Z) :=
  match fuel with
  | O => []
  | S fuel' => if (length bytes <? FRAME_SIZE)%nat then []
               else take FRAME_SIZE bytes :: read_frames fuel' (drop FRAME_SIZE bytes)
  end.

Definition connection_frames (bytes : list Z) : list (list Z) := read_frames (S (length bytes)) bytes.

(** ** Reading a connection *)

Lemma read_frames_whole frames tail fuel :
  Forall (fun b => length b = FRAME_SIZE) frames -> (length tail < FRAME_SIZE)%nat ->
  (length frames < fuel)%nat -> read_frames fuel (concat frames ++ tail) = frames.
Proof.
  revert fuel. induction frames as [|b frames IH]; intros fuel Hf Ht Hfuel; (destruct fuel as [|fuel]; [simpl in Hfuel; lia|]); cbn [read_frames].
  - simpl. by rewrite (proj2 (Nat.ltb_lt _ _)).
  - apply Forall_cons_1 in Hf as [Hb Hf]. simpl concat. rewrite <- app_assoc.
    rewrite (proj2 (Nat.ltb_ge _ _)) by (rewrite length_app; lia).
    rewrite <- Hb, take_app_length, drop_app_length. f_equal. apply IH; [done|done|simpl in Hfuel; lia].
Qed.

Lemma connection_frames_whole frames tail :
  Forall (fun b => length b = FRAME_SIZE) frames -> (length tail < FRAME_SIZE)%nat ->
  connection_frames (concat frames ++ tail) = frames.
Proof.
  intros Hf Ht. apply read_frames_whole; [done|done|]. rewrite length_app.
  assert (length frames <= length (concat frames))%nat; [|lia].
  induction Hf as [|b l Hb _ IH]; simpl; [done|]. rewrite length_app, Hb. unfold FRAME_SIZE. lia.
Qed.

(** ** Deduplication *)

(** What a frame that reached a queue satisfied. *)
Definition delivered_as (f : DeviceCommandFrame) (d : Z * ChannelCommand) : Prop :=
  exists t, frame_type f = Some t /\ d = (fr_channel_id f, command_of f t (fr_value_bits f)).

Definition admissible (f : DeviceCommandFrame) (now : option Z) : Prop :=
  is_Some (frame_type f) /\ f64_is_finite (fr_value_bits f) = true /\
  exists t, now = Some t /\ fr_timestamp_ms f < fr_expires_at_ms f /\ t < fr_expires_at_ms f.

(** Frames of one point in the order of their sequence numbers. *)
Definition older (f g : DeviceCommandFrame) : Prop := frame_key f = frame_key g -> fr_sequence f < fr_sequence g.

Definition same_producer (p lo : Z) (f : DeviceCommandFrame) : Prop :=
  fr_producer_id f = p /\ lo <= fr_sequence f < lo + 2 ^ 63.

Definition dedup_inv (p lo : Z) (fs : list DeviceCommandFrame) (l : ShmCommandListener) : Prop :=
  Forall2 delivered_as fs (ls_delivered l) /\ StronglySorted older fs /\
  map_Forall (fun _ ps => ps.1 = p /\ lo <= ps.2 < lo + 2 ^ 63) (ls_last_sequences l) /\
  Forall (fun f => exists s, ls_last_sequences l !! frame_key f = Some (p, s) /\ fr_sequence f <= s) fs.

Lemma StronglySorted_snoc {A} (R : A -> A -> Prop) l x :
  StronglySorted R l -> Forall (fun y => R y x) l -> StronglySorted R (l ++ [x]).
Proof.
  induction 1 as [|y l Hl IH Hy]; intros Hx; simpl; [by repeat constructor|]. apply Forall_cons_1 in Hx as [Hyx Hx].
  constructor; [by apply IH|]. apply Forall_app. split; [done|]. by constructor.
Qed.

Lemma superseded_older p lo last f :
  0 <= lo -> same_producer p lo f -> (forall ps, last = Some ps -> ps.1 = p /\ lo <= ps.2 < lo + 2 ^ 63) ->
  lo + 2 ^ 63 <= 2 ^ 64 -> superseded last f = false -> forall s, last = Some (p, s) -> s < fr_sequence f.
Proof.
  intros Hlo [Hp Hf] Hlast Hhi Hs s ->. unfold superseded in Hs. rewrite Hp, Z.eqb_refl in Hs. simpl in Hs.
  apply orb_false_iff in Hs as [H1 H2]. apply Z.eqb_neq in H2. apply Z.ltb_ge in H1.
  destruct (Hlast _ eq_refl) as [_ Hs']. simpl in Hs'. unfold wrapping_sub, wrap in H1.
  destruct (Z.lt_ge_cases s (fr_sequence f)) as [|Hge]; [done|]. exfalso.
  rewrite <- (Z.mod_add _ 1), Z.mod_small in H1 by lia. change (u64_max / 2) with (2 ^ 63 - 1) in H1. lia.
Qed.

Lemma frame_type_value f v : validate_value (fr_value_bits f) validation_default = Ok v -> v = fr_value_bits f /\ f64_is_finite (fr_value_bits f) = true.
Proof.
  unfold validate_value, f64_is_nan, f64_is_infinite, f64_is_finite. cbn [reject_nan reject_infinity max_abs_value validation_default andb on_some].
  destruct (f64_exponent _ =? 2047); simpl; [destruct (_ =? 0); simpl; intros; by simplify_eq|]. intros; by simplify_eq.
Qed.

Lemma accept_inv p lo fs f l :
  0 <= lo -> lo + 2 ^ 63 <= 2 ^ 64 -> same_producer p lo f -> dedup_inv p lo fs l ->
  superseded (ls_last_sequences l !! frame_key f) f = false ->
  let l1 := mkListener (ls_senders l) (<[frame_key f := (fr_producer_id f, fr_sequence f)]> (ls_last_sequences l))
              (ls_dropped_count l) (ls_delivered l) in
  dedup_inv p lo fs l1 /\ Forall (fun g => older g f) fs.
Proof.
  intros Hlo Hhi Hf (H1 & H2 & H3 & H4) Hs. pose proof Hf as [Hp Hseq].
  assert (forall s, ls_last_sequences l !! frame_key f = Some (p, s) -> s < fr_sequence f) as Hnew.
  { intros s Hs'. apply (superseded_older p lo _ f Hlo Hf (fun ps H => H3 _ ps H) Hhi Hs s Hs'). }
  assert (Forall (fun g => older g f) fs) as Hold.
  { apply (Forall_weaken _ H4). intros g (s & Hg & Hle) Hk. rewrite Hk in Hg. specialize (Hnew s Hg). lia. }
  split; [|done]. split_and!; [done|done| |].
  - simpl. apply map_Forall_insert_2; [by rewrite Hp|done].
  - simpl. apply (Forall_weaken _ H4). intros g (s & Hk & Hle).
    destruct (decide (frame_key g = frame_key f)) as [Heq|Hne].
    + rewrite Heq, lookup_insert_eq. exists (fr_sequence f). rewrite Hp. split; [done|].
      rewrite Heq in Hk. specialize (Hnew s Hk). lia.
    + rewrite lookup_insert_ne by done. by exists s.
Qed.

Lemma handle_inv p lo fs f now answer l :
  0 <= lo -> lo + 2 ^ 63 <= 2 ^ 64 -> same_producer p lo f -> dedup_inv p lo fs l ->
  exists fs', (fs' = fs \/ fs' = fs ++ [f] /\ admissible f now) /\ dedup_inv p lo fs' (handle_notification f now answer l).
Proof.
  intros Hlo Hhi Hf Hinv. unfold handle_notification.
  destruct (frame_type f) as [t|] eqn:Et; [|by exists fs; split; [left|]].
  destruct now as [now|]; [|by exists fs; split; [left|]].
  destruct (window_open f now) eqn:Ew; cbn [negb]; [|by exists fs; split; [left|]].
  destruct (superseded _ f) eqn:Es; [by exists fs; split; [left|]|].
  destruct (accept_inv p lo fs f l Hlo Hhi Hf Hinv Es) as [Hinv1 Hold].
  destruct (validate_value _ _) as [v|e|] eqn:Ev; [|by exists fs; split; [left|]..].
  apply frame_type_value in Ev as [-> Hfin]. unfold deliver. case_decide; [|by exists fs; split; [left|]].
  destruct answer; [|by exists fs; split; [left|]..].
  exists (fs ++ [f]). unfold window_open in Ew. bool_facts. split.
  - right. split; [done|]. split_and!; [by rewrite Et|done|]. exists now. split_and!; [done|lia|lia].
  - destruct Hinv1 as (Hd & Hsort & Hlast & Hseen). cbn [ls_delivered ls_last_sequences] in *. split_and!.
    + simpl. apply Forall2_app; [done|]. constructor; [|constructor]. by exists t.
    + by apply StronglySorted_snoc.
    + done.
    + apply Forall_app. split; [done|]. constructor; [|constructor]. simpl. rewrite lookup_insert_eq.
      exists (fr_sequence f). destruct Hf as [-> _]. split; [done|lia].
Qed.

(** The frames among the events. *)
Definition arrived (events : list ListenerEvent) (f : DeviceCommandFrame) (now : option Z) : Prop :=
  exists bytes answer, Notified bytes now answer ∈ events /\ f = frame_from_bytes bytes.

Lemma listen_inv p lo events fs l :
  0 <= lo -> lo + 2 ^ 63 <= 2 ^ 64 -> (forall f now, arrived events f now -> same_producer p lo f) -> dedup_inv p lo fs l ->
  exists fs', dedup_inv p lo (fs ++ fs') (listen l events) /\
    Forall (fun f => exists now, arrived events f now /\ admissible f now) fs'.
Proof.
  intros Hlo Hhi. revert fs l. induction events as [|e events IH]; intros fs l Ha Hinv.
  { exists []. rewrite app_nil_r. by split; [|constructor]. }
  assert (forall f now, arrived events f now -> arrived (e :: events) f now) as Hmore.
  { intros f now (b & an & Hin & ->). exists b, an. by split; [right|]. }
  assert (exists fs1, dedup_inv p lo (fs ++ fs1) (listener_step l e) /\
    Forall (fun f => exists now, arrived (e :: events) f now /\ admissible f now) fs1) as (fs1 & Hinv1 & Hf1).
  { destruct e as [bytes now answer|id|id].
    - assert (arrived (Notified bytes now answer :: events) (frame_from_bytes bytes) now) as Har by (exists bytes, answer; by split; [left|]).
      destruct (handle_inv p lo fs (frame_from_bytes bytes) now answer l Hlo Hhi (Ha _ _ Har) Hinv) as (fs' & [->|[-> Hadm]] & Hinv').
      + exists []. rewrite app_nil_r. by split; [|constructor].
      + exists [frame_from_bytes bytes]. split; [done|]. constructor; [by exists now|constructor].
    - exists []. rewrite app_nil_r. by split; [|constructor].
    - exists []. rewrite app_nil_r. by split; [|constructor]. }
  destruct (IH (fs ++ fs1) (listener_step l e)) as (fs2 & Hinv2 & Hf2); [intros f now Hf; by eapply Ha, Hmore|done|].
  exists (fs1 ++ fs2). rewrite app_assoc. split; [done|]. apply Forall_app. split; [done|].
  apply (Forall_weaken _ Hf2). intros f (now & ? & ?). exists now. eauto.
Qed.

Lemma listener_new_inv p lo : dedup_inv p lo [] listener_new.
Proof. split_and!; [constructor|constructor|apply map_Forall_empty|constructor]. Qed.

(** ** Claims *)

(** Frames of one producer incarnation whose sequence numbers span less
    than half the 64-bit range may arrive in any order and any number of times,
    between any registrations: for each point, the commands that reach a queue
    have strictly increasing sequence numbers, so none is delivered twice and
    none after a newer one; each was a finite value for a command-owned point,
    with a proper window that was still open when it arrived. *)
Lemma listener_no_replay p lo events :
  0 <= lo -> lo + 2 ^ 63 <= 2 ^ 64 -> (forall f now, arrived events f now -> same_producer p lo f) ->
  exists fs, Forall2 delivered_as fs (ls_delivered (listen listener_new events)) /\ StronglySorted older fs /\
    Forall (fun f => exists now, arrived events f now /\ admissible f now) fs.
Proof.
  intros Hlo Hhi Ha. destruct (listen_inv p lo events [] listener_new Hlo Hhi Ha (listener_new_inv p lo)) as (fs & (H1 & H2 & _) & H3).
  by exists fs.
Qed.

Definition demo_frame (sequence : Z) : list Z :=
  frame_to_bytes (mkCommandFrame 7 0 2 (replicate 7 0) 0x3FF0000000000000 1000 6000 99 sequence).

