(* ===== verification/CommandPath.v ===== *)
(** * Commands end to end

    The notifications of a sink, its sockets and the listener of the IO
    service: a command is delivered at most once, whatever fails in between. *)

From Stdlib Require Import Sorting.Sorted.
From S2P Require Import Prelude F64 Slot Bitmap Segment Snapshot Text BTree Manifest Publish Publication Acquisition Command CommandSink CommandProtocol CommandListener.

(** The notifications of a sink, in the order in which they hold the notifier's
    lock; the results are dropped, others run in between. *)
Fixpoint notify_all (env : SinkEnv) (cs : list PhysicalDeviceCommand) (w : World) : World :=
  match cs with
  | [] => w
  | c :: cs' => notify_all env cs' (notify_bounded env c (disturb env true w)).1
  end.

(** The bytes on a connection. *)
Definition wire (w : World) (k : nat) : list Z := concat (sends (wd_log w) k).

Definition anything (w : World) : Prop := True.

Lemma anything_stable env : stable env anything.
Proof. by split. Qed.

(** [seqs] holds the sequence number of each notification that took one. *)
Definition numbered (lo : Z) (seqs : list (option Z)) : Prop :=
  (forall i q, seqs !! i = Some (Some q) -> lo <= q < lo + Z.of_nat (length seqs)) /\
  (forall i j q q', (i < j)%nat -> seqs !! i = Some (Some q) -> seqs !! j = Some (Some q') -> q < q').

(** A whole write carries the frame of one of the commands. *)
Definition accounted (p : Z) (cs : list PhysicalDeviceCommand) (seqs : list (option Z)) (tr : list SinkAction) : Prop :=
  forall k b, Framed k b ∈ tr -> length b = FRAME_SIZE ->
    exists i q c f, cs !! i = Some c /\ seqs !! i = Some (Some q) /\ frame_new c p q = Some f /\ b = frame_to_bytes f.

Lemma numbered_cons lo (o : option Z) seqs :
  numbered (if o then lo + 1 else lo) seqs -> (forall q, o = Some q -> q = lo) -> numbered lo (o :: seqs).
Proof.
  intros [H1 H2] Ho. split.
  - intros [|i] q Hi; simpl in *.
    + injection Hi as ->. rewrite (Ho q eq_refl). lia.
    + specialize (H1 i q Hi). destruct o; lia.
  - intros [|i] [|j] q q' Hij Hi Hj; simpl in *; try lia.
    + injection Hi as ->. rewrite (Ho q eq_refl). specialize (H1 j q' Hj). lia.
    + apply (H2 i j); [lia|done|done].
Qed.

(** Only a frame's own write can be whole. *)
Lemma notification_whole c p q ok tr k b :
  notification c p q ok tr -> Framed k b ∈ tr -> length b = FRAME_SIZE ->
  exists f, frame_new c p q = Some f /\ b = frame_to_bytes f.
Proof.
  intros (f & cut & Hf & Hcut & Hcase) Hin Hb. exists f. split; [done|].
  assert (Framed k b ∉ cut) as Hno.
  { intros Hc. destruct (Forall_elem Hcut Hc) as (k' & j & [= -> ->] & Hj). rewrite length_take in Hb.
    pose proof (frame_new_length _ _ _ _ Hf). lia. }
  destruct ok; destruct Hcase as [_ Hcase]; [|by subst tr]. destruct Hcase as [k' ->].
  apply elem_of_app in Hin as [Hin|Hin]; [done|]. by apply list_elem_of_singleton in Hin as [= _ ->].
Qed.

Lemma next_sequence_small z : 1 <= z -> z + 1 < 2 ^ 64 -> next_sequence z = z + 1.
Proof. intros. unfold next_sequence, wrap. rewrite Z.mod_small by lia. lia. Qed.

Lemma notify_all_spec env cs n L t w :
  line anything n L t w -> wire_ok L (nt_stream n) t -> Forall physical_command_ok cs ->
  1 <= nt_next_sequence n -> nt_next_sequence n + Z.of_nat (length cs) < 2 ^ 64 ->
  exists n' t' tr seqs, line anything n' (L ++ tr) t' (notify_all env cs w) /\ wire_ok (L ++ tr) (nt_stream n') t' /\
    length seqs = length cs /\ numbered (nt_next_sequence n) seqs /\ accounted (nt_producer_id n) cs seqs tr.
Proof.
  revert n L t w. induction cs as [|c cs IH]; intros n L t w Hl Hw Hok Hlo Hhi; cbn [notify_all].
  { exists n, t, [], []. rewrite app_nil_r. split_and!; [done..| |].
    - by split; [intros []|intros []].
    - intros k b Hin. by apply not_elem_of_nil in Hin. }
  apply Forall_cons_1 in Hok as [Hc Hok]. cbn [length] in Hhi.
  apply (line_disturb env anything (anything_stable env)) in Hl.
  pose proof (notify_bounded_spec env anything wire_ok (anything_stable env) c n L t ltac:(apply Hc) _ (conj Hl Hw)) as H.
  assert (exists ok, notified anything wire_ok c n L ok false (notify_bounded env c (disturb env true w)).1) as [ok Hn].
  { destruct (notify_bounded env c (disturb env true w)) as [w1 [[]|e|]]; [by exists true|by exists false|done]. }
  destruct Hn as (n1 & t1 & tr1 & Hl1 & Hp1 & Hw1 & Hcase).
  set (o := if Z.eqb (nt_next_sequence n1) (nt_next_sequence n) then None else Some (nt_next_sequence n)).
  assert (nt_next_sequence n1 = (if o then nt_next_sequence n + 1 else nt_next_sequence n)) as Hseq.
  { unfold o. destruct Hcase as [(_ & _ & ->)|(-> & _)]; [by rewrite Z.eqb_refl|].
    rewrite next_sequence_small by lia. destruct (Z.eqb_spec (nt_next_sequence n + 1) (nt_next_sequence n)); [lia|done]. }
  destruct (IH n1 (L ++ tr1) t1 _ Hl1 Hw1 Hok) as (n2 & t2 & tr2 & seqs & Hl2 & Hw2 & Hlen & Hnum & Hacc);
    [rewrite Hseq; destruct o; lia|rewrite Hseq; destruct o; lia|].
  exists n2, t2, (tr1 ++ tr2), (o :: seqs). rewrite app_assoc. split_and!; [done|done|simpl; by rewrite Hlen| |].
  - apply numbered_cons; [by rewrite <- Hseq|]. intros q. unfold o. destruct (_ =? _); intros; by simplify_eq.
  - intros k b [Hin|Hin]%elem_of_app Hb.
    + destruct Hcase as [(_ & -> & _)|(Hnext & Hnot)]; [by apply not_elem_of_nil in Hin|].
      destruct (notification_whole _ _ _ _ _ _ _ Hnot Hin Hb) as (f & Hf & ->).
      exists 0%nat, (nt_next_sequence n), c, f. split_and!; [done| |done|done]. unfold o. simpl.
      rewrite Hnext, next_sequence_small by lia. destruct (Z.eqb_spec (nt_next_sequence n + 1) (nt_next_sequence n)); [lia|done].
    + destruct (Hacc k b Hin Hb) as (i & q & c' & f & H1 & H2 & H3 & ->). exists (S i), q, c', f. rewrite <- Hp1. by split_and!.
Qed.

(** The listener reads exactly the whole writes of a connection. *)
Lemma read_wire L stream t k :
  wire_ok L stream t -> connection_frames (concat (sends L k)) = filter (fun b => length b = FRAME_SIZE) (sends L k).
Proof.
  intros (_ & _ & H). destruct (H k) as (whole & tail & -> & Hw & Ht). rewrite concat_app, list.filter_app.
  assert (filter (fun b => length b = FRAME_SIZE) whole = whole) as ->.
  { clear -Hw. induction Hw as [|b l Hb _ IH]; [done|]. rewrite list.filter_cons_True by done. by rewrite IH. }
  destruct Ht as [->|(_ & b & -> & Hb)]; simpl.
  - rewrite list.filter_nil, !app_nil_r. rewrite <- (app_nil_r (concat whole)). apply connection_frames_whole; [done|simpl; unfold FRAME_SIZE; lia].
  - rewrite list.filter_cons_False, list.filter_nil, !app_nil_r by lia. by apply connection_frames_whole.
Qed.

Lemma sends_framed L k b : b ∈ sends L k <-> Framed k b ∈ L.
Proof.
  unfold sends. rewrite list_elem_of_bind. split.
  - intros (a & Hb & Ha). destruct a as [| |k' b']; try (by apply not_elem_of_nil in Hb). simpl in Hb.
    destruct (Nat.eqb_spec k' k) as [->|]; [|by apply not_elem_of_nil in Hb]. apply list_elem_of_singleton in Hb. by subst.
  - intros Ha. exists (Framed k b). split; [|done]. simpl. rewrite Nat.eqb_refl. by apply list_elem_of_singleton.
Qed.

Lemma wire_start stream t : (forall k, stream = Some k -> (k < t)%nat) -> wire_ok [] stream t.
Proof.
  intros H. split_and!; [intros k b Hb; by apply not_elem_of_nil in Hb|done|].
  intros k. exists [], []. by split_and!; [|constructor|left].
Qed.

Lemma frame_new_numbers c p q f : frame_new c p q = Some f -> fr_producer_id f = p /\ fr_sequence f = q.
Proof. unfold frame_new. destruct (ca_kind (pc_target c)); intros; by simplify_eq. Qed.

(** A delivery carries a command out. *)
Definition carries (p : Z) (c : PhysicalDeviceCommand) (d : Z * ChannelCommand) : Prop :=
  exists q f, frame_new c p q = Some f /\ delivered_as f d.

(** Frames in the order of [older] come from distinct notifications. *)
Lemma index_deliveries p (cs : list PhysicalDeviceCommand) (seqs : list (option Z)) fs ds :
  Forall2 delivered_as fs ds -> StronglySorted older fs ->
  Forall (fun f => exists i q c, cs !! i = Some c /\ seqs !! i = Some (Some q) /\ frame_new c p q = Some f) fs ->
  exists sent, NoDup sent /\ Forall2 (fun i d => exists c, cs !! i = Some c /\ carries p c d) sent ds.
Proof.
  intros Hd Hs Hf.
  enough (exists sent, NoDup sent /\ Forall2 (fun i d => exists c, cs !! i = Some c /\ carries p c d) sent ds /\
    Forall (fun i => exists q c f, cs !! i = Some c /\ seqs !! i = Some (Some q) /\ frame_new c p q = Some f /\ f ∈ fs) sent) as (sent & ? & ? & _) by eauto.
  induction Hd as [|f d fs ds Hfd _ IH]; [exists []; split_and!; constructor|].
  apply Forall_cons_1 in Hf as [(i & q & c & Hc & Hq & Hnew) Hf]. inversion Hs as [|? ? Hs' Hall]; subst.
  destruct (IH Hs' Hf) as (sent & Hnd & H2 & Hsent). exists (i :: sent). split_and!.
  - apply list.NoDup_cons. split; [|done]. intros Hi. destruct (Forall_elem Hsent Hi) as (q' & c' & f' & Hc' & Hq' & Hnew' & Hin).
    simplify_eq. specialize (Forall_elem Hall Hin eq_refl). lia.
  - constructor; [|done]. exists c. split; [done|]. by exists q, f.
  - constructor; [exists q, c, f; split_and!; [done..|left]|].
    apply (Forall_weaken _ Hsent). intros j (q' & c' & f' & ? & ? & ? & ?). exists q', c', f'. split_and!; [done..|by right].
Qed.

(** ** Claims *)

(** C4. Between the sink and the devices a command is carried out at most once
    and never in part. Take any number of notifications, whatever the sockets do
    to them (refused connections, writes cut anywhere, timeouts, cancellation),
    and let the tasks of the listener process what they read from the
    connections in any order, any number of times: what reaches the queues are
    commands that were sent, unchanged, and no notification is delivered twice.
    The log starts empty and fewer than [2^63] sequence numbers are used. *)
Theorem command_at_most_once env cs n w events :
  sk_notifier (wd_sink w) = Some n -> wd_log w = [] -> (forall k, nt_stream n = Some k -> (k < wd_tick w)%nat) ->
  Forall physical_command_ok cs -> fits 64 (nt_producer_id n) ->
  1 <= nt_next_sequence n -> nt_next_sequence n + Z.of_nat (length cs) <= 2 ^ 63 ->
  (forall bytes now answer, Notified bytes now answer ∈ events ->
     exists k, bytes ∈ connection_frames (wire (notify_all env cs w) k)) ->
  exists sent, NoDup sent /\
    Forall2 (fun i d => exists c, cs !! i = Some c /\ carries (nt_producer_id n) c d) sent
      (ls_delivered (listen listener_new events)).
Proof.
  intros Hn HL Hstream Hok Hp Hlo Hhi Hread.
  destruct (notify_all_spec env cs n [] (wd_tick w) w) as (n' & t' & tr & seqs & Hl & Hw & Hlen & Hnum & Hacc);
    [by split_and!|apply wire_start; done|done|done|lia|].
  destruct Hl as (_ & _ & Hlog & _). simpl in Hlog, Hw.
  assert (forall f now, arrived events f now -> exists i q c, cs !! i = Some c /\ seqs !! i = Some (Some q) /\
    frame_new c (nt_producer_id n) q = Some f) as Hsrc.
  { intros f now (bytes & answer & Hin & ->). destruct (Hread _ _ _ Hin) as [k Hk]. unfold wire in Hk. rewrite Hlog in Hk.
    rewrite (read_wire _ _ _ _ Hw) in Hk. apply list_elem_of_filter in Hk as [Hb Hk]. apply sends_framed in Hk.
    destruct (Hacc k bytes Hk Hb) as (i & q & c & f & H1 & H2 & H3 & ->). exists i, q, c. split_and!; [done|done|].
    destruct Hnum as [Hr _]. specialize (Hr i q H2). rewrite frame_round; [done|].
    eapply (frame_new_fits c); [|exact Hp| |exact H3]; [by apply (Forall_lookup_1 _ _ _ _ Hok H1)|unfold fits; lia]. }
  destruct (listen_inv (nt_producer_id n) 0 events [] listener_new) as (fs & (Hdel & Hsort & _) & Hfs);
    [lia|lia| |apply listener_new_inv|].
  { intros f now Ha. destruct (Hsrc f now Ha) as (i & q & c & _ & H2 & H3). destruct Hnum as [Hr _]. specialize (Hr i q H2).
    destruct (frame_new_numbers _ _ _ _ H3) as [Hpf Hqf]. split; [done|lia]. }
  simpl in Hdel, Hsort.
  apply (index_deliveries (nt_producer_id n) cs seqs fs); [exact Hdel|exact Hsort|].
  apply (Forall_weaken _ Hfs). intros f (now & Ha & _). by apply (Hsrc f now).
Qed.

(** *** Witness *)

(** What the listener reads on the first connections, twice over. *)
Definition read_twice (w : World) : list ListenerEvent :=
  let frames := concat ((fun k => connection_frames (wire w k)) <$> List.seq 0 40) in
  Registered 7 :: ((fun b => Notified b (Some 2000) Queued) <$> frames ++ frames).

Lemma read_twice_wire w bytes now answer :
  Notified bytes now answer ∈ read_twice w -> exists k, bytes ∈ connection_frames (wire w k).
Proof.
  intros Hin. unfold read_twice in Hin. apply elem_of_cons in Hin as [?|Hin]; [done|].
  apply list_elem_of_fmap in Hin as (b & [= -> -> ->] & Hb). rewrite elem_of_app in Hb.
  assert (b ∈ concat ((fun k => connection_frames (wire w k)) <$> List.seq 0 40)) as Hb' by (by destruct Hb).
  apply list_elem_of_In, in_concat in Hb' as (l & Hl & Hbl). apply list_elem_of_In in Hl, Hbl.
  apply list_elem_of_fmap in Hl as (k & -> & _). by exists k.
Qed.

Definition demo_commands : list PhysicalDeviceCommand := [demo_command; demo_command].

Lemma command_at_most_once_witness :
  length (ls_delivered (listen listener_new (read_twice (notify_all demo_env demo_commands demo_world)))) = 2%nat /\
  exists sent, NoDup sent /\
    Forall2 (fun i d => exists c, demo_commands !! i = Some c /\ carries 99 c d) sent
      (ls_delivered (listen listener_new (read_twice (notify_all demo_env demo_commands demo_world)))).
Proof.
  split; [by vm_compute|].
  apply (command_at_most_once demo_env demo_commands demo_notifier demo_world); [done|done|done| |by_decide|done|done|].
  - repeat constructor; apply demo_command_ok.
  - exact (read_twice_wire (notify_all demo_env demo_commands demo_world)).
Defined.
