(* ===== verification/Application.v ===== *)
(** * Governed use cases

    [crates/aether-application/src]: the policy, the capability table and the
    application facades through which every transport changes the system. All
    facades share one shape (authorize, validate, record the attempt, call the
    port once, record how it ended), which is [governed]; each facade is its
    instance. The human-readable detail of an audit record is kept as the use
    case it describes. *)

From S2P Require Import Prelude F64 Slot Bitmap Segment Snapshot Text BTree Manifest Publish Publication Acquisition Command.

(** ** Context and capabilities *)

Record Actor := mkActor { actor_id : string; actor_permissions : gset string }.
Definition actor_new (id : string) : Actor := mkActor id ∅.
Definition with_permission (permission : string) (a : Actor) : Actor :=
  mkActor (actor_id a) ({[permission]} ∪ actor_permissions a).
Definition has_permission (a : Actor) (permission : string) : bool := bool_decide (permission ∈ actor_permissions a).

Record RequestContext := mkContext { ctx_request_id : string; ctx_actor : Actor; ctx_confirmed : bool; ctx_timestamp : Z }.

Inductive OperationKind := OpQuery | OpCommand.
Inductive RiskLevel := RiskLow | RiskMedium | RiskHigh.
Inductive ConfirmationPolicy := ConfirmNever | ConfirmPolicy | ConfirmAlways.
Inductive AuditPolicy := AuditNotRequired | AuditRequired.

Record CapabilityDescriptor := mkCapability {
  cap_name : string;
  cap_kind : OperationKind;
  cap_risk : RiskLevel;
  cap_required_permission : string;
  cap_confirmation : ConfirmationPolicy;
  cap_audit : AuditPolicy;
  cap_idempotent : bool
}.

(** The rows of the table that change state share everything but their names. *)
Definition high_risk_command (name permission : string) : CapabilityDescriptor :=
  mkCapability name OpCommand RiskHigh permission ConfirmAlways AuditRequired false.

Definition READ_POINT_CAPABILITY := mkCapability "device.read_point" OpQuery RiskLow "device.read" ConfirmNever AuditNotRequired true.
Definition WRITE_POINT_CAPABILITY := high_risk_command "device.write_point" "device.control".
Definition EXECUTE_RULE_CAPABILITY := high_risk_command "automation.rule.execute" "automation.rule.execute".
Definition MANAGE_RULE_CAPABILITY := high_risk_command "automation.rule.manage" "automation.rule.manage".
Definition MANAGE_ROUTING_CAPABILITY := high_risk_command "automation.routing.manage" "automation.routing.manage".
Definition MANAGE_INSTANCE_CAPABILITY := high_risk_command "automation.instance.manage" "automation.instance.manage".
Definition MANAGE_CHANNEL_CAPABILITY := high_risk_command "io.channel.manage" "io.channel.manage".
Definition RECONCILE_CHANNELS_CAPABILITY := high_risk_command "io.channel.reconcile" "io.channel.manage".
Definition MANAGE_ALARM_RULE_CAPABILITY := high_risk_command "alarm.rule.manage" "alarm.rule.manage".
Definition RESOLVE_ALERT_CAPABILITY := high_risk_command "alarm.alert.resolve" "alarm.alert.resolve".
Definition TASKS_LIST_CAPABILITY :=
  mkCapability "data_processing.tasks.list" OpQuery RiskLow "data_processing.read" ConfirmNever AuditNotRequired true.
Definition PROCESSOR_HEALTH_CAPABILITY :=
  mkCapability "data_processing.processors.health" OpQuery RiskLow "data_processing.read" ConfirmNever AuditNotRequired true.
Definition PROCESS_DATA_CAPABILITY :=
  mkCapability "data_processing.process" OpQuery RiskMedium "data_processing.run" ConfirmPolicy AuditRequired false.

Definition capability_catalog : list CapabilityDescriptor :=
  [READ_POINT_CAPABILITY; WRITE_POINT_CAPABILITY; EXECUTE_RULE_CAPABILITY; MANAGE_RULE_CAPABILITY;
   MANAGE_ROUTING_CAPABILITY; MANAGE_INSTANCE_CAPABILITY; MANAGE_CHANNEL_CAPABILITY; RECONCILE_CHANNELS_CAPABILITY;
   MANAGE_ALARM_RULE_CAPABILITY; RESOLVE_ALERT_CAPABILITY; TASKS_LIST_CAPABILITY; PROCESSOR_HEALTH_CAPABILITY;
   PROCESS_DATA_CAPABILITY].

(** [enum ApplicationError] without the variants of data processing. *)
Inductive ApplicationError :=
| PermissionDenied (capability permission : string)
| ConfirmationRequired (capability : string)
| InvalidCommand (e : DomainError)
| InvalidChannelMutation
| AuditUnavailable (e : PortErrorKind)
| PortFailed (e : PortErrorKind).

(** [SafetyPolicy::authorize]. *)
Definition authorize (d : CapabilityDescriptor) (ctx : RequestContext) : outcome ApplicationError unit :=
  if negb (has_permission (ctx_actor ctx) (cap_required_permission d))
  then Err (PermissionDenied (cap_name d) (cap_required_permission d))
  else match cap_confirmation d with
       | ConfirmAlways => if negb (ctx_confirmed ctx) then Err (ConfirmationRequired (cap_name d)) else Ok tt
       | _ => Ok tt
       end.

(** ** Channel mutations *)

#[local] Set Warnings "-register-all".

Inductive ChannelParameterValue :=
| PNull
| PBool (b : bool)
| PInteger (z : Z)
| PFloat (bits : Z)
| PString (s : string)
| PArray (values : list ChannelParameterValue)
| PObject (values : list (string * ChannelParameterValue)).

Fixpoint parameter_value_is_finite (v : ChannelParameterValue) : bool :=
  match v with
  | PFloat bits => f64_is_finite bits
  | PArray values => forallb parameter_value_is_finite values
  | PObject values => forallb (fun kv => parameter_value_is_finite kv.2) values
  | PNull | PBool _ | PInteger _ | PString _ => true
  end.

(** [str::trim().is_empty()] on UTF-8 bytes: nothing but White_Space characters. *)
Fixpoint blank (s : list ascii) : bool :=
  match s with
  | [] => true
  | a :: s1 =>
      let x := Z.of_nat (nat_of_ascii a) in
      if (x =? 32) || ((9 <=? x) && (x <=? 13)) then blank s1
      else match s1 with
           | [] => false
           | b :: s2 =>
               let y := Z.of_nat (nat_of_ascii b) in
               if (x =? 0xC2) && ((y =? 0x85) || (y =? 0xA0)) then blank s2
               else match s2 with
                    | [] => false
                    | c :: s3 =>
                        let z := Z.of_nat (nat_of_ascii c) in
                        if ((x =? 0xE1) && (y =? 0x9A) && (z =? 0x80)) ||
                           ((x =? 0xE2) && (y =? 0x80) && (((0x80 <=? z) && (z <=? 0x8A)) || (z =? 0xA8) || (z =? 0xA9) || (z =? 0xAF))) ||
                           ((x =? 0xE2) && (y =? 0x81) && (z =? 0x9F)) ||
                           ((x =? 0xE3) && (y =? 0x80) && (z =? 0x80))
                        then blank s3 else false
                    end
           end
  end.

Record ChannelDefinition := mkDefinition {
  def_requested_channel_id : option Z;
  def_name : string;
  def_description : option string;
  def_protocol : string;
  def_parameters : list (string * ChannelParameterValue);
  def_enabled : bool
}.

Record ChannelPatch := mkPatch {
  pt_name : option string;
  pt_description : option string;
  pt_protocol : option string;
  pt_parameters : option (list (string * ChannelParameterValue));
  pt_logging : bool (* a logging policy is given *)
}.

Inductive ChannelMutation :=
| MCreate (definition : ChannelDefinition)
| MUpdate (channel_id : Z) (expected_revision : option Z) (patch : ChannelPatch)
| MDelete (channel_id : Z) (expected_revision : option Z)
| MSetEnabled (channel_id : Z) (expected_revision : option Z) (enabled : bool).

Definition mutation_channel_id (m : ChannelMutation) : option Z :=
  match m with
  | MCreate d => def_requested_channel_id d
  | MUpdate id _ _ | MDelete id _ | MSetEnabled id _ _ => Some id
  end.

Definition mutation_expected_revision (m : ChannelMutation) : option Z :=
  match m with MCreate _ => None | MUpdate _ r _ | MDelete _ r | MSetEnabled _ r _ => r end.

Definition patch_is_empty (p : ChannelPatch) : bool :=
  match pt_name p, pt_description p, pt_protocol p, pt_parameters p, pt_logging p with
  | None, None, None, None, false => true
  | _, _, _, _, _ => false
  end.

Definition validate_non_blank (s : string) : outcome ApplicationError unit :=
  ensure (negb (blank (str_bytes s))) InvalidChannelMutation.

Definition validate_parameters (ps : list (string * ChannelParameterValue)) : outcome ApplicationError unit :=
  ensure (forallb (fun kv => parameter_value_is_finite kv.2) ps) InvalidChannelMutation.

Definition on_present {A} (o : option A) (f : A -> outcome ApplicationError unit) : outcome ApplicationError unit :=
  match o with Some a => f a | None => Ok tt end.

Definition validate_mutation (m : ChannelMutation) : outcome ApplicationError unit :=
  if on_some (fun id => 10000 <=? id) (mutation_channel_id m) then Err InvalidChannelMutation
  else if on_some (fun r => r =? 0) (mutation_expected_revision m) then Err InvalidChannelMutation
  else match m with
       | MCreate d =>
           let? _ := validate_non_blank (def_name d) in
           let? _ := validate_non_blank (def_protocol d) in
           validate_parameters (def_parameters d)
       | MUpdate _ _ p =>
           let? _ := ensure (negb (patch_is_empty p)) InvalidChannelMutation in
           let? _ := on_present (pt_name p) validate_non_blank in
           let? _ := on_present (pt_protocol p) validate_non_blank in
           on_present (pt_parameters p) validate_parameters
       | MDelete _ _ | MSetEnabled _ _ _ => Ok tt
       end.

(** ** Use cases *)

Inductive ChannelReconciliationScope := ScopeAll | ScopeOne (channel_id : Z).

(** The facades whose payload is only passed on. *)
Inductive MutationFacade := RuleFacade | ActionRoutingFacade | MeasurementRoutingFacade | AlarmRuleFacade.

Section UseCases.
Context {Payload : Type}.

Inductive UseCase :=
| UWritePoint (command_id : Z) (target : PointAddress) (value : Z) (fence : option Z)
| UExecuteRule (rule_id : Z)
| UResolveAlert (alert_id : Z)
| UMutate (facade : MutationFacade) (mutation : Payload) (expected_revision : option Z)
| UMutateChannel (mutation : ChannelMutation)
| UReconcile (scope : ChannelReconciliationScope).

Inductive AuditOutcome := Rejected | Attempted | Succeeded | AuditFailed.

Record AuditRecord := mkAudit {
  ar_request_id : string;
  ar_actor_id : string;
  ar_capability : string;
  ar_outcome : AuditOutcome;
  ar_timestamp : Z;
  ar_detail : UseCase
}.

(** What a facade hands to its port. *)
Inductive PortCall :=
| CDispatch (command : ControlCommand) (fence : option Z)
| CPass (request : UseCase).

(** Calls and audit records, with how they ended. *)
Inductive AppEvent :=
| EAudit (record : AuditRecord) (stored : bool)
| ECall (call : PortCall) (accepted : bool).

Inductive CompletionAuditStatus := Recorded | Incomplete (failure : PortErrorKind).
Record AcceptedOutcome (R : Type) := mkAccepted {
  ao_receipt : R;
  ao_request_id : string;
  ao_completion_audit : CompletionAuditStatus
}.

Section Facades.
Context {World Receipt : Type}.
Context (audit : AuditRecord -> World -> World * outcome PortErrorKind unit).
Context (ports : PortCall -> World -> World * outcome PortErrorKind Receipt).

Definition AppM (A : Type) : Type := ST (World * list AppEvent) ApplicationError A.

Definition record_audit (d : CapabilityDescriptor) (ctx : RequestContext) (u : UseCase) (o : AuditOutcome) : AppM unit :=
  fun '(w, tr) =>
    let r := mkAudit (ctx_request_id ctx) (actor_id (ctx_actor ctx)) (cap_name d) o (ctx_timestamp ctx) u in
    match audit r w with
    | (w', Ok _) => ((w', tr ++ [EAudit r true]), Ok tt)
    | (w', Err e) => ((w', tr ++ [EAudit r false]), Err (AuditUnavailable e))
    | (w', Panic) => ((w', tr), Panic)
    end.

Definition call_port (c : PortCall) : ST (World * list AppEvent) PortErrorKind Receipt :=
  fun '(w, tr) =>
    match ports c w with
    | (w', Ok r) => ((w', tr ++ [ECall c true]), Ok r)
    | (w', Err e) => ((w', tr ++ [ECall c false]), Err e)
    | (w', Panic) => ((w', tr), Panic)
    end.

(** The common shape. A rejected request is recorded before its error returns. *)
Definition governed (d : CapabilityDescriptor) (ctx : RequestContext) (u : UseCase) (prepare : outcome ApplicationError PortCall)
  : AppM (AcceptedOutcome Receipt) :=
  let reject e := let! _ := record_audit d ctx u Rejected in st_fail e in
  match authorize d ctx with
  | Err e => reject e
  | Panic => st_lift Panic
  | Ok _ =>
      match prepare with
      | Err e => reject e
      | Panic => st_lift Panic
      | Ok c =>
          let! _ := record_audit d ctx u Attempted in
          fun s =>
            match call_port c s with
            | (s', Ok receipt) =>
                match record_audit d ctx u Succeeded s' with
                | (s2, Ok _) => (s2, Ok (mkAccepted _ receipt (ctx_request_id ctx) Recorded))
                | (s2, Err (AuditUnavailable failure)) => (s2, Ok (mkAccepted _ receipt (ctx_request_id ctx) (Incomplete failure)))
                | (s2, Err e) => (s2, Err e)
                | (s2, Panic) => (s2, Panic)
                end
            | (s', Err e) => (let! _ := record_audit d ctx u AuditFailed in st_fail (PortFailed e)) s'
            | (s', Panic) => (s', Panic)
            end
      end
  end.

Definition saturating_add64 (a b : Z) : Z := Z.min (a + b) u64_max.
Definition DEFAULT_COMMAND_TTL_MS : Z := 5000.

(** [ControlApplication::write_point_inner]. *)
Definition write_point (ctx : RequestContext) (command_id : Z) (target : PointAddress) (value : Z) (fence : option Z)
  : AppM (AcceptedOutcome Receipt) :=
  let expires_at := saturating_add64 (ctx_timestamp ctx) DEFAULT_COMMAND_TTL_MS in
  governed WRITE_POINT_CAPABILITY ctx (UWritePoint command_id target value fence)
    (match control_command_new command_id target value (ctx_timestamp ctx) expires_at with
     | Ok c => Ok (CDispatch c fence)
     | Err e => Err (InvalidCommand e)
     | Panic => Panic
     end).

(** [RuleExecutionApplication::execute]. *)
Definition execute_rule (ctx : RequestContext) (rule_id : Z) : AppM (AcceptedOutcome Receipt) :=
  governed EXECUTE_RULE_CAPABILITY ctx (UExecuteRule rule_id) (Ok (CPass (UExecuteRule rule_id))).

(** [AlertResolutionApplication::resolve]. *)
Definition resolve_alert (ctx : RequestContext) (alert_id : Z) : AppM (AcceptedOutcome Receipt) :=
  governed RESOLVE_ALERT_CAPABILITY ctx (UResolveAlert alert_id) (Ok (CPass (UResolveAlert alert_id))).

(** [RuleMutationApplication], [ActionRoutingApplication],
    [MeasurementRoutingApplication] and [AlarmRuleApplication]. *)
Definition mutate_rule (ctx : RequestContext) (m : Payload) (rev : option Z) : AppM (AcceptedOutcome Receipt) :=
  governed MANAGE_RULE_CAPABILITY ctx (UMutate RuleFacade m rev) (Ok (CPass (UMutate RuleFacade m rev))).
Definition mutate_action_routing (ctx : RequestContext) (m : Payload) (rev : option Z) : AppM (AcceptedOutcome Receipt) :=
  governed MANAGE_ROUTING_CAPABILITY ctx (UMutate ActionRoutingFacade m rev) (Ok (CPass (UMutate ActionRoutingFacade m rev))).
Definition mutate_measurement_routing (ctx : RequestContext) (m : Payload) (rev : option Z) : AppM (AcceptedOutcome Receipt) :=
  governed MANAGE_ROUTING_CAPABILITY ctx (UMutate MeasurementRoutingFacade m rev) (Ok (CPass (UMutate MeasurementRoutingFacade m rev))).
Definition mutate_alarm_rule (ctx : RequestContext) (m : Payload) (rev : option Z) : AppM (AcceptedOutcome Receipt) :=
  governed MANAGE_ALARM_RULE_CAPABILITY ctx (UMutate AlarmRuleFacade m rev) (Ok (CPass (UMutate AlarmRuleFacade m rev))).

(** [ChannelManagementApplication::mutate]. *)
Definition mutate_channel (ctx : RequestContext) (m : ChannelMutation) : AppM (AcceptedOutcome Receipt) :=
  governed MANAGE_CHANNEL_CAPABILITY ctx (UMutateChannel m)
    (let? _ := validate_mutation m in Ok (CPass (UMutateChannel m))).

(** [ChannelReconciliationApplication::reconcile]. *)
Definition reconcile_channels (ctx : RequestContext) (scope : ChannelReconciliationScope) : AppM (AcceptedOutcome Receipt) :=
  governed RECONCILE_CHANNELS_CAPABILITY ctx (UReconcile scope) (Ok (CPass (UReconcile scope))).

(** Every way to change the system through the application layer. *)
Definition run_use_case (ctx : RequestContext) (u : UseCase) : AppM (AcceptedOutcome Receipt) :=
  match u with
  | UWritePoint id target value fence => write_point ctx id target value fence
  | UExecuteRule id => execute_rule ctx id
  | UResolveAlert id => resolve_alert ctx id
  | UMutate RuleFacade m rev => mutate_rule ctx m rev
  | UMutate ActionRoutingFacade m rev => mutate_action_routing ctx m rev
  | UMutate MeasurementRoutingFacade m rev => mutate_measurement_routing ctx m rev
  | UMutate AlarmRuleFacade m rev => mutate_alarm_rule ctx m rev
  | UMutateChannel m => mutate_channel ctx m
  | UReconcile scope => reconcile_channels ctx scope
  end.

End Facades.
End UseCases.
Arguments UseCase : clear implicits.
Arguments PortCall : clear implicits.
Arguments AppEvent : clear implicits.
Arguments AuditRecord : clear implicits.
Arguments ao_receipt {R} _.
Arguments ao_request_id {R} _.
Arguments ao_completion_audit {R} _.

(** ** The contract of the application layer *)

Section Contract.
Context {Payload World Receipt : Type}.
Context (audit : AuditRecord Payload -> World -> World * outcome PortErrorKind unit).
Context (ports : PortCall Payload -> World -> World * outcome PortErrorKind Receipt).

Definition capability_of (u : UseCase Payload) : CapabilityDescriptor :=
  match u with
  | UWritePoint _ _ _ _ => WRITE_POINT_CAPABILITY
  | UExecuteRule _ => EXECUTE_RULE_CAPABILITY
  | UResolveAlert _ => RESOLVE_ALERT_CAPABILITY
  | UMutate RuleFacade _ _ => MANAGE_RULE_CAPABILITY
  | UMutate (ActionRoutingFacade | MeasurementRoutingFacade) _ _ => MANAGE_ROUTING_CAPABILITY
  | UMutate AlarmRuleFacade _ _ => MANAGE_ALARM_RULE_CAPABILITY
  | UMutateChannel _ => MANAGE_CHANNEL_CAPABILITY
  | UReconcile _ => RECONCILE_CHANNELS_CAPABILITY
  end.

(** The call a use case may make: the request itself, a command only if it is
    well formed, a channel mutation only if it is valid. *)
Definition permitted_call (ctx : RequestContext) (u : UseCase Payload) (c : PortCall Payload) : Prop :=
  match u with
  | UWritePoint id target value fence =>
      exists cmd, c = CDispatch cmd fence /\ is_writable (lp_kind target) = true /\ f64_is_finite value = true /\
        cmd = mkControl id target value (ctx_timestamp ctx) (saturating_add64 (ctx_timestamp ctx) DEFAULT_COMMAND_TTL_MS) /\
        ctl_issued_at cmd < ctl_expires_at cmd
  | UMutateChannel m => c = CPass u /\ validate_mutation m = Ok tt
  | _ => c = CPass u
  end.

Definition authorised (ctx : RequestContext) (u : UseCase Payload) : Prop :=
  cap_required_permission (capability_of u) ∈ actor_permissions (ctx_actor ctx) /\ ctx_confirmed ctx = true.

Definition audit_of (ctx : RequestContext) (u : UseCase Payload) (o : AuditOutcome) : AuditRecord Payload :=
  mkAudit (ctx_request_id ctx) (actor_id (ctx_actor ctx)) (cap_name (capability_of u)) o (ctx_timestamp ctx) u.

(** What one request leaves behind, and how it ends. *)
Inductive request_trace (ctx : RequestContext) (u : UseCase Payload)
  : list (AppEvent Payload) -> outcome ApplicationError (AcceptedOutcome Receipt) -> Prop :=
| rt_rejected b e : request_trace ctx u [EAudit (audit_of ctx u Rejected) b] (Err e)
| rt_unaudited e : authorised ctx u -> request_trace ctx u [EAudit (audit_of ctx u Attempted) false] (Err (AuditUnavailable e))
| rt_accepted c b receipt status :
    authorised ctx u -> permitted_call ctx u c -> (b = true <-> status = Recorded) ->
    request_trace ctx u [EAudit (audit_of ctx u Attempted) true; ECall c true; EAudit (audit_of ctx u Succeeded) b]
      (Ok (mkAccepted _ receipt (ctx_request_id ctx) status))
| rt_failed c b e :
    authorised ctx u -> permitted_call ctx u c ->
    request_trace ctx u [EAudit (audit_of ctx u Attempted) true; ECall c false; EAudit (audit_of ctx u AuditFailed) b] (Err e).

Lemma authorize_high ctx name permission :
  match authorize (high_risk_command name permission) ctx with
  | Ok _ => permission ∈ actor_permissions (ctx_actor ctx) /\ ctx_confirmed ctx = true
  | Err _ => True
  | Panic => False
  end.
Proof.
  unfold authorize, has_permission. simpl. case_bool_decide; simpl; [|done]. by destruct (ctx_confirmed ctx).
Qed.

Definition prepared (ctx : RequestContext) (u : UseCase Payload) : outcome ApplicationError (PortCall Payload) :=
  match u with
  | UWritePoint id target value fence =>
      match control_command_new id target value (ctx_timestamp ctx) (saturating_add64 (ctx_timestamp ctx) DEFAULT_COMMAND_TTL_MS) with
      | Ok c => Ok (CDispatch c fence)
      | Err e => Err (InvalidCommand e)
      | Panic => Panic
      end
  | UMutateChannel m => let? _ := validate_mutation m in Ok (CPass u)
  | _ => Ok (CPass u)
  end.

Lemma run_use_case_governed ctx u : run_use_case audit ports ctx u = governed audit ports (capability_of u) ctx u (prepared ctx u).
Proof. by destruct u as [| | |[]| |]. Qed.

Lemma validate_mutation_no_panic m : validate_mutation m <> Panic.
Proof.
  assert (forall s, validate_non_blank s <> Panic) as H1 by (intros; apply ensure_not_panic).
  assert (forall ps, validate_parameters ps <> Panic) as H2 by (intros; apply ensure_not_panic).
  unfold validate_mutation. do 2 (split_if; [done|]). destruct m as [d|id r p| |]; try done.
  - repeat (apply obind_not_panic; [auto|intros _]). auto.
  - apply obind_not_panic; [apply ensure_not_panic|intros _]. unfold on_present.
    apply obind_not_panic; [destruct (pt_name p); auto; done|intros _].
    apply obind_not_panic; [destruct (pt_protocol p); auto; done|intros _]. destruct (pt_parameters p); auto; done.
Qed.

Lemma prepared_permitted ctx u :
  match prepared ctx u with Ok c => permitted_call ctx u c | Err _ => True | Panic => False end.
Proof.
  destruct u as [id target value fence| | | |m|]; cbn [prepared permitted_call]; try done.
  - unfold control_command_new. repeat (split_if; [done|]). bool_facts. eexists. split_and!; try done. simpl. lia.
  - pose proof (validate_mutation_no_panic m) as H. destruct (validate_mutation m) as [[]|e|]; done.
Qed.

Lemma record_audit_trace d ctx u o w tr :
  (forall r w, (audit r w).2 <> Panic) ->
  exists w' b, record_audit audit d ctx u o (w, tr) =
    ((w', tr ++ [EAudit (mkAudit (ctx_request_id ctx) (actor_id (ctx_actor ctx)) (cap_name d) o (ctx_timestamp ctx) u) b]),
     match b with true => Ok tt | false => Err (AuditUnavailable (match (audit (mkAudit (ctx_request_id ctx) (actor_id (ctx_actor ctx)) (cap_name d) o (ctx_timestamp ctx) u) w).2 with Err e => e | _ => PUnavailable end)) end).
Proof.
  intros Ha. unfold record_audit. set (r := mkAudit _ _ _ _ _ _). specialize (Ha r w).
  destruct (audit r w) as [w' [[]|e|]]; [by exists w', true|by exists w', false|done].
Qed.

(** ** Claims *)

(** C14. Every state change through the application layer is governed. For any
    audit sink and any ports, a request makes at most one port call, and only
    for an actor who holds the capability's permission and confirmed the
    request, with a validated argument, after the attempt was durably
    recorded. The outcome is recorded too; once the port has accepted, the
    caller gets an acceptance even when that last record fails, never an error
    that would invite a retry. *)
Theorem use_cases_governed ctx u w tr :
  (forall r w, (audit r w).2 <> Panic) -> (forall c w, (ports c w).2 <> Panic) ->
  match run_use_case audit ports ctx u (w, tr) with
  | ((_, tr'), r) => exists new, tr' = tr ++ new /\ request_trace ctx u new r
  end.
Proof.
  intros Ha Hp. rewrite run_use_case_governed. unfold governed.
  assert (match authorize (capability_of u) ctx with Ok _ => authorised ctx u | Err _ => True | Panic => False end) as Hau.
  { unfold authorised. destruct u as [| | |[]| |]; apply authorize_high. }
  pose proof (prepared_permitted ctx u) as Hpr.
  destruct (authorize (capability_of u) ctx) as [[]|e|]; [| |done].
  2:{ destruct (record_audit_trace (capability_of u) ctx u Rejected w tr Ha) as (w' & b & Heq). unfold st_bind. rewrite Heq.
      destruct b; eexists; split; try done; apply rt_rejected. }
  destruct (prepared ctx u) as [c|e|]; [| |done].
  2:{ destruct (record_audit_trace (capability_of u) ctx u Rejected w tr Ha) as (w' & b & Heq). unfold st_bind. rewrite Heq.
      destruct b; eexists; split; try done; apply rt_rejected. }
  destruct (record_audit_trace (capability_of u) ctx u Attempted w tr Ha) as (w1 & b1 & Heq). unfold st_bind at 1. rewrite Heq.
  destruct b1; [|eexists; split; [done|by apply rt_unaudited]].
  unfold call_port. specialize (Hp c w1). destruct (ports c w1) as [w2 [receipt|e|]]; [| |done].
  - match goal with |- context [record_audit _ _ _ _ _ (w2, ?t)] =>
      destruct (record_audit_trace (capability_of u) ctx u Succeeded w2 t Ha) as (w3 & b3 & Heq3) end.
    rewrite Heq3. destruct b3; (eexists; split; [by rewrite <- !app_assoc|]); by apply rt_accepted.
  - match goal with |- context [record_audit _ _ _ _ AuditFailed] => unfold st_bind end.
    match goal with |- context [record_audit _ _ _ _ _ (w2, ?t)] =>
      destruct (record_audit_trace (capability_of u) ctx u AuditFailed w2 t Ha) as (w3 & b3 & Heq3) end.
    rewrite Heq3. destruct b3; (eexists; split; [by rewrite <- !app_assoc|]); by apply rt_failed.
Qed.

End Contract.

(** *** Witness *)

Definition demo_context : RequestContext :=
  mkContext "r-1" (with_permission "io.channel.manage" (actor_new "operator")) true 1000.
Definition demo_mutation : UseCase unit := UMutateChannel (MSetEnabled 4 (Some 2) true).

(** The last record cannot be stored. *)
Definition demo_audit (r : AuditRecord unit) (n : nat) : nat * outcome PortErrorKind unit :=
  match ar_outcome r with Succeeded => (n, Err PUnavailable) | _ => (S n, Ok tt) end.
Definition demo_ports (c : PortCall unit) (n : nat) : nat * outcome PortErrorKind nat := (n, Ok n).

Lemma use_cases_governed_witness :
  let run := run_use_case demo_audit demo_ports demo_context demo_mutation (0%nat, []) in
  is_ok run.2 = true /\ exists new, run.1.2 = new /\ request_trace demo_context demo_mutation new run.2.
Proof.
  intros run. split; [by vm_compute|].
  pose proof (use_cases_governed demo_audit demo_ports demo_context demo_mutation 0%nat []) as H.
  specialize (H ltac:(intros [? ? ? [] ? ?] ?; done) ltac:(done)).
  fold run in H. destruct run as [[w' tr'] r]. destruct H as (new & -> & Hn). by exists new.
Defined.
