(* ===== verification/Dispatcher.v ===== *)
(** * From a request to a device frame

    [services/automation/src/infra/application_control.rs]: the dispatcher that
    routes a logical command to one physical point, checks the configured
    limits and the health of the channel, and hands it to the command sink; and
    the whole control path through [ControlApplication].

    The pinned topology generation and the two SQL lookups are what they
    return; the database may fail. *)

From S2P Require Import Prelude F64 Slot Bitmap Segment Snapshot Text BTree Manifest Publish Publication Acquisition Command CommandSink CommandProtocol Application.

(** ** The dispatcher *)

(** What [pin_command] retains: one publication's routes and channel health. *)
Record PinnedTopology := mkPinned {
  pin_sequence : Z;
  pin_action_route : Z -> Z -> option (Z * PointKind * Z);
  pin_channel_health : Z -> outcome PortErrorKind (option bool)
}.

Record AutomationCommandDispatcher := mkDispatcher {
  ds_topology : option PinnedTopology;
  (* SELECT 1 FROM control_points *)
  ds_control_point : Z -> Z -> outcome unit bool;
  (* SELECT min_value, max_value, step FROM adjustment_points *)
  ds_adjustment_point : Z -> Z -> outcome unit (option (option Z * option Z * Z))
}.

Definition validate_command_topology_fence (fence current_sequence : option Z) : outcome PortErrorKind unit :=
  match fence with
  | None => Ok tt
  | Some expected =>
      match current_sequence with
      | None => Err PUnavailable
      | Some current => ensure (current =? expected) PConflict
      end
  end.

(** [.map_err(database_port_error)]. *)
Definition database {A} (c : outcome unit A) : outcome PortErrorKind A :=
  match c with Ok a => Ok a | Err _ => Err PUnavailable | Panic => Panic end.

(** [.map_err(|error| PortError::new(PortErrorKind::Rejected, ..))]. *)
Definition rejected {A} (c : outcome DomainError A) : outcome PortErrorKind A :=
  match c with Ok a => Ok a | Err _ => Err PRejected | Panic => Panic end.

Definition configured_constraints (d : AutomationCommandDispatcher) (channel_id : Z) (kind : PointKind) (point_id : Z)
  : outcome PortErrorKind CommandConstraints :=
  match kind with
  | Command =>
      let? exists_ := database (ds_control_point d channel_id point_id) in
      let? _ := ensure exists_ PRejected in
      Ok constraints_unbounded
  | Action =>
      let? row := database (ds_adjustment_point d channel_id point_id) in
      let? (lo, hi, step) := ok_or PRejected row in
      rejected (constraints_new lo hi (Some step))
  | Telemetry | Status => Err PRejected
  end.

Definition require_online (health : option bool) : outcome PortErrorKind unit :=
  match health with Some true => Ok tt | Some false | None => Err PUnavailable end.

Section Dispatch.
Context (env : SinkEnv) (d : AutomationCommandDispatcher).

(** [dispatch_inner]. *)
Definition dispatch_inner (command : ControlCommand) (fence : option Z) : SinkM PortErrorKind CommandReceipt :=
  let logical := ctl_target command in
  let! _ := st_lift (ensure (is_writable (lp_kind logical)) PRejected) in
  let! topology := st_lift (ok_or PUnavailable (ds_topology d)) in
  let! _ := interleave env false in (* pin_command().await *)
  let! _ := st_lift (validate_command_topology_fence fence (Some (pin_sequence topology))) in
  let! (channel_id, kind, point_id) :=
    st_lift (ok_or PRejected (pin_action_route topology (lp_instance_id logical) (lp_point_id logical))) in
  let! _ := st_lift (ensure (is_writable kind) PRejected) in
  let! constraints := st_lift (configured_constraints d channel_id kind point_id) in
  let! _ := interleave env false in (* the query's await *)
  let! now := system_time_ms env in
  let! _ := st_lift (rejected (control_validate_at command now constraints)) in
  let! health := st_lift (pin_channel_health topology channel_id) in
  let! _ := st_lift (require_online health) in
  let! target := st_lift (rejected (command_address_new channel_id kind point_id)) in
  let! physical := st_lift (rejected (physical_command_new (ctl_id command) target (ctl_value command)
                                        (ctl_issued_at command) (ctl_expires_at command))) in
  CommandSink.send env physical.

(** What holds whenever the dispatcher reaches the sink. *)
Definition admitted (command : ControlCommand) (fence : option Z) (p : PhysicalDeviceCommand) : Prop :=
  exists topology kind constraints now,
    ds_topology d = Some topology /\
    (forall expected, fence = Some expected -> pin_sequence topology = expected) /\
    pin_action_route topology (lp_instance_id (ctl_target command)) (lp_point_id (ctl_target command)) =
      Some (ca_channel_id (pc_target p), kind, ca_point_id (pc_target p)) /\
    is_writable (lp_kind (ctl_target command)) = true /\ is_writable kind = true /\ ca_kind (pc_target p) = kind /\
    configured_constraints d (ca_channel_id (pc_target p)) kind (ca_point_id (pc_target p)) = Ok constraints /\
    f64_is_finite (ctl_value command) = true /\ in_range constraints (ctl_value command) /\
    validate_command_value constraints (ctl_value command) = Ok tt /\
    now < ctl_expires_at command /\
    pin_channel_health topology (ca_channel_id (pc_target p)) = Ok (Some true) /\
    pc_id p = ctl_id command /\ pc_value p = ctl_value command /\
    pc_issued_at p = ctl_issued_at command /\ pc_expires_at p = ctl_expires_at command.

Lemma rejected_ok {A} (c : outcome DomainError A) a : rejected c = Ok a <-> c = Ok a.
Proof. destruct c; naive_solver. Qed.

Lemma constraints_in_range channel kind point c v :
  configured_constraints d channel kind point = Ok c -> validate_command_value c v = Ok tt ->
  f64_is_finite v = true /\ in_range c v.
Proof.
  unfold configured_constraints. destruct kind; try done.
  - intros (b & _ & (u & _ & [= <-])%obind_ok)%obind_ok Hv. unfold validate_command_value in Hv.
    destruct (f64_is_finite v) eqn:E; [|done]. split; [done|]. split; intros x [=].
  - intros (row & _ & ([[lo hi] step] & _ & Hc)%obind_ok)%obind_ok Hv. apply rejected_ok in Hc.
    by apply (validate_command_value_ok c v lo hi (Some step)).
Qed.

Context (Henv : respectful env).
Context (Hdb : forall a b, ds_control_point d a b <> Panic) (Hdb' : forall a b, ds_adjustment_point d a b <> Panic).
Context (Hroute : forall t, ds_topology d = Some t -> forall a b c k p, pin_action_route t a b = Some (c, k, p) -> fits 32 c /\ fits 32 p).
Context (Hhealth : forall t, ds_topology d = Some t -> forall c, pin_channel_health t c <> Panic).

Definition at_rest (L : list SinkAction) (w : World) : Prop :=
  sound (wd_fs w, wd_sink w) /\ wd_log w = L /\ wd_leased w = false.

Lemma interleave_at_rest {E} L : etriple (at_rest L) (interleave (E := E) env false) (fun _ => at_rest L) (fun _ _ => False).
Proof.
  intros w (Hs & HL & Hl). unfold interleave, at_rest, disturb. destruct (Henv (wd_tick w) _ Hs) as [Hs' _].
  by destruct (others env (wd_tick w) (wd_fs w, wd_sink w)).
Qed.

(** What the sink did for a command, if it was reached. *)
Definition sink_did (command : ControlCommand) (fence : option Z) (L : list SinkAction) (ok : bool) (w : World) : Prop :=
  sound (wd_fs w, wd_sink w) /\ wd_leased w = false /\ exists tr, wd_log w = L ++ tr /\
    (tr = [] /\ ok = false \/
     exists p gid g stage, admitted command fence p /\ physical_command_ok p /\ protocol p gid g stage tr /\
       (ok = true <-> stage = Completed) /\
       forall slot m m', Mirrored slot m m' ∈ tr -> acquisition_untouched (cg_manifest g) m m').

Lemma not_reached command fence L w : at_rest L w -> sink_did command fence L false w.
Proof. intros (? & HL & ?). split_and!; [done|done|]. exists []. rewrite app_nil_r. by split; [|left]. Qed.

Lemma lift_at_rest {A} command fence L (c : outcome PortErrorKind A) :
  c <> Panic -> etriple (at_rest L) (st_lift c) (fun a w => c = Ok a /\ at_rest L w) (fun _ => sink_did command fence L false).
Proof. intros Hc. apply etriple_lift; [done|intros e w _ Hw; by apply not_reached|done]. Qed.

Lemma configured_constraints_no_panic c k p : configured_constraints d c k p <> Panic.
Proof.
  unfold configured_constraints, database. destruct k; try done.
  - specialize (Hdb c p). destruct (ds_control_point d c p) as [[]| |]; done.
  - specialize (Hdb' c p). destruct (ds_adjustment_point d c p) as [[[[lo hi] step]|]| |]; try done. simpl.
    unfold rejected, constraints_new. by destruct (_ || _).
Qed.

Lemma control_validate_no_panic c now k : control_validate_at c now k <> Panic.
Proof.
  unfold control_validate_at, validate_command_value. split_if; [done|]. split_if; [done|]. split_if; [done|].
  destruct (cc_step k); [|done]. by split_if.
Qed.

Lemma rejected_no_panic {A} (c : outcome DomainError A) : c <> Panic -> rejected c <> Panic.
Proof. by destruct c. Qed.

Lemma dispatch_inner_spec command fence L :
  fits 64 (ctl_value command) -> fits 64 (ctl_issued_at command) -> fits 64 (ctl_expires_at command) ->
  etriple (at_rest L) (dispatch_inner command fence)
    (fun _ => sink_did command fence L true) (fun _ => sink_did command fence L false).
Proof.
  intros Hv Hi He. unfold dispatch_inner.
  eapply etriple_bind; [apply lift_at_rest, ensure_not_panic|intros []]. apply etriple_pure_l. intros Hw%ensure_ok.
  eapply etriple_bind; [apply lift_at_rest; by destruct (ds_topology d)|intros topology]. apply etriple_pure_l. intros Htop%ok_or_ok.
  eapply etriple_bind; [eapply etriple_conseq; [apply (interleave_at_rest L)|done|intros ? ? H; exact H|done]|intros []].
  eapply etriple_bind; [apply lift_at_rest|intros []].
  { unfold validate_command_topology_fence. destruct fence; [apply ensure_not_panic|done]. }
  apply etriple_pure_l. intros Hfence.
  eapply etriple_bind; [apply lift_at_rest; by destruct (pin_action_route _ _ _)|intros [[channel kind] point]].
  apply etriple_pure_l. intros Hr%ok_or_ok. destruct (Hroute topology Htop _ _ _ _ _ Hr) as [Hch Hpt].
  eapply etriple_bind; [apply lift_at_rest, ensure_not_panic|intros []]. apply etriple_pure_l. intros Hk%ensure_ok.
  eapply etriple_bind; [apply lift_at_rest, configured_constraints_no_panic|intros constraints]. apply etriple_pure_l. intros Hcon.
  eapply etriple_bind; [eapply etriple_conseq; [apply (interleave_at_rest L)|done|intros ? ? H; exact H|done]|intros []].
  eapply (etriple_bind _ _ (fun _ => at_rest L)); [by intros w (Hs & HL & Hl)|intros now].
  eapply etriple_bind; [apply lift_at_rest, rejected_no_panic, control_validate_no_panic|intros []]. apply etriple_pure_l. intros Hval%rejected_ok.
  eapply etriple_bind; [apply lift_at_rest, (Hhealth topology Htop)|intros health]. apply etriple_pure_l. intros Hh.
  eapply etriple_bind; [apply lift_at_rest; by destruct health as [[]|]|intros []]. apply etriple_pure_l. intros Hon.
  assert (health = Some true) as -> by (by destruct health as [[]|]). clear Hon.
  unfold command_address_new. rewrite Hk. cbn [negb rejected]. unfold st_bind at 1, st_lift at 1.
  unfold control_validate_at in Hval. destruct (Z.leb_spec (ctl_expires_at command) now) as [|Hnow]; [discriminate Hval|].
  destruct (constraints_in_range _ _ _ _ _ Hcon Hval) as [Hfin Hin].
  intros w Hrest. unfold st_bind at 1, st_lift at 1. unfold physical_command_new. rewrite Hfin. cbn [negb].
  destruct (Z.leb_spec (ctl_expires_at command) (ctl_issued_at command)) as [|Hwin]; cbn [rejected]; [by apply not_reached|].
  set (p := mkPhysicalCommand _ _ _ _ _).
  assert (physical_command_ok p) as Hp by (unfold physical_command_ok; by split_and!).
  assert (admitted command fence p) as Had.
  { exists topology, kind, constraints, now. split_and!; try done. intros expected ->. simpl in Hfence. apply ensure_ok in Hfence. by apply Z.eqb_eq. }
  destruct Hrest as (Hs & HL & Hl). pose proof (send_spec env p w Henv Hs Hl Hp) as H.
  destruct (CommandSink.send env p w) as [w' r]. destruct H as (Hnp & Hl' & Hs' & tr & Hlog & Hcase). rewrite HL in Hlog.
  assert (sink_did command fence L (is_ok r) w') as Hdid.
  { split_and!; [done|done|]. exists tr. split; [done|]. destruct Hcase as [|(gid & g & stage & _ & Hpr & Hst & Hacq)]; [by left|right].
    by exists p, gid, g, stage. }
  by destruct r.
Qed.

End Dispatch.

(** ** The control path *)

Section ControlPath.
Context {Store : Type} (audit : AuditRecord unit -> Store -> Store * outcome PortErrorKind unit).
Context (env : SinkEnv) (d : AutomationCommandDispatcher).

(** The audit sink has a store of its own. *)
Definition audit_port (r : AuditRecord unit) (s : World * Store) : (World * Store) * outcome PortErrorKind unit :=
  let '(a', o) := audit r s.2 in ((s.1, a'), o).

(** [AutomationCommandDispatcher] behind [CommandDispatcher]; automation wires
    no other port to this application. *)
Definition command_port (c : PortCall unit) (s : World * Store) : (World * Store) * outcome PortErrorKind CommandReceipt :=
  match c with
  | CDispatch command fence => let '(w', r) := dispatch_inner env d command fence s.1 in ((w', s.2), r)
  | CPass _ => (s, Err PRejected)
  end.

Definition control_write_point (ctx : RequestContext) (id : Z) (target : PointAddress) (value : Z) (fence : option Z) :=
  write_point audit_port command_port ctx id target value fence.

Lemma record_audit_port dc ctx u o w a tr :
  (forall r a, (audit r a).2 <> Panic) ->
  exists a' b r, record_audit audit_port dc ctx u o ((w, a), tr) =
    (((w, a'), tr ++ [EAudit (mkAudit (ctx_request_id ctx) (actor_id (ctx_actor ctx)) (cap_name dc) o (ctx_timestamp ctx) u) b]), r) /\
    (b = true /\ r = Ok tt \/ b = false /\ exists e, r = Err (AuditUnavailable e)).
Proof.
  intros Ha. unfold record_audit, audit_port. cbn [fst snd]. set (rec := mkAudit _ _ _ _ _ _). specialize (Ha rec a).
  destruct (audit rec a) as [a' [[]|e|]]; [| |done].
  - exists a', true, (Ok tt). split; [done|by left].
  - exists a', false, (Err (AuditUnavailable e)). split; [done|right]. eauto.
Qed.

End ControlPath.

(** The environment the control path relies on: lookups return (they may
    fail), routes name 32-bit points. *)
Record path_ok (d : AutomationCommandDispatcher) : Prop := {
  path_control a b : ds_control_point d a b <> Panic;
  path_adjustment a b : ds_adjustment_point d a b <> Panic;
  path_route t : ds_topology d = Some t -> forall a b c k p, pin_action_route t a b = Some (c, k, p) -> fits 32 c /\ fits 32 p;
  path_health t : ds_topology d = Some t -> forall c, pin_channel_health t c <> Panic
}.

Lemma control_write_point_spec {Store} (audit : AuditRecord unit -> Store -> Store * outcome PortErrorKind unit)
    env d ctx id target value fence w a :
  respectful env -> path_ok d -> (forall r a, (audit r a).2 <> Panic) ->
  sound (wd_fs w, wd_sink w) -> wd_leased w = false -> fits 64 value -> fits 64 (ctx_timestamp ctx) ->
  let u : UseCase unit := UWritePoint id target value fence in
  match control_write_point audit env d ctx id target value fence ((w, a), []) with
  | (((w', _), tr), r) =>
    r <> Panic /\
    (w' = w /\ is_ok r = false \/
    authorised ctx u /\ EAudit (audit_of ctx u Attempted) true ∈ tr /\
    exists command, permitted_call ctx u (CDispatch command fence) /\
      sink_did d command fence (wd_log w) (is_ok r) w')
  end.
Proof.
  intros Henv Hd Ha Hs Hl Hval Hts u.
  unfold control_write_point, write_point, governed.
  pose proof (authorize_high ctx "device.write_point" "device.control") as Hau. fold WRITE_POINT_CAPABILITY in Hau.
  assert (forall e, match (let! _ := record_audit (audit_port audit) WRITE_POINT_CAPABILITY ctx u Rejected in st_fail (A := AcceptedOutcome CommandReceipt) e) ((w, a), []) with
    | (((w', _), _), r) => r <> Panic /\ w' = w /\ is_ok r = false end) as Hrej.
  { intros e. destruct (record_audit_port audit WRITE_POINT_CAPABILITY ctx u Rejected w a [] Ha) as (a' & b & r & Heq & Hb).
    unfold st_bind. rewrite Heq. by destruct Hb as [[_ ->]|[_ [e' ->]]]. }
  destruct (authorize WRITE_POINT_CAPABILITY ctx) as [[]|e|]; [| |done].
  2:{ specialize (Hrej e). fold u. destruct (st_bind _ _ _) as [[[w' a'] tr] r]. by (destruct Hrej as (? & ? & ?); split; [|left]). }
  pose proof (prepared_permitted (Payload := unit) ctx u) as Hpr. cbn [prepared u] in Hpr.
  destruct (control_command_new _ _ _ _ _) as [c|e|] eqn:Ec; [| |done].
  2:{ specialize (Hrej (InvalidCommand e)). fold u. destruct (st_bind _ _ _) as [[[w' a'] tr] r]. by (destruct Hrej as (? & ? & ?); split; [|left]). }
  fold u. destruct (record_audit_port audit WRITE_POINT_CAPABILITY ctx u Attempted w a [] Ha) as (a1 & b1 & r1 & Heq & Hb).
  unfold st_bind at 1. rewrite Heq. destruct Hb as [[-> ->]|[_ [e ->]]]; [|by split; [|left]].
  assert (fits 64 (ctl_value c) /\ fits 64 (ctl_issued_at c) /\ fits 64 (ctl_expires_at c)) as (F1 & F2 & F3).
  { unfold control_command_new in Ec. repeat (split_if_in Ec; [done|]). injection Ec as <-. simpl.
    split_and!; [done|done|]. unfold saturating_add64, DEFAULT_COMMAND_TTL_MS, u64_max, fits in *. lia. }
  pose proof (dispatch_inner_spec env d Henv (path_control d Hd) (path_adjustment d Hd) (path_route d Hd) (path_health d Hd)
    c fence (wd_log w) F1 F2 F3 w ltac:(by split_and!)) as H.
  unfold call_port, command_port. cbn [fst snd].
  destruct (dispatch_inner env d c fence w) as [w2 [receipt|e|]]; [| |done].
  - match goal with |- context [record_audit _ _ _ _ Succeeded (_, ?t)] =>
      destruct (record_audit_port audit WRITE_POINT_CAPABILITY ctx u Succeeded w2 a1 t Ha) as (a3 & b3 & r3 & Heq3 & Hb3) end.
    rewrite Heq3. destruct Hb3 as [[_ ->]|[_ [e ->]]]; (split; [done|]; right; split_and!; [done|set_solver|exists c; by split]).
  - destruct (record_audit_port audit WRITE_POINT_CAPABILITY ctx u AuditFailed w2 a1
      (([] ++ [EAudit (mkAudit (ctx_request_id ctx) (actor_id (ctx_actor ctx)) (cap_name WRITE_POINT_CAPABILITY) Attempted (ctx_timestamp ctx) u) true]) ++ [ECall (CDispatch c fence) false]) Ha)
      as (a3 & b3 & r3 & Heq3 & Hb3).
    unfold st_bind. rewrite Heq3. destruct Hb3 as [[_ ->]|[_ [e' ->]]]; (split; [done|]; right; split_and!; [done|set_solver|exists c; by split]).
Qed.

(** ** Claims *)


(** *** Witness *)

Definition demo_topology : PinnedTopology :=
  mkPinned 3 (fun i p => if (i =? 1) && (p =? 0) then Some (7, Command, 0) else None) (fun _ => Ok (Some true)).
Definition demo_dispatcher : AutomationCommandDispatcher :=
  mkDispatcher (Some demo_topology) (fun c p => Ok ((c =? 7) && (p =? 0))) (fun _ _ => Err tt).
Definition demo_operator : RequestContext :=
  mkContext "r-2" (with_permission "device.control" (actor_new "operator")) true 1000.
Definition demo_target : PointAddress := mkPointAddress 1 Command 0.

Lemma demo_path_ok : path_ok demo_dispatcher.
Proof.
  split; try done.
  - intros t [= <-] a b c k p. simpl. split_if; [|done]. intros [= <- <- <-]. by split; by_decide.
  - by intros t [= <-].
Qed.

