(* ===== verification/Rules.v ===== *)
(** * The rule executor

    [libs/aether-rules/src]: the flow topology of [types.rs], the traits of
    [live_state.rs] and [action_command.rs] as classes, and [executor.rs]. An
    execution walks the flow from its start node, reads live state, evaluates
    branch conditions, and sends device actions through the governed facade.

    The mutable locals of [execute] and its result are one record, [Exec]; an
    early [return Ok(result)] is [st_fail tt]. The reads and commands an
    execution makes are logged in order. Formulas go through third-party
    evaluators and are parameters, as is the text of a number in a formula. The
    [tracing] lines and the wording of errors are dropped; [matched_condition]
    keeps the conditions whose text the source formats. *)

From S2P Require Import Prelude F64 Slot Bitmap Segment Snapshot Text BTree Manifest Publish Publication Acquisition Command Json.

(** ** Flow topology *)

Record RuleVariable := mkVariable {
  rv_name : string;
  rv_instance : option Z;
  rv_point_type : option string;
  rv_point : option Z;
  rv_formula : list Value
}.

Record FlowCondition := mkCondition {
  fc_cond_type : string;
  fc_variables : option string;
  fc_operator : option string;
  fc_value : option Value
}.

Record RuleSwitchBranch := mkBranch { rb_name : string; rb_rule_type : string; rb_rule : list FlowCondition }.
Record RuleValueAssignment := mkAssignment { as_variables : string; as_value : Value }.
Record CalculationRule := mkCalculation { ca_output : string; ca_formula : string }.

(** [RuleWires] holds the default output only. *)
Definition RuleWires : Type := list string.

Inductive RuleNode :=
| NStart (wires : RuleWires)
| NEnd
| NSwitch (variables : list RuleVariable) (rule : list RuleSwitchBranch) (wires : gmap string (list string))
| NChangeValue (variables : list RuleVariable) (rule : list RuleValueAssignment) (wires : RuleWires)
| NCalculation (variables : list RuleVariable) (rule : list CalculationRule) (wires : RuleWires)
| NPeriodDelta (input output : RuleVariable) (period : string) (wires : RuleWires).

Record RuleFlow := mkFlow { rf_start_node : string; rf_nodes : gmap string RuleNode }.

Record Rule := mkRule {
  r_id : Z;
  r_name : string;
  r_description : option string;
  r_enabled : bool;
  r_priority : Z;
  r_cooldown_ms : Z;
  r_trigger_config : option string;
  r_flow : RuleFlow
}.

(** ** Results *)

Record ActionResult := mkAction {
  ar_target_type : string;
  ar_target_id : Z;
  ar_point_type : string;
  ar_point_id : Z;
  ar_value : Z;
  ar_success : bool
}.

Record ConditionResult := mkConditionResult { cr_expression : list FlowCondition; cr_result : bool; cr_port : string }.

Record NodeExecutionDetail := mkDetail {
  nd_node_type : string;
  nd_input_values : gmap string Z;
  nd_condition_results : option (list ConditionResult);
  nd_matched_port : option string;
  nd_actions : option (list ActionResult)
}.

(** The error texts of an execution, as reasons. *)
Inductive RuleFailure :=
| MaxIterations
| NodeNotFound (id : string)
| ActionsFailed (failed total : nat)
| StartWithoutWire
| ReadFailed
| VariablesUnavailable (missing : list string)
| NoMatchingBranch
| NodeWithoutWire
| CalcFailed (formula : string)
| NonFiniteInput
| PeriodDeltaFailed.

Record RuleExecutionResult := mkResult {
  rr_rule_id : Z;
  rr_success : bool;
  rr_actions_executed : list ActionResult;
  rr_error : option RuleFailure;
  rr_execution_path : list string;
  rr_matched_condition : option (list FlowCondition);
  rr_variable_values : gmap string Z;
  rr_point_values : gmap string Z;
  rr_node_details : gmap string NodeExecutionDetail
}.

(** ** The traits an execution uses *)

(** The fence of [RuleExecutionContext]. *)
Definition RuleExecutionContext : Type := option Z.

(** [RuleActionCommand]: the target is always an [Action] point. *)
Record RuleActionCommand := mkRuleAction { ra_instance_id : Z; ra_point_id : Z; ra_value : Z; ra_topology_fence : option Z }.
Definition rule_action_new (instance_id point_id value : Z) : RuleActionCommand := mkRuleAction instance_id point_id value None.
Definition with_topology_fence (fence : Z) (c : RuleActionCommand) : RuleActionCommand :=
  mkRuleAction (ra_instance_id c) (ra_point_id c) (ra_value c) (Some fence).
Definition rule_action_target (c : RuleActionCommand) : PointAddress := mkPointAddress (ra_instance_id c) Action (ra_point_id c).

(** Each method may move the world: other processes run meanwhile. *)
Class RuleLiveState (W : Type) := {
  begin_execution : W -> RuleExecutionContext;
  get_instance : Z -> Z -> Z -> W -> W * option (Z * Z);
  get_instance_for_execution : RuleExecutionContext -> Z -> Z -> Z -> W -> W * option (Z * Z)
}.

Class RuleActionCommandFacade (W : Type) := {
  write_action : RuleActionCommand -> W -> W * outcome PortErrorKind CommandReceipt
}.

(** [CalcEngine::evaluate] and [builtin().period_delta] in the context of a
    rule, and the token formulas of combined variables. *)
Class RuleFormulas (W : Type) := {
  calc_evaluate : Z -> string -> gmap string Z -> W -> W * option Z;
  calc_period_delta : Z -> string -> Z -> string -> W -> W * option Z;
  evaluate_token_formula : list Value -> gmap string Z -> option Z
}.

(** ** Conditions *)

Definition f64_lt (a b : Z) : bool := f64_ltb (of_bits a) (of_bits b).
Definition f64_le (a b : Z) : bool := f64_leb (of_bits a) (of_bits b).

Definition compare_with (operator : string) (lhs rhs : Z) : bool :=
  let distance := f64_abs (f64_sub (of_bits lhs) (of_bits rhs)) in
  if bool_decide (operator = "==" \/ operator = "eq") then f64_ltb distance EPSILON
  else if bool_decide (operator = "!=" \/ operator = "ne") then f64_leb EPSILON distance
  else if bool_decide (operator = ">" \/ operator = "gt") then f64_lt rhs lhs
  else if bool_decide (operator = "<" \/ operator = "lt") then f64_lt lhs rhs
  else if bool_decide (operator = ">=" \/ operator = "gte") then f64_le rhs lhs
  else if bool_decide (operator = "<=" \/ operator = "lte") then f64_le lhs rhs
  else false.

(** The right-hand side: a number, a variable or a numeric text; anything else
    is zero. *)
Definition comparison_value (value : option Value) (values : gmap string Z) : option Z :=
  match value with
  | None => Some 0
  | Some v =>
      match as_f64 v, as_i64 v, as_str v with
      | Some n, _, _ => Some n
      | None, Some n, _ => Some (f64_of_Z n)
      | None, None, Some s => match values !! s with Some v => Some v | None => parse_f64 s end
      | None, None, None => Some 0
      end
  end.

Definition evaluate_flow_condition (cond : FlowCondition) (values : gmap string Z) : bool :=
  match fc_variables cond with
  | None => false
  | Some var_name =>
      let operator := default "==" (fc_operator cond) in
      match values !! var_name with
      | None => false
      | Some lhs =>
          match comparison_value (fc_value cond) values with
          | None => false
          | Some rhs => compare_with operator lhs rhs
          end
      end
  end.

Definition is_or (relation : option string) : bool :=
  match relation with
  | Some r => bool_decide (r = "||" \/ r = "or" \/ r = "OR")
  | None => false
  end.

(** The loop of [evaluate_flow_conditions]. *)
Fixpoint combine_conditions (conditions : list FlowCondition) (values : gmap string Z) (pending : option string) (result : bool) : bool :=
  match conditions with
  | [] => result
  | cond :: rest =>
      if bool_decide (fc_cond_type cond = "relation") then
        combine_conditions rest values (fc_value cond ≫= as_str) result
      else
        let cond_result := evaluate_flow_condition cond values in
        combine_conditions rest values None (if is_or pending then result || cond_result else result && cond_result)
  end.

Definition evaluate_flow_conditions (conditions : list FlowCondition) (values : gmap string Z) : bool :=
  match conditions with [] => true | _ => combine_conditions conditions values None true end.

Definition evaluate_all_conditions (rules : list RuleSwitchBranch) (values : gmap string Z) : list ConditionResult :=
  (fun b => mkConditionResult (rb_rule b) (evaluate_flow_conditions (rb_rule b) values) (rb_name b)) <$> rules.

Fixpoint evaluate_rule_switch_with_details (rules : list RuleSwitchBranch) (wires : gmap string (list string)) (values : gmap string Z)
  : option string * option string * option (list FlowCondition) :=
  match rules with
  | [] => (None, None, None)
  | b :: rest =>
      if evaluate_flow_conditions (rb_rule b) values then
        match wires !! rb_name b with
        | Some (target :: _) => (Some target, Some (rb_name b), Some (rb_rule b))
        | _ => evaluate_rule_switch_with_details rest wires values
        end
      else evaluate_rule_switch_with_details rest wires values
  end.

(** ** Points and variables *)

Definition point_type_to_static (pt : option string) (def : string) : string :=
  match pt with
  | None => def
  | Some s =>
      if bool_decide (s = "M" \/ s = "measurement") then "M"
      else if bool_decide (s = "A" \/ s = "action") then "A"
      else if bool_decide (s = "T" \/ s = "telemetry") then "T"
      else if bool_decide (s = "S" \/ s = "status") then "S"
      else if bool_decide (s = "C" \/ s = "control") then "C"
      else def
  end.

(** The value is validated before the target. *)
Definition validate_write_target (variable : RuleVariable) (raw_value : Z) (default_point_type : string)
  : outcome ActionResult (Z * Z * Z * string) :=
  let pt := point_type_to_static (rv_point_type variable) default_point_type in
  match validate_value raw_value validation_default with
  | Ok value =>
      let? instance_id := ok_or (mkAction "instance" 0 pt 0 value false) (rv_instance variable) in
      let? point := ok_or (mkAction "instance" instance_id pt 0 value false) (rv_point variable) in
      Ok (instance_id, point, value, pt)
  | _ => Err (mkAction "instance" (default 0 (rv_instance variable)) pt (default 0 (rv_point variable)) F64_NAN false)
  end.

Definition action_skipped (variable : RuleVariable) : ActionResult :=
  mkAction "instance" (default 0 (rv_instance variable)) (point_type_to_static (rv_point_type variable) "A")
    (default 0 (rv_point variable)) F64_NAN false.

Record RuleReadOutcome := mkRead { ro_values_changed : bool; ro_missing : list string; ro_point_values : gmap string Z }.
Definition read_default : RuleReadOutcome := mkRead false [] ∅.

(** The key format of [PointRef::cache_key]. *)
Definition point_key (is_action : bool) (instance_id point : Z) : string :=
  ((if is_action then "A" else "M") +:+ ":" +:+ u64_to_string instance_id +:+ ":" +:+ u64_to_string point)%string.

#[global] Arguments point_key : simpl never.
#[global] Arguments parse_f64 : simpl never.
#[global] Arguments f64_of_Z : simpl never.
#[global] Arguments compare_with : simpl never.

(** ** The execution state *)

Inductive RuleEvent :=
| RRead (is_action : bool) (instance_id point : Z) (answer : option (Z * Z))
| RCommand (command : RuleActionCommand) (accepted : bool).

Record Exec (W : Type) := mkExec {
  ex_world : W;
  ex_trace : list RuleEvent;
  ex_values : gmap string Z;
  ex_point_values : gmap string Z;
  ex_snapshot : option (gmap string Z);
  ex_result : RuleExecutionResult
}.
Arguments mkExec {W} _ _ _ _ _ _.
Arguments ex_world {W} _.
Arguments ex_trace {W} _.
Arguments ex_values {W} _.
Arguments ex_point_values {W} _.
Arguments ex_snapshot {W} _.
Arguments ex_result {W} _.

(** The fields of the result that an assignment replaces. *)
Definition set_error (e : RuleFailure) (r : RuleExecutionResult) : RuleExecutionResult :=
  mkResult (rr_rule_id r) (rr_success r) (rr_actions_executed r) (Some e) (rr_execution_path r) (rr_matched_condition r)
    (rr_variable_values r) (rr_point_values r) (rr_node_details r).
Definition push_path (id : string) (r : RuleExecutionResult) : RuleExecutionResult :=
  mkResult (rr_rule_id r) (rr_success r) (rr_actions_executed r) (rr_error r) (rr_execution_path r ++ [id]) (rr_matched_condition r)
    (rr_variable_values r) (rr_point_values r) (rr_node_details r).
Definition push_action (a : ActionResult) (r : RuleExecutionResult) : RuleExecutionResult :=
  mkResult (rr_rule_id r) (rr_success r) (rr_actions_executed r ++ [a]) (rr_error r) (rr_execution_path r) (rr_matched_condition r)
    (rr_variable_values r) (rr_point_values r) (rr_node_details r).
Definition set_matched (m : option (list FlowCondition)) (r : RuleExecutionResult) : RuleExecutionResult :=
  mkResult (rr_rule_id r) (rr_success r) (rr_actions_executed r) (rr_error r) (rr_execution_path r) m
    (rr_variable_values r) (rr_point_values r) (rr_node_details r).
Definition set_variable_values (v : gmap string Z) (r : RuleExecutionResult) : RuleExecutionResult :=
  mkResult (rr_rule_id r) (rr_success r) (rr_actions_executed r) (rr_error r) (rr_execution_path r) (rr_matched_condition r)
    v (rr_point_values r) (rr_node_details r).
Definition set_point_values (v : gmap string Z) (r : RuleExecutionResult) : RuleExecutionResult :=
  mkResult (rr_rule_id r) (rr_success r) (rr_actions_executed r) (rr_error r) (rr_execution_path r) (rr_matched_condition r)
    (rr_variable_values r) v (rr_node_details r).
Definition set_success (b : bool) (r : RuleExecutionResult) : RuleExecutionResult :=
  mkResult (rr_rule_id r) b (rr_actions_executed r) (rr_error r) (rr_execution_path r) (rr_matched_condition r)
    (rr_variable_values r) (rr_point_values r) (rr_node_details r).
Definition insert_detail (id : string) (d : NodeExecutionDetail) (r : RuleExecutionResult) : RuleExecutionResult :=
  mkResult (rr_rule_id r) (rr_success r) (rr_actions_executed r) (rr_error r) (rr_execution_path r) (rr_matched_condition r)
    (rr_variable_values r) (rr_point_values r) (<[id := d]> (rr_node_details r)).

Definition result_new (rule_id : Z) : RuleExecutionResult := mkResult rule_id false [] None [] None ∅ ∅ ∅.

Section Executor.
Context {W : Type} `{!RuleLiveState W, !RuleFormulas W} (action_commands : option (RuleActionCommandFacade W)).
Context (execution : RuleExecutionContext).

(** Code that can end the execution with the result as it stands. *)
Definition RuleM (A : Type) : Type := ST (Exec W) unit A.

Definition on_result (f : RuleExecutionResult -> RuleExecutionResult) : RuleM unit :=
  st_modify (fun x => mkExec (ex_world x) (ex_trace x) (ex_values x) (ex_point_values x) (ex_snapshot x) (f (ex_result x))).
Definition set_values (f : gmap string Z -> gmap string Z) : RuleM unit :=
  st_modify (fun x => mkExec (ex_world x) (ex_trace x) (f (ex_values x)) (ex_point_values x) (ex_snapshot x) (ex_result x)).
Definition set_points (f : gmap string Z -> gmap string Z) : RuleM unit :=
  st_modify (fun x => mkExec (ex_world x) (ex_trace x) (ex_values x) (f (ex_point_values x)) (ex_snapshot x) (ex_result x)).
Definition set_snapshot (s : option (gmap string Z)) : RuleM unit :=
  st_modify (fun x => mkExec (ex_world x) (ex_trace x) (ex_values x) (ex_point_values x) s (ex_result x)).
Definition the_values : RuleM (gmap string Z) := fun x => (x, Ok (ex_values x)).

(** [result.error = Some(..); return Ok(result)]. *)
Definition stop {A} (e : RuleFailure) : RuleM A :=
  let! _ := on_result (set_error e) in st_fail tt.

(** A call that moves the world without being logged. *)
Definition call {A} (c : W -> W * A) : RuleM A := fun x =>
  let '(w, a) := c (ex_world x) in
  (mkExec w (ex_trace x) (ex_values x) (ex_point_values x) (ex_snapshot x) (ex_result x), Ok a).

Definition log_event (e : RuleEvent) : RuleM unit :=
  st_modify (fun x => mkExec (ex_world x) (ex_trace x ++ [e]) (ex_values x) (ex_point_values x) (ex_snapshot x) (ex_result x)).

Definition live_read (is_action : bool) (instance_id point : Z) : RuleM (option (Z * Z)) :=
  let! answer := call (get_instance_for_execution execution instance_id (if is_action then 1 else 0) point) in
  let! _ := log_event (RRead is_action instance_id point answer) in
  st_ret answer.

Definition snapshot_or_reuse (values_changed : bool) : RuleM (gmap string Z) := fun x =>
  match values_changed, ex_snapshot x with
  | false, Some s => (x, Ok s)
  | _, _ => (let! _ := set_snapshot (Some (ex_values x)) in st_ret (ex_values x)) x
  end.

(** ** Reading variables *)

(** [outcome.values_changed |= ..], [outcome.missing.push(..)] and the insert
    into [outcome.point_values]. *)
Definition note_change (b : bool) (o : RuleReadOutcome) : RuleReadOutcome :=
  mkRead (ro_values_changed o || b) (ro_missing o) (ro_point_values o).
Definition note_missing (name : string) (o : RuleReadOutcome) : RuleReadOutcome :=
  mkRead (ro_values_changed o) (ro_missing o ++ [name]) (ro_point_values o).
Definition note_point (key : string) (v : Z) (o : RuleReadOutcome) : RuleReadOutcome :=
  mkRead (ro_values_changed o) (ro_missing o) (<[key := v]> (ro_point_values o)).

(** [values.insert(name, v)], with the displaced value. *)
Definition insert_value (name : string) (v : Z) : RuleM (option Z) :=
  let! values := the_values in
  let! _ := set_values (<[name := v]>) in
  st_ret (values !! name).

(** Phase 1 for one base variable; [None] is the [Err] of the read. *)
Definition read_variable (var : RuleVariable) (o : RuleReadOutcome) : RuleM (option RuleReadOutcome) :=
  match rv_instance var, rv_point var with
  | Some instance_id, Some point =>
      let is_action := bool_decide (default "measurement" (rv_point_type var) = "action") in
      let! answer := live_read is_action instance_id point in
      match answer with
      | Some (value, _) =>
          if f64_is_finite value then
            let! previous := insert_value (rv_name var) value in
            let changed := match previous with Some p => negb (p =? value) | None => true end in
            st_ret (Some (note_change changed (note_point (point_key is_action instance_id point) value o)))
          else st_ret (Some (if is_action then o else note_missing (rv_name var) o))
      | None => st_ret (Some (if is_action then o else note_missing (rv_name var) o))
      end
  | _, _ => st_ret None
  end.

Fixpoint read_base (variables : list RuleVariable) (o : RuleReadOutcome) : RuleM (option RuleReadOutcome) :=
  match variables with
  | [] => st_ret (Some o)
  | var :: rest =>
      match rv_formula var with
      | [] =>
          let! o' := read_variable var o in
          match o' with Some o' => read_base rest o' | None => st_ret None end
      | _ => read_base rest o
      end
  end.

(** Phase 2. *)
Fixpoint read_formulas (variables : list RuleVariable) (o : RuleReadOutcome) : RuleM RuleReadOutcome :=
  match variables with
  | [] => st_ret o
  | var :: rest =>
      match rv_formula var with
      | [] => read_formulas rest o
      | formula =>
          let! values := the_values in
          match evaluate_token_formula formula values with
          | Some r =>
              let! previous := insert_value (rv_name var) r in
              let changed := match previous with Some p => negb (f64_eqb (of_bits p) (of_bits r)) | None => true end in
              read_formulas rest (note_change changed o)
          | None => read_formulas rest (note_missing (rv_name var) o)
          end
      end
  end.

Definition read_rule_variables_for_execution (variables : list RuleVariable) : RuleM (option RuleReadOutcome) :=
  let! o := read_base variables read_default in
  match o with
  | None => st_ret None
  | Some o => let! o := read_formulas variables o in st_ret (Some o)
  end.

(** ** Writing points *)

Definition write_action_point (instance_id point value : Z) : RuleM bool :=
  match action_commands with
  | None => st_ret false
  | Some facade =>
      let command := rule_action_new instance_id point value in
      let command := match execution with Some fence => with_topology_fence fence command | None => command end in
      let! answer := call (write_action command) in
      let! _ := log_event (RCommand command (is_ok answer)) in
      match answer with Panic => st_lift Panic | _ => st_ret (is_ok answer) end
  end.

(** Measurement writes are always rejected: automation owns no such plane. *)
Definition write_measurement_point (instance_id point value : Z) : RuleM (option unit) := st_ret None.

Definition write_to_point (instance_id point value : Z) (pt : string) : RuleM ActionResult :=
  let! success :=
    if bool_decide (pt = "M") then let! r := write_measurement_point instance_id point value in st_ret (bool_decide (is_Some r))
    else if bool_decide (pt = "A") then write_action_point instance_id point value
    else st_ret false in
  st_ret (mkAction "instance" instance_id pt point value success).

Definition write_validated (variable : RuleVariable) (raw_value : Z) (default_point_type : string) (force : option string)
  : RuleM ActionResult :=
  match validate_write_target variable raw_value default_point_type with
  | Ok (instance_id, point, value, pt) => write_to_point instance_id point value (default pt force)
  | Err action => st_ret action
  | Panic => st_lift Panic
  end.

(** The value an assignment denotes. *)
Definition assignment_value (v : Value) (values : gmap string Z) : option Z :=
  match as_f64 v, as_i64 v, as_str v with
  | Some n, _, _ => Some n
  | None, Some n, _ => Some (f64_of_Z n)
  | None, None, Some s => match parse_f64 s with Some n => Some n | None => values !! s end
  | None, None, None => None
  end.

Definition execute_rule_change_for_execution (variable : RuleVariable) (assignment : RuleValueAssignment) : RuleM ActionResult :=
  let! values := the_values in
  match assignment_value (as_value assignment) values with
  | None => st_ret (action_skipped variable)
  | Some raw_value => write_validated variable raw_value "A" None
  end.

Definition write_calculation_result (variable : RuleVariable) (raw_value : Z) : RuleM ActionResult :=
  write_validated variable raw_value "M" None.

Definition write_period_delta_result (variable : RuleVariable) (raw_value : Z) : RuleM ActionResult :=
  write_validated variable raw_value "M" (Some "M").

Definition find_variable (name : string) (variables : list RuleVariable) : option RuleVariable :=
  snd <$> list_find (fun v => rv_name v = name) variables.

(** ** Nodes *)

(** Reads the variables of a node. [save] is what a switch keeps when it stops
    here: the values read so far. *)
Definition read_node (variables : list RuleVariable) (save : bool) : RuleM bool :=
  let keep :=
    if save then
      let! x := st_get in
      on_result (fun r => set_point_values (ex_point_values x) (set_variable_values (ex_values x) r))
    else st_ret tt in
  let! o := read_rule_variables_for_execution variables in
  match o with
  | None => let! _ := keep in stop ReadFailed
  | Some o =>
      let! _ := set_points (fun p => ro_point_values o ∪ p) in
      match ro_missing o with
      | [] => st_ret (ro_values_changed o)
      | missing => let! _ := keep in stop (VariablesUnavailable missing)
      end
  end.

(** Takes the snapshot of the values a node starts from. *)
Definition enter_node (values_changed : bool) : RuleM (gmap string Z) :=
  let! snapshot := snapshot_or_reuse values_changed in
  let! _ := on_result (set_variable_values snapshot) in
  st_ret snapshot.

Definition follow (wires : RuleWires) : RuleM (option string) :=
  match wires with
  | next :: _ => st_ret (Some next)
  | [] => stop NodeWithoutWire
  end.

Definition push_executed (a : ActionResult) : RuleM unit := on_result (push_action a).

Definition handle_switch (id : string) (variables : list RuleVariable) (rules : list RuleSwitchBranch) (wires : gmap string (list string))
  : RuleM (option string) :=
  let! changed := read_node variables true in
  let! snapshot := enter_node changed in
  let! values := the_values in
  let condition_results := evaluate_all_conditions rules values in
  let '(next, port, matched) := evaluate_rule_switch_with_details rules wires values in
  let! _ := on_result (fun r => insert_detail id (mkDetail "switch" snapshot (Some condition_results) port None) (set_matched matched r)) in
  match next with
  | Some next => st_ret (Some next)
  | None => stop NoMatchingBranch
  end.

Fixpoint run_assignments (variables : list RuleVariable) (assignments : list RuleValueAssignment) (acc : list ActionResult)
  : RuleM (list ActionResult) :=
  match assignments with
  | [] => st_ret acc
  | a :: rest =>
      match find_variable (as_variables a) variables with
      | Some var =>
          let! executed := execute_rule_change_for_execution var a in
          let! _ := push_executed executed in
          run_assignments variables rest (acc ++ [executed])
      | None => run_assignments variables rest acc
      end
  end.

Definition handle_change_value (id : string) (variables : list RuleVariable) (assignments : list RuleValueAssignment) (wires : RuleWires)
  : RuleM (option string) :=
  let! changed := read_node variables false in
  let! snapshot := enter_node changed in
  let! node_actions := run_assignments variables assignments [] in
  let! _ := on_result (insert_detail id (mkDetail "change" snapshot None None (Some node_actions))) in
  follow wires.

Fixpoint run_calculations (rule_id : Z) (variables : list RuleVariable) (calculations : list CalculationRule) (acc : list ActionResult)
  : RuleM (list ActionResult) :=
  match calculations with
  | [] => st_ret acc
  | c :: rest =>
      let! values := the_values in
      let! answer := call (calc_evaluate rule_id (ca_formula c) values) in
      match answer with
      | None => stop (CalcFailed (ca_formula c))
      | Some v =>
          let! acc' :=
            match find_variable (ca_output c) variables with
            | Some var =>
                let! action := write_calculation_result var v in
                let! _ := push_executed action in
                st_ret (acc ++ [action])
            | None => st_ret acc
            end in
          let! _ := set_values (<[ca_output c := v]>) in
          run_calculations rule_id variables rest acc'
      end
  end.

Definition handle_calculation_node (rule_id : Z) (id : string) (variables : list RuleVariable) (calculations : list CalculationRule)
    (wires : RuleWires) : RuleM (option string) :=
  let! changed := read_node variables false in
  let! snapshot := enter_node changed in
  let! node_actions := run_calculations rule_id variables calculations [] in
  let! _ := set_snapshot None in
  let! _ := on_result (insert_detail id (mkDetail "calculation" snapshot None None (Some node_actions))) in
  follow wires.

(** The key of the period's baseline. *)
Definition i64_to_string (z : Z) : string := if z <? 0 then ("-" +:+ u64_to_string (- z))%string else u64_to_string z.
Definition period_key (rule_id : Z) (input : RuleVariable) : string :=
  (i64_to_string rule_id +:+ ":" +:+ u64_to_string (default 0 (rv_instance input)) +:+ ":" +:+
   u64_to_string (default 0 (rv_point input)))%string.

#[global] Arguments period_key : simpl never.

Definition handle_period_delta_node (rule_id : Z) (id : string) (input output : RuleVariable) (period : string) (wires : RuleWires)
  : RuleM (option string) :=
  let! changed := read_node [input] false in
  let! snapshot := enter_node changed in
  let! values := the_values in
  match values !! rv_name input with
  | None => stop NonFiniteInput
  | Some input_value =>
      if negb (f64_is_finite input_value) then stop NonFiniteInput
      else
        let! answer := call (calc_period_delta rule_id (period_key rule_id input) input_value period) in
        match answer with
        | None => stop PeriodDeltaFailed
        | Some delta =>
            let! action := write_period_delta_result output delta in
            let! _ := push_executed action in
            let! _ := set_values (<[rv_name output := delta]>) in
            let! _ := set_snapshot None in
            let! _ := on_result (insert_detail id (mkDetail "periodDelta" snapshot None None (Some [action]))) in
            follow wires
        end
  end.

(** The [End] arm. *)
Definition finish (x : Exec W) : Exec W :=
  let failed := length (filter (fun a => ar_success a = false) (rr_actions_executed (ex_result x))) in
  let r := set_point_values (ex_point_values x) (set_variable_values (ex_values x) (ex_result x)) in
  let r := if (failed =? 0)%nat then set_success true r
           else set_error (ActionsFailed failed (length (rr_actions_executed r))) (set_success false r) in
  mkExec (ex_world x) (ex_trace x) ∅ ∅ (ex_snapshot x) r.

(** One round of the loop; [None] is the [break] of the [End] arm. *)
Definition visit (rule : Rule) (current_id : string) : RuleM (option string) :=
  let! _ := on_result (push_path current_id) in
  match rf_nodes (r_flow rule) !! current_id with
  | None => stop (NodeNotFound current_id)
  | Some NEnd => let! _ := st_modify finish in st_ret None
  | Some (NStart (next :: _)) => st_ret (Some next)
  | Some (NStart []) => stop StartWithoutWire
  | Some (NSwitch variables rules wires) => handle_switch current_id variables rules wires
  | Some (NChangeValue variables assignments wires) => handle_change_value current_id variables assignments wires
  | Some (NCalculation variables calculations wires) =>
      handle_calculation_node (r_id rule) current_id variables calculations wires
  | Some (NPeriodDelta input output period wires) =>
      handle_period_delta_node (r_id rule) current_id input output period wires
  end.

(** The loop with the iterations that are left. *)
Fixpoint walk (rule : Rule) (iterations : nat) (current_id : string) : RuleM unit :=
  match iterations with
  | O => stop MaxIterations
  | S n =>
      let! next := visit rule current_id in
      match next with
      | Some next => walk rule n next
      | None => st_ret tt
      end
  end.

End Executor.

Definition max_iterations : nat := 100.

Section Execute.
Context {W : Type} `{!RuleLiveState W, !RuleFormulas W} (action_commands : option (RuleActionCommandFacade W)).

(** [execute]: the context is captured before anything is read. The result is
    always [Ok]; a failure is a field of it. *)
Definition run (rule : Rule) (w : W) : Exec W * outcome unit unit :=
  let execution := begin_execution w in
  walk action_commands execution rule max_iterations (rf_start_node (r_flow rule))
    (mkExec w [] ∅ ∅ None (result_new (r_id rule))).

Definition execute (rule : Rule) (w : W) : W * RuleExecutionResult :=
  let x := (run rule w).1 in (ex_world x, ex_result x).

End Execute.
