(* ===== verification/RuleConditions.v ===== *)
(** * Conditions of a switch

    The declarative reading of [evaluate_flow_conditions] and
    [evaluate_rule_switch_with_details] of [libs/aether-rules/src/executor.rs]:
    conditions are combined from left to right, with no precedence between the
    connectives, and a switch leaves through its first satisfied wired branch. *)

From S2P Require Import Prelude F64 Json Rules.

(** The conditions with the connective in front of each: [true] for an or. *)
Fixpoint joined (conditions : list FlowCondition) (pending : option string) : list (bool * FlowCondition) :=
  match conditions with
  | [] => []
  | c :: rest =>
      if bool_decide (fc_cond_type c = "relation") then joined rest (fc_value c ≫= as_str)
      else (is_or pending, c) :: joined rest None
  end.

Section Conditions.
Context (values : gmap string Z).

Definition holds (c : FlowCondition) : Prop := evaluate_flow_condition c values = true.

(** Every condition that an and connects holds. *)
Definition conjoined (l : list (bool * FlowCondition)) : Prop := Forall (fun jc => jc.1 = false -> holds jc.2) l.

(** All and-connected conditions hold, or all those behind an or-connected
    condition that holds. *)
Definition satisfied (conditions : list FlowCondition) : Prop :=
  conjoined (joined conditions None) \/
  exists pre c suf, joined conditions None = pre ++ (true, c) :: suf /\ holds c /\ conjoined suf.

Lemma combine_joined conditions pending result :
  combine_conditions conditions values pending result =
  foldl (fun (acc : bool) jc => if (jc : bool * FlowCondition).1 then acc || evaluate_flow_condition jc.2 values
                       else acc && evaluate_flow_condition jc.2 values) result (joined conditions pending).
Proof.
  revert pending result. induction conditions as [|c rest IH]; intros pending result; [done|]. cbn.
  case_bool_decide; [apply IH|]. cbn. by rewrite IH.
Qed.

Lemma fold_joined l result :
  foldl (fun (acc : bool) jc => if (jc : bool * FlowCondition).1 then acc || evaluate_flow_condition jc.2 values
                       else acc && evaluate_flow_condition jc.2 values) result l = true <->
  result = true /\ conjoined l \/ exists pre c suf, l = pre ++ (true, c) :: suf /\ holds c /\ conjoined suf.
Proof.
  unfold conjoined. revert result. induction l as [|[j c] l IH]; intros result; cbn.
  - split; [by left|]. intros [[? _]|(pre & c & suf & He & _)]; [done|by destruct pre].
  - rewrite IH. split.
    + intros [[H1 H2]|(pre & c' & suf & -> & H)]; [|right; by exists ((j, c) :: pre), c', suf].
      destruct j; cbn in H1.
      * apply orb_true_iff in H1 as [->|H1]; [left; split; [done|by constructor]|]. right. by exists [], c, l.
      * apply andb_true_iff in H1 as [-> H1]. left. split; [done|by constructor].
    + intros [[-> H2]|(pre & c' & suf & He & H1 & H2)].
      * apply list.Forall_cons in H2 as [Hc Hl]. left. split; [|done]. destruct j; [done|]. by apply Hc.
      * destruct pre as [|p pre]; cbn in He; simplify_eq; [left|right; by exists pre, c', suf].
        split; [|done]. cbn. unfold holds in H1. by rewrite H1, orb_true_r.
Qed.

Lemma conditions_satisfied conditions : evaluate_flow_conditions conditions values = true <-> satisfied conditions.
Proof.
  unfold evaluate_flow_conditions, satisfied. destruct conditions as [|c rest].
  - split; [intros _; left; constructor|done].
  - rewrite combine_joined, fold_joined. naive_solver.
Qed.

(** Branch [b] is satisfied and its port leads to [next]. *)
Definition taken (wires : gmap string (list string)) (b : RuleSwitchBranch) (next : string) : Prop :=
  satisfied (rb_rule b) /\ exists rest, wires !! rb_name b = Some (next :: rest).

(** A switch decides exactly as its conditions read: it leaves to [next]
    through the port of branch [b], reporting [b]'s conditions, if and only if
    [b] is the first branch that is satisfied and wired to [next]; it reports no
    match if and only if no branch is both. A branch is satisfied when all its
    and-connected conditions hold, or those behind an or-connected one that
    holds. *)
Lemma switch_first_satisfied rules wires :
  match evaluate_rule_switch_with_details rules wires values with
  | (Some next, port, matched) =>
      exists pre b post, rules = pre ++ b :: post /\ taken wires b next /\ port = Some (rb_name b) /\ matched = Some (rb_rule b) /\
        forall b' next', b' ∈ pre -> ~ taken wires b' next'
  | (None, port, matched) => port = None /\ matched = None /\ forall b next, b ∈ rules -> ~ taken wires b next
  end.
Proof.
  induction rules as [|b rules IH]; [split_and!; [done|done|]; by intros b next ?%not_elem_of_nil|]. cbn [evaluate_rule_switch_with_details].
  assert ((forall next, ~ taken wires b next) ->
    match evaluate_rule_switch_with_details rules wires values with
    | (Some next, port, matched) =>
        exists pre b' post, b :: rules = pre ++ b' :: post /\ taken wires b' next /\ port = Some (rb_name b') /\ matched = Some (rb_rule b') /\
          forall b' next', b' ∈ pre -> ~ taken wires b' next'
    | (None, port, matched) => port = None /\ matched = None /\ forall b' next, b' ∈ b :: rules -> ~ taken wires b' next
    end) as Hskip.
  { intros Hno. destruct (evaluate_rule_switch_with_details rules wires values) as [[[next|] port] matched].
    - destruct IH as (pre & b' & post & -> & H1 & H2 & H3 & H4). exists (b :: pre), b', post. split_and!; [done..|].
      intros b'' next' [->|?]%elem_of_cons; [apply Hno|by apply H4].
    - destruct IH as (H1 & H2 & H3). split_and!; [done|done|]. intros b' next [->|?]%elem_of_cons; [apply Hno|by apply H3]. }
  pose proof (conditions_satisfied (rb_rule b)) as Hsat.
  destruct (evaluate_flow_conditions (rb_rule b) values); [|apply Hskip; intros next [H%Hsat _]; done].
  destruct (wires !! rb_name b) as [[|target rest]|] eqn:Ew.
  - apply Hskip. intros next [_ (rest & Hr)]. congruence.
  - exists [], b, rules. split_and!; [done| |done|done|by intros ? ? ?%not_elem_of_nil].
    split; [by apply Hsat|by exists rest].
  - apply Hskip. intros next [_ (rest & Hr)]. congruence.
Qed.
End Conditions.
