(* ===== verification/RuleSafety.v ===== *)
(** * What a rule execution may do

    The executor of [Rules] proved safe: commands carry finite values and the
    fence captured before the first read, never follow an unavailable
    measurement, and success is reported only if every command was accepted;
    and proved to end: on an acyclic flow the iteration limit is never hit. *)

From S2P Require Import Prelude F64 Slot Bitmap Segment Snapshot Text BTree Manifest Publish Publication Acquisition Command Json Rules.

(** ** What the code relies on *)

(** A command the executor may send under [execution]. *)
Definition sendable (execution : RuleExecutionContext) (c : RuleActionCommand) : Prop :=
  ra_topology_fence c = execution /\ fits 64 (ra_value c) /\ f64_is_finite (ra_value c) = true.

(** The ports of an execution keep a world invariant [WI], which also sees the
    log; values have the width of [f64] and the facade returns. *)
Record rule_env_ok {W} `{!RuleLiveState W, !RuleFormulas W} (facade : option (RuleActionCommandFacade W))
    (WI : W -> list RuleEvent -> Prop) (execution : RuleExecutionContext) : Prop := {
  env_read i t p w w' tr a : WI w tr -> get_instance_for_execution execution i t p w = (w', a) ->
    (forall v ts, a = Some (v, ts) -> fits 64 v) /\ forall b, WI w' (tr ++ [RRead b i p a]);
  env_calc r f m w w' tr a : WI w tr -> calc_evaluate r f m w = (w', a) -> (forall v, a = Some v -> fits 64 v) /\ WI w' tr;
  env_delta r k x p w w' tr a : WI w tr -> calc_period_delta r k x p w = (w', a) -> (forall v, a = Some v -> fits 64 v) /\ WI w' tr;
  env_formula f m v : evaluate_token_formula f m = Some v -> fits 64 v;
  env_facade F c w w' tr a : facade = Some F -> sendable execution c -> WI w tr -> write_action c w = (w', a) ->
    a <> Panic /\ WI w' (tr ++ [RCommand c (is_ok a)])
}.

(** Assignment literals are parsed numbers. *)
Definition node_ok (n : RuleNode) : Prop :=
  match n with NChangeValue _ assignments _ => Forall (fun a => value_ok (as_value a)) assignments | _ => True end.
Definition rule_ok (r : Rule) : Prop := map_Forall (fun _ n => node_ok n) (rf_nodes (r_flow r)).

(** ** Events *)

Definition reads_ok (tr : list RuleEvent) : Prop :=
  forall i p a, RRead false i p a ∈ tr -> exists v ts, a = Some (v, ts) /\ f64_is_finite v = true.

Definition accepted_all (tr : list RuleEvent) : Prop := forall c ok, RCommand c ok ∈ tr -> ok = true.

(** The variables a node may write as actions. *)
Definition action_targets (n : RuleNode) : list RuleVariable :=
  match n with
  | NChangeValue variables _ _ | NCalculation variables _ _ => variables
  | _ => []
  end.

Definition targeted (rule : Rule) (path : list string) (c : RuleActionCommand) : Prop :=
  exists id n v, id ∈ path /\ rf_nodes (r_flow rule) !! id = Some n /\ v ∈ action_targets n /\
    rv_instance v = Some (ra_instance_id c) /\ rv_point v = Some (ra_point_id c) /\
    (point_type_to_static (rv_point_type v) "A" = "A").

Definition command_sound (rule : Rule) (execution : RuleExecutionContext) (path : list string) (c : RuleActionCommand) : Prop :=
  sendable execution c /\ targeted rule path c.

(** Every command is sound and every measurement read before it was good. *)
Definition trace_sound (rule : Rule) (execution : RuleExecutionContext) (path : list string) (tr : list RuleEvent) : Prop :=
  forall pre c ok post, tr = pre ++ RCommand c ok :: post -> command_sound rule execution path c /\ reads_ok pre.

Lemma command_sound_mono rule e path path' c : path ⊆ path' -> command_sound rule e path c -> command_sound rule e path' c.
Proof. intros Hsub (? & id & n & v & Hid & ?). split; [done|]. exists id, n, v. split; [by apply Hsub|done]. Qed.

Lemma trace_sound_mono rule e path path' tr : path ⊆ path' -> trace_sound rule e path tr -> trace_sound rule e path' tr.
Proof. intros Hsub H pre c ok post ->. destruct (H pre c ok post eq_refl). eauto using command_sound_mono. Qed.

Lemma snoc_split {A} (tr : list A) e pre x post : tr ++ [e] = pre ++ x :: post ->
  (exists post', post = post' ++ [e] /\ tr = pre ++ x :: post') \/ (post = [] /\ e = x /\ tr = pre).
Proof.
  destruct post as [|y post' _] using rev_ind; intros H.
  - right. by apply app_inj_tail in H as [-> ->].
  - left. exists post'. rewrite app_comm_cons, app_assoc in H. by apply app_inj_tail in H as [-> ->].
Qed.

Lemma trace_sound_read rule e path tr a i p v : trace_sound rule e path tr -> trace_sound rule e path (tr ++ [RRead a i p v]).
Proof. intros H pre c ok post Heq. destruct (snoc_split _ _ _ _ _ Heq) as [(post' & -> & Htr)|(_ & ? & _)]; [by eapply H|done]. Qed.

Lemma trace_sound_command rule e path tr c ok :
  trace_sound rule e path tr -> reads_ok tr -> command_sound rule e path c -> trace_sound rule e path (tr ++ [RCommand c ok]).
Proof.
  intros H Hr Hc pre c' ok' post Heq. destruct (snoc_split _ _ _ _ _ Heq) as [(post' & -> & Htr)|(_ & ? & ->)]; [by eapply H|].
  by simplify_eq.
Qed.

Lemma reads_ok_snoc tr e : reads_ok tr ->
  (forall i p a, e = RRead false i p a -> exists v ts, a = Some (v, ts) /\ f64_is_finite v = true) -> reads_ok (tr ++ [e]).
Proof. intros H He i p a [Hin|Heq%list_elem_of_singleton]%elem_of_app; [by eapply H|by eapply He]. Qed.

(** ** The invariant of an execution *)

Section Safety.
Context {W : Type} `{!RuleLiveState W, !RuleFormulas W} (facade : option (RuleActionCommandFacade W)).
Context (WI : W -> list RuleEvent -> Prop) (execution : RuleExecutionContext) (rule : Rule).
Context (Henv : rule_env_ok facade WI execution).

(** The path so far; a handler does not change it. *)
Context (path : list string).

Definition values_ok (m : gmap string Z) : Prop := map_Forall (fun _ v => fits 64 v) m.

Definition all_succeeded (r : RuleExecutionResult) : Prop := Forall (fun a => ar_success a = true) (rr_actions_executed r).

Record inv (x : Exec W) : Prop := {
  inv_path : rr_execution_path (ex_result x) = path;
  inv_trace : trace_sound rule execution path (ex_trace x);
  inv_values : values_ok (ex_values x);
  inv_honest : all_succeeded (ex_result x) -> accepted_all (ex_trace x);
  inv_running : rr_success (ex_result x) = false;
  inv_error : rr_error (ex_result x) <> Some MaxIterations;
  inv_world : WI (ex_world x) (ex_trace x)
}.

Definition live (x : Exec W) : Prop := inv x /\ reads_ok (ex_trace x).

(** What an early return leaves. *)
Definition stopped (_ : unit) (x : Exec W) : Prop := inv x.

(** Result fields the invariant does not look at. *)
Definition neutral (f : RuleExecutionResult -> RuleExecutionResult) : Prop := forall r,
  rr_execution_path (f r) = rr_execution_path r /\ rr_actions_executed (f r) = rr_actions_executed r /\ rr_success (f r) = rr_success r /\
  (rr_error r <> Some MaxIterations -> rr_error (f r) <> Some MaxIterations).

Lemma inv_result f x : neutral f -> inv x ->
  inv (mkExec (ex_world x) (ex_trace x) (ex_values x) (ex_point_values x) (ex_snapshot x) (f (ex_result x))).
Proof.
  intros Hf [H0 H1 H2 H3 H4 H5 H6]. destruct (Hf (ex_result x)) as (E1 & E2 & E3 & E4).
  split; simpl; unfold all_succeeded; rewrite ?E1, ?E2, ?E3; auto.
Qed.

Lemma on_result_spec (P : Exec W -> Prop) f (Q : unit -> Exec W -> Prop) R :
  (forall x, P x -> Q tt (mkExec (ex_world x) (ex_trace x) (ex_values x) (ex_point_values x) (ex_snapshot x) (f (ex_result x)))) ->
  etriple P (on_result f) Q R.
Proof. apply etriple_modify. Qed.

Lemma on_result_live f : neutral f -> etriple live (on_result f) (fun _ => live) stopped.
Proof. intros Hf. apply on_result_spec. intros x [Hi Hr]. split; [by apply inv_result|done]. Qed.

Lemma on_result_inv f R : neutral f -> etriple inv (on_result f) (fun _ => inv) R.
Proof. intros Hf. apply on_result_spec. intros x Hi. by apply inv_result. Qed.

Lemma stop_spec {A} e (Q : A -> Exec W -> Prop) : e <> MaxIterations -> etriple inv (stop e) Q stopped.
Proof.
  intros He. unfold stop. eapply etriple_bind; [apply on_result_inv; intros r; by split_and!; [..|intros _ [= ->]]|]. intros []. apply etriple_fail. by intros x.
Qed.

Lemma stop_live {A} e (Q : A -> Exec W -> Prop) : e <> MaxIterations -> etriple live (stop e) Q stopped.
Proof. intros He. eapply etriple_conseq; [apply (stop_spec e Q He)|by intros x []|done|done]. Qed.

(** Fields outside the invariant. *)
Lemma set_points_spec (P : Exec W -> Prop) f R : (forall x p, P x -> P (mkExec (ex_world x) (ex_trace x) (ex_values x) p (ex_snapshot x) (ex_result x))) ->
  etriple P (set_points f) (fun _ => P) R.
Proof. intros H. apply etriple_modify. intros x Hx. by apply H. Qed.

Lemma inv_points x p s : inv x -> inv (mkExec (ex_world x) (ex_trace x) (ex_values x) p s (ex_result x)).
Proof. by intros [? ? ? ? ? ? ?]. Qed.

Lemma set_snapshot_live s : etriple live (set_snapshot s) (fun _ => live) stopped.
Proof. apply etriple_modify. intros x [Hi Hr]. split; [by apply inv_points|done]. Qed.

Lemma the_values_bind {B} (P : Exec W -> Prop) (k : gmap string Z -> RuleM (W := W) B) Q R :
  (forall m, etriple (fun x => P x /\ m = ex_values x) (k m) Q R) -> etriple P (st_bind the_values k) Q R.
Proof. intros H x Hx. by apply H. Qed.

Lemma the_values_drop {B} (P : Exec W -> Prop) (k : gmap string Z -> RuleM (W := W) B) Q R :
  (forall m, etriple P (k m) Q R) -> etriple P (st_bind the_values k) Q R.
Proof. intros H x Hx. by apply H. Qed.

Lemma set_values_live name v : fits 64 v -> etriple live (set_values (<[name := v]>)) (fun _ => live) stopped.
Proof.
  intros Hv. apply etriple_modify. intros x [[H0 H1 H2 H3 H4 H5 H6] Hr]. split; [|done]. split; try done. by apply map_Forall_insert_2.
Qed.

(** ** Reads *)

Definition reading (o : RuleReadOutcome) (x : Exec W) : Prop := inv x /\ (ro_missing o = [] -> reads_ok (ex_trace x)).
Definition after_read (r : option RuleReadOutcome) (x : Exec W) : Prop := match r with Some o => reading o x | None => inv x end.
Definition never {A} (_ : unit) (_ : A) : Prop := False.

Lemma insert_value_inv P name v (R : unit -> Exec W -> Prop) : fits 64 v ->
  etriple (fun x => inv x /\ P (ex_trace x)) (insert_value name v) (fun _ x => inv x /\ P (ex_trace x)) R.
Proof.
  intros Hv x [[H0 H1 H2 H3 H4 H5 H6] HP]. cbn. split; [|done]. split; try done. by apply map_Forall_insert_2.
Qed.

(** A logged answer: its value has the width of a double, and the reads stay
    good if this one is. *)
Definition answered (b : bool) (o : RuleReadOutcome) (a : option (Z * Z)) (tr : list RuleEvent) : Prop :=
  (forall v ts, a = Some (v, ts) -> fits 64 v) /\
  (ro_missing o = [] -> (b = true \/ exists v ts, a = Some (v, ts) /\ f64_is_finite v = true) -> reads_ok tr).

Lemma live_read_spec o b i p :
  etriple (reading o) (live_read execution b i p) (fun a x => inv x /\ answered b o a (ex_trace x)) never.
Proof.
  intros x [[H0 H1 H2 H3 H4 H5 H6] Hr]. unfold live_read, call, log_event, st_bind, st_modify, st_ret.
  destruct (get_instance_for_execution execution i (if b then 1 else 0) p (ex_world x)) as [w a] eqn:Eg.
  destruct (env_read facade WI execution Henv _ _ _ _ _ (ex_trace x) _ H6 Eg) as [Hfits HW].
  cbn [ex_world ex_trace ex_values ex_point_values ex_snapshot ex_result]. split; [split|split]; cbn; try done.
  - by apply trace_sound_read.
  - intros Hs c ok [Hin|?%list_elem_of_singleton]%elem_of_app; [by eapply H3|done].
  - intros Ho Hb. apply reads_ok_snoc; [by apply Hr|]. intros ? ? ? [= -> <- <- <-]. by destruct Hb.
Qed.

Lemma read_variable_spec var o : etriple (reading o) (read_variable execution var o) after_read never.
Proof.
  unfold read_variable. assert (etriple (reading o) (st_ret (E := unit) (@None RuleReadOutcome)) after_read never) as Hnone.
  { apply etriple_ret. intros x Hx. apply Hx. }
  destruct (rv_instance var) as [i|]; [|exact Hnone]. destruct (rv_point var) as [p|]; [|exact Hnone]. clear Hnone.
  set (b := bool_decide _). clearbody b. eapply etriple_bind; [apply live_read_spec|]. intros a.
  assert (etriple (fun x => inv x /\ answered b o a (ex_trace x))
    (st_ret (E := unit) (Some (if b then o else note_missing (rv_name var) o))) after_read never) as Hskip.
  { apply etriple_ret. intros x [Hi Ha]. split; [done|]. destruct b; [|intros Ho; by apply app_eq_nil in Ho as [_ ?]].
    intros Ho. apply Ha; [done|by left]. }
  destruct a as [[v ts]|]; [|exact Hskip]. destruct (f64_is_finite v) eqn:Ev; [|exact Hskip].
  eapply etriple_bind with (Q := fun _ x => inv x /\ answered b o (Some (v, ts)) (ex_trace x)).
  - intros x [Hi Ha]. apply (insert_value_inv (answered b o (Some (v, ts)))); [by eapply (proj1 Ha)|done].
  - intros prev. apply etriple_ret. intros x [Hi Ha]. split; [done|]. simpl. intros Ho. apply Ha; [done|right; eauto].
Qed.

Lemma read_base_spec vars o : etriple (reading o) (read_base execution vars o) after_read never.
Proof.
  revert o. induction vars as [|var rest IH]; intros o; cbn [read_base]; [by apply etriple_ret|].
  destruct (rv_formula var); [|apply IH]. eapply etriple_bind; [apply read_variable_spec|].
  intros [o'|]; [apply IH|]. by apply etriple_ret.
Qed.

Lemma read_formulas_spec vars o : etriple (reading o) (read_formulas vars o) reading never.
Proof.
  revert o. induction vars as [|var rest IH]; intros o; cbn [read_formulas]; [by apply etriple_ret|].
  destruct (rv_formula var) as [|t ts]; [apply IH|].
  apply the_values_drop. intros m.
  destruct (evaluate_token_formula (t :: ts) m) as [v|] eqn:Ev.
  - eapply etriple_bind; [apply (insert_value_inv (fun tr => ro_missing o = [] -> reads_ok tr)), (env_formula facade WI execution Henv _ _ _ Ev)|].
    intros prev. eapply etriple_conseq; [apply IH|by intros x|done|done].
  - eapply etriple_conseq; [apply IH| |done|done]. intros x [Hi _]. split; [done|]. simpl. intros Ho. by apply app_eq_nil in Ho as [_ ?].
Qed.

Lemma read_node_spec vars save : etriple live (read_node execution vars save) (fun _ => live) stopped.
Proof.
  unfold read_node, read_rule_variables_for_execution.
  set (keep := if save then _ else _). assert (etriple inv keep (fun _ => inv) stopped) as Hkeep.
  { subst keep. destruct save; [|by intros x Hx]. intros x Hx. by apply inv_result. }
  eapply etriple_bind with (Q := after_read).
  { eapply etriple_bind with (Q := after_read).
    - eapply etriple_conseq; [apply (read_base_spec vars read_default)| |done|done]. by intros x [Hi Hr].
    - intros [o|]; [|by intros x Hx]. eapply etriple_bind; [eapply etriple_conseq; [apply read_formulas_spec|done|done|done]|].
      intros o'. by intros x Hx. }
  intros [o|]; [|eapply etriple_bind; [apply Hkeep|intros []; by apply stop_spec]].
  eapply etriple_bind with (Q := fun _ => reading o).
  { apply set_points_spec. intros x p [Hi Hr]. split; [by apply inv_points|done]. }
  intros _. destruct (ro_missing o) eqn:Eo.
  - apply etriple_ret. intros x [Hi Hr]. split; [done|by apply Hr].
  - eapply etriple_bind; [eapply etriple_conseq; [apply Hkeep|by intros x []|done|done]|]. intros []. by apply stop_spec.
Qed.

Lemma enter_node_spec b : etriple live (enter_node (W := W) b) (fun _ => live) stopped.
Proof.
  unfold enter_node. eapply etriple_bind with (Q := fun _ => live).
  - intros x Hx. unfold snapshot_or_reuse. destruct b, (ex_snapshot x); try done; apply (set_snapshot_live _ x Hx).
  - intros m. eapply etriple_bind; [by apply on_result_live|]. intros []. by apply etriple_ret.
Qed.

(** ** Writes *)

(** The variables the current node may command. *)
Definition at_node (P : RuleVariable -> Prop) (x : Exec W) : Prop :=
  live x /\ forall v c, P v -> rv_instance v = Some (ra_instance_id c) -> rv_point v = Some (ra_point_id c) ->
    point_type_to_static (rv_point_type v) "A" = "A" -> targeted rule path c.

(** Between a command and the entry of its outcome: the log is honest once the
    outcome [a] is entered. *)
Definition answered_by (P : RuleVariable -> Prop) (a : ActionResult) (x : Exec W) : Prop :=
  rr_execution_path (ex_result x) = path /\ trace_sound rule execution path (ex_trace x) /\ values_ok (ex_values x) /\
  (all_succeeded (ex_result x) -> ar_success a = true -> accepted_all (ex_trace x)) /\
  rr_success (ex_result x) = false /\ rr_error (ex_result x) <> Some MaxIterations /\ WI (ex_world x) (ex_trace x) /\ reads_ok (ex_trace x) /\
  forall v c, P v -> rv_instance v = Some (ra_instance_id c) -> rv_point v = Some (ra_point_id c) ->
    point_type_to_static (rv_point_type v) "A" = "A" -> targeted rule path c.

Lemma answered_by_quiet P a x : at_node P x -> answered_by P a x.
Proof. intros [[[H0 H1 H2 H3 H4 H5 H6] Hr] Hv]. split_and!; try done. intros Hs _. by apply H3. Qed.

Lemma push_executed_spec P a : etriple (answered_by P a) (push_executed a) (fun _ => at_node P) never.
Proof.
  apply on_result_spec. intros x (H0 & H1 & H2 & H3 & H4 & H5 & H6 & Hr & Hv). split; [split; [split|]|]; cbn; try done.
  intros Hs. apply Forall_app in Hs as [Hs Ha]. apply H3; [done|]. apply (proj1 (Forall_singleton _ _)) in Ha. exact Ha.
Qed.

Lemma static_action pt d : d = "A" \/ d = "M" -> point_type_to_static pt d = "A" -> point_type_to_static pt "A" = "A".
Proof. unfold point_type_to_static. intros [-> | ->]; [done|]. destruct pt; [|done]. by repeat case_bool_decide. Qed.

Lemma validate_value_ok v u : validate_value v validation_default = Ok u -> u = v /\ f64_is_finite v = true.
Proof.
  unfold validate_value, f64_is_nan, f64_is_infinite, f64_is_finite. cbn [validation_default reject_nan reject_infinity max_abs_value on_some andb].
  destruct (f64_exponent v =? 2047); cbn [andb negb]; [destruct (f64_fraction v =? 0); done|]. by intros [= ->].
Qed.

Lemma write_to_point_spec P v i p value pt :
  P v -> rv_instance v = Some i -> rv_point v = Some p -> (pt = "A" -> point_type_to_static (rv_point_type v) "A" = "A") ->
  fits 64 value -> f64_is_finite value = true ->
  etriple (at_node P) (write_to_point facade execution i p value pt) (answered_by P) stopped.
Proof.
  intros HP Hi Hp Hpt Hfit Hfin. unfold write_to_point.
  destruct (bool_decide (pt = "M")); [by intros x Hx; apply answered_by_quiet|].
  destruct (bool_decide_reflect (pt = "A")) as [Ha|Ha]; [|by intros x Hx; apply answered_by_quiet].
  unfold write_action_point. destruct facade as [F|] eqn:EF; [|by intros x Hx; apply answered_by_quiet].
  set (c := match execution with Some f => _ | None => _ end).
  assert (ra_topology_fence c = execution /\ ra_instance_id c = i /\ ra_point_id c = p /\ ra_value c = value) as (Ec1 & Ec2 & Ec3 & Ec4).
  { subst c. by destruct execution. }
  intros x [[[H0 H1 H2 H3 H4 H5 H6] Hr] Hv]. unfold call, log_event, st_bind, st_modify, st_ret, st_lift.
  assert (sendable execution c) as Hsend by (split_and!; [done|by rewrite Ec4|by rewrite Ec4]).
  destruct (write_action c (ex_world x)) as [w a] eqn:Ew.
  destruct (env_facade _ WI execution Henv F c _ _ (ex_trace x) _ eq_refl Hsend H6 Ew) as [Hnp HW].
  assert (command_sound rule execution path c) as Hc.
  { split; [done|]. apply (Hv v); [done|by rewrite Ec2|by rewrite Ec3|by apply Hpt]. }
  assert (answered_by P (mkAction "instance" i pt p value (is_ok a))
    (mkExec w (ex_trace x ++ [RCommand c (is_ok a)]) (ex_values x) (ex_point_values x) (ex_snapshot x) (ex_result x))) as Hdone.
  { split_and!; cbn; try done; [by apply trace_sound_command| |by apply reads_ok_snoc].
    intros Hs Hok c' ok' [Hin|Heq%list_elem_of_singleton]%elem_of_app; [by eapply H3|congruence]. }
  destruct a; done.
Qed.

Lemma write_validated_spec P v raw d force :
  P v -> fits 64 raw -> d = "A" \/ d = "M" -> force = None \/ force = Some "M" ->
  etriple (at_node P) (write_validated facade execution v raw d force) (answered_by P) stopped.
Proof.
  intros HP Hraw Hd Hf. unfold write_validated, validate_write_target.
  destruct (validate_value raw validation_default) as [u|e|] eqn:Ev;
    [|by intros x Hx; apply answered_by_quiet..].
  apply validate_value_ok in Ev as [-> Hfin].
  destruct (rv_instance v) as [i|] eqn:Ei; [|by intros x Hx; apply answered_by_quiet].
  destruct (rv_point v) as [p|] eqn:Ep; [|by intros x Hx; apply answered_by_quiet].
  apply (write_to_point_spec P v); try done.
  destruct Hf as [-> | ->]; [|done]. by apply static_action.
Qed.

Lemma assignment_value_fits v m b : value_ok v -> values_ok m -> assignment_value v m = Some b -> fits 64 b.
Proof.
  intros Hv Hm. unfold assignment_value. destruct v as [|? |n|s| |]; cbn [as_f64 as_i64 as_str]; try done.
  - destruct Hv as (Hf & _). destruct (num_f64 n) eqn:En; [intros [= <-]; by apply Hf|].
    destruct (num_i64 n); [|done]. intros [= <-]. apply f64_of_Z_fits.
  - destruct (parse_f64 s) eqn:Ep; [intros [= <-]; by eapply parse_f64_fits|]. intros Hs. by eapply (Hm s).
Qed.

Lemma find_variable_in name vars v : find_variable name vars = Some v -> v ∈ vars.
Proof.
  unfold find_variable. destruct (list_find _ vars) as [[i v']|] eqn:E; [|done]. intros [= <-].
  apply list_find_Some in E as (E & _). by eapply list_elem_of_lookup_2.
Qed.

Lemma at_node_live P x : at_node P x -> live x.
Proof. by intros []. Qed.

Lemma stop_node {A} P e (Q : A -> Exec W -> Prop) : e <> MaxIterations -> etriple (at_node P) (stop e) Q stopped.
Proof. intros He x Hx. apply (stop_live e Q He x). by apply at_node_live in Hx. Qed.

Lemma run_assignments_spec vars assigns acc :
  Forall (fun a => value_ok (as_value a)) assigns ->
  etriple (at_node (fun v => v ∈ vars)) (run_assignments facade execution vars assigns acc) (fun _ => at_node (fun v => v ∈ vars)) stopped.
Proof.
  revert acc. induction assigns as [|a rest IH]; intros acc Hok; cbn [run_assignments]; [by apply etriple_ret|].
  inversion Hok as [|? ? Ha Hrest]; subst. destruct (find_variable (as_variables a) vars) as [v|] eqn:Ef; [|by apply IH].
  apply find_variable_in in Ef. eapply etriple_bind.
  - unfold execute_rule_change_for_execution. apply the_values_bind. intros m.
    destruct (assignment_value (as_value a) m) as [raw|] eqn:Ev; [|by intros x [Hx _]; apply answered_by_quiet].
    intros x [Hx ->]. apply (write_validated_spec (fun v => v ∈ vars) v raw "A" None); try (by left); try done.
    eapply assignment_value_fits; [done| |done]. apply Hx.
  - intros r. eapply etriple_bind; [eapply etriple_conseq; [apply push_executed_spec|done|done|done]|]. intros []. by apply IH.
Qed.

(** A call that keeps the world invariant; its answer is some answer of the port. *)
Lemma call_spec {A} (c : W -> W * A) (P : RuleVariable -> Prop) (phi : A -> Prop) R :
  (forall w w' tr a, WI w tr -> c w = (w', a) -> phi a /\ WI w' tr) -> etriple (at_node P) (call c) (fun a x => at_node P x /\ phi a) R.
Proof.
  intros H x [[[H0 H1 H2 H3 H4 H5 H6] Hr] Hv]. unfold call. destruct (c (ex_world x)) as [w a] eqn:E.
  destruct (H _ _ _ _ H6 E) as [Hphi HW]. split; [|done]. split; [|done]. by split.
Qed.

Lemma at_node_values P name v x : fits 64 v -> at_node P x ->
  at_node P (mkExec (ex_world x) (ex_trace x) (<[name := v]> (ex_values x)) (ex_point_values x) (ex_snapshot x) (ex_result x)).
Proof. intros Hf [Hl Hv]. split; [by apply (set_values_live name v Hf x)|done]. Qed.

Lemma run_calculations_spec vars calcs acc :
  etriple (at_node (fun v => v ∈ vars)) (run_calculations facade execution (r_id rule) vars calcs acc)
    (fun _ => at_node (fun v => v ∈ vars)) stopped.
Proof.
  revert acc. induction calcs as [|c rest IH]; intros acc; cbn [run_calculations]; [by apply etriple_ret|].
  apply the_values_drop. intros m.
  eapply etriple_bind; [apply (call_spec _ _ (fun a => forall v, a = Some v -> fits 64 v)); intros *; eapply (env_calc facade WI execution Henv)|].
  intros answer. apply etriple_pure. intros Hfits. destruct answer as [v|]; [|by apply stop_node]. specialize (Hfits v eq_refl).
  eapply etriple_bind with (Q := fun _ => at_node (fun v => v ∈ vars)).
  - destruct (find_variable (ca_output c) vars) as [var|] eqn:Ef; [|by apply etriple_ret]. apply find_variable_in in Ef.
    eapply etriple_bind; [apply (write_validated_spec (fun v => v ∈ vars) var v "M" None); [done|done|by right|by left]|].
    intros a. eapply etriple_bind; [eapply etriple_conseq; [apply push_executed_spec|done|done|done]|]. intros []. by apply etriple_ret.
  - intros acc'. eapply etriple_bind with (Q := fun _ => at_node (fun v => v ∈ vars)); [|intros []; apply IH].
    apply etriple_modify. intros x. by apply at_node_values.
Qed.

(** ** Nodes *)

(** A handler that does not stop names the next node. *)
Definition moved (next : option string) (x : Exec W) : Prop := is_Some next /\ live x.

Lemma follow_spec wires : etriple live (follow (W := W) wires) moved stopped.
Proof. unfold follow. destruct wires; [by apply stop_live|]. apply etriple_ret. intros x Hx. by split. Qed.

Lemma at_node_of id n x : id ∈ path -> rf_nodes (r_flow rule) !! id = Some n -> live x -> at_node (fun v => v ∈ action_targets n) x.
Proof. intros Hid Hn Hl. split; [done|]. intros v c Hv Hi Hp Ht. by exists id, n, v. Qed.

Lemma handle_switch_spec id vars rules wires : etriple live (handle_switch execution id vars rules wires) moved stopped.
Proof.
  unfold handle_switch. eapply etriple_bind; [apply read_node_spec|]. intros changed.
  eapply etriple_bind; [apply enter_node_spec|]. intros snap. apply the_values_drop. intros m.
  destruct (evaluate_rule_switch_with_details rules wires m) as [[next port] matched].
  eapply etriple_bind; [by apply on_result_live|]. intros []. destruct next; [|by apply stop_live].
  apply etriple_ret. intros x Hx. by split.
Qed.

Lemma handle_change_value_spec id vars assigns wires :
  id ∈ path -> rf_nodes (r_flow rule) !! id = Some (NChangeValue vars assigns wires) -> node_ok (NChangeValue vars assigns wires) ->
  etriple live (handle_change_value facade execution id vars assigns wires) moved stopped.
Proof.
  intros Hid Hn Hok. unfold handle_change_value. eapply etriple_bind; [apply read_node_spec|]. intros changed.
  eapply etriple_bind; [apply enter_node_spec|]. intros snap.
  eapply etriple_bind.
  { eapply etriple_conseq; [by apply (run_assignments_spec vars assigns [])|by intros x; apply (at_node_of id _ x Hid Hn)
      |intros a; apply at_node_live|done]. }
  intros acts. eapply etriple_bind; [by apply on_result_live|]. intros []. apply follow_spec.
Qed.

Lemma handle_calculation_spec id vars calcs wires :
  id ∈ path -> rf_nodes (r_flow rule) !! id = Some (NCalculation vars calcs wires) ->
  etriple live (handle_calculation_node facade execution (r_id rule) id vars calcs wires) moved stopped.
Proof.
  intros Hid Hn. unfold handle_calculation_node. eapply etriple_bind; [apply read_node_spec|]. intros changed.
  eapply etriple_bind; [apply enter_node_spec|]. intros snap.
  eapply etriple_bind.
  { eapply etriple_conseq; [by apply (run_calculations_spec vars calcs [])|by intros x; apply (at_node_of id _ x Hid Hn)
      |intros a; apply at_node_live|done]. }
  intros acts. eapply etriple_bind; [apply set_snapshot_live|]. intros [].
  eapply etriple_bind; [by apply on_result_live|]. intros []. apply follow_spec.
Qed.

Lemma handle_period_delta_spec id input output period wires :
  etriple live (handle_period_delta_node facade execution (r_id rule) id input output period wires) moved stopped.
Proof.
  unfold handle_period_delta_node. eapply etriple_bind; [apply read_node_spec|]. intros changed.
  eapply etriple_bind; [apply enter_node_spec|]. intros snap. apply the_values_drop. intros m.
  destruct (m !! rv_name input) as [v|]; [|by apply stop_live]. destruct (negb (f64_is_finite v)); [by apply stop_live|].
  eapply etriple_bind.
  { eapply etriple_conseq; [apply (call_spec _ (fun _ => False) (fun a => forall v, a = Some v -> fits 64 v)); intros *;
      eapply (env_delta facade WI execution Henv)|intros x Hx; by split|done|done]. }
  intros answer. apply etriple_pure. intros Hfits. destruct answer as [delta|]; [|by apply stop_node]. specialize (Hfits delta eq_refl).
  eapply etriple_bind with (Q := answered_by (fun _ => False)).
  { unfold write_period_delta_result, write_validated. destruct (validate_write_target _ _ _) as [[[[i p] u] pt]|a|] eqn:Ev.
    - intros x Hx. by apply answered_by_quiet.
    - intros x Hx. by apply answered_by_quiet.
    - exfalso. revert Ev. unfold validate_write_target. destruct (validate_value _ _); [|done|done].
      by destruct (rv_instance output), (rv_point output). }
  intros a. eapply etriple_bind; [eapply etriple_conseq; [apply push_executed_spec|done|done|done]|]. intros [].
  eapply etriple_bind with (Q := fun _ => live); [eapply etriple_conseq; [by apply set_values_live|apply at_node_live|done|done]|]. intros [].
  eapply etriple_bind; [apply set_snapshot_live|]. intros [].
  eapply etriple_bind; [by apply on_result_live|]. intros []. apply follow_spec.
Qed.
End Safety.

(** ** The walk *)

(** The edges of a flow: the first default wire, or the first wire of a branch's port. *)
Definition targets (n : RuleNode) : list string :=
  match n with
  | NStart wires | NChangeValue _ _ wires | NCalculation _ _ wires | NPeriodDelta _ _ _ wires => take 1 wires
  | NEnd => []
  | NSwitch _ rules wires => rules ≫= (fun b => take 1 (default [] (wires !! rb_name b)))
  end.
Definition edge (rule : Rule) (id next : string) : Prop :=
  exists n, rf_nodes (r_flow rule) !! id = Some n /\ next ∈ targets n.

Fixpoint linked (rule : Rule) (path : list string) : Prop :=
  match path with
  | a :: (b :: _) as rest => edge rule a b /\ linked rule rest
  | _ => True
  end.

Lemma linked_snoc rule path a b : linked rule (path ++ [a]) -> edge rule a b -> linked rule (path ++ [a; b]).
Proof.
  induction path as [|c path IH]; [by intros _ ?; split|]. cbn [app]. destruct path as [|d path]; cbn [app linked] in *.
  - intros [? _] ?. by split_and!.
  - intros [? ?] ?. split; [done|]. by apply IH.
Qed.

Lemma linked_app_l rule path tail : linked rule (path ++ tail) -> linked rule path.
Proof.
  induction path as [|a path IH]; [done|]. destruct path as [|b path]; [done|]. cbn [app linked] in *. intros [? ?]. split; [done|by apply IH].
Qed.

(** What a computation returns, whatever else it does. *)
Definition returns {St E A} (c : ST St E A) (phi : A -> Prop) : Prop := forall x x' a, c x = (x', Ok a) -> phi a.

Lemma returns_bind {St E A B} (c : ST St E A) (k : A -> ST St E B) phi : (forall a, returns (k a) phi) -> returns (st_bind c k) phi.
Proof. intros H x x' b (s1 & a & _ & Hk)%st_bind_ok. by eapply H. Qed.

Lemma returns_stop {W A} e (phi : A -> Prop) : returns (stop (W := W) e) phi.
Proof. by intros x x' a. Qed.

Lemma returns_ret {St E A} (a : A) (phi : A -> Prop) : phi a -> returns (st_ret (S := St) (E := E) a) phi.
Proof. by intros H x x' b [= _ <-]. Qed.

Definition goes_to (ns : list string) (next : option string) : Prop := match next with Some n => n ∈ ns | None => True end.

Lemma returns_follow {W} wires : returns (follow (W := W) wires) (goes_to (take 1 wires)).
Proof. destruct wires; [apply returns_stop|apply returns_ret]. simpl. set_solver. Qed.

Lemma switch_target rules wires m next port matched :
  evaluate_rule_switch_with_details rules wires m = (Some next, port, matched) ->
  next ∈ rules ≫= (fun b => take 1 (default [] (wires !! rb_name b))).
Proof.
  induction rules as [|b rest IH]; [done|]. simpl. intros H.
  destruct (evaluate_flow_conditions (rb_rule b) m), (wires !! rb_name b) as [[|t ts]|]; simplify_eq/=; set_solver.
Qed.

Section Walk.
Context {W : Type} `{!RuleLiveState W, !RuleFormulas W} (facade : option (RuleActionCommandFacade W)).
Context (WI : W -> list RuleEvent -> Prop) (execution : RuleExecutionContext) (rule : Rule).

Lemma visit_goes id next x x' :
  visit facade execution rule id x = (x', Ok (Some next)) -> edge rule id next.
Proof.
  unfold visit. intros (s1 & [] & _ & H)%st_bind_ok. destruct (rf_nodes (r_flow rule) !! id) as [n|] eqn:En; [|done].
  exists n. split; [done|]. revert H.
  assert (forall c : RuleM (option string), returns c (goes_to (targets n)) -> c s1 = (x', Ok (Some next)) -> next ∈ targets n) as Hret.
  { intros c Hc Heq. apply (Hc _ _ _ Heq). }
  destruct n as [[|w ws]| |vars rules wires|vars assigns wires|vars calcs wires|input output period wires]; [done| |done|apply Hret..].
  - intros [= _ <-]. simpl. set_solver.
  - do 2 (apply returns_bind; intros ?). apply returns_bind. intros m.
    destruct (evaluate_rule_switch_with_details rules wires m) as [[nx port] matched] eqn:Es.
    apply returns_bind. intros _. destruct nx; [|apply returns_stop]. apply returns_ret. by apply switch_target in Es.
  - do 4 (apply returns_bind; intros ?). apply returns_follow.
  - do 5 (apply returns_bind; intros ?). apply returns_follow.
  - do 2 (apply returns_bind; intros ?). apply returns_bind. intros m. destruct (m !! rv_name input); [|apply returns_stop].
    destruct (negb _); [apply returns_stop|]. apply returns_bind. intros [delta|]; [|apply returns_stop].
    do 5 (apply returns_bind; intros ?). apply returns_follow.
Qed.

Context (Henv : rule_env_ok facade WI execution) (Hrule : rule_ok rule).

(** A finished execution: it ended at [End]. *)
Record ended (path : list string) (x : Exec W) : Prop := {
  ended_path : rr_execution_path (ex_result x) = path;
  ended_at : exists front id, path = front ++ [id] /\ rf_nodes (r_flow rule) !! id = Some NEnd;
  ended_trace : trace_sound rule execution path (ex_trace x);
  ended_success : rr_success (ex_result x) = true <-> all_succeeded (ex_result x);
  ended_honest : all_succeeded (ex_result x) -> accepted_all (ex_trace x);
  ended_error : rr_error (ex_result x) <> Some MaxIterations;
  ended_world : WI (ex_world x) (ex_trace x)
}.

Lemma push_path_spec path id :
  etriple (live (W := W) WI execution rule path) (on_result (push_path id)) (fun _ => live (W := W) WI execution rule (path ++ [id])) never.
Proof.
  apply on_result_spec. intros x [[H0 H1 H2 H3 H4 H5 H6] Hr]. split; [|done]. split; cbn; try done; [by rewrite H0|].
  eapply trace_sound_mono; [|done]. set_solver.
Qed.

Lemma finish_spec path id x : rf_nodes (r_flow rule) !! id = Some NEnd ->
  live (W := W) WI execution rule (path ++ [id]) x -> ended (path ++ [id]) (finish x).
Proof.
  intros Hend [[H0 H1 H2 H3 H4 H5 H6] Hr]. unfold finish. set (failed := length (filter _ _)).
  assert (failed = 0%nat <-> all_succeeded (ex_result x)) as Hf.
  { subst failed. unfold all_succeeded. clear. induction (rr_actions_executed (ex_result x)) as [|a l IH]; [by split|].
    rewrite list.Forall_cons, filter_cons, <- IH. destruct (ar_success a); case_decide; simplify_eq/=; naive_solver lia. }
  destruct (Nat.eqb_spec failed 0) as [E|E]; split; cbn; try done; eauto.
  - split; [intros _; by apply Hf|done].
  - split; [done|]. intros Hs. by apply Hf in Hs.
Qed.

Lemma visit_spec path id :
  etriple (live (W := W) WI execution rule path) (visit facade execution rule id)
    (fun next x => match next with Some _ => live WI execution rule (path ++ [id]) x | None => ended (path ++ [id]) x end)
    (stopped (W := W) WI execution rule (path ++ [id])).
Proof.
  unfold visit. eapply etriple_bind; [eapply etriple_conseq; [apply (push_path_spec path id)|done|done|done]|]. intros [].
  assert (id ∈ path ++ [id]) as Hid by set_solver.
  assert (forall c : RuleM (option string),
    etriple (live WI execution rule (path ++ [id])) c (moved (W := W) WI execution rule (path ++ [id])) (stopped WI execution rule (path ++ [id])) ->
    etriple (live WI execution rule (path ++ [id])) c
      (fun next x => match next with Some _ => live WI execution rule (path ++ [id]) x | None => ended (path ++ [id]) x end)
      (stopped WI execution rule (path ++ [id]))) as Hmove.
  { intros c Hc. eapply etriple_conseq; [exact Hc|done| |done]. by intros next x [[n ->] Hl]. }
  destruct (rf_nodes (r_flow rule) !! id) as [n|] eqn:En; [|by apply Hmove, stop_live].
  pose proof (map_Forall_lookup_1 _ _ _ _ Hrule En) as Hok. simpl in Hok.
  destruct n as [[|w ws]| |vars rules wires|vars assigns wires|vars calcs wires|input output period wires].
  - by apply Hmove, stop_live.
  - by apply etriple_ret.
  - eapply etriple_bind with (Q := fun _ => ended (path ++ [id])); [|intros []; by apply etriple_ret].
    apply etriple_modify. intros x. by apply finish_spec.
  - eapply Hmove, handle_switch_spec, Henv.
  - by eapply Hmove, handle_change_value_spec.
  - by eapply Hmove, handle_calculation_spec.
  - by eapply Hmove, handle_period_delta_spec.
Qed.

(** The walk ran out of iterations in front of a node. *)
Definition limited (path : list string) (x : Exec W) : Prop :=
  rr_execution_path (ex_result x) = path /\ trace_sound rule execution path (ex_trace x) /\
  rr_success (ex_result x) = false /\ WI (ex_world x) (ex_trace x) /\ (all_succeeded (ex_result x) -> accepted_all (ex_trace x)) /\
  exists id, linked rule (path ++ [id]).

(** The path after the first of [n] rounds. *)
Definition begun (n : nat) (path : list string) (id : string) : list string := match n with O => path | S _ => path ++ [id] end.

Lemma begun_next n path id m next path' : begun n (path ++ [id]) next `prefix_of` path' -> begun (S m) path id `prefix_of` path'.
Proof. destruct n; [done|]. by apply prefix_app_l. Qed.

Lemma walk_spec n path id :
  linked rule (path ++ [id]) ->
  etriple (live (W := W) WI execution rule path) (walk facade execution rule n id)
    (fun _ x => exists path', begun n path id `prefix_of` path' /\ linked rule path' /\ (length path' <= length path + n)%nat /\ ended path' x)
    (fun _ x => exists path', begun n path id `prefix_of` path' /\ linked rule path' /\
       ((length path' <= length path + n)%nat /\ inv WI execution rule path' x \/ length path' = (length path + n)%nat /\ limited path' x)).
Proof.
  revert path id. induction n as [|n IH]; intros path id Hlink; cbn [walk].
  - intros x [[H0 H1 H2 H3 H4 H5 H6] Hr]. exists path. split_and!; [done| |].
    + by eapply linked_app_l.
    + right. split; [lia|]. split_and!; try done. by exists id.
  - intros x Hx. pose proof (visit_spec path id x Hx) as Hv. pose proof (visit_goes id) as Hgo. unfold st_bind.
    destruct (visit facade execution rule id x) as [x1 [[next|]|e|]] eqn:Ev; [| | |done].
    + specialize (Hgo next x x1 Ev). pose proof (linked_snoc _ _ _ _ Hlink Hgo) as Hlink'.
      rewrite (app_assoc path [id] [next] : path ++ [id; next] = _) in Hlink'.
      specialize (IH (path ++ [id]) next Hlink' x1 Hv). rewrite length_app in IH. cbn [length] in IH.
      destruct (walk facade execution rule n next x1) as [x2 [[]|e|]]; [| |done].
      * destruct IH as (path' & Hp & Hl & Hn & He). exists path'. split_and!; [by eapply begun_next|done|lia|done].
      * destruct IH as (path' & Hp & Hl & [[Hn He]|[Hn He]]); exists path'; (split_and!; [by eapply begun_next|done|]); [left|right]; (split; [lia|done]).
    + exists (path ++ [id]). split_and!; [done|done|rewrite length_app; simpl; lia|done].
    + exists (path ++ [id]). split_and!; [done|done|]. left. split; [rewrite length_app; simpl; lia|done].
Qed.
End Walk.

(** ** Claims *)

Lemma run_spec {W} `{!RuleLiveState W, !RuleFormulas W} facade WI rule (w : W) :
  rule_env_ok facade WI (begin_execution w) -> rule_ok rule -> WI w [] ->
  exists path, rf_start_node (r_flow rule) :: [] `prefix_of` path /\ linked rule path /\ (length path <= 100)%nat /\
  match run facade rule w with
  | (x, Ok _) => ended WI (begin_execution w) rule path x
  | (x, Err _) => inv WI (begin_execution w) rule path x \/ length path = 100%nat /\ limited WI (begin_execution w) rule path x
  | (_, Panic) => False
  end.
Proof.
  intros Henv Hrule HW. unfold run. set (x0 := mkExec _ _ _ _ _ _).
  assert (live WI (begin_execution w) rule [] x0) as Hlive.
  { split; [split|]; try done; cbn.
    - intros pre c ok post H. by destruct pre.
    - intros _ c ok H. by apply elem_of_nil in H.
    - intros i p a H. by apply elem_of_nil in H. }
  pose proof (walk_spec facade WI (begin_execution w) rule Henv Hrule max_iterations [] (rf_start_node (r_flow rule)) I x0 Hlive) as H.
  destruct (walk _ _ _ _ _ _) as [x [[]|e|]]; [| |done].
  - destruct H as (path & Hp & Hl & Hn & He). exists path. by split_and!.
  - destruct H as (path & Hp & Hl & [[Hn He]|[Hn He]]); exists path; (split_and!; [done|done| |]); [done|by left|rewrite Hn; done|by right].
Qed.

(** C5. A rule execution never panics and always returns a result. Every device
    command it issues carries a finite value and the topology fence captured
    before the first read, targets an action variable of a node on the executed
    path, and comes after measurement reads that were all present and finite: an
    absent or non-finite reading ends the execution before any later command.
    Success is reported exactly when the walk reached [End] with every attempted
    action successful, and then every command was accepted. *)
Theorem rule_execution_safe {W} `{!RuleLiveState W, !RuleFormulas W} (facade : option (RuleActionCommandFacade W)) WI rule (w : W) :
  rule_env_ok facade WI (begin_execution w) -> rule_ok rule -> WI w [] ->
  match run facade rule w with
  | (x, o) =>
    let r := ex_result x in
    o <> Panic /\ WI (ex_world x) (ex_trace x) /\
    (forall pre c ok post, ex_trace x = pre ++ RCommand c ok :: post ->
       command_sound rule (begin_execution w) (rr_execution_path r) c /\ reads_ok pre) /\
    (rr_success r = true <-> o = Ok tt /\ all_succeeded r) /\
    (rr_success r = true -> accepted_all (ex_trace x) /\
       exists front id, rr_execution_path r = front ++ [id] /\ rf_nodes (r_flow rule) !! id = Some NEnd)
  end.
Proof.
  intros Henv Hrule HW. destruct (run_spec facade WI rule w Henv Hrule HW) as (path & _ & _ & _ & H).
  destruct (run facade rule w) as [x [[]|e|]]; [| |done]; cbv zeta.
  - destruct H as [E1 E2 E3 E4 E5 E6 E7]. rewrite E1. split_and!; [done|done|done|naive_solver|]. intros Hs. apply E4 in Hs. auto.
  - assert (rr_execution_path (ex_result x) = path /\ trace_sound rule (begin_execution w) path (ex_trace x) /\ rr_success (ex_result x) = false /\
      WI (ex_world x) (ex_trace x)) as (E1 & E2 & E3 & E4) by (destruct H as [[]|(_ & ? & ? & ? & ? & _)]; done).
    rewrite E1, E3. split_and!; [done|done|done|naive_solver|done].
Qed.

(** A rank that falls along every edge bounds a linked path. *)
Lemma linked_ranked rule (rank : string -> nat) a path :
  (forall id next, edge rule id next -> (rank next < rank id)%nat) -> linked rule (a :: path) ->
  NoDup (a :: path) /\ (length path <= rank a)%nat /\ Forall (fun b => rank b < rank a)%nat path.
Proof.
  intros Hrank. revert a. induction path as [|b path IH]; intros a Hl.
  { split_and!; [apply NoDup_singleton|simpl; lia|constructor]. }
  destruct Hl as [Hedge Hl]. apply Hrank in Hedge. destruct (IH b Hl) as (Hnd & Hlen & Hall).
  assert (Forall (fun c => rank c < rank a)%nat (b :: path)) as Hall'.
  { constructor; [done|]. eapply Forall_impl; [|exact Hall]. simpl. intros. lia. }
  split_and!; [constructor; [|done]|simpl; lia|done].
  intros Hin. rewrite list.Forall_forall in Hall'. specialize (Hall' a Hin). lia.
Qed.

(** C21. On a flow whose edges fall along a rank below 100, the walk ends by
    itself: the iteration limit is not what stops it, no node is visited twice,
    and the path is a chain of edges from the start node no longer than the
    rank allows. *)
Theorem acyclic_flow_terminates {W} `{!RuleLiveState W, !RuleFormulas W} (facade : option (RuleActionCommandFacade W)) WI rule (w : W)
    (rank : string -> nat) :
  rule_env_ok facade WI (begin_execution w) -> rule_ok rule -> WI w [] ->
  (forall id next, edge rule id next -> (rank next < rank id)%nat) -> (rank (rf_start_node (r_flow rule)) < 100)%nat ->
  match run facade rule w with
  | (x, _) =>
    let r := ex_result x in
    rr_error r <> Some MaxIterations /\ NoDup (rr_execution_path r) /\ linked rule (rr_execution_path r) /\
    exists rest, rr_execution_path r = rf_start_node (r_flow rule) :: rest /\ (length rest <= rank (rf_start_node (r_flow rule)))%nat
  end.
Proof.
  intros Henv Hrule HW Hrank Hstart. destruct (run_spec facade WI rule w Henv Hrule HW) as (path & Hp & Hl & _ & H).
  destruct Hp as [rest ->]. cbn [app] in *. set (a := rf_start_node (r_flow rule)) in *.
  destruct (linked_ranked rule rank a rest Hrank Hl) as (Hnd & Hlen & _).
  destruct (run facade rule w) as [x [[]|e|]]; [| |done]; cbv zeta.
  - destruct H as [E1 _ _ _ _ E6 _]. rewrite E1. split_and!; try done. by exists rest.
  - destruct H as [[E1 _ _ _ _ E6 _]|(Hn & E1 & _ & _ & _ & _ & id & Hl')]; [rewrite E1; split_and!; try done; by exists rest|].
    exfalso. cbn [app] in Hl'. destruct (linked_ranked rule rank a (rest ++ [id]) Hrank Hl') as (_ & Hlen' & _).
    rewrite length_app in Hlen'. simpl in *. lia.
Qed.

(** ** A concrete rule: above ten, set an action point to one *)

Definition demo_live (reading : option (Z * Z)) : RuleLiveState nat := {|
  begin_execution _ := Some 7;
  get_instance _ _ _ w := (w, reading);
  get_instance_for_execution _ _ _ _ w := (w, reading)
|}.
Definition demo_formulas : RuleFormulas nat := {|
  calc_evaluate _ _ _ w := (w, None);
  calc_period_delta _ _ _ _ w := (w, None);
  evaluate_token_formula _ _ := None
|}.
Definition demo_facade : RuleActionCommandFacade nat := {| write_action c w := (S w, Ok (mkCommandReceipt 1 2)) |}.

Definition demo_rule : Rule := mkRule 1 "limit" None true 0 0 None (mkFlow "s" (list_to_map [
  ("s", NStart ["w"]);
  ("w", NSwitch [mkVariable "X1" (Some 1) (Some "measurement") (Some 2) []]
          [mkBranch "out001" "default" [mkCondition "variable" (Some "X1") (Some ">") (Some (jnat 10 0x4024000000000000))]]
          (list_to_map [("out001", ["c"])]));
  ("c", NChangeValue [mkVariable "Y" (Some 1) (Some "action") (Some 5) []] [mkAssignment "Y" (jnat 1 0x3FF0000000000000)] ["e"]);
  ("e", NEnd)])).

Definition demo_rank (id : string) : nat :=
  if decide (id = "s") then 3 else if decide (id = "w") then 2 else if decide (id = "c") then 1 else 0.

Lemma demo_env_ok reading : (forall v ts, reading = Some (v, ts) -> fits 64 v) ->
  @rule_env_ok nat (demo_live reading) demo_formulas (Some demo_facade) (fun _ _ => True) (Some 7).
Proof. intros H. split; cbn; intros *; naive_solver. Qed.

Lemma demo_rule_ok : rule_ok demo_rule.
Proof.
  unfold rule_ok, demo_rule. cbn [r_flow rf_nodes]. rewrite !list_to_map_cons. repeat apply map_Forall_insert_2; try done.
  cbn [node_ok]. apply list.Forall_cons. split; [|by apply list.Forall_nil].
  split_and!; cbn; intros ? [= <-]; unfold fits; lia.
Qed.

Lemma rule_execution_safe_witness :
  let '(x, o) := @run nat (demo_live (Some (0x4034000000000000, 5))) demo_formulas (Some demo_facade) demo_rule 0%nat in
  length (ex_trace x) = 3%nat /\ rr_success (ex_result x) = true /\
  (rr_success (ex_result x) = true -> accepted_all (ex_trace x)).
Proof.
  pose proof (@rule_execution_safe nat (demo_live (Some (0x4034000000000000, 5))) demo_formulas (Some demo_facade) (fun _ _ => True) demo_rule 0%nat
    (demo_env_ok (Some (0x4034000000000000, 5)) ltac:(intros v ts [= <- _]; unfold fits; lia)) demo_rule_ok I) as H.
  assert (length (ex_trace (@run nat (demo_live (Some (0x4034000000000000, 5))) demo_formulas (Some demo_facade) demo_rule 0%nat).1) = 3%nat) as E1
    by (vm_compute; reflexivity).
  assert (rr_success (ex_result (@run nat (demo_live (Some (0x4034000000000000, 5))) demo_formulas (Some demo_facade) demo_rule 0%nat).1) = true) as E2
    by (vm_compute; reflexivity).
  destruct (@run nat _ _ _ _ _) as [x o]. destruct H as (_ & _ & _ & _ & H). split_and!; [exact E1|exact E2|]. intros Hs. by apply H.
Defined.

Lemma demo_ranked id next : edge demo_rule id next -> (demo_rank next < demo_rank id)%nat.
Proof.
  intros (n & Hn & Ht). unfold demo_rule in Hn. cbn [r_flow rf_nodes] in Hn.
  rewrite !list_to_map_cons, !lookup_insert_Some in Hn.
  repeat (destruct Hn as [[<- <-]|[_ Hn]]; [|]);  try done; vm_compute in Ht; inversion Ht as [|? ? ? Hin]; subst; try (by inversion Hin); vm_compute; lia.
Qed.

Lemma acyclic_flow_terminates_witness :
  let '(x, _) := @run nat (demo_live (Some (0x4034000000000000, 5))) demo_formulas (Some demo_facade) demo_rule 0%nat in
  rr_execution_path (ex_result x) = ["s"; "w"; "c"; "e"] /\ rr_error (ex_result x) <> Some MaxIterations.
Proof.
  pose proof (@acyclic_flow_terminates nat (demo_live (Some (0x4034000000000000, 5))) demo_formulas (Some demo_facade) (fun _ _ => True) demo_rule 0%nat demo_rank
    (demo_env_ok (Some (0x4034000000000000, 5)) ltac:(intros v ts [= <- _]; unfold fits; lia)) demo_rule_ok I demo_ranked
    ltac:(vm_compute; lia)) as H.
  assert (rr_execution_path (ex_result (@run nat (demo_live (Some (0x4034000000000000, 5))) demo_formulas (Some demo_facade) demo_rule 0%nat).1)
    = ["s"; "w"; "c"; "e"]) as E by (vm_compute; reflexivity).
  destruct (@run nat _ _ _ _ _) as [x o]. split; [exact E|apply H].
Defined.
