(* ===== verification/RuleControl.v ===== *)
(** * Rules on the governed control path

    [services/automation/src/infra/rule_live_state.rs] and the
    [RuleActionApplication] of [application_control.rs]: the live state a rule
    reads and the facade its actions go through, and both composed with the
    executor of [Rules], the application of [Application], the dispatcher of
    [Dispatcher] and the sink of [CommandSink].

    The complete topology is replaced while rules run: [topo] gives the
    dispatcher, with the generation it pins, at every moment of the run. What a
    read returns from the pinned planes is a parameter, as are fresh UUIDs. *)

From S2P Require Import Prelude F64 Slot Bitmap Segment Snapshot Text BTree Manifest Publish Publication Acquisition Command CommandSink CommandProtocol Application Dispatcher Json Rules RuleSafety.

Definition COMMISSIONED_RULE_ACTOR_ID : string := "local:aether-automation-rule-engine".

Definition rule_action_port_error (e : ApplicationError) : PortErrorKind :=
  match e with
  | AuditUnavailable k | PortFailed k => k
  | InvalidCommand _ => PInvalidData
  | PermissionDenied _ _ | ConfirmationRequired _ => PRejected
  | _ => PPermanent
  end.

Section RuleControl.
Context {Store : Type} (audit : AuditRecord unit -> Store -> Store * outcome PortErrorKind unit).
Context (env : SinkEnv) (topo : nat -> AutomationCommandDispatcher).
(* AutomationTopologyGeneration::read_instance_point, with .ok().flatten() *)
Context (read_instance_point : PinnedTopology -> Z -> bool -> Z -> World -> option (Z * Z)).
(* Uuid::new_v4: its 128 bits and its text *)
Context (new_v4 : nat -> Z * string).

Definition sequence_at (w : World) : option Z := pin_sequence <$> ds_topology (topo (wd_tick w)).

(** Other tasks run between two reads; a read is refused once the generation
    has been replaced. *)
Definition shm_read (fence : option Z) (checked : bool) (instance_id instance_type point_id : Z) (s : World * Store)
  : (World * Store) * option (Z * Z) :=
  let w := (interleave (E := unit) env false s.1).1 in
  ((w, s.2),
   match ds_topology (topo (wd_tick w)) with
   | None => None
   | Some generation =>
       if checked && negb (bool_decide (fence = Some (pin_sequence generation))) then None
       else read_instance_point generation instance_id (negb (instance_type =? 0)) point_id w
   end).

#[export] Instance ShmRuleLiveState : RuleLiveState (World * Store) := {|
  begin_execution s := sequence_at s.1;
  get_instance := shm_read None false;
  get_instance_for_execution fence := shm_read fence true
|}.

(** The context of a rule command: the commissioned actor, confirmed. *)
Definition rule_context (w : World) : RequestContext :=
  mkContext (new_v4 (wd_tick w)).2 (with_permission "device.control" (actor_new COMMISSIONED_RULE_ACTOR_ID)) true
    (wrap 64 (Z.max 0 (system_time env (wd_tick w)))).

Definition rule_write_action (command : RuleActionCommand) (s : World * Store) : (World * Store) * outcome PortErrorKind CommandReceipt :=
  let w := s.1 in
  let answer := control_write_point audit env (topo (wd_tick w)) (rule_context w) (new_v4 (wd_tick w)).1
                  (rule_action_target command) (ra_value command) (ra_topology_fence command) (s, []) in
  (answer.1.1,
   match answer.2 with
   | Ok acceptance => Ok (ao_receipt acceptance)
   | Err e => Err (rule_action_port_error e)
   | Panic => Panic
   end).

Definition RuleActionApplication : RuleActionCommandFacade (World * Store) := {| write_action := rule_write_action |}.

(** ** What one command did *)

(** The device effects [seg] of a rule command that was answered with [ok]:
    none, or those of one command to the logical point and value of the rule,
    admitted by the dispatcher under the fence the rule carries. *)
Definition served (e : RuleActionCommand * bool) (seg : list SinkAction) : Prop :=
  let '(c, ok) := e in
  seg = [] /\ ok = false \/
  exists t command p gid g stage,
    ctl_target command = rule_action_target c /\ ctl_value command = ra_value c /\
    admitted (topo t) command (ra_topology_fence c) p /\ physical_command_ok p /\ protocol p gid g stage seg /\
    (ok = true <-> stage = Completed) /\
    forall slot m m', Mirrored slot m m' ∈ seg -> acquisition_untouched (cg_manifest g) m m'.

Fixpoint commands_of (tr : list RuleEvent) : list (RuleActionCommand * bool) :=
  match tr with
  | [] => []
  | RCommand c ok :: rest => (c, ok) :: commands_of rest
  | RRead _ _ _ _ :: rest => commands_of rest
  end.

(** The log of the sink is that of the commands of the rule, in order. *)
Definition device_log (L : list SinkAction) (s : World * Store) (tr : list RuleEvent) : Prop :=
  sound (wd_fs s.1, wd_sink s.1) /\ wd_leased s.1 = false /\
  exists segs, wd_log s.1 = L ++ concat segs /\ Forall2 served (commands_of tr) segs.

Lemma commands_of_app tr tr' : commands_of (tr ++ tr') = commands_of tr ++ commands_of tr'.
Proof. induction tr as [|[]]; simpl; [done|done|by f_equal]. Qed.

Context `{!RuleFormulas (World * Store)}.

(** The formulas of a rule have state of their own. *)
Record control_ok : Prop := {
  co_respectful : respectful env;
  co_path t : path_ok (topo t);
  co_audit r a : (audit r a).2 <> Panic;
  co_read g i b p w v ts : read_instance_point g i b p w = Some (v, ts) -> fits 64 v;
  co_calc r f m s : (calc_evaluate r f m s).1 = s /\ forall v, (calc_evaluate r f m s).2 = Some v -> fits 64 v;
  co_delta r k x p s : (calc_period_delta r k x p s).1 = s /\ forall v, (calc_period_delta r k x p s).2 = Some v -> fits 64 v;
  co_formula f m v : evaluate_token_formula (W := World * Store) f m = Some v -> fits 64 v
}.

Context (Hok : control_ok).

Lemma shm_read_log L s tr fence b i t p c : device_log L s tr -> commands_of [c] = [] -> device_log L (shm_read fence b i t p s).1 (tr ++ [c]).
Proof.
  intros (Hs & Hl & segs & Hlog & Hall) Hc. unfold shm_read, interleave, disturb, device_log. cbn [fst].
  destruct (co_respectful Hok (wd_tick s.1) _ Hs) as [Hs' _]. destruct (others env (wd_tick s.1) (wd_fs s.1, wd_sink s.1)) as [f sk].
  split_and!; [done|done|]. exists segs. by rewrite commands_of_app, Hc, app_nil_r.
Qed.

Lemma rule_write_action_spec L s tr c s' a :
  device_log L s tr -> fits 64 (ra_value c) -> rule_write_action c s = (s', a) ->
  a <> Panic /\ device_log L s' (tr ++ [RCommand c (is_ok a)]).
Proof.
  intros (Hs & Hl & segs & Hlog & Hall) Hv Hw. unfold rule_write_action in Hw.
  pose proof (control_write_point_spec audit env (topo (wd_tick s.1)) (rule_context s.1) (new_v4 (wd_tick s.1)).1 (rule_action_target c)
    (ra_value c) (ra_topology_fence c) s.1 s.2 (co_respectful Hok) (co_path Hok _) (co_audit Hok) Hs Hl Hv
    ltac:(apply wrap_fits; lia)) as H. cbv zeta in H. rewrite <- surjective_pairing in H.
  destruct (control_write_point _ _ _ _ _ _ _ _ (s, [])) as [[[w2 st2] tr2] r]. cbn [fst snd] in Hw.
  destruct H as [Hnp H]. injection Hw as <- <-.
  assert (match r with Ok acceptance => Ok (ao_receipt acceptance) | Err e => Err (rule_action_port_error e) | Panic => Panic end <> Panic) as Hnp'
    by by destruct r.
  set (a := match r with Ok _ => _ | Err _ => _ | Panic => _ end) in *.
  assert (is_ok a = is_ok r) as Hok' by (subst a; by destruct r).
  assert (device_log L (w2, st2) (tr ++ [RCommand c (is_ok a)]) <->
    sound (wd_fs w2, wd_sink w2) /\ wd_leased w2 = false /\
    exists segs, wd_log w2 = L ++ concat segs /\ Forall2 served (commands_of tr ++ [(c, is_ok r)]) segs) as Heq.
  { unfold device_log. rewrite commands_of_app, Hok'. done. }
  split; [done|]. apply Heq. clear Heq Hnp' Hok'. clearbody a.
  destruct H as [[-> Hr]|(_ & _ & command & Hperm & Hs' & Hl' & seg & Hlog' & Hcase)].
  - split_and!; [done|done|]. exists (segs ++ [[]]). rewrite concat_app, app_nil_r. split; [done|].
    apply Forall2_app; [done|]. constructor; [by left|constructor].
  - split_and!; [done|done|]. exists (segs ++ [seg]). rewrite concat_app. cbn [concat]. rewrite app_nil_r, Hlog', Hlog, app_assoc. split; [done|].
    apply Forall2_app; [done|]. constructor; [|constructor].
    destruct Hcase as [[-> ->]|(p & gid & g & stage & Hadm & Hp & Hpr & Hst & Hacq)]; [by left|right].
    destruct Hperm as (cmd & [= <-] & _ & _ & Hcmd & _).
    exists (wd_tick s.1), command, p, gid, g, stage. split_and!; [by rewrite Hcmd|by rewrite Hcmd|done..].
Qed.

Lemma control_env_ok L fence : rule_env_ok (Some RuleActionApplication) (device_log L) fence.
Proof.
  split.
  - intros i t p s s' tr a HW Hg. cbn in Hg. split.
    + intros v ts ->. unfold shm_read in Hg. injection Hg as _ Hg. repeat case_match; try done. by eapply co_read.
    + intros b. replace s' with (shm_read fence true i t p s).1 by by rewrite Hg. by apply shm_read_log.
  - intros r f m s s' tr a HW Hg. destruct (co_calc Hok r f m s) as [H1 H2]. rewrite Hg in H1, H2. simpl in *. by subst.
  - intros r k x p s s' tr a HW Hg. destruct (co_delta Hok r k x p s) as [H1 H2]. rewrite Hg in H1, H2. simpl in *. by subst.
  - apply Hok.
  - intros F c s s' tr a [= <-] (_ & Hv & _) HW Hg. by eapply rule_write_action_spec.
Qed.
End RuleControl.

(** ** Claims *)

(** C6. A rule on the governed path, while the topology may be replaced and
    other tasks run: the device effects of an execution are exactly those of its
    commands, in the order it issued them. Each command wrote nothing, or went
    through the dispatcher as a command of the same logical point and value,
    admitted under the topology sequence captured before the rule's first read,
    within the configured limits and on an online channel, in the sink's
    protocol; it is reported successful exactly when the sink completed. The
    reads it follows were all present and finite. *)
Theorem rule_commands_governed {Store} (audit : AuditRecord unit -> Store -> Store * outcome PortErrorKind unit) env topo read_instance_point new_v4
    `{!RuleFormulas (World * Store)} rule w a :
  control_ok audit env topo read_instance_point -> rule_ok rule -> sound (wd_fs w, wd_sink w) -> wd_leased w = false ->
  match @run _ (ShmRuleLiveState env topo read_instance_point) _ (Some (RuleActionApplication audit env topo new_v4)) rule (w, a) with
  | (x, o) =>
    o <> Panic /\
    (exists segs, wd_log (ex_world x).1 = wd_log w ++ concat segs /\ Forall2 (served topo) (commands_of (ex_trace x)) segs) /\
    forall pre c ok post, ex_trace x = pre ++ RCommand c ok :: post -> ra_topology_fence c = sequence_at topo w /\ reads_ok pre
  end.
Proof.
  intros Hok Hrule Hs Hl.
  pose proof (@run_spec _ (ShmRuleLiveState env topo read_instance_point) _ (Some (RuleActionApplication audit env topo new_v4))
    (device_log topo (wd_log w)) rule (w, a) (control_env_ok audit env topo read_instance_point new_v4 Hok _ _) Hrule) as H.
  destruct H as (path & _ & _ & _ & H).
  { split_and!; [done|done|]. exists []. by rewrite app_nil_r. }
  destruct (run _ rule (w, a)) as [x o].
  assert (o <> Panic /\ device_log topo (wd_log w) (ex_world x) (ex_trace x) /\ trace_sound rule (sequence_at topo w) path (ex_trace x)) as (Hnp & Hd & Ht).
  { destruct o as [[]|e|]; [| |done]; (split; [done|]).
    - destruct H. done.
    - destruct H as [[]|(_ & ? & ? & ? & ? & _)]; done. }
  split_and!; [done|apply Hd|]. intros pre c ok post Htr. destruct (Ht pre c ok post Htr) as [[[? _] _] ?]. done.
Qed.

(** *** Witness *)

Definition demo_read (g : PinnedTopology) (i : Z) (b : bool) (p : Z) (w : World) : option (Z * Z) := Some (0x4034000000000000, 5).
Definition control_formulas : RuleFormulas (World * nat) := {|
  calc_evaluate _ _ _ s := (s, None);
  calc_period_delta _ _ _ _ s := (s, None);
  evaluate_token_formula _ _ := None
|}.
Definition control_rule : Rule := mkRule 1 "limit" None true 0 0 None (mkFlow "s" (list_to_map [
  ("s", NStart ["w"]);
  ("w", NSwitch [mkVariable "X1" (Some 1) (Some "measurement") (Some 2) []]
          [mkBranch "out001" "default" [mkCondition "variable" (Some "X1") (Some ">") (Some (jnat 10 0x4024000000000000))]]
          (list_to_map [("out001", ["c"])]));
  ("c", NChangeValue [mkVariable "Y" (Some 1) (Some "action") (Some 0) []] [mkAssignment "Y" (jnat 1 0x3FF0000000000000)] ["e"]);
  ("e", NEnd)])).

Lemma control_rule_ok : rule_ok control_rule.
Proof.
  unfold rule_ok, control_rule. cbn [r_flow rf_nodes]. rewrite !list_to_map_cons. repeat apply map_Forall_insert_2; try done.
  cbn [node_ok]. apply list.Forall_cons. split; [|by apply list.Forall_nil].
  split_and!; cbn; intros ? [= <-]; unfold fits; lia.
Qed.

Lemma demo_control_ok : @control_ok nat (fun r n => (S n, Ok tt)) demo_env (fun _ => demo_dispatcher) demo_read control_formulas.
Proof.
  split; try done; [apply demo_respectful|intros _; apply demo_path_ok|].
  intros g i b p w v ts [= <- _]. unfold fits. lia.
Qed.

Lemma rule_commands_governed_witness :
  let r := @run _ (ShmRuleLiveState demo_env (fun _ => demo_dispatcher) demo_read) control_formulas
    (Some (RuleActionApplication (fun r n => (S n, Ok tt)) demo_env (fun _ => demo_dispatcher) (fun _ => (5, "id")))) control_rule (demo_world, 0%nat) in
  commands_of (ex_trace r.1) = [(mkRuleAction 1 0 0x3FF0000000000000 (Some 3), true)] /\
  exists segs, wd_log (ex_world r.1).1 = concat segs /\ Forall2 (served (fun _ => demo_dispatcher)) (commands_of (ex_trace r.1)) segs.
Proof.
  intros r. assert (commands_of (ex_trace r.1) = [(mkRuleAction 1 0 0x3FF0000000000000 (Some 3), true)]) as E by (vm_compute; reflexivity).
  split; [done|].
  pose proof (@rule_commands_governed nat (fun r n => (S n, Ok tt)) demo_env (fun _ => demo_dispatcher) demo_read (fun _ => (5, "id")) control_formulas
    control_rule demo_world 0%nat demo_control_ok control_rule_ok demo_sound eq_refl) as H. fold r in H.
  destruct r as [x o]. apply H.
Defined.
