(* ===== verification/RuleScheduler.v ===== *)
(** * The rule scheduler

    [libs/aether-rules/src/scheduler.rs]: when rules run. The tick and the
    PointWatch fast path sample the subscribed points, select the rules that are
    due, execute them, and record what the execution saw. Both run one after the
    other in the loop of [start]; rules may be reloaded by another task between
    any two phases, which release the lock on the rule list.

    An [Instant] is a count of nanoseconds. The stored trigger text goes through
    [serde_json] and is a parameter. The order in which concurrent executions
    finish is any permutation. *)

From S2P Require Import Prelude F64 Slot Bitmap Segment Snapshot Text BTree Manifest Publish Publication Acquisition Command Json Rules RuleSafety.

(** ** Triggers *)

Inductive RefKind := MeasurementRef | ActionRef.
Record PointRef := mkPointRef { pr_instance : Z; pr_point_type : RefKind; pr_point : Z }.
#[global] Instance RefKind_eq_dec : EqDecision RefKind.
Proof. solve_decision. Defined.
#[global] Instance PointRef_eq_dec : EqDecision PointRef.
Proof. solve_decision. Defined.

Definition is_action_ref (p : PointRef) : bool := match pr_point_type p with ActionRef => true | MeasurementRef => false end.
Definition cache_key (p : PointRef) : string := point_key (is_action_ref p) (pr_instance p) (pr_point p).

Inductive ValueDeadband := Absolute (threshold : Z) | Percent (threshold : Z).

Definition HUNDRED : spec_float := of_bits 0x4059000000000000.

Definition exceeds (d : ValueDeadband) (last new : Z) : bool :=
  let delta := f64_abs (f64_sub (of_bits new) (of_bits last)) in
  match d with
  | Absolute threshold => f64_ltb (of_bits threshold) delta
  | Percent threshold =>
      let basis := f64_abs (of_bits last) in
      if f64_eqb basis f64_zero then negb (f64_eqb (of_bits new) f64_zero)
      else f64_ltb (of_bits threshold) (f64_mul (f64_div delta basis) HUNDRED)
  end.

Inductive TriggerConfig :=
| Interval (interval_ms : Z)
| OnChange (point_refs : list PointRef) (time_deadband_ms : option Z) (value_deadband : option ValueDeadband).

Record OnChangeState := mkOnChange { oc_last_value : gmap string Z; oc_last_trigger : option Z }.
Definition onchange_default : OnChangeState := mkOnChange ∅ None.

(** [now.duration_since(last).as_millis() as u64]. *)
Definition elapsed_ms (now last : Z) : Z := wrap 64 (Z.max 0 (now - last) / 1000000).

Definition value_changed (d : option ValueDeadband) (last new : Z) : bool :=
  match d with Some vd => exceeds vd last new | None => negb (last =? new) end.

(** One round of the loop over the subscribed points. *)
Definition point_triggers (state : OnChangeState) (d : option ValueDeadband) (snapshot : gmap string (option Z)) (p : PointRef) : bool :=
  match snapshot !! cache_key p with
  | Some (Some v) =>
      f64_is_finite v &&
      match oc_last_value state !! cache_key p with
      | None => true
      | Some last => value_changed d last v
      end
  | _ => false
  end.

Definition should_trigger_onchange (state : OnChangeState) (point_refs : list PointRef) (time_deadband_ms : option Z)
    (value_deadband : option ValueDeadband) (snapshot : gmap string (option Z)) (now : Z) : bool :=
  if match time_deadband_ms, oc_last_trigger state with
     | Some td, Some last => elapsed_ms now last <? td
     | _, _ => false
     end
  then false
  else existsb (point_triggers state value_deadband snapshot) point_refs.

(** ** Scheduled rules *)

Record ScheduledRule := mkScheduled {
  sr_rule : Rule;
  sr_trigger : TriggerConfig;
  sr_last_execution : option Z;
  sr_last_cooldown_start : option Z;
  sr_onchange_state : OnChangeState
}.

(** [load_rules], from the rows the repository returned. *)
Definition default_trigger (rule : Rule) : TriggerConfig :=
  Interval (if 0 <? r_cooldown_ms rule then r_cooldown_ms rule else 1000).
Definition schedule (parse_trigger : string -> option TriggerConfig) (rule : Rule) : ScheduledRule :=
  mkScheduled rule (default (default_trigger rule) (r_trigger_config rule ≫= parse_trigger)) None None onchange_default.

Definition subscribed (s : ScheduledRule) : list PointRef :=
  match sr_trigger s with OnChange refs _ _ => refs | Interval _ => [] end.

Definition is_onchange (s : ScheduledRule) : bool := match sr_trigger s with OnChange _ _ _ => true | Interval _ => false end.

Definition trigger_due (snapshot : gmap string (option Z)) (now : Z) (s : ScheduledRule) : bool :=
  match sr_trigger s with
  | Interval interval_ms =>
      match sr_last_execution s with
      | None => true
      | Some last => interval_ms <=? elapsed_ms now last
      end
  | OnChange refs td vd => should_trigger_onchange (sr_onchange_state s) refs td vd snapshot now
  end.

Definition cooldown_ok (now : Z) (s : ScheduledRule) : bool :=
  if 0 <? r_cooldown_ms (sr_rule s) then
    match sr_last_cooldown_start s with
    | None => true
    | Some start => r_cooldown_ms (sr_rule s) <=? elapsed_ms now start
    end
  else true.

(** What wakes the scheduler: its tick, or a hint with candidate rules. *)
Inductive Wake := Tick | Watch (rule_ids : list Z).

Definition candidate (wake : Wake) (s : ScheduledRule) : bool :=
  r_enabled (sr_rule s) &&
  match wake with Tick => true | Watch ids => bool_decide (r_id (sr_rule s) ∈ ids) && is_onchange s end.

(** Phase 0. *)
Definition subscriptions (wake : Wake) (rules : list ScheduledRule) : list PointRef :=
  remove_dups (filter (fun s => candidate wake s = true) rules ≫= subscribed).

(** Phase 1: the indices to execute. *)
Definition due (wake : Wake) (snapshot : gmap string (option Z)) (now : Z) (s : ScheduledRule) : bool :=
  candidate wake s && trigger_due snapshot now s && cooldown_ok now s.

Record Selected := mkSelected { se_idx : nat; se_rule : Rule; se_is_onchange : bool }.

Definition select (wake : Wake) (snapshot : gmap string (option Z)) (now : Z) (rules : list ScheduledRule) : list Selected :=
  omap (fun '(i, s) => if due wake snapshot now s then Some (mkSelected i (sr_rule s) (is_onchange s)) else None)
       (imap (fun i s => (i, s)) rules).

(** Phase 3. The outcome of an execution, [None] for an [Err]. *)
Record Outcome := mkOutcome { out_selected : Selected; out_result : option RuleExecutionResult }.

Definition start_cooldown (o : Outcome) : bool :=
  match out_result o with
  | Some r => rr_success r && negb (bool_decide (rr_actions_executed r = []))
  | None => false
  end.
Definition executor_values (o : Outcome) : gmap string Z :=
  match out_result o with Some r => rr_point_values r | None => ∅ end.

(** The value a point is remembered by. *)
Definition remembered (executed : gmap string Z) (snapshot : gmap string (option Z)) (p : PointRef) : option Z :=
  match executed !! cache_key p with
  | Some v => Some v
  | None => default None (snapshot !! cache_key p)
  end.

Definition remember (executed : gmap string Z) (snapshot : gmap string (option Z)) (m : gmap string Z) (p : PointRef) : gmap string Z :=
  match remembered executed snapshot p with
  | Some v => if f64_is_finite v then <[cache_key p := v]> m else m
  | None => m
  end.

Definition advance_onchange (now : Z) (executed : gmap string Z) (snapshot : gmap string (option Z)) (refs : list PointRef) (st : OnChangeState)
  : OnChangeState :=
  mkOnChange (foldl (remember executed snapshot) (oc_last_value st) refs) (Some now).

(** The tick advances the memory of every OnChange rule it ran, the fast path
    only if the execution returned a result. *)
Definition advances (wake : Wake) (o : Outcome) : bool :=
  match wake with
  | Tick => se_is_onchange (out_selected o)
  | Watch _ => match out_result o with Some _ => true | None => false end
  end.

Definition update_rule (wake : Wake) (now : Z) (snapshot : gmap string (option Z)) (o : Outcome) (s : ScheduledRule) : ScheduledRule :=
  if negb (r_id (sr_rule s) =? r_id (se_rule (out_selected o))) then s
  else
    let cooldown := if start_cooldown o then Some now else sr_last_cooldown_start s in
    let st := match sr_trigger s with
              | OnChange refs _ _ => if advances wake o then advance_onchange now (executor_values o) snapshot refs (sr_onchange_state s)
                                     else sr_onchange_state s
              | Interval _ => sr_onchange_state s
              end in
    mkScheduled (sr_rule s) (sr_trigger s) (Some now) cooldown st.

Definition apply_updates (wake : Wake) (now : Z) (snapshot : gmap string (option Z)) (outcomes : list Outcome) (rules : list ScheduledRule)
  : list ScheduledRule :=
  foldl (fun rules o => alter (update_rule wake now snapshot o) (se_idx (out_selected o)) rules) rules outcomes.

(** ** The loop *)

Section Scheduler.
Context {W : Type} `{!RuleLiveState W} (parse_trigger : string -> option TriggerConfig).

(** [fetch_point_snapshot]: missing and non-finite readings are [None]. *)
Fixpoint fetch_point_snapshot (subs : list PointRef) (w : W) : W * gmap string (option Z) :=
  match subs with
  | [] => (w, ∅)
  | p :: rest =>
      let '(w, answer) := get_instance (pr_instance p) (if is_action_ref p then 1 else 0) (pr_point p) w in
      let value := match answer with Some (v, _) => if f64_is_finite v then Some v else None | None => None end in
      let '(w, m) := fetch_point_snapshot rest w in
      (w, <[cache_key p := value]> m)
  end.

Inductive Phase :=
| Waiting
| Sampled (wake : Wake) (now : Z) (snapshot : gmap string (option Z))
| Executing (wake : Wake) (now : Z) (snapshot : gmap string (option Z)) (selected : list Selected) (epoch : nat).

(** A finished execution: the entry as it was selected, in which rule list. *)
Record Execution := mkExecution { le_epoch : nat; le_idx : nat; le_entry : ScheduledRule; le_now : Z; le_outcome : Outcome }.

Record RuleScheduler := mkScheduler {
  sc_world : W;
  sc_rules : list ScheduledRule;
  sc_phase : Phase;
  sc_clock : Z;
  sc_epoch : nat; (* how often the rule list was loaded *)
  sc_log : list Execution
}.

Definition executions (epoch : nat) (now : Z) (rules : list ScheduledRule) (outcomes : list Outcome) : list Execution :=
  omap (fun o => (fun s => mkExecution epoch (se_idx (out_selected o)) s now o) <$> rules !! se_idx (out_selected o)) outcomes.

(** [begin] reads the clock and samples, [select] filters under the read lock,
    [finish] writes the outcomes back. *)
Inductive sstep : RuleScheduler -> RuleScheduler -> Prop :=
| ss_world w w' rules ph t e l : sstep (mkScheduler w rules ph t e l) (mkScheduler w' rules ph t e l)
| ss_load w rules db_rules ph t e l :
    sstep (mkScheduler w rules ph t e l) (mkScheduler w (schedule parse_trigger <$> db_rules) ph t (S e) l)
| ss_begin w rules t e l wake now :
    t <= now ->
    sstep (mkScheduler w rules Waiting t e l)
      (let (w', snapshot) := fetch_point_snapshot (subscriptions wake rules) w in
       mkScheduler w' rules (match wake, subscriptions wake rules with Watch _, [] => Waiting | _, _ => Sampled wake now snapshot end) now e l)
| ss_select w rules t e l wake now snapshot :
    sstep (mkScheduler w rules (Sampled wake now snapshot) t e l)
      (mkScheduler w rules (match select wake snapshot now rules with
                            | [] => Waiting
                            | selected => Executing wake now snapshot selected e
                            end) t e l)
| ss_finish w rules t e l wake now snapshot selected e0 outcomes :
    out_selected <$> outcomes ≡ₚ selected ->
    sstep (mkScheduler w rules (Executing wake now snapshot selected e0) t e l)
      (mkScheduler w (apply_updates wake now snapshot outcomes rules) Waiting t e
         (l ++ if (e0 =? e)%nat then executions e now rules outcomes else [])).

(** ** Manual execution *)

Inductive RuleError :=
| NotFound | AlreadyExists | InvalidFormat | ParseError | ExecutionError | ConditionError
| ActionError | DatabaseError | SerializationError | SchedulerError | RoutingError.

Definition rule_execution_port_error (error : RuleError) : PortErrorKind :=
  match error with
  | NotFound | InvalidFormat | ParseError | SerializationError => PInvalidData
  | AlreadyExists => PConflict
  | ExecutionError | ConditionError | ActionError | RoutingError => PRejected
  | DatabaseError | SchedulerError => PUnavailable
  end.

Record RuleExecutionReceipt := mkExecutionReceipt {
  er_rule_id : Z; er_completed_at : Z; er_actions_attempted : Z; er_actions_succeeded : Z }.

Context `{!RuleFormulas W} (action_commands : option (RuleActionCommandFacade W)).
Context (get_rule_for_execution : Z -> W -> W * (RuleError + Rule)) (completed_at : W -> Z).

Definition execute_rule_by_id (rule_id : Z) (w : W) : W * (RuleError + RuleExecutionResult) :=
  let (w, row) := get_rule_for_execution rule_id w in
  match row with
  | inl e => (w, inl e)
  | inr rule => let (w, result) := execute action_commands rule w in (w, inr result)
  end.

Definition succeeded_count (l : list ActionResult) : Z := Z.of_nat (length (filter (fun a => ar_success a = true) l)).

Definition executor_port (rule_id : Z) (w : W) : W * outcome PortErrorKind RuleExecutionReceipt :=
  if 2 ^ 63 <=? rule_id then (w, Err PInvalidData)
  else
    let (w, answer) := execute_rule_by_id rule_id w in
    (w, match answer with
        | inl e => Err (rule_execution_port_error e)
        | inr result =>
            let attempted := Z.of_nat (length (rr_actions_executed result)) in
            let succeeded := succeeded_count (rr_actions_executed result) in
            if 2 ^ 32 <=? attempted then Err PInvalidData
            else if 2 ^ 32 <=? succeeded then Err PInvalidData
            else if negb (rr_success result) then Err PRejected
            else Ok (mkExecutionReceipt rule_id (completed_at w) attempted succeeded)
        end).

End Scheduler.
Arguments RuleScheduler W : clear implicits.
Arguments mkScheduler {W} _ _ _ _ _ _.

Definition initial {W} (w : W) (t : Z) : RuleScheduler W := mkScheduler w [] Waiting t 0 [].

(** A receipt of a manual execution counts no failed action. *)
Lemma manual_receipt_complete {W} `{!RuleLiveState W, !RuleFormulas W} facade WI get_rule completed_at rule_id (w w1 w2 : W) rule receipt :
  get_rule rule_id w = (w1, inr rule) -> rule_env_ok facade WI (begin_execution w1) -> rule_ok rule -> WI w1 [] ->
  executor_port facade get_rule completed_at rule_id w = (w2, Ok receipt) ->
  er_actions_succeeded receipt = er_actions_attempted receipt.
Proof.
  intros Hrow Henv Hrule HW. unfold executor_port, execute_rule_by_id, execute. rewrite Hrow.
  pose proof (run_spec facade WI rule w1 Henv Hrule HW) as (path & _ & _ & _ & Hrun).
  split_if; [done|]. destruct (run facade rule w1) as [x o] eqn:Erun. cbn. intros H.
  split_if_in H; [done|]. split_if_in H; [done|]. destruct (rr_success (ex_result x)) eqn:Es; [|done]. cbn in H. injection H as _ <-. cbn [er_actions_succeeded er_actions_attempted].
  assert (all_succeeded (ex_result x)) as Hall.
  { destruct o as [[]|e|]; [by apply (ended_success _ _ _ _ _ Hrun)| |done].
    destruct Hrun as [Hi|(_ & _ & _ & Hf & _)]; [rewrite (inv_running _ _ _ _ _ Hi) in Es|]; congruence. }
  clear E0 E1. unfold all_succeeded, succeeded_count in *. do 2 f_equal. induction (rr_actions_executed (ex_result x)) as [|a l IH]; [done|].
  apply list.Forall_cons in Hall as [Ha Hl]. rewrite filter_cons, decide_True by done. cbn. by rewrite (IH Hl).
Qed.

(** ** Updates move times to the present *)

(** A time stays or becomes [now]. *)
Definition touched (now : Z) (o o' : option Z) : Prop := o' = o \/ o' = Some now.

Record grows (now : Z) (s s' : ScheduledRule) : Prop := {
  gr_rule : sr_rule s' = sr_rule s;
  gr_trigger : sr_trigger s' = sr_trigger s;
  gr_execution : touched now (sr_last_execution s) (sr_last_execution s');
  gr_cooldown : touched now (sr_last_cooldown_start s) (sr_last_cooldown_start s');
  gr_onchange : touched now (oc_last_trigger (sr_onchange_state s)) (oc_last_trigger (sr_onchange_state s'))
}.

Lemma touched_trans now a b c : touched now a b -> touched now b c -> touched now a c.
Proof. unfold touched. naive_solver. Qed.

Lemma grows_refl now s : grows now s s.
Proof. by split; [..|left|left|left]. Qed.

Lemma grows_trans now s1 s2 s3 : grows now s1 s2 -> grows now s2 s3 -> grows now s1 s3.
Proof. intros [? ? ? ? ?] [? ? ? ? ?]. split; try congruence; by eapply touched_trans. Qed.

Lemma update_rule_grows wake now snap o s : grows now s (update_rule wake now snap o s).
Proof.
  unfold update_rule. destruct (negb _); [apply grows_refl|]. split; cbn; try done; [by right| |].
  - destruct (start_cooldown o); [by right|by left].
  - destruct (sr_trigger s); [by left|]. destruct (advances wake o); [by right|by left].
Qed.

Lemma apply_updates_grows wake now snap outs rules i s :
  rules !! i = Some s -> exists s', apply_updates wake now snap outs rules !! i = Some s' /\ grows now s s'.
Proof.
  revert rules s. induction outs as [|o outs IH]; intros rules s Hi; cbn; [exists s; split; [done|apply grows_refl]|].
  destruct (decide (i = se_idx (out_selected o))) as [->|Hne].
  - destruct (IH (alter (update_rule wake now snap o) (se_idx (out_selected o)) rules) (update_rule wake now snap o s)) as (s' & H1 & H2).
    { by rewrite list_lookup_alter_eq, Hi. }
    exists s'. split; [done|]. eapply grows_trans; [apply update_rule_grows|done].
  - apply IH. by rewrite list_lookup_alter_ne.
Qed.

(** The entry an outcome is written to, whatever is written after it. *)
Lemma apply_updates_hit wake now snap outs rules o s :
  o ∈ outs -> rules !! se_idx (out_selected o) = Some s -> r_id (sr_rule s) = r_id (se_rule (out_selected o)) ->
  exists s0 s', apply_updates wake now snap outs rules !! se_idx (out_selected o) = Some s' /\
    grows now s s0 /\ grows now (update_rule wake now snap o s0) s'.
Proof.
  intros Hin. revert rules s. induction Hin as [o outs|o o' outs Hin IH]; intros rules s Hi Hid; cbn [apply_updates foldl].
  - destruct (apply_updates_grows wake now snap outs (alter (update_rule wake now snap o) (se_idx (out_selected o)) rules)
      (se_idx (out_selected o)) (update_rule wake now snap o s)) as (s' & H1 & H2); [by rewrite list_lookup_alter_eq, Hi|].
    exists s, s'. split_and!; [done|apply grows_refl|done].
  - destruct (decide (se_idx (out_selected o') = se_idx (out_selected o))) as [E|E].
    + destruct (IH (alter (update_rule wake now snap o') (se_idx (out_selected o')) rules) (update_rule wake now snap o' s)) as (s0 & s' & H1 & H2 & H3).
      { by rewrite E, list_lookup_alter_eq, Hi. }
      { rewrite (gr_rule _ _ _ (update_rule_grows wake now snap o' s)). done. }
      exists s0, s'. split_and!; [done| |done]. eapply grows_trans; [apply update_rule_grows|done].
    + apply IH; [by rewrite list_lookup_alter_ne|done].
Qed.

(** ** Spacing *)

(** The execution [x] is behind every time the entry [s] remembers. *)
Definition behind (t : Z) (o : option Z) : Prop := exists l, o = Some l /\ t <= l.
Definition seen (x : Execution) (s : ScheduledRule) : Prop :=
  sr_rule s = sr_rule (le_entry x) /\ sr_trigger s = sr_trigger (le_entry x) /\
  behind (le_now x) (sr_last_execution s) /\
  (is_onchange s = true -> out_result (le_outcome x) <> None -> behind (le_now x) (oc_last_trigger (sr_onchange_state s))) /\
  (start_cooldown (le_outcome x) = true -> behind (le_now x) (sr_last_cooldown_start s)).

(** The later execution [y] keeps its distance to [x]. *)
Definition spaced (x y : Execution) : Prop :=
  le_epoch x = le_epoch y -> le_idx x = le_idx y ->
  le_now x <= le_now y /\
  match sr_trigger (le_entry y) with
  | Interval interval_ms => interval_ms * 1000000 <= le_now y - le_now x
  | OnChange _ (Some td) _ => out_result (le_outcome x) <> None -> td * 1000000 <= le_now y - le_now x
  | OnChange _ None _ => True
  end /\
  (start_cooldown (le_outcome x) = true -> r_cooldown_ms (sr_rule (le_entry y)) * 1000000 <= le_now y - le_now x).

Definition selected_from (wake : Wake) (snap : gmap string (option Z)) (now : Z) (rules : list ScheduledRule) (se : Selected) : Prop :=
  exists s, rules !! se_idx se = Some s /\ se_rule se = sr_rule s /\ se_is_onchange se = is_onchange s /\ due wake snap now s = true.

Definition sinv {W} (s : RuleScheduler W) : Prop :=
  (forall x, x ∈ sc_log s -> (le_epoch x <= sc_epoch s)%nat /\ le_now x <= sc_clock s /\
     (exists wake snap, due wake snap (le_now x) (le_entry x) = true) /\
     (le_epoch x = sc_epoch s -> exists e, sc_rules s !! le_idx x = Some e /\ seen x e)) /\
  (forall i j x y, (i < j)%nat -> sc_log s !! i = Some x -> sc_log s !! j = Some y -> spaced x y) /\
  match sc_phase s with
  | Waiting => True
  | Sampled _ now _ => now = sc_clock s
  | Executing wake now snap sel e0 => now = sc_clock s /\ NoDup (se_idx <$> sel) /\ (e0 <= sc_epoch s)%nat /\
      (e0 = sc_epoch s -> Forall (selected_from wake snap now (sc_rules s)) sel)
  end.

Lemma behind_touched t now o o' : t <= now -> touched now o o' -> behind t o -> behind t o'.
Proof. intros Hle [-> | ->] H; [done|]. by exists now. Qed.

Lemma seen_grows x now s s' : le_now x <= now -> grows now s s' -> seen x s -> seen x s'.
Proof.
  intros Hle [G1 G2 G3 G4 G5] (H1 & H2 & H3 & H4 & H5). split_and!; [congruence|congruence|by eapply behind_touched| |].
  - intros Hi Ho. eapply behind_touched; [done|exact G5|]. apply H4; [|done]. unfold is_onchange in *. by rewrite <- G2.
  - intros Hc. eapply behind_touched; [done|exact G4|]. by apply H5.
Qed.

Lemma elapsed_spaced now last t k : t <= last -> k <= elapsed_ms now last -> 0 < k -> k * 1000000 <= now - t.
Proof.
  unfold elapsed_ms, wrap. intros Ht Hk Hpos. set (d := Z.max 0 (now - last)) in *.
  assert (k <= d / 1000000) as Hd.
  { etransitivity; [exact Hk|]. apply Z.mod_le; [apply Z.div_pos; lia|lia]. }
  assert (1000000 * (d / 1000000) <= d) by (apply Z.mul_div_le; lia). lia.
Qed.

(** A due entry keeps its distance to every execution it has seen. *)
Lemma due_spaced wake snap now s x y : seen x s -> due wake snap now s = true -> le_now x <= now ->
  le_entry y = s -> le_now y = now -> spaced x y.
Proof.
  intros (_ & _ & (l & Hl & Hll) & Hoc & Hcd) Hdue Hle Hy Hn _ _. unfold due in Hdue.
  apply andb_true_iff in Hdue as [Hdue Hcool]. apply andb_true_iff in Hdue as [_ Htrig]. rewrite Hy, Hn. split_and!; [done| |].
  - unfold trigger_due in Htrig. unfold is_onchange in Hoc. destruct (sr_trigger s) as [iv|refs td vd].
    + rewrite Hl in Htrig. apply Z.leb_le in Htrig. destruct (Z.le_gt_cases iv 0); [lia|]. by apply (elapsed_spaced now l).
    + destruct td as [td|]; [|done]. intros Ho. destruct (Hoc eq_refl Ho) as (l2 & Hl2 & Hll2).
      unfold should_trigger_onchange in Htrig. rewrite Hl2 in Htrig. destruct (Z.ltb_spec (elapsed_ms now l2) td); [done|].
      destruct (Z.le_gt_cases td 0); [lia|]. by apply (elapsed_spaced now l2).
  - intros Hc. destruct (Hcd Hc) as (l2 & Hl2 & Hll2). unfold cooldown_ok in Hcool. rewrite Hl2 in Hcool.
    destruct (Z.ltb_spec 0 (r_cooldown_ms (sr_rule s))); [|lia]. apply Z.leb_le in Hcool. by apply (elapsed_spaced now l2).
Qed.

Lemma select_in wake snap now rules se : se ∈ select wake snap now rules <->
  exists s, rules !! se_idx se = Some s /\ due wake snap now s = true /\ se = mkSelected (se_idx se) (sr_rule s) (is_onchange s).
Proof.
  unfold select. rewrite list_elem_of_omap. split.
  - intros ([i s] & Hin & Hd). apply elem_of_lookup_imap_1 in Hin as (j & s' & [= -> ->] & Hj).
    destruct (due wake snap now s') eqn:E; [|done]. injection Hd as <-. by exists s'.
  - intros (s & Hs & Hd & ->). exists (se_idx se, s). split; [|by rewrite Hd].
    apply elem_of_lookup_imap_2 with (f := fun i s => (i, s)) in Hs. done.
Qed.

Lemma select_NoDup wake snap now rules : NoDup (se_idx <$> select wake snap now rules).
Proof.
  unfold select. induction rules as [|s rules IH] using rev_ind; [constructor|].
  rewrite imap_app, omap_app, fmap_app. apply list.NoDup_app. split_and!; [exact IH| |].
  - intros i Hi Hi'. apply list_elem_of_fmap in Hi as (se & -> & Hse). fold (select wake snap now rules) in Hse.
    apply select_in in Hse as (s0 & Hs0 & _). apply lookup_lt_Some in Hs0.
    cbn in Hi'. rewrite Nat.add_0_r in Hi'. destruct (due wake snap now s); [|by apply not_elem_of_nil in Hi'].
    apply list_elem_of_singleton in Hi'. cbn in Hi'. lia.
  - cbn. destruct (due _ _ _ _); cbn; [apply NoDup_singleton|constructor].
Qed.

Lemma select_selected wake snap now rules : Forall (selected_from wake snap now rules) (select wake snap now rules).
Proof.
  apply list.Forall_forall. intros se (s & Hs & Hd & He)%select_in. exists s. by rewrite He.
Qed.

(** New entries of the log keep their distance to the old ones and, having
    different indices, to each other. *)
Lemma log_spaced (l new : list Execution) :
  (forall i j x y, (i < j)%nat -> l !! i = Some x -> l !! j = Some y -> spaced x y) ->
  (forall x y, x ∈ l -> y ∈ new -> spaced x y) -> NoDup (le_idx <$> new) ->
  forall i j x y, (i < j)%nat -> (l ++ new) !! i = Some x -> (l ++ new) !! j = Some y -> spaced x y.
Proof.
  intros Hold Hcross Hnd i j x y Hij Hi Hj. destruct (decide (j < length l)%nat) as [Hj'|Hj'].
  - rewrite lookup_app_l in Hi, Hj by lia. by apply (Hold i j).
  - rewrite lookup_app_r in Hj by lia. destruct (decide (i < length l)%nat) as [Hi'|Hi'].
    + rewrite lookup_app_l in Hi by lia. apply Hcross; by eapply list_elem_of_lookup_2.
    + rewrite lookup_app_r in Hi by lia. intros _ Heq.
      assert ((i - length l)%nat = (j - length l)%nat); [|lia].
      eapply NoDup_lookup; [exact Hnd| |]; rewrite list_lookup_fmap; [by rewrite Hi|]. by rewrite Hj, Heq.
Qed.

Lemma executions_in e now rules outs x : x ∈ executions e now rules outs <->
  exists o s, o ∈ outs /\ rules !! se_idx (out_selected o) = Some s /\ x = mkExecution e (se_idx (out_selected o)) s now o.
Proof.
  unfold executions. rewrite list_elem_of_omap. split.
  - intros (o & Ho & H). destruct (rules !! se_idx (out_selected o)) as [s|] eqn:E; [|done]. injection H as <-. by exists o, s.
  - intros (o & s & Ho & Hs & ->). exists o. by rewrite Hs.
Qed.

Lemma executions_NoDup e now rules outs : NoDup (se_idx <$> (out_selected <$> outs)) -> NoDup (le_idx <$> executions e now rules outs).
Proof.
  induction outs as [|o outs IH]; [constructor|]. cbn. intros Hnd. apply list.NoDup_cons in Hnd as [Hni Hnd].
  destruct (rules !! se_idx (out_selected o)) as [s|]; cbn; [|by apply IH]. apply list.NoDup_cons. split; [|by apply IH].
  intros Hin. apply list_elem_of_fmap in Hin as (x & Hx & (o' & s' & Ho' & _ & ->)%executions_in). cbn in Hx. apply Hni.
  rewrite Hx. apply list_elem_of_fmap_2, list_elem_of_fmap_2, Ho'.
Qed.

Lemma executed_seen wake t snap outs rules e o s :
  o ∈ outs -> selected_from wake snap t rules (out_selected o) -> rules !! se_idx (out_selected o) = Some s ->
  exists s', apply_updates wake t snap outs rules !! se_idx (out_selected o) = Some s' /\
    seen (mkExecution e (se_idx (out_selected o)) s t o) s'.
Proof.
  intros Ho (s1 & Hs1 & Hr & Hoc & _) Hs. assert (s = s1) as -> by congruence.
  destruct (apply_updates_hit wake t snap outs rules o s1 Ho Hs ltac:(by rewrite Hr)) as (s0 & s' & Hs' & [G1 G2 _ _ _] & [K1 K2 K3 K4 K5]).
  exists s'. split; [done|]. unfold update_rule in *. rewrite G1, Hr, Z.eqb_refl in K1, K2, K3, K4, K5. cbn in K1, K2, K3, K4, K5.
  assert (forall x, touched t (Some t) x -> behind t x) as Ht by (intros x [-> | ->]; by exists t).
  split_and!; cbn; [congruence|congruence|by apply Ht| |].
  - intros Hi Hres. assert (is_onchange s1 = true) as Hi1 by (unfold is_onchange in *; by rewrite <- G2, <- K2).
    assert (advances wake o = true) as Hadv by (destruct wake; cbn; [congruence|by destruct (out_result o)]).
    apply Ht. unfold is_onchange in Hi1. rewrite G2 in K5. destruct (sr_trigger s1); [done|]. by rewrite Hadv in K5.
  - intros Hc. apply Ht. by rewrite Hc in K4.
Qed.

Lemma sstep_inv {W} `{!RuleLiveState W} parse_trigger (s s' : RuleScheduler W) : sinv s -> sstep parse_trigger s s' -> sinv s'.
Proof.
  intros (Hlog & Hsp & Hph) Hstep. destruct Hstep as [w w' rules ph t e l|w rules db_rules ph t e l|w rules t e l wake now Hle
    |w rules t e l wake now snap|w rules t e l wake now snap sel e0 outs Hperm]; cbn in *.
  - by split_and!.
  - split_and!; cbn; [|done|].
    + intros x Hx. destruct (Hlog x Hx) as (H1 & H2 & Hd & _). split_and!; [lia|done|done|]. lia.
    + destruct ph as [|? ? ?|? ? ? ? e0]; try done. destruct Hph as (? & ? & ? & _). split_and!; [done|done|lia|lia].
  - destruct (fetch_point_snapshot (subscriptions wake rules) w) as [w' snap].
    split_and!; cbn; [|done|by destruct wake; [|destruct (subscriptions _ rules)]].
    intros x Hx. destruct (Hlog x Hx) as (H1 & H2 & Hd & H3). split_and!; [done|lia|done|done].
  - split_and!; cbn; [done|done|]. destruct (select wake snap now rules) as [|se sel] eqn:Es; [done|]. rewrite <- Es. split_and!; [done|apply select_NoDup|done|].
    intros _. apply select_selected.
  - destruct Hph as (-> & Hnd & He0 & Hsel).
    assert (forall x, x ∈ l -> (le_epoch x <= e)%nat /\ le_now x <= t /\ (exists wake snap, due wake snap (le_now x) (le_entry x) = true) /\
      (le_epoch x = e -> exists e1, apply_updates wake t snap outs rules !! le_idx x = Some e1 /\ seen x e1)) as Hold.
    { intros x Hx. destruct (Hlog x Hx) as (H1 & H2 & Hd & H3). split_and!; [done|done|done|]. intros He. destruct (H3 He) as (s & Hs & Hseen).
      destruct (apply_updates_grows wake t snap outs rules _ _ Hs) as (s' & Hs' & Hg). exists s'. split; [done|]. by eapply seen_grows. }
    destruct (Nat.eqb_spec e0 e) as [->|Hne]; [|rewrite app_nil_r; by split_and!]. specialize (Hsel eq_refl).
    assert (forall o, o ∈ outs -> selected_from wake snap t rules (out_selected o)) as Hfrom.
    { intros o Ho. rewrite list.Forall_forall in Hsel. apply Hsel. rewrite <- Hperm. by apply list_elem_of_fmap_2. }
    split_and!; cbn; [| |done].
    + intros x [Hx|Hx]%elem_of_app; [by apply Hold|]. apply executions_in in Hx as (o & s & Ho & Hs & ->). cbn.
      destruct (Hfrom o Ho) as (s1 & Hs1 & _ & _ & Hd). assert (s1 = s) as -> by congruence.
      split_and!; [done|done|by exists wake, snap|]. intros _. apply executed_seen; [done|by apply Hfrom|done].
    + apply log_spaced; [done| |].
      * intros x y Hx Hy Hep Hix. apply executions_in in Hy as (o & s & Ho & Hs & ->). cbn in Hep, Hix.
        destruct (Hlog x Hx) as (_ & H2 & _ & H3). destruct (H3 Hep) as (s0 & Hs0 & Hseen). rewrite Hix in Hs0.
        destruct (Hfrom o Ho) as (s1 & Hs1 & _ & _ & Hd). assert (s0 = s) as -> by congruence. assert (s1 = s) as -> by congruence.
        by apply (due_spaced wake snap t s).
      * apply executions_NoDup. by rewrite Hperm.
Qed.

Lemma reachable_sinv {W} `{!RuleLiveState W} parse_trigger (w : W) t s : rtc (sstep parse_trigger) (initial w t) s -> sinv s.
Proof.
  intros H. assert (sinv (initial w t)) as Hi.
  { split_and!; cbn; [by intros x ?%not_elem_of_nil|intros i j x y _ Hx; by rewrite lookup_nil in Hx|done]. }
  revert Hi. induction H as [s|s1 s2 s3 Hs _ IH]; intros Hi; [exact Hi|]. apply IH. by eapply sstep_inv.
Qed.

(** C20. Over every run of the scheduler, with ticks, hints, reloads and changes
    of the live state in any order, and the executions that finish on the rule
    list they were selected from: each was of an enabled rule whose trigger and
    cooldown were due at that instant for some sampled values, and two executions
    of one entry are apart by the interval of an interval rule, by the time
    deadband of an on-change rule whose earlier execution returned, and by the
    cooldown if the earlier one acted. *)
Theorem execution_spacing {W} `{!RuleLiveState W} parse_trigger (w : W) (t : Z) (s : RuleScheduler W) :
  rtc (sstep parse_trigger) (initial w t) s ->
  (forall x, x ∈ sc_log s -> exists wake snapshot, due wake snapshot (le_now x) (le_entry x) = true) /\
  forall i j x y, (i < j)%nat -> sc_log s !! i = Some x -> sc_log s !! j = Some y -> spaced x y.
Proof. intros (Hlog & Hsp & _)%reachable_sinv. split; [|exact Hsp]. intros x Hx. apply Hlog, Hx. Qed.

(** A rule with a cooldown of two seconds and an interval of one: it runs, acts,
    is held back a second later and runs again after two. *)
Definition paced_trigger (text : string) : option TriggerConfig := if String.eqb text "1s" then Some (Interval 1000) else None.
Definition paced_rule : Rule := mkRule 7 "pace" None true 0 2000 (Some "1s") (mkFlow "s" ∅).
Definition paced : ScheduledRule := mkScheduled paced_rule (Interval 1000) None None onchange_default.
Definition still_live : RuleLiveState unit := {|
  begin_execution _ := None; get_instance _ _ _ w := (w, None); get_instance_for_execution _ _ _ _ w := (w, None) |}.
Definition acted : Outcome :=
  mkOutcome (mkSelected 0 paced_rule false) (Some (mkResult 7 true [mkAction "instance" 1 "A" 1 0 true] None [] None ∅ ∅ ∅)).

Definition paced_log : list Execution :=
  [mkExecution 1 0 paced 0 acted;
   mkExecution 1 0 (mkScheduled paced_rule (Interval 1000) (Some 0) (Some 0) onchange_default) 2000000000 acted].

Lemma paced_run : exists s, rtc (@sstep unit still_live paced_trigger) (initial tt 0) s /\ sc_log s = paced_log.
Proof.
  eexists. split.
  - eapply rtc_l; [apply (ss_load _ _ _ [paced_rule])|].
    eapply rtc_l; [apply (ss_begin _ _ _ _ _ _ Tick 0); lia|]. eapply rtc_l; [apply ss_select|].
    eapply rtc_l; [apply (ss_finish _ _ _ _ _ _ _ _ _ _ _ [acted]); reflexivity|].
    eapply rtc_l; [apply (ss_begin _ _ _ _ _ _ Tick 1000000000); lia|]. eapply rtc_l; [apply ss_select|].
    eapply rtc_l; [apply (ss_begin _ _ _ _ _ _ Tick 2000000000); lia|]. eapply rtc_l; [apply ss_select|].
    eapply rtc_l; [apply (ss_finish _ _ _ _ _ _ _ _ _ _ _ [acted]); reflexivity|]. apply rtc_refl.
  - reflexivity.
Defined.

Lemma execution_spacing_witness : exists s : RuleScheduler unit, sc_log s = paced_log /\
  spaced (mkExecution 1 0 paced 0 acted)
    (mkExecution 1 0 (mkScheduled paced_rule (Interval 1000) (Some 0) (Some 0) onchange_default) 2000000000 acted).
Proof.
  destruct paced_run as (s & Hr & Hl). exists s. split; [exact Hl|].
  destruct (@execution_spacing unit still_live paced_trigger tt 0 s Hr) as [_ H].
  apply (H 0%nat 1%nat); [lia|by rewrite Hl|by rewrite Hl].
Defined.
