(* ===== verification/Topology.v ===== *)
(** * The automation topology handle

    [services/automation/src/infra/runtime_topology.rs]: one immutable generation
    of routes, point manifest and health plane is current at a time; commands
    pin it, a refresh replaces it, a routing mutation revokes and restores it.

    The methods are functions on the handle. An [Arc] is an index into the heap
    of generations, so [Arc::ptr_eq] is equality of indices. The two locks are
    explicit: the refresh gate is held by a refresh or a mutation lease
    ([th_gate]), the command gate is held for reading by the pinned views
    ([th_pins]) and for writing only inside steps without an [await]. Tasks
    interleave at their [await]s: [hstep] has one constructor per piece of code
    between two of them, and a dropped future is a step of its own. *)

From stdpp Require Import relations.
From S2P Require Import Prelude BTree Manifest.

Definition LogicalPointRoutes : Type := gmap (Z * Z) PhysicalPointAddress.

(** What the handle reads of [ShmReadTopologyGeneration]: its two manifests. *)
Record ReadView := mkReadView {
  rd_point_layout_hash : Z;
  rd_point_slot_count : nat;
  rd_health_layout_hash : Z;
  rd_health_slot_count : nat
}.

Record CandidateParts := mkParts {
  cp_point_layout_hash : Z;
  cp_point_slot_count : nat;
  cp_health_layout_hash : Z;
  cp_health_slot_count : nat;
  cp_measurement_routes : LogicalPointRoutes;
  cp_action_routes : LogicalPointRoutes;
  cp_digest : Z
}.

Record AutomationTopologyGeneration := mkGeneration {
  tg_read : ReadView;
  tg_measurement_routes : LogicalPointRoutes;
  tg_action_routes : LogicalPointRoutes;
  tg_digest : Z;
  tg_sequence : Z;
  tg_physical_validated : bool;
  tg_measurement_routes_revoked : bool;
  tg_action_routes_revoked : bool
}.

Definition compose (read : ReadView) (parts : CandidateParts) (physical_validated : bool) (sequence : Z) : AutomationTopologyGeneration :=
  mkGeneration read (cp_measurement_routes parts) (cp_action_routes parts) (cp_digest parts) sequence physical_validated false false.

Definition measurement_route (g : AutomationTopologyGeneration) (instance_id point_id : Z) : option PhysicalPointAddress :=
  tg_measurement_routes g !! (instance_id, point_id).
Definition action_route (g : AutomationTopologyGeneration) (instance_id point_id : Z) : option PhysicalPointAddress :=
  tg_action_routes g !! (instance_id, point_id).

Definition has_physical_layout (g : AutomationTopologyGeneration) (parts : CandidateParts) : bool :=
  (rd_point_layout_hash (tg_read g) =? cp_point_layout_hash parts) && (rd_point_slot_count (tg_read g) =? cp_point_slot_count parts)%nat &&
  (rd_health_layout_hash (tg_read g) =? cp_health_layout_hash parts) && (rd_health_slot_count (tg_read g) =? cp_health_slot_count parts)%nat.

(** The two kinds of routing mutation. *)
Inductive RouteKind := ActionRoutes | MeasurementRoutes.
#[global] Instance RouteKind_eq_dec : EqDecision RouteKind.
Proof. solve_decision. Defined.

(** Who holds the refresh gate, and where it waits. *)
Inductive Gate :=
| Free
| Loading (or_revoke : bool) (* refresh_locked before its snapshot *)
| Replacing (or_revoke : bool) (replacement : AutomationTopologyGeneration) (changed : bool) (* before command_gate.write() *)
| Failing (* refresh_or_revoke_commands before its revocation *)
| Revoking (kind : RouteKind) (previous_generation : nat) (* begin_*_routing_mutation before command_gate.write() *)
| Leased (kind : RouteKind) (restore_generation : option nat) (revoked_generation : nat).

Record AutomationTopologyHandle := mkHandle {
  th_heap : list AutomationTopologyGeneration;
  th_current : nat;
  th_change_sequence : Z;
  th_notified : Z;
  th_gate : Gate;
  th_pins : list nat
}.

Definition set_gate (g : Gate) (h : AutomationTopologyHandle) : AutomationTopologyHandle :=
  mkHandle (th_heap h) (th_current h) (th_change_sequence h) (th_notified h) g (th_pins h).
Definition set_pins (p : list nat) (h : AutomationTopologyHandle) : AutomationTopologyHandle :=
  mkHandle (th_heap h) (th_current h) (th_change_sequence h) (th_notified h) (th_gate h) p.

(** [new_lazy]: sequence 0, nothing validated. *)
Definition new_lazy (read : ReadView) (parts : CandidateParts) : AutomationTopologyHandle :=
  mkHandle [compose read parts false 0] 0 0 0 Free [].

Definition current_generation (h : AutomationTopologyHandle) : option AutomationTopologyGeneration := th_heap h !! th_current h.

(** [fetch_add(1).wrapping_add(1)]. *)
Definition next_sequence (h : AutomationTopologyHandle) : AutomationTopologyHandle * Z :=
  let sequence := wrap 64 (th_change_sequence h + 1) in
  (mkHandle (th_heap h) (th_current h) sequence (th_notified h) (th_gate h) (th_pins h), sequence).

Definition notify_change (sequence : Z) (h : AutomationTopologyHandle) : AutomationTopologyHandle :=
  mkHandle (th_heap h) (th_current h) (th_change_sequence h) sequence (th_gate h) (th_pins h).

(** [self.current.store(Arc::new(g))] and [store] of an [Arc] already made. *)
Definition store_new (g : AutomationTopologyGeneration) (h : AutomationTopologyHandle) : AutomationTopologyHandle :=
  mkHandle (th_heap h ++ [g]) (length (th_heap h)) (th_change_sequence h) (th_notified h) (th_gate h) (th_pins h).
Definition store_arc (p : nat) (h : AutomationTopologyHandle) : AutomationTopologyHandle :=
  mkHandle (th_heap h) p (th_change_sequence h) (th_notified h) (th_gate h) (th_pins h).

Definition is_revoked (k : RouteKind) (g : AutomationTopologyGeneration) : bool :=
  match k with ActionRoutes => tg_action_routes_revoked g | MeasurementRoutes => tg_measurement_routes_revoked g end.

Definition revoke (k : RouteKind) (sequence : Z) (g : AutomationTopologyGeneration) : AutomationTopologyGeneration :=
  match k with
  | ActionRoutes => mkGeneration (tg_read g) (tg_measurement_routes g) ∅ (tg_digest g) sequence (tg_physical_validated g)
                      (tg_measurement_routes_revoked g) true
  | MeasurementRoutes => mkGeneration (tg_read g) ∅ (tg_action_routes g) (tg_digest g) sequence (tg_physical_validated g)
                           true (tg_action_routes_revoked g)
  end.

(** [revoke_action_routes_locked] and [revoke_measurement_routes_locked]. *)
Definition revoke_locked (k : RouteKind) (h : AutomationTopologyHandle) : AutomationTopologyHandle * nat :=
  match current_generation h with
  | None => (h, th_current h)
  | Some current =>
      if is_revoked k current then (h, th_current h)
      else
        let (h, sequence) := next_sequence h in
        let h := store_new (revoke k sequence current) h in
        (notify_change sequence h, th_current h)
  end.

Definition restore_revoked_generation (previous revoked : nat) (h : AutomationTopologyHandle) : AutomationTopologyHandle :=
  if negb (th_current h =? revoked)%nat then h
  else
    let h := store_arc previous h in
    match current_generation h with Some g => notify_change (tg_sequence g) h | None => h end.

(** ** [refresh_locked], between its awaits *)

Inductive Plan :=
| KeepGeneration
| SwapLogical (physical_validated : bool)
| Reopen.

Definition logical_changed (current : AutomationTopologyGeneration) (parts : CandidateParts) : bool :=
  negb (tg_digest current =? cp_digest parts) || tg_measurement_routes_revoked current || tg_action_routes_revoked current.

(** [layouts_valid] is [validate_layouts().is_ok()], [writer_available] what the
    command sink answers. *)
Definition refresh_plan (current : AutomationTopologyGeneration) (parts : CandidateParts) (layouts_valid writer_available : bool) : Plan :=
  let physical_changed := negb (has_physical_layout current parts) in
  let physical_current := tg_physical_validated current && layouts_valid in
  if negb physical_changed && physical_current && writer_available then
    if negb (logical_changed current parts) then KeepGeneration else SwapLogical true
  else if negb physical_changed && logical_changed current parts && negb (tg_physical_validated current) then SwapLogical false
  else Reopen.

(** A view opened for the manifests of [parts]. *)
Definition open_view (parts : CandidateParts) : ReadView :=
  mkReadView (cp_point_layout_hash parts) (cp_point_slot_count parts) (cp_health_layout_hash parts) (cp_health_slot_count parts).

(** From the snapshot to the write lock: what will be stored, and the gate to
    leave if there is nothing to store. *)
Definition refresh_prepare (or_revoke : bool) (parts : CandidateParts) (layouts_valid writer_available : bool) (h : AutomationTopologyHandle)
  : AutomationTopologyHandle :=
  match current_generation h with
  | None => h
  | Some current =>
      match refresh_plan current parts layouts_valid writer_available with
      | KeepGeneration => set_gate Free h
      | SwapLogical validated =>
          let (h, sequence) := next_sequence h in
          set_gate (Replacing or_revoke (compose (tg_read current) parts validated sequence) true) h
      | Reopen =>
          let changed := logical_changed current parts || negb (has_physical_layout current parts) || negb (tg_physical_validated current) in
          if changed then
            let (h, sequence) := next_sequence h in
            set_gate (Replacing or_revoke (compose (open_view parts) parts true sequence) true) h
          else set_gate (Replacing or_revoke (compose (open_view parts) parts true (tg_sequence current)) false) h
      end
  end.

(** Under the write lock. *)
Definition refresh_publish (replacement : AutomationTopologyGeneration) (changed : bool) (h : AutomationTopologyHandle) : AutomationTopologyHandle :=
  let h := store_new replacement h in
  set_gate Free (if changed then notify_change (tg_sequence replacement) h else h).

(** A failed refresh revokes commands if it was asked to. *)
Definition refresh_failed (or_revoke : bool) (h : AutomationTopologyHandle) : AutomationTopologyHandle :=
  set_gate (if or_revoke then Failing else Free) h.

(** The lease of [begin_action_routing_mutation] and
    [begin_measurement_routing_mutation]. *)
Definition begin_mutation (k : RouteKind) (previous : nat) (h : AutomationTopologyHandle) : AutomationTopologyHandle :=
  let (h, revoked) := revoke_locked k h in
  set_gate (Leased k (if (previous =? revoked)%nat then None else Some previous) revoked) h.

(** ** Steps *)

Inductive hstep (snapshot : CandidateParts -> Prop) : AutomationTopologyHandle -> AutomationTopologyHandle -> Prop :=
| st_pin h : hstep snapshot h (set_pins (th_current h :: th_pins h) h)
| st_unpin h pins p pins' : th_pins h = pins ++ p :: pins' -> hstep snapshot h (set_pins (pins ++ pins') h)
| st_lock h or_revoke : th_gate h = Free -> hstep snapshot h (set_gate (Loading or_revoke) h)
| st_prepare h or_revoke parts layouts_valid writer_available :
    th_gate h = Loading or_revoke -> snapshot parts ->
    hstep snapshot h (refresh_prepare or_revoke parts layouts_valid writer_available h)
| st_publish h or_revoke replacement changed :
    th_gate h = Replacing or_revoke replacement changed -> th_pins h = [] -> hstep snapshot h (refresh_publish replacement changed h)
| st_load_failed h or_revoke : th_gate h = Loading or_revoke -> hstep snapshot h (refresh_failed or_revoke h)
| st_publish_failed h or_revoke replacement changed :
    th_gate h = Replacing or_revoke replacement changed -> hstep snapshot h (refresh_failed or_revoke h)
| st_fail_closed h : th_gate h = Failing -> th_pins h = [] -> hstep snapshot h (set_gate Free (revoke_locked ActionRoutes h).1)
| st_begin h k : th_gate h = Free -> hstep snapshot h (set_gate (Revoking k (th_current h)) h)
| st_revoke h k p : th_gate h = Revoking k p -> th_pins h = [] -> hstep snapshot h (begin_mutation k p h)
| st_commit_started h k r v : th_gate h = Leased k r v -> hstep snapshot h (set_gate (Leased k None v) h)
| st_restore h k p v : th_gate h = Leased k (Some p) v -> th_pins h = [] ->
    hstep snapshot h (set_gate Free (restore_revoked_generation p v h))
| st_lease_publish h k r v : th_gate h = Leased k r v -> hstep snapshot h (set_gate (Loading false) h)
| st_lease_done h k r v : th_gate h = Leased k r v -> hstep snapshot h (set_gate Free h)
| st_cancelled h : match th_gate h with Leased _ _ _ => False | _ => True end -> hstep snapshot h (set_gate Free h).

(** ** Invariant *)

(** What a command or a rule can tell apart: the routes. *)
Definition same_routes (g g' : AutomationTopologyGeneration) : Prop :=
  tg_measurement_routes g = tg_measurement_routes g' /\ tg_action_routes g = tg_action_routes g' /\ tg_digest g = tg_digest g' /\
  tg_measurement_routes_revoked g = tg_measurement_routes_revoked g' /\ tg_action_routes_revoked g = tg_action_routes_revoked g'.

Section Invariant.
Context (snapshot : CandidateParts -> Prop).
(* the digest of a snapshot identifies its routes *)
Context (Hdigest : forall p q, snapshot p -> snapshot q -> cp_digest p = cp_digest q ->
  cp_measurement_routes p = cp_measurement_routes q /\ cp_action_routes p = cp_action_routes q).

(** A revoked kind has no routes; a generation with nothing revoked carries the
    routes of a snapshot. *)
Definition generation_ok (g : AutomationTopologyGeneration) : Prop :=
  (tg_action_routes_revoked g = true -> tg_action_routes g = ∅) /\
  (tg_measurement_routes_revoked g = true -> tg_measurement_routes g = ∅) /\
  (tg_action_routes_revoked g = false -> tg_measurement_routes_revoked g = false -> exists p, snapshot p /\
     cp_digest p = tg_digest g /\ cp_measurement_routes p = tg_measurement_routes g /\ cp_action_routes p = tg_action_routes g).

Record heap_ok (heap : list AutomationTopologyGeneration) (c : Z) : Prop := {
  hp_sequence g : g ∈ heap -> 0 <= tg_sequence g <= c;
  hp_generation g : g ∈ heap -> generation_ok g;
  hp_same g g' : g ∈ heap -> g' ∈ heap -> tg_sequence g = tg_sequence g' -> same_routes g g'
}.

Definition gate_ok (h : AutomationTopologyHandle) : Prop :=
  match th_gate h with
  | Replacing _ r true => generation_ok r /\ 0 <= tg_sequence r <= th_change_sequence h /\ forall g, g ∈ th_heap h -> tg_sequence g < tg_sequence r
  | Replacing _ r false => generation_ok r /\ exists g, g ∈ th_heap h /\ tg_sequence g = tg_sequence r /\ same_routes g r
  | Revoking _ p => p = th_current h
  | Leased k r v => v = th_current h /\ (exists g, current_generation h = Some g /\ is_revoked k g = true) /\
      forall p, r = Some p -> exists g, th_heap h !! p = Some g /\ is_revoked k g = false
  | _ => True
  end.

Record handle_ok (n : nat) (h : AutomationTopologyHandle) : Prop := {
  hk_count : 0 <= th_change_sequence h <= Z.of_nat n;
  hk_current : is_Some (current_generation h);
  hk_pins : Forall (eq (th_current h)) (th_pins h);
  hk_heap : heap_ok (th_heap h) (th_change_sequence h);
  hk_gate : gate_ok h
}.

Lemma same_routes_sym g g' : same_routes g g' -> same_routes g' g.
Proof. unfold same_routes. naive_solver. Qed.
Lemma same_routes_trans g1 g2 g3 : same_routes g1 g2 -> same_routes g2 g3 -> same_routes g1 g3.
Proof. unfold same_routes. naive_solver congruence. Qed.

Lemma heap_ok_mono heap c c' : c <= c' -> heap_ok heap c -> heap_ok heap c'.
Proof. intros Hc [H1 H2 H3]. split; [|done|done]. intros g Hg. specialize (H1 g Hg). lia. Qed.

(** A generation with a sequence of its own, and one that repeats the routes of
    the generation whose sequence it keeps. *)
Lemma heap_ok_fresh heap c g : heap_ok heap c -> generation_ok g -> 0 <= tg_sequence g <= c ->
  (forall g', g' ∈ heap -> tg_sequence g' < tg_sequence g) -> heap_ok (heap ++ [g]) c.
Proof.
  intros [H1 H2 H3] Hg Hc Hlt. split.
  - intros g' [?|?%list_elem_of_singleton]%elem_of_app; subst; auto.
  - intros g' [?|?%list_elem_of_singleton]%elem_of_app; subst; auto.
  - intros a b [Ha|Ha%list_elem_of_singleton]%elem_of_app [Hb|Hb%list_elem_of_singleton]%elem_of_app Heq; subst; auto.
    + specialize (Hlt a Ha). lia.
    + specialize (Hlt b Hb). lia.
    + done.
Qed.

Lemma heap_ok_repeat heap c g g0 : heap_ok heap c -> generation_ok g -> g0 ∈ heap -> tg_sequence g0 = tg_sequence g -> same_routes g0 g ->
  heap_ok (heap ++ [g]) c.
Proof.
  intros [H1 H2 H3] Hg Hin Hseq Hsame. split.
  - intros g' [?|?%list_elem_of_singleton]%elem_of_app; subst; [auto|]. rewrite <- Hseq. auto.
  - intros g' [?|?%list_elem_of_singleton]%elem_of_app; subst; auto.
  - intros a b [Ha|Ha%list_elem_of_singleton]%elem_of_app [Hb|Hb%list_elem_of_singleton]%elem_of_app Heq; subst; auto.
    + eapply same_routes_trans; [|exact Hsame]. apply H3; [done|done|congruence].
    + apply same_routes_sym. eapply same_routes_trans; [|exact Hsame]. apply H3; [done|done|congruence].
    + done.
Qed.

Lemma compose_ok read p v s : snapshot p -> generation_ok (compose read p v s).
Proof. intros Hp. split_and!; [done|done|]. intros _ _. by exists p. Qed.

Lemma revoke_ok k s g : generation_ok g -> generation_ok (revoke k s g).
Proof. intros (H1 & H2 & H3). destruct k; split_and!; try done. Qed.

Lemma current_in h g : current_generation h = Some g -> g ∈ th_heap h.
Proof. apply list_elem_of_lookup_2. Qed.

(** The parts of the invariant other than the gate. *)
Definition base_ok (n : nat) (h : AutomationTopologyHandle) : Prop :=
  0 <= th_change_sequence h <= Z.of_nat n /\ is_Some (current_generation h) /\ Forall (eq (th_current h)) (th_pins h) /\
  heap_ok (th_heap h) (th_change_sequence h).

Lemma handle_ok_base n h : handle_ok n h <-> base_ok n h /\ gate_ok h.
Proof. split; [intros []; unfold base_ok; auto|intros [(?&?&?&?) ?]; by split]. Qed.

Lemma base_ok_mono n h : base_ok n h -> base_ok (S n) h.
Proof. intros (? & ?). split; [lia|done]. Qed.

Lemma base_ok_gate n g h : base_ok n h -> base_ok n (set_gate g h).
Proof. done. Qed.

Lemma base_ok_notify n s h : base_ok n h -> base_ok n (notify_change s h).
Proof. done. Qed.

(** A fresh sequence, and the store of a generation that carries it. *)
Lemma base_ok_next n h : base_ok n h -> Z.of_nat n < 2 ^ 64 - 1 ->
  base_ok (S n) (next_sequence h).1 /\ (next_sequence h).2 = th_change_sequence h + 1 /\ th_change_sequence (next_sequence h).1 = th_change_sequence h + 1.
Proof.
  intros (H1 & H2 & H3 & H4) Hn. assert (wrap 64 (th_change_sequence h + 1) = th_change_sequence h + 1) as Hw by (unfold wrap; apply Z.mod_small; lia).
  unfold next_sequence. rewrite Hw. split_and!; try done. split_and!; cbn; [lia|lia|done|done|]. eapply heap_ok_mono; [|done]. lia.
Qed.

Lemma base_ok_store n h g : base_ok n h -> th_pins h = [] -> heap_ok (th_heap h ++ [g]) (th_change_sequence h) -> base_ok n (store_new g h).
Proof.
  intros (H1 & H2 & H3 & H4) Hp Hh. split_and!; cbn; [lia|lia| |by rewrite Hp|done].
  unfold current_generation. cbn. rewrite lookup_app_r, Nat.sub_diag by lia. done.
Qed.

Lemma store_current g h : current_generation (store_new g h) = Some g.
Proof. unfold current_generation. cbn. by rewrite lookup_app_r, Nat.sub_diag by lia. Qed.

Lemma revoke_locked_spec n k h : base_ok n h -> th_pins h = [] -> Z.of_nat n < 2 ^ 64 - 1 ->
  exists g, current_generation h = Some g /\
  let h' := (revoke_locked k h).1 in
  base_ok (S n) h' /\ (revoke_locked k h).2 = th_current h' /\ th_pins h' = [] /\
  (exists g', current_generation h' = Some g' /\ is_revoked k g' = true) /\
  (is_revoked k g = true /\ th_current h' = th_current h \/
   is_revoked k g = false /\ th_current h' <> th_current h /\ th_heap h' !! th_current h = Some g).
Proof.
  intros Hb0 Hp Hn. pose proof Hb0 as (H1 & [g Hg] & H3 & H4). exists g. split; [done|].
  unfold revoke_locked. rewrite Hg. destruct (is_revoked k g) eqn:Er; cbv zeta.
  { split_and!; [by apply base_ok_mono|done|done|by exists g|by left]. }
  destruct (base_ok_next n h Hb0 Hn) as (Hb & Es & Ec).
  destruct (next_sequence h) as [h1 s] eqn:En. cbn [fst snd] in *. assert (th_heap h1 = th_heap h /\ th_pins h1 = [] /\ th_current h1 = th_current h) as (E1 & E2 & E3).
  { unfold next_sequence in En. injection En as <- <-. by rewrite Hp. }
  assert (base_ok (S n) (store_new (revoke k s g) h1)) as Hs.
  { apply base_ok_store; [done|done|]. destruct Hb as (_ & _ & _ & Hh). apply heap_ok_fresh; [done| | |].
    - apply revoke_ok. eapply hp_generation; [exact H4|by apply current_in].
    - destruct k; cbn; lia.
    - intros g' Hg'. rewrite E1 in Hg'. pose proof (hp_sequence _ _ H4 g' Hg'). destruct k; cbn; lia. }
  cbn [fst snd]. split_and!; [exact Hs|done|exact E2| |].
  - exists (revoke k s g). split; [apply store_current|by destruct k].
  - right. pose proof (lookup_lt_Some _ _ _ Hg). split_and!; [done|cbn; rewrite E1; lia|].
    cbn. rewrite E1, lookup_app_l by done. exact Hg.
Qed.

Lemma prepare_ok n h b parts lv wa : base_ok n h -> snapshot parts -> Z.of_nat n < 2 ^ 64 - 1 -> handle_ok (S n) (refresh_prepare b parts lv wa h).
Proof.
  intros Hb Hs Hn. pose proof Hb as (H1 & [g Hg] & H3 & H4). unfold refresh_prepare. rewrite Hg.
  assert (forall read v, handle_ok (S n) (let (h, sequence) := next_sequence h in set_gate (Replacing b (compose read parts v sequence) true) h)) as Hnew.
  { intros read v. destruct (base_ok_next n h Hb Hn) as (Hb' & Es & Ec). destruct (next_sequence h) as [h1 s] eqn:En. cbn [fst snd] in *.
    apply handle_ok_base. split; [done|]. split_and!; [by apply compose_ok|cbn; lia|cbn; lia|]. intros g' Hg'. cbn in Hg' |- *.
    assert (th_heap h1 = th_heap h) as E1 by (unfold next_sequence in En; by injection En as <- <-). rewrite E1 in Hg'.
    pose proof (hp_sequence _ _ H4 g' Hg'). lia. }
  destruct (refresh_plan g parts lv wa) as [|v|]; [apply handle_ok_base; split; [by apply base_ok_mono|done]|apply Hnew|].
  destruct (logical_changed g parts || _ || _) eqn:Ech; [apply Hnew|].
  apply handle_ok_base. split; [by apply base_ok_mono|]. split; [by apply compose_ok|]. exists g.
  split_and!; [by apply current_in|done|].
  apply orb_false_iff in Ech as [Ech _]. apply orb_false_iff in Ech as [Ech _]. unfold logical_changed in Ech.
  apply orb_false_iff in Ech as [Ech Ea]. apply orb_false_iff in Ech as [Ed Em]. apply negb_false_iff, Z.eqb_eq in Ed.
  destruct (hp_generation _ _ H4 g (current_in _ _ Hg)) as (_ & _ & Hp). destruct (Hp Ea Em) as (p & Hsp & E1 & E2 & E3).
  destruct (Hdigest p parts Hsp Hs ltac:(congruence)) as [F1 F2]. split_and!; cbn; congruence.
Qed.

Lemma hstep_ok n h h' : handle_ok n h -> Z.of_nat n < 2 ^ 64 - 1 -> hstep snapshot h h' -> handle_ok (S n) h'.
Proof.
  intros Hok Hn Hstep. pose proof (proj1 (handle_ok_base n h) Hok) as [Hb Hg]. apply base_ok_mono in Hb as Hb'.
  destruct Hstep as [h|h pins p pins' Hp|h b Hf|h b parts lv wa Hf Hs|h b r ch Hf Hp|h b Hf|h b r ch Hf|h Hf Hp|h k Hf|h k p Hf Hp|h k r v Hf|h k p v Hf Hp|h k r v Hf|h k r v Hf|h Hf];
    apply handle_ok_base; rewrite ?Hf in Hg; unfold gate_ok in Hg; rewrite ?Hf in Hg.
  - split; [|exact Hg]. destruct Hb' as (? & ? & Hpins & ?). split_and!; cbn; [lia|lia|done|by constructor|done].
  - split; [|exact Hg]. destruct Hb' as (? & ? & Hpins & ?). split_and!; cbn; [lia|lia|done| |done]. rewrite Hp in Hpins.
    apply Forall_app in Hpins as [? Hpins]. apply Forall_app. split; [done|]. by inversion Hpins.
  - by split.
  - apply handle_ok_base. by apply prepare_ok.
  - unfold refresh_publish. destruct ch.
    + destruct Hg as (Hr & Hc & Hlt). split; [|done]. apply base_ok_gate, base_ok_notify, base_ok_store; [done|done|].
      apply heap_ok_fresh; try done. apply Hb.
    + destruct Hg as (Hr & g & Hin & Hseq & Hsame). split; [|done]. apply base_ok_gate, base_ok_store; [done|done|].
      eapply heap_ok_repeat; try done. apply Hb.
  - split; [done|]. unfold refresh_failed. by destruct b.
  - split; [done|]. unfold refresh_failed. by destruct b.
  - destruct (revoke_locked_spec n ActionRoutes h Hb Hp Hn) as (g & _ & Hr & _). by split.
  - by split.
  - subst p. destruct (revoke_locked_spec n k h Hb Hp Hn) as (g & Hcur & Hr & Hv & Hp' & Hrev & Hcase). unfold begin_mutation.
    destruct (revoke_locked k h) as [h1 v]. cbn [fst snd] in *. subst v. split; [done|]. split_and!; [done|done|].
    intros p Hrp. destruct Hcase as [[_ Heq]|(Hg0 & Hne & Hold)]; destruct (Nat.eqb_spec (th_current h) (th_current h1)) as [E|E]; try congruence.
    injection Hrp as <-. by exists g.
  - split; [done|]. destruct Hg as (? & ? & _). by split_and!.
  - destruct Hg as (-> & _ & Hold). destruct (Hold p eq_refl) as (g & Hlook & _). unfold restore_revoked_generation.
    rewrite Nat.eqb_refl. cbn [negb]. assert (current_generation (store_arc p h) = Some g) as E by exact Hlook. rewrite E.
    split; [|done]. destruct Hb' as (? & ? & Hpins & ?). split_and!; cbn; [lia|lia|done|by rewrite Hp|done].
  - by split.
  - by split.
  - by split.
Qed.

Lemma new_lazy_ok read parts : snapshot parts -> handle_ok 0 (new_lazy read parts).
Proof.
  intros Hs. apply handle_ok_base. split; [|done]. split_and!; cbn; [lia|lia|done|done|]. split.
  - intros g ->%list_elem_of_singleton. cbn. lia.
  - intros g ->%list_elem_of_singleton. by apply compose_ok.
  - intros g g' ->%list_elem_of_singleton ->%list_elem_of_singleton. done.
Qed.

Lemma reachable_ok read parts n h : snapshot parts -> Z.of_nat n < 2 ^ 64 - 1 -> nsteps (hstep snapshot) n (new_lazy read parts) h -> handle_ok n h.
Proof.
  intros Hs. revert h. induction n as [|n IH]; intros h Hn Hsteps.
  - inversion Hsteps; subst. by apply new_lazy_ok.
  - apply nsteps_inv_r in Hsteps as (h1 & H1 & H2). eapply hstep_ok; [apply IH; [lia|done]|lia|done].
Qed.
End Invariant.

(** ** Claims *)

(** What a pinned view resolves for one kind of route. *)
Definition routes_of (k : RouteKind) (g : AutomationTopologyGeneration) : LogicalPointRoutes :=
  match k with ActionRoutes => tg_action_routes g | MeasurementRoutes => tg_measurement_routes g end.

(** C11. Through any interleaving of commands, refreshes, routing mutations,
    failures and dropped futures (fewer than [2^64] steps): a pinned view is the
    current generation until it is dropped, so no publication slips under a
    command; and a sequence identifies its routes: any two generations that were
    ever current under the same sequence resolve every point alike, also after a
    restoration and after a reopen that kept its sequence. *)
Theorem topology_fence_sound snapshot read parts n h :
  (forall p q, snapshot p -> snapshot q -> cp_digest p = cp_digest q ->
     cp_measurement_routes p = cp_measurement_routes q /\ cp_action_routes p = cp_action_routes q) ->
  snapshot parts -> Z.of_nat n < 2 ^ 64 - 1 -> nsteps (hstep snapshot) n (new_lazy read parts) h ->
  (forall p, p ∈ th_pins h -> th_heap h !! p = current_generation h) /\
  (forall i j g g', th_heap h !! i = Some g -> th_heap h !! j = Some g' -> tg_sequence g = tg_sequence g' ->
     forall k instance_id point_id, routes_of k g !! (instance_id, point_id) = routes_of k g' !! (instance_id, point_id)).
Proof.
  intros Hd Hs Hn Hsteps. destruct (reachable_ok snapshot Hd read parts n h Hs Hn Hsteps) as [_ _ Hp Hh _]. split.
  - intros p Hin. rewrite list.Forall_forall in Hp. by rewrite <- (Hp p Hin).
  - intros i j g g' Hi Hj Heq k a b. apply list_elem_of_lookup_2 in Hi, Hj.
    destruct (hp_same _ _ _ Hh g g' Hi Hj Heq) as (E1 & E2 & _). destruct k; cbn; by rewrite ?E1, ?E2.
Qed.

(** Steps while a lease is held. *)
Definition lease_step (snapshot : CandidateParts -> Prop) (h h' : AutomationTopologyHandle) : Prop :=
  hstep snapshot h h' /\ th_gate h' = th_gate h.

Definition held (h : AutomationTopologyHandle) (h' : AutomationTopologyHandle) : Prop :=
  th_gate h' = th_gate h /\ th_heap h' = th_heap h /\ th_current h' = th_current h /\ Forall (eq (th_current h')) (th_pins h').

Lemma lease_steps_held snapshot h h' k r v : th_gate h = Leased k r v -> Forall (eq (th_current h)) (th_pins h) ->
  rtc (lease_step snapshot) h h' -> held h h'.
Proof.
  intros Hg Hp Hs. induction Hs as [h|h h1 h2 [H1 Hsame] _ IH]; [by split_and!|]. rewrite Hg in Hsame.
  assert (held h h1) as (E1 & E2 & E3 & E4).
  { destruct H1 as [h|h pins p pins' Hpp| | | | | | | | | | | | |]; try congruence; try done; try (by rewrite Hg in *).
    - split_and!; cbn; [done|done|done|by constructor].
    - split_and!; cbn; [done|done|done|]. rewrite Hpp in Hp. apply Forall_app in Hp as [? Hp]. apply Forall_app. split; [done|]. by inversion Hp.
    - split_and!; cbn; [cbn in Hsame; congruence|done|done|done]. }
  destruct (IH ltac:(congruence) E4) as (F1 & F2 & F3 & F4). split_and!; congruence.
Qed.

(** A routing mutation fails closed. Once it has revoked a kind of route, and
    for as long as it holds its lease, whatever commands are pinned or dropped
    meanwhile, no view resolves any point of that kind; and if the mutation is
    abandoned before its commit, the restored generation is the very one it
    replaced, under its old sequence. *)
Lemma routing_mutation_fails_closed snapshot read parts n h k p g :
  (forall p q, snapshot p -> snapshot q -> cp_digest p = cp_digest q ->
     cp_measurement_routes p = cp_measurement_routes q /\ cp_action_routes p = cp_action_routes q) ->
  snapshot parts -> Z.of_nat n < 2 ^ 64 - 2 -> nsteps (hstep snapshot) n (new_lazy read parts) h ->
  th_gate h = Revoking k p -> th_pins h = [] -> current_generation h = Some g -> is_revoked k g = false ->
  let h1 := begin_mutation k p h in
  forall h2, rtc (lease_step snapshot) h1 h2 ->
  (forall q gq, q ∈ th_pins h2 \/ q = th_current h2 -> th_heap h2 !! q = Some gq -> routes_of k gq = ∅) /\
  exists v, th_gate h2 = Leased k (Some p) v /\ current_generation (restore_revoked_generation p v h2) = Some g.
Proof.
  intros Hd Hs Hn Hsteps Hgate Hpins Hcur Hrev h1 h2 Hlease.
  pose proof (reachable_ok snapshot Hd read parts n h Hs ltac:(lia) Hsteps) as Hok.
  pose proof (proj1 (handle_ok_base _ n h) Hok) as [Hb Hg]. unfold gate_ok in Hg. rewrite Hgate in Hg. subst p.
  destruct (revoke_locked_spec snapshot n k h Hb Hpins ltac:(lia)) as (g0 & E0 & Hb1 & Hv & Hp1 & (g1 & Hg1 & Hr1) & Hcase).
  assert (g0 = g) as -> by congruence. destruct Hcase as [[? _]|(_ & Hne & Hold)]; [congruence|].
  subst h1. unfold begin_mutation in Hlease. destruct (revoke_locked k h) as [h1 v]. cbn [fst snd] in *. subst v.
  destruct (Nat.eqb_spec (th_current h) (th_current h1)) as [|_]; [congruence|].
  pose proof (lease_steps_held _ (set_gate (Leased k (Some (th_current h)) (th_current h1)) h1) h2 _ _ _ eq_refl
    ltac:(cbn; by rewrite Hp1) Hlease) as (E1 & E2 & E3 & E4). cbn in E1, E2, E3.
  split.
  - intros q gq Hq Hgq. assert (q = th_current h2) as -> by (destruct Hq as [Hq|]; [|done]; rewrite list.Forall_forall in E4; by rewrite (E4 q Hq)).
    rewrite E2, E3 in Hgq. unfold current_generation in Hg1. assert (gq = g1) as -> by congruence.
    destruct Hb1 as (_ & _ & _ & Hh). destruct (hp_generation _ _ _ Hh g1 ltac:(by eapply list_elem_of_lookup_2)) as (F1 & F2 & _).
    destruct k; cbn in *; auto.
  - exists (th_current h1). split; [done|]. unfold restore_revoked_generation. rewrite E3, Nat.eqb_refl. cbn [negb].
    assert (current_generation (store_arc (th_current h) h2) = Some g) as -> by (unfold current_generation; cbn; by rewrite E2).
    unfold current_generation. cbn. by rewrite E2.
Qed.

(** *** Witnesses *)

Definition sample_target : PhysicalPointAddress := mkPhysical 7 Action 3.
Definition sample_parts : CandidateParts := mkParts 11 8 12 1 ∅ {[(1, 5) := sample_target]} 99.
Definition sample_snapshot (p : CandidateParts) : Prop := p = sample_parts.
Definition sample_view : ReadView := open_view sample_parts.
(* a mutation waits for the command gate *)
Definition sample_waiting : AutomationTopologyHandle := set_gate (Revoking ActionRoutes 0) (new_lazy sample_view sample_parts).

Lemma sample_digest p q : sample_snapshot p -> sample_snapshot q -> cp_digest p = cp_digest q ->
  cp_measurement_routes p = cp_measurement_routes q /\ cp_action_routes p = cp_action_routes q.
Proof. by intros -> ->. Qed.

Lemma sample_reached : nsteps (hstep sample_snapshot) 1 (new_lazy sample_view sample_parts) sample_waiting.
Proof. eapply nsteps_l; [by apply (st_begin _ (new_lazy sample_view sample_parts) ActionRoutes)|apply nsteps_O]. Qed.

Lemma topology_fence_sound_witness :
  exists h, nsteps (hstep sample_snapshot) 3 (new_lazy sample_view sample_parts) h /\ th_pins h = [1%nat] /\ length (th_heap h) = 2%nat /\
  forall p, p ∈ th_pins h -> th_heap h !! p = current_generation h.
Proof.
  set (h2 := begin_mutation ActionRoutes 0 sample_waiting). set (h3 := set_pins (th_current h2 :: th_pins h2) h2).
  assert (nsteps (hstep sample_snapshot) 3 (new_lazy sample_view sample_parts) h3) as Hsteps.
  { eapply nsteps_r; [eapply nsteps_r; [apply sample_reached|by apply st_revoke]|apply st_pin]. }
  exists h3. split_and!; [exact Hsteps|reflexivity|reflexivity|].
  apply (topology_fence_sound sample_snapshot sample_view sample_parts 3 h3 sample_digest eq_refl); [lia|exact Hsteps].
Defined.
