(* ===== verification/Cleanup.v ===== *)
(** * Startup cleanup of orphaned staging files

    [cleanup_orphan_generation_files] of
    [crates/aether-dataplane/src/core/config.rs], over the file system of
    [Publish]. A directory's entries are the names that start with it; a
    missing directory has none. *)

From S2P Require Import Prelude Slot Bitmap Segment Snapshot Text BTree Manifest Publish.

Definition starts_with (prefix l : list ascii) : bool := bool_decide (take (length prefix) l = prefix).
Definition ends_with (suffix l : list ascii) : bool :=
  (length suffix <=? length l)%nat && bool_decide (drop (length l - length suffix) l = suffix).

(** The test of one directory entry [name]. *)
Definition matches_generation (canonical_name name : list ascii) : bool :=
  let '(stem, suffix) := stem_suffix canonical_name in
  let prefix := stem ++ ["-"%char] in
  starts_with prefix name && ends_with suffix name &&
  (length prefix + length suffix <? length name)%nat &&
  let middle := take (length name - length suffix - length prefix) (drop (length prefix) name) in
  negb (length middle =? 0)%nat && forallb is_ascii_digit middle.

Definition is_orphan (canonical path : string) : bool :=
  let '(dir, canonical_name) := split_dir canonical in
  let '(dir', name) := split_dir path in
  bool_decide (dir' = dir) && matches_generation canonical_name name.

(** The loop over the entries; a failed unlink is skipped. *)
Fixpoint remove_orphans (canonical : string) (entries : list string) (removed : nat) : FsM nat :=
  match entries with
  | [] => st_ret removed
  | path :: rest =>
      if is_orphan canonical path then fun f =>
        match remove_file path f with
        | (f', Ok _) => remove_orphans canonical rest (S removed) f'
        | (f', _) => remove_orphans canonical rest removed f'
        end
      else remove_orphans canonical rest removed
  end.

Definition cleanup_orphan_generation_files (canonical : string) : FsM nat :=
  if (length (split_dir canonical).1 =? 0)%nat then st_ret 0%nat
  else
    let! _ := syscall in (* read_dir *)
    let! f := st_get in
    remove_orphans canonical (map_to_list (fs_names f)).*1 0.

Example cleanup_sample :
  let fs := mkFs (list_to_map [("/shm/a.shm", 0); ("/shm/a-1.shm", 1); ("/shm/a-42.shm", 2);
                               ("/shm/a-alpha.shm", 3); ("/tmp/a-7.shm", 4)]%nat%string) ∅ 5 [] [] in
  let r := cleanup_orphan_generation_files "/shm/a.shm" fs in
  (size (fs_names r.1), r.2, fs_names r.1 !! "/shm/a.shm"%string) = (3%nat, Ok 2%nat, Some 0%nat).
Proof. vm_compute. reflexivity. Qed.

(** ** Splitting paths *)

Lemma rsplit_once_intro c a b : c ∉ b -> rsplit_once c (a ++ c :: b) = Some (a, b).
Proof.
  intros Hb. assert (rsplit_once c b = None) as Hn.
  { clear a. induction b as [|x b IH]; [done|]. apply not_elem_of_cons in Hb as [Hne Hb]. simpl. rewrite IH by done.
    destruct (Ascii.eqb_spec x c); [congruence|done]. }
  induction a as [|x a IH]; simpl; [by rewrite Hn, Ascii.eqb_refl|]. by rewrite IH.
Qed.

Lemma rsplit_once_last c l a b : rsplit_once c l = Some (a, b) -> c ∉ b.
Proof.
  revert a b. induction l as [|x l IH]; intros a b; simpl; [done|].
  destruct (rsplit_once c l) as [[a' b']|] eqn:E; [intros [= <- <-]; by eapply IH|].
  destruct (Ascii.eqb_spec x c); intros; simplify_eq. clear IH.
  induction b as [|y b IH]; [set_solver|]. simpl in E. destruct (rsplit_once c b) as [[]|] eqn:E'; [done|].
  destruct (Ascii.eqb_spec y c); [done|]. apply not_elem_of_cons. split; [congruence|]. by apply IH.
Qed.

Lemma split_dir_name p : "/"%char ∉ (split_dir p).2.
Proof.
  unfold split_dir. destruct (rsplit_once "/" (str_bytes p)) as [[a b]|] eqn:E; [by eapply rsplit_once_last|].
  simpl. induction (str_bytes p) as [|x l IH]; [set_solver|]. simpl in E.
  destruct (rsplit_once "/" l) as [[]|]; [done|]. destruct (Ascii.eqb_spec x "/"); [done|].
  apply not_elem_of_cons. split; [congruence|by apply IH].
Qed.

(** Replacing the file name of a path. *)
Lemma split_dir_replace p name q :
  "/"%char ∉ name -> str_bytes q = (split_dir p).1 ++ name -> split_dir q = ((split_dir p).1, name).
Proof.
  intros Hn Hq. unfold split_dir at 1. rewrite Hq. unfold split_dir.
  destruct (rsplit_once "/" (str_bytes p)) as [[a b]|]; simpl.
  - rewrite <- app_assoc. simpl. by rewrite rsplit_once_intro.
  - assert (rsplit_once "/" name = None) as ->; [|done].
    clear Hq. induction name as [|x l IH]; [done|]. apply not_elem_of_cons in Hn as [Hne Hn]. simpl.
    rewrite IH by done. destruct (Ascii.eqb_spec x "/"); [congruence|done].
Qed.

(** ** What matches *)

Lemma stem_suffix_dot name : let '(_, suffix) := stem_suffix name in suffix = [] \/ exists ext, suffix = "."%char :: ext.
Proof. unfold stem_suffix. destruct (rsplit_once "." name) as [[[|x a] b]|]; eauto. Qed.

Lemma canonical_not_matched name : matches_generation name name = false.
Proof.
  unfold matches_generation. pose proof (stem_suffix_app name) as Ha. pose proof (stem_suffix_dot name) as Hd.
  destruct (stem_suffix name) as [stem suffix]. cbn [fst snd] in Ha.
  assert (starts_with (stem ++ ["-"%char]) name = false) as ->; [|done].
  unfold starts_with. apply bool_decide_eq_false. rewrite <- Ha, length_app.
  rewrite take_app_ge by (simpl; lia). intros He%app_inv_head.
  replace (length stem + length ["-"%char] - length stem)%nat with 1%nat in He by (simpl; lia).
  destruct Hd as [->|[ext ->]]; done.
Qed.

Lemma generated_matched name digits :
  digits <> [] -> forallb is_ascii_digit digits = true ->
  matches_generation name ((stem_suffix name).1 ++ ["-"%char] ++ digits ++ (stem_suffix name).2) = true.
Proof.
  intros Hne Hd. unfold matches_generation. destruct (stem_suffix name) as [stem suffix]. cbn [fst snd].
  rewrite app_assoc. set (prefix := stem ++ ["-"%char]).
  assert (0 < length digits)%nat by (destruct digits; simpl; [done|lia]).
  rewrite !length_app.
  unfold starts_with, ends_with. rewrite take_app_length, !length_app.
  replace (drop (length prefix + (length digits + length suffix) - length suffix) (prefix ++ digits ++ suffix)) with suffix.
  2: { rewrite app_assoc. replace (length prefix + (length digits + length suffix) - length suffix)%nat
         with (length (prefix ++ digits)) by (rewrite length_app; lia). by rewrite drop_app_length. }
  rewrite drop_app_length.
  replace (length prefix + (length digits + length suffix) - length suffix - length prefix)%nat with (length digits) by lia.
  rewrite take_app_length, !bool_decide_eq_true_2, Hd by done.
  replace (length suffix <=? _)%nat with true by (symmetry; apply Nat.leb_le; lia).
  replace (_ <? _)%nat with true by (symmetry; apply Nat.ltb_lt; lia).
  by replace (length digits =? 0)%nat with false by (symmetry; apply Nat.eqb_neq; lia).
Qed.

Lemma dec_digits_digits fuel n :
  0 <= n -> forallb is_ascii_digit (dec_digits fuel n) = true.
Proof.
  revert n. induction fuel as [|fuel IH]; intros n Hn; [done|]. cbn [dec_digits].
  destruct (Z.ltb_spec n 10); simpl.
  - by destruct (digit_char_spec n ltac:(lia)) as (-> & _).
  - rewrite forallb_app, IH by (apply Z.div_pos; lia). simpl.
    by destruct (digit_char_spec (n mod 10) ltac:(apply Z.mod_pos_bound; lia)) as (-> & _).
Qed.

Lemma digits_no_slash l : forallb is_ascii_digit l = true -> "/"%char ∉ l.
Proof.
  induction l as [|x l IH]; [set_solver|]. simpl. intros [Hx Hl]%andb_true_iff.
  apply not_elem_of_cons. split; [intros <-; by vm_compute in Hx|auto].
Qed.

(** Every staging name is an orphan, the canonical name never is. *)
Lemma staging_is_orphan canonical g : 0 <= g -> is_orphan canonical (generation_file_path canonical g) = true.
Proof.
  intros Hg. unfold is_orphan.
  set (name := (stem_suffix (split_dir canonical).2).1 ++ ["-"%char] ++ str_bytes (u64_to_string g) ++ (stem_suffix (split_dir canonical).2).2).
  assert (str_bytes (u64_to_string g) = dec_digits 20 g) as Hd by apply String.list_ascii_of_string_of_list_ascii.
  pose proof (dec_digits_digits 20 g Hg) as Hdig.
  assert ("/"%char ∉ name) as Hns.
  { pose proof (split_dir_name canonical) as Hn. rewrite <- (stem_suffix_app (split_dir canonical).2) in Hn.
    apply digits_no_slash in Hdig. unfold name. rewrite Hd, !not_elem_of_app in *. destruct Hn as [H1 H2].
    split_and!; [done| |done|done]. by intros ?%list_elem_of_singleton. }
  rewrite (split_dir_replace canonical name (generation_file_path canonical g) Hns (generation_file_path_bytes canonical g)).
  destruct (split_dir canonical) as [dir cname]. cbn [fst snd] in *. rewrite bool_decide_eq_true_2 by done. simpl.
  unfold name. rewrite Hd. apply generated_matched; [|done].
  destruct (dec_digits_head 20 g) as (c & l & -> & _); [lia|done|done].
Qed.

Lemma canonical_not_orphan canonical : is_orphan canonical canonical = false.
Proof.
  unfold is_orphan. destruct (split_dir canonical) as [dir name]. rewrite canonical_not_matched. apply andb_false_r.
Qed.

Lemma remove_orphans_spec canonical entries removed f :
  fs_faults f = [] -> NoDup entries -> (forall p, p ∈ entries -> is_Some (fs_names f !! p)) ->
  exists f', remove_orphans canonical entries removed f =
      (f', Ok (removed + length (filter (fun p => is_orphan canonical p = true) entries))%nat) /\
    fs_inodes f' = fs_inodes f /\
    forall p, fs_names f' !! p =
      if decide (p ∈ entries) then (if is_orphan canonical p then None else fs_names f !! p) else fs_names f !! p.
Proof.
  revert removed f. induction entries as [|q entries IH]; intros removed f Hf Hn Hin; cbn [remove_orphans].
  { exists f. rewrite Nat.add_0_r. split_and!; [done|done|]. intros p. case_decide; [set_solver|done]. }
  apply list.NoDup_cons in Hn as [Hni Hn]. destruct (is_orphan canonical q) eqn:Eo.
  - destruct (Hin q ltac:(left)) as [id Hid].
    assert (remove_file q f = (set_names (delete q (fs_names f)) f, Ok tt)) as ->.
    { unfold remove_file, st_bind, syscall. by rewrite Hf, Hid. }
    destruct (IH (S removed) (set_names (delete q (fs_names f)) f)) as (f' & -> & Hi & Hnm); [done|done| |].
    { intros p Hp. simpl. rewrite lookup_delete_ne by (intros ->; done). apply Hin. by right. }
    exists f'. rewrite filter_cons_True by done. split_and!; [f_equal; f_equal; simpl; lia|done|].
    intros p. rewrite Hnm. simpl. destruct (decide (p = q)) as [->|Hne].
    + rewrite !decide_False by done. rewrite decide_True by set_solver. rewrite Eo. apply lookup_delete_eq.
    + rewrite lookup_delete_ne by done. do 2 case_decide; set_solver.
  - destruct (IH removed f) as (f' & -> & Hi & Hnm); [done|done|intros p Hp; apply Hin; by right|].
    exists f'. rewrite filter_cons_False by congruence. split_and!; [done|done|].
    intros p. rewrite Hnm. destruct (decide (p = q)) as [->|Hne]; [by rewrite Eo; do 2 case_decide|].
    do 2 case_decide; set_solver.
Qed.

(** With no failing system call and a canonical path inside a directory, startup
    cleanup removes exactly the names its pattern matches, every name
    [generation_file_path] can produce among them (the pattern is wider: it also
    takes leading zeros), never the canonical segment; the contents of mapped
    files stay. *)
Lemma cleanup_exact canonical f :
  fs_faults f = [] -> (split_dir canonical).1 <> [] ->
  exists f' k, cleanup_orphan_generation_files canonical f = (f', Ok k) /\ fs_inodes f' = fs_inodes f /\
    (forall p, fs_names f' !! p = if is_orphan canonical p then None else fs_names f !! p) /\
    fs_names f' !! canonical = fs_names f !! canonical /\
    (forall g, fits 64 g -> fs_names f' !! generation_file_path canonical g = None).
Proof.
  intros Hf Hd. unfold cleanup_orphan_generation_files.
  destruct (Nat.eqb_spec (length (split_dir canonical).1) 0) as [H0|_]; [by apply length_zero_iff_nil in H0|].
  assert (syscall f = (f, Ok tt)) as Hs by (unfold syscall; by rewrite Hf).
  unfold st_bind, st_get. rewrite Hs.
  destruct (remove_orphans_spec canonical (map_to_list (fs_names f)).*1 0 f Hf) as (f' & -> & Hi & Hn).
  { apply NoDup_fst_map_to_list. }
  { intros p ([q id] & -> & Hin%elem_of_map_to_list)%list_elem_of_fmap. by exists id. }
  assert (forall p, fs_names f' !! p = if is_orphan canonical p then None else fs_names f !! p) as Hall.
  { intros p. rewrite Hn. case_decide as Hp; [done|]. destruct (fs_names f !! p) as [id|] eqn:Ep; [|by destruct (is_orphan _ _)].
    exfalso. apply Hp, list_elem_of_fmap. exists (p, id). split; [done|]. by apply elem_of_map_to_list. }
  eexists f', _. split_and!; [done|done|done|by rewrite Hall, canonical_not_orphan|].
  intros g Hg. rewrite Hall, staging_is_orphan; [done|]. unfold fits in Hg. lia.
Qed.
