(* ===== verification/Spool.v ===== *)
(** * The durable CloudLink stream

    [extensions/store-local/src/cloudlink_spool.rs] and the record types of
    [crates/aether-ports/src/cloudlink.rs]: a bounded window of sealed business
    facts, numbered consecutively within a stream epoch, that leaves memory
    only through a validated durable receipt or through a capacity eviction
    that leaves loss evidence. Error messages are dropped, error reasons kept. *)

From S2P Require Import Prelude Text BTree.

(** ** Identifiers *)

Definition valid_identifier (value : string) (maximum : nat) : bool :=
  negb (String.length value =? 0)%nat && (String.length value <=? maximum)%nat &&
  forallb transport_safe (str_bytes value).

(** [sha256:] followed by 64 lower-case hexadecimal digits. *)
Definition valid_digest (digest : string) : bool :=
  (String.length digest =? 71)%nat && String.prefix "sha256:" digest &&
  forallb (fun c => is_ascii_hexdigit c && negb (is_ascii_uppercase c)) (drop 7 (str_bytes digest)).

(** ** Data *)

Inductive CloudLinkMessageKind :=
| RuntimeManifestReport | TelemetryBatch | IntegrationTopologySnapshot
| IntegrationObservationBatch | DataLoss.

Record CloudLinkRecordIdentity := mkIdentity {
  id_stream_id : string; id_stream_epoch : Z; id_position : Z
}.

Inductive CloudLinkDeliveryState := Queued | Offered | TransportPublished.

Record CloudLinkSessionBinding := mkSession { session_id : string; session_epoch : Z }.

Record CloudLinkEnqueue := mkEnqueue {
  in_message_kind : CloudLinkMessageKind;
  in_batch_id : string;
  in_digest : string;
  in_payload : list Z;
  in_created_at : Z;
  in_expires_at : option Z
}.

Record CloudLinkRecord := mkRecord {
  identity : CloudLinkRecordIdentity;
  message_kind : CloudLinkMessageKind;
  batch_id : string;
  digest : string;
  payload : list Z;
  created_at : Z;
  expires_at : option Z;
  delivery_state : CloudLinkDeliveryState;
  offered_session : option CloudLinkSessionBinding
}.

Definition from_enqueue (ident : CloudLinkRecordIdentity) (input : CloudLinkEnqueue) : CloudLinkRecord :=
  mkRecord ident (in_message_kind input) (in_batch_id input) (in_digest input) (in_payload input)
    (in_created_at input) (in_expires_at input) Queued None.

Definition with_delivery (st : CloudLinkDeliveryState) (session : CloudLinkSessionBinding)
    (r : CloudLinkRecord) : CloudLinkRecord :=
  mkRecord (identity r) (message_kind r) (batch_id r) (digest r) (payload r) (created_at r)
    (expires_at r) st (Some session).
Definition set_offered : CloudLinkSessionBinding -> CloudLinkRecord -> CloudLinkRecord :=
  with_delivery Offered.
Definition set_transport_published : CloudLinkSessionBinding -> CloudLinkRecord -> CloudLinkRecord :=
  with_delivery TransportPublished.

Record CloudLinkDurableAck := mkAck {
  ack_session : CloudLinkSessionBinding;
  ack_stream_id : string;
  ack_stream_epoch : Z;
  acknowledged_position : Z;
  ack_batch_id : string;
  ack_digest : string;
  receipt_id : string
}.

Inductive DurableAckOutcome := Applied (removed : nat) | Duplicate.

Record CloudLinkDataLossEvidence := mkLoss {
  loss_stream_id : string;
  loss_stream_epoch : Z;
  first_lost_position : Z;
  last_lost_position : Z;
  earliest_retained_position : Z;
  loss_reason : string;
  recorded_at : Z
}.

Definition extend_overflow (last_lost earliest_retained : Z) (e : CloudLinkDataLossEvidence)
  : CloudLinkDataLossEvidence :=
  mkLoss (loss_stream_id e) (loss_stream_epoch e) (first_lost_position e) last_lost
    earliest_retained (loss_reason e) (recorded_at e).

Record CloudLinkReplayWindow := mkWindow {
  window_records : list CloudLinkRecord;
  window_data_loss : option CloudLinkDataLossEvidence
}.

Inductive CloudLinkSpoolErrorReason :=
| InvalidData | StaleSession | WrongStream | ConflictingIdentity | PositionGap
| PendingRecords | CorruptJournal | Storage.

#[export] Instance CloudLinkMessageKind_eq_dec : EqDecision CloudLinkMessageKind.
Proof. solve_decision. Defined.
#[export] Instance CloudLinkRecordIdentity_eq_dec : EqDecision CloudLinkRecordIdentity.
Proof. solve_decision. Defined.
#[export] Instance CloudLinkDeliveryState_eq_dec : EqDecision CloudLinkDeliveryState.
Proof. solve_decision. Defined.
#[export] Instance CloudLinkSessionBinding_eq_dec : EqDecision CloudLinkSessionBinding.
Proof. solve_decision. Defined.
#[export] Instance CloudLinkRecord_eq_dec : EqDecision CloudLinkRecord.
Proof. solve_decision. Defined.
#[export] Instance CloudLinkDurableAck_eq_dec : EqDecision CloudLinkDurableAck.
Proof. solve_decision. Defined.
#[export] Instance CloudLinkDataLossEvidence_eq_dec : EqDecision CloudLinkDataLossEvidence.
Proof. solve_decision. Defined.

Record CloudLinkSpoolState := mkSpool {
  stream_id : string;
  stream_epoch : Z;
  next_position : Z;
  capacity : nat;
  records : list (Z * CloudLinkRecord);
  last_ack : option CloudLinkDurableAck;
  last_acknowledged_position : Z;
  data_loss : option CloudLinkDataLossEvidence
}.

#[export] Instance CloudLinkSpoolState_eq_dec : EqDecision CloudLinkSpoolState.
Proof. solve_decision. Defined.

Definition with_records (r : list (Z * CloudLinkRecord)) (s : CloudLinkSpoolState) :=
  mkSpool (stream_id s) (stream_epoch s) (next_position s) (capacity s) r (last_ack s)
    (last_acknowledged_position s) (data_loss s).
Definition with_next (n : Z) (s : CloudLinkSpoolState) :=
  mkSpool (stream_id s) (stream_epoch s) n (capacity s) (records s) (last_ack s)
    (last_acknowledged_position s) (data_loss s).
Definition with_loss (l : option CloudLinkDataLossEvidence) (s : CloudLinkSpoolState) :=
  mkSpool (stream_id s) (stream_epoch s) (next_position s) (capacity s) (records s) (last_ack s)
    (last_acknowledged_position s) l.
Definition with_ack (a : CloudLinkDurableAck) (s : CloudLinkSpoolState) :=
  mkSpool (stream_id s) (stream_epoch s) (next_position s) (capacity s) (records s) (Some a)
    (acknowledged_position a) (data_loss s).
Definition with_capacity (c : nat) (s : CloudLinkSpoolState) :=
  mkSpool (stream_id s) (stream_epoch s) (next_position s) c (records s) (last_ack s)
    (last_acknowledged_position s) (data_loss s).

(** ** Operations *)

Definition MAX_SPOOL_PAYLOAD_BYTES : nat := Z.to_nat 262144.
Definition MAX_SPOOL_RECORDS : nat := Z.to_nat 65536.

Definition SpoolM : Type -> Type := ST CloudLinkSpoolState CloudLinkSpoolErrorReason.

Definition validate_stream_id (id : string) : outcome CloudLinkSpoolErrorReason unit :=
  ensure (valid_identifier id 128) InvalidData.

Definition validate_session (session : CloudLinkSessionBinding) : outcome CloudLinkSpoolErrorReason unit :=
  ensure ((0 <? session_epoch session) && valid_identifier (session_id session) 128) InvalidData.

Definition validate_enqueue (input : CloudLinkEnqueue) : outcome CloudLinkSpoolErrorReason unit :=
  let? _ := ensure (valid_identifier (in_batch_id input) 128) InvalidData in
  let? _ := ensure (valid_digest (in_digest input)) InvalidData in
  let? _ := ensure (negb ((length (in_payload input) =? 0)%nat
                          || (MAX_SPOOL_PAYLOAD_BYTES <? length (in_payload input))%nat)) InvalidData in
  ensure (match in_expires_at input with
          | Some e => negb (e <=? in_created_at input)
          | None => true
          end) InvalidData.

Definition capacity_ok (c : nat) : bool := negb ((c =? 0)%nat || (MAX_SPOOL_RECORDS <? c)%nat).

(** [CloudLinkSpoolState::new]. *)
Definition spool_new (id : string) (cap : nat) : outcome CloudLinkSpoolErrorReason CloudLinkSpoolState :=
  let? _ := validate_stream_id id in
  let? _ := ensure (capacity_ok cap) InvalidData in
  Ok (mkSpool id 1 1 cap [] None 0 None).

Definition validate_open (id : string) (cap : nat) : SpoolM bool :=
  let! _ := st_lift (validate_stream_id id) in
  let! s := st_get in
  let! _ := st_lift (ensure (bool_decide (stream_id s = id)) WrongStream) in
  let! _ := st_lift (ensure (capacity_ok cap && negb (cap <? length (records s))%nat) InvalidData) in
  let! _ := st_modify (with_capacity cap) in
  st_ret (negb (capacity s =? cap)%nat).

(** [records.keys().next().copied().unwrap_or(next_position)]. *)
Definition earliest (s : CloudLinkSpoolState) : Z := default (next_position s) (first_key (records s)).

Definition record_loss (lost recorded : Z) : SpoolM unit :=
  st_modify (fun s => with_loss (Some
    match data_loss s with
    | Some e =>
        if (loss_stream_epoch e =? stream_epoch s) &&
           bool_decide (checked_add 64 (last_lost_position e) 1 = Some lost)
        then extend_overflow lost (earliest s) e
        else mkLoss (stream_id s) (stream_epoch s) lost lost (earliest s) "capacity-overflow" recorded
    | None => mkLoss (stream_id s) (stream_epoch s) lost lost (earliest s) "capacity-overflow" recorded
    end) s).

Definition same_content (r : CloudLinkRecord) (input : CloudLinkEnqueue) : bool :=
  bool_decide (digest r = in_digest input) && bool_decide (message_kind r = in_message_kind input) &&
  bool_decide (payload r = in_payload input).

Definition find_batch (id : string) (rs : list (Z * CloudLinkRecord)) : option CloudLinkRecord :=
  List.find (fun r => bool_decide (batch_id r = id)) (bt_values rs).

Definition evict : SpoolM (option Z) :=
  let! s := st_get in
  if (length (records s) =? capacity s)%nat then
    let! position := st_lift (ok_or Storage (first_key (records s))) in
    let! _ := st_modify (fun s => with_records (bt_remove position (records s)) s) in
    st_ret (Some position)
  else st_ret None.

Definition append_record (input : CloudLinkEnqueue) : SpoolM CloudLinkRecord :=
  let! s := st_get in
  let position := next_position s in
  let! next := st_lift (ok_or Storage (checked_add 64 position 1)) in
  let! _ := st_modify (with_next next) in
  let record := from_enqueue (mkIdentity (stream_id s) (stream_epoch s) position) input in
  let! _ := st_modify (fun s => with_records (bt_insert position record (records s)) s) in
  st_ret record.

Definition enqueue (input : CloudLinkEnqueue) : SpoolM CloudLinkRecord :=
  let! _ := st_lift (validate_enqueue input) in
  let! s := st_get in
  match find_batch (in_batch_id input) (records s) with
  | Some existing =>
      if same_content existing input then st_ret existing else st_fail ConflictingIdentity
  | None =>
      let! evicted := evict in
      let! record := append_record input in
      let! _ := match evicted with
                | Some lost => record_loss lost (in_created_at input)
                | None => st_ret tt
                end in
      st_ret record
  end.

Definition replay_from (requested limit : Z) (s : CloudLinkSpoolState)
  : outcome CloudLinkSpoolErrorReason CloudLinkReplayWindow :=
  if (requested =? 0) || (limit =? 0) then Err InvalidData
  else if next_position s <? requested then Err PositionGap
  else if requested <? earliest s then
    match data_loss s with
    | Some e =>
        if (first_lost_position e <=? requested) && (requested <=? last_lost_position e)
        then Ok (mkWindow [] (Some e)) else Err PositionGap
    | None => Err PositionGap
    end
  else Ok (mkWindow (take (Z.to_nat limit) (bt_values (bt_from requested (records s)))) None).

(** [record_mut]: the record's position, once its identity is checked. *)
Definition record_mut (ident : CloudLinkRecordIdentity) : SpoolM CloudLinkRecord :=
  let! s := st_get in
  let! _ := st_lift (ensure (bool_decide (id_stream_id ident = stream_id s) &&
                             (id_stream_epoch ident =? stream_epoch s)) WrongStream) in
  st_lift (ok_or PositionGap (bt_get (id_position ident) (records s))).

Definition update_record (ident : CloudLinkRecordIdentity) (f : CloudLinkRecord -> CloudLinkRecord)
  : SpoolM unit :=
  st_modify (fun s => with_records (bt_alter f (id_position ident) (records s)) s).

Definition mark_offered (ident : CloudLinkRecordIdentity) (session : CloudLinkSessionBinding) : SpoolM unit :=
  let! _ := st_lift (validate_session session) in
  let! _ := record_mut ident in
  update_record ident (set_offered session).

Definition mark_transport_published (ident : CloudLinkRecordIdentity) (session : CloudLinkSessionBinding)
  : SpoolM unit :=
  let! _ := st_lift (validate_session session) in
  let! record := record_mut ident in
  let! _ := st_lift (ensure (bool_decide (offered_session record = Some session)) StaleSession) in
  update_record ident (set_transport_published session).

Definition acknowledge (ack : CloudLinkDurableAck) : SpoolM DurableAckOutcome :=
  let! _ := st_lift (validate_session (ack_session ack)) in
  let! s := st_get in
  if bool_decide (last_ack s = Some ack) then st_ret Duplicate else
  let! _ := st_lift (ensure (bool_decide (ack_stream_id ack = stream_id s) &&
                             (ack_stream_epoch ack =? stream_epoch s)) WrongStream) in
  let! _ := st_lift (ensure (negb (acknowledged_position ack <=? last_acknowledged_position s))
                       ConflictingIdentity) in
  let! _ := st_lift (ensure (valid_identifier (receipt_id ack) 128) InvalidData) in
  let! record := st_lift (ok_or PositionGap (bt_get (acknowledged_position ack) (records s))) in
  let! _ := st_lift (ensure (bool_decide (offered_session record = Some (ack_session ack))) StaleSession) in
  let! _ := st_lift (ensure (bool_decide (batch_id record = ack_batch_id ack) &&
                             bool_decide (digest record = ack_digest ack)) ConflictingIdentity) in
  let positions := fst <$> bt_upto (acknowledged_position ack) (records s) in
  let! _ := st_modify (fun s =>
    with_ack ack (with_records (foldl (fun rs p => bt_remove p rs) (records s) positions) s)) in
  st_ret (Applied (length positions)).

Record CloudLinkSpoolStatus := mkStatus {
  st_stream_id : string;
  st_stream_epoch : Z;
  st_next_position : Z;
  st_earliest : Z;
  st_last_acknowledged : Z;
  st_pending_records : nat;
  st_last_ack : option CloudLinkDurableAck;
  st_data_loss : option CloudLinkDataLossEvidence
}.

Definition status (s : CloudLinkSpoolState) : CloudLinkSpoolStatus :=
  mkStatus (stream_id s) (stream_epoch s) (next_position s) (earliest s)
    (last_acknowledged_position s) (length (records s)) (last_ack s) (data_loss s).

Definition rotate_stream_epoch : SpoolM Z :=
  let! s := st_get in
  let! _ := st_lift (ensure (length (records s) =? 0)%nat PendingRecords) in
  let! epoch := st_lift (ok_or Storage (checked_add 64 (stream_epoch s) 1)) in
  let! _ := st_modify (fun s => mkSpool (stream_id s) epoch 1 (capacity s) (records s) None 0 None) in
  st_ret epoch.

(** ** Invariant *)

(** A stored record satisfies what [validate_enqueue] checked. *)
Definition content_ok (r : CloudLinkRecord) : bool :=
  valid_identifier (batch_id r) 128 && valid_digest (digest r) &&
  negb ((length (payload r) =? 0)%nat || (MAX_SPOOL_PAYLOAD_BYTES <? length (payload r))%nat) &&
  match expires_at r with Some e => negb (e <=? created_at r) | None => true end.

Definition record_ok (s : CloudLinkSpoolState) (kv : Z * CloudLinkRecord) : Prop :=
  identity kv.2 = mkIdentity (stream_id s) (stream_epoch s) kv.1 /\ content_ok kv.2 = true.

Definition window_start (s : CloudLinkSpoolState) : Z := next_position s - Z.of_nat (length (records s)).

(** Evidence describes a nonempty lost range of this epoch that ends before
    the retained window and names the position right after it as retained. *)
Definition loss_ok (s : CloudLinkSpoolState) (e : CloudLinkDataLossEvidence) : Prop :=
  loss_stream_id e = stream_id s /\ loss_stream_epoch e = stream_epoch s /\
  1 <= first_lost_position e <= last_lost_position e /\ last_lost_position e < window_start s /\
  earliest_retained_position e = last_lost_position e + 1.

Record wf (s : CloudLinkSpoolState) : Prop := {
  wf_id : valid_identifier (stream_id s) 128 = true;
  wf_epoch : 1 <= stream_epoch s < 2 ^ 64;
  wf_next : next_position s < 2 ^ 64;
  wf_capacity : capacity_ok (capacity s) = true;
  wf_length : (length (records s) <= capacity s)%nat;
  wf_window : contig (window_start s) (records s);
  wf_records : Forall (record_ok s) (records s);
  wf_batches : NoDup (batch_id <$> bt_values (records s));
  wf_acked : 0 <= last_acknowledged_position s < window_start s;
  wf_last_ack : match last_ack s with
                | Some a => ack_stream_id a = stream_id s /\ ack_stream_epoch a = stream_epoch s /\
                            acknowledged_position a = last_acknowledged_position s
                | None => last_acknowledged_position s = 0
                end;
  wf_loss : match data_loss s with Some e => loss_ok s e | None => True end;
  (** every position between the last receipt and the window is covered *)
  wf_cover : last_acknowledged_position s + 1 < window_start s ->
             exists e, data_loss s = Some e /\
                       first_lost_position e <= last_acknowledged_position s + 1 /\
                       last_lost_position e + 1 = window_start s
}.

Lemma capacity_pos c : capacity_ok c = true -> (0 < c)%nat.
Proof. unfold capacity_ok. destruct c; [done|lia]. Qed.

Lemma earliest_window s : contig (window_start s) (records s) -> earliest s = window_start s.
Proof.
  intros Hc. unfold earliest. destruct (records s) as [|kv rs] eqn:E.
  - unfold window_start. rewrite E. simpl. lia.
  - rewrite (first_key_contig (window_start s)) by done. done.
Qed.

Lemma spool_new_wf id cap s : spool_new id cap = Ok s -> wf s.
Proof.
  unfold spool_new. intros ([] & Hid%ensure_ok & ([] & Hc%ensure_ok & Hs)%obind_ok)%obind_ok.
  apply Ok_inj in Hs as <-.
  constructor; simpl; try done; unfold window_start; simpl; try lia. constructor.
Qed.

(** ** Functional behaviour of [enqueue] *)

Definition overflow_evidence (s : CloudLinkSpoolState) (recorded : Z) : CloudLinkDataLossEvidence :=
  let lost := window_start s in
  match data_loss s with
  | Some e =>
      if last_lost_position e + 1 =? lost then extend_overflow lost (lost + 1) e
      else mkLoss (stream_id s) (stream_epoch s) lost lost (lost + 1) "capacity-overflow" recorded
  | None => mkLoss (stream_id s) (stream_epoch s) lost lost (lost + 1) "capacity-overflow" recorded
  end.

(** The state after a fresh batch is accepted. *)
Definition enqueued (s : CloudLinkSpoolState) (input : CloudLinkEnqueue) : CloudLinkSpoolState :=
  let record := from_enqueue (mkIdentity (stream_id s) (stream_epoch s) (next_position s)) input in
  let full := (length (records s) =? capacity s)%nat in
  mkSpool (stream_id s) (stream_epoch s) (next_position s + 1) (capacity s)
    ((if full then tail (records s) else records s) ++ [(next_position s, record)])
    (last_ack s) (last_acknowledged_position s)
    (if full then Some (overflow_evidence s (in_created_at input)) else data_loss s).

Lemma window_below s :
  contig (window_start s) (records s) ->
  Forall (fun kv => kv.1 < next_position s) (records s).
Proof.
  intros Hc. apply (Forall_weaken _ (contig_keys _ _ Hc)). unfold window_start. simpl. lia.
Qed.

Lemma enqueue_fresh s input :
  wf s -> validate_enqueue input = Ok tt -> find_batch (in_batch_id input) (records s) = None ->
  next_position s < u64_max ->
  enqueue input s =
    (enqueued s input,
     Ok (from_enqueue (mkIdentity (stream_id s) (stream_epoch s) (next_position s)) input)).
Proof.
  intros Hw Hv Hf Hn. unfold enqueue. rewrite st_bind_lift, Hv.
  unfold st_bind at 1, st_get. rewrite Hf. unfold u64_max in *.
  pose proof (wf_window _ Hw) as Hc. pose proof (window_below _ Hc) as Hb.
  assert (checked_add 64 (next_position s) 1 = Some (next_position s + 1)) as Hadd.
  { unfold checked_add. destruct (Z.ltb_spec (next_position s + 1) (2 ^ 64)); [done|lia]. }
  unfold evict, st_bind, st_get, enqueued.
  destruct (length (records s) =? capacity s)%nat eqn:Efull.
  - pose proof (capacity_pos _ (wf_capacity _ Hw)).
    destruct (records s) as [|kv rs] eqn:Er; [apply Nat.eqb_eq in Efull; simpl in Efull; lia|].
    rewrite (first_key_contig _ _ Hc) by done.
    assert (kv.1 = window_start s) as Hkv by (destruct kv; apply Hc).
    cbn [ok_or st_lift]. unfold st_lift, st_modify, st_ret at 1. rewrite Er, <- Hkv, (bt_remove_head _ _ _ Hc).
    unfold append_record, st_bind, st_get, st_lift, st_modify, st_ret, with_records, with_next.
    cbn. rewrite Hadd. cbn.
    rewrite bt_insert_last by (inversion Hb; done).
    unfold record_loss, st_modify, with_loss, overflow_evidence, earliest. cbn.
    assert (first_key (rs ++ [(next_position s, from_enqueue
               (mkIdentity (stream_id s) (stream_epoch s) (next_position s)) input)])
            = Some (kv.1 + 1)) as ->.
    { unfold first_key. destruct rs as [|[k r] rs]; simpl.
      - f_equal. rewrite Hkv. unfold window_start. rewrite Er. simpl. lia.
      - rewrite Hkv. destruct kv as [k0 r0]. simpl in Hc. destruct Hc as (_ & -> & _). done. }
    cbn. rewrite <- Hkv. destruct (data_loss s) as [e|] eqn:El; [|done].
    pose proof (wf_loss _ Hw) as Hl. rewrite El in Hl. destruct Hl as (_ & -> & Hr & Hlt & _).
    rewrite Z.eqb_refl. cbn. pose proof (wf_next _ Hw).
    assert (checked_add 64 (last_lost_position e) 1 = Some (last_lost_position e + 1)) as ->.
    { unfold checked_add. unfold window_start in Hlt.
      destruct (Z.ltb_spec (last_lost_position e + 1) (2 ^ 64)); [done|lia]. }
    destruct (Z.eqb_spec (last_lost_position e + 1) kv.1); [by rewrite bool_decide_eq_true_2 by congruence|].
    by rewrite bool_decide_eq_false_2 by congruence.
  - cbn. unfold append_record, st_bind, st_get, st_lift, st_modify, st_ret, with_records, with_next.
    rewrite Hadd. cbn. by rewrite bt_insert_last.
Qed.

Lemma validate_enqueue_content input ident :
  validate_enqueue input = Ok tt -> content_ok (from_enqueue ident input) = true.
Proof.
  unfold validate_enqueue.
  intros ([] & H1%ensure_ok & ([] & H2%ensure_ok & ([] & H3%ensure_ok & H4%ensure_ok)%obind_ok)%obind_ok)%obind_ok.
  unfold content_ok, from_enqueue. simpl. by rewrite H1, H2, H3, H4.
Qed.

Lemma find_batch_none id rs :
  find_batch id rs = None -> id ∉ (batch_id <$> bt_values rs).
Proof.
  unfold find_batch. intros Hn (r & -> & Hr)%list_elem_of_fmap.
  apply list_elem_of_In, (List.find_none _ _ Hn), bool_decide_eq_false in Hr. done.
Qed.

Lemma find_batch_some id rs r :
  find_batch id rs = Some r -> r ∈ bt_values rs /\ batch_id r = id.
Proof.
  unfold find_batch. intros [Hin Hd]%List.find_some.
  apply bool_decide_eq_true in Hd. split; [by apply list_elem_of_In|done].
Qed.

(** The window after dropping an evicted head and appending. *)
Lemma enqueued_window s input :
  wf s ->
  let full := (length (records s) =? capacity s)%nat in
  window_start (enqueued s input) = window_start s + (if full then 1 else 0) /\
  (length (records (enqueued s input)) <= capacity s)%nat.
Proof.
  intros Hw full. pose proof (wf_length _ Hw). pose proof (capacity_pos _ (wf_capacity _ Hw)).
  unfold window_start, enqueued. fold full. simpl. rewrite length_app. simpl.
  destruct full eqn:E; subst full.
  - apply Nat.eqb_eq in E. destruct (records s); simpl in *; lia.
  - apply Nat.eqb_neq in E. lia.
Qed.

Lemma overflow_evidence_ok s t recorded :
  wf s -> stream_id t = stream_id s -> stream_epoch t = stream_epoch s ->
  window_start t = window_start s + 1 -> loss_ok t (overflow_evidence s recorded).
Proof.
  intros Hw Hid He Hws. pose proof (wf_acked _ Hw). pose proof (wf_loss _ Hw) as Hl.
  unfold overflow_evidence, loss_ok. rewrite Hid, He, Hws.
  destruct (data_loss s) as [e|]; [|simpl; split_and!; done || lia].
  destruct Hl as (? & ? & ? & ? & ?).
  destruct (Z.eqb_spec (last_lost_position e + 1) (window_start s)); simpl; split_and!; done || lia.
Qed.

Lemma overflow_evidence_cover s recorded :
  wf s ->
  first_lost_position (overflow_evidence s recorded) <= last_acknowledged_position s + 1 \/
  last_acknowledged_position s + 1 > window_start s.
Proof.
  intros Hw. pose proof (wf_acked _ Hw). pose proof (wf_cover _ Hw) as Hcov.
  unfold overflow_evidence. destruct (decide (last_acknowledged_position s + 1 < window_start s)) as [Hlt|].
  - destruct (Hcov Hlt) as (e & -> & ? & Hl). rewrite <- Hl, Z.eqb_refl. simpl. lia.
  - destruct (data_loss s) as [e|] eqn:El; [|simpl; lia].
    pose proof (wf_loss _ Hw) as Hl. rewrite El in Hl. destruct Hl as (_ & _ & ? & ? & _).
    destruct (_ =? _); simpl; lia.
Qed.

Lemma overflow_evidence_last s recorded :
  last_lost_position (overflow_evidence s recorded) = window_start s.
Proof. unfold overflow_evidence. destruct (data_loss s); [destruct (_ =? _)|]; done. Qed.

Lemma enqueued_wf s input :
  wf s -> validate_enqueue input = Ok tt -> find_batch (in_batch_id input) (records s) = None ->
  next_position s < u64_max -> wf (enqueued s input).
Proof.
  intros Hw Hv Hf Hn. destruct (enqueued_window s input Hw) as [Hws Hlen].
  set (full := (length (records s) =? capacity s)%nat) in *.
  assert (exists pre, records s = pre ++ (if full then tail (records s) else records s) /\
                      length pre = if full then 1%nat else 0%nat) as (pre & Hpre & Hpl).
  { subst full. destruct (Nat.eqb_spec (length (records s)) (capacity s)) as [E|E]; [|by exists []].
    pose proof (capacity_pos _ (wf_capacity _ Hw)).
    destruct (records s) as [|kv rs]; [simpl in *; lia|by exists [kv]]. }
  set (kept := if full then tail (records s) else records s) in *.
  assert (records (enqueued s input) = kept ++ [(next_position s, from_enqueue
     (mkIdentity (stream_id s) (stream_epoch s) (next_position s)) input)]) as Hrec by done.
  pose proof (wf_window _ Hw) as Hc. rewrite Hpre, contig_app, Hpl in Hc. destruct Hc as [_ Hc].
  pose proof (wf_acked _ Hw). pose proof (wf_next _ Hw).
  pose proof (wf_loss _ Hw) as Hl.
  constructor; try apply Hw; try done.
  - unfold enqueued. unfold u64_max in *. simpl. lia.
  - rewrite Hws, Hrec, contig_app. split.
    + by destruct full; rewrite ?Z.add_0_r in *.
    + simpl. split; [|done]. rewrite <- Hws. unfold window_start. rewrite Hrec, length_app. simpl. lia.
  - rewrite Hrec. apply Forall_app_2; [|constructor; [|constructor]].
    + pose proof (wf_records _ Hw) as Hr. rewrite Hpre in Hr. by apply Forall_app in Hr as [_ ?].
    + split; [done|]. by apply validate_enqueue_content.
  - rewrite Hrec. unfold bt_values. rewrite !fmap_app. apply list.NoDup_app.
    pose proof (wf_batches _ Hw) as Hb. pose proof (find_batch_none _ _ Hf) as Hnb.
    unfold bt_values in Hb, Hnb. rewrite Hpre, !fmap_app in Hb, Hnb. apply list.NoDup_app in Hb as (_ & _ & Hb).
    split_and!; [done| |apply NoDup_singleton].
    intros x Hx Hin%list_elem_of_singleton. apply Hnb. rewrite elem_of_app. right.
    by simplify_eq/=.
  - rewrite Hws. unfold enqueued. simpl. destruct full; lia.
  - unfold enqueued at 1. fold full. simpl. destruct full eqn:Efull.
    + by apply overflow_evidence_ok.
    + destruct (data_loss s); [|done]. destruct Hl as (? & ? & ? & ? & ?).
      unfold loss_ok. rewrite Hws. split_and!; done || lia.
  - rewrite Hws. change (last_acknowledged_position (enqueued s input)) with (last_acknowledged_position s).
    intros Hlt. unfold enqueued. fold full. simpl. destruct full.
    + exists (overflow_evidence s (in_created_at input)). split; [done|].
      rewrite overflow_evidence_last. destruct (overflow_evidence_cover s (in_created_at input) Hw); lia.
    + destruct (wf_cover _ Hw ltac:(lia)) as (e & ? & ? & ?). exists e. split_and!; done || lia.
Qed.

(** A session update of one record keeps the invariant: position, identity and
    content are untouched. *)
Lemma update_record_wf s ident st session :
  wf s -> wf (with_records (bt_alter (with_delivery st session) (id_position ident) (records s)) s).
Proof.
  intros Hw. set (rs := bt_alter _ _ _).
  assert (length rs = length (records s)) as Hlen by apply bt_alter_length.
  assert (window_start (with_records rs s) = window_start s) as Hws
    by (unfold window_start; simpl; by rewrite Hlen).
  constructor; try apply Hw; rewrite ?Hws; try apply Hw; simpl.
  - rewrite Hlen. apply Hw.
  - apply contig_alter, Hw.
  - apply Forall_bt_alter; [apply Hw|]. intros r [Hid Hc]. by split.
  - replace (batch_id <$> bt_values rs) with (batch_id <$> bt_values (records s)); [apply Hw|].
    unfold rs, bt_values, bt_alter. rewrite <- !list_fmap_compose. apply list_fmap_ext.
    intros i [k r] _. simpl. by destruct (k =? id_position ident).
  - pose proof (wf_loss _ Hw) as Hl. destruct (data_loss s); [|done].
    unfold loss_ok in *. rewrite Hws. exact Hl.
Qed.

(** Splits on the condition of the guard the method evaluates next. *)
Ltac on_guard E :=
  match goal with |- context [match ensure ?b _ with _ => _ end] => destruct b eqn:E; simpl ensure; cbv iota end.

(** Closes the branch of a refused call: the state is as before. *)
Ltac refused := let E := fresh in intros E; apply pair_eq in E as [<- <-]; left; split; [reflexivity|eauto].

Definition marked (st : CloudLinkDeliveryState) (ident : CloudLinkRecordIdentity)
    (session : CloudLinkSessionBinding) (s : CloudLinkSpoolState) : CloudLinkSpoolState :=
  with_records (bt_alter (with_delivery st session) (id_position ident) (records s)) s.

Lemma mark_offered_cases s ident session s' res :
  mark_offered ident session s = (s', res) ->
  (s' = s /\ exists e, res = Err e) \/ (s' = marked Offered ident session s /\ res = Ok tt).
Proof.
  unfold mark_offered, validate_session. rewrite st_bind_lift. on_guard E0; [|refused].
  unfold st_bind, record_mut, st_bind, st_get, st_lift. on_guard E1; [|refused].
  destruct (bt_get _ _); simpl; [|refused]. intros [<- <-]%pair_eq. by right.
Qed.

Lemma mark_transport_published_cases s ident session s' res :
  mark_transport_published ident session s = (s', res) ->
  (s' = s /\ exists e, res = Err e) \/
  (s' = marked TransportPublished ident session s /\ res = Ok tt).
Proof.
  unfold mark_transport_published, validate_session. rewrite st_bind_lift. on_guard E0; [|refused].
  unfold st_bind at 1, record_mut, st_bind at 1, st_get. rewrite st_bind_lift. on_guard E1; [|refused].
  unfold st_lift at 1. destruct (bt_get _ _); simpl; [|refused].
  rewrite st_bind_lift. on_guard E2; [|refused]. intros [<- <-]%pair_eq. by right.
Qed.

(** [with_ack] and [with_records] of an applied receipt. *)
Definition acked (s : CloudLinkSpoolState) (ack : CloudLinkDurableAck) : CloudLinkSpoolState :=
  with_ack ack (with_records
    (drop (Z.to_nat (acknowledged_position ack + 1 - window_start s)) (records s)) s).

(** What a receipt must match to be applied. *)
Definition ack_matches (s : CloudLinkSpoolState) (ack : CloudLinkDurableAck) : Prop :=
  ack_stream_id ack = stream_id s /\ ack_stream_epoch ack = stream_epoch s /\
  last_acknowledged_position s < acknowledged_position ack /\
  exists r, (acknowledged_position ack, r) ∈ records s /\
            offered_session r = Some (ack_session ack) /\
            batch_id r = ack_batch_id ack /\ digest r = ack_digest ack.

Lemma acknowledge_cases s ack s' res :
  wf s -> acknowledge ack s = (s', res) ->
  (s' = s /\ ((exists e, res = Err e) \/ res = Ok Duplicate)) \/
  (ack_matches s ack /\ s' = acked s ack /\
   res = Ok (Applied (Z.to_nat (acknowledged_position ack + 1 - window_start s)))).
Proof.
  intros Hw. unfold acknowledge. rewrite st_bind_lift.
  assert (exists o, validate_session (ack_session ack) = ensure o InvalidData) as [o ->] by eauto.
  destruct o; simpl; [|refused].
  unfold st_bind at 1, st_get. case_bool_decide as Hdup; [refused|].
  rewrite st_bind_lift. on_guard E1; [|refused].
  rewrite st_bind_lift. on_guard E2; [|refused].
  rewrite st_bind_lift. on_guard E3; [|refused].
  rewrite st_bind_lift. destruct (bt_get _ _) as [r|] eqn:E4; simpl; [|refused].
  rewrite st_bind_lift. on_guard E5; [|refused].
  rewrite st_bind_lift. on_guard E6; [|refused].
  unfold st_bind, st_modify, st_ret. intros Heq. right. bool_facts.
  apply bt_get_elem in E4. pose proof (wf_window _ Hw) as Hc.
  pose proof (Forall_elem (contig_keys _ _ Hc) E4) as Hpos. simpl in Hpos.
  rewrite (bt_upto_contig _ _ _ Hc), (bt_remove_prefix _ _ _ Hc) in Heq by lia.
  rewrite length_fmap, length_take_le in Heq by lia. apply pair_eq in Heq as [<- <-].
  split_and!; [|done..]. unfold ack_matches. split_and!; [done|lia|lia|eauto].
Qed.

Lemma acked_wf s ack : wf s -> ack_matches s ack -> wf (acked s ack).
Proof.
  intros Hw (Hs & He & Hlast & r & Hr & _). pose proof (wf_window _ Hw) as Hc.
  pose proof (Forall_elem (contig_keys _ _ Hc) Hr) as Hpos. simpl in Hpos.
  pose proof (wf_acked _ Hw). set (n := Z.to_nat (acknowledged_position ack + 1 - window_start s)).
  assert (window_start (acked s ack) = acknowledged_position ack + 1) as Hws.
  { unfold acked, window_start. simpl. rewrite length_drop. unfold window_start in *. lia. }
  assert (records (acked s ack) = drop n (records s)) as Hrec by done.
  constructor; try apply Hw; rewrite ?Hws, ?Hrec; try done; simpl.
  - rewrite length_drop. pose proof (wf_length _ Hw). lia.
  - replace (acknowledged_position ack + 1) with (window_start s + Z.of_nat n) by lia.
    apply contig_drop; [unfold window_start in *; lia|done].
  - apply Forall_drop, Hw.
  - unfold bt_values. rewrite !fmap_drop. pose proof (wf_batches _ Hw) as Hb.
    unfold bt_values in Hb. rewrite <- (take_drop n (batch_id <$> (records s).*2)) in Hb.
    by apply list.NoDup_app in Hb as (_ & _ & ?).
  - lia.
  - pose proof (wf_loss _ Hw) as Hl. destruct (data_loss s); [|done].
    destruct Hl as (? & ? & ? & ? & ?). unfold loss_ok. rewrite Hws. split_and!; done || lia.
  - lia.
Qed.

Lemma enqueue_cases s input s' res :
  wf s -> next_position s < u64_max -> enqueue input s = (s', res) ->
  (s' = s /\ ((exists e, res = Err e) \/ exists r, res = Ok r /\ r ∈ bt_values (records s))) \/
  (validate_enqueue input = Ok tt /\ find_batch (in_batch_id input) (records s) = None /\
   s' = enqueued s input /\
   res = Ok (from_enqueue (mkIdentity (stream_id s) (stream_epoch s) (next_position s)) input)).
Proof.
  intros Hw Hn He. destruct (validate_enqueue input) as [[]|e|] eqn:Hv.
  - destruct (find_batch (in_batch_id input) (records s)) as [r|] eqn:Hf.
    + left. unfold enqueue in He. rewrite st_bind_lift, Hv in He. unfold st_bind, st_get in He. rewrite Hf in He.
      apply find_batch_some in Hf as [Hin _].
      destruct (same_content r input); apply pair_eq in He as [<- <-]; eauto.
    + right. rewrite (enqueue_fresh s input Hw Hv Hf Hn) in He. by apply pair_eq in He as [<- <-].
  - left. unfold enqueue in He. rewrite st_bind_lift, Hv in He. apply pair_eq in He as [<- <-]. eauto.
  - exfalso. unfold validate_enqueue, ensure in Hv.
    repeat (apply obind_panic in Hv as [Hv|(? & _ & Hv)]; [by destruct (_ : bool) in Hv|]).
    by destruct (_ : bool) in Hv.
Qed.

Lemma rotate_cases s s' res :
  rotate_stream_epoch s = (s', res) ->
  (s' = s /\ exists e, res = Err e) \/
  (records s = [] /\ stream_epoch s + 1 < 2 ^ 64 /\
   s' = mkSpool (stream_id s) (stream_epoch s + 1) 1 (capacity s) [] None 0 None /\
   res = Ok (stream_epoch s + 1)).
Proof.
  unfold rotate_stream_epoch, st_bind at 1, st_get. rewrite st_bind_lift.
  on_guard E; [|refused]. rewrite st_bind_lift. unfold checked_add.
  destruct (Z.ltb_spec (stream_epoch s + 1) (2 ^ 64)); simpl; [|refused].
  unfold st_bind, st_modify, st_ret. intros [<- <-]%pair_eq. right.
  apply Nat.eqb_eq, length_zero_iff_nil in E. by rewrite E.
Qed.

Lemma rotated_wf s :
  wf s -> stream_epoch s + 1 < 2 ^ 64 ->
  wf (mkSpool (stream_id s) (stream_epoch s + 1) 1 (capacity s) [] None 0 None).
Proof.
  intros Hw He. pose proof (wf_epoch _ Hw).
  constructor; try apply Hw; unfold window_start; simpl; try done; try lia. constructor.
Qed.

Lemma validate_open_cases id cap s s' res :
  validate_open id cap s = (s', res) ->
  (s' = s /\ exists e, res = Err e) \/
  (id = stream_id s /\ capacity_ok cap = true /\ (length (records s) <= cap)%nat /\
   s' = with_capacity cap s /\ res = Ok (negb (capacity s =? cap)%nat)).
Proof.
  unfold validate_open, validate_stream_id. rewrite st_bind_lift. on_guard E0; [|refused].
  unfold st_bind at 1, st_get. rewrite st_bind_lift. on_guard E1; [|refused].
  rewrite st_bind_lift. on_guard E2; [|refused].
  unfold st_bind, st_modify, st_ret. intros [<- <-]%pair_eq. right. bool_facts. split_and!; done || lia.
Qed.

Lemma with_capacity_wf s cap :
  wf s -> capacity_ok cap = true -> (length (records s) <= cap)%nat -> wf (with_capacity cap s).
Proof. intros Hw Hc Hl. by constructor; try apply Hw. Qed.

(** ** The port

    [trait CloudLinkSpool]: what a session client may call, and the contract
    an adapter discharges, stated against the state above. *)

Class CloudLinkSpool (T : Type) := {
  sp_enqueue : CloudLinkEnqueue -> ST T CloudLinkSpoolErrorReason CloudLinkRecord;
  sp_replay_from : Z -> Z -> T -> outcome CloudLinkSpoolErrorReason CloudLinkReplayWindow;
  sp_mark_offered : CloudLinkRecordIdentity -> CloudLinkSessionBinding ->
                    ST T CloudLinkSpoolErrorReason unit;
  sp_mark_transport_published : CloudLinkRecordIdentity -> CloudLinkSessionBinding ->
                    ST T CloudLinkSpoolErrorReason unit;
  sp_acknowledge : CloudLinkDurableAck -> ST T CloudLinkSpoolErrorReason DurableAckOutcome;
  sp_status : T -> CloudLinkSpoolStatus;
  sp_rotate_stream_epoch : ST T CloudLinkSpoolErrorReason Z
}.

(** A method of an adapter does what the state does, or refuses and changes
    nothing a caller can see. *)
Definition simulates {T A} (view : T -> CloudLinkSpoolState) (inv : T -> Prop)
    (mT : ST T CloudLinkSpoolErrorReason A) (m : SpoolM A) : Prop :=
  forall t, inv t -> next_position (view t) < u64_max ->
  inv (mT t).1 /\
  (m (view t) = (view (mT t).1, (mT t).2) \/
   (view (mT t).1 = view t /\ exists e, (mT t).2 = Err e)).

Class CloudLinkSpoolLaws (T : Type) `{CloudLinkSpool T} := {
  sp_view : T -> CloudLinkSpoolState;
  sp_inv : T -> Prop;
  sp_inv_wf t : sp_inv t -> wf (sp_view t);
  sp_enqueue_law input : simulates sp_view sp_inv (sp_enqueue input) (enqueue input);
  sp_mark_offered_law ident session :
    simulates sp_view sp_inv (sp_mark_offered ident session) (mark_offered ident session);
  sp_mark_transport_published_law ident session :
    simulates sp_view sp_inv (sp_mark_transport_published ident session)
      (mark_transport_published ident session);
  sp_acknowledge_law ack : simulates sp_view sp_inv (sp_acknowledge ack) (acknowledge ack);
  sp_rotate_law : simulates sp_view sp_inv sp_rotate_stream_epoch rotate_stream_epoch;
  sp_replay_law p limit t : sp_replay_from p limit t = replay_from p limit (sp_view t);
  sp_status_law t : sp_status t = status (sp_view t)
}.

(** [MemoryCloudLinkSpool]: the state behind a mutex. *)
#[export] Instance MemoryCloudLinkSpool : CloudLinkSpool CloudLinkSpoolState := {|
  sp_enqueue := enqueue;
  sp_replay_from := replay_from;
  sp_mark_offered := mark_offered;
  sp_mark_transport_published := mark_transport_published;
  sp_acknowledge := acknowledge;
  sp_status := status;
  sp_rotate_stream_epoch := rotate_stream_epoch
|}.

(** Every operation of the state keeps the invariant. *)
Lemma enqueue_wf input s : wf s -> next_position s < u64_max -> wf (enqueue input s).1.
Proof.
  intros Hw Hn. destruct (enqueue input s) as [s' res] eqn:E.
  destruct (enqueue_cases _ _ _ _ Hw Hn E) as [[-> _]|(? & ? & -> & _)]; [done|].
  by apply enqueued_wf.
Qed.

Lemma acknowledge_wf ack s : wf s -> wf (acknowledge ack s).1.
Proof.
  intros Hw. destruct (acknowledge ack s) as [s' res] eqn:E.
  destruct (acknowledge_cases _ _ _ _ Hw E) as [[-> _]|(? & -> & _)]; [done|]. by apply acked_wf.
Qed.

Lemma rotate_wf s : wf s -> wf (rotate_stream_epoch s).1.
Proof.
  intros Hw. destruct (rotate_stream_epoch s) as [s' res] eqn:E.
  destruct (rotate_cases _ _ _ E) as [[-> _]|(? & ? & -> & _)]; [done|]. by apply rotated_wf.
Qed.

Lemma mark_offered_wf ident session s : wf s -> wf (mark_offered ident session s).1.
Proof.
  intros Hw. destruct (mark_offered ident session s) as [s' res] eqn:E.
  destruct (mark_offered_cases _ _ _ _ _ E) as [[-> _]|[-> _]]; [done|]. by apply update_record_wf.
Qed.

Lemma mark_transport_published_wf ident session s : wf s -> wf (mark_transport_published ident session s).1.
Proof.
  intros Hw. destruct (mark_transport_published ident session s) as [s' res] eqn:E.
  destruct (mark_transport_published_cases _ _ _ _ _ E) as [[-> _]|[-> _]]; [done|].
  by apply update_record_wf.
Qed.

#[export] Hint Resolve enqueue_wf acknowledge_wf rotate_wf mark_offered_wf
  mark_transport_published_wf : rust.

#[export] Program Instance MemoryCloudLinkSpool_laws : CloudLinkSpoolLaws CloudLinkSpoolState := {|
  sp_view := id;
  sp_inv := wf
|}.
Solve Obligations with (try (intros; intros t Ht Hn; split; [auto with rust|left; apply surjective_pairing])).
Next Obligation. done. Qed.
Next Obligation. done. Qed.
Next Obligation. done. Qed.

(** ** Clients of the port *)

Inductive SpoolOp :=
| OpEnqueue (input : CloudLinkEnqueue)
| OpOffered (ident : CloudLinkRecordIdentity) (session : CloudLinkSessionBinding)
| OpPublished (ident : CloudLinkRecordIdentity) (session : CloudLinkSessionBinding)
| OpAcknowledge (ack : CloudLinkDurableAck)
| OpRotate.

(** The state a call leaves, whatever it returns. *)
Definition sp_step {T} `{CloudLinkSpool T} (o : SpoolOp) (t : T) : T :=
  match o with
  | OpEnqueue input => (sp_enqueue input t).1
  | OpOffered ident session => (sp_mark_offered ident session t).1
  | OpPublished ident session => (sp_mark_transport_published ident session t).1
  | OpAcknowledge ack => (sp_acknowledge ack t).1
  | OpRotate => (sp_rotate_stream_epoch t).1
  end.

Definition sp_run {T} `{CloudLinkSpool T} (ops : list SpoolOp) (t : T) : T :=
  foldl (fun t o => sp_step o t) t ops.

(** One operation of the state moves the next position by at most one. *)
Lemma step_next o s :
  wf s -> next_position s < u64_max -> next_position (sp_step o s) <= next_position s + 1.
Proof.
  intros Hw Hn. pose proof (wf_acked _ Hw). assert (1 <= next_position s) by (unfold window_start in *; lia).
  destruct o as [input|ident session|ident session|ack|]; cbn [sp_step sp_enqueue sp_mark_offered
    sp_mark_transport_published sp_acknowledge sp_rotate_stream_epoch MemoryCloudLinkSpool].
  - destruct (enqueue input s) as [s' res] eqn:E.
    destruct (enqueue_cases _ _ _ _ Hw Hn E) as [[-> _]|(_ & _ & -> & _)]; simpl; lia.
  - destruct (mark_offered ident session s) as [s' res] eqn:E.
    destruct (mark_offered_cases _ _ _ _ _ E) as [[-> _]|[-> _]]; simpl; lia.
  - destruct (mark_transport_published ident session s) as [s' res] eqn:E.
    destruct (mark_transport_published_cases _ _ _ _ _ E) as [[-> _]|[-> _]]; simpl; lia.
  - destruct (acknowledge ack s) as [s' res] eqn:E.
    destruct (acknowledge_cases _ _ _ _ Hw E) as [[-> _]|(_ & -> & _)]; simpl; lia.
  - destruct (rotate_stream_epoch s) as [s' res] eqn:E.
    destruct (rotate_cases _ _ _ E) as [[-> _]|(_ & _ & -> & _)]; simpl; lia.
Qed.

Section Client.
Context {T : Type} `{CloudLinkSpoolLaws T}.

(** Through any adapter, one call is one step of the state or nothing. *)
Lemma sp_step_sim o (t : T) :
  sp_inv t -> next_position (sp_view t) < u64_max ->
  sp_inv (sp_step o t) /\
  (sp_view (sp_step o t) = sp_step o (sp_view t) \/ sp_view (sp_step o t) = sp_view t).
Proof.
  intros Hi Hn.
  assert (forall A (mT : ST T CloudLinkSpoolErrorReason A) (m : SpoolM A),
    simulates sp_view sp_inv mT m ->
    sp_inv (mT t).1 /\ (sp_view (mT t).1 = (m (sp_view t)).1 \/ sp_view (mT t).1 = sp_view t)) as Hsim.
  { intros A mT m Hs. destruct (Hs t Hi Hn) as [Hinv [Heq|[Heq _]]]; split; auto.
    left. by rewrite Heq. }
  destruct o; apply Hsim.
  - apply sp_enqueue_law.
  - apply sp_mark_offered_law.
  - apply sp_mark_transport_published_law.
  - apply sp_acknowledge_law.
  - apply sp_rotate_law.
Qed.

Lemma sp_run_inv ops (t : T) :
  sp_inv t -> next_position (sp_view t) + Z.of_nat (length ops) <= u64_max -> sp_inv (sp_run ops t).
Proof.
  revert t. induction ops as [|o ops IH]; intros t Hi Hn; [done|].
  cbn [length] in Hn. destruct (sp_step_sim o t Hi) as [Hi' Hv]; [lia|].
  apply IH; [done|].
  pose proof (step_next o (sp_view t) (sp_inv_wf _ Hi) ltac:(lia)).
  destruct Hv as [->| ->]; lia.
Qed.

End Client.

(** The answer to a replay request at an unacknowledged position. *)
Lemma replay_covered s p limit :
  wf s -> last_acknowledged_position s < p < next_position s -> 0 < limit ->
  exists w, replay_from p limit s = Ok w /\
    ((window_data_loss w = None /\
      (fun r => identity r) <$> window_records w =
        (mkIdentity (stream_id s) (stream_epoch s)) <$>
          seqZ p (Z.min limit (next_position s - p))) \/
     (window_records w = [] /\ exists e, window_data_loss w = Some e /\
        first_lost_position e <= p <= last_lost_position e /\
        earliest_retained_position e = earliest s)).
Proof.
  intros Hw Hp Hl. pose proof (wf_acked _ Hw) as Ha. pose proof (wf_window _ Hw) as Hc.
  unfold replay_from. rewrite (earliest_window s Hc).
  destruct (Z.eqb_spec p 0); [lia|]. destruct (Z.eqb_spec limit 0); [lia|]. simpl.
  destruct (Z.ltb_spec (next_position s) p); [lia|].
  destruct (Z.ltb_spec p (window_start s)) as [Hlt|Hge].
  - destruct (wf_cover _ Hw ltac:(lia)) as (e & He & Hf & Hla).
    pose proof (wf_loss _ Hw) as Hlo. rewrite He in *. destruct Hlo as (_ & _ & _ & _ & Hret).
    destruct (Z.leb_spec (first_lost_position e) p); [|lia].
    destruct (Z.leb_spec p (last_lost_position e)); [|lia].
    eexists. split; [done|]. right. split; [done|]. exists e. simpl. split_and!; done || lia.
  - eexists. split; [done|]. left. split; [done|]. simpl.
    rewrite (bt_from_contig _ _ _ Hc Hge). unfold bt_values.
    apply list_eq. intros i. rewrite !list_lookup_fmap. rewrite lookup_take.
    set (len := Z.min limit (next_position s - p)).
    destruct (decide (Z.of_nat i < len)) as [Hi|Hi].
    + rewrite lookup_seqZ_lt by lia. rewrite decide_True by lia.
      rewrite list_lookup_fmap, lookup_drop.
      destruct (records s !! (Z.to_nat (p - window_start s) + i)%nat) as [kv|] eqn:Ek.
      * pose proof (contig_lookup _ _ _ _ Hc Ek) as Hk.
        destruct (Forall_lookup_1 _ _ _ _ (wf_records _ Hw) Ek) as [Hid _].
        simpl. rewrite Hid, Hk. do 2 f_equal. lia.
      * apply lookup_ge_None in Ek. unfold window_start in *. lia.
    + rewrite lookup_seqZ_ge by lia. case_decide; [|done].
      rewrite list_lookup_fmap, lookup_drop, lookup_ge_None_2; [done|].
      unfold window_start in *. lia.
Qed.

(** What an accepted enqueue and an applied receipt remove. *)
Lemma enqueued_removes s input p :
  wf s -> p ∈ (records s).*1 -> p ∉ (records (enqueued s input)).*1 ->
  length (records s) = capacity s /\ p = earliest s /\
  exists e, data_loss (enqueued s input) = Some e /\
            first_lost_position e <= p /\ last_lost_position e = p.
Proof.
  intros Hw Hin Hout. pose proof (wf_window _ Hw) as Hc. rewrite (earliest_window s Hc).
  destruct (enqueued_window s input Hw) as [Hws _]. unfold enqueued in Hout |- *. simpl in *.
  destruct (Nat.eqb_spec (length (records s)) (capacity s)) as [Hfull|];
    [|by destruct Hout; rewrite fmap_app, elem_of_app; left].
  assert (p = window_start s) as ->.
  { destruct (records s) as [|[k r] rs]; simpl in *; [by apply not_elem_of_nil in Hin|].
    apply elem_of_cons in Hin as [->|Hin]; [apply Hc|].
    destruct Hout. rewrite fmap_app, elem_of_app. by left. }
  do 2 (split; [done|]). eexists. split; [done|]. rewrite overflow_evidence_last. split; [|done].
  destruct (overflow_evidence_ok s (enqueued s input) (in_created_at input) Hw) as (_ & _ & Hr & _);
    [done..|rewrite overflow_evidence_last in Hr; lia].
Qed.

Lemma acked_removes s ack p :
  wf s -> p ∈ (records s).*1 -> p ∉ (records (acked s ack)).*1 -> p <= acknowledged_position ack.
Proof.
  intros Hw Hin Hout. pose proof (wf_window _ Hw) as Hc. simpl in Hout. rewrite fmap_drop in Hout.
  apply list_elem_of_lookup in Hin as [i Hi].
  destruct (decide (p <= acknowledged_position ack)) as [|Hgt]; [done|]. destruct Hout.
  apply list_elem_of_lookup. set (n := Z.to_nat _). exists (i - n)%nat. rewrite lookup_drop.
  apply list_lookup_fmap_Some in Hi as Hi'. destruct Hi' as (kv & -> & Hk).
  rewrite (contig_lookup _ _ _ _ Hc Hk) in *.
  by replace (n + (i - n))%nat with i by lia.
Qed.

(** ** Properties *)

(** C10. No silent loss, through any adapter of the port: after any sequence of
    fewer than 2^64 calls, a replay request at a position that was allocated
    and not acknowledged succeeds, and answers either with the retained
    records from that position on, consecutive and without a gap, or with
    evidence whose lost range contains the position and ends right before the
    first retained one. *)
Theorem no_silent_loss {T} `{CloudLinkSpoolLaws T} (t : T) ops p limit :
  sp_inv t -> next_position (sp_view t) + Z.of_nat (length ops) <= u64_max ->
  let t' := sp_run ops t in let s := sp_view t' in
  last_acknowledged_position s < p < next_position s -> 0 < limit ->
  exists w, sp_replay_from p limit t' = Ok w /\
    ((window_data_loss w = None /\
      (fun r => identity r) <$> window_records w =
        (mkIdentity (stream_id s) (stream_epoch s)) <$>
          seqZ p (Z.min limit (next_position s - p))) \/
     (window_records w = [] /\ exists e, window_data_loss w = Some e /\
        first_lost_position e <= p <= last_lost_position e /\
        earliest_retained_position e = st_earliest (sp_status t'))).
Proof.
  intros Hi Hn t' s Hp Hl. rewrite sp_replay_law, sp_status_law.
  apply replay_covered; [|done..]. apply sp_inv_wf. by apply sp_run_inv.
Qed.

(** C22. Removal authority: a retained record disappears in one operation only
    through a durable receipt that matches a retained record at or after it
    (stream, epoch, offered session, batch and digest), or through a capacity
    eviction of the earliest record by an accepted enqueue, which records
    evidence ending at its position. Offers and transport publication never
    remove anything. The state is well formed and its next position lies below
    the largest u64: there an enqueue evicts without evidence. *)
Theorem removal_authority s o p :
  wf s -> next_position s < u64_max ->
  p ∈ (records s).*1 -> p ∉ (records (sp_step o s)).*1 ->
  match o with
  | OpAcknowledge ack => ack_matches s ack /\ p <= acknowledged_position ack
  | OpEnqueue input =>
      length (records s) = capacity s /\ p = earliest s /\
      exists e, data_loss (sp_step o s) = Some e /\
                first_lost_position e <= p /\ last_lost_position e = p
  | _ => False
  end.
Proof.
  intros Hw Hn Hin Hout. pose proof (wf_window _ Hw) as Hc.
  destruct o as [input|ident session|ident session|ack|]; cbn [sp_step sp_enqueue sp_mark_offered
    sp_mark_transport_published sp_acknowledge sp_rotate_stream_epoch MemoryCloudLinkSpool] in *.
  - destruct (enqueue input s) as [s' res] eqn:E.
    destruct (enqueue_cases _ _ _ _ Hw Hn E) as [[-> _]|(_ & _ & -> & _)]; [done|].
    by apply enqueued_removes.
  - destruct (mark_offered ident session s) as [s' res] eqn:E.
    destruct (mark_offered_cases _ _ _ _ _ E) as [[-> _]|[-> _]]; [done|].
    simpl in Hout. by rewrite bt_alter_keys in Hout.
  - destruct (mark_transport_published ident session s) as [s' res] eqn:E.
    destruct (mark_transport_published_cases _ _ _ _ _ E) as [[-> _]|[-> _]]; [done|].
    simpl in Hout. by rewrite bt_alter_keys in Hout.
  - destruct (acknowledge ack s) as [s' res] eqn:E.
    destruct (acknowledge_cases _ _ _ _ Hw E) as [[-> _]|(Hm & -> & _)]; [done|]. split; [done|].
    by apply (acked_removes s ack p).
  - destruct (rotate_stream_epoch s) as [s' res] eqn:E.
    destruct (rotate_cases _ _ _ E) as [[-> _]|(He & _)]; [done|].
    rewrite He in Hin. by apply not_elem_of_nil in Hin.
Qed.

Lemma find_batch_app id rs kv :
  id ∉ (batch_id <$> bt_values rs) -> batch_id kv.2 = id ->
  find_batch id (rs ++ [kv]) = Some kv.2.
Proof.
  intros Hn Hk. unfold find_batch, bt_values in *. induction rs as [|kv' rs IH]; simpl.
  - by rewrite bool_decide_eq_true_2.
  - simpl in Hn. apply not_elem_of_cons in Hn as [Hne Hn].
    rewrite bool_decide_eq_false_2 by congruence. by apply IH.
Qed.

(** C36. Enqueue is idempotent and fails closed: once an enqueue returned a
    record, repeating it returns the same record and changes nothing, and the
    same batch identity with another digest, kind or payload is refused as a
    conflict, also without any change. *)
Theorem enqueue_idempotent s input s1 r input' :
  wf s -> next_position s < u64_max -> enqueue input s = (s1, Ok r) ->
  enqueue input s1 = (s1, Ok r) /\
  (validate_enqueue input' = Ok tt -> in_batch_id input' = in_batch_id input ->
   same_content r input' = false -> enqueue input' s1 = (s1, Err ConflictingIdentity)).
Proof.
  intros Hw Hn He.
  assert (validate_enqueue input = Ok tt /\ find_batch (in_batch_id input) (records s1) = Some r /\
          same_content r input = true) as (Hv & Hf & Hs).
  { destruct (validate_enqueue input) as [[]|e|] eqn:Hv;
      [|by unfold enqueue in He; rewrite st_bind_lift, Hv in He..].
    destruct (find_batch (in_batch_id input) (records s)) as [r0|] eqn:Hf.
    - unfold enqueue in He. rewrite st_bind_lift, Hv in He. unfold st_bind, st_get in He. rewrite Hf in He.
      destruct (same_content r0 input) eqn:Hs; [|done]. unfold st_ret in He. simplify_eq. done.
    - rewrite (enqueue_fresh s input Hw Hv Hf Hn) in He. apply pair_eq in He as [<- Hr].
      apply Ok_inj in Hr as <-. split_and!; [done| |].
      + apply find_batch_app; [|done]. pose proof (find_batch_none _ _ Hf) as Hnb.
        destruct (_ =? _)%nat; [|done]. destruct (records s); [done|]. simpl in *.
        by apply not_elem_of_cons in Hnb as [_ ?].
      + unfold same_content. simpl. by rewrite !bool_decide_eq_true_2. }
  unfold enqueue, st_bind, st_lift, st_get. split.
  - by rewrite Hv, Hf, Hs.
  - intros -> -> Hc. by rewrite Hf, Hc.
Qed.

(** C35. An applied receipt matched a retained record in stream, epoch, offered
    session, batch and digest and lies beyond every earlier receipt; it
    removes at least that record, keeps exactly the later positions and moves
    the acknowledged cursor to its own position; the same receipt again is a
    duplicate that changes nothing. *)
Theorem acknowledge_applied s ack s' n :
  wf s -> acknowledge ack s = (s', Ok (Applied n)) ->
  ack_matches s ack /\ (0 < n)%nat /\ records s' = drop n (records s) /\
  (forall p, p ∈ (records s').*1 <-> p ∈ (records s).*1 /\ acknowledged_position ack < p) /\
  last_acknowledged_position s' = acknowledged_position ack /\
  acknowledge ack s' = (s', Ok Duplicate).
Proof.
  intros Hw Ha. destruct (acknowledge_cases _ _ _ _ Hw Ha) as [[_ [[? ?]|?]]|(Hm & -> & Hn)]; [done..|].
  simplify_eq. pose proof Hm as (_ & _ & _ & r & Hr & _). pose proof (wf_window _ Hw) as Hc.
  pose proof (Forall_elem (contig_keys _ _ Hc) Hr) as Hpos. simpl in Hpos.
  split_and!; [done|lia|done| |done|].
  - intros p. split.
    + intros (kv & -> & Hk)%list_elem_of_fmap. split.
      * apply list_elem_of_fmap. exists kv. split; [done|]. simpl in Hk.
        rewrite <- (take_drop (Z.to_nat (acknowledged_position ack + 1 - window_start s)) (records s)).
        apply elem_of_app. by right.
      * pose proof (wf_window _ (acked_wf _ _ Hw Hm)) as Hc'.
        pose proof (Forall_elem (contig_keys _ _ Hc') Hk) as Hk'. simpl in Hk'.
        pose proof (wf_acked _ (acked_wf _ _ Hw Hm)). simpl in *. lia.
    + intros [Hin Hlt]. destruct (decide (p ∈ (records (acked s ack)).*1)) as [|Hout]; [done|].
      pose proof (acked_removes s ack p Hw Hin Hout). lia.
  - unfold acknowledge in Ha |- *. rewrite st_bind_lift in Ha |- *.
    destruct (validate_session (ack_session ack)); [|done..]. unfold st_bind, st_get. simpl.
    by rewrite bool_decide_eq_true_2.
Qed.

(** *** Witnesses: a stream of capacity two that receives three batches *)

Definition sha_a : string :=
  "sha256:aaaaaaaaaaaaaaaaaaaaaaaaaaaaaaaaaaaaaaaaaaaaaaaaaaaaaaaaaaaaaaaa".
Definition sha_b : string :=
  "sha256:bbbbbbbbbbbbbbbbbbbbbbbbbbbbbbbbbbbbbbbbbbbbbbbbbbbbbbbbbbbbbbbb".
Definition batch (id : string) : CloudLinkEnqueue := mkEnqueue TelemetryBatch id sha_a [123; 125] 1 None.
Definition empty_spool : CloudLinkSpoolState := mkSpool "telemetry" 1 1 2 [] None 0 None.
Definition demo_session : CloudLinkSessionBinding := mkSession "session-1" 4.
Definition demo_id (p : Z) : CloudLinkRecordIdentity := mkIdentity "telemetry" 1 p.
Definition demo_ack : CloudLinkDurableAck := mkAck demo_session "telemetry" 1 2 "b2" sha_a "r-1".

Lemma empty_spool_wf : wf empty_spool.
Proof. by apply (spool_new_wf "telemetry" 2). Qed.

Lemma run_wf ops s :
  wf s -> next_position s + Z.of_nat (length ops) <= u64_max -> wf (sp_run ops s).
Proof. exact (@sp_run_inv _ _ MemoryCloudLinkSpool_laws ops s). Qed.

Definition three_batches : list SpoolOp :=
  [OpEnqueue (batch "b1"); OpEnqueue (batch "b2"); OpEnqueue (batch "b3");
   OpOffered (demo_id 2) demo_session].
Definition full_spool : CloudLinkSpoolState := sp_run three_batches empty_spool.

Lemma full_spool_wf : wf full_spool.
Proof. apply run_wf; [apply empty_spool_wf|by vm_compute]. Qed.

Lemma no_silent_loss_witness :
  exists w, replay_from 1 10 full_spool = Ok w /\ window_records w = [] /\ window_data_loss w <> None.
Proof.
  destruct (no_silent_loss empty_spool three_batches 1 10) as (w & Hw & Hcase);
    [exact empty_spool_wf|by vm_compute|by vm_compute|lia|].
  exists w. split; [exact Hw|]. destruct Hcase as [[Hl _]|(Hr & e & He & _)].
  - exfalso. vm_compute in Hw. simplify_eq/=.
  - split; [exact Hr|]. by rewrite He.
Defined.

Lemma removal_authority_witness :
  1 ∈ (records (sp_run (take 2 three_batches) empty_spool)).*1 /\
  length (records (sp_run (take 2 three_batches) empty_spool)) = 2%nat.
Proof.
  assert (1 ∈ (records (sp_run (take 2 three_batches) empty_spool)).*1) as Hin by by_decide.
  split; [exact Hin|].
  exact (proj1 (removal_authority (sp_run (take 2 three_batches) empty_spool) (OpEnqueue (batch "b3")) 1
    (run_wf (take 2 three_batches) empty_spool empty_spool_wf ltac:(by vm_compute))
    ltac:(by vm_compute) Hin ltac:(by_decide))).
Defined.

Lemma enqueue_idempotent_witness :
  let s1 := (enqueue (batch "b1") empty_spool).1 in
  enqueue (mkEnqueue TelemetryBatch "b1" sha_b [123; 125] 1 None) s1 = (s1, Err ConflictingIdentity).
Proof.
  intros s1.
  destruct (enqueue_idempotent empty_spool (batch "b1") s1
    (from_enqueue (demo_id 1) (batch "b1")) (mkEnqueue TelemetryBatch "b1" sha_b [123; 125] 1 None)
    empty_spool_wf) as [_ H]; [by vm_compute|by vm_compute|].
  apply H; by vm_compute.
Defined.

Lemma acknowledge_applied_witness :
  records (acknowledge demo_ack full_spool).1 = drop 1 (records full_spool) /\
  acknowledge demo_ack (acknowledge demo_ack full_spool).1 =
    ((acknowledge demo_ack full_spool).1, Ok Duplicate).
Proof.
  destruct (acknowledge_applied full_spool demo_ack (acknowledge demo_ack full_spool).1 1 full_spool_wf)
    as (_ & _ & Hr & _ & _ & Hd); [by vm_compute|].
  exact (conj Hr Hd).
Defined.
