(* ===== verification/Journal.v ===== *)
(** * Framed journals

    The record framing shared by the file-backed stores of
    [extensions/store-local/src]: an 8-byte magic, then frames of a 32-bit
    little-endian length, the payload and its CRC-32. A tail shorter than the
    frame it announces is a torn append and is cut off; a bad length, checksum
    or payload is corruption. Entry encoding is [serde_json], a library: it is
    the pair [enc]/[dec] of the section, with its round trip as hypothesis. *)

From S2P Require Import Prelude.

(** ** CRC-32 *)

Definition crc32_bit (crc : Z) : Z :=
  let mask := wrap 32 (0 - Z.land crc 1) in
  Z.lxor (Z.shiftr crc 1) (Z.land 0xedb88320 mask).

Definition crc32_byte (crc byte : Z) : Z := Nat.iter 8 crc32_bit (Z.lxor crc byte).

Definition crc32 (bytes : list Z) : Z := bit_not 32 (foldl crc32_byte u32_max bytes).

(** The check value of the standard, ["123456789"]. *)
Example crc32_check : crc32 [49; 50; 51; 52; 53; 54; 55; 56; 57] = 0xCBF43926.
Proof. reflexivity. Qed.

Lemma fits_lxor n x y : 0 <= n -> fits n x -> fits n y -> fits n (Z.lxor x y).
Proof.
  intros Hn Hx Hy. apply testbit_fits; [done|apply Z.lxor_nonneg; unfold fits in *; lia|].
  intros i Hi. by rewrite Z.lxor_spec, !(fits_testbit n) by (lia || done).
Qed.

Lemma fits_mono n m z : 0 <= n <= m -> fits n z -> fits m z.
Proof.
  intros Hnm [Hz Hlt]. split; [done|]. apply Z.lt_le_trans with (2 ^ n); [done|].
  apply Z.pow_le_mono_r; lia.
Qed.

Lemma crc32_bit_fits crc : fits 32 crc -> fits 32 (crc32_bit crc).
Proof.
  intros Hc. unfold crc32_bit. apply fits_lxor; [lia| |].
  - unfold fits in *. rewrite Z.shiftr_div_pow2 by lia. change (2 ^ 1) with 2.
    split; [apply Z.div_pos; lia|]. apply Z.div_lt_upper_bound; lia.
  - apply fits_land_l; [lia|]. by_decide.
Qed.

Lemma crc32_iter_fits n crc : fits 32 crc -> fits 32 (Nat.iter n crc32_bit crc).
Proof. intros Hc. induction n; simpl; auto using crc32_bit_fits. Qed.

Lemma crc32_fits bytes : Forall (fits 8) bytes -> fits 32 (crc32 bytes).
Proof.
  intros Hb. unfold crc32, bit_not. apply fits_lxor; [lia| |by_decide].
  assert (forall acc, fits 32 acc -> fits 32 (foldl crc32_byte acc bytes)) as H; [|apply H; by_decide].
  induction Hb as [|b bytes Hfb _ IH]; intros acc Ha; [done|]. cbn [foldl]. apply IH.
  apply crc32_iter_fits. apply fits_lxor; [lia|done|]. apply (fits_mono 8); [lia|done].
Qed.

(** ** Frames *)

Definition MAX_JOURNAL_RECORD_BYTES : Z := 2097152.

Inductive JournalError := JCorrupt | JTooLarge.

Section Frames.
Context {E A : Type}.
(** [serde_json::to_vec] and [serde_json::from_slice]. *)
Variable enc : E -> list Z.
Variable dec : list Z -> option E.
(** The effect of one entry on the state under recovery. *)
Variable apply : E -> A -> outcome JournalError A.

Definition frame (payload : list Z) : list Z :=
  to_le 4 (Z.of_nat (length payload)) ++ payload ++ to_le 4 (crc32 payload).

(** [write_entry]: the bytes appended for an entry. *)
Definition write_entry (entry : E) : outcome JournalError (list Z) :=
  let payload := enc entry in
  if (length payload =? 0)%nat || (MAX_JOURNAL_RECORD_BYTES <? Z.of_nat (length payload)) then Err JTooLarge
  else if negb (Z.of_nat (length payload) <? 2 ^ 32) then Err JTooLarge
  else Ok (frame payload).

(** Entries written one after the other into an empty file. *)
Fixpoint write_entries (entries : list E) : outcome JournalError (list Z) :=
  match entries with
  | [] => Ok []
  | e :: es =>
      let? b := write_entry e in
      let? bs := write_entries es in
      Ok (b ++ bs)
  end.

(** The loop of [recover] on the bytes after the magic: the state reached and
    the number of bytes kept; fuel is the number of bytes left. *)
Fixpoint recover_loop (fuel : nat) (rest : list Z) (kept : nat) (a : A) : outcome JournalError (A * nat) :=
  match fuel with
  | O => Ok (a, kept)
  | S fuel' =>
      if (length rest =? 0)%nat then Ok (a, kept)
      else if (length rest <? 4)%nat then Ok (a, kept)
      else
        let len := Z.to_nat (from_le (take 4 rest)) in
        let rest' := drop 4 rest in
        if (len =? 0)%nat || (MAX_JOURNAL_RECORD_BYTES <? Z.of_nat len) then Err JCorrupt
        else if (length rest' <? len + 4)%nat then Ok (a, kept)
        else
          let payload := take len rest' in
          let crc := from_le (take 4 (drop len rest')) in
          if negb (crc32 payload =? crc) then Err JCorrupt
          else match dec payload with
               | None => Err JCorrupt
               | Some entry =>
                   let? a' := apply entry a in
                   recover_loop fuel' (drop (len + 4) rest') (kept + (4 + (len + 4))) a'
               end
  end.

Fixpoint apply_all (entries : list E) (a : A) : outcome JournalError A :=
  match entries with
  | [] => Ok a
  | e :: es => let? a' := apply e a in apply_all es a'
  end.

Lemma write_entry_no_panic e : write_entry e <> Panic.
Proof. unfold write_entry. by repeat split_if. Qed.

Lemma write_entries_no_panic es : write_entries es <> Panic.
Proof.
  induction es as [|e es IH]; simpl; [done|].
  destruct (write_entry e) eqn:He; simpl; [|done|by apply write_entry_no_panic in He].
  by destruct (write_entries es).
Qed.

(** *** Round trip and torn tails *)

(** What the code relies on of the encoder. *)
Hypothesis dec_enc : forall e, dec (enc e) = Some e.
Hypothesis enc_bytes : forall e, Forall (fits 8) (enc e).

Lemma apply_all_app es es' a :
  apply_all (es ++ es') a = let? a' := apply_all es a in apply_all es' a'.
Proof.
  revert a. induction es as [|e es IH]; intros a; [done|]. simpl.
  destruct (apply e a); simpl; [apply IH|done..].
Qed.

Lemma write_entries_app es es' b b' :
  write_entries es = Ok b -> write_entries es' = Ok b' -> write_entries (es ++ es') = Ok (b ++ b').
Proof.
  revert b. induction es as [|e es IH]; intros b Hb Hb'; simpl in *; [by simplify_eq|].
  apply obind_ok in Hb as (f & Hf & (fs & Hfs & Hk)%obind_ok). apply Ok_inj in Hk as <-.
  rewrite Hf. simpl. rewrite (IH fs) by done. simpl. by rewrite app_assoc.
Qed.

Lemma write_entry_ok e f :
  write_entry e = Ok f ->
  f = frame (enc e) /\ (0 < length (enc e))%nat /\ Z.of_nat (length (enc e)) <= MAX_JOURNAL_RECORD_BYTES.
Proof.
  unfold write_entry. split_if; [done|]. split_if; [done|]. intros <-%Ok_inj. split; [done|].
  bool_facts. lia.
Qed.

Lemma max_fits n : Z.of_nat n <= MAX_JOURNAL_RECORD_BYTES -> fits 32 (Z.of_nat n).
Proof. unfold MAX_JOURNAL_RECORD_BYTES, fits. lia. Qed.

Lemma frame_length p : length (frame p) = (4 + (length p + 4))%nat.
Proof. unfold frame. rewrite !length_app, !to_le_length. lia. Qed.

(** A complete frame is read back and applied. *)
Lemma recover_frame fuel e f rest kept a :
  write_entry e = Ok f ->
  recover_loop (S fuel) (f ++ rest) kept a =
  let? a' := apply e a in recover_loop fuel rest (kept + length f) a'.
Proof.
  intros (-> & Hpos & Hmax)%write_entry_ok. pose proof (max_fits _ Hmax) as Hfit.
  rewrite frame_length. cbn [recover_loop].
  assert (length (frame (enc e) ++ rest) = 4 + (length (enc e) + 4) + length rest)%nat as Hlen
    by (rewrite length_app, frame_length; done).
  rewrite Hlen. replace (_ =? 0)%nat with false by lia. replace (_ <? 4)%nat with false by lia.
  assert (take 4 (frame (enc e) ++ rest) = to_le 4 (Z.of_nat (length (enc e)))) as ->.
  { unfold frame. rewrite <- app_assoc. by rewrite take_app_length' by (by rewrite to_le_length). }
  rewrite from_to_le_fits, Nat2Z.id by exact Hfit.
  replace ((length (enc e) =? 0)%nat || (MAX_JOURNAL_RECORD_BYTES <? Z.of_nat (length (enc e)))) with false by lia.
  assert (drop 4 (frame (enc e) ++ rest) = enc e ++ to_le 4 (crc32 (enc e)) ++ rest) as ->.
  { unfold frame. rewrite <- !app_assoc. by rewrite drop_app_length' by (by rewrite to_le_length). }
  rewrite !length_app, to_le_length. replace (_ <? length (enc e) + 4)%nat with false by lia.
  rewrite take_app_length, drop_app_length, take_app_length' by (by rewrite to_le_length).
  rewrite from_to_le_fits by (apply crc32_fits, enc_bytes).
  rewrite Z.eqb_refl. cbn [negb]. rewrite dec_enc.
  assert (drop (length (enc e) + 4) (enc e ++ to_le 4 (crc32 (enc e)) ++ rest) = rest) as ->; [|done].
  rewrite app_assoc, drop_app_length'; [done|]. by rewrite length_app, to_le_length.
Qed.

(** A strict prefix of a frame is a torn tail. *)
Lemma recover_torn fuel e f k kept a :
  write_entry e = Ok f -> (k < length f)%nat -> recover_loop fuel (take k f) kept a = Ok (a, kept).
Proof.
  intros (-> & Hpos & Hmax)%write_entry_ok. pose proof (max_fits _ Hmax) as Hfit.
  rewrite frame_length. intros Hk. destruct fuel as [|fuel]; [done|]. cbn [recover_loop].
  rewrite length_take, frame_length. destruct (Nat.eqb_spec (k `min` (4 + (length (enc e) + 4))) 0); [done|].
  destruct (Nat.ltb_spec (k `min` (4 + (length (enc e) + 4))) 4); [done|].
  rewrite take_take, Nat.min_l by lia.
  assert (take 4 (frame (enc e)) = to_le 4 (Z.of_nat (length (enc e)))) as ->
    by (unfold frame; by rewrite take_app_length' by (by rewrite to_le_length)).
  rewrite from_to_le_fits, Nat2Z.id by exact Hfit.
  replace ((length (enc e) =? 0)%nat || (MAX_JOURNAL_RECORD_BYTES <? Z.of_nat (length (enc e)))) with false by lia.
  rewrite length_drop, length_take, frame_length. by replace (_ <? length (enc e) + 4)%nat with true by lia.
Qed.

(** A journal followed by a possibly torn append recovers the entries before
    it, and the entries with it exactly when it is complete. *)
Lemma recover_entries es bytes tail fuel kept a :
  write_entries es = Ok bytes -> (length bytes + length tail <= fuel)%nat ->
  exists fuel', (length tail <= fuel')%nat /\
  recover_loop fuel (bytes ++ tail) kept a =
  let? a' := apply_all es a in recover_loop fuel' tail (kept + length bytes) a'.
Proof.
  revert bytes fuel kept a. induction es as [|e es IH]; intros bytes fuel kept a Hb Hf; simpl in Hb.
  - apply Ok_inj in Hb as <-. exists fuel. simpl in *. by rewrite Nat.add_0_r.
  - apply obind_ok in Hb as (f & He & (bs & Hbs & Hk)%obind_ok). apply Ok_inj in Hk as <-.
    pose proof He as (-> & Hpos & _)%write_entry_ok. rewrite length_app, frame_length in *.
    destruct fuel as [|fuel]; [lia|]. rewrite <- app_assoc, (recover_frame fuel e) by done.
    destruct (apply e a) as [a'|err|] eqn:Ea; cbn [apply_all obind]; rewrite ?Ea; cbn [obind];
      [|exists (length tail); split; [lia|done]..].
    destruct (IH bs fuel (kept + length (frame (enc e)))%nat a' Hbs) as (fuel' & Hf' & ->); [lia|].
    exists fuel'. split; [done|]. rewrite frame_length.
    by replace (kept + (4 + (length (enc e) + 4) + length bs))%nat
      with (kept + (4 + (length (enc e) + 4)) + length bs)%nat by lia.
Qed.

Lemma recover_journal es bytes kept a a' :
  write_entries es = Ok bytes -> apply_all es a = Ok a' ->
  recover_loop (length bytes) bytes kept a = Ok (a', (kept + length bytes)%nat).
Proof.
  intros Hb Ha. destruct (recover_entries es bytes [] (length bytes) kept a Hb) as (fuel' & _ & Hr);
    [simpl; lia|]. rewrite app_nil_r in Hr. rewrite Hr, Ha. by destruct fuel'.
Qed.

Lemma recover_journal_torn es bytes e f k kept a a' :
  write_entries es = Ok bytes -> apply_all es a = Ok a' -> write_entry e = Ok f -> (k < length f)%nat ->
  recover_loop (length (bytes ++ take k f)) (bytes ++ take k f) kept a =
    Ok (a', (kept + length bytes)%nat).
Proof.
  intros Hb Ha He Hk.
  destruct (recover_entries es bytes (take k f) (length (bytes ++ take k f)) kept a Hb) as (fuel' & _ & ->);
    [rewrite length_app; lia|].
  rewrite Ha. simpl. by apply (recover_torn _ e).
Qed.

End Frames.
