(* ===== verification/Codec.v ===== *)
(** * A concrete byte codec

    The stores encode their journal entries with [serde_json], which the models
    keep as a parameter with its round trip as hypothesis. This file builds
    self-delimiting codecs from combinators, so the hypothesis is shown to be
    satisfiable and the models run on concrete files. It stands for no code of
    the repository. *)

From S2P Require Import Prelude.

(** A decoder returns the value and the bytes it did not use. *)
Class Codec (A : Type) := {
  cenc : A -> list Z;
  cdec : nat -> list Z -> option (A * list Z);
  cdec_enc a rest fuel : (length (cenc a) <= fuel)%nat -> cdec fuel (cenc a ++ rest) = Some (a, rest);
  cenc_bytes a : Forall (fits 8) (cenc a)
}.

(** Bits, least significant first, closed by [2]. *)
Fixpoint enc_pos (p : positive) : list Z :=
  match p with xH => [2] | xO p => 0 :: enc_pos p | xI p => 1 :: enc_pos p end.

Fixpoint dec_pos (bs : list Z) : option (positive * list Z) :=
  match bs with
  | [] => None
  | b :: bs =>
      if b =? 2 then Some (xH, bs)
      else match dec_pos bs with
           | Some (p, r) => Some (if b =? 0 then xO p else xI p, r)
           | None => None
           end
  end.

#[export] Program Instance pos_codec : Codec positive := {|
  cenc := enc_pos; cdec _ bs := dec_pos bs |}.
Next Obligation. intros p rest fuel _. induction p; simpl; rewrite ?IHp; done. Qed.
Next Obligation. intros p. induction p; simpl; repeat constructor; done || by_decide. Qed.

Section Iso.
Context {A B : Type} `{Codec B} (f : A -> B) (g : B -> option A) (Hgf : forall a, g (f a) = Some a).

(** Encodes [A] through [B]. *)
Definition iso_dec (fuel : nat) (bs : list Z) : option (A * list Z) :=
  '(b, r) ← cdec fuel bs; a ← g b; Some (a, r).

Program Definition iso_codec : Codec A := {|
  cenc a := cenc (f a);
  cdec := iso_dec
|}.
Next Obligation. unfold iso_dec. simpl. intros a rest fuel Hf. rewrite (cdec_enc (f a)) by done. simpl. by rewrite Hgf. Qed.
Next Obligation. intros a. apply cenc_bytes. Qed.

End Iso.

#[export] Instance Z_codec : Codec Z.
Proof.
  refine (iso_codec (fun z => match z with Z0 => xH | Zpos p => xO p | Zneg p => xI p end)
            (fun p => Some match p with xH => Z0 | xO p => Zpos p | xI p => Zneg p end) _).
  by intros [].
Defined.

#[export] Instance nat_codec : Codec nat.
Proof. refine (iso_codec Z.of_nat (fun z => Some (Z.to_nat z)) _). intros n. by rewrite Nat2Z.id. Defined.

Definition prod_dec {A B} `{Codec A, Codec B} (fuel : nat) (bs : list Z) : option (A * B * list Z) :=
  '(a, r) ← cdec fuel bs; '(b, r) ← cdec fuel r; Some ((a, b), r).

#[export] Program Instance prod_codec {A B} `{Codec A, Codec B} : Codec (A * B) := {|
  cenc p := cenc p.1 ++ cenc p.2;
  cdec := prod_dec
|}.
Next Obligation.
  unfold prod_dec.
  intros A B HA HB [a b] rest fuel Hf. simpl in *. rewrite length_app in Hf.
  rewrite <- app_assoc, (cdec_enc a) by lia. simpl. by rewrite (cdec_enc b) by lia.
Qed.
Next Obligation. intros A B HA HB [a b]. apply Forall_app_2; apply cenc_bytes. Qed.

Definition sum_dec {A B} `{Codec A, Codec B} (fuel : nat) (bs : list Z) : option ((A + B) * list Z) :=
  match bs with
  | [] => None
  | tag :: bs => if tag =? 0 then '(a, r) ← cdec fuel bs; Some (inl a, r)
                 else '(b, r) ← cdec fuel bs; Some (inr b, r)
  end.
Definition sum_enc {A B} `{Codec A, Codec B} (s : A + B) : list Z :=
  match s with inl a => 0 :: cenc a | inr b => 1 :: cenc b end.

#[export] Program Instance sum_codec {A B} `{Codec A, Codec B} : Codec (A + B) := {|
  cenc := sum_enc;
  cdec := sum_dec
|}.
Next Obligation. unfold sum_dec, sum_enc. intros A B HA HB [a|b] rest fuel Hf; simpl in *;
  [by rewrite (cdec_enc a) by lia|by rewrite (cdec_enc b) by lia]. Qed.
Next Obligation. intros A B HA HB [a|b]; constructor; (apply cenc_bytes || by_decide). Qed.

#[export] Instance unit_codec : Codec unit.
Proof. refine (iso_codec (fun _ => xH) (fun _ => Some tt) _). by intros []. Defined.

#[export] Instance option_codec {A} `{Codec A} : Codec (option A).
Proof.
  refine (iso_codec (fun o => match o with Some a => inl a | None => inr tt end)
            (fun s => Some match s with inl a => Some a | inr _ => None end) _).
  by intros [].
Defined.

(** Each element behind a [1], the end a [0]. *)
Fixpoint dec_list {A} `{Codec A} (fuel : nat) (bs : list Z) : option (list A * list Z) :=
  match fuel, bs with
  | S fuel, tag :: bs =>
      if tag =? 0 then Some ([], bs)
      else '(a, r) ← cdec fuel bs; '(l, r) ← dec_list fuel r; Some (a :: l, r)
  | _, _ => None
  end.

#[export] Program Instance list_codec {A} `{Codec A} : Codec (list A) := {|
  cenc l := foldr (fun a acc => 1 :: cenc a ++ acc) [0] l;
  cdec := dec_list
|}.
Next Obligation.
  intros A HA l rest fuel. revert fuel. induction l as [|a l IH]; intros [|fuel] Hf; simpl in *; try lia; [done|].
  rewrite length_app in Hf. rewrite <- app_assoc, (cdec_enc a) by lia. simpl. by rewrite IH by lia.
Qed.
Next Obligation.
  intros A HA l. induction l as [|a l IH]; simpl.
  - constructor; [by_decide|constructor].
  - constructor; [by_decide|]. apply Forall_app_2; [apply cenc_bytes|done].
Qed.

#[export] Instance ascii_codec : Codec Ascii.ascii.
Proof.
  refine (iso_codec Ascii.nat_of_ascii (fun n => Some (Ascii.ascii_of_nat n)) _).
  intros a. by rewrite Ascii.ascii_nat_embedding.
Defined.

#[export] Instance string_codec : Codec string.
Proof.
  refine (iso_codec String.list_ascii_of_string (fun l => Some (String.string_of_list_ascii l)) _).
  intros s. by rewrite String.string_of_list_ascii_of_string.
Defined.

(** The two halves in the shape the stores use them. *)
Definition to_vec {A} `{Codec A} (a : A) : list Z := cenc a.
Definition from_slice {A} `{Codec A} (bs : list Z) : option A := fst <$> cdec (length bs) bs.

Lemma from_slice_to_vec {A} `{Codec A} (a : A) : from_slice (to_vec a) = Some a.
Proof.
  unfold from_slice, to_vec. pose proof (cdec_enc a [] (length (cenc a)) ltac:(done)) as Hd.
  rewrite app_nil_r in Hd. by rewrite Hd.
Qed.

Lemma to_vec_bytes {A} `{Codec A} (a : A) : Forall (fits 8) (to_vec a).
Proof. apply cenc_bytes. Qed.
