(* ===== verification/FileSpool.v ===== *)
(** * The file-backed CloudLink spool

    [extensions/store-local/src/file_cloudlink_spool.rs]: the in-memory state
    of [Spool] plus an incremental journal from which it is recovered after a
    crash. The file is its bytes; rename is taken as the operating system
    documents it. Which system call of a mutation fails is an argument of the call
    ([IoFaults]): a write may stop after any number of bytes, and a failure between
    the rename of a compacted file and its adoption leaves the process on the old,
    unlinked file ([f_path]). The calls of [open] are taken to succeed. *)

From S2P Require Import Prelude BTree Spool Journal Codec.

(** ** Data *)

Inductive JournalEntry :=
| JCheckpoint (id : string) (epoch next : Z) (cap : nat) (ack : option CloudLinkDurableAck)
              (acked : Z) (loss : option CloudLinkDataLossEvidence)
| JRecord (record : CloudLinkRecord)
| JEnqueued (record : CloudLinkRecord) (next : Z) (loss : option CloudLinkDataLossEvidence)
| JOffered (ident : CloudLinkRecordIdentity) (session : CloudLinkSessionBinding)
| JTransportPublished (ident : CloudLinkRecordIdentity) (session : CloudLinkSessionBinding)
| JAcknowledged (ack : CloudLinkDurableAck)
| JRotated (epoch : Z)
| JCapacity (cap : nat).

(** The bytes of [MAGIC], ["AETHCL2\n"]. *)
Definition MAGIC : list Z := [65; 69; 84; 72; 67; 76; 50; 10].
Definition COMPACT_AFTER_MUTATIONS : nat := 256.

(** The bytes of the open file, and those at the path if another file is there. *)
Record FileState := mkFileState {
  f_bytes : list Z;
  f_state : CloudLinkSpoolState;
  f_mutations : nat;
  f_path : option (list Z)
}.

(** What a restart finds at the path. *)
Definition on_path (f : FileState) : list Z := default (f_bytes f) (f_path f).

(** The system call of an append that fails: the seek, a write after some bytes,
    the sync. *)
Inductive AppendFault := AppendOk | AppendSeekFails | AppendWriteFails (written : nat) | AppendSyncFails.

(** That of a compaction: one up to the rename, the seek after it, or the sync of
    the directory. *)
Inductive CompactFault := CompactOk | CompactFails | CompactSeekFails | CompactSyncFails.

Record IoFaults := mkFaults { io_compact : CompactFault; io_append : AppendFault }.
Definition no_faults : IoFaults := mkFaults CompactOk AppendOk.

(** State of the recovery loop: [state], [mutations], [mutations_started]. *)
Record Recovery := mkRecovery {
  rec_state : option CloudLinkSpoolState;
  rec_mutations : nat;
  rec_started : bool
}.

(** ** Recovery *)

Definition validate_persisted_record (s : CloudLinkSpoolState) (r : CloudLinkRecord)
  : outcome JournalError unit :=
  ensure (bool_decide (id_stream_id (identity r) = stream_id s) &&
          (id_stream_epoch (identity r) =? stream_epoch s) && (0 <? id_position (identity r)) &&
          negb (String.length (batch_id r) =? 0)%nat && (String.length (batch_id r) <=? 128)%nat &&
          valid_digest (digest r) && negb (length (payload r) =? 0)%nat &&
          (length (payload r) <=? MAX_SPOOL_PAYLOAD_BYTES)%nat &&
          match expires_at r with Some e => created_at r <? e | None => true end) JCorrupt.

Definition restore_checkpoint_record (s : CloudLinkSpoolState) (r : CloudLinkRecord)
  : outcome JournalError CloudLinkSpoolState :=
  let? _ := validate_persisted_record s r in
  let position := id_position (identity r) in
  if (next_position s <=? position) || bool_decide (is_Some (bt_get position (records s)))
  then Err JCorrupt
  else
    let s' := with_records (bt_insert position r (records s)) s in
    if (capacity s' <? length (records s'))%nat then Err JCorrupt else Ok s'.

Definition apply_enqueued (s : CloudLinkSpoolState) (r : CloudLinkRecord) (next : Z)
    (loss : option CloudLinkDataLossEvidence) : outcome JournalError CloudLinkSpoolState :=
  let? _ := validate_persisted_record s r in
  if negb (bool_decide (delivery_state r = Queued)) || bool_decide (is_Some (offered_session r)) ||
     negb (id_position (identity r) =? next_position s) ||
     negb (next =? default 0 (checked_add 64 (next_position s) 1))
  then Err JCorrupt
  else
    let? rs := if (length (records s) =? capacity s)%nat
               then let? first := ok_or JCorrupt (first_key (records s)) in
                    Ok (bt_remove first (records s))
               else Ok (records s) in
    Ok (with_loss loss (with_next next
          (with_records (bt_insert (id_position (identity r)) r rs) s))).

(** [map_err(|error| corrupt(..))] on a method of the state. *)
Definition replayed {A} (m : SpoolM A) (s : CloudLinkSpoolState)
  : outcome JournalError (CloudLinkSpoolState * A) :=
  match m s with
  | (s', Ok a) => Ok (s', a)
  | (_, Err _) => Err JCorrupt
  | (_, Panic) => Panic
  end.

Definition apply_entry (e : JournalEntry) (r : Recovery) : outcome JournalError Recovery :=
  let mutated s' := Ok (mkRecovery (Some s') (S (rec_mutations r)) true) in
  let active := ok_or JCorrupt (rec_state r) in
  match e with
  | JCheckpoint id epoch next cap ack acked loss =>
      if bool_decide (is_Some (rec_state r)) then Err JCorrupt
      else match spool_new id cap with
           | Ok s => Ok (mkRecovery (Some (mkSpool (stream_id s) epoch next (capacity s) (records s)
                                             ack acked loss)) (rec_mutations r) (rec_started r))
           | _ => Err JCorrupt
           end
  | JRecord record =>
      if rec_started r then Err JCorrupt
      else let? s := active in
           let? s' := restore_checkpoint_record s record in
           Ok (mkRecovery (Some s') (rec_mutations r) (rec_started r))
  | JEnqueued record next loss =>
      let? s := active in
      let? s' := apply_enqueued s record next loss in
      mutated s'
  | JOffered ident session =>
      let? s := active in
      let? (s', _) := replayed (mark_offered ident session) s in
      mutated s'
  | JTransportPublished ident session =>
      let? s := active in
      let? (s', _) := replayed (mark_transport_published ident session) s in
      mutated s'
  | JAcknowledged ack =>
      let? s := active in
      let? (s', _) := replayed (acknowledge ack) s in
      mutated s'
  | JRotated epoch =>
      let? s := active in
      let? (s', recovered_epoch) := replayed rotate_stream_epoch s in
      if negb (recovered_epoch =? epoch) then Err JCorrupt else mutated s'
  | JCapacity cap =>
      let? s := active in
      let? (s', _) := replayed (validate_open (stream_id s) cap) s in
      mutated s'
  end.

Definition validate_recovered_state (s : CloudLinkSpoolState) : outcome JournalError unit :=
  let? _ := ensure (negb ((stream_epoch s =? 0) || (next_position s =? 0) || (capacity s =? 0)%nat ||
                          (capacity s <? length (records s))%nat ||
                          (next_position s <=? last_acknowledged_position s))) JCorrupt in
  let? _ := ensure (match last_ack s with
                    | Some a => bool_decide (ack_stream_id a = stream_id s) &&
                                (ack_stream_epoch a =? stream_epoch s) &&
                                (acknowledged_position a =? last_acknowledged_position s)
                    | None => last_acknowledged_position s =? 0
                    end) JCorrupt in
  let? _ := ensure (negb (existsb (fun p => (p <=? last_acknowledged_position s) ||
                                            (next_position s <=? p)) (records s).*1)) JCorrupt in
  ensure (match data_loss s with
          | Some l => negb (negb (bool_decide (loss_stream_id l = stream_id s)) ||
                            negb (loss_stream_epoch l =? stream_epoch s) ||
                            (first_lost_position l =? 0) ||
                            (last_lost_position l <? first_lost_position l) ||
                            (earliest_retained_position l <=? last_lost_position l))
          | None => true
          end) JCorrupt.

(** ** Journal files *)

Definition checkpoint (s : CloudLinkSpoolState) : JournalEntry :=
  JCheckpoint (stream_id s) (stream_epoch s) (next_position s) (capacity s) (last_ack s)
    (last_acknowledged_position s) (data_loss s).

(** The entries of a compacted journal. *)
Definition compacted (s : CloudLinkSpoolState) : list JournalEntry :=
  checkpoint s :: (JRecord <$> bt_values (records s)).

Section File.
(** [serde_json] on [JournalEntry]. *)
Variable enc : JournalEntry -> list Z.
Variable dec : list Z -> option JournalEntry.

(** Journal errors as the port reports them. *)
Definition reason (e : JournalError) : CloudLinkSpoolErrorReason :=
  match e with JCorrupt => CorruptJournal | JTooLarge => Storage end.

Definition as_spool_error {A} (c : outcome JournalError A) : outcome CloudLinkSpoolErrorReason A :=
  match c with Ok a => Ok a | Err e => Err (reason e) | Panic => Panic end.

(** [recover]: the state, the number of mutations replayed and the bytes the
    file keeps after a torn tail is cut. A file shorter than the magic fails to
    read its header, a storage error. *)
Definition recover (bytes : list Z)
  : outcome CloudLinkSpoolErrorReason (CloudLinkSpoolState * nat * list Z) :=
  if (length bytes <? length MAGIC)%nat then Err Storage
  else if negb (bool_decide (take (length MAGIC) bytes = MAGIC)) then Err CorruptJournal
  else
    let rest := drop (length MAGIC) bytes in
    let? (r, kept) := as_spool_error
      (recover_loop dec apply_entry (length rest) rest (length MAGIC) (mkRecovery None 0 false)) in
    let? s := ok_or CorruptJournal (rec_state r) in
    let? _ := as_spool_error (validate_recovered_state s) in
    Ok (s, rec_mutations r, take kept bytes).

Definition write_compacted_journal (s : CloudLinkSpoolState) : outcome CloudLinkSpoolErrorReason (list Z) :=
  let? body := as_spool_error (write_entries enc (compacted s)) in
  Ok (MAGIC ++ body).

(** [append_entry]: the bytes of the file afterwards, and the answer. *)
Definition append_entry (fault : AppendFault) (bytes : list Z) (e : JournalEntry) : list Z * outcome CloudLinkSpoolErrorReason unit :=
  match fault with
  | AppendSeekFails => (bytes, Err Storage)
  | _ =>
      match as_spool_error (write_entry enc e) with
      | Ok f =>
          match fault with
          | AppendWriteFails written => (bytes ++ take written f, Err Storage)
          | AppendSyncFails => (bytes ++ f, Err Storage)
          | _ => (bytes ++ f, Ok tt)
          end
      | Err e => (bytes, Err e)
      | Panic => (bytes, Panic)
      end
  end.

Definition FileM : Type -> Type := ST FileState CloudLinkSpoolErrorReason.

Definition compact_locked (fault : CompactFault) : FileM unit :=
  let! f := st_get in
  let! bytes := st_lift (write_compacted_journal (f_state f)) in
  match fault with
  | CompactOk => st_modify (fun f => mkFileState bytes (f_state f) 0 None)
  | CompactFails => st_fail Storage
  | CompactSeekFails =>
      let! _ := st_modify (fun f => mkFileState (f_bytes f) (f_state f) (f_mutations f) (Some bytes)) in
      st_fail Storage
  | CompactSyncFails =>
      let! _ := st_modify (fun f => mkFileState bytes (f_state f) 0 None) in
      st_fail Storage
  end.

(** [mutate]: the operation runs on a copy; the journal entry is on disk
    before the copy becomes the state. *)
Definition mutate (io : IoFaults) {A} (operation : SpoolM (A * JournalEntry)) : FileM A :=
  let! f := st_get in
  let! _ := if (COMPACT_AFTER_MUTATIONS <=? f_mutations f)%nat then compact_locked (io_compact io) else st_ret tt in
  let! f := st_get in
  let next := (operation (f_state f)).1 in
  let! (result, entry) := st_lift (operation (f_state f)).2 in
  if bool_decide (next = f_state f) then st_ret result
  else
    let (bytes, appended) := append_entry (io_append io) (f_bytes f) entry in
    let! _ := st_modify (fun f => mkFileState bytes (f_state f) (f_mutations f) (f_path f)) in
    let! _ := st_lift appended in
    let! _ := st_modify (fun f => mkFileState bytes next (S (f_mutations f)) (f_path f)) in
    st_ret result.

(** The closures handed to [mutate]: a method of the state and the entry that
    records its effect. *)
Definition with_entry {A} (m : SpoolM A) (entry : A -> CloudLinkSpoolState -> JournalEntry)
  : SpoolM (A * JournalEntry) :=
  let! a := m in
  let! s := st_get in
  st_ret (a, entry a s).
Definition enqueue_op (input : CloudLinkEnqueue) : SpoolM (CloudLinkRecord * JournalEntry) :=
  with_entry (enqueue input) (fun record s => JEnqueued record (next_position s) (data_loss s)).
Definition offered_op ident session : SpoolM (unit * JournalEntry) :=
  with_entry (mark_offered ident session) (fun _ _ => JOffered ident session).
Definition published_op ident session : SpoolM (unit * JournalEntry) :=
  with_entry (mark_transport_published ident session) (fun _ _ => JTransportPublished ident session).
Definition acknowledge_op ack : SpoolM (DurableAckOutcome * JournalEntry) :=
  with_entry (acknowledge ack) (fun _ _ => JAcknowledged ack).
Definition rotate_op : SpoolM (Z * JournalEntry) :=
  with_entry rotate_stream_epoch (fun epoch _ => JRotated epoch).

(** [impl CloudLinkSpool for FileCloudLinkSpool]; [io] says what fails during a call. *)
Definition FileCloudLinkSpool (io : IoFaults) : CloudLinkSpool FileState := {|
  sp_enqueue input := mutate io (enqueue_op input);
  sp_replay_from p limit f := replay_from p limit (f_state f);
  sp_mark_offered ident session := mutate io (offered_op ident session);
  sp_mark_transport_published ident session := mutate io (published_op ident session);
  sp_acknowledge ack := mutate io (acknowledge_op ack);
  sp_status f := status (f_state f);
  sp_rotate_stream_epoch := mutate io rotate_op
|}.

(** [FileCloudLinkSpool::open] on the bytes found at the path. *)
Definition file_open (bytes : list Z) (id : string) (cap : nat)
  : outcome CloudLinkSpoolErrorReason FileState :=
  let? (s, muts, bytes) :=
    if (length bytes =? 0)%nat then
      let? s := spool_new id cap in
      let? bytes := write_compacted_journal s in
      Ok (s, 0%nat, bytes)
    else recover bytes in
  let? changed := (validate_open id cap s).2 in
  let s := (validate_open id cap s).1 in
  let? f := if changed then
              let (bytes, appended) := append_entry AppendOk bytes (JCapacity cap) in
              let? _ := appended in Ok (mkFileState bytes s (S muts) None)
            else Ok (mkFileState bytes s muts None) in
  if (COMPACT_AFTER_MUTATIONS <=? f_mutations f)%nat then
    let? _ := (compact_locked CompactOk f).2 in Ok (compact_locked CompactOk f).1
  else Ok f.

End File.

(** ** Recovery replays the live operations *)

Lemma validate_recovered_wf s : wf s -> validate_recovered_state s = Ok tt.
Proof.
  intros Hw. pose proof (wf_epoch _ Hw). pose proof (wf_acked _ Hw). pose proof (wf_length _ Hw).
  pose proof (capacity_pos _ (wf_capacity _ Hw)). pose proof (wf_loss _ Hw) as Hl.
  pose proof (wf_last_ack _ Hw) as Ha. pose proof (contig_keys _ _ (wf_window _ Hw)) as Hk.
  unfold validate_recovered_state.
  assert (existsb (fun p => (p <=? last_acknowledged_position s) || (next_position s <=? p))
            (records s).*1 = false) as ->.
  { apply not_true_iff_false. intros (p & Hin & Hp)%existsb_exists.
    apply list_elem_of_In, list_elem_of_fmap in Hin as (kv & -> & Hin).
    pose proof (Forall_elem Hk Hin) as Hb. simpl in Hb. unfold window_start in *. lia. }
  replace (negb _) with true; cycle 1.
  { unfold window_start in *. symmetry. lia. }
  cbn [ensure obind negb].
  destruct (last_ack s) as [a|].
  - destruct Ha as (-> & -> & ->). rewrite bool_decide_eq_true_2, !Z.eqb_refl by done. cbn [ensure obind andb].
    destruct (data_loss s) as [l|]; [|done]. destruct Hl as (-> & -> & ? & ? & ?).
    rewrite bool_decide_eq_true_2 by done. unfold ensure. split_if; [done|lia].
  - rewrite Ha. cbn [ensure obind Z.eqb].
    destruct (data_loss s) as [l|]; [|done]. destruct Hl as (-> & -> & ? & ? & ?).
    rewrite bool_decide_eq_true_2 by done. unfold ensure. split_if; [done|lia].
Qed.

Lemma content_persisted s r :
  content_ok r = true -> id_stream_id (identity r) = stream_id s ->
  id_stream_epoch (identity r) = stream_epoch s -> 0 < id_position (identity r) ->
  validate_persisted_record s r = Ok tt.
Proof.
  intros Hc Hid He Hp. unfold content_ok, valid_identifier in Hc. bool_facts.
  unfold validate_persisted_record, ensure. rewrite Hid, He, bool_decide_eq_true_2, Z.eqb_refl by done.
  replace (0 <? id_position (identity r)) with true by lia.
  repeat match goal with H : ?b = true |- context [?b] => rewrite H end.
  replace (negb (String.length (batch_id r) =? 0)%nat) with true by lia.
  replace (negb (length (payload r) =? 0)%nat) with true by lia.
  replace (length (payload r) <=? MAX_SPOOL_PAYLOAD_BYTES)%nat with true by lia. cbn [andb].
  destruct (expires_at r); [|done]. split_if; [done|lia].
Qed.

(** Restoring the records of a compacted journal one by one. *)
Lemma restore_records s pre post :
  wf s -> records s = pre ++ post ->
  apply_all apply_entry (JRecord <$> bt_values post) (mkRecovery (Some (with_records pre s)) 0 false) =
    Ok (mkRecovery (Some s) 0 false).
Proof.
  intros Hw. revert pre. induction post as [|kv post IH]; intros pre Hr.
  - rewrite app_nil_r in Hr. rewrite <- Hr. by destruct s.
  - pose proof (wf_window _ Hw) as Hc. pose proof (wf_length _ Hw) as Hl. pose proof (wf_acked _ Hw) as Ha.
    pose proof (wf_records _ Hw) as Hf. rewrite Hr in Hc, Hl, Hf. rewrite length_app in Hl. cbn [length] in Hl.
    apply contig_app in Hc as [Hpre Hpost]. destruct kv as [k r]. cbn [contig] in Hpost. destruct Hpost as [Hk _].
    apply Forall_app in Hf as [_ Hf]. apply Forall_cons_1 in Hf as [[Hid Hco] _]. cbn [fst snd] in *.
    assert (Forall (fun kv => kv.1 < k) pre) as Hlt.
    { apply (Forall_weaken _ (contig_keys _ _ Hpre)). simpl. lia. }
    assert (k < next_position s).
    { pose proof (f_equal length Hr) as Hlen. rewrite length_app in Hlen. cbn [length] in Hlen.
      unfold window_start in Hk. lia. }
    change (JRecord <$> bt_values ((k, r) :: post)) with (JRecord r :: (JRecord <$> bt_values post)).
    cbn [apply_all apply_entry rec_started rec_state rec_mutations ok_or obind].
    unfold restore_checkpoint_record.
    rewrite (content_persisted (with_records pre s) r Hco) by (rewrite Hid; simpl; done || lia).
    rewrite Hid. cbn [obind id_position with_records records next_position capacity].
    rewrite bt_get_below by done. replace (next_position s <=? k) with false by lia.
    rewrite bool_decide_eq_false_2 by (by intros [? ?]). cbn [orb].
    rewrite bt_insert_last by done. rewrite length_app. cbn [length].
    replace (capacity s <? length pre + 1)%nat with false by lia. cbn [obind].
    apply (IH (pre ++ [(k, r)])). by rewrite <- app_assoc.
Qed.

Lemma apply_compacted s :
  wf s -> apply_all apply_entry (compacted s) (mkRecovery None 0 false) = Ok (mkRecovery (Some s) 0 false).
Proof.
  intros Hw. unfold compacted, checkpoint. cbn [apply_all apply_entry rec_state].
  rewrite bool_decide_eq_false_2 by (by intros [? ?]).
  assert (spool_new (stream_id s) (capacity s) =
          Ok (mkSpool (stream_id s) 1 1 (capacity s) [] None 0 None)) as ->.
  { unfold spool_new, validate_stream_id. by rewrite (wf_id _ Hw), (wf_capacity _ Hw). }
  cbn [obind stream_id capacity records rec_mutations rec_started].
  exact (restore_records s [] (records s) Hw eq_refl).
Qed.

(** What [mutate] needs of a closure: replaying its entry on the old state
    gives the new one, which is well formed. *)
Definition journaled {A} (m : SpoolM A) (entry : A -> CloudLinkSpoolState -> JournalEntry) : Prop :=
  forall s, wf s -> next_position s < u64_max ->
  (m s).2 <> Panic /\
  forall s' a, m s = (s', Ok a) -> s' <> s ->
    wf s' /\ forall n st, apply_entry (entry a s') (mkRecovery (Some s) n st) =
                          Ok (mkRecovery (Some s') (S n) true).

Lemma enqueue_journaled input :
  journaled (enqueue input) (fun record s => JEnqueued record (next_position s) (data_loss s)).
Proof.
  intros s Hw Hn. destruct (enqueue input s) as [s1 res] eqn:He.
  destruct (enqueue_cases _ _ _ _ Hw Hn He) as [[-> Hres]|(Hv & Hf & -> & ->)].
  { split; [destruct Hres as [[? ->]|(? & -> & _)]; done|]. intros s' a [= <- _] Hne. done. }
  split; [done|]. intros s' a [= <- <-] _. split; [by apply enqueued_wf|]. intros n st.
  pose proof (wf_window _ Hw) as Hc. pose proof (wf_acked _ Hw). pose proof (window_below _ Hc) as Hb.
  unfold apply_entry, apply_enqueued. cbn [rec_state rec_mutations ok_or obind].
  rewrite content_persisted; [|by apply validate_enqueue_content|done..|simpl; unfold window_start in *; lia].
  cbn [obind from_enqueue identity id_position delivery_state offered_session].
  rewrite bool_decide_eq_true_2, bool_decide_eq_false_2 by (done || by intros [? ?]).
  rewrite Z.eqb_refl. unfold checked_add, u64_max in *.
  destruct (Z.ltb_spec (next_position s + 1) (2 ^ 64)); [|lia].
  cbn [default enqueued next_position]. rewrite Z.eqb_refl. cbn [negb orb].
  unfold enqueued. destruct (length (records s) =? capacity s)%nat eqn:Efull; cbn [obind].
  - pose proof (capacity_pos _ (wf_capacity _ Hw)). apply Nat.eqb_eq in Efull.
    destruct (records s) as [|kv rs] eqn:Er; [simpl in Efull; lia|].
    rewrite (first_key_contig _ _ Hc) by done. cbn [ok_or obind].
    assert (window_start s = kv.1) as -> by (destruct kv; symmetry; apply Hc).
    assert (kv.1 = window_start s) as Hkv by (destruct kv; apply Hc). rewrite <- Hkv in Hc.
    rewrite (bt_remove_head _ _ _ Hc), bt_insert_last by (by inversion Hb). done.
  - rewrite bt_insert_last by done. done.
Qed.

(** The other entries replay the method itself. *)
Lemma replayed_ok {A} (m : SpoolM A) s s' a : m s = (s', Ok a) -> replayed m s = Ok (s', a).
Proof. unfold replayed. by intros ->. Qed.

Lemma offered_journaled ident session :
  journaled (mark_offered ident session) (fun _ _ => JOffered ident session).
Proof.
  intros s Hw _. destruct (mark_offered ident session s) as [s1 res] eqn:E. split.
  { destruct (mark_offered_cases _ _ _ _ _ E) as [[_ [? ->]]|[_ ->]]; done. }
  intros s' a [= -> ->] _. pose proof (mark_offered_wf ident session s Hw) as Hw'. rewrite E in Hw'.
  split; [done|]. intros n st. cbn [apply_entry rec_state ok_or obind]. by rewrite (replayed_ok _ _ _ _ E).
Qed.

Lemma published_journaled ident session :
  journaled (mark_transport_published ident session) (fun _ _ => JTransportPublished ident session).
Proof.
  intros s Hw _. destruct (mark_transport_published ident session s) as [s1 res] eqn:E. split.
  { destruct (mark_transport_published_cases _ _ _ _ _ E) as [[_ [? ->]]|[_ ->]]; done. }
  intros s' a [= -> ->] _. pose proof (mark_transport_published_wf ident session s Hw) as Hw'. rewrite E in Hw'.
  split; [done|]. intros n st. cbn [apply_entry rec_state ok_or obind]. by rewrite (replayed_ok _ _ _ _ E).
Qed.

Lemma acknowledge_journaled ack : journaled (acknowledge ack) (fun _ _ => JAcknowledged ack).
Proof.
  intros s Hw _. destruct (acknowledge ack s) as [s1 res] eqn:E. split.
  { destruct (acknowledge_cases _ _ _ _ Hw E) as [[_ [[? ->]| ->]]|(_ & _ & ->)]; done. }
  intros s' a [= -> ->] _. pose proof (acknowledge_wf ack s Hw) as Hw'. rewrite E in Hw'.
  split; [done|]. intros n st. cbn [apply_entry rec_state ok_or obind]. by rewrite (replayed_ok _ _ _ _ E).
Qed.

Lemma rotate_journaled : journaled rotate_stream_epoch (fun epoch _ => JRotated epoch).
Proof.
  intros s Hw _. destruct (rotate_stream_epoch s) as [s1 res] eqn:E. split.
  { destruct (rotate_cases _ _ _ E) as [[_ [? ->]]|(_ & _ & _ & ->)]; done. }
  intros s' a [= -> ->] _. pose proof (rotate_wf s Hw) as Hw'. rewrite E in Hw'.
  split; [done|]. intros n st. cbn [apply_entry rec_state ok_or obind]. rewrite (replayed_ok _ _ _ _ E).
  cbn [obind]. by rewrite Z.eqb_refl.
Qed.

(** ** Crash consistency *)

Section Crash.
Variable enc : JournalEntry -> list Z.
Variable dec : list Z -> option JournalEntry.
Hypothesis dec_enc : forall e, dec (enc e) = Some e.
Hypothesis enc_bytes : forall e, Forall (fits 8) (enc e).

(** The journal on disk replays to the state in memory. *)
Definition file_inv (f : FileState) : Prop :=
  wf (f_state f) /\ f_path f = None /\
  exists es body started,
    f_bytes f = MAGIC ++ body /\ write_entries enc es = Ok body /\
    apply_all apply_entry es (mkRecovery None 0 false) =
      Ok (mkRecovery (Some (f_state f)) (f_mutations f) started).

Lemma as_spool_error_ok {A} (c : outcome JournalError A) a : as_spool_error c = Ok a <-> c = Ok a.
Proof. destruct c; simpl; naive_solver. Qed.

Lemma recover_magic body kept r s :
  recover_loop dec apply_entry (length body) body (length MAGIC) (mkRecovery None 0 false) = Ok (r, kept) ->
  rec_state r = Some s -> wf s ->
  recover dec (MAGIC ++ body) = Ok (s, rec_mutations r, take kept (MAGIC ++ body)).
Proof.
  intros Hr Hs Hw. unfold recover.
  replace (length (MAGIC ++ body) <? length MAGIC)%nat with false by (rewrite length_app; lia).
  rewrite take_app_length, bool_decide_eq_true_2 by done. cbn [negb].
  rewrite drop_app_length, Hr. cbn [as_spool_error obind]. rewrite Hs. cbn [ok_or obind].
  by rewrite (validate_recovered_wf s Hw).
Qed.

(** A journal that was written completely recovers exactly. *)
Lemma recover_exact f :
  file_inv f -> recover dec (f_bytes f) = Ok (f_state f, f_mutations f, f_bytes f).
Proof.
  intros (Hw & _ & es & body & st & -> & Hb & Ha).
  pose proof (recover_journal enc dec apply_entry dec_enc enc_bytes es body (length MAGIC) _ _ Hb Ha) as Hr.
  rewrite (recover_magic _ _ _ _ Hr eq_refl Hw). by rewrite firstn_all2 by (rewrite length_app; lia).
Qed.

(** A torn append recovers the journal before it. *)
Lemma recover_torn_append f e frame k :
  file_inv f -> write_entry enc e = Ok frame -> (k < length frame)%nat ->
  recover dec (f_bytes f ++ take k frame) = Ok (f_state f, f_mutations f, f_bytes f).
Proof.
  intros (Hw & _ & es & body & st & -> & Hb & Ha) He Hk. rewrite <- app_assoc.
  pose proof (recover_journal_torn enc dec apply_entry dec_enc enc_bytes es body e frame k
                (length MAGIC) _ _ Hb Ha He Hk) as Hr.
  rewrite (recover_magic _ _ _ _ Hr eq_refl Hw).
  rewrite app_assoc, take_app_length' by (by rewrite length_app). done.
Qed.

Lemma compacted_inv s body :
  wf s -> write_compacted_journal enc s = Ok body -> file_inv (mkFileState body s 0 None).
Proof.
  intros Hw (b & Hb%as_spool_error_ok & <-%Ok_inj)%obind_ok. split; [done|]. split; [done|].
  exists (compacted s), b, false. split_and!; [done..|]. by apply apply_compacted.
Qed.

Lemma write_compacted_no_panic s : write_compacted_journal enc s <> Panic.
Proof.
  intros [Hb|(? & _ & ?)]%obind_panic; [|done].
  by destruct (write_entries enc (compacted s)) eqn:Hwe; [..|apply write_entries_no_panic in Hwe].
Qed.

Lemma write_entry_error e x : write_entry enc e = Err x -> x = JTooLarge.
Proof. unfold write_entry. repeat split_if; by intros [= <-]. Qed.

Lemma write_entries_error es x : write_entries enc es = Err x -> x = JTooLarge.
Proof.
  induction es as [|e es IH]; simpl; [done|]. destruct (write_entry enc e) as [b|y|] eqn:He; simpl; [|intros [= <-]; by apply (write_entry_error e)|done].
  destruct (write_entries enc es) as [bs|y|]; simpl; naive_solver.
Qed.

Lemma write_compacted_error s e : write_compacted_journal enc s = Err e -> e = Storage.
Proof.
  unfold write_compacted_journal. destruct (write_entries enc (compacted s)) as [b|x|] eqn:Hb; simpl; try done.
  apply write_entries_error in Hb as ->. by intros [= <-].
Qed.

(** A compaction keeps the state in memory, succeeds on a sound file only, and
    leaves a sound file at the path whatever fails. *)
Lemma compact_locked_spec fault f : file_inv f ->
  let f' := (compact_locked enc fault f).1 in
  f_state f' = f_state f /\ (exists g, file_inv g /\ f_state g = f_state f /\ f_bytes g = on_path f') /\
  match (compact_locked enc fault f).2 with
  | Ok _ => file_inv f'
  | Err e => e = Storage /\ (fault = CompactOk -> file_inv f')
  | Panic => False
  end.
Proof.
  intros Hi. pose proof Hi as (Hw & Hp & _). unfold compact_locked, st_bind, st_get, st_lift.
  assert (on_path f = f_bytes f) as Hon by (unfold on_path; by rewrite Hp).
  destruct (write_compacted_journal enc (f_state f)) as [b|e|] eqn:Hb; cbn [fst snd].
  - pose proof (compacted_inv _ _ Hw Hb) as Hc. destruct fault; unfold st_modify, st_fail; cbn [fst snd f_state]; (split; [done|]).
    + split; [by eexists|done].
    + split; [by exists f|done].
    + split; [by eexists|done].
    + split; [by eexists|done].
  - split; [done|]. split; [by exists f|]. by apply write_compacted_error in Hb as ->.
  - by apply write_compacted_no_panic in Hb.
Qed.

(** Appending a replayable entry keeps the invariant. *)
Lemma append_inv f e frame s' :
  file_inv f -> wf s' -> write_entry enc e = Ok frame ->
  (forall n st, apply_entry e (mkRecovery (Some (f_state f)) n st) =
                Ok (mkRecovery (Some s') (S n) true)) ->
  file_inv (mkFileState (f_bytes f ++ frame) s' (S (f_mutations f)) None).
Proof.
  intros (_ & _ & es & body & st & Hf & Hb & Ha) Hw He Hap. split; [done|]. split; [done|].
  exists (es ++ [e]), (body ++ frame), true. cbn [f_bytes f_state f_mutations]. split_and!.
  - by rewrite Hf, app_assoc.
  - apply write_entries_app; [done|]. simpl. rewrite He. simpl. by rewrite app_nil_r.
  - rewrite apply_all_app, Ha. simpl. by rewrite Hap.
Qed.

(** The first step of [mutate]. *)
Definition precompact (fault : CompactFault) : FileM unit := fun f =>
  if (COMPACT_AFTER_MUTATIONS <=? f_mutations f)%nat then compact_locked enc fault f else (f, Ok tt).

Lemma precompact_spec fault f : file_inv f ->
  let f' := (precompact fault f).1 in
  f_state f' = f_state f /\ (exists g, file_inv g /\ f_state g = f_state f /\ f_bytes g = on_path f') /\
  match (precompact fault f).2 with
  | Ok _ => file_inv f'
  | Err e => e = Storage /\ (fault = CompactOk -> file_inv f')
  | Panic => False
  end.
Proof.
  intros Hi. unfold precompact. split_if; [by apply compact_locked_spec|]. cbn [fst snd]. split; [done|]. split; [|done].
  exists f. pose proof Hi as (_ & Hp & _). unfold on_path. by rewrite Hp.
Qed.

Lemma precompact_inv f :
  file_inv f -> file_inv (precompact CompactOk f).1 /\ f_state (precompact CompactOk f).1 = f_state f /\
                (precompact CompactOk f).2 <> Panic.
Proof. intros (Hs & _ & H)%(precompact_spec CompactOk). destruct (precompact CompactOk f).2; [done|naive_solver|done]. Qed.

Lemma mutate_eq io {A} (op : SpoolM (A * JournalEntry)) f :
  mutate enc io op f =
  match precompact (io_compact io) f with
  | (f1, Ok _) =>
      match op (f_state f1) with
      | (next, Ok (a, e)) =>
          if bool_decide (next = f_state f1) then (f1, Ok a)
          else match append_entry enc (io_append io) (f_bytes f1) e with
               | (bytes, Ok _) => (mkFileState bytes next (S (f_mutations f1)) (f_path f1), Ok a)
               | (bytes, Err e) => (mkFileState bytes (f_state f1) (f_mutations f1) (f_path f1), Err e)
               | (bytes, Panic) => (mkFileState bytes (f_state f1) (f_mutations f1) (f_path f1), Panic)
               end
      | (_, Err e) => (f1, Err e)
      | (_, Panic) => (f1, Panic)
      end
  | (f1, Err e) => (f1, Err e)
  | (f1, Panic) => (f1, Panic)
  end.
Proof.
  unfold mutate, precompact. unfold st_bind at 1 2, st_get at 1.
  destruct (COMPACT_AFTER_MUTATIONS <=? f_mutations f)%nat;
    [destruct (compact_locked enc _ f) as [f1 [[]|e|]]; [|done..]|];
    unfold st_ret, st_bind, st_get, st_lift, st_modify;
    destruct (op _) as [next [[a e]|e|]]; cbn [fst snd]; try done; case_bool_decide; try done;
    by destruct (append_entry _ _ _ _) as [? []].
Qed.

Lemma with_entry_eq {A} (m : SpoolM A) entry s :
  with_entry m entry s =
  match m s with
  | (s', Ok a) => (s', Ok (a, entry a s'))
  | (s', Err e) => (s', Err e)
  | (s', Panic) => (s', Panic)
  end.
Proof. unfold with_entry, st_bind, st_get, st_ret. by destruct (m s) as [s' []]. Qed.

(** What a restart finds at the path: the state [s] or the state [s']. *)
Definition recovers (bytes : list Z) (s s' : CloudLinkSpoolState) : Prop :=
  exists g, recover dec bytes = Ok (f_state g, f_mutations g, f_bytes g) /\ file_inv g /\
            (f_state g = s \/ f_state g = s').

Lemma recovers_inv f s' : file_inv f -> recovers (f_bytes f) (f_state f) s'.
Proof. intros Hi. exists f. split; [by apply recover_exact|]. split; [done|by left]. Qed.

(** A frame written in part or completely. *)
Lemma recovers_append f e frame s' n :
  file_inv f -> wf s' -> write_entry enc e = Ok frame ->
  (forall k st, apply_entry e (mkRecovery (Some (f_state f)) k st) = Ok (mkRecovery (Some s') (S k) true)) ->
  recovers (f_bytes f ++ take n frame) (f_state f) s'.
Proof.
  intros Hi Hw He Hap. destruct (Nat.ltb_spec n (length frame)).
  - exists f. split; [by eapply recover_torn_append|]. split; [done|by left].
  - pose proof (append_inv f e frame s' Hi Hw He Hap) as Hi'. eexists. rewrite take_ge by done.
    split; [by apply (recover_exact _ Hi')|]. split; [done|by right].
Qed.

(** The append of [mutate]: everything written and synced, or a storage error that
    leaves a recoverable file. *)
Lemma append_entry_cases fault f e s' :
  file_inv f -> wf s' ->
  (forall k st, apply_entry e (mkRecovery (Some (f_state f)) k st) = Ok (mkRecovery (Some s') (S k) true)) ->
  match append_entry enc fault (f_bytes f) e with
  | (bytes, Ok _) => file_inv (mkFileState bytes s' (S (f_mutations f)) None)
  | (bytes, Err x) => x = Storage /\ recovers bytes (f_state f) s' /\ (fault = AppendOk -> bytes = f_bytes f)
  | (_, Panic) => False
  end.
Proof.
  intros Hi Hw Hap. pose proof (recovers_inv f s' Hi) as Hr. unfold append_entry.
  destruct (write_entry enc e) as [fr|x|] eqn:He; [| |by apply write_entry_no_panic in He].
  - pose proof (fun n => recovers_append f e fr s' n Hi Hw He Hap) as Ht.
    destruct fault as [| |n|]; cbn [as_spool_error]; [by apply (append_inv f e)|done|by split_and!|].
    split_and!; [done| |done]. specialize (Ht (length fr)). by rewrite firstn_all in Ht.
  - apply write_entry_error in He as ->. by destruct fault.
Qed.

(** [mutate] by cases: unchanged, journaled and applied, or refused with the state
    before or after the operation at the path. *)
Lemma mutate_cases io {A} (m : SpoolM A) entry f :
  journaled m entry -> file_inv f -> next_position (f_state f) < u64_max ->
  let f' := (mutate enc io (with_entry m entry) f).1 in
  match (mutate enc io (with_entry m entry) f).2 with
  | Ok a => file_inv f' /\ m (f_state f) = (f_state f', Ok a)
  | Err e => f_state f' = f_state f /\ (io = no_faults -> file_inv f') /\
      ((m (f_state f)).2 = Err e \/ e = Storage) /\ recovers (on_path f') (f_state f) (m (f_state f)).1
  | Panic => False
  end.
Proof.
  intros Hj Hi Hn. destruct (Hj (f_state f) (proj1 Hi) Hn) as [Hnp Hok]. rewrite mutate_eq.
  destruct (precompact_spec (io_compact io) f Hi) as (Hs1 & (g & Hg & Hgs & Hgb) & Hi1).
  pose proof (recovers_inv g (m (f_state f)).1 Hg) as Hr. rewrite Hgb, Hgs in Hr.
  destruct (precompact (io_compact io) f) as [f1 [[]|e|]]; cbn [fst snd] in *; [| |done].
  2: { destruct Hi1 as [-> Hi1]. split_and!; [done|intros ->; by apply Hi1|by right|done]. }
  rewrite with_entry_eq, Hs1. destruct (m (f_state f)) as [s' [a|e|]] eqn:Em; cbn [fst snd] in *; [| |done].
  2: { split_and!; [done|done|by left|done]. }
  case_bool_decide as Heq; [cbn [fst snd]; split; [done|]; by rewrite Heq, Hs1|].
  destruct (Hok s' a eq_refl Heq) as [Hw' Hap]. rewrite <- Hs1 in Hap. pose proof Hi1 as (_ & Hp1 & _).
  pose proof (append_entry_cases (io_append io) f1 (entry a s') s' Hi1 Hw' Hap) as Hc.
  rewrite Hp1. destruct (append_entry _ _ _ _) as [bytes [[]|e|]]; cbn [fst snd f_state]; [done| |done].
  destruct Hc as (-> & Hrec & Hsame). rewrite Hs1 in Hrec. split_and!; [done| |by right|exact Hrec].
  intros ->. rewrite Hsame, <- Hs1, <- Hp1 by done. by destruct f1.
Qed.

Lemma mutate_simulates {A} (m : SpoolM A) entry :
  journaled m entry -> simulates f_state file_inv (mutate enc no_faults (with_entry m entry)) m.
Proof.
  intros Hj f Hi Hn. pose proof (mutate_cases no_faults m entry f Hj Hi Hn) as H. cbn zeta in H.
  destruct (mutate enc no_faults (with_entry m entry) f) as [f' [a|e|]]; cbn [fst snd] in *; [| |done].
  - destruct H as [Hi' Hm]. split; [done|]. left. by rewrite Hm.
  - destruct H as (Hs & Hi' & _). split; [by apply Hi'|]. right. eauto.
Qed.

(** The file-backed adapter keeps the contract of the port. *)
Definition FileCloudLinkSpool_laws : @CloudLinkSpoolLaws FileState (FileCloudLinkSpool enc no_faults) :=
  @Build_CloudLinkSpoolLaws FileState (FileCloudLinkSpool enc no_faults) f_state file_inv
    (fun f Hi => proj1 Hi)
    (fun input => mutate_simulates _ _ (enqueue_journaled input))
    (fun ident session => mutate_simulates _ _ (offered_journaled ident session))
    (fun ident session => mutate_simulates _ _ (published_journaled ident session))
    (fun ack => mutate_simulates _ _ (acknowledge_journaled ack))
    (mutate_simulates _ _ rotate_journaled)
    (fun p limit f => eq_refl)
    (fun f => eq_refl).

(** The bytes a crash during [mutate] may leave: the file as it was, the
    compacted file once renamed, or either with a prefix of the new frame. *)
Inductive crash_image {A} (op : SpoolM (A * JournalEntry)) (f : FileState) : list Z -> Prop :=
| crash_before : crash_image op f (f_bytes f)
| crash_compacted : crash_image op f (f_bytes (precompact CompactOk f).1)
| crash_append a e frame k :
    (precompact CompactOk f).2 = Ok tt -> (op (f_state f)).2 = Ok (a, e) -> (op (f_state f)).1 <> f_state f ->
    write_entry enc e = Ok frame -> (k <= length frame)%nat ->
    crash_image op f (f_bytes (precompact CompactOk f).1 ++ take k frame).

(** A frame that reaches the file completely is the file [mutate] leaves. *)
Lemma mutate_append {A} (m : SpoolM A) entry f s' a frame :
  file_inv f -> (precompact CompactOk f).2 = Ok tt -> m (f_state f) = (s', Ok a) -> s' <> f_state f ->
  write_entry enc (entry a s') = Ok frame ->
  mutate enc no_faults (with_entry m entry) f =
    (mkFileState (f_bytes (precompact CompactOk f).1 ++ frame) s' (S (f_mutations (precompact CompactOk f).1)) None, Ok a).
Proof.
  intros Hi Hp Em Hne Hw. destruct (precompact_inv f Hi) as ((_ & Hpath & _) & Hs1 & _).
  rewrite mutate_eq. cbn [io_compact io_append no_faults]. destruct (precompact CompactOk f) as [f1 o]. cbn [fst snd] in *. subst o.
  rewrite with_entry_eq, Hs1, Em, bool_decide_eq_false_2 by done. unfold append_entry. rewrite Hw. cbn. by rewrite Hpath.
Qed.

Lemma crash_recovers {A} (m : SpoolM A) entry f image :
  journaled m entry -> file_inv f -> next_position (f_state f) < u64_max ->
  crash_image (with_entry m entry) f image ->
  exists f', recover dec image = Ok (f_state f', f_mutations f', f_bytes f') /\ file_inv f' /\
    (f_state f' = f_state f \/ f_state f' = f_state (mutate enc no_faults (with_entry m entry) f).1).
Proof.
  intros Hj Hi Hn Hc. destruct (precompact_inv f Hi) as (Hi1 & Hs1 & _).
  destruct Hc as [| |a e frame k Hp Hop Hne Hw Hk].
  - exists f. split_and!; [by apply recover_exact|done|by left].
  - exists (precompact CompactOk f).1. split_and!; [by apply recover_exact|done|by left].
  - destruct (decide (k = length frame)) as [->|Hlt].
    + rewrite with_entry_eq in Hop, Hne.
      destruct (m (f_state f)) as [s' [a'|?|]] eqn:Em; cbn [fst snd] in *; [|done..]. simplify_eq.
      pose proof (mutate_append m entry f s' a frame Hi Hp Em Hne Hw) as Hm.
      pose proof (mutate_cases no_faults m entry f Hj Hi Hn) as Hc. cbn zeta in Hc. rewrite Hm in Hc |- *.
      eexists. split_and!; [|exact (proj1 Hc)|by right]. rewrite firstn_all. by rewrite <- recover_exact by apply Hc.
    + exists (precompact CompactOk f).1. split_and!; [|done|by left].
      apply (recover_torn_append _ e); done || lia.
Qed.

(** The operation a call runs under [mutate]. *)
Definition crash_image_of (o : SpoolOp) : FileState -> list Z -> Prop :=
  match o with
  | OpEnqueue input => crash_image (enqueue_op input)
  | OpOffered ident session => crash_image (offered_op ident session)
  | OpPublished ident session => crash_image (published_op ident session)
  | OpAcknowledge ack => crash_image (acknowledge_op ack)
  | OpRotate => crash_image rotate_op
  end.

Lemma crash_op_recovers o f image :
  file_inv f -> next_position (f_state f) < u64_max -> crash_image_of o f image ->
  exists f', recover dec image = Ok (f_state f', f_mutations f', f_bytes f') /\ file_inv f' /\
    (f_state f' = f_state f \/
     f_state f' = f_state (@sp_step _ (FileCloudLinkSpool enc no_faults) o f)).
Proof.
  intros Hi Hn. destruct o; apply crash_recovers; try done.
  - apply enqueue_journaled.
  - apply offered_journaled.
  - apply published_journaled.
  - apply acknowledge_journaled.
  - apply rotate_journaled.
Qed.

(** What a call of the port answers, the operations together. *)
Inductive SpoolAnswer := ARecord (r : CloudLinkRecord) | AUnit | AAck (outcome : DurableAckOutcome) | AEpoch (epoch : Z).

Definition answered {A} (inj : A -> SpoolAnswer) {T E} (r : T * outcome E A) : T * outcome E SpoolAnswer :=
  (r.1, let? a := r.2 in Ok (inj a)).

Definition sp_call {T} `{CloudLinkSpool T} (o : SpoolOp) (t : T) : T * outcome CloudLinkSpoolErrorReason SpoolAnswer :=
  match o with
  | OpEnqueue input => answered ARecord (sp_enqueue input t)
  | OpOffered ident session => answered (fun _ => AUnit) (sp_mark_offered ident session t)
  | OpPublished ident session => answered (fun _ => AUnit) (sp_mark_transport_published ident session t)
  | OpAcknowledge ack => answered AAck (sp_acknowledge ack t)
  | OpRotate => answered AEpoch (sp_rotate_stream_epoch t)
  end.

(** The call [o] of the file-backed adapter against the same call of the state. *)
Definition call_refines {A} (io : IoFaults) (f : FileState) (call : FileState * outcome CloudLinkSpoolErrorReason A)
    (spec : CloudLinkSpoolState * outcome CloudLinkSpoolErrorReason A) : Prop :=
  match call.2 with
  | Ok a => file_inv call.1 /\ spec = (f_state call.1, Ok a)
  | Err e =>
      f_state call.1 = f_state f /\ (io = no_faults -> file_inv call.1) /\ (spec.2 = Err e \/ e = Storage) /\
      recovers (on_path call.1) (f_state f) spec.1
  | Panic => False
  end.

Lemma answered_refines {A} (inj : A -> SpoolAnswer) io f call spec :
  call_refines io f call spec -> call_refines io f (answered inj call) (answered inj spec).
Proof.
  destruct call as [f' [a|e|]], spec as [s r]; unfold call_refines, answered; cbn [fst snd obind]; [| |done].
  - by intros [Hi [= -> ->]].
  - intros (Hs & Hi & Hr & Hg). split_and!; try done. destruct Hr as [-> | ->]; [by left|by right].
Qed.

Lemma sp_call_refines o io f :
  file_inv f -> next_position (f_state f) < u64_max ->
  call_refines io f (@sp_call _ (FileCloudLinkSpool enc io) o f) (sp_call o (f_state f)).
Proof.
  intros Hi Hn. destruct o; apply answered_refines; apply mutate_cases; try done.
  - apply enqueue_journaled.
  - apply offered_journaled.
  - apply published_journaled.
  - apply acknowledge_journaled.
  - apply rotate_journaled.
Qed.

Lemma validate_open_same s : wf s -> validate_open (stream_id s) (capacity s) s = (s, Ok false).
Proof.
  intros Hw. unfold validate_open, validate_stream_id. rewrite st_bind_lift, (wf_id _ Hw).
  cbn [ensure]. unfold st_bind at 1, st_get. rewrite st_bind_lift, bool_decide_eq_true_2 by done.
  cbn [ensure]. pose proof (wf_length _ Hw).
  replace (capacity s <? length (records s))%nat with false by lia.
  rewrite st_bind_lift, (wf_capacity _ Hw). cbn [ensure negb andb].
  unfold st_bind, st_modify, st_ret. rewrite Nat.eqb_refl. by destruct s.
Qed.

Lemma fresh_file_inv id cap f :
  file_open enc dec [] id cap = Ok f -> file_inv f /\ spool_new id cap = Ok (f_state f).
Proof.
  unfold file_open. cbn [length Nat.eqb].
  intros (t & (s & Hs & (b & Hb & <-%Ok_inj)%obind_ok)%obind_ok & Hr)%obind_ok.
  pose proof (spool_new_wf _ _ _ Hs) as Hw.
  assert (stream_id s = id /\ capacity s = cap) as [Hid Hcap].
  { unfold spool_new in Hs. by apply obind_ok in Hs as ([] & _ & ([] & _ & <-%Ok_inj)%obind_ok). }
  pose proof (validate_open_same s Hw) as Hvo. rewrite Hid, Hcap in Hvo.
  rewrite Hvo in Hr. cbn in Hr. apply Ok_inj in Hr as <-.
  split; [by apply compacted_inv|done].
Qed.

Lemma reopen_exact f :
  file_inv f -> (f_mutations f < COMPACT_AFTER_MUTATIONS)%nat ->
  file_open enc dec (f_bytes f) (stream_id (f_state f)) (capacity (f_state f)) = Ok f.
Proof.
  intros Hi Hm. unfold file_open. pose proof Hi as (Hw & Hp & es & body & st & Hf & _).
  replace (length (f_bytes f) =? 0)%nat with false by (rewrite Hf, length_app; simpl; lia).
  rewrite (recover_exact f Hi). cbn [obind].
  assert (validate_open (stream_id (f_state f)) (capacity (f_state f)) (f_state f) = (f_state f, Ok false)) as ->
    by (by apply validate_open_same).
  cbn [fst snd obind f_mutations].
  replace (COMPACT_AFTER_MUTATIONS <=? f_mutations f)%nat with false by lia. destruct f. cbn in *. by rewrite Hp.
Qed.

End Crash.

(** ** Properties *)

(** C9. Crash consistency: from an open spool, whatever call is interrupted
    and wherever the crash cuts the file (before the call, after the compacted
    file was renamed, or inside the appended frame), recovery succeeds, gives
    exactly the state before or the state after the call, and the repaired file
    again satisfies the journal invariant. *)
Theorem crash_recovery enc dec o f image :
  (forall e, dec (enc e) = Some e) -> (forall e, Forall (fits 8) (enc e)) ->
  file_inv enc f -> next_position (f_state f) < u64_max -> crash_image_of enc o f image ->
  exists f', recover dec image = Ok (f_state f', f_mutations f', f_bytes f') /\ file_inv enc f' /\
    (f_state f' = f_state f \/ f_state f' = f_state (@sp_step _ (FileCloudLinkSpool enc no_faults) o f)).
Proof. intros Hde Hb. by apply crash_op_recovers. Qed.

(** C13. The file-backed spool refines the in-memory one, call by call and
    whichever system call fails (the compaction before or after its rename, the
    seek, a write after any number of bytes, the sync). From an open spool with
    the next position below the largest u64: a call that succeeds is exactly that
    call of the specification state, same answer and same new state, and keeps the
    journal invariant; a call that fails leaves the state in memory as it was,
    answers the specification's error or a storage error, keeps the invariant if
    no system call failed, and leaves at the path a file that recovers to the
    state before or after the call; no call panics. *)
Theorem file_spool_refinement enc dec o io f :
  (forall e, dec (enc e) = Some e) -> (forall e, Forall (fits 8) (enc e)) ->
  file_inv enc f -> next_position (f_state f) < u64_max ->
  let call := @sp_call _ (FileCloudLinkSpool enc io) o f in
  match call.2 with
  | Ok a => file_inv enc call.1 /\ sp_call o (f_state f) = (f_state call.1, Ok a)
  | Err e =>
      f_state call.1 = f_state f /\ (io = no_faults -> file_inv enc call.1) /\
      ((sp_call o (f_state f)).2 = Err e \/ e = Storage) /\
      exists g, recover dec (on_path call.1) = Ok (f_state g, f_mutations g, f_bytes g) /\ file_inv enc g /\
                (f_state g = f_state f \/ f_state g = (sp_call o (f_state f)).1)
  | Panic => False
  end.
Proof. intros Hde Hb Hi Hn. exact (sp_call_refines enc dec Hde Hb o io f Hi Hn). Qed.

(** Opening: an empty path opens as a new stream that satisfies the journal
    invariant, and reopening the file of a running spool that is not due for
    compaction gives back the same state, counter and bytes. *)
Lemma open_reopen enc dec id cap f g :
  (forall e, dec (enc e) = Some e) -> (forall e, Forall (fits 8) (enc e)) ->
  file_open enc dec [] id cap = Ok f ->
  file_inv enc g -> (f_mutations g < COMPACT_AFTER_MUTATIONS)%nat ->
  file_inv enc f /\ spool_new id cap = Ok (f_state f) /\
  file_open enc dec (f_bytes g) (stream_id (f_state g)) (capacity (f_state g)) = Ok g.
Proof.
  intros Hde Hb Hf Hg Hm. destruct (fresh_file_inv enc dec id cap f Hf) as [Hi Hs].
  split_and!; [done..|]. by apply reopen_exact.
Qed.

(** ** A concrete encoding of the entries, for the witnesses *)

#[export] Instance kind_codec : Codec CloudLinkMessageKind.
Proof.
  refine (iso_codec (fun k => match k with RuntimeManifestReport => 0 | TelemetryBatch => 1
            | IntegrationTopologySnapshot => 2 | IntegrationObservationBatch => 3 | DataLoss => 4 end)
    (fun z => if z =? 0 then Some RuntimeManifestReport else if z =? 1 then Some TelemetryBatch
       else if z =? 2 then Some IntegrationTopologySnapshot
       else if z =? 3 then Some IntegrationObservationBatch else Some DataLoss) _).
  by intros [].
Defined.

#[export] Instance delivery_codec : Codec CloudLinkDeliveryState.
Proof.
  refine (iso_codec (fun k => match k with Queued => 0 | Offered => 1 | TransportPublished => 2 end)
    (fun z => Some (if z =? 0 then Queued else if z =? 1 then Offered else TransportPublished)) _).
  by intros [].
Defined.

#[export] Instance identity_codec : Codec CloudLinkRecordIdentity.
Proof.
  refine (iso_codec (fun i => (id_stream_id i, (id_stream_epoch i, id_position i)))
            (fun '(a, (b, c)) => Some (mkIdentity a b c)) _).
  by intros [].
Defined.

#[export] Instance session_codec : Codec CloudLinkSessionBinding.
Proof.
  refine (iso_codec (fun s => (session_id s, session_epoch s)) (fun '(a, b) => Some (mkSession a b)) _).
  by intros [].
Defined.

#[export] Instance record_codec : Codec CloudLinkRecord.
Proof.
  refine (iso_codec (fun r => (identity r, (message_kind r, (batch_id r, (digest r, (payload r,
              (created_at r, (expires_at r, (delivery_state r, offered_session r)))))))))
            (fun '(a, (b, (c, (d, (e, (f, (g, (h, i)))))))) => Some (mkRecord a b c d e f g h i)) _).
  by intros [].
Defined.

#[export] Instance ack_codec : Codec CloudLinkDurableAck.
Proof.
  refine (iso_codec (fun a => (ack_session a, (ack_stream_id a, (ack_stream_epoch a,
              (acknowledged_position a, (ack_batch_id a, (ack_digest a, receipt_id a)))))))
            (fun '(a, (b, (c, (d, (e, (f, g)))))) => Some (mkAck a b c d e f g)) _).
  by intros [].
Defined.

#[export] Instance loss_codec : Codec CloudLinkDataLossEvidence.
Proof.
  refine (iso_codec (fun l => (loss_stream_id l, (loss_stream_epoch l, (first_lost_position l,
              (last_lost_position l, (earliest_retained_position l, (loss_reason l, recorded_at l)))))))
            (fun '(a, (b, (c, (d, (e, (f, g)))))) => Some (mkLoss a b c d e f g)) _).
  by intros [].
Defined.

#[export] Instance journal_codec : Codec JournalEntry.
Proof.
  refine (iso_codec
    (fun e => match e with
       | JCheckpoint a b c d e f g => inl (a, (b, (c, (d, (e, (f, g))))))
       | JRecord r => inr (inl r)
       | JEnqueued r n l => inr (inr (inl (r, (n, l))))
       | JOffered i s => inr (inr (inr (inl (i, s))))
       | JTransportPublished i s => inr (inr (inr (inr (inl (i, s)))))
       | JAcknowledged a => inr (inr (inr (inr (inr (inl a)))))
       | JRotated e => inr (inr (inr (inr (inr (inr (inl e))))))
       | JCapacity c => inr (inr (inr (inr (inr (inr (inr c))))))
       end)
    (fun s => Some match s with
       | inl (a, (b, (c, (d, (e, (f, g)))))) => JCheckpoint a b c d e f g
       | inr (inl r) => JRecord r
       | inr (inr (inl (r, (n, l)))) => JEnqueued r n l
       | inr (inr (inr (inl (i, s)))) => JOffered i s
       | inr (inr (inr (inr (inl (i, s))))) => JTransportPublished i s
       | inr (inr (inr (inr (inr (inl a))))) => JAcknowledged a
       | inr (inr (inr (inr (inr (inr (inl e)))))) => JRotated e
       | inr (inr (inr (inr (inr (inr (inr c)))))) => JCapacity c
       end) _).
  by intros [].
Defined.

(** *** Witnesses *)

Definition jenc : JournalEntry -> list Z := to_vec.
Definition jdec : list Z -> option JournalEntry := from_slice.

Definition opened : FileState :=
  match file_open jenc jdec [] "telemetry" 2 with Ok f => f | _ => mkFileState [] empty_spool 0 None end.

Lemma opened_ok : file_open jenc jdec [] "telemetry" 2 = Ok opened.
Proof. by vm_compute. Qed.

Lemma opened_inv : file_inv jenc opened.
Proof. by destruct (fresh_file_inv jenc jdec "telemetry" 2 opened opened_ok). Qed.

(** A crash seven bytes into the frame of the first enqueue. *)
Definition torn_image : list Z :=
  f_bytes opened ++ take 7 (drop (length (f_bytes opened))
    (f_bytes (@sp_step _ (FileCloudLinkSpool jenc no_faults) (OpEnqueue (batch "b1")) opened))).

Definition first_entry : JournalEntry :=
  JEnqueued (from_enqueue (demo_id 1) (batch "b1")) 2 None.

Lemma torn_image_crash : crash_image_of jenc (OpEnqueue (batch "b1")) opened torn_image.
Proof.
  apply (crash_append jenc (enqueue_op (batch "b1")) opened
           (from_enqueue (demo_id 1) (batch "b1")) first_entry (frame (jenc first_entry)) 7);
    [by vm_compute|by vm_compute| |by vm_compute|vm_compute; lia].
  intros H. apply (f_equal next_position) in H. by vm_compute in H.
Qed.

Lemma crash_recovery_witness :
  exists f', recover jdec torn_image = Ok (f_state f', f_mutations f', f_bytes f') /\ file_inv jenc f'.
Proof.
  destruct (crash_recovery jenc jdec (OpEnqueue (batch "b1")) opened torn_image
    from_slice_to_vec to_vec_bytes opened_inv ltac:(by vm_compute) torn_image_crash) as (f' & Hr & Hi & _).
  exists f'. exact (conj Hr Hi).
Defined.

(** The first enqueue without a fault, and with a write that stops after seven bytes. *)
Lemma file_spool_refinement_witness :
  (let call := @sp_call _ (FileCloudLinkSpool jenc no_faults) (OpEnqueue (batch "b1")) opened in
   file_inv jenc call.1 /\ next_position (f_state call.1) = 2) /\
  (let call := @sp_call _ (FileCloudLinkSpool jenc (mkFaults CompactOk (AppendWriteFails 7))) (OpEnqueue (batch "b1")) opened in
   call.2 = Err Storage /\ f_state call.1 = f_state opened /\ exists r, recover jdec (on_path call.1) = Ok r).
Proof.
  pose proof (fun io => file_spool_refinement jenc jdec (OpEnqueue (batch "b1")) io opened
    from_slice_to_vec to_vec_bytes opened_inv ltac:(by vm_compute)) as H. cbv zeta in *.
  split.
  - specialize (H no_faults). remember (@sp_call _ (FileCloudLinkSpool jenc no_faults) (OpEnqueue (batch "b1")) opened) as call eqn:Hcall.
    assert (exists a, call.2 = Ok a) as [a Ha] by (rewrite Hcall; eexists; vm_compute; reflexivity).
    rewrite Ha in H. split; [exact (proj1 H)|rewrite Hcall; by vm_compute].
  - specialize (H (mkFaults CompactOk (AppendWriteFails 7))).
    remember (@sp_call _ (FileCloudLinkSpool jenc (mkFaults CompactOk (AppendWriteFails 7))) (OpEnqueue (batch "b1")) opened) as call eqn:Hcall.
    assert (call.2 = Err Storage) as He by (rewrite Hcall; by vm_compute).
    rewrite He in H. destruct H as (Hs & _ & _ & g & Hr & _). split; [exact He|]. split; [exact Hs|]. eexists. exact Hr.
Defined.

(** ** Limits of recovery *)

(** A crash while the very first journal is written leaves a file that no
    later open accepts: every nonempty strict prefix of a new journal is
    rejected, and only an empty file is initialised again. *)
Lemma torn_creation_rejected enc dec s bytes k :
  records s = [] -> write_compacted_journal enc s = Ok bytes ->
  (0 < k < length bytes)%nat -> exists e, recover dec (take k bytes) = Err e.
Proof.
  intros Hr (body & Hb%as_spool_error_ok & <-%Ok_inj)%obind_ok Hk.
  unfold compacted in Hb. rewrite Hr in Hb. simpl in Hb.
  apply obind_ok in Hb as (fr & Hf & Hfr). simpl in Hfr. rewrite app_nil_r in Hfr. apply Ok_inj in Hfr as <-.
  rewrite length_app in Hk. unfold recover. rewrite length_take, length_app.
  destruct (Nat.ltb_spec (k `min` (length MAGIC + length fr)) (length MAGIC)); [eauto|].
  rewrite take_take, Nat.min_l, take_app_length, bool_decide_eq_true_2 by (done || lia). cbn [negb].
  rewrite take_app_ge, drop_app_length by lia.
  rewrite (recover_torn enc dec apply_entry _ (checkpoint s)) by (done || lia). eauto.
Qed.

(** An append that fails after some bytes leaves them in the file while the
    process goes on; the next successful append lands behind them and the
    journal no longer recovers. *)
Example failed_append_corrupts :
  let first := @sp_call _ (FileCloudLinkSpool jenc (mkFaults CompactOk (AppendWriteFails 7))) (OpEnqueue (batch "b1")) opened in
  let second := @sp_call _ (FileCloudLinkSpool jenc no_faults) (OpEnqueue (batch "b1")) first.1 in
  first.2 = Err Storage /\ (exists r, second.2 = Ok r) /\ recover jdec (on_path second.1) = Err CorruptJournal.
Proof. split_and!; [by vm_compute|eexists; vm_compute; reflexivity|by vm_compute]. Qed.

(** A compaction whose seek after the rename fails keeps the process on the old
    file, which no path names any more: the calls after it are acknowledged and
    journaled there, and a restart finds none of them. *)
Example lost_after_failed_compaction :
  let compacted := (compact_locked jenc CompactSeekFails opened).1 in
  let call := @sp_call _ (FileCloudLinkSpool jenc no_faults) (OpEnqueue (batch "b1")) compacted in
  (exists r, call.2 = Ok r) /\ next_position (f_state call.1) = 2 /\
  exists s n b, recover jdec (on_path call.1) = Ok (s, n, b) /\ next_position s = 1.
Proof.
  split_and!; [eexists; vm_compute; reflexivity|by vm_compute|].
  eexists _, _, _. split; [vm_compute; reflexivity|by vm_compute].
Qed.
