(* ===== verification/ControlWire.v ===== *)
(** * Integration control: the closed wire contract

    [crates/aether-integration-control/src/{validation,wire,codec,error}.rs] and
    the constants of [lib.rs]: the field validators, the offer and receipt
    values with their contract checks, and the strict decoding of an offer.
    JSON parsing, RFC 8785 canonicalisation and SHA-256 are libraries: they are
    parameters of [decode_offer] and of the digests. *)

From S2P Require Import Prelude Text.

Inductive ErrorCode :=
| Disabled | InvalidMessage | SessionMismatch | Expired | IntentDigestMismatch
| SignatureRejected | DigestConflict | JobInProgress | DependencyUnavailable | LedgerFailure.

(** ** [validation.rs] *)

Definition exact (found expected : string) : outcome ErrorCode unit :=
  ensure (bool_decide (found = expected)) InvalidMessage.

Definition canonical_u64 (value : string) (positive : bool) : outcome ErrorCode Z :=
  let? parsed := ok_or InvalidMessage (parse_u64 value) in
  if negb (bool_decide (u64_to_string parsed = value)) || (positive && (parsed =? 0))
  then Err InvalidMessage else Ok parsed.

Definition identifier (value : string) : outcome ErrorCode unit :=
  match str_bytes value with
  | [] => Err InvalidMessage
  | first :: rest =>
      ensure (negb ((128 <? String.length value)%nat || negb (is_ascii_alphanumeric first) ||
                    negb (forallb transport_safe rest))) InvalidMessage
  end.

Definition uuid (value : string) : outcome ErrorCode unit := ensure (uuid_text value) InvalidMessage.

Definition check_digest (value : string) : outcome ErrorCode unit :=
  if negb (String.prefix "sha256:" value) then Err InvalidMessage
  else let hex := drop 7 (str_bytes value) in
       ensure ((length hex =? 64)%nat && forallb (fun c => is_ascii_digit c || ascii_in 97 102 c) hex)
         InvalidMessage.

Definition signature (value : string) : outcome ErrorCode unit :=
  ensure ((String.length value =? 86)%nat &&
          forallb base64url (str_bytes value))
    InvalidMessage.

Definition check_failure_code (value : string) : outcome ErrorCode unit :=
  match str_bytes value with
  | [] => Err InvalidMessage
  | first :: rest =>
      ensure (is_ascii_uppercase first &&
              forallb (fun c => is_ascii_uppercase c || is_ascii_digit c || Ascii.eqb c "_") rest) InvalidMessage
  end.

(** ** [lib.rs] constants *)

Definition INTEGRATION_CONTROL_EXTENSION : string := "aether.cloudlink.integration-control.v1alpha1".
Definition ACTION_OFFER_SCHEMA : string := "aether.cloudlink.integration-action-offer.v1alpha1".
Definition ACTION_INTENT_SCHEMA : string := "aether.integration-control.action-intent.v1alpha1".
Definition ACTION_RECEIPT_SCHEMA : string := "aether.integration-control.action-receipt.v1alpha1".
Definition CLOUDLINK_PROTOCOL : string := "aether.cloudlink".
Definition CLOUDLINK_PROTOCOL_VERSION : string := "1.0".
Definition MESSAGE_KIND_OFFER : string := "integration-action-offer".
Definition CAPABILITY_ID : string := "device.power.set.v1".
Definition PERMISSION : string := "integration.device.control".
Definition MAX_INTEGRATION_CONTROL_MESSAGE_BYTES : Z := 262144.

(** ** [wire.rs] *)

Record ActionTarget := mkTarget {
  integration_id : string; snapshot_generation : string; entity_id : string; point_key : string
}.

Definition validate_target (t : ActionTarget) : outcome ErrorCode unit :=
  let? _ := identifier (integration_id t) in
  let? _ := canonical_u64 (snapshot_generation t) false in
  let? _ := identifier (entity_id t) in
  exact (point_key t) "is_on".

Record Governance := mkGovernance {
  execution : string; default_authorization : string; permission : string; risk : string;
  g_confirmation : string; idempotency : string; expiry : string; g_audit : string;
  edge_final_decision : bool
}.

Definition validate_governance (g : Governance) : outcome ErrorCode unit :=
  let? _ := exact (execution g) "governed-job" in
  let? _ := exact (default_authorization g) "deny" in
  let? _ := exact (permission g) PERMISSION in
  let? _ := exact (risk g) "high" in
  let? _ := exact (g_confirmation g) "required" in
  let? _ := exact (idempotency g) "required" in
  let? _ := exact (expiry g) "required" in
  let? _ := exact (g_audit g) "required" in
  ensure (edge_final_decision g) InvalidMessage.

Record CloudAuthorization := mkAuthorization {
  policy_decision_id : string; auth_subject_id : string; auth_permission : string;
  authorized_at_ms : string
}.

Definition validate_authorization (a : CloudAuthorization) : outcome ErrorCode unit :=
  let? _ := identifier (policy_decision_id a) in
  let? _ := identifier (auth_subject_id a) in
  let? _ := exact (auth_permission a) PERMISSION in
  let? _ := canonical_u64 (authorized_at_ms a) false in
  Ok tt.

Record CloudConfirmation := mkConfirmation {
  confirmation_id : string; conf_subject_id : string; confirmed_at_ms : string
}.

Definition validate_confirmation (c : CloudConfirmation) : outcome ErrorCode unit :=
  let? _ := uuid (confirmation_id c) in
  let? _ := identifier (conf_subject_id c) in
  let? _ := canonical_u64 (confirmed_at_ms c) false in
  Ok tt.

Record ActionIntent := mkIntent {
  intent_schema : string; intent_capability_id : string; intent_target : ActionTarget;
  intent_value : bool; governance : Governance; authorization : CloudAuthorization;
  confirmation : CloudConfirmation
}.

Definition validate_intent (i : ActionIntent) : outcome ErrorCode unit :=
  let? _ := exact (intent_schema i) ACTION_INTENT_SCHEMA in
  let? _ := exact (intent_capability_id i) CAPABILITY_ID in
  let? _ := validate_target (intent_target i) in
  let? _ := validate_governance (governance i) in
  let? _ := validate_authorization (authorization i) in
  validate_confirmation (confirmation i).

Record MessageAuthentication := mkAuthentication {
  key_id : string; algorithm : string; auth_signature : string
}.

Definition validate_authentication (a : MessageAuthentication) : outcome ErrorCode unit :=
  let? _ := identifier (key_id a) in
  let? _ := exact (algorithm a) "Ed25519" in
  signature (auth_signature a).

Record ActionOffer := mkOffer {
  offer_schema : string; protocol : string; protocol_version : string; extension : string;
  offer_message_kind : string; gateway_id : string; offer_session_id : string;
  offer_session_epoch : string; credential_generation : string; job_id : string;
  issued_at_ms : string; expires_at_ms : string; intent_digest : string;
  intent : ActionIntent; cloud_authentication : MessageAuthentication
}.

(** [parse().unwrap_or_default()] of the [u64] getters. *)
Definition u64_field (s : string) : Z := default 0 (parse_u64 s).

Definition validate_offer (o : ActionOffer) : outcome ErrorCode unit :=
  let? _ := exact (offer_schema o) ACTION_OFFER_SCHEMA in
  let? _ := exact (protocol o) CLOUDLINK_PROTOCOL in
  let? _ := exact (protocol_version o) CLOUDLINK_PROTOCOL_VERSION in
  let? _ := exact (extension o) INTEGRATION_CONTROL_EXTENSION in
  let? _ := exact (offer_message_kind o) MESSAGE_KIND_OFFER in
  let? _ := uuid (gateway_id o) in
  let? _ := uuid (offer_session_id o) in
  let? _ := canonical_u64 (offer_session_epoch o) true in
  let? _ := canonical_u64 (credential_generation o) true in
  let? _ := uuid (job_id o) in
  let? issued_at := canonical_u64 (issued_at_ms o) false in
  let? expires_at := canonical_u64 (expires_at_ms o) false in
  if expires_at <=? issued_at then Err InvalidMessage else
  let? _ := check_digest (intent_digest o) in
  let? _ := validate_intent (intent o) in
  let auth := authorization (intent o) in
  let conf := confirmation (intent o) in
  if (issued_at <? u64_field (authorized_at_ms auth)) ||
     (issued_at <? u64_field (confirmed_at_ms conf)) ||
     (u64_field (confirmed_at_ms conf) <? u64_field (authorized_at_ms auth)) ||
     negb (bool_decide (conf_subject_id conf = auth_subject_id auth))
  then Err InvalidMessage
  else validate_authentication (cloud_authentication o).

Inductive ActionReceiptStage := EdgeAccepted | EdgeRejected | ProviderAccepted | ProviderRejected | StageUnknown.
Inductive ActionDecision := Accepted | Rejected | DecisionUnknown.
Inductive AuditStatus := AuditComplete | AuditIncompleteStatus.

Record ReceiptAudit := mkReceiptAudit { audit_record_id : string; audit_status : AuditStatus }.

Definition receipt_audit_new (id : string) (st : AuditStatus) : outcome ErrorCode ReceiptAudit :=
  let? _ := identifier id in Ok (mkReceiptAudit id st).

Record ActionReceiptPayload := mkReceipt {
  receipt_schema : string; receipt_job_id : string; receipt_id : string; receipt_sequence : string;
  receipt_capability_id : string; receipt_target : ActionTarget; receipt_intent_digest : string;
  stage : ActionReceiptStage; decision : ActionDecision; observed_at_ms : string;
  evidence_digest : option string; failure_code : option string; receipt_audit : ReceiptAudit
}.

#[export] Instance ActionTarget_eq_dec : EqDecision ActionTarget.
Proof. solve_decision. Defined.
#[export] Instance ActionReceiptStage_eq_dec : EqDecision ActionReceiptStage.
Proof. solve_decision. Defined.
#[export] Instance ActionDecision_eq_dec : EqDecision ActionDecision.
Proof. solve_decision. Defined.
#[export] Instance AuditStatus_eq_dec : EqDecision AuditStatus.
Proof. solve_decision. Defined.
#[export] Instance ReceiptAudit_eq_dec : EqDecision ReceiptAudit.
Proof. solve_decision. Defined.
#[export] Instance ActionReceiptPayload_eq_dec : EqDecision ActionReceiptPayload.
Proof. solve_decision. Defined.

(** The consistency of stage, decision, failure code and evidence. *)
Definition stage_consistent (r : ActionReceiptPayload) : bool :=
  let has_failure := bool_decide (is_Some (failure_code r)) in
  let has_evidence := bool_decide (is_Some (evidence_digest r)) in
  match stage r with
  | EdgeAccepted => bool_decide (decision r = Accepted) && negb has_failure && negb has_evidence
  | ProviderAccepted => bool_decide (decision r = Accepted) && negb has_failure && has_evidence
  | EdgeRejected => bool_decide (decision r = Rejected) && has_failure
  | ProviderRejected => bool_decide (decision r = Rejected) && has_failure && has_evidence
  | StageUnknown => bool_decide (decision r = DecisionUnknown) && has_failure
  end.

Definition validate_receipt (r : ActionReceiptPayload) : outcome ErrorCode unit :=
  let? _ := exact (receipt_schema r) ACTION_RECEIPT_SCHEMA in
  let? _ := uuid (receipt_job_id r) in
  let? _ := uuid (receipt_id r) in
  let? _ := canonical_u64 (receipt_sequence r) true in
  let? _ := exact (receipt_capability_id r) CAPABILITY_ID in
  let? _ := validate_target (receipt_target r) in
  let? _ := check_digest (receipt_intent_digest r) in
  let? _ := canonical_u64 (observed_at_ms r) false in
  let? _ := match evidence_digest r with Some d => check_digest d | None => Ok tt end in
  let? _ := match failure_code r with Some c => check_failure_code c | None => Ok tt end in
  let? _ := identifier (audit_record_id (receipt_audit r)) in
  ensure (stage_consistent r) InvalidMessage.

(** [ActionReceiptPayload::terminal]. *)
Definition terminal (job receipt : string) (target : ActionTarget) (digest : string)
    (st : ActionReceiptStage) (dec : ActionDecision) (observed : Z) (evidence failure : option string)
    (audit : ReceiptAudit) : outcome ErrorCode ActionReceiptPayload :=
  let value := mkReceipt ACTION_RECEIPT_SCHEMA job receipt "1" CAPABILITY_ID target digest st dec
                 (u64_to_string observed) evidence failure audit in
  let? _ := validate_receipt value in
  Ok value.

(** ** [codec.rs] *)

Section Codec.
(** [serde_json::from_slice] and SHA-256 of the canonical JSON of an intent. *)
Variable json_offer : list Z -> option ActionOffer.
Variable canonical_digest : ActionIntent -> option string.

Definition bound (bytes : list Z) : outcome ErrorCode unit :=
  ensure (negb ((length bytes =? 0)%nat ||
                (MAX_INTEGRATION_CONTROL_MESSAGE_BYTES <? Z.of_nat (length bytes)))) InvalidMessage.

Definition compute_intent_digest (i : ActionIntent) : outcome ErrorCode string :=
  let? _ := validate_intent i in
  ok_or InvalidMessage (canonical_digest i).

Definition decode_offer (bytes : list Z) : outcome ErrorCode ActionOffer :=
  let? _ := bound bytes in
  let? offer := ok_or InvalidMessage (json_offer bytes) in
  let? _ := validate_offer offer in
  let? found := compute_intent_digest (intent offer) in
  if negb (bool_decide (found = intent_digest offer)) then Err IntentDigestMismatch else Ok offer.

End Codec.

(** ** Lemmas *)

(** Canonical integers: the text accepted for a [u64] field is exactly the
    decimal text Rust prints for it, so every value has one spelling; zero is
    refused where a positive value is required. *)
Lemma canonical_u64_iff s positive n :
  canonical_u64 s positive = Ok n <->
  fits 64 n /\ s = u64_to_string n /\ (positive = true -> n <> 0).
Proof.
  unfold canonical_u64. split.
  - intros (p & Hp%ok_or_ok & H)%obind_ok. split_if_in H; [done|]. apply Ok_inj in H as ->.
    bool_facts. split_and!; [by apply parse_u64_fits in Hp|done|]. intros ->. lia.
  - intros (Hf & -> & Hpos). rewrite (parse_u64_to_string n Hf). cbn [ok_or obind].
    rewrite bool_decide_eq_true_2 by done. destruct positive; [|done].
    cbn [negb orb andb]. destruct (Z.eqb_spec n 0); [by specialize (Hpos eq_refl)|done].
Qed.
