(* ===== verification/ControlLedger.v ===== *)
(** * Integration control: jobs, receipts and the durable ledger

    [crates/aether-integration-control/src/{ports,memory}.rs]: the job key,
    the claim written before a provider call, the ledger entry, the spooled
    receipt, the ledger port and its in-memory adapter. *)

From S2P Require Import Prelude Text BTree Spool ControlWire.

(** ** Values *)

Inductive ControlFailureCode :=
| TargetNotFound | TopologyGenerationMismatch | EntityKindDenied | PointDenied | NotCommissioned
| DelegationDenied | PolicyDenied | ConfirmationInvalid | TargetUnavailable | ProviderRejectedCode
| ProviderOutcomeUnknown | ProviderTimeout | Interrupted | AuditIncomplete.

Definition failure_str (c : ControlFailureCode) : string :=
  match c with
  | TargetNotFound => "TARGET_NOT_FOUND"
  | TopologyGenerationMismatch => "TOPOLOGY_GENERATION_MISMATCH"
  | EntityKindDenied => "ENTITY_KIND_DENIED"
  | PointDenied => "POINT_DENIED"
  | NotCommissioned => "NOT_COMMISSIONED"
  | DelegationDenied => "DELEGATION_DENIED"
  | PolicyDenied => "POLICY_DENIED"
  | ConfirmationInvalid => "CONFIRMATION_INVALID"
  | TargetUnavailable => "TARGET_UNAVAILABLE"
  | ProviderRejectedCode => "PROVIDER_REJECTED"
  | ProviderOutcomeUnknown => "PROVIDER_OUTCOME_UNKNOWN"
  | ProviderTimeout => "PROVIDER_TIMEOUT"
  | Interrupted => "INTERRUPTED"
  | AuditIncomplete => "AUDIT_INCOMPLETE"
  end.

Record LedgerJobKey := mkKey { key_gateway_id : string; key_job_id : string }.

#[export] Instance LedgerJobKey_eq_dec : EqDecision LedgerJobKey.
Proof. solve_decision. Defined.

(** The derived [Ord]: gateway, then job. *)
Definition key_ltb (a b : LedgerJobKey) : bool :=
  String.ltb (key_gateway_id a) (key_gateway_id b) ||
  (bool_decide (key_gateway_id a = key_gateway_id b) && String.ltb (key_job_id a) (key_job_id b)).

Definition key_from_offer (o : ActionOffer) : LedgerJobKey := mkKey (gateway_id o) (job_id o).

Record LedgerClaim := mkClaim {
  claim_key : LedgerJobKey;
  claim_intent_digest : string;
  claim_target : ActionTarget;
  claim_value : bool;
  claim_audit_record_id : string
}.

Definition claim_from_offer (o : ActionOffer) (audit_id : string) : outcome ControlFailureCode LedgerClaim :=
  match identifier audit_id with
  | Ok _ => Ok (mkClaim (key_from_offer o) (intent_digest o) (intent_target (intent o))
                  (intent_value (intent o)) audit_id)
  | _ => Err AuditIncomplete
  end.

Inductive LedgerEntryState := InProgress (claim : LedgerClaim) | Complete (receipt : ActionReceiptPayload).

Record LedgerEntry := mkEntry { entry_digest : string; entry_state : LedgerEntryState }.

Definition in_progress (c : LedgerClaim) : LedgerEntry := mkEntry (claim_intent_digest c) (InProgress c).
Definition complete_entry (digest : string) (r : ActionReceiptPayload) : LedgerEntry :=
  mkEntry digest (Complete r).

Inductive LedgerClaimOutcome := Claimed | Existing (e : LedgerEntry) | ClaimDigestConflict.

(** [ControlStoreError] carries nothing. *)
Inductive ControlStoreError := StoreError.

Record SpooledActionReceipt := mkSpooled {
  sp_stream_epoch : Z; sp_position : Z; sp_batch_id : string; sp_digest : string;
  sp_sent_at_ms : Z; sp_payload : ActionReceiptPayload
}.

#[export] Instance SpooledActionReceipt_eq_dec : EqDecision SpooledActionReceipt.
Proof. solve_decision. Defined.

(** ** The ledger port *)

Class IntegrationControlLedger (L : Type) := {
  l_find : LedgerJobKey -> ST L ControlStoreError (option LedgerEntry);
  l_claim : LedgerClaim -> ST L ControlStoreError LedgerClaimOutcome;
  l_complete : LedgerJobKey -> string -> ActionReceiptPayload -> ST L ControlStoreError unit;
  l_requeue : LedgerJobKey -> ST L ControlStoreError unit;
  l_interrupted : ST L ControlStoreError (list LedgerClaim);
  l_pending_receipts : nat -> ST L ControlStoreError (list SpooledActionReceipt);
  l_acknowledge : CloudLinkDurableAck -> ST L ControlStoreError DurableAckOutcome
}.

(** What the processor relies on: jobs are looked up as stored, a claim is
    granted only for an absent job and stores it, completing a job stores its
    receipt and touches no other job, the other calls touch none, and the
    interrupted jobs are all the claimed ones: what the comments of the trait in
    [ports.rs] say of each method. A failing call may or may not have reached the
    store. *)
Class IntegrationControlLedgerLaws (L : Type) `{IntegrationControlLedger L} := {
  l_job : L -> LedgerJobKey -> option LedgerEntry;
  l_inv : L -> Prop;
  l_find_law key l : l_job (l_find key l).1 = l_job l /\
    forall e, (l_find key l).2 = Ok e -> e = l_job l key;
  l_claim_law c l :
    (l_job (l_claim c l).1 = l_job l /\ (l_claim c l).2 <> Ok Claimed) \/
    (l_job l (claim_key c) = None /\
     l_job (l_claim c l).1 (claim_key c) = Some (in_progress c) /\
     forall k, k <> claim_key c -> l_job (l_claim c l).1 k = l_job l k);
  l_complete_law key d r l :
    l_job (l_complete key d r l).1 = l_job l \/
    (l_job (l_complete key d r l).1 key = Some (complete_entry d r) /\
     forall k, k <> key -> l_job (l_complete key d r l).1 k = l_job l k);
  l_complete_ok key d r l : (l_complete key d r l).2 = Ok tt ->
    l_job (l_complete key d r l).1 key = Some (complete_entry d r);
  l_requeue_law key l : l_job (l_requeue key l).1 = l_job l;
  l_interrupted_law l : l_job (l_interrupted l).1 = l_job l;
  l_acknowledge_law ack l : l_job (l_acknowledge ack l).1 = l_job l;
  l_interrupted_all l cs k d c : l_inv l -> (l_interrupted l).2 = Ok cs ->
    l_job l k = Some (mkEntry d (InProgress c)) ->
    claim_key c = k /\ claim_intent_digest c = d /\ c ∈ cs;
  l_find_inv key l : l_inv l -> l_inv (l_find key l).1;
  l_claim_inv c l : l_inv l -> l_inv (l_claim c l).1;
  l_complete_inv key d r l : l_inv l -> l_inv (l_complete key d r l).1;
  l_requeue_inv key l : l_inv l -> l_inv (l_requeue key l).1;
  l_interrupted_inv l : l_inv l -> l_inv (l_interrupted l).1;
  l_acknowledge_inv ack l : l_inv l -> l_inv (l_acknowledge ack l).1
}.

(** ** [MemoryIntegrationControlLedger] *)

Record MemoryState := mkMemory {
  jobs : list (LedgerJobKey * LedgerEntry);
  deliveries : list (string * SpooledActionReceipt);
  pending : list (Z * SpooledActionReceipt);
  m_next_position : Z;
  m_last_ack : option CloudLinkDurableAck
}.

Definition memory_default : MemoryState := mkMemory [] [] [] 1 None.

Definition with_next_position (n : Z) (s : MemoryState) : MemoryState :=
  mkMemory (jobs s) (deliveries s) (pending s) n (m_last_ack s).
Definition with_delivery_record (id : string) (d : SpooledActionReceipt) (s : MemoryState) : MemoryState :=
  mkMemory (jobs s) (om_insert String.ltb id d (deliveries s)) (pending s) (m_next_position s) (m_last_ack s).
Definition with_pending (d : SpooledActionReceipt) (s : MemoryState) : MemoryState :=
  mkMemory (jobs s) (deliveries s) (bt_insert (sp_position d) d (pending s)) (m_next_position s) (m_last_ack s).
Definition with_job (k : LedgerJobKey) (e : LedgerEntry) (s : MemoryState) : MemoryState :=
  mkMemory (om_insert key_ltb k e (jobs s)) (deliveries s) (pending s) (m_next_position s) (m_last_ack s).

Section Memory.
(** SHA-256 of the canonical JSON of a receipt's CloudLink digest input. *)
Variable receipt_digest : ActionReceiptPayload -> option string.

(** [SpooledActionReceipt::new]; the digest revalidates the payload. *)
Definition spooled_new (position : Z) (payload : ActionReceiptPayload)
  : outcome ControlStoreError SpooledActionReceipt :=
  if position =? 0 then Err StoreError else
  match validate_receipt payload with
  | Ok _ =>
      let batch := String.append "integration-action-receipt:" (receipt_id payload) in
      match identifier batch, receipt_digest payload with
      | Ok _, Some d => Ok (mkSpooled 1 position batch d (u64_field (observed_at_ms payload)) payload)
      | _, _ => Err StoreError
      end
  | _ => Err StoreError
  end.

Definition MemM : Type -> Type := ST MemoryState ControlStoreError.

Definition m_find (key : LedgerJobKey) : MemM (option LedgerEntry) :=
  let! s := st_get in st_ret (om_get key (jobs s)).

Definition m_claim (c : LedgerClaim) : MemM LedgerClaimOutcome :=
  let! s := st_get in
  match om_get (claim_key c) (jobs s) with
  | Some existing =>
      st_ret (if bool_decide (entry_digest existing = claim_intent_digest c)
              then Existing existing else ClaimDigestConflict)
  | None =>
      let! _ := st_modify (with_job (claim_key c) (in_progress c)) in
      st_ret Claimed
  end.

(** A fresh delivery identity at the next position. *)
Definition allocate_delivery (receipt : ActionReceiptPayload) : MemM SpooledActionReceipt :=
  let! s := st_get in
  let position := m_next_position s in
  let! next := st_lift (ok_or StoreError (checked_add 64 position 1)) in
  let! _ := st_modify (with_next_position next) in
  let! delivery := st_lift (spooled_new position receipt) in
  let! _ := st_modify (with_delivery_record (receipt_id receipt) delivery) in
  st_ret delivery.

Definition m_complete (key : LedgerJobKey) (digest : string) (receipt : ActionReceiptPayload) : MemM unit :=
  let! _ := st_lift (ensure (bool_decide (receipt_job_id receipt = key_job_id key) &&
                             bool_decide (receipt_intent_digest receipt = digest)) StoreError) in
  let! s := st_get in
  match om_get key (jobs s) with
  | None => st_fail StoreError
  | Some existing =>
      if negb (bool_decide (entry_digest existing = digest)) then st_fail StoreError
      else match entry_state existing with
           | Complete stored => if bool_decide (stored = receipt) then st_ret tt else st_fail StoreError
           | InProgress _ =>
               let! delivery := match om_get (receipt_id receipt) (deliveries s) with
                                | Some d => st_ret d
                                | None => allocate_delivery receipt
                                end in
               let! _ := st_modify (with_pending delivery) in
               st_modify (with_job key (complete_entry digest receipt))
           end
  end.

Definition m_requeue (key : LedgerJobKey) : MemM unit :=
  let! s := st_get in
  match entry_state <$> om_get key (jobs s) with
  | Some (Complete receipt) =>
      let! delivery := st_lift (ok_or StoreError (om_get (receipt_id receipt) (deliveries s))) in
      let! delivery :=
        if match m_last_ack s with
           | Some ack => sp_position delivery <=? acknowledged_position ack
           | None => false
           end
        then allocate_delivery receipt else st_ret delivery in
      st_modify (with_pending delivery)
  | _ => st_fail StoreError
  end.

Definition m_interrupted : MemM (list LedgerClaim) :=
  let! s := st_get in
  st_ret (omap (fun kv => match entry_state kv.2 with InProgress c => Some c | Complete _ => None end) (jobs s)).

Definition m_pending_receipts (limit : nat) : MemM (list SpooledActionReceipt) :=
  let! s := st_get in st_ret (take limit (bt_values (pending s))).

Definition m_acknowledge (ack : CloudLinkDurableAck) : MemM DurableAckOutcome :=
  let! s := st_get in
  if bool_decide (m_last_ack s = Some ack) then st_ret Duplicate else
  let! _ := st_lift (ensure (negb (
    negb (bool_decide (ack_stream_id ack = "integration-control-receipts"%string)) ||
    negb (ack_stream_epoch ack =? 1) || (acknowledged_position ack =? 0) ||
    (session_epoch (ack_session ack) =? 0) ||
    match m_last_ack s with
    | Some last => acknowledged_position ack <=? acknowledged_position last
    | None => false
    end)) StoreError) in
  let! _ := st_lift (ensure (is_ok (identifier (session_id (ack_session ack)))) StoreError) in
  let! _ := st_lift (ensure (is_ok (identifier (Spool.receipt_id ack))) StoreError) in
  let! t := st_lift (ok_or StoreError
    (List.find (fun d => sp_position d =? acknowledged_position ack) (snd <$> deliveries s))) in
  let! _ := st_lift (ensure (negb (
    negb (bool_decide (sp_batch_id t = ack_batch_id ack)) || negb (bool_decide (sp_digest t = ack_digest ack)) ||
    negb (bool_decide (bt_get (sp_position t) (pending s) = Some t)))) StoreError) in
  let positions := fst <$> bt_upto (acknowledged_position ack) (pending s) in
  let! _ := st_modify (fun s => mkMemory (jobs s) (deliveries s)
    (foldl (fun p k => bt_remove k p) (pending s) positions) (m_next_position s) (Some ack)) in
  st_ret (Applied (length positions)).

Definition MemoryIntegrationControlLedger : IntegrationControlLedger MemoryState := {|
  l_find := m_find;
  l_claim := m_claim;
  l_complete := m_complete;
  l_requeue := m_requeue;
  l_interrupted := m_interrupted;
  l_pending_receipts := m_pending_receipts;
  l_acknowledge := m_acknowledge
|}.

(** *** The adapter keeps the contract *)

(** A claimed job is stored under its own key and digest. *)
Definition claim_stored (kv : LedgerJobKey * LedgerEntry) : Prop :=
  match entry_state kv.2 with
  | InProgress c => claim_key c = kv.1 /\ claim_intent_digest c = entry_digest kv.2
  | Complete _ => True
  end.

Definition memory_inv (s : MemoryState) : Prop := Forall claim_stored (jobs s).
Definition memory_job (s : MemoryState) (k : LedgerJobKey) : option LedgerEntry := om_get k (jobs s).

Lemma memory_inv_job k e s : memory_inv s -> claim_stored (k, e) -> memory_inv (with_job k e s).
Proof.
  unfold memory_inv. intros Hs He. simpl. induction (jobs s) as [|[k' e'] js IH]; simpl; [by repeat constructor|].
  inversion_clear Hs. destruct (decide (k = k')); [by constructor|].
  destruct (key_ltb k k'); repeat constructor; auto.
Qed.

Lemma allocate_jobs r s : jobs (allocate_delivery r s).1 = jobs s.
Proof.
  unfold allocate_delivery, st_bind, st_get, st_lift, st_modify, st_ret.
  destruct (ok_or _ _); [|done..]. by destruct (spooled_new _ _).
Qed.

(** [complete] by cases. *)
Lemma m_complete_cases key d r s s' res :
  m_complete key d r s = (s', res) ->
  (jobs s' = jobs s /\ (res = Ok tt -> om_get key (jobs s) = Some (complete_entry d r))) \/
  (exists c, om_get key (jobs s) = Some (mkEntry d (InProgress c)) /\
     jobs s' = om_insert key_ltb key (complete_entry d r) (jobs s)).
Proof.
  unfold m_complete, st_fail. rewrite st_bind_lift. destruct (ensure _ _); [|intros [= <- <-]; by left..].
  unfold st_bind at 1, st_get at 1.
  destruct (om_get key (jobs s)) as [[d' st]|] eqn:Hg; [|intros [= <- <-]; by left].
  cbn [entry_digest entry_state]. destruct (bool_decide (d' = d)) eqn:Hd; [|intros [= <- <-]; by left].
  bool_facts. subst d'. cbn [negb]. destruct st as [c|stored].
  - set (m := match om_get (receipt_id r) (deliveries s) with
              | Some d0 => st_ret d0 | None => allocate_delivery r end).
    assert (jobs (m s).1 = jobs s) as Hm.
    { subst m. destruct (om_get _ (deliveries s)); [done|apply allocate_jobs]. }
    unfold st_bind at 1. destruct (m s) as [s1 [dl|e|]]; simpl in Hm; [|intros [= <- <-]; by left..].
    unfold st_bind, st_modify. intros [= <- <-]. right. exists c. split; [done|]. simpl. by rewrite Hm.
  - unfold st_ret. case_bool_decide; intros [= <- <-]; left; [by subst|done].
Qed.

Lemma m_requeue_jobs key s : jobs (m_requeue key s).1 = jobs s.
Proof.
  unfold m_requeue, st_bind at 1, st_get. destruct (entry_state <$> om_get key (jobs s)) as [[c|r]|]; [done| |done].
  rewrite st_bind_lift. destruct (ok_or _ _) as [dl|e|]; [|done..].
  set (b := match m_last_ack s with Some ack => _ | None => _ end). unfold st_bind.
  destruct b; [|done]. pose proof (allocate_jobs r s) as Hj.
  by destruct (allocate_delivery r s) as [s1 []].
Qed.

Lemma m_acknowledge_jobs ack s : jobs (m_acknowledge ack s).1 = jobs s.
Proof.
  unfold m_acknowledge, st_bind at 1, st_get. case_bool_decide; [done|].
  repeat (rewrite st_bind_lift;
    match goal with |- context [match ?c with Ok _ => _ | _ => _ end] => destruct c; [|done..] end).
  done.
Qed.

Lemma m_claim_cases c s :
  (m_claim c s).1 = s /\ (m_claim c s).2 <> Ok Claimed \/
  om_get (claim_key c) (jobs s) = None /\
  m_claim c s = (with_job (claim_key c) (in_progress c) s, Ok Claimed).
Proof.
  unfold m_claim, st_bind, st_get. destruct (om_get (claim_key c) (jobs s)) as [e|] eqn:Hg; [|by right].
  left. split; [done|]. simpl. by destruct (bool_decide _).
Qed.

Program Definition MemoryLedger_laws :
  @IntegrationControlLedgerLaws MemoryState MemoryIntegrationControlLedger :=
  @Build_IntegrationControlLedgerLaws MemoryState MemoryIntegrationControlLedger memory_job memory_inv
    _ _ _ _ _ _ _ _ _ _ _ _ _ _.
Next Obligation. intros key s. split; [done|]. by intros e [= <-]. Qed.
Next Obligation.
  intros c s. unfold memory_job. simpl. destruct (m_claim_cases c s) as [[-> Hne]|[Hg ->]]; [by left|right].
  split; [done|]. simpl. split; [apply om_get_insert|]. intros k Hk. by apply om_get_insert_ne.
Qed.
Next Obligation.
  intros key d r s. unfold memory_job. simpl.
  destruct (m_complete_cases key d r s _ _ (surjective_pairing _)) as [[-> _]|(c & Hg & ->)]; [by left|right].
  split; [apply om_get_insert|]. intros k Hk. by apply om_get_insert_ne.
Qed.
Next Obligation.
  intros key d r s Hok. unfold memory_job. simpl in *.
  destruct (m_complete_cases key d r s _ _ (surjective_pairing _)) as [[-> Hg]|(c & Hg & ->)]; [by apply Hg|apply om_get_insert].
Qed.
Next Obligation. intros key s. unfold memory_job. simpl. by rewrite m_requeue_jobs. Qed.
Next Obligation. done. Qed.
Next Obligation. intros ack s. unfold memory_job. simpl. by rewrite m_acknowledge_jobs. Qed.
Next Obligation.
  intros s cs k d c Hi Hcs Hj. apply om_get_elem in Hj.
  destruct (Forall_elem Hi Hj) as [Hk Hd]. split_and!; [done..|].
  simpl in Hcs. apply Ok_inj in Hcs as <-. apply list_elem_of_omap. by exists (k, mkEntry d (InProgress c)).
Qed.
Next Obligation. done. Qed.
Next Obligation.
  intros c s Hi. simpl. destruct (m_claim_cases c s) as [[-> _]|[_ ->]]; [done|].
  by apply memory_inv_job.
Qed.
Next Obligation.
  intros key d r s Hi. simpl. unfold memory_inv.
  destruct (m_complete_cases key d r s _ _ (surjective_pairing _)) as [[-> _]|(c & _ & ->)]; [done|].
  by apply (memory_inv_job key (complete_entry d r) s).
Qed.
Next Obligation. intros key s Hi. unfold memory_inv. simpl. by rewrite m_requeue_jobs. Qed.
Next Obligation. done. Qed.
Next Obligation. intros ack s Hi. unfold memory_inv. simpl. by rewrite m_acknowledge_jobs. Qed.

End Memory.
