(* ===== verification/ControlProcessor.v ===== *)
(** * Integration control: the governed job state machine

    [crates/aether-integration-control/src/processor.rs] with the trust,
    policy, provider and audit ports of [ports.rs]. Every injected port is a
    function of the history of port calls, so any environment, however it
    changes over time, is an instance; each call is recorded in the history
    with its result. A provider call that exceeds its deadline has no result. *)

From S2P Require Import Prelude Text BTree Spool ControlWire ControlLedger.

(** ** Ports *)

Inductive ControllableEntityKind := Light | Switch | Fan.

Record ResolvedControlTarget := mkResolved {
  r_target : ActionTarget; r_entity_kind : ControllableEntityKind; r_source_address : string
}.

Record LocalAuthorityDecision := mkDecision {
  commissioned : bool; delegated : bool; permission_granted : bool; confirmation_valid : bool
}.

(** [DenyAllLocalControlAuthority]. *)
Definition deny_all : LocalAuthorityDecision := mkDecision false false false false.

Record IntegrationPowerAction := mkAction {
  act_job_id : string; act_target : ResolvedControlTarget; act_value : bool
}.

Inductive ProviderExecutionResult := ProvAccepted (context_id : string) | ProvRejected | ProvUnknown.

Inductive AuditEventKind :=
| AkDispatchAuthorized | AkEdgeRejected | AkProviderAccepted | AkProviderRejected
| AkProviderOutcomeUnknown | AkInterruptedRecovered.

Record AuditEvent := mkAuditEvent {
  ae_kind : AuditEventKind; ae_job_id : string; ae_digest : string; ae_failure : option ControlFailureCode
}.

Record ControlSession := mkControlSession {
  cs_gateway_id : string; cs_session_id : string; cs_session_epoch : Z; cs_credential_generation : Z
}.

(** [ControlSession::new]. *)
Definition control_session_new (gw sid : string) (epoch gen : Z) : outcome ErrorCode ControlSession :=
  let? _ := uuid gw in
  let? _ := uuid sid in
  if (epoch =? 0) || (gen =? 0) then Err InvalidMessage else Ok (mkControlSession gw sid epoch gen).

(** A dependency answers with a failure code or a value. *)
Definition answer (A : Type) : Type := sum ControlFailureCode A.

Inductive Event :=
| EvVerify (key signature : string) (bytes : list Z) (r : answer bool)
| EvFind (key : LedgerJobKey) (found : bool)
| EvClock (t : Z)
| EvResolve (gateway : string) (target : ActionTarget) (r : answer ResolvedControlTarget)
| EvAuthority (o : ActionOffer) (target : ResolvedControlTarget) (r : answer LocalAuthorityDecision)
| EvAudit (e : AuditEvent) (r : answer string)
| EvClaim (key : LedgerJobKey) (granted : bool)
| EvExecute (key : LedgerJobKey) (a : IntegrationPowerAction) (r : option ProviderExecutionResult)
| EvReceiptId (id : string)
| EvComplete (key : LedgerJobKey) (stored : bool)
| EvRequeue (key : LedgerJobKey) (stored : bool)
| EvInterrupted (n : nat).

Record Ports := mkPorts {
  p_verify : list Event -> string -> string -> list Z -> answer bool;
  p_resolve : list Event -> string -> ActionTarget -> answer ResolvedControlTarget;
  p_evaluate : list Event -> ActionOffer -> ResolvedControlTarget -> answer LocalAuthorityDecision;
  p_audit : list Event -> AuditEvent -> answer string;
  p_execute : list Event -> IntegrationPowerAction -> option ProviderExecutionResult;
  p_now : list Event -> Z;
  p_receipt_id : list Event -> string
}.

(** Libraries: JSON, canonical JSON and SHA-256. *)
Record Libraries := mkLibraries {
  lib_json_offer : list Z -> option ActionOffer;
  lib_intent_digest : ActionIntent -> option string;
  lib_signing_bytes : ActionOffer -> option (list Z);
  lib_evidence_digest : string -> option string -> Z -> option string
}.

Inductive ProcessDisposition := Executed | Replayed | Recovered.
Record ProcessedReceipt := mkProcessed { disposition : ProcessDisposition; processed_receipt : ActionReceiptPayload }.

Record IntegrationControlConfig := mkConfig { enabled : bool; provider_timeout_ms : Z }.

(** [IntegrationControlConfig::enabled] and [default]. *)
Definition config_enabled (timeout_ms : Z) : outcome ErrorCode IntegrationControlConfig :=
  if (timeout_ms =? 0) || (300000 <? timeout_ms) then Err InvalidMessage else Ok (mkConfig true timeout_ms).
Definition config_default : IntegrationControlConfig := mkConfig false 5000.

Section Processor.
Context {L : Type} `{IntegrationControlLedger L}.
Variable config : IntegrationControlConfig.
Variable session : ControlSession.
Variable ports : Ports.
Variable libs : Libraries.

Record World := mkWorld { w_ledger : L; w_trace : list Event }.

Definition CtlM : Type -> Type := ST World ErrorCode.

(** A port call, recorded with its result. *)
Definition call {A} (f : list Event -> A) (ev : A -> Event) : CtlM A := fun w =>
  let a := f (w_trace w) in (mkWorld (w_ledger w) (w_trace w ++ [ev a]), Ok a).

(** A ledger call; its failure is [LedgerFailure]. *)
Definition ledger {A} (m : ST L ControlStoreError A) (ev : outcome ControlStoreError A -> Event) : CtlM A :=
  fun w => let '(l, r) := m (w_ledger w) in
    (mkWorld l (w_trace w ++ [ev r]),
     match r with Ok a => Ok a | Err _ => Err LedgerFailure | Panic => Panic end).

Definition found_entry (r : outcome ControlStoreError (option LedgerEntry)) : bool :=
  match r with Ok (Some _) => true | _ => false end.
Definition granted (r : outcome ControlStoreError LedgerClaimOutcome) : bool :=
  match r with Ok Claimed => true | _ => false end.

Definition clock : CtlM Z := call (p_now ports) EvClock.
Definition audit_record (e : AuditEvent) : CtlM (answer string) :=
  call (fun h => p_audit ports h e) (EvAudit e).

Definition validate_control_session (o : ActionOffer) : outcome ErrorCode unit :=
  ensure (bool_decide (gateway_id o = cs_gateway_id session) &&
          bool_decide (offer_session_id o = cs_session_id session) &&
          (u64_field (offer_session_epoch o) =? cs_session_epoch session) &&
          (u64_field (credential_generation o) =? cs_credential_generation session)) SessionMismatch.

(** [ActionOffer::signing_bytes]. *)
Definition signing_bytes (o : ActionOffer) : outcome ErrorCode (list Z) :=
  let? _ := validate_offer o in ok_or InvalidMessage (lib_signing_bytes libs o).

Definition verify_signature (o : ActionOffer) : CtlM unit :=
  let! bytes := st_lift (signing_bytes o) in
  let! verified := call (fun h => p_verify ports h (key_id (cloud_authentication o))
                                    (auth_signature (cloud_authentication o)) bytes)
                      (EvVerify (key_id (cloud_authentication o)) (auth_signature (cloud_authentication o)) bytes) in
  match verified with
  | inl _ => st_fail DependencyUnavailable
  | inr false => st_fail SignatureRejected
  | inr true => st_ret tt
  end.

Definition make_receipt (job : string) (target : ActionTarget) (digest : string)
    (st : ActionReceiptStage) (dec : ActionDecision) (failure : option ControlFailureCode)
    (evidence : option string) (audit_id : string) (status : AuditStatus) : CtlM ActionReceiptPayload :=
  let! id := call (p_receipt_id ports) EvReceiptId in
  let! now := clock in
  let! audit := st_lift (receipt_audit_new audit_id status) in
  st_lift (terminal job id target digest st dec now evidence (failure_str <$> failure) audit).

Definition replay_existing (key : LedgerJobKey) (o : ActionOffer) (existing : LedgerEntry)
  : CtlM ProcessedReceipt :=
  if negb (bool_decide (entry_digest existing = intent_digest o)) then st_fail DigestConflict
  else match entry_state existing with
       | Complete receipt =>
           let! _ := ledger (l_requeue key) (fun r => EvRequeue key (is_ok r)) in
           st_ret (mkProcessed Replayed receipt)
       | InProgress _ => st_fail JobInProgress
       end.

(** The claim common to rejection and dispatch: [None] when it was granted. *)
Definition claim_job (o : ActionOffer) (audit_id : string) : CtlM (option ProcessedReceipt) :=
  let! claim := st_lift (match claim_from_offer o audit_id with
                         | Ok c => Ok c | Err _ => Err DependencyUnavailable | Panic => Panic end) in
  let key := claim_key claim in
  let! claimed := ledger (l_claim claim) (fun r => EvClaim key (granted r)) in
  match claimed with
  | Claimed => st_ret None
  | Existing existing => let! p := replay_existing key o existing in st_ret (Some p)
  | ClaimDigestConflict => st_fail DigestConflict
  end.

Definition complete_job (o : ActionOffer) (receipt : ActionReceiptPayload) : CtlM ProcessedReceipt :=
  let key := key_from_offer o in
  let! _ := ledger (l_complete key (intent_digest o) receipt) (fun r => EvComplete key (is_ok r)) in
  st_ret (mkProcessed Executed receipt).

Definition persist_local_rejection (o : ActionOffer) (failure : ControlFailureCode)
    (requested : AuditStatus) : CtlM ProcessedReceipt :=
  let! recorded := audit_record (mkAuditEvent AkEdgeRejected (job_id o) (intent_digest o) (Some failure)) in
  let '(audit_id, status) := match recorded with
                             | inr id => (id, requested)
                             | inl _ => ("audit-incomplete"%string, AuditIncompleteStatus)
                             end in
  let! existing := claim_job o audit_id in
  match existing with
  | Some p => st_ret p
  | None =>
      let! receipt := make_receipt (job_id o) (intent_target (intent o)) (intent_digest o)
                        EdgeRejected Rejected (Some failure) None audit_id status in
      complete_job o receipt
  end.

(** Stage, decision, failure and audit kind of a provider result, with the
    spelling of the result in the evidence. *)
Definition provider_outcome (r : option ProviderExecutionResult)
  : ActionReceiptStage * ActionDecision * option ControlFailureCode * AuditEventKind * string * option string :=
  match r with
  | Some (ProvAccepted ctx) =>
      (ProviderAccepted, Accepted, None, AkProviderAccepted, "accepted"%string, Some ctx)
  | Some ProvRejected =>
      (ProviderRejected, Rejected, Some ProviderRejectedCode, AkProviderRejected, "rejected"%string, None)
  | Some ProvUnknown =>
      (StageUnknown, DecisionUnknown, Some ProviderOutcomeUnknown, AkProviderOutcomeUnknown, "unknown"%string, None)
  | None =>
      (StageUnknown, DecisionUnknown, Some ProviderTimeout, AkProviderOutcomeUnknown, "unknown"%string, None)
  end.

(** The part of [dispatch] behind a granted claim: the one provider call, its
    evidence, the final audit and the terminal receipt. *)
Definition execute_claimed (o : ActionOffer) (target : ResolvedControlTarget) (record_id : string)
  : CtlM ProcessedReceipt :=
  let action := mkAction (job_id o) target (intent_value (intent o)) in
  let! result := call (fun h => p_execute ports h action) (EvExecute (key_from_offer o) action) in
  let! observed := clock in
  let '(st, dec, failure, kind, spelling, ctx) := provider_outcome result in
  let! evidence := st_lift (ok_or InvalidMessage (lib_evidence_digest libs spelling ctx observed)) in
  let! final := audit_record (mkAuditEvent kind (job_id o) (intent_digest o) failure) in
  let! receipt := match final with
    | inr id => make_receipt (job_id o) (intent_target (intent o)) (intent_digest o)
                  st dec failure (Some evidence) id AuditComplete
    | inl _ => make_receipt (job_id o) (intent_target (intent o)) (intent_digest o)
                  StageUnknown DecisionUnknown (Some AuditIncomplete) (Some evidence)
                  record_id AuditIncompleteStatus
    end in
  complete_job o receipt.

Definition dispatch (o : ActionOffer) (target : ResolvedControlTarget) : CtlM ProcessedReceipt :=
  let! authorized := audit_record (mkAuditEvent AkDispatchAuthorized (job_id o) (intent_digest o) None) in
  match authorized with
  | inl _ => persist_local_rejection o AuditIncomplete AuditIncompleteStatus
  | inr record_id =>
      let! existing := claim_job o record_id in
      match existing with
      | Some p => st_ret p
      | None => execute_claimed o target record_id
      end
  end.

(** The four local checks, in their order: the first that fails. *)
Definition denied (d : LocalAuthorityDecision) : option ControlFailureCode :=
  if negb (commissioned d) then Some NotCommissioned
  else if negb (delegated d) then Some DelegationDenied
  else if negb (permission_granted d) then Some PolicyDenied
  else if negb (confirmation_valid d) then Some ConfirmationInvalid
  else None.

Definition authorize_and_dispatch (o : ActionOffer) (target : ResolvedControlTarget) : CtlM ProcessedReceipt :=
  let! authority := call (fun h => p_evaluate ports h o target) (EvAuthority o target) in
  match authority with
  | inl e => persist_local_rejection o e AuditComplete
  | inr d => match denied d with
             | Some e => persist_local_rejection o e AuditComplete
             | None => dispatch o target
             end
  end.

Definition process (bytes : list Z) : CtlM ProcessedReceipt :=
  if negb (enabled config) then st_fail Disabled else
  let! o := st_lift (decode_offer (lib_json_offer libs) (lib_intent_digest libs) bytes) in
  let! _ := st_lift (validate_control_session o) in
  let! _ := verify_signature o in
  let key := key_from_offer o in
  let! existing := ledger (l_find key) (fun r => EvFind key (found_entry r)) in
  match existing with
  | Some e => replay_existing key o e
  | None =>
      let! now := clock in
      if (now <? u64_field (issued_at_ms o)) || (u64_field (expires_at_ms o) <=? now)
      then st_fail Expired else
      let! resolved := call (fun h => p_resolve ports h (gateway_id o) (intent_target (intent o)))
                        (EvResolve (gateway_id o) (intent_target (intent o))) in
      match resolved with
      | inr target =>
          if bool_decide (r_target target = intent_target (intent o))
          then authorize_and_dispatch o target
          else persist_local_rejection o TargetNotFound AuditComplete
      | inl e => persist_local_rejection o e AuditComplete
      end
  end.

(** One interrupted claim becomes an [unknown] receipt. *)
Definition recover_claim (c : LedgerClaim) : CtlM ProcessedReceipt :=
  let! recorded := audit_record (mkAuditEvent AkInterruptedRecovered (key_job_id (claim_key c))
                                   (claim_intent_digest c) (Some Interrupted)) in
  let '(audit_id, status) := match recorded with
                             | inr id => (id, AuditComplete)
                             | inl _ => (claim_audit_record_id c, AuditIncompleteStatus)
                             end in
  let! receipt := make_receipt (key_job_id (claim_key c)) (claim_target c) (claim_intent_digest c)
                    StageUnknown DecisionUnknown (Some Interrupted) None audit_id status in
  let! _ := ledger (l_complete (claim_key c) (claim_intent_digest c) receipt)
              (fun r => EvComplete (claim_key c) (is_ok r)) in
  st_ret (mkProcessed Recovered receipt).

Fixpoint recover_claims (cs : list LedgerClaim) : CtlM (list ProcessedReceipt) :=
  match cs with
  | [] => st_ret []
  | c :: cs =>
      let! p := recover_claim c in
      let! ps := recover_claims cs in
      st_ret (p :: ps)
  end.

Definition recover_interrupted : CtlM (list ProcessedReceipt) :=
  let! claims := ledger l_interrupted (fun r => EvInterrupted match r with Ok cs => length cs | _ => 0 end) in
  recover_claims claims.

End Processor.

(** ** Calls that do not reach the provider *)

Definition is_exec (k : LedgerJobKey) (e : Event) : bool :=
  match e with EvExecute k' _ _ => bool_decide (k' = k) | _ => false end.

(** Provider invocations for one job in a history. *)
Definition execs (k : LedgerJobKey) (tr : list Event) : nat :=
  length (List.filter (is_exec k) tr).

Definition not_exec (e : Event) : Prop := forall k, is_exec k e = false.

Lemma execs_app k tr tr' : execs k (tr ++ tr') = (execs k tr + execs k tr')%nat.
Proof. unfold execs. by rewrite List.filter_app, length_app. Qed.

Lemma execs_none k tr : Forall not_exec tr -> execs k tr = 0%nat.
Proof. unfold execs. induction 1 as [|e tr He _ IH]; simpl; [done|]. by rewrite (He k). Qed.

Section Safety.
Context {L : Type} `{IntegrationControlLedgerLaws L}.
Implicit Types w : World (L := L).

(** No provider call, no job lost. *)
Record steady (w w' : World (L := L)) : Prop := {
  st_trace : exists suf, w_trace w' = w_trace w ++ suf /\ Forall not_exec suf;
  st_jobs k : l_job (w_ledger w) k <> None -> l_job (w_ledger w') k <> None;
  st_inv : l_inv (w_ledger w) -> l_inv (w_ledger w')
}.

#[export] Instance steady_preorder : PreOrder steady.
Proof.
  split.
  - intros w. constructor; try done. exists []. by rewrite app_nil_r.
  - intros w1 w2 w3 [(s1 & E1 & F1) J1 I1] [(s2 & E2 & F2) J2 I2]. constructor; eauto.
    exists (s1 ++ s2). rewrite E2, E1, app_assoc. split; [done|by apply Forall_app_2].
Qed.

Lemma st_execs w w' k : steady w w' -> execs k (w_trace w') = execs k (w_trace w).
Proof. intros [(suf & -> & Hf) _ _]. rewrite execs_app, (execs_none k suf Hf). lia. Qed.

Definition quiet {A} (m : CtlM (L := L) A) : Prop := forall w, steady w (m w).1.

Lemma quiet_ret {A} (a : A) : quiet (st_ret a).
Proof. intros w. reflexivity. Qed.

Lemma quiet_fail {A} e : quiet (A := A) (st_fail e).
Proof. intros w. reflexivity. Qed.

Lemma quiet_lift {A} (c : outcome ErrorCode A) : quiet (st_lift c).
Proof. intros w. reflexivity. Qed.

Lemma quiet_bind {A B} (m : CtlM (L := L) A) (k : A -> CtlM (L := L) B) :
  quiet m -> (forall a, quiet (k a)) -> quiet (st_bind m k).
Proof.
  intros Hm Hk w. specialize (Hm w). unfold st_bind.
  destruct (m w) as [w1 [a|e|]]; [|done..]. etrans; [exact Hm|apply Hk].
Qed.

(** Appending an event that is not a provider call. *)
Lemma steady_event w l ev :
  not_exec ev ->
  (forall k, l_job (w_ledger w) k <> None -> l_job l k <> None) ->
  (l_inv (w_ledger w) -> l_inv l) ->
  steady w (mkWorld l (w_trace w ++ [ev])).
Proof.
  intros Hev Hj Hi. constructor; simpl; [|done..]. exists [ev]. split; [done|by repeat constructor].
Qed.

Lemma quiet_call {A} (f : list Event -> A) ev :
  (forall a, not_exec (ev a)) -> quiet (call f ev).
Proof. intros Hev w. apply steady_event; auto. Qed.

Lemma quiet_ledger {A} (m : ST L ControlStoreError A) ev :
  (forall a, not_exec (ev a)) ->
  (forall l k, l_job l k <> None -> l_job (m l).1 k <> None) ->
  (forall l, l_inv l -> l_inv (m l).1) ->
  quiet (ledger m ev).
Proof.
  intros Hev Hj Hi w. unfold ledger. specialize (Hj (w_ledger w)).
  specialize (Hi (w_ledger w)). destruct (m (w_ledger w)) as [l r]. by apply steady_event.
Qed.

Lemma quiet_find key ev : (forall a, not_exec (ev a)) -> quiet (ledger (l_find key) ev).
Proof.
  intros Hev. apply quiet_ledger; [done| |apply l_find_inv]; intros l k; by destruct (l_find_law key l) as [-> _].
Qed.

Lemma quiet_requeue key ev : (forall a, not_exec (ev a)) -> quiet (ledger (l_requeue key) ev).
Proof. intros Hev. apply quiet_ledger; [done| |apply l_requeue_inv]; intros l k; by rewrite l_requeue_law. Qed.

Lemma quiet_interrupted ev : (forall a, not_exec (ev a)) -> quiet (ledger l_interrupted ev).
Proof. intros Hev. apply quiet_ledger; [done| |apply l_interrupted_inv]; intros l k; by rewrite l_interrupted_law. Qed.

Lemma quiet_claim c ev : (forall a, not_exec (ev a)) -> quiet (ledger (l_claim c) ev).
Proof.
  intros Hev. apply quiet_ledger; [done| |apply l_claim_inv]; intros l k;
    destruct (l_claim_law c l) as [[-> _]|(Hn & Hs & Ho)]; try done;
    destruct (decide (k = claim_key c)) as [->|Hk]; rewrite ?Hs, ?Ho, ?Hn by done; done.
Qed.

Lemma quiet_complete key d r ev : (forall a, not_exec (ev a)) -> quiet (ledger (l_complete key d r) ev).
Proof.
  intros Hev. apply quiet_ledger; [done| |apply l_complete_inv]; intros l k;
    destruct (l_complete_law key d r l) as [->|[Hs Ho]]; try done;
    destruct (decide (k = key)) as [->|Hk]; rewrite ?Hs, ?Ho by done; done.
Qed.

Context (config : IntegrationControlConfig) (session : ControlSession) (ports : Ports) (libs : Libraries).

Create HintDb quiet.
#[local] Hint Extern 0 (not_exec _) => (intros ?; reflexivity) : quiet.
#[local] Hint Resolve quiet_ret quiet_fail quiet_lift quiet_find quiet_requeue quiet_interrupted
  quiet_claim quiet_complete quiet_call : quiet.

(** Walks a method built from quiet calls. *)
Ltac quiet_tac :=
  repeat first [ apply quiet_bind | progress intros | solve [auto with quiet]
               | match goal with
                 | |- context [match ?x with _ => _ end] => destruct x
                 | |- quiet (if ?b then _ else _) => destruct b
                 end ].

Lemma quiet_clock : quiet (clock ports).
Proof. by apply quiet_call. Qed.

Lemma quiet_audit e : quiet (audit_record ports e).
Proof. by apply quiet_call. Qed.
#[local] Hint Resolve quiet_clock quiet_audit : quiet.

Lemma quiet_verify o : quiet (verify_signature ports libs o).
Proof. unfold verify_signature. quiet_tac. Qed.

Lemma quiet_make_receipt j t d s c f e a st : quiet (make_receipt ports j t d s c f e a st).
Proof. unfold make_receipt. quiet_tac. Qed.

Lemma quiet_replay key o e : quiet (replay_existing key o e).
Proof. unfold replay_existing. quiet_tac. Qed.
#[local] Hint Resolve quiet_verify quiet_make_receipt quiet_replay : quiet.

Lemma quiet_claim_job o a : quiet (claim_job o a).
Proof. unfold claim_job. quiet_tac. Qed.

Lemma quiet_complete_job o r : quiet (complete_job o r).
Proof. unfold complete_job. quiet_tac. Qed.
#[local] Hint Resolve quiet_claim_job quiet_complete_job : quiet.

Lemma quiet_reject o f s : quiet (persist_local_rejection ports o f s).
Proof. unfold persist_local_rejection. quiet_tac. Qed.
#[local] Hint Resolve quiet_reject : quiet.

(** Recovery never reaches the provider. *)
Lemma quiet_recover_claim c : quiet (recover_claim ports c).
Proof. unfold recover_claim. quiet_tac. Qed.
#[local] Hint Resolve quiet_recover_claim : quiet.

Lemma quiet_recover_claims cs : quiet (recover_claims ports cs).
Proof. induction cs; simpl; quiet_tac. Qed.
#[local] Hint Resolve quiet_recover_claims : quiet.

Lemma quiet_recover : quiet (recover_interrupted ports).
Proof. unfold recover_interrupted. quiet_tac. Qed.

(** ** At most one provider call per job *)

(** No provider call, or one for a job that had no ledger entry and has one
    afterwards. *)
Definition oneshot (k : LedgerJobKey) w w' : Prop :=
  steady w w' \/
  (l_job (w_ledger w) k = None /\ l_job (w_ledger w') k <> None /\
   (forall k', execs k' (w_trace w') = (execs k' (w_trace w) + if decide (k' = k) then 1 else 0)%nat) /\
   (forall k', l_job (w_ledger w) k' <> None -> l_job (w_ledger w') k' <> None) /\
   (l_inv (w_ledger w) -> l_inv (w_ledger w'))).

Definition oneM {A} (k : LedgerJobKey) (m : CtlM (L := L) A) : Prop := forall w, oneshot k w (m w).1.

Lemma steady_oneshot k w1 w2 w3 : steady w1 w2 -> oneshot k w2 w3 -> oneshot k w1 w3.
Proof.
  intros Hs [Hs2|(Hn & Hk & He & Hj & Hi)]; [left; exact (transitivity Hs Hs2)|right].
  pose proof (fun k => st_execs _ _ k Hs) as E. destruct Hs as [_ J I]. split_and!; eauto.
  - destruct (l_job (w_ledger w1) k) eqn:Ek; [|done]. exfalso. apply (J k); congruence.
  - intros k'. by rewrite He, E.
Qed.

Lemma oneshot_steady k w1 w2 w3 : oneshot k w1 w2 -> steady w2 w3 -> oneshot k w1 w3.
Proof.
  intros [Hs|(Hn & Hk & He & Hj & Hi)] Hs2; [left; exact (transitivity Hs Hs2)|right].
  pose proof (fun k => st_execs _ _ k Hs2) as E. destruct Hs2 as [_ J I]. split_and!; eauto.
  intros k'. by rewrite E, He.
Qed.

Lemma one_quiet {A} k (m : CtlM (L := L) A) : quiet m -> oneM k m.
Proof. intros Hq w. left. apply Hq. Qed.

Lemma one_bind {A B} k (m : CtlM (L := L) A) (f : A -> CtlM (L := L) B) :
  quiet m -> (forall a, oneM k (f a)) -> oneM k (st_bind m f).
Proof.
  intros Hm Hf w. specialize (Hm w). unfold st_bind. destruct (m w) as [w1 [a|e|]]; [|by left..].
  apply (steady_oneshot k w w1); [exact Hm|apply Hf].
Qed.

(** A granted claim was for an absent job, which is stored now. *)
Lemma claim_job_granted o a w w' :
  claim_job o a w = (w', Ok None) ->
  l_job (w_ledger w) (key_from_offer o) = None /\ l_job (w_ledger w') (key_from_offer o) <> None.
Proof.
  unfold claim_job. rewrite st_bind_lift. unfold claim_from_offer.
  destruct (identifier a); [|done..]. cbn [claim_key]. unfold st_bind at 1, ledger.
  set (c := mkClaim _ _ _ _ _). pose proof (l_claim_law c (w_ledger w)) as Hlaw.
  destruct (l_claim c (w_ledger w)) as [l [cl|e|]]; [|done..]. cbn [fst snd] in Hlaw.
  destruct cl as [|e|]; [| |done].
  - intros [= <-]. destruct Hlaw as [[_ Hne]|(Hn & Hs & _)]; [done|]. split; [exact Hn|]. simpl.
    change (key_from_offer o) with (claim_key c). by rewrite Hs.
  - unfold st_bind. destruct (replay_existing _ _ _ _) as [? []]; done.
Qed.

(** Behind a granted claim: one provider call, then nothing but quiet calls. *)
Lemma execute_claimed_steady o target id w :
  exists r, steady
    (mkWorld (w_ledger w) (w_trace w ++ [EvExecute (key_from_offer o)
       (mkAction (job_id o) target (intent_value (intent o))) r]))
    (execute_claimed ports libs o target id w).1.
Proof.
  unfold execute_claimed. set (action := mkAction _ _ _). unfold st_bind at 1, call.
  set (r := p_execute ports (w_trace w) action). exists r. set (w2 := mkWorld _ _).
  match goal with |- steady _ (?m w2).1 => assert (quiet m) as Hm; [|apply Hm] end.
  apply quiet_bind; [apply quiet_clock|]. intros t.
  destruct (provider_outcome r) as [[[[[st dec] failure] kind] spelling] ctx]. quiet_tac.
Qed.

Lemma one_dispatch o target : oneM (key_from_offer o) (dispatch ports libs o target).
Proof.
  unfold dispatch. apply one_bind; [auto with quiet|]. intros [e|record_id]; [apply one_quiet; auto with quiet|].
  intros w. unfold st_bind. pose proof (quiet_claim_job o record_id w) as Hq.
  destruct (claim_job o record_id w) as [w1 [[p|]|e|]] eqn:Ec; [by left| |by left..].
  destruct (claim_job_granted _ _ _ _ Ec) as [Hn Hs]. cbn [fst] in Hq.
  destruct (execute_claimed_steady o target record_id w1) as [r Hr].
  eapply oneshot_steady; [|exact Hr]. right.
  pose proof (fun k => st_execs _ _ k Hq) as E. destruct Hq as [_ J I]. split_and!; try done.
  intros k'. simpl. rewrite execs_app, E. unfold execs at 2. simpl.
  destruct (decide (k' = key_from_offer o)) as [->|Hne].
  - by rewrite bool_decide_eq_true_2.
  - by rewrite bool_decide_eq_false_2 by congruence.
Qed.

Lemma one_authorize o target : oneM (key_from_offer o) (authorize_and_dispatch ports libs o target).
Proof.
  unfold authorize_and_dispatch. apply one_bind; [by apply quiet_call|]. intros [e|d]; [apply one_quiet, quiet_reject|].
  destruct (denied d); [apply one_quiet, quiet_reject|apply one_dispatch].
Qed.

(** One call of [process] is a single shot at the job of the offer it decodes. *)
Lemma process_one bytes o w :
  decode_offer (lib_json_offer libs) (lib_intent_digest libs) bytes = Ok o ->
  oneshot (key_from_offer o) w (process config session ports libs bytes w).1.
Proof.
  intros Hd. unfold process. destruct (enabled config); [|by left].
  cbn [negb]. rewrite st_bind_lift, Hd.
  revert w. fold (oneM (A := ProcessedReceipt) (key_from_offer o)).
  apply one_bind; [auto with quiet|]. intros _. apply one_bind; [auto with quiet|]. intros _.
  apply one_bind; [by apply quiet_find|]. intros [e|]; [apply one_quiet; auto with quiet|].
  apply one_bind; [auto with quiet|]. intros now. split_if; [apply one_quiet; auto with quiet|].
  apply one_bind; [by apply quiet_call|]. intros [e|target]; [apply one_quiet; auto with quiet|].
  split_if; [apply one_authorize|apply one_quiet; auto with quiet].
Qed.

Lemma process_oneshot bytes w : exists k, oneshot k w (process config session ports libs bytes w).1.
Proof.
  destruct (decode_offer (lib_json_offer libs) (lib_intent_digest libs) bytes) as [o|e|] eqn:Hd;
    [exists (key_from_offer o); by apply process_one|exists (mkKey "" ""); left..];
    unfold process; (destruct (enabled config); [cbn [negb]; by rewrite st_bind_lift, Hd|done]).
Qed.

(** The claim invariant of a history and its ledger. *)
Definition executed_once w : Prop :=
  forall k, (execs k (w_trace w) <= 1)%nat /\
            ((0 < execs k (w_trace w))%nat -> l_job (w_ledger w) k <> None).

Lemma oneshot_executed_once k w w' : oneshot k w w' -> executed_once w -> executed_once w'.
Proof.
  intros [Hs|(Hn & Hk & He & Hj & _)] Hw k'; destruct (Hw k') as [Hle Hpos].
  - rewrite (st_execs _ _ k' Hs). destruct Hs. auto.
  - rewrite He. destruct (decide (k' = k)) as [->|]; [|split; [lia|]; intros; apply Hj, Hpos; lia].
    split; [|done]. destruct (decide (0 < execs k (w_trace w))%nat); [by destruct Hpos|lia].
Qed.

(** ** What precedes a provider call *)

(** A method that makes no provider call, or whose history has the given shape. *)
Definition shoots {A} (m : CtlM (L := L) A) (shape : list Event -> Prop) : Prop :=
  forall w, steady w (m w).1 \/ exists suf, w_trace (m w).1 = w_trace w ++ suf /\ shape suf.

Lemma shoots_quiet {A} (m : CtlM (L := L) A) shape : quiet m -> shoots m shape.
Proof. intros Hq w. left. apply Hq. Qed.

(** A quiet first call that appends [ev a] whenever it returns [a]. *)
Lemma shoots_bind {A B} (m : CtlM (L := L) A) (f : A -> CtlM (L := L) B) (ev : A -> list Event) shape :
  quiet m -> (forall w w' a, m w = (w', Ok a) -> w_trace w' = w_trace w ++ ev a) ->
  (forall a, shoots (f a) (fun suf => shape (ev a ++ suf))) -> shoots (st_bind m f) shape.
Proof.
  intros Hq Hev Hf w. specialize (Hq w). unfold st_bind. destruct (m w) as [w1 [a|e|]] eqn:E; [|by left..].
  cbn [fst] in Hq. destruct (Hf a w1) as [Hs|(suf & Ht & Hsh)]; [left; exact (transitivity Hq Hs)|].
  right. exists (ev a ++ suf). split; [|done]. by rewrite Ht, (Hev _ _ _ E), app_assoc.
Qed.

Lemma call_trace {A} (f : list Event -> A) ev w w' a :
  call f ev w = (w', Ok a) -> w_trace w' = w_trace w ++ [ev a].
Proof. by intros [= <- <-]. Qed.

Lemma claim_job_trace o a w w' :
  claim_job o a w = (w', Ok None) -> w_trace w' = w_trace w ++ [EvClaim (key_from_offer o) true].
Proof.
  unfold claim_job. rewrite st_bind_lift. unfold claim_from_offer.
  destruct (identifier a); [|done..]. cbn [claim_key]. unfold st_bind at 1, ledger.
  destruct (l_claim _ (w_ledger w)) as [l [[|e|]|e|]]; [by intros [= <-]| |done..].
  unfold st_bind. destruct (replay_existing _ _ _ _) as [? []]; done.
Qed.

Definition authorized_event (o : ActionOffer) : AuditEvent :=
  mkAuditEvent AkDispatchAuthorized (job_id o) (intent_digest o) None.

(** Dispatch: audit, then claim, then exactly one provider call. *)
Definition dispatch_shape (o : ActionOffer) (target : ResolvedControlTarget) (suf : list Event) : Prop :=
  exists aid r rest, Forall not_exec rest /\
    suf = [EvAudit (authorized_event o) (inr aid); EvClaim (key_from_offer o) true;
           EvExecute (key_from_offer o) (mkAction (job_id o) target (intent_value (intent o))) r] ++ rest.

Lemma shoots_dispatch o target : shoots (dispatch ports libs o target) (dispatch_shape o target).
Proof.
  unfold dispatch. apply (shoots_bind _ _ (fun a => [EvAudit (authorized_event o) a]));
    [auto with quiet|by intros w w' a ?%call_trace|].
  intros [e|aid]; [apply shoots_quiet; auto with quiet|]. intros w. unfold st_bind.
  pose proof (quiet_claim_job o aid w) as Hq.
  destruct (claim_job o aid w) as [w1 [[p|]|e|]] eqn:Ec; [by left| |by left..]. right.
  destruct (execute_claimed_steady o target aid w1) as [r [(rest & Ht & Hr) _ _]].
  eexists. split.
  - rewrite Ht. simpl. rewrite (claim_job_trace _ _ _ _ Ec), <- !app_assoc. done.
  - by exists aid, r, rest.
Qed.

(** The whole way of an offer to the provider. *)
Definition governed_shape (o : ActionOffer) (suf : list Event) : Prop :=
  exists signed now target d suf',
    signing_bytes libs o = Ok signed /\
    u64_field (issued_at_ms o) <= now < u64_field (expires_at_ms o) /\
    r_target target = intent_target (intent o) /\
    d = mkDecision true true true true /\ dispatch_shape o target suf' /\
    suf = [EvVerify (key_id (cloud_authentication o)) (auth_signature (cloud_authentication o)) signed (inr true);
           EvFind (key_from_offer o) false; EvClock now;
           EvResolve (gateway_id o) (intent_target (intent o)) (inr target);
           EvAuthority o target (inr d)] ++ suf'.

Lemma denied_none d : denied d = None -> d = mkDecision true true true true.
Proof. destruct d as [[] [] [] []]; done. Qed.

Lemma verify_trace o w w' u :
  verify_signature ports libs o w = (w', Ok u) ->
  exists signed, signing_bytes libs o = Ok signed /\
    w_trace w' = w_trace w ++ [EvVerify (key_id (cloud_authentication o)) (auth_signature (cloud_authentication o)) signed (inr true)].
Proof.
  unfold verify_signature. rewrite st_bind_lift. destruct (signing_bytes libs o) as [signed|?|]; [|done..].
  unfold st_bind, call. destruct (p_verify _ _ _ _ _) as [e|[]]; [done| |done]. intros [= <- <-]. by exists signed.
Qed.

Lemma find_trace key w w' e :
  ledger (l_find key) (fun r => EvFind key (found_entry r)) w = (w', Ok e) ->
  w_trace w' = w_trace w ++ [EvFind key (match e with Some _ => true | None => false end)].
Proof.
  unfold ledger. destruct (l_find key (w_ledger w)) as [l [x|err|]]; [|done..].
  intros [= <- <-]. by destruct x.
Qed.

Lemma process_governed bytes w :
  let w' := (process config session ports libs bytes w).1 in
  steady w w' \/
  exists o suf, decode_offer (lib_json_offer libs) (lib_intent_digest libs) bytes = Ok o /\
    validate_control_session session o = Ok tt /\
    w_trace w' = w_trace w ++ suf /\ governed_shape o suf.
Proof.
  intros w'. subst w'. unfold process. destruct (enabled config); [|by left].
  cbn [negb]. rewrite st_bind_lift. destruct (decode_offer _ _ bytes) as [o|e|]; [|by left..].
  rewrite st_bind_lift. destruct (validate_control_session session o) as [[]|e|] eqn:Hs; [|by left..].
  match goal with |- context [w_trace (?m w).1] => assert (shoots m (governed_shape o)) as Hsh end.
  { destruct (signing_bytes libs o) as [signed|e|] eqn:Hsb;
      [|intros w0; left; unfold st_bind, verify_signature; rewrite st_bind_lift, Hsb; reflexivity..].
    apply (shoots_bind _ _ (fun _ => [EvVerify (key_id (cloud_authentication o)) (auth_signature (cloud_authentication o)) signed (inr true)]));
      [by auto with quiet|intros w0 w1 u (x & Hx & Ht)%verify_trace; by rewrite Hsb in Hx; injection Hx as <-|]. intros _.
    eapply shoots_bind; [by auto with quiet|by apply find_trace|]. intros [e|]; [apply shoots_quiet; by auto with quiet|].
    apply (shoots_bind _ _ (fun a => [EvClock a])); [by auto with quiet|by intros ? ? ? ?%call_trace|]. intros now.
    destruct ((now <? _) || _) eqn:Ewin; [apply shoots_quiet; by auto with quiet|].
    apply (shoots_bind _ _ (fun a => [EvResolve (gateway_id o) (intent_target (intent o)) a])); [by auto with quiet|by intros ? ? ? ?%call_trace|].
    intros [e|target]; [apply shoots_quiet; by auto with quiet|].
    destruct (bool_decide _) eqn:Et; [|apply shoots_quiet; by auto with quiet]. bool_facts.
    apply (shoots_bind _ _ (fun a => [EvAuthority o target a])); [by auto with quiet|by intros ? ? ? ?%call_trace|].
    intros [e|d]; [apply shoots_quiet; by auto with quiet|].
    destruct (denied d) eqn:Ed; [apply shoots_quiet; by auto with quiet|]. apply denied_none in Ed.
    intros w1. destruct (shoots_dispatch o target w1) as [Hq|(suf & Ht & Hd)]; [by left|right].
    exists suf. split; [done|]. exists signed, now, target, d, suf. split_and!; done || lia. }
  destruct (Hsh w) as [Hq|(suf & Ht & Hg)]; [by left|right]. by exists o, suf.
Qed.

(** ** Recovery *)

(** Jobs a ledger holds in progress. *)
Definition claimed_jobs w (k : LedgerJobKey) : Prop :=
  exists d c, l_job (w_ledger w) k = Some (mkEntry d (InProgress c)).

Lemma make_receipt_ok j t d st dec f e a status w w' r :
  make_receipt ports j t d st dec f e a status w = (w', Ok r) ->
  stage r = st /\ decision r = dec /\ failure_code r = failure_str <$> f /\
  receipt_job_id r = j /\ receipt_intent_digest r = d /\ w_ledger w' = w_ledger w.
Proof.
  unfold make_receipt, clock. unfold st_bind at 1, call at 1. unfold st_bind at 1, call at 1.
  rewrite st_bind_lift. destruct (receipt_audit_new a status); [|done..].
  unfold st_lift, terminal. intros [= <- Hr]. apply obind_ok in Hr as (? & _ & <-%Ok_inj). done.
Qed.

Definition interrupted_receipt (p : ProcessedReceipt) : Prop :=
  disposition p = Recovered /\ stage (processed_receipt p) = StageUnknown /\
  decision (processed_receipt p) = DecisionUnknown /\
  failure_code (processed_receipt p) = Some (failure_str Interrupted).

Lemma recover_claim_ok c w w' p :
  recover_claim ports c w = (w', Ok p) ->
  interrupted_receipt p /\
  l_job (w_ledger w') (claim_key c) = Some (complete_entry (claim_intent_digest c) (processed_receipt p)) /\
  forall k, k <> claim_key c -> l_job (w_ledger w') k = l_job (w_ledger w) k.
Proof.
  unfold recover_claim, audit_record. unfold st_bind at 1, call at 1.
  set (w1 := mkWorld _ _). destruct (match p_audit _ _ _ with inl _ => _ | inr id => _ end) as [aid status].
  intros (w2 & r & Hr & Hc)%st_bind_ok. apply make_receipt_ok in Hr as (Hs & Hd & Hf & Hj & Hg & Hl).
  apply st_bind_ok in Hc as (w3 & u & Hc & Hret). unfold st_ret in Hret. simplify_eq.
  unfold ledger in Hc. pose proof (l_complete_ok (claim_key c) (claim_intent_digest c) r (w_ledger w2)) as Hok.
  pose proof (l_complete_law (claim_key c) (claim_intent_digest c) r (w_ledger w2)) as Hlaw.
  destruct (l_complete _ _ r (w_ledger w2)) as [l [[]|e|]]; [|done..]. simplify_eq. simpl in *.
  split; [unfold interrupted_receipt; simpl; by rewrite Hs, Hd, Hf|]. split; [by apply Hok|]. intros k Hk. rewrite Hl in Hlaw.
  destruct Hlaw as [->|[_ Ho]]; [done|]. by apply Ho.
Qed.

Lemma recover_claims_ok cs w w' ps :
  recover_claims ports cs w = (w', Ok ps) ->
  Forall interrupted_receipt ps /\
  (forall k, k ∉ (claim_key <$> cs) -> l_job (w_ledger w') k = l_job (w_ledger w) k) /\
  (forall k, k ∈ (claim_key <$> cs) -> exists d p, p ∈ ps /\
     l_job (w_ledger w') k = Some (complete_entry d (processed_receipt p))).
Proof.
  revert w w' ps. induction cs as [|c cs IH]; intros w w' ps; simpl.
  - intros [= <- <-]. split_and!; [constructor|done|]. intros k Hk. by apply not_elem_of_nil in Hk.
  - intros (w1 & p & Hp & (w2 & ps' & Hps & Hret)%st_bind_ok)%st_bind_ok.
    unfold st_ret in Hret. simplify_eq. destruct (IH _ _ _ Hps) as (Hf & Ho & Hk).
    destruct (recover_claim_ok _ _ _ _ Hp) as (Hi & Hc & Hoc). split_and!; [by constructor| |].
    + intros k [Hne Hnk]%not_elem_of_cons. rewrite Ho by done. by apply Hoc.
    + intros k Hk'. destruct (decide (k ∈ claim_key <$> cs)) as [Hin|Hout].
      * destruct (Hk k Hin) as (d & p' & Hin' & Hj). exists d, p'. split; [by right|done].
      * apply elem_of_cons in Hk' as [->|]; [|done]. exists (claim_intent_digest c), p.
        split; [by left|]. rewrite Ho by done. exact Hc.
Qed.

End Safety.

(** ** Histories of calls *)

(** What a gateway process does over its lives: offers (each under the
    configuration and session of the moment), startup recovery, receipts. *)
Inductive ControlCall :=
| CallProcess (config : IntegrationControlConfig) (session : ControlSession) (bytes : list Z)
| CallRecover
| CallAcknowledge (ack : CloudLinkDurableAck).

Section Histories.
Context {L : Type} `{IntegrationControlLedgerLaws L} (ports : Ports) (libs : Libraries).

Definition control_step (c : ControlCall) (w : World (L := L)) : World (L := L) :=
  match c with
  | CallProcess config session bytes => (process config session ports libs bytes w).1
  | CallRecover => (recover_interrupted ports w).1
  | CallAcknowledge ack => mkWorld (l_acknowledge ack (w_ledger w)).1 (w_trace w)
  end.

Definition run_calls (cs : list ControlCall) (w : World (L := L)) : World (L := L) :=
  foldl (fun w c => control_step c w) w cs.

Lemma control_step_oneshot c w : exists k, oneshot k w (control_step c w).
Proof.
  destruct c as [config session bytes| |ack]; simpl.
  - apply process_oneshot.
  - exists (mkKey "" ""). left. apply quiet_recover.
  - exists (mkKey "" ""). left. constructor; simpl.
    + exists []. by rewrite app_nil_r.
    + intros k. by rewrite l_acknowledge_law.
    + apply l_acknowledge_inv.
Qed.

Lemma run_calls_invariant (P : World (L := L) -> Prop) cs w :
  (forall k w w', oneshot k w w' -> P w -> P w') -> P w -> P (run_calls cs w).
Proof.
  intros HP. revert w. induction cs as [|c cs IH]; intros w Hw; [done|]. apply IH.
  destruct (control_step_oneshot c w) as [k Hk]. by apply (HP k w).
Qed.

End Histories.

(** ** Properties *)

(** C3. At most one provider call per job: over any sequence of offers (replayed
    or not, under any configuration and session), startup recoveries and
    receipts, with any behaviour of the verifier, resolver, policy, audit,
    clock and provider, and any ledger that keeps its contract, the provider
    is invoked at most once for a job key. *)
Theorem at_most_one_execution {L} `{IntegrationControlLedgerLaws L} ports libs cs (w : World (L := L)) k :
  w_trace w = [] -> (execs k (w_trace (run_calls ports libs cs w)) <= 1)%nat.
Proof.
  intros Hw. apply (run_calls_invariant ports libs executed_once cs w).
  - intros k' w1 w2. apply oneshot_executed_once.
  - intros k'. rewrite Hw. split; [apply Nat.le_0_1|]. intros Hlt. by apply Nat.lt_irrefl in Hlt.
Qed.

(** C7. Every provider call is governed: if [process] invokes the provider, the
    offer decoded and matched the session exactly, and the new history is, in
    this order, a positive verification of the offer's key, signature and signed
    bytes, a ledger lookup that found nothing, a clock reading inside the offer's
    window, a resolution of the offered target for the gateway, a local decision
    on that offer and target with all four checks granted, a recorded dispatch
    authorisation, a granted claim, and one provider call with the offered value,
    followed by no other provider call. *)
Theorem governed_execution {L} `{IntegrationControlLedgerLaws L} config session ports libs bytes
    (w : World (L := L)) k a r :
  let w' := (process config session ports libs bytes w).1 in
  EvExecute k a r ∈ drop (length (w_trace w)) (w_trace w') ->
  exists o suf, decode_offer (lib_json_offer libs) (lib_intent_digest libs) bytes = Ok o /\
    validate_control_session session o = Ok tt /\
    w_trace w' = w_trace w ++ suf /\ governed_shape libs o suf.
Proof.
  intros w' Hex. destruct (process_governed config session ports libs bytes w) as [Hs|Hg]; [|exact Hg].
  exfalso. fold w' in Hs. destruct Hs as [(suf & Ht & Hf) _ _]. rewrite Ht, drop_app_length in Hex.
  pose proof (Forall_elem Hf Hex k) as Hk. simpl in Hk. by rewrite bool_decide_eq_true_2 in Hk.
Qed.

(** C24. Startup recovery closes every interrupted job and retries none: when it
    succeeds no job is left claimed, every formerly claimed job ends with a
    returned receipt that states an unknown outcome with code INTERRUPTED, and
    the provider was not invoked. *)
Theorem recovery_closes_claims {L} `{IntegrationControlLedgerLaws L} ports (w w' : World (L := L)) ps :
  l_inv (w_ledger w) -> recover_interrupted ports w = (w', Ok ps) ->
  (forall k, ~ claimed_jobs w' k) /\ Forall interrupted_receipt ps /\
  (forall k, claimed_jobs w k -> exists d p, p ∈ ps /\
     l_job (w_ledger w') k = Some (complete_entry d (processed_receipt p))) /\
  (forall k, execs k (w_trace w') = execs k (w_trace w)).
Proof.
  intros Hi Hr. pose proof (quiet_recover ports w) as Hq. rewrite Hr in Hq. cbn [fst] in Hq.
  unfold recover_interrupted in Hr. apply st_bind_ok in Hr as (w1 & cs & Hl & Hc).
  destruct (recover_claims_ok ports cs w1 w' ps Hc) as (Hf & Ho & Hk).
  unfold ledger in Hl. pose proof (l_interrupted_law (w_ledger w)) as Hjob.
  pose proof (l_interrupted_all (w_ledger w)) as Hall.
  destruct (l_interrupted (w_ledger w)) as [l [cs'|e|]]; [|done..]. simplify_eq. cbn [fst snd w_ledger] in *.
  assert (forall k, claimed_jobs w k -> k ∈ (claim_key <$> cs)) as Hin.
  { intros k (d & c & Hkc). destruct (Hall cs k d c Hi eq_refl Hkc) as (<- & _ & Hin).
    by apply list_elem_of_fmap_2. }
  split_and!; [|done|by intros k ?%Hin%Hk|by intros k; apply st_execs].
  intros k (d & c & Hkc). destruct (decide (k ∈ claim_key <$> cs)) as [Hk'|Hk'].
  - destruct (Hk k Hk') as (d' & p & _ & Hj). by rewrite Hj in Hkc.
  - rewrite (Ho k Hk'), Hjob in Hkc. apply Hk', Hin. by exists d, c.
Qed.

(** *** Results of [process] *)

Section Results.
Context {L : Type} `{IntegrationControlLedgerLaws L}.
Context (config : IntegrationControlConfig) (session : ControlSession) (ports : Ports) (libs : Libraries).

Lemma replay_existing_ok key o e (w w' : World (L := L)) p :
  replay_existing key o e w = (w', Ok p) ->
  disposition p = Replayed /\ e = complete_entry (intent_digest o) (processed_receipt p).
Proof.
  unfold replay_existing. destruct (bool_decide _) eqn:Hd; [|done]. cbn [negb]. bool_facts.
  destruct e as [d [c|r]]; simpl in *; [done|].
  intros (w1 & u & _ & Hret)%st_bind_ok. unfold st_ret in Hret. by simplify_eq.
Qed.

Lemma claim_job_some o a (w w' : World (L := L)) p :
  claim_job o a w = (w', Ok (Some p)) -> disposition p = Replayed.
Proof.
  unfold claim_job. rewrite st_bind_lift.
  destruct (claim_from_offer o a) as [c|e|]; [|done..].
  intros (w1 & cl & _ & Hcl)%st_bind_ok. destruct cl as [|e|]; [done| |done].
  apply st_bind_ok in Hcl as (w2 & p' & Hp & Hret). unfold st_ret in Hret. simplify_eq.
  by apply replay_existing_ok in Hp as [? _].
Qed.

Lemma complete_job_ok o r (w w' : World (L := L)) p :
  complete_job o r w = (w', Ok p) -> processed_receipt p = r.
Proof.
  unfold complete_job. intros (w1 & u & _ & Hret)%st_bind_ok. unfold st_ret in Hret. by simplify_eq.
Qed.

Lemma reject_ok o f s (w w' : World (L := L)) p :
  persist_local_rejection ports o f s w = (w', Ok p) ->
  disposition p = Replayed \/ stage (processed_receipt p) = EdgeRejected.
Proof.
  unfold persist_local_rejection. intros (w1 & rec & _ & Hk)%st_bind_ok.
  destruct (match rec with inl _ => _ | inr id => _ end) as [aid status].
  apply st_bind_ok in Hk as (w2 & [p'|] & Hc & Hk).
  - unfold st_ret in Hk. simplify_eq. left. by apply claim_job_some in Hc.
  - apply st_bind_ok in Hk as (w3 & r & Hr & Hd). right.
    rewrite (complete_job_ok _ _ _ _ _ Hd). by apply make_receipt_ok in Hr as (? & _).
Qed.

(** The events behind a [ProviderAccepted] stage. *)
Definition acceptance_recorded (o : ActionOffer) (tr : list Event) : Prop :=
  exists a ctx id,
    EvExecute (key_from_offer o) a (Some (ProvAccepted ctx)) ∈ tr /\
    EvAudit (mkAuditEvent AkProviderAccepted (job_id o) (intent_digest o) None) (inr id) ∈ tr.

Lemma acceptance_app o tr tr' : acceptance_recorded o tr -> acceptance_recorded o (tr ++ tr').
Proof.
  intros (a & ctx & id & H1 & H2). exists a, ctx, id. by split; apply elem_of_app; left.
Qed.

Lemma acceptance_steady o (w w' : World (L := L)) :
  steady w w' -> acceptance_recorded o (w_trace w) -> acceptance_recorded o (w_trace w').
Proof. intros [(suf & -> & _) _ _]. apply acceptance_app. Qed.

Lemma execute_claimed_accepted o target id (w w' : World (L := L)) p :
  execute_claimed ports libs o target id w = (w', Ok p) ->
  stage (processed_receipt p) = ProviderAccepted -> acceptance_recorded o (w_trace w').
Proof.
  unfold execute_claimed. set (action := mkAction _ _ _).
  intros (w1 & res & Hres & (w2 & t & Ht & Hk)%st_bind_ok)%st_bind_ok Hst.
  destruct (provider_outcome res) as [[[[[st dec] failure] kind] spelling] ctx] eqn:Ep.
  apply st_bind_ok in Hk as (w3 & ev & Hev & (w4 & fin & Hfin & (w5 & r & Hr & Hc)%st_bind_ok)%st_bind_ok).
  apply complete_job_ok in Hc as Hpr. rewrite Hpr in Hst.
  assert (steady w4 w') as Hq.
  { transitivity w5.
    - destruct fin; [pose proof (quiet_make_receipt ports (job_id o) (intent_target (intent o)) (intent_digest o)
        StageUnknown DecisionUnknown (Some AuditIncomplete) (Some ev) id AuditIncompleteStatus w4) as Hq
        |pose proof (quiet_make_receipt ports (job_id o) (intent_target (intent o)) (intent_digest o)
        st dec failure (Some ev) s AuditComplete w4) as Hq]; by rewrite Hr in Hq.
    - pose proof (quiet_complete_job o r w5) as Hq. by rewrite Hc in Hq. }
  apply (acceptance_steady _ _ _ Hq). apply call_trace in Hres, Ht, Hfin. unfold st_lift in Hev. simplify_eq.
  rewrite Hfin, Ht, Hres.
  destruct fin as [e|fid]; apply make_receipt_ok in Hr as (Hs & _); [congruence|].
  rewrite Hst in Hs. unfold provider_outcome in Ep. repeat case_match; simplify_eq.
  eexists _, _, fid. split; rewrite <- !app_assoc; apply elem_of_app; right; simpl; [by left|right; right; by left].
Qed.

End Results.

(** C23. Replays answer from the ledger: if the ledger already holds an entry for
    the job of the offer, [process] invokes the provider for no job, whatever it
    answers, and a successful answer is the terminal receipt the entry stores for
    that digest, marked as replayed; so a job in progress or another digest is
    never a success. *)
Theorem replay_from_ledger {L} `{IntegrationControlLedgerLaws L} config session ports libs bytes o e
    (w : World (L := L)) :
  decode_offer (lib_json_offer libs) (lib_intent_digest libs) bytes = Ok o ->
  l_job (w_ledger w) (key_from_offer o) = Some e ->
  let out := process config session ports libs bytes w in
  (forall k, execs k (w_trace out.1) = execs k (w_trace w)) /\
  forall p, out.2 = Ok p ->
    disposition p = Replayed /\ e = complete_entry (intent_digest o) (processed_receipt p).
Proof.
  intros Hd Hj out. subst out. split.
  { intros k. destruct (process_one config session ports libs bytes o w Hd) as [Hs|[Hn _]]; [by apply st_execs|].
    by rewrite Hn in Hj. }
  intros p Hp. destruct (process config session ports libs bytes w) as [w' r] eqn:E. cbn [snd] in Hp. subst r.
  unfold process in E. destruct (enabled config); [|done]. cbn [negb] in E.
  rewrite st_bind_lift, Hd, st_bind_lift in E.
  destruct (validate_control_session session o); [|done..].
  apply st_bind_ok in E as (w1 & u & Hv & (w2 & ex & Hf & Hk)%st_bind_ok).
  assert (l_job (w_ledger w1) = l_job (w_ledger w)) as Hl1.
  { unfold verify_signature in Hv. rewrite st_bind_lift in Hv. destruct (signing_bytes libs o); [|done..].
    unfold st_bind, call, st_ret, st_fail in Hv. destruct (p_verify _ _ _ _ _) as [?|[]]; by inversion Hv; subst. }
  assert (ex = Some e) as ->; [|by apply replay_existing_ok in Hk].
  unfold ledger in Hf. pose proof (l_find_law (key_from_offer o) (w_ledger w1)) as [_ Hfind].
  destruct (l_find (key_from_offer o) (w_ledger w1)) as [l [x|?|]]; [|done..]. simplify_eq.
  rewrite (Hfind ex eq_refl), Hl1. exact Hj.
Qed.

(** C25. Receipts tell the truth about the provider: a newly produced receipt
    with stage [ProviderAccepted] is returned only when the provider accepted
    that job in this history and the acceptance was recorded by the audit
    sink; a local rejection is never reported as a provider outcome. *)
Theorem accepted_receipt_truthful {L} `{IntegrationControlLedgerLaws L} config session ports libs bytes
    (w w' : World (L := L)) p :
  process config session ports libs bytes w = (w', Ok p) ->
  disposition p = Executed -> stage (processed_receipt p) = ProviderAccepted ->
  exists o, decode_offer (lib_json_offer libs) (lib_intent_digest libs) bytes = Ok o /\
            acceptance_recorded o (w_trace w').
Proof.
  intros Hp Hx Hst. unfold process in Hp. destruct (enabled config); [|done]. cbn [negb] in Hp.
  rewrite st_bind_lift in Hp. destruct (decode_offer _ _ bytes) as [o|?|]; [|done..]. exists o. split; [done|].
  rewrite st_bind_lift in Hp. destruct (validate_control_session session o); [|done..].
  assert (forall f s w0, persist_local_rejection ports o f s w0 = (w', Ok p) -> acceptance_recorded o (w_trace w')) as Hrej.
  { intros f s w0 Hr. destruct (reject_ok _ _ _ _ _ _ _ Hr); congruence. }
  apply st_bind_ok in Hp as (w1 & u & _ & (w2 & [e|] & _ & Hk)%st_bind_ok).
  { apply replay_existing_ok in Hk as [? _]. congruence. }
  apply st_bind_ok in Hk as (w3 & now & _ & Hk). split_if_in Hk; [done|].
  apply st_bind_ok in Hk as (w4 & [e|target] & _ & Hk); [by eapply Hrej|].
  split_if_in Hk; [|by eapply Hrej]. unfold authorize_and_dispatch in Hk.
  apply st_bind_ok in Hk as (w5 & [e|d] & _ & Hk); [by eapply Hrej|].
  destruct (denied d); [by eapply Hrej|]. unfold dispatch in Hk.
  apply st_bind_ok in Hk as (w6 & [e|id] & _ & Hk); [by eapply Hrej|].
  apply st_bind_ok in Hk as (w7 & [p'|] & Hc & Hk).
  - apply claim_job_some in Hc. unfold st_ret in Hk. simplify_eq. congruence.
  - by apply (execute_claimed_accepted ports libs o target id w7 w' p).
Qed.

(** *** Witnesses: one signed offer, delivered twice to a memory ledger *)

Definition demo_uuid : string := "7b1f0a52-33c4-4e0a-9d1e-0f2a5c6b7d8e".
Definition demo_digest : string :=
  "sha256:cccccccccccccccccccccccccccccccccccccccccccccccccccccccccccccccc".
Definition demo_sig : string :=
  "AAAAAAAAAAAAAAAAAAAAAAAAAAAAAAAAAAAAAAAAAAAAAAAAAAAAAAAAAAAAAAAAAAAAAAAAAAAAAAAAAAAAAA".
Definition demo_target : ActionTarget := mkTarget "ha-main" "7" "light.kitchen" "is_on".
Definition demo_intent : ActionIntent :=
  mkIntent ACTION_INTENT_SCHEMA CAPABILITY_ID demo_target true
    (mkGovernance "governed-job" "deny" PERMISSION "high" "required" "required" "required" "required" true)
    (mkAuthorization "pd-1" "user-1" PERMISSION "900")
    (mkConfirmation demo_uuid "user-1" "950").
Definition demo_offer : ActionOffer :=
  mkOffer ACTION_OFFER_SCHEMA CLOUDLINK_PROTOCOL CLOUDLINK_PROTOCOL_VERSION INTEGRATION_CONTROL_EXTENSION
    MESSAGE_KIND_OFFER demo_uuid demo_uuid "3" "1" demo_uuid "1000" "2000" demo_digest demo_intent
    (mkAuthentication "cloud-key" "Ed25519" demo_sig).

Definition demo_resolved : ResolvedControlTarget := mkResolved demo_target Light "light.kitchen".
Definition demo_ports : Ports :=
  mkPorts (fun _ _ _ _ => inr true) (fun _ _ _ => inr demo_resolved)
    (fun _ _ _ => inr (mkDecision true true true true)) (fun _ _ => inr "audit-1"%string)
    (fun _ _ => Some (ProvAccepted "ctx")) (fun _ => 1500) (fun _ => demo_uuid).
Definition demo_libs : Libraries :=
  mkLibraries (fun _ => Some demo_offer) (fun _ => Some demo_digest) (fun _ => Some [1])
    (fun _ _ _ => Some demo_digest).
Definition demo_config : IntegrationControlConfig := mkConfig true 5000.
Definition demo_control_session : ControlSession := mkControlSession demo_uuid demo_uuid 3 1.

#[local] Instance demo_ledger : IntegrationControlLedger MemoryState :=
  MemoryIntegrationControlLedger (fun _ => Some demo_digest).
#[local] Instance demo_ledger_laws : IntegrationControlLedgerLaws MemoryState :=
  MemoryLedger_laws (fun _ => Some demo_digest).

Definition world0 : World (L := MemoryState) := mkWorld memory_default [].
Definition demo_call : ControlCall := CallProcess demo_config demo_control_session [123].
Definition world1 : World (L := MemoryState) := run_calls demo_ports demo_libs [demo_call] world0.
Definition demo_key : LedgerJobKey := mkKey demo_uuid demo_uuid.

Lemma at_most_one_execution_witness :
  execs demo_key (w_trace world1) = 1%nat /\
  (execs demo_key (w_trace (run_calls demo_ports demo_libs [demo_call; demo_call; CallRecover] world0)) <= 1)%nat.
Proof.
  split; [by vm_compute|].
  exact (at_most_one_execution demo_ports demo_libs [demo_call; demo_call; CallRecover] world0 demo_key eq_refl).
Defined.

Lemma governed_execution_witness :
  exists o suf, decode_offer (lib_json_offer demo_libs) (lib_intent_digest demo_libs) [123] = Ok o /\
    w_trace world1 = suf /\ governed_shape demo_libs o suf.
Proof.
  destruct (governed_execution demo_config demo_control_session demo_ports demo_libs [123] world0 demo_key
    (mkAction demo_uuid demo_resolved true) (Some (ProvAccepted "ctx"))) as (o & suf & Hd & _ & Ht & Hg).
  { apply (list_elem_of_lookup_2 _ 7). vm_compute. reflexivity. }
  exists o, suf. split; [exact Hd|split; [exact Ht|exact Hg]].
Defined.

Definition demo_receipt : ActionReceiptPayload :=
  mkReceipt ACTION_RECEIPT_SCHEMA demo_uuid demo_uuid "1" CAPABILITY_ID demo_target demo_digest
    ProviderAccepted Accepted "1500" (Some demo_digest) None (mkReceiptAudit "audit-1" AuditComplete).

(** A process that stopped between claim and receipt. *)
Definition claimed_world : World (L := MemoryState) :=
  mkWorld (m_claim (mkClaim demo_key demo_digest demo_target true "audit-1") memory_default).1 [].

Lemma recovery_closes_claims_witness :
  claimed_jobs claimed_world demo_key /\
  ~ claimed_jobs (recover_interrupted demo_ports claimed_world).1 demo_key.
Proof.
  split; [eexists _, _; vm_compute; reflexivity|].
  assert (exists ps, recover_interrupted demo_ports claimed_world =
            ((recover_interrupted demo_ports claimed_world).1, Ok ps)) as [ps Hr]
    by (eexists; vm_compute; reflexivity).
  assert (memory_inv (w_ledger claimed_world)) as Hi by (constructor; [by split|constructor]).
  exact (proj1 (recovery_closes_claims demo_ports claimed_world _ ps Hi Hr) demo_key).
Defined.

(** The same offer again, and an offer whose job is still claimed. *)
Lemma replay_from_ledger_witness :
  (exists p, (process demo_config demo_control_session demo_ports demo_libs [123] world1).2 = Ok p /\
             disposition p = Replayed) /\
  (process demo_config demo_control_session demo_ports demo_libs [123] claimed_world).2 = Err JobInProgress /\
  execs demo_key (w_trace (process demo_config demo_control_session demo_ports demo_libs [123] claimed_world).1) = 0%nat.
Proof.
  split_and!.
  - destruct (replay_from_ledger demo_config demo_control_session demo_ports demo_libs [123] demo_offer
      (complete_entry demo_digest demo_receipt) world1) as [_ H]; [by vm_compute|by vm_compute|].
    assert (exists p, (process demo_config demo_control_session demo_ports demo_libs [123] world1).2 = Ok p)
      as [p Hp] by (eexists; vm_compute; reflexivity).
    exists p. exact (conj Hp (proj1 (H p Hp))).
  - by vm_compute.
  - destruct (replay_from_ledger demo_config demo_control_session demo_ports demo_libs [123] demo_offer
      (in_progress (mkClaim demo_key demo_digest demo_target true "audit-1")) claimed_world) as [H _];
      [by vm_compute|by vm_compute|]. exact (H demo_key).
Defined.

Lemma accepted_receipt_truthful_witness :
  exists o, acceptance_recorded o (w_trace world1).
Proof.
  set (out := process demo_config demo_control_session demo_ports demo_libs [123] world0).
  destruct (accepted_receipt_truthful demo_config demo_control_session demo_ports demo_libs [123] world0 out.1
    (mkProcessed Executed demo_receipt)) as (o & _ & Ha); [by vm_compute|done|done|].
  exists o. exact Ha.
Defined.
