(* ===== verification/Dl645.v ===== *)
(** * The DL/T 645-2007 meter codec

    [libs/aether-core/src/codec/dl645.rs]: addresses, data identifiers, the
    read request, the decoding of a response and BCD values. Bytes are [Z] in
    [[0, 256)]; a fixed-size array is a list of that length. The scaled [f64]
    results of [parse_energy] and its siblings are left out, the BCD integer
    they scale is not. *)

From S2P Require Import Prelude.

Definition FRAME_START : Z := 0x68.
Definition FRAME_END : Z := 0x16.
Definition CTRL_READ_DATA : Z := 0x11.
Definition CTRL_READ_DATA_RESP : Z := 0x91.
Definition CTRL_READ_DATA_ERR : Z := 0xD1.
Definition DATA_OFFSET : Z := 0x33.
Definition MAX_FRAME_SIZE : nat := 256.
Definition BROADCAST_ADDR : list Z := [0x99; 0x99; 0x99; 0x99; 0x99; 0x99].

Inductive Dl645Error :=
| NoData | DateError | NoPermission | FrameError | ChecksumError | InvalidLength
| InvalidMarkers | AddressError | OtherError.

Record MeterAddress := mkAddress { addr_bytes : list Z }.
Record DataIdentifier := mkDataId { di_bytes : list Z }.
Record Dl645Frame := mkFrame {
  meter_addr : MeterAddress; data_id : DataIdentifier; frame_data : list Z; data_len : nat
}.

(** ** Hexadecimal text *)

Definition hex_char_to_nibble (c : Z) : option Z :=
  if (48 <=? c) && (c <=? 57) then Some (c - 48)
  else if (65 <=? c) && (c <=? 70) then Some (c - 65 + 10)
  else if (97 <=? c) && (c <=? 102) then Some (c - 97 + 10)
  else None.

Definition nibble_to_hex_char (n : Z) : Z :=
  if Z.land n 0x0F <=? 9 then 48 + n else 65 + (n - 10).

(** The loop shared by the two text constructors. *)
Fixpoint parse_hex_pairs (e : Dl645Error) (l : list Z) : outcome Dl645Error (list Z) :=
  match l with
  | h :: lo :: l' =>
      let? high := ok_or e (hex_char_to_nibble h) in
      let? low := ok_or e (hex_char_to_nibble lo) in
      let? rest := parse_hex_pairs e l' in
      Ok (Z.lor (Z.shiftl high 4) low :: rest)
  | _ => Ok []
  end.

Definition address_parse (s : list Z) : outcome Dl645Error MeterAddress :=
  if negb (length s =? 12)%nat then Err AddressError
  else let? b := parse_hex_pairs AddressError s in Ok (mkAddress b).

Definition from_hex_str (s : list Z) : outcome Dl645Error DataIdentifier :=
  if negb (length s =? 8)%nat then Err FrameError
  else let? b := parse_hex_pairs FrameError s in Ok (mkDataId b).

(** [Display]: two upper-case digits per byte; also [to_hex_string]. *)
Definition hex_pairs (l : list Z) : list Z :=
  l ≫= fun b => [nibble_to_hex_char (Z.shiftr b 4); nibble_to_hex_char (Z.land b 0x0F)].
Definition address_display (a : MeterAddress) : list Z := hex_pairs (addr_bytes a).
Definition to_hex_string (d : DataIdentifier) : list Z := hex_pairs (di_bytes d).

(** ** Wire order *)

Definition broadcast : MeterAddress := mkAddress BROADCAST_ADDR.
Definition addr_from_wire (wire : list Z) : outcome Dl645Error MeterAddress :=
  if (length wire <? 6)%nat then Err AddressError else Ok (mkAddress (reverse (take 6 wire))).
Definition addr_to_wire (a : MeterAddress) : list Z := reverse (addr_bytes a).
Definition di_to_wire (d : DataIdentifier) : list Z := reverse (di_bytes d).
(** [from_u32]: big-endian bytes. *)
Definition di_from_u32 (v : Z) : DataIdentifier := mkDataId (reverse (to_le 4 v)).

(** ** Frames *)

Definition pad64 (l : list Z) : list Z := l ++ replicate (64 - length l) 0.
Definition encode_data (data : list Z) : list Z :=
  pad64 ((fun b => wrap 8 (b + DATA_OFFSET)) <$> take 64 data).
Definition decode_data (data : list Z) : list Z :=
  pad64 ((fun b => wrap 8 (b - DATA_OFFSET)) <$> take 64 data).

(** A [u16] running sum, wrapping, of which the low byte is kept. *)
Definition calculate_checksum (frame : list Z) : Z :=
  Z.land (foldl (fun sum b => wrap 16 (sum + b)) 0 frame) 0xFF.

(** The zeroed buffer with the request written at its start, and [pos]. *)
Definition encode_read_request (a : MeterAddress) (d : DataIdentifier) : list Z * nat :=
  let body := [FRAME_START] ++ addr_to_wire a ++ [FRAME_START; CTRL_READ_DATA; 4] ++
              ((fun b => wrap 8 (b + DATA_OFFSET)) <$> di_to_wire d) in
  let frame := body ++ [calculate_checksum body; FRAME_END] in
  (frame ++ replicate (MAX_FRAME_SIZE - length frame) 0, length frame).

Definition error_of_code (c : Z) : Dl645Error :=
  if c =? 1 then NoData else if c =? 2 then DateError else if c =? 4 then NoPermission
  else if c =? 8 then FrameError else OtherError.

Definition byte_at (l : list Z) (i : nat) : Z := nth i l 0.

Definition decode_response (frame : list Z) : outcome Dl645Error Dl645Frame :=
  if (length frame <? 14)%nat then Err InvalidLength
  else if negb (byte_at frame 0 =? FRAME_START) || negb (byte_at frame 7 =? FRAME_START) then Err InvalidMarkers
  else
    let frame_end_idx := (length frame - 1)%nat in
    if negb (byte_at frame frame_end_idx =? FRAME_END) then Err InvalidMarkers
    else
      let cs_idx := (frame_end_idx - 1)%nat in
      let expected_cs := calculate_checksum (take cs_idx frame) in
      if negb (byte_at frame cs_idx =? expected_cs) then Err ChecksumError
      else
        let? addr := addr_from_wire (take 6 (drop 1 frame)) in
        let ctrl := byte_at frame 8 in
        let len := Z.to_nat (byte_at frame 9) in
        if negb (length frame =? 10 + len + 2)%nat then Err InvalidLength
        else if ctrl =? CTRL_READ_DATA_ERR then
          Err (if (0 <? len)%nat then error_of_code (wrap 8 (byte_at frame 10 - DATA_OFFSET)) else OtherError)
        else if negb (ctrl =? CTRL_READ_DATA_RESP) then Err FrameError
        else
          let decoded := decode_data (take len (drop 10 frame)) in
          if (len <? 4)%nat then Err InvalidLength
          else
            let di := mkDataId (reverse (take 4 decoded)) in
            let actual := (len - 4)%nat in
            (* decoded[4..4 + actual] of a 64-byte array *)
            if (64 <? 4 + actual)%nat then Panic
            else Ok (mkFrame addr di (pad64 (take actual (drop 4 decoded))) actual).

(** ** BCD *)

(** The loop of [bcd_to_u32]; [dbg] selects overflow checks (a panic) against
    release wrap-around. *)
Fixpoint bcd_loop (dbg : bool) (data : list Z) (value multiplier : Z) : outcome unit Z :=
  match data with
  | [] => Ok value
  | b :: data' =>
      let low := Z.land b 0x0F in
      let high := Z.land (Z.shiftr b 4) 0x0F in
      let v1 := value + low * multiplier in
      let m1 := multiplier * 10 in
      let v2 := wrap 32 v1 + high * wrap 32 m1 in
      let m2 := wrap 32 m1 * 10 in
      if dbg && negb ((v1 <? 2 ^ 32) && (low * multiplier <? 2 ^ 32) && (m1 <? 2 ^ 32) &&
                      (v2 <? 2 ^ 32) && (high * wrap 32 m1 <? 2 ^ 32) && (m2 <? 2 ^ 32))
      then Panic
      else bcd_loop dbg data' (wrap 32 v2) (wrap 32 m2)
  end.

Definition bcd_to_u32 (dbg : bool) (data : list Z) : outcome unit Z := bcd_loop dbg data 0 1.

(** ** Hexadecimal round trip *)

Definition bytes_ok (l : list Z) : Prop := Forall (fits 8) l.
Definition address_ok (a : MeterAddress) : Prop := length (addr_bytes a) = 6%nat /\ bytes_ok (addr_bytes a).
Definition di_ok (d : DataIdentifier) : Prop := length (di_bytes d) = 4%nat /\ bytes_ok (di_bytes d).
#[export] Instance bytes_ok_dec l : Decision (bytes_ok l).
Proof. unfold bytes_ok. apply _. Defined.

(** A fact about every value of [lo..hi) checked by evaluation. *)
Lemma Forall_range (P : Z -> Prop) n m :
  Forall P (seqZ 0 m) -> 0 <= n < m -> P n.
Proof. intros H Hn. apply (Forall_elem H), elem_of_seqZ. lia. Qed.

Lemma nibble_hex_round n : 0 <= n < 16 -> hex_char_to_nibble (nibble_to_hex_char n) = Some n.
Proof.
  intros Hn. apply (Forall_range (fun n => hex_char_to_nibble (nibble_to_hex_char n) = Some n) n 16); [|done].
  by_decide.
Qed.

Lemma byte_nibbles b : fits 8 b ->
  0 <= Z.shiftr b 4 < 16 /\ 0 <= Z.land b 0x0F < 16 /\
  Z.lor (Z.shiftl (Z.shiftr b 4) 4) (Z.land b 0x0F) = b /\
  Z.shiftr b 4 = b / 16 /\ Z.land b 0x0F = b mod 16.
Proof.
  intros Hb. apply (Forall_range (fun b => 0 <= Z.shiftr b 4 < 16 /\ 0 <= Z.land b 0x0F < 16 /\
    Z.lor (Z.shiftl (Z.shiftr b 4) 4) (Z.land b 0x0F) = b /\
    Z.shiftr b 4 = b / 16 /\ Z.land b 0x0F = b mod 16) b 256); [|exact Hb].
  by_decide.
Qed.

Lemma parse_hex_pairs_round e l : bytes_ok l -> parse_hex_pairs e (hex_pairs l) = Ok l.
Proof.
  induction 1 as [|b l Hb _ IH]; [done|].
  destruct (byte_nibbles b Hb) as (H1 & H2 & H3 & _).
  unfold hex_pairs in *. cbn [mbind list_bind app parse_hex_pairs].
  rewrite !nibble_hex_round by done. cbn [ok_or obind]. rewrite IH. cbn [obind]. by rewrite H3.
Qed.

Lemma hex_pairs_cons b l :
  hex_pairs (b :: l) = nibble_to_hex_char (Z.shiftr b 4) :: nibble_to_hex_char (Z.land b 0x0F) :: hex_pairs l.
Proof. done. Qed.

Lemma hex_pairs_length l : length (hex_pairs l) = (2 * length l)%nat.
Proof.
  induction l as [|b l IH]; [done|].
  rewrite hex_pairs_cons. cbn [length]. rewrite IH. lia.
Qed.

(** The upper-case form of a hexadecimal digit. *)
Definition hex_upper (c : Z) : Z := if (97 <=? c) && (c <=? 102) then c - 32 else c.

Lemma hex_upper_canonical c n :
  hex_char_to_nibble c = Some n -> 0 <= n < 16 /\ nibble_to_hex_char n = hex_upper c.
Proof.
  intros H. assert (0 <= c < 128) as Hc.
  { unfold hex_char_to_nibble in H. repeat split_if_in H; simplify_eq; bool_facts; lia. }
  assert (match hex_char_to_nibble c with
          | Some n => (0 <=? n) && (n <? 16) && (nibble_to_hex_char n =? hex_upper c)
          | None => true end = true) as Hb.
  { apply (Forall_range (fun c => match hex_char_to_nibble c with
      | Some n => (0 <=? n) && (n <? 16) && (nibble_to_hex_char n =? hex_upper c)
      | None => true end = true) _ 128); [by_decide|done]. }
  rewrite H in Hb. bool_facts. lia.
Qed.

Lemma parse_hex_pairs_ok e l r : Nat.Even (length l) ->
  parse_hex_pairs e l = Ok r ->
  bytes_ok r /\ hex_pairs r = hex_upper <$> l.
Proof.
  revert r. induction l as [l IH] using (induction_ltof1 _ (@length Z)); unfold ltof in IH. intros r [k Hk] Hp.
  destruct l as [|h [|lo l]]; [simpl in Hp; simplify_eq; by split; [constructor|]|simpl in Hk; lia|].
  cbn [parse_hex_pairs] in Hp.
  apply obind_ok in Hp as (x & Hx & Hp). apply ok_or_ok in Hx.
  apply obind_ok in Hp as (y & Hy & Hp). apply ok_or_ok in Hy.
  apply obind_ok in Hp as (rest & Hrest & Hp). simplify_eq.
  destruct (hex_upper_canonical _ _ Hx) as [Hxb Hxc], (hex_upper_canonical _ _ Hy) as [Hyb Hyc].
  destruct (IH l ltac:(simpl; lia) rest) as [Hr Hh]; [exists (k - 1)%nat; simpl in Hk; lia|done|].
  assert (Z.lor (Z.shiftl x 4) y = 16 * x + y) as Hor.
  { rewrite Z.shiftl_mul_pow2 by lia. change (2 ^ 4) with 16. rewrite <-Z.add_nocarry_lor by
      (apply (Z.bits_inj'); intros i Hi; rewrite Z.land_spec, Z.bits_0; destruct (decide (i < 4));
       [rewrite (Z.mul_pow2_bits_low x 4) by lia; done|rewrite (fits_testbit 4 y) by (unfold fits; lia); apply andb_false_r]).
    lia. }
  assert (fits 8 (16 * x + y)) as Hf by (unfold fits; lia).
  destruct (byte_nibbles _ Hf) as (_ & _ & _ & Hs & Hl).
  split; [rewrite Hor; by constructor|].
  rewrite hex_pairs_cons, Hor, Hs, Hl, Hh, !fmap_cons, <-Hxc, <-Hyc.
  rewrite (Z.mul_comm 16 x), Z.div_add_l, (Z.div_small y), Z.add_0_r, Z.add_comm, Z.mod_add, (Z.mod_small y) by lia.
  done.
Qed.

(** Display followed by [parse] restores every meter address, and a text
    that [parse] accepts is the display of its address up to the case of the
    digits A to F; the accepted address always has six bytes. *)
Lemma address_text_roundtrip :
  (forall a, address_ok a -> address_parse (address_display a) = Ok a) /\
  (forall s a, address_parse s = Ok a ->
     address_ok a /\ address_display a = hex_upper <$> s).
Proof.
  split.
  - intros [b] [Hl Hb]. unfold address_parse, address_display. simpl in *.
    rewrite hex_pairs_length, Hl, parse_hex_pairs_round by done. done.
  - intros s a. unfold address_parse. split_if; [done|]. bool_facts. apply Nat.eqb_eq in E.
    intros (b & Hp & Ha)%obind_ok. simplify_eq.
    apply parse_hex_pairs_ok in Hp as [Hb Hh]; [|exists 6%nat; lia].
    repeat split; [|done|done]. simpl.
    apply (f_equal length) in Hh. rewrite hex_pairs_length, length_fmap in Hh. lia.
Qed.

Definition sample_address : MeterAddress := mkAddress [0x12; 0x34; 0x56; 0x78; 0x90; 0xAB].

(** ** Frames a meter builds *)

(** The frame layout of the module documentation, around encoded data. *)
Definition build_frame (wire : list Z) (ctrl : Z) (enc : list Z) : list Z :=
  let body := [FRAME_START] ++ wire ++ [FRAME_START; ctrl; Z.of_nat (length enc)] ++ enc in
  body ++ [calculate_checksum body; FRAME_END].

Definition offset_bytes (l : list Z) : list Z := (fun b => wrap 8 (b + DATA_OFFSET)) <$> l.

(** A meter's answer to a read of [d]: the identifier, then the data. *)
Definition respond (a : MeterAddress) (d : DataIdentifier) (data : list Z) : list Z :=
  build_frame (addr_to_wire a) CTRL_READ_DATA_RESP (offset_bytes (di_to_wire d ++ data)).

Lemma byte_at_app_l l r i : (i < length l)%nat -> byte_at (l ++ r) i = byte_at l i.
Proof. intros. unfold byte_at. by rewrite app_nth1. Qed.

Lemma byte_at_app_r l r i : byte_at (l ++ r) (length l + i) = byte_at r i.
Proof. unfold byte_at. rewrite app_nth2 by lia. f_equal. lia. Qed.

(** What is left of [decode_response] once the framing is known to be sound. *)
Definition decode_payload (wire : list Z) (ctrl : Z) (enc : list Z) : outcome Dl645Error Dl645Frame :=
  if ctrl =? CTRL_READ_DATA_ERR then Err (error_of_code (wrap 8 (byte_at enc 0 - DATA_OFFSET)))
  else if negb (ctrl =? CTRL_READ_DATA_RESP) then Err FrameError
  else
    let decoded := decode_data enc in
    if (length enc <? 4)%nat then Err InvalidLength
    else if (64 <? 4 + (length enc - 4))%nat then Panic
    else Ok (mkFrame (mkAddress (reverse wire)) (mkDataId (reverse (take 4 decoded)))
               (pad64 (take (length enc - 4) (drop 4 decoded))) (length enc - 4)).

Lemma decode_build_frame wire ctrl enc :
  length wire = 6%nat -> (2 <= length enc)%nat ->
  decode_response (build_frame wire ctrl enc) = decode_payload wire ctrl enc.
Proof.
  intros Hw He. do 7 (destruct wire as [|? wire]; try discriminate Hw).
  unfold decode_response, build_frame.
  set (body := [FRAME_START] ++ _). set (tail := [calculate_checksum body; FRAME_END]).
  assert (length body = 10 + length enc)%nat as Hlen by done.
  rewrite !length_app, Hlen. cbn [length tail].
  replace (10 + length enc + 2 <? 14)%nat with false by (symmetry; apply Nat.ltb_ge; lia).
  rewrite (byte_at_app_l body tail 0), (byte_at_app_l body tail 7), (byte_at_app_l body tail 8), (byte_at_app_l body tail 9) by lia.
  replace (10 + length enc + 2 - 1)%nat with (length body + 1)%nat by lia.
  replace (length body + 1 - 1)%nat with (length body + 0)%nat by lia.
  rewrite !byte_at_app_r, Nat.add_0_r, take_app_length.
  change (byte_at body 9) with (Z.of_nat (length enc)). rewrite Nat2Z.id, Nat.eqb_refl.
  change (byte_at tail 0) with (calculate_checksum body). rewrite (Z.eqb_refl (calculate_checksum body)).
  change (byte_at body 8) with ctrl.
  replace (0 <? length enc)%nat with true by (symmetry; apply Nat.ltb_lt; lia).
  assert (byte_at (body ++ tail) 10 = byte_at enc 0) as H10.
  { rewrite byte_at_app_l by lia. done. }
  rewrite H10.
  assert (take (length enc) (drop 10 (body ++ tail)) = enc) as ->.
  { change (drop 10 (body ++ tail)) with (enc ++ tail). by rewrite take_app_length. }
  unfold decode_payload. reflexivity.
Qed.

Lemma split_last_two {A} (l : list A) :
  (2 <= length l)%nat -> exists body x y, l = body ++ [x; y].
Proof.
  intros H. induction l as [|y l1 _] using rev_ind; [simpl in H; lia|].
  rewrite length_app in H. simpl in H.
  induction l1 as [|x l2 _] using rev_ind; [simpl in H; lia|].
  exists l2, x, y. by rewrite <-app_assoc.
Qed.

(** A frame that is not refused for its length, markers or checksum has the
    documented layout. *)
Lemma frame_shape frame :
  bytes_ok frame ->
  decode_response frame = Panic \/ is_ok (decode_response frame) = true ->
  exists wire ctrl enc, length wire = 6%nat /\ (2 <= length enc < 256)%nat /\
    bytes_ok wire /\ bytes_ok enc /\ frame = build_frame wire ctrl enc.
Proof.
  intros Hf H. unfold decode_response in H.
  destruct (length frame <? 14)%nat eqn:E0; [naive_solver|].
  destruct (negb (byte_at frame 0 =? FRAME_START) || negb (byte_at frame 7 =? FRAME_START)) eqn:E1; [naive_solver|].
  destruct (negb (byte_at frame (length frame - 1) =? FRAME_END)) eqn:E2; [naive_solver|].
  destruct (negb (byte_at frame (length frame - 1 - 1) =? _)) eqn:E3; [naive_solver|].
  unfold addr_from_wire in H.
  destruct (length (take 6 (drop 1 frame)) <? 6)%nat; [naive_solver|]. cbn [obind] in H.
  destruct (negb (length frame =? 10 + Z.to_nat (byte_at frame 9) + 2)%nat) eqn:E4; [naive_solver|].
  clear H. bool_facts. apply Nat.ltb_ge in E0. apply Nat.eqb_eq in E4.
  repeat match goal with Hz : (_ =? _) = true |- _ => apply Z.eqb_eq in Hz end.
  destruct (split_last_two frame) as (body & c & e & ->); [lia|].
  rewrite !length_app in *. cbn [length] in *.
  replace (length body + 2 - 1)%nat with (length body + 1)%nat in * by lia.
  replace (length body + 1 - 1)%nat with (length body + 0)%nat in * by lia.
  rewrite !byte_at_app_r in *. rewrite Nat.add_0_r, take_app_length in E3. cbn [byte_at nth] in E2, E3.
  subst c e. rewrite byte_at_app_l in H, H0, E4 by lia.
  do 10 (destruct body as [|? body]; [simpl in E0; lia|]). cbn [byte_at nth length] in *.
  apply Forall_app in Hf as [Hf _]. repeat (apply Forall_cons_1 in Hf as [? Hf]). subst.
  exists [z0; z1; z2; z3; z4; z5], z7, body.
  assert (z8 = Z.of_nat (length body)) as -> by (unfold fits in *; lia).
  repeat split; try done; [unfold fits in *; lia..|by repeat (apply List.Forall_cons || apply List.Forall_nil)].
Qed.

(** *** The +0x33 encoding *)

Definition unoffset_bytes (l : list Z) : list Z := (fun b => wrap 8 (b - DATA_OFFSET)) <$> l.

Lemma offset_round b : fits 8 b ->
  wrap 8 (wrap 8 (b - DATA_OFFSET) + DATA_OFFSET) = b /\ wrap 8 (wrap 8 (b + DATA_OFFSET) - DATA_OFFSET) = b.
Proof.
  intros Hb. rewrite <-(Z.add_opp_r (wrap 8 (b + DATA_OFFSET))), !wrap_add_l.
  replace (b - DATA_OFFSET + DATA_OFFSET) with b by lia. replace (b + DATA_OFFSET + - DATA_OFFSET) with b by lia.
  by rewrite wrap_small.
Qed.

Lemma offset_unoffset l : bytes_ok l -> offset_bytes (unoffset_bytes l) = l.
Proof.
  induction 1 as [|b l Hb _ IH]; [done|]. unfold offset_bytes, unoffset_bytes in *.
  rewrite !fmap_cons, IH. f_equal. by apply offset_round.
Qed.

Lemma unoffset_offset l : bytes_ok l -> unoffset_bytes (offset_bytes l) = l.
Proof.
  induction 1 as [|b l Hb _ IH]; [done|]. unfold offset_bytes, unoffset_bytes in *.
  rewrite !fmap_cons, IH. f_equal. by apply offset_round.
Qed.

Lemma unoffset_bytes_ok l : bytes_ok (unoffset_bytes l).
Proof. unfold bytes_ok, unoffset_bytes. apply Forall_fmap, Forall_true. intros; simpl; auto with rust lia. Qed.

Lemma decode_data_small l : (length l <= 64)%nat -> decode_data l = pad64 (unoffset_bytes l).
Proof. intros. unfold decode_data. by rewrite take_ge. Qed.

Lemma bytes_ok_reverse l : bytes_ok l -> bytes_ok (reverse l).
Proof. unfold bytes_ok. intros. by apply Forall_reverse. Qed.

(** *** Decoding what a meter answers *)

Lemma decode_respond a d data :
  address_ok a -> di_ok d -> bytes_ok data ->
  decode_response (respond a d data) =
  if (length data <=? 60)%nat then Ok (mkFrame a d (pad64 data) (length data)) else Panic.
Proof.
  intros [Ha _] [Hd Hdb] Hb. unfold respond. set (p := di_to_wire d ++ data).
  assert (length p = 4 + length data)%nat as Hp.
  { unfold p, di_to_wire. by rewrite length_app, length_reverse, Hd. }
  assert (bytes_ok p) as Hpb.
  { unfold p, di_to_wire, bytes_ok. apply Forall_app. split; [by apply bytes_ok_reverse|done]. }
  assert (length (offset_bytes p) = 4 + length data)%nat as Hop by (unfold offset_bytes; by rewrite length_fmap).
  rewrite decode_build_frame by (unfold addr_to_wire; rewrite ?length_reverse; lia).
  unfold decode_payload. rewrite Hop. change (CTRL_READ_DATA_RESP =? CTRL_READ_DATA_ERR) with false.
  rewrite Z.eqb_refl. cbn [negb].
  replace (4 + length data <? 4)%nat with false by (symmetry; apply Nat.ltb_ge; lia).
  replace (4 + length data - 4)%nat with (length data) by lia.
  destruct (length data <=? 60)%nat eqn:E.
  - apply Nat.leb_le in E. replace (64 <? 4 + length data)%nat with false by (symmetry; apply Nat.ltb_ge; lia).
    rewrite decode_data_small, unoffset_offset by (done || lia).
    assert (pad64 p = di_to_wire d ++ data ++ replicate (64 - length p) 0) as ->
      by (unfold pad64, p; by rewrite <-app_assoc).
    assert (length (di_to_wire d) = 4%nat) as Hw by (unfold di_to_wire; by rewrite length_reverse).
    rewrite take_app_length', drop_app_length', take_app_length by done.
    unfold di_to_wire, addr_to_wire. rewrite !reverse_involutive. by destruct a, d.
  - apply Nat.leb_gt in E. by replace (64 <? 4 + length data)%nat with true by (symmetry; apply Nat.ltb_lt; lia).
Qed.

Lemma decode_shape frame :
  bytes_ok frame -> decode_response frame = Panic \/ is_ok (decode_response frame) = true ->
  exists a d data, address_ok a /\ di_ok d /\ bytes_ok data /\ (length data <= 251)%nat /\
    frame = respond a d data.
Proof.
  intros Hf H. destruct (frame_shape frame Hf H) as (wire & ctrl & enc & Hw & He & Hwb & Heb & ->).
  rewrite decode_build_frame in H by lia. unfold decode_payload in H.
  destruct (ctrl =? CTRL_READ_DATA_ERR); [naive_solver|].
  destruct (ctrl =? CTRL_READ_DATA_RESP) eqn:Ec; [|naive_solver]. apply Z.eqb_eq in Ec as ->. cbn [negb] in H.
  destruct (length enc <? 4)%nat eqn:E4; [naive_solver|]. apply Nat.ltb_ge in E4. clear H.
  set (u := unoffset_bytes enc). pose proof (unoffset_bytes_ok enc) as Hu. fold u in Hu.
  assert (length u = length enc) as Hul by (unfold u, unoffset_bytes; by rewrite length_fmap).
  exists (mkAddress (reverse wire)), (mkDataId (reverse (take 4 u))), (drop 4 u).
  unfold address_ok, di_ok, respond, addr_to_wire, di_to_wire; simpl.
  rewrite !reverse_involutive, !length_reverse, length_take, length_drop, take_drop.
  unfold u at 5. rewrite offset_unoffset by done.
  repeat split; try lia; try apply bytes_ok_reverse; unfold bytes_ok; auto using Forall_take, Forall_drop.
Qed.

(** C37. [decode_response] is the exact inverse of the meter's answer: it
    returns a frame precisely for the byte strings of the documented layout
    (markers, length, +0x33 data, checksum) carrying at most 60 data bytes, and
    what it returns is the address, identifier and data that were sent. *)
Theorem decode_response_iff frame f :
  bytes_ok frame ->
  decode_response frame = Ok f <->
  exists a d data, address_ok a /\ di_ok d /\ bytes_ok data /\ (length data <= 60)%nat /\
    frame = respond a d data /\ f = mkFrame a d (pad64 data) (length data).
Proof.
  intros Hf. split.
  - intros H. destruct (decode_shape frame Hf) as (a & d & data & Ha & Hd & Hb & Hl & ->); [by rewrite H; right|].
    rewrite decode_respond in H by done. destruct (Nat.leb_spec (length data) 60); [|done].
    simplify_eq. eauto 10.
  - intros (a & d & data & Ha & Hd & Hb & Hl & -> & ->). rewrite decode_respond by done.
    by destruct (Nat.leb_spec (length data) 60); [|lia].
Qed.

Definition sample_di : DataIdentifier := mkDataId [0x00; 0x01; 0x00; 0x00].
Definition sample_frame : list Z := respond sample_address sample_di [0x78; 0x56; 0x34; 0x12].

Lemma decode_response_iff_witness :
  decode_response sample_frame =
  Ok (mkFrame sample_address sample_di (pad64 [0x78; 0x56; 0x34; 0x12]) 4).
Proof.
  apply decode_response_iff; [by_decide|].
  exists sample_address, sample_di, [0x78; 0x56; 0x34; 0x12].
  repeat split; [by_decide..|simpl; lia].
Defined.

(** C38. [decode_response] panics (aborts the process in a release build) exactly
    on a well-formed read answer that carries more than 60 data bytes, since
    decoded data is kept in 64 bytes including the identifier while the
    length byte admits 255. *)
Theorem decode_response_panics frame :
  bytes_ok frame ->
  decode_response frame = Panic <->
  exists a d data, address_ok a /\ di_ok d /\ bytes_ok data /\ (60 < length data <= 251)%nat /\
    frame = respond a d data.
Proof.
  intros Hf. split.
  - intros H. destruct (decode_shape frame Hf) as (a & d & data & Ha & Hd & Hb & Hl & ->); [by left|].
    rewrite decode_respond in H by done. destruct (Nat.leb_spec (length data) 60); [done|]. eauto 10.
  - intros (a & d & data & Ha & Hd & Hb & Hl & ->). rewrite decode_respond by done.
    by destruct (Nat.leb_spec (length data) 60); [lia|].
Qed.

Lemma decode_response_panics_witness :
  decode_response (respond sample_address sample_di (replicate 61 0)) = Panic.
Proof.
  apply decode_response_panics; [by_decide|].
  exists sample_address, sample_di, (replicate 61 0). repeat split; [by_decide..|simpl; lia|simpl; lia].
Defined.

(** C39. A meter's refusal, [68 A0..A5 68 D1 len err.. CS 16], is decoded to the
    error its code names only when it carries at least two data bytes: with one
    error byte, the form the protocol defines, the 13-byte frame is below the
    14-byte minimum and the code is lost to [InvalidLength]. *)
Theorem error_response_decoding a codes :
  address_ok a -> bytes_ok codes ->
  decode_response (build_frame (addr_to_wire a) CTRL_READ_DATA_ERR (offset_bytes codes)) =
  if (length codes <? 2)%nat then Err InvalidLength else Err (error_of_code (byte_at codes 0)).
Proof.
  intros [Ha _] Hc. assert (length (offset_bytes codes) = length codes) as Hl by apply length_fmap.
  destruct (Nat.ltb_spec (length codes) 2) as [Hs|Hs].
  - unfold decode_response. destruct (Nat.ltb_spec (length (build_frame (addr_to_wire a) CTRL_READ_DATA_ERR (offset_bytes codes))) 14) as [|Hg]; [done|].
    exfalso. unfold build_frame, addr_to_wire in Hg. rewrite !length_app, length_reverse in Hg. simpl in Hg. lia.
  - rewrite decode_build_frame by (unfold addr_to_wire; rewrite ?length_reverse; lia).
    unfold decode_payload. rewrite Z.eqb_refl. destruct codes as [|c codes]; [simpl in Hs; lia|].
    apply Forall_cons_1 in Hc as [Hc _].
    unfold offset_bytes, byte_at. rewrite fmap_cons. cbn [nth]. by rewrite (proj2 (offset_round c Hc)).
Qed.

(** ** BCD values *)

(** The number a BCD byte string denotes, least significant byte first. *)
Fixpoint bcd_value (data : list Z) : Z :=
  match data with
  | [] => 0
  | b :: data' => b mod 16 + 10 * (b / 16) + 100 * bcd_value data'
  end.

(** One round of the loop while the multiplier and the sum fit. *)
Lemma bcd_loop_cons dbg b data value multiplier :
  fits 8 b -> 0 <= value -> 0 < multiplier ->
  100 * multiplier < 2 ^ 32 -> value + 165 * multiplier < 2 ^ 32 ->
  bcd_loop dbg (b :: data) value multiplier =
  bcd_loop dbg data (value + (b mod 16 + 10 * (b / 16)) * multiplier) (100 * multiplier).
Proof.
  intros Hb Hv Hm H1 H2. destruct (byte_nibbles b Hb) as (Hh & Hl & _ & Eh & El).
  assert (Z.land (Z.shiftr b 4) 0x0F = b / 16) as Eh'.
  { rewrite (Z.land_ones _ 4), Z.mod_small by lia. done. }
  cbn [bcd_loop]. rewrite El, Eh'. rewrite Eh in Hh. rewrite El in Hl.
  set (lo := b mod 16) in *. set (hi := b / 16) in *.
  assert (0 <= lo * multiplier <= 15 * multiplier) by nia.
  assert (0 <= hi * (multiplier * 10) <= 150 * multiplier) by nia.
  rewrite !(wrap_small 32) by (unfold fits; repeat rewrite (wrap_small 32) by (unfold fits; nia); nia).
  repeat match goal with |- context [?x <? 2 ^ 32] => replace (x <? 2 ^ 32) with true by (symmetry; apply Z.ltb_lt; lia) end.
  rewrite andb_false_r. f_equal; lia.
Qed.

Definition bcd_bound (n : nat) : Z := 100 ^ Z.of_nat n.

Lemma bcd_bound_S k : 100 * bcd_bound k = bcd_bound (S k).
Proof. unfold bcd_bound. by rewrite Nat2Z.inj_succ, Z.pow_succ_r by lia. Qed.

Lemma bcd_loop_exact dbg data value multiplier (k : nat) :
  bytes_ok data -> (length data + k <= 4)%nat -> multiplier = bcd_bound k ->
  0 <= value -> value <= 2 * multiplier ->
  bcd_loop dbg data value multiplier = Ok (value + bcd_value data * multiplier).
Proof.
  intros Hd. revert value multiplier k. induction Hd as [|b data Hb _ IH]; intros value multiplier k Hk Hm Hv Hv2.
  - simpl. f_equal. lia.
  - cbn [length] in Hk.
    assert (0 < multiplier /\ 100 * multiplier <= 100 ^ 4) as [? ?].
    { subst multiplier. unfold bcd_bound. split; [lia|].
      rewrite <-Z.pow_succ_r by lia. apply Z.pow_le_mono_r; lia. }
    rewrite bcd_loop_cons by (done || lia).
    assert (0 <= b mod 16 < 16 /\ 0 <= b / 16 < 16) by (unfold fits in Hb; lia).
    rewrite (IH _ _ (S k)); [|lia|subst; apply bcd_bound_S|nia|nia].
    cbn [bcd_value]. f_equal. lia.
Qed.

(** With overflow checks the fifth byte always overflows the multiplier. *)
Lemma bcd_loop_overflow data value (k : nat) :
  (k <= 4)%nat -> (5 <= length data + k)%nat -> bcd_loop true data value (bcd_bound k) = Panic.
Proof.
  revert value k. induction data as [|b data IH]; intros value k Hk Hl; [simpl in Hl; lia|].
  cbn [bcd_loop length andb] in *. destruct (negb _) eqn:E; [done|]. bool_facts.
  assert (wrap 32 (bcd_bound k * 10) = bcd_bound k * 10) as Hw by (apply wrap_small; unfold fits, bcd_bound in *; lia).
  rewrite Hw in *. rewrite (wrap_small 32 (_ * 10 * 10)) by (unfold fits, bcd_bound in *; lia).
  replace (bcd_bound k * 10 * 10) with (100 * bcd_bound k) in * by lia. rewrite bcd_bound_S in *.
  destruct (decide (k = 4%nat)) as [->|]; [|apply IH; lia].
  exfalso. unfold bcd_bound in *. simpl in *. lia.
Qed.

(** [bcd_to_u32] on at most four bytes returns the number the digits
    denote, with or without overflow checks, also when a nibble is not a
    decimal digit; from five bytes on the running multiplier leaves [u32], so
    with overflow checks every call panics. *)
Lemma bcd_to_u32_spec data :
  bytes_ok data ->
  ((length data <= 4)%nat -> forall dbg, bcd_to_u32 dbg data = Ok (bcd_value data)) /\
  ((5 <= length data)%nat -> bcd_to_u32 true data = Panic).
Proof.
  intros Hd. split.
  - intros Hl dbg. unfold bcd_to_u32. rewrite (bcd_loop_exact dbg data 0 1 0) by (done || lia). f_equal. lia.
  - intros Hl. apply (bcd_loop_overflow data 0 0); lia.
Qed.

(** Without overflow checks five bytes can silently denote another number. *)
Example bcd_release_wraps : bcd_to_u32 false [0; 0; 0; 0; 0x99] <> Ok (bcd_value [0; 0; 0; 0; 0x99]).
Proof. by vm_compute. Qed.

(** ** Requests *)

(** A read request is sixteen bytes of the documented layout, with the
    read control code and the encoded identifier as data, in a 256-byte
    buffer; read back as a response (an echo on a half-duplex line) it is
    refused as a frame error, never taken for an answer. *)
Lemma encode_read_request_frame a d :
  address_ok a -> di_ok d ->
  let r := encode_read_request a d in
  length r.1 = MAX_FRAME_SIZE /\ r.2 = 16%nat /\
  take r.2 r.1 = build_frame (addr_to_wire a) CTRL_READ_DATA (offset_bytes (di_to_wire d)) /\
  decode_response (take r.2 r.1) = Err FrameError.
Proof.
  intros [Ha _] [Hd _] r. subst r.
  assert (length (offset_bytes (di_to_wire d)) = 4%nat) as Ho
    by (unfold offset_bytes, di_to_wire; by rewrite length_fmap, length_reverse).
  assert (encode_read_request a d =
    (build_frame (addr_to_wire a) CTRL_READ_DATA (offset_bytes (di_to_wire d)) ++ replicate 240 0, 16%nat)) as ->.
  { destruct a as [la], d as [ld]. cbn [addr_bytes di_bytes] in Ha, Hd.
    do 7 (destruct la as [|? la]; try discriminate Ha). do 5 (destruct ld as [|? ld]; try discriminate Hd).
    reflexivity. }
  assert (length (build_frame (addr_to_wire a) CTRL_READ_DATA (offset_bytes (di_to_wire d))) = 16%nat) as Hl.
  { unfold build_frame, addr_to_wire. rewrite !length_app, length_reverse, Ha, Ho. done. }
  cbn [fst snd]. rewrite length_app, Hl, length_replicate, take_app_length' by done. repeat split.
  rewrite decode_build_frame by (unfold addr_to_wire; rewrite ?length_reverse; lia). done.
Qed.

Lemma error_response_decoding_witness :
  decode_response (build_frame (addr_to_wire sample_address) CTRL_READ_DATA_ERR (offset_bytes [0x04])) = Err InvalidLength /\
  decode_response (build_frame (addr_to_wire sample_address) CTRL_READ_DATA_ERR (offset_bytes [0x04; 0])) = Err NoPermission.
Proof.
  split; (etransitivity; [apply error_response_decoding; [split; [done|by_decide]|by_decide]|done]).
Defined.
