(* ===== verification/DataTask.v ===== *)
(** * Data-processing contracts

    [crates/aether-domain/src/data_processing.rs]: tasks, frames, requests and
    results, each with its validating constructor, and the port values of
    [crates/aether-ports/src/data_processing.rs]. A field of a record is private
    in the source: the values a program can hold are those the constructors
    return ([..._built]). Counts are [Z] where the source checks their
    arithmetic; an [f64] is its bits. *)

From S2P Require Import Prelude F64 Slot Bitmap Segment Snapshot Text BTree Manifest Publish Publication Acquisition Command Application.

(** The variants of [DomainError] for data processing. *)
Inductive ProcessingError :=
| EmptyIdentifier | ZeroRevision | EmptyCollection | DuplicateFeature | NonFiniteProcessingValue | FeatureTypeMismatch | ArrayLengthMismatch
| InvalidSampleQuality | TimestampsNotStrictlyIncreasing | InvalidFrameQuality | InvalidProcessingWindow | InvalidQuantile | InvalidProcessingState.

Definition DR (A : Type) : Type := outcome ProcessingError A.

(** ** Checks *)

Definition nonempty (value : string) : DR string := if blank (str_bytes value) then Err EmptyIdentifier else Ok value.

(** [slice.windows(2).all(..)]. *)
Fixpoint windows2 {A} (f : A -> A -> bool) (l : list A) : bool :=
  match l with
  | x :: (y :: _) as rest => f x y && windows2 f rest
  | _ => true
  end.

(** [enumerate().any(|(i, x)| l[..i].iter().any(|seen| same seen x))], negated. *)
Fixpoint distinct_after {A} (same : A -> A -> bool) (seen l : list A) : bool :=
  match l with
  | [] => true
  | x :: l => negb (existsb (fun y => same y x) seen) && distinct_after same (seen ++ [x]) l
  end.
Definition distinct {A} (same : A -> A -> bool) (l : list A) : bool := distinct_after same [] l.

Definition timestamps_are_strictly_increasing (timestamps : list Z) : bool := windows2 Z.ltb timestamps.
Definition string_eqb (a b : string) : bool := bool_decide (a = b).
Definition strings_are_unique (values : list string) : bool := distinct string_eqb values.

Definition lower_hex_digit (c : ascii) : bool :=
  let x := Z.of_nat (nat_of_ascii c) in ((48 <=? x) && (x <=? 57)) || ((97 <=? x) && (x <=? 102)).
Definition is_sha256_digest (value : string) : bool :=
  let bytes := str_bytes value in
  bool_decide (take 7 bytes = str_bytes "sha256:") && (length (drop 7 bytes) =? 64)%nat && forallb lower_hex_digit (drop 7 bytes).

Definition f64_lt (a b : Z) : bool := f64_ltb (of_bits a) (of_bits b).
Definition f64_le (a b : Z) : bool := f64_leb (of_bits a) (of_bits b).
Definition f64_same (a b : Z) : bool := f64_eqb (of_bits a) (of_bits b).
Definition F64_1 : Z := 0x3FF0000000000000.
(** [value.is_finite() && (0.0..=1.0).contains(&value)]. *)
Definition is_ratio (x : Z) : bool := f64_is_finite x && (f64_le 0 x && f64_le x F64_1).
Fixpoint map_result {E A B} (f : A -> outcome E B) (l : list A) : outcome E (list B) :=
  match l with
  | [] => Ok []
  | x :: l => let? y := f x in let? ys := map_result f l in Ok (y :: ys)
  end.

Definition opt_eqb {A} (eqb : A -> A -> bool) (a b : option A) : bool :=
  match a, b with Some a, Some b => eqb a b | None, None => true | _, _ => false end.

(** ** Identities and features *)

Record TaskIdentity := mkTaskIdentity { ti_id : string; ti_revision : Z }.
Record BindingIdentity := mkBindingIdentity { bi_id : string; bi_revision : Z }.
#[global] Instance TaskIdentity_eq_dec : EqDecision TaskIdentity.
Proof. solve_decision. Defined.
#[global] Instance BindingIdentity_eq_dec : EqDecision BindingIdentity.
Proof. solve_decision. Defined.

Definition task_identity_new (id : string) (revision : Z) : DR TaskIdentity :=
  if revision =? 0 then Err ZeroRevision else let? id := nonempty id in Ok (mkTaskIdentity id revision).
Definition binding_identity_new (id : string) (revision : Z) : DR BindingIdentity :=
  if revision =? 0 then Err ZeroRevision else let? id := nonempty id in Ok (mkBindingIdentity id revision).

Inductive TaskKind := Forecast.
Inductive FeatureRole := RHistory | RFutureCovariate | RStatic.
Inductive FeatureValueType := VNumber | VText | VBoolean.
#[global] Instance FeatureRole_eq_dec : EqDecision FeatureRole.
Proof. solve_decision. Defined.
#[global] Instance FeatureValueType_eq_dec : EqDecision FeatureValueType.
Proof. solve_decision. Defined.

Record NumericFeatureConstraints := mkNumeric { nc_minimum : option Z; nc_maximum : option Z; nc_integer : bool }.

Definition numeric_constraints_new (minimum maximum : option Z) (integer : bool) : DR NumericFeatureConstraints :=
  if on_some (fun v => negb (f64_is_finite v)) minimum || on_some (fun v => negb (f64_is_finite v)) maximum ||
     match minimum, maximum with Some lo, Some hi => f64_lt hi lo | _, _ => false end
  then Err InvalidFrameQuality
  else Ok (mkNumeric minimum maximum integer).

Definition accepts (c : NumericFeatureConstraints) (value : Z) : bool :=
  f64_is_finite value &&
  match nc_minimum c with Some minimum => f64_le minimum value | None => true end &&
  match nc_maximum c with Some maximum => f64_le value maximum | None => true end &&
  (negb (nc_integer c) || f64_eqb (f64_rem (of_bits value) (of_bits F64_1)) f64_zero).

Definition numeric_eqb (a b : NumericFeatureConstraints) : bool :=
  opt_eqb f64_same (nc_minimum a) (nc_minimum b) && opt_eqb f64_same (nc_maximum a) (nc_maximum b) && Bool.eqb (nc_integer a) (nc_integer b).

Record FeatureDefinition := mkFeature {
  fd_name : string; fd_role : FeatureRole; fd_value_type : FeatureValueType; fd_unit : option string; fd_numeric_constraints : option NumericFeatureConstraints
}.

Definition feature_new (name : string) (role : FeatureRole) (value_type : FeatureValueType) : DR FeatureDefinition :=
  let? name := nonempty name in Ok (mkFeature name role value_type None None).
Definition feature_numeric (name : string) (role : FeatureRole) (unit : string) : DR FeatureDefinition :=
  let? name := nonempty name in let? unit := nonempty unit in Ok (mkFeature name role VNumber (Some unit) None).
Definition with_numeric_constraints (d : FeatureDefinition) (constraints : NumericFeatureConstraints) : DR FeatureDefinition :=
  if negb (bool_decide (fd_value_type d = VNumber)) then Err FeatureTypeMismatch
  else Ok (mkFeature (fd_name d) (fd_role d) (fd_value_type d) (fd_unit d) (Some constraints)).

(** [#[derive(PartialEq)]]. *)
Definition definition_eqb (a b : FeatureDefinition) : bool :=
  string_eqb (fd_name a) (fd_name b) && bool_decide (fd_role a = fd_role b) && bool_decide (fd_value_type a = fd_value_type b) &&
  bool_decide (fd_unit a = fd_unit b) && opt_eqb numeric_eqb (fd_numeric_constraints a) (fd_numeric_constraints b).

(** ** Tasks *)

Record ForecastTarget := mkTarget { ft_name : string; ft_unit : string; ft_sign_convention : string }.
Definition target_new (name unit sign_convention : string) : DR ForecastTarget :=
  let? name := nonempty name in let? unit := nonempty unit in let? sign := nonempty sign_convention in Ok (mkTarget name unit sign).

Inductive HistoryAggregation := AggMean | AggLast | AggSum | AggMin | AggMax.
Inductive HistoryDuplicatePolicy := DupLatest | DupReject.
#[global] Instance HistoryAggregation_eq_dec : EqDecision HistoryAggregation.
Proof. solve_decision. Defined.

Record HistoryFeaturePolicy := mkHistoryPolicy { hp_feature : string; hp_aggregation : HistoryAggregation; hp_duplicate_policy : HistoryDuplicatePolicy }.
Definition history_policy_new (feature : string) (aggregation : HistoryAggregation) (duplicates : HistoryDuplicatePolicy) : DR HistoryFeaturePolicy :=
  let? feature := nonempty feature in Ok (mkHistoryPolicy feature aggregation duplicates).

Record FallbackPolicy := mkFallbackPolicy { fp_strategy : string; fp_version : string; fp_source_feature : string; fp_max_output_age_ms : Z }.
Definition fallback_policy_new (strategy version source_feature : string) (max_output_age_ms : Z) : DR FallbackPolicy :=
  if max_output_age_ms =? 0 then Err InvalidProcessingWindow
  else let? strategy := nonempty strategy in let? version := nonempty version in let? source := nonempty source_feature in
       Ok (mkFallbackPolicy strategy version source max_output_age_ms).

Record ForecastTaskSpec := mkForecastSpec {
  fs_target : ForecastTarget; fs_cadence_ms : Z; fs_history_aggregation : HistoryAggregation; fs_history_duplicate_policy : HistoryDuplicatePolicy;
  fs_history_feature_policies : list HistoryFeaturePolicy; fs_history_steps : Z; fs_max_horizon_steps : Z; fs_max_quantiles : Z;
  fs_max_output_age_ms : Z; fs_max_missing_ratio : Z; fs_allowed_fallbacks : list string; fs_fallback_policies : list FallbackPolicy;
  fs_max_input_age_ms : option Z; fs_max_gap_ms : option Z; fs_require_future_issue_time : bool
}.

Definition forecast_spec_new (target : ForecastTarget) (cadence_ms : Z) (aggregation : HistoryAggregation) (duplicates : HistoryDuplicatePolicy)
    (history_steps max_horizon_steps max_output_age_ms max_missing_ratio : Z) (allowed_fallbacks : list string) : DR ForecastTaskSpec :=
  if (cadence_ms =? 0) || (history_steps =? 0) || (max_horizon_steps =? 0) || (max_output_age_ms =? 0) then Err InvalidProcessingWindow
  else if negb (is_ratio max_missing_ratio) then Err InvalidFrameQuality
  else
    let? allowed := map_result nonempty allowed_fallbacks in
    if negb (strings_are_unique allowed) then Err InvalidProcessingState
    else Ok (mkForecastSpec target cadence_ms aggregation duplicates [] history_steps max_horizon_steps 0 max_output_age_ms max_missing_ratio allowed []
               None None false).

Definition with_input_quality_limits (s : ForecastTaskSpec) (max_input_age_ms max_gap_ms : Z) : DR ForecastTaskSpec :=
  if (max_input_age_ms =? 0) || (max_gap_ms <? fs_cadence_ms s) then Err InvalidFrameQuality
  else Ok (mkForecastSpec (fs_target s) (fs_cadence_ms s) (fs_history_aggregation s) (fs_history_duplicate_policy s) (fs_history_feature_policies s)
             (fs_history_steps s) (fs_max_horizon_steps s) (fs_max_quantiles s) (fs_max_output_age_ms s) (fs_max_missing_ratio s) (fs_allowed_fallbacks s)
             (fs_fallback_policies s) (Some max_input_age_ms) (Some max_gap_ms) (fs_require_future_issue_time s)).

Definition with_fallback_policies (s : ForecastTaskSpec) (policies : list FallbackPolicy) : DR ForecastTaskSpec :=
  if negb (length policies =? length (fs_allowed_fallbacks s))%nat ||
     existsb (fun p => (fs_max_output_age_ms s <? fp_max_output_age_ms p) || negb (existsb (fun strategy => string_eqb strategy (fp_strategy p)) (fs_allowed_fallbacks s))) policies ||
     negb (distinct (fun a b => string_eqb (fp_strategy a) (fp_strategy b)) policies)
  then Err InvalidProcessingState
  else Ok (mkForecastSpec (fs_target s) (fs_cadence_ms s) (fs_history_aggregation s) (fs_history_duplicate_policy s) (fs_history_feature_policies s)
             (fs_history_steps s) (fs_max_horizon_steps s) (fs_max_quantiles s) (fs_max_output_age_ms s) (fs_max_missing_ratio s) (fs_allowed_fallbacks s)
             policies (fs_max_input_age_ms s) (fs_max_gap_ms s) (fs_require_future_issue_time s)).

Definition requiring_future_issue_time (s : ForecastTaskSpec) : ForecastTaskSpec :=
  mkForecastSpec (fs_target s) (fs_cadence_ms s) (fs_history_aggregation s) (fs_history_duplicate_policy s) (fs_history_feature_policies s)
    (fs_history_steps s) (fs_max_horizon_steps s) (fs_max_quantiles s) (fs_max_output_age_ms s) (fs_max_missing_ratio s) (fs_allowed_fallbacks s)
    (fs_fallback_policies s) (fs_max_input_age_ms s) (fs_max_gap_ms s) true.

Definition with_history_feature_policies (s : ForecastTaskSpec) (policies : list HistoryFeaturePolicy) : DR ForecastTaskSpec :=
  if (length policies =? 0)%nat || negb (distinct (fun a b => string_eqb (hp_feature a) (hp_feature b)) policies) then Err InvalidProcessingState
  else Ok (mkForecastSpec (fs_target s) (fs_cadence_ms s) (fs_history_aggregation s) (fs_history_duplicate_policy s) policies
             (fs_history_steps s) (fs_max_horizon_steps s) (fs_max_quantiles s) (fs_max_output_age_ms s) (fs_max_missing_ratio s) (fs_allowed_fallbacks s)
             (fs_fallback_policies s) (fs_max_input_age_ms s) (fs_max_gap_ms s) (fs_require_future_issue_time s)).

Definition with_max_quantiles (s : ForecastTaskSpec) (max_quantiles : Z) : DR ForecastTaskSpec :=
  if (max_quantiles =? 0) || (19 <? max_quantiles) then Err InvalidProcessingWindow
  else Ok (mkForecastSpec (fs_target s) (fs_cadence_ms s) (fs_history_aggregation s) (fs_history_duplicate_policy s) (fs_history_feature_policies s)
             (fs_history_steps s) (fs_max_horizon_steps s) max_quantiles (fs_max_output_age_ms s) (fs_max_missing_ratio s) (fs_allowed_fallbacks s)
             (fs_fallback_policies s) (fs_max_input_age_ms s) (fs_max_gap_ms s) (fs_require_future_issue_time s)).

Definition history_policy_of (s : ForecastTaskSpec) (feature : string) : option HistoryFeaturePolicy :=
  List.find (fun p => string_eqb (hp_feature p) feature) (fs_history_feature_policies s).
Definition history_aggregation_for (s : ForecastTaskSpec) (feature : string) : HistoryAggregation :=
  from_option hp_aggregation (fs_history_aggregation s) (history_policy_of s feature).
Definition history_duplicate_policy_for (s : ForecastTaskSpec) (feature : string) : HistoryDuplicatePolicy :=
  from_option hp_duplicate_policy (fs_history_duplicate_policy s) (history_policy_of s feature).
Definition fallback_policy (s : ForecastTaskSpec) (strategy : string) : option FallbackPolicy :=
  List.find (fun p => string_eqb (fp_strategy p) strategy) (fs_fallback_policies s).

Record DataProcessingTask := mkTask {
  dt_identity : TaskIdentity; dt_processor_contract : string; dt_features : list FeatureDefinition; dt_forecast_spec : ForecastTaskSpec; dt_remote_egress_allowed : bool
}.

Definition has_role (role : FeatureRole) (f : FeatureDefinition) : bool := bool_decide (fd_role f = role).
Definition features_of (role : FeatureRole) (features : list FeatureDefinition) : list FeatureDefinition := List.filter (has_role role) features.

(** [DataProcessingTask::forecast]. *)
Definition task_forecast (identity : TaskIdentity) (contract : string) (features : list FeatureDefinition) (spec : ForecastTaskSpec) : DR DataProcessingTask :=
  if (length features =? 0)%nat then Err EmptyCollection
  else if negb (distinct (fun a b => bool_decide (fd_role a = fd_role b) && string_eqb (fd_name a) (fd_name b)) features) then Err DuplicateFeature
  else
    let target_name := ft_name (fs_target spec) in
    let? target := ok_or FeatureTypeMismatch (List.find (fun f => has_role RHistory f && string_eqb (fd_name f) target_name) features) in
    if negb (bool_decide (fd_value_type target = VNumber)) || negb (bool_decide (fd_unit target = Some (ft_unit (fs_target spec)))) ||
       existsb (fun f => negb (has_role RHistory f) && string_eqb (fd_name f) target_name) features
    then Err FeatureTypeMismatch
    else
      let history := features_of RHistory features in
      if existsb (fun p => negb (existsb (fun f => string_eqb (fd_name f) (fp_source_feature p)) history) ||
                           (string_eqb (fp_strategy p) "persistence" && negb (string_eqb (fp_source_feature p) target_name))) (fs_fallback_policies spec)
      then Err InvalidProcessingState
      else if negb (length (fs_history_feature_policies spec) =? 0)%nat &&
        (negb (length (fs_history_feature_policies spec) =? length history)%nat ||
         existsb (fun f => negb (length (List.filter (fun p => string_eqb (hp_feature p) (fd_name f)) (fs_history_feature_policies spec)) =? 1)%nat) history)
      then Err InvalidProcessingState
      else let? contract := nonempty contract in Ok (mkTask identity contract features spec false).

Definition task_allowing_remote_egress (t : DataProcessingTask) : DataProcessingTask :=
  mkTask (dt_identity t) (dt_processor_contract t) (dt_features t) (dt_forecast_spec t) true.


(** ** Frames *)

Inductive FeatureValue := FNumber (bits : Z) | FText (s : string) | FBoolean (b : bool) | FMissing.

Definition feature_number (value : Z) : DR FeatureValue := if negb (f64_is_finite value) then Err NonFiniteProcessingValue else Ok (FNumber value).
Definition value_type (v : FeatureValue) : option FeatureValueType :=
  match v with FNumber _ => Some VNumber | FText _ => Some VText | FBoolean _ => Some VBoolean | FMissing => None end.
Definition is_missing (v : FeatureValue) : bool := match v with FMissing => true | _ => false end.
Definition as_number (v : FeatureValue) : option Z := match v with FNumber x => Some x | _ => None end.

Inductive SampleQuality := SQGood | SQUncertain | SQSubstituted | SQMissing.
#[global] Instance SampleQuality_eq_dec : EqDecision SampleQuality.
Proof. solve_decision. Defined.
Definition quality_is (q : SampleQuality) (x : SampleQuality) : bool := bool_decide (x = q).

Definition validate_sample (definition : FeatureDefinition) (value : FeatureValue) (quality : SampleQuality) : DR unit :=
  if on_some (fun t => negb (bool_decide (t = fd_value_type definition))) (value_type value) then Err FeatureTypeMismatch
  else if negb (Bool.eqb (is_missing value) (quality_is SQMissing quality)) then Err InvalidSampleQuality
  else if match fd_numeric_constraints definition, as_number value with Some c, Some x => negb (accepts c x) | _, _ => false end then Err InvalidFrameQuality
  else Ok tt.

Record Series := mkSeries { se_definition : FeatureDefinition; se_values : list FeatureValue; se_quality : list SampleQuality }.

Definition series_len (s : Series) : Z := Z.of_nat (length (se_values s)).

Fixpoint validate_samples (definition : FeatureDefinition) (samples : list (FeatureValue * SampleQuality)) : DR unit :=
  match samples with
  | [] => Ok tt
  | (value, quality) :: samples => let? _ := validate_sample definition value quality in validate_samples definition samples
  end.

Definition series_new (definition : FeatureDefinition) (values : list FeatureValue) (quality : list SampleQuality) : DR Series :=
  if negb (length values =? length quality)%nat then Err ArrayLengthMismatch
  else let? _ := validate_samples definition (zip values quality) in Ok (mkSeries definition values quality).

(** [struct Segment]. *)
Record DataSegment := mkDataSegment { sg_timestamps : list Z; sg_series : list Series }.

Definition series_name (s : Series) : string := fd_name (se_definition s).

Definition segment_new (timestamps : list Z) (series : list Series) : DR DataSegment :=
  if (length timestamps =? 0)%nat || (length series =? 0)%nat then Err EmptyCollection
  else if negb (timestamps_are_strictly_increasing timestamps) then Err TimestampsNotStrictlyIncreasing
  else if existsb (fun s => negb (length (se_values s) =? length timestamps)%nat) series then Err ArrayLengthMismatch
  else if negb (distinct (fun a b => string_eqb (series_name a) (series_name b)) series) then Err DuplicateFeature
  else Ok (mkDataSegment timestamps series).

(** A cell holds an observation. *)
Definition usable (value : FeatureValue) (quality : SampleQuality) : bool := negb (quality_is SQMissing quality) && negb (is_missing value).

(** Labels of the usable cells of a series. *)
Definition usable_labels (timestamps : list Z) (s : Series) : list Z :=
  List.map (fun c : Z * FeatureValue * SampleQuality => c.1.1)
    (List.filter (fun c => usable c.1.2 c.2) (zip (zip timestamps (se_values s)) (se_quality s))).

Definition gap_step (state : Z * Z) (timestamp : Z) : Z * Z :=
  (timestamp, Z.max state.2 (saturating_sub timestamp state.1)).

Definition maximum_observation_gap (history : DataSegment) (cadence_ms : Z) : Z :=
  match sg_timestamps history, list.last (sg_timestamps history) with
  | first_label :: _, Some last_label =>
      let window_start := saturating_sub first_label cadence_ms in
      fold_left (fun maximum s =>
        let '(last_usable, series_maximum) := fold_left gap_step (usable_labels (sg_timestamps history) s) (window_start, cadence_ms) in
        Z.max maximum (Z.max series_maximum (saturating_sub last_label last_usable))) (sg_series history) cadence_ms
  | _, _ => cadence_ms
  end.

Record StaticFeature := mkStatic { sf_definition : FeatureDefinition; sf_value : FeatureValue; sf_quality : SampleQuality }.

Definition static_new (definition : FeatureDefinition) (value : FeatureValue) (quality : SampleQuality) : DR StaticFeature :=
  if negb (has_role RStatic definition) then Err FeatureTypeMismatch
  else let? _ := validate_sample definition value quality in Ok (mkStatic definition value quality).

Record FrameQuality := mkFrameQuality {
  fq_input_watermark : Z; fq_missing_ratio : Z; fq_max_gap_ms : Z; fq_live_tail_included : bool; fq_substituted_samples : Z
}.
Definition frame_quality_new (input_watermark missing_ratio max_gap_ms : Z) (live_tail : bool) (substituted : Z) : DR FrameQuality :=
  if negb (is_ratio missing_ratio) then Err InvalidFrameQuality else Ok (mkFrameQuality input_watermark missing_ratio max_gap_ms live_tail substituted).

Inductive SegmentKind := KHistory | KFutureCovariates | KStaticFeatures.
Inductive SourceKind := SHistory | SLive | SHistoryAndLive | SCovariate | SCalendar | SConstant.
#[global] Instance SegmentKind_eq_dec : EqDecision SegmentKind.
Proof. solve_decision. Defined.
#[global] Instance SourceKind_eq_dec : EqDecision SourceKind.
Proof. solve_decision. Defined.

Definition ascii_alphanumeric (c : ascii) : bool :=
  let x := Z.of_nat (nat_of_ascii c) in ((48 <=? x) && (x <=? 57)) || ((65 <=? x) && (x <=? 90)) || ((97 <=? x) && (x <=? 122)).
Definition is_semantic_source_ref (value : string) : bool :=
  let bytes := str_bytes value in
  (Z.of_nat (length bytes) <=? 2048) &&
  match bytes with
  | first :: rest => ascii_alphanumeric first && forallb (fun c => ascii_alphanumeric c || existsb (Ascii.eqb c) ["."%char; "_"%char; "-"%char]) rest
  | [] => false
  end.

Record SourceProvenance := mkSource {
  sp_segment : SegmentKind; sp_feature : string; sp_source_kind : SourceKind; sp_source_ref : option string; sp_watermark : Z; sp_issued_at : option Z
}.

(** Which kinds may contribute to a segment. *)
Definition source_is_valid (segment : SegmentKind) (kind : SourceKind) : bool :=
  match segment, kind with
  | KHistory, (SHistory | SLive | SHistoryAndLive | SCalendar) => true
  | KFutureCovariates, (SCovariate | SCalendar | SConstant) => true
  | KStaticFeatures, SConstant => true
  | _, _ => false
  end.

Definition source_new (segment : SegmentKind) (feature : string) (kind : SourceKind) (source_ref : option string) (watermark : Z) : DR SourceProvenance :=
  if negb (source_is_valid segment kind) then Err InvalidProcessingState
  else if on_some (fun v => negb (is_semantic_source_ref v)) source_ref then Err InvalidProcessingState
  else
    let? source_ref := match source_ref with Some v => let? v := nonempty v in Ok (Some v) | None => Ok None end in
    let? feature := nonempty feature in
    Ok (mkSource segment feature kind source_ref watermark None).

Definition with_issued_at (s : SourceProvenance) (issued_at : Z) : DR SourceProvenance :=
  if negb (bool_decide (sp_segment s = KFutureCovariates)) || negb (bool_decide (sp_source_kind s = SCovariate)) || (sp_watermark s <? issued_at)
  then Err InvalidProcessingWindow
  else Ok (mkSource (sp_segment s) (sp_feature s) (sp_source_kind s) (sp_source_ref s) (sp_watermark s) (Some issued_at)).

Record ProcessingFrame := mkFrame {
  pf_as_of : Z; pf_cadence_ms : Z; pf_history : DataSegment; pf_future_covariates : option DataSegment; pf_static_features : list StaticFeature;
  pf_quality : FrameQuality; pf_provenance : list SourceProvenance
}.

(** Contributions of a feature to a segment. *)
Definition sources_of (segment : SegmentKind) (feature : string) (provenance : list SourceProvenance) : list SourceProvenance :=
  List.filter (fun s => bool_decide (sp_segment s = segment) && string_eqb (sp_feature s) feature) provenance.
Definition has_one_source (segment : SegmentKind) (provenance : list SourceProvenance) (feature : string) : bool :=
  (length (sources_of segment feature provenance) =? 1)%nat.
(** [!matches!(source_kind, Calendar | Constant)]. *)
Definition is_observed (s : SourceProvenance) : bool := match sp_source_kind s with SCalendar | SConstant => false | _ => true end.

(** [Iterator::max]. *)
Definition z_max_list (l : list Z) : option Z :=
  match l with [] => None | x :: l => Some (fold_left Z.max l x) end.
Definition newest_actual_watermark (provenance : list SourceProvenance) : option Z :=
  z_max_list (List.map sp_watermark (List.filter is_observed provenance)).

Definition opt_series (s : option DataSegment) : list Series := match s with Some s => sg_series s | None => [] end.
Definition static_name (f : StaticFeature) : string := fd_name (sf_definition f).

Definition frame_new_checked (as_of cadence_ms : Z) (history : DataSegment) (future : option DataSegment) (statics : list StaticFeature)
    (quality : FrameQuality) (provenance : list SourceProvenance) : DR ProcessingFrame :=
  if (cadence_ms =? 0) || negb (bool_decide (list.last (sg_timestamps history) = Some as_of)) ||
     match future with
     | Some f => match sg_timestamps f with t :: _ => negb (bool_decide (checked_add 64 as_of cadence_ms = Some t)) | [] => false end
     | None => false
     end ||
     (as_of <? fq_input_watermark quality) ||
     existsb (fun s => (as_of <? sp_watermark s) || on_some (fun t => as_of <? t) (sp_issued_at s)) provenance
  then Err InvalidProcessingWindow
  else if existsb (fun s => negb (has_role RHistory (se_definition s))) (sg_series history) ||
          existsb (fun s => negb (has_role RFutureCovariate (se_definition s))) (opt_series future)
  then Err FeatureTypeMismatch
  else if negb (distinct (fun a b => string_eqb (static_name a) (static_name b)) statics) then Err DuplicateFeature
  else
    let expected := saturating_add64 (saturating_add64 (Z.of_nat (length (sg_series history))) (Z.of_nat (length (opt_series future)))) (Z.of_nat (length statics)) in
    if negb (Z.of_nat (length provenance) =? expected) ||
       existsb (fun s => negb (has_one_source KHistory provenance (series_name s))) (sg_series history) ||
       existsb (fun s => negb (has_one_source KFutureCovariates provenance (series_name s))) (opt_series future) ||
       existsb (fun f => negb (has_one_source KStaticFeatures provenance (static_name f))) statics
    then Err InvalidProcessingState
    else if negb (bool_decide (newest_actual_watermark provenance = Some (fq_input_watermark quality))) then Err InvalidFrameQuality
    else Ok (mkFrame as_of cadence_ms history future statics quality provenance).

(** Cells of the series of a segment. *)
Definition series_cells (series : list Series) : Z := fold_left (fun n s => saturating_add64 n (series_len s)) series 0.
Definition sample_count (f : ProcessingFrame) : Z :=
  saturating_add64 (Z.of_nat (length (sg_timestamps (pf_history f))))
    (match pf_future_covariates f with Some s => Z.of_nat (length (sg_timestamps s)) | None => 0 end).
Definition cell_count (f : ProcessingFrame) : Z :=
  saturating_add64 (saturating_add64 (series_cells (sg_series (pf_history f))) (series_cells (opt_series (pf_future_covariates f))))
    (Z.of_nat (length (pf_static_features f))).

(** ** Requests and results *)

Record ForecastOptions := mkOptions { fo_horizon_steps : Z; fo_quantiles : list Z }.
Definition options_new (horizon_steps : Z) (quantiles : list Z) : DR ForecastOptions :=
  if horizon_steps =? 0 then Err InvalidProcessingWindow
  else if existsb (fun v => negb (f64_is_finite v) || f64_le v 0 || f64_le F64_1 v) quantiles || negb (windows2 (fun a b => negb (f64_le b a)) quantiles)
  then Err InvalidQuantile
  else Ok (mkOptions horizon_steps quantiles).

(** [enum ProcessingOptions] has the one variant [Forecast]. *)
Record ProcessTaskRequest := mkTaskRequest { tr_task : TaskIdentity; tr_binding : BindingIdentity; tr_as_of : Z; tr_options : ForecastOptions }.

Record ArtifactSelector := mkSelector { as_kind : string; as_family : string; as_version : option string; as_digest : option string }.
Definition selector_new (kind family : string) (version : option string) : DR ArtifactSelector :=
  let? kind := nonempty kind in
  let? family := nonempty family in
  let? version := match version with Some v => let? v := nonempty v in Ok (Some v) | None => Ok None end in
  Ok (mkSelector kind family version None).
Definition with_digest (s : ArtifactSelector) (digest : string) : DR ArtifactSelector :=
  if negb (is_sha256_digest digest) then Err InvalidProcessingState else Ok (mkSelector (as_kind s) (as_family s) (as_version s) (Some digest)).

Record DataProcessingRequest := mkRequest {
  dr_request_id : string; dr_task : TaskIdentity; dr_binding : BindingIdentity; dr_frame : ProcessingFrame; dr_submitted_at : Z; dr_deadline : Z;
  dr_processor_contract : string; dr_artifact_selector : option ArtifactSelector; dr_input_digest : string; dr_options : ForecastOptions
}.
Definition request_new (request_id : string) (task : TaskIdentity) (binding : BindingIdentity) (frame : ProcessingFrame) (submitted_at deadline : Z)
    (contract : string) (selector : option ArtifactSelector) (input_digest : string) (options : ForecastOptions) : DR DataProcessingRequest :=
  if (deadline <=? submitted_at) || (deadline <=? pf_as_of frame) then Err InvalidProcessingWindow
  else
    let? request_id := nonempty request_id in
    let? contract := nonempty contract in
    let? input_digest := nonempty input_digest in
    Ok (mkRequest request_id task binding frame submitted_at deadline contract selector input_digest options).

Record ProcessorProvenance := mkProcessor { pp_id : string; pp_version : string; pp_contract : string }.
Definition processor_new (id version contract : string) : DR ProcessorProvenance :=
  let? id := nonempty id in let? version := nonempty version in let? contract := nonempty contract in Ok (mkProcessor id version contract).

Record ArtifactProvenance := mkArtifact { ap_kind : string; ap_family : string; ap_version : string; ap_digest : string }.
Definition artifact_new (kind family version digest : string) : DR ArtifactProvenance :=
  if negb (is_sha256_digest digest) then Err InvalidProcessingState
  else let? kind := nonempty kind in let? family := nonempty family in let? version := nonempty version in Ok (mkArtifact kind family version digest).

Record ForecastQuantile := mkQuantile { q_probability : Z; q_value : Z }.
Definition quantile_new (probability value : Z) : DR ForecastQuantile :=
  if negb (f64_is_finite probability) || f64_le probability 0 || f64_le F64_1 probability then Err InvalidQuantile
  else if negb (f64_is_finite value) then Err NonFiniteProcessingValue
  else Ok (mkQuantile probability value).

Record ForecastPoint := mkPoint { pt_timestamp : Z; pt_value : Z; pt_quantiles : list ForecastQuantile }.
Definition point_new (timestamp value : Z) (quantiles : list ForecastQuantile) : DR ForecastPoint :=
  if negb (f64_is_finite value) then Err NonFiniteProcessingValue
  else if negb (windows2 (fun a b => negb (f64_le (q_probability b) (q_probability a) || f64_lt (q_value b) (q_value a))) quantiles) then Err InvalidQuantile
  else Ok (mkPoint timestamp value quantiles).

Record ForecastOutput := mkOutput { fc_target : string; fc_unit : string; fc_sign_convention : string; fc_cadence_ms : Z; fc_points : list ForecastPoint }.
Definition output_new (target unit sign_convention : string) (cadence_ms : Z) (points : list ForecastPoint) : DR ForecastOutput :=
  if (cadence_ms =? 0) || (length points =? 0)%nat then Err InvalidProcessingWindow
  else if negb (windows2 (fun a b => pt_timestamp a <? pt_timestamp b) points) then Err TimestampsNotStrictlyIncreasing
  else if negb (windows2 (fun a b => pt_timestamp b - pt_timestamp a =? cadence_ms) points) then Err InvalidProcessingWindow
  else
    let? target := nonempty target in
    let? unit := nonempty unit in
    let? sign_convention := nonempty sign_convention in
    Ok (mkOutput target unit sign_convention cadence_ms points).

Inductive ProcessingStatus := Produced | Fallback | Unavailable.
#[global] Instance ProcessingStatus_eq_dec : EqDecision ProcessingStatus.
Proof. solve_decision. Defined.

Record FallbackInfo := mkFallback {
  fi_strategy : string; fi_strategy_version : string; fi_reason : string; fi_source_feature : string; fi_based_on_data_through : Z
}.
Definition fallback_new (strategy version reason source_feature : string) (based_on : Z) : DR FallbackInfo :=
  let? strategy := nonempty strategy in
  let? version := nonempty version in
  let? reason := nonempty reason in
  let? source_feature := nonempty source_feature in
  Ok (mkFallback strategy version reason source_feature based_on).

Record UnavailableInfo := mkUnavailable { ui_reason : string; ui_retryable : bool; ui_retry_after_ms : option Z }.
Definition unavailable_new (reason : string) (retryable : bool) (retry_after_ms : option Z) : DR UnavailableInfo :=
  if on_some (fun d => d =? 0) retry_after_ms || (negb retryable && bool_decide (is_Some retry_after_ms)) then Err InvalidProcessingState
  else let? reason := nonempty reason in Ok (mkUnavailable reason retryable retry_after_ms).

Record ProcessingResult := mkResult {
  pr_request_id : string; pr_task : TaskIdentity; pr_binding : BindingIdentity; pr_input_digest : string; pr_status : ProcessingStatus;
  pr_processor : ProcessorProvenance; pr_artifact : option ArtifactProvenance; pr_input_watermark : Z; pr_produced_at : Z; pr_expires_at : option Z;
  pr_output : option ForecastOutput; pr_fallback : option FallbackInfo; pr_unavailable : option UnavailableInfo; pr_warnings : list string
}.

Definition is_some {A} (o : option A) : bool := match o with Some _ => true | None => false end.

(** Which parts a result of each status carries. *)
Definition structure_is_valid (status : ProcessingStatus) (output : option ForecastOutput) (expires_at : option Z) (fallback : option FallbackInfo)
    (unavailable : option UnavailableInfo) : bool :=
  match status with
  | Produced => is_some output && is_some expires_at && negb (is_some fallback) && negb (is_some unavailable)
  | Fallback => is_some output && is_some expires_at && is_some fallback && negb (is_some unavailable)
  | Unavailable => negb (is_some output) && negb (is_some expires_at) && negb (is_some fallback) && is_some unavailable
  end.

Definition result_new (request_id : string) (task : TaskIdentity) (binding : BindingIdentity) (input_digest : string) (status : ProcessingStatus)
    (processor : ProcessorProvenance) (artifact : option ArtifactProvenance) (input_watermark produced_at : Z) (expires_at : option Z)
    (output : option ForecastOutput) (fallback : option FallbackInfo) (unavailable : option UnavailableInfo) : DR ProcessingResult :=
  if negb (structure_is_valid status output expires_at fallback unavailable) then Err InvalidProcessingState
  else if (produced_at <? input_watermark) || on_some (fun e => e <=? produced_at) expires_at ||
          on_some (fun f => input_watermark <? fi_based_on_data_through f) fallback
  then Err InvalidProcessingWindow
  else
    let? request_id := nonempty request_id in
    let? input_digest := nonempty input_digest in
    Ok (mkResult request_id task binding input_digest status processor artifact input_watermark produced_at expires_at output fallback unavailable []).

Definition with_warnings (r : ProcessingResult) (warnings : list string) : DR ProcessingResult :=
  let? warnings := map_result nonempty warnings in
  if negb (strings_are_unique warnings) then Err InvalidProcessingState
  else Ok (mkResult (pr_request_id r) (pr_task r) (pr_binding r) (pr_input_digest r) (pr_status r) (pr_processor r) (pr_artifact r) (pr_input_watermark r)
             (pr_produced_at r) (pr_expires_at r) (pr_output r) (pr_fallback r) (pr_unavailable r) warnings).

Record DerivedData := mkDerived { dd_result_id : string; dd_accepted_at : Z; dd_frame_quality : FrameQuality; dd_result : ProcessingResult }.
Definition derived_accept (result_id : string) (accepted_at : Z) (quality : FrameQuality) (result : ProcessingResult) : DR DerivedData :=
  if bool_decide (pr_status result = Unavailable) ||
     match pr_expires_at result with Some expires_at => expires_at <=? accepted_at | None => true end ||
     negb (fq_input_watermark quality =? pr_input_watermark result)
  then Err InvalidProcessingState
  else let? result_id := nonempty result_id in Ok (mkDerived result_id accepted_at quality result).

(** ** Port values *)

Definition feature_names_are_unique (features : list FeatureDefinition) : bool := distinct (fun a b => string_eqb (fd_name a) (fd_name b)) features.

Record HistoryWindow := mkHistoryWindow {
  hw_task : TaskIdentity; hw_binding : BindingIdentity; hw_features : list FeatureDefinition; hw_start : Z; hw_end : Z; hw_max_samples : Z;
  hw_policies : list HistoryFeaturePolicy; hw_cutoff : option Z
}.
Definition history_window_new (task : TaskIdentity) (binding : BindingIdentity) (features : list FeatureDefinition) (start end_ max_samples : Z)
    (aggregation : HistoryAggregation) (duplicates : HistoryDuplicatePolicy) : outcome PortErrorKind HistoryWindow :=
  if (length features =? 0)%nat || existsb (fun f => negb (has_role RHistory f)) features || negb (feature_names_are_unique features) ||
     (end_ <=? start) || (max_samples =? 0)
  then Err PInvalidData
  else
    let? policies := map_result (fun f => map_err (fun _ => PInvalidData) (history_policy_new (fd_name f) aggregation duplicates)) features in
    Ok (mkHistoryWindow task binding features start end_ max_samples policies None).
Definition with_feature_policies (w : HistoryWindow) (policies : list HistoryFeaturePolicy) : outcome PortErrorKind HistoryWindow :=
  if negb (length policies =? length (hw_features w))%nat ||
     existsb (fun f => negb (length (List.filter (fun p => string_eqb (hp_feature p) (fd_name f)) policies) =? 1)%nat) (hw_features w)
  then Err PInvalidData
  else Ok (mkHistoryWindow (hw_task w) (hw_binding w) (hw_features w) (hw_start w) (hw_end w) (hw_max_samples w) policies (hw_cutoff w)).
Definition with_cutoff (w : HistoryWindow) (cutoff : Z) : outcome PortErrorKind HistoryWindow :=
  if (cutoff <? hw_start w) || (hw_end w <=? cutoff) then Err PInvalidData
  else Ok (mkHistoryWindow (hw_task w) (hw_binding w) (hw_features w) (hw_start w) (hw_end w) (hw_max_samples w) (hw_policies w) (Some cutoff)).
Definition window_cutoff (w : HistoryWindow) : Z := default (hw_end w) (hw_cutoff w).

Record CovariateWindow := mkCovariateWindow {
  cw_binding : BindingIdentity; cw_features : list FeatureDefinition; cw_as_of : Z; cw_start : Z; cw_end : Z; cw_max_samples : Z
}.
Definition covariate_window_new (binding : BindingIdentity) (features : list FeatureDefinition) (as_of start end_ max_samples : Z)
  : outcome PortErrorKind CovariateWindow :=
  if (length features =? 0)%nat || existsb (fun f => negb (has_role RFutureCovariate f)) features || negb (feature_names_are_unique features) ||
     (start <=? as_of) || (end_ <=? start) || (max_samples =? 0)
  then Err PInvalidData
  else Ok (mkCovariateWindow binding features as_of start end_ max_samples).

Record SourcedSegment := mkSourced { ss_segment : DataSegment; ss_provenance : list SourceProvenance }.
Definition kind_of_role (role : FeatureRole) : SegmentKind :=
  match role with RHistory => KHistory | RFutureCovariate => KFutureCovariates | RStatic => KStaticFeatures end.
Definition sourced_new (segment : DataSegment) (provenance : list SourceProvenance) : outcome PortErrorKind SourcedSegment :=
  if negb (length provenance =? length (sg_series segment))%nat ||
     existsb (fun s => negb (has_one_source (kind_of_role (fd_role (se_definition s))) provenance (series_name s))) (sg_series segment)
  then Err PInvalidData
  else Ok (mkSourced segment provenance).

Inductive DataBoundary := BLocal | BRemote.
#[global] Instance DataBoundary_eq_dec : EqDecision DataBoundary.
Proof. solve_decision. Defined.

Record DataProcessorDescriptor := mkDescriptor {
  pd_id : string; pd_version : string; pd_supported_tasks : list TaskKind; pd_supported_contracts : list string; pd_data_boundary : DataBoundary;
  pd_max_frame_samples : Z; pd_max_request_bytes : Z
}.
Definition descriptor_new (id version : string) (tasks : list TaskKind) (contracts : list string) (boundary : DataBoundary)
    (max_frame_samples max_request_bytes : Z) : outcome PortErrorKind DataProcessorDescriptor :=
  if blank (str_bytes id) || blank (str_bytes version) || (length tasks =? 0)%nat || (length contracts =? 0)%nat ||
     existsb (fun c => blank (str_bytes c)) contracts || negb (distinct (fun _ _ : TaskKind => true) tasks) ||
     negb (distinct string_eqb contracts) || (max_frame_samples =? 0) || (max_request_bytes =? 0)
  then Err PInvalidData
  else Ok (mkDescriptor id version tasks contracts boundary max_frame_samples max_request_bytes).
(** [TaskKind] has one value. *)
Definition supports (d : DataProcessorDescriptor) : bool := negb (length (pd_supported_tasks d) =? 0)%nat.
Definition supports_contract (d : DataProcessorDescriptor) (contract : string) : bool := existsb (fun s => string_eqb s contract) (pd_supported_contracts d).

Inductive ProcessorHealth := PhHealthy | PhDegraded | PhUnavailable.

(** [struct PointSample] of [point.rs]. *)
Record PointSample := mkPointSample { ps_address : PointAddress; ps_value : Z; ps_timestamp : Z; ps_quality : PointQuality }.
