(* ===== verification/DataProcessing.v ===== *)
(** * Governed data processing

    [crates/aether-application/src/data_processing.rs]: commissioned routes, the
    assembly of one frame from history, live and covariate sources, the call of
    the processor and the acceptance of its result. Every port answers as a
    function of what happened before it is asked, and may never answer before
    its timeout ([Elapsed]); the events of a call are its trace. The wire codec
    of [crates/aether-data-processing] and UUID version 5 are parameters. *)

From S2P Require Import Prelude F64 Slot Bitmap Segment Snapshot Text BTree Manifest Publish Publication Acquisition Command Application DataTask.

(** ** Errors *)

(** The texts of [InvalidProcessingConfiguration] and [InvalidProcessorResult]. *)
Inductive ConfigDefect :=
| ContractNotRepresentable | LimitsNotSatisfied | ConcurrencyOutOfRange | PointBindingInvalid | PointMappingsNotUnique | RoutesNotUnique
| CovariateSourceMissing | CellLimitOverflow | StaticFeaturesMismatch | PointMappingsInvalid | LiveTailAggregation | TargetNotCommissioned
| NotEnabled | ProvenanceIncomplete | LiveTailSeriesEmpty.

Inductive ResultDefect :=
| WireContractViolated | CorrelationMismatch | ArtifactMismatch | ArtifactMissing | ExpiryExceedsTask | FallbackMetadataMissing | FallbackUndeclared
| FallbackHistoryEmpty | FallbackBeyondHistory | FallbackSourceAbsent | FallbackSourceUnusable | FallbackNotLatest | FallbackPolicyAbsent
| FallbackPolicyMismatch | FallbackExpiryMissing | FallbackExpiryExceeds | PersistenceNotNumeric | PersistenceOutputMissing | PersistenceDiffers
| OutputMissing | ShapeMismatch | TimeAxisOverflow | TimeAxisInvalid | TimeAxisMismatch | UnavailableMetadataMissing | OutsideAcceptanceWindow
| DerivedInconsistent (e : ProcessingError).

(** The variants of [ApplicationError] that data processing returns. *)
Inductive DataError :=
| Governance (e : ApplicationError)
| InvalidProcessingRequest (e : ProcessingError)
| InputQualityRejected (e : ProcessingError)
| InvalidProcessingConfiguration (d : ConfigDefect)
| InvalidProcessorResult (d : ResultDefect)
| ProcessingUnavailable (reason : string) (retryable : bool) (retry_after_ms : option Z)
| HistoryQueryFailed (e : PortErrorKind)
| CovariateSourceFailed (e : PortErrorKind)
| ProcessorFailed (e : PortErrorKind)
| ProcessingCodec
| ProcessingRequestTooLarge (encoded_bytes max_bytes : Z).

Definition AR (A : Type) : Type := outcome DataError A.

Definition invalid_request {A} (c : DR A) : AR A := map_err InvalidProcessingRequest c.
Definition quality_rejected {A} (c : DR A) : AR A := map_err InputQualityRejected c.
Definition port_failed {A} (c : outcome PortErrorKind A) : AR A := map_err (fun e => Governance (PortFailed e)) c.
Definition window_of {A} (o : option A) : AR A := ok_or (InvalidProcessingRequest InvalidProcessingWindow) o.
Definition config_check (b : bool) (d : ConfigDefect) : AR unit := ensure (negb b) (InvalidProcessingConfiguration d).
Definition result_check (b : bool) (d : ResultDefect) : AR unit := ensure (negb b) (InvalidProcessorResult d).
Definition quality_check (b : bool) (e : ProcessingError) : AR unit := ensure (negb b) (InputQualityRejected e).

(** ** Commissioned routes *)

Record PointFeatureBinding := mkPointBinding { pb_feature : string; pb_address : PointAddress; pb_live_tail : bool }.
#[global] Instance PointAddress_eq_dec : EqDecision PointAddress.
Proof. solve_decision. Defined.

Definition point_binding_new (feature : string) (address : PointAddress) : AR PointFeatureBinding :=
  let? _ := config_check (blank (str_bytes feature) || is_writable (lp_kind address)) PointBindingInvalid in
  Ok (mkPointBinding feature address false).
Definition with_live_tail (b : PointFeatureBinding) : PointFeatureBinding := mkPointBinding (pb_feature b) (pb_address b) true.

Record DataProcessingBinding := mkDataBinding {
  db_identity : BindingIdentity; db_point_features : list PointFeatureBinding; db_static_features : list StaticFeature;
  db_artifact : option ArtifactSelector; db_remote_egress_allowed : bool
}.
Definition data_binding_new (identity : BindingIdentity) (points : list PointFeatureBinding) : AR DataProcessingBinding :=
  let? _ := config_check ((length points =? 0)%nat ||
    negb (distinct (fun a b => string_eqb (pb_feature a) (pb_feature b) || bool_decide (pb_address a = pb_address b)) points)) PointMappingsNotUnique in
  Ok (mkDataBinding identity points [] None false).
Definition with_static_features (b : DataProcessingBinding) (statics : list StaticFeature) : DataProcessingBinding :=
  mkDataBinding (db_identity b) (db_point_features b) statics (db_artifact b) (db_remote_egress_allowed b).
Definition with_artifact (b : DataProcessingBinding) (artifact : ArtifactSelector) : DataProcessingBinding :=
  mkDataBinding (db_identity b) (db_point_features b) (db_static_features b) (Some artifact) (db_remote_egress_allowed b).
Definition binding_allowing_remote_egress (b : DataProcessingBinding) : DataProcessingBinding :=
  mkDataBinding (db_identity b) (db_point_features b) (db_static_features b) (db_artifact b) true.

(** [processor] is its descriptor; what it answers is the environment's. *)
Record DataProcessingRoute := mkRoute {
  rt_task : DataProcessingTask; rt_binding : DataProcessingBinding; rt_descriptor : DataProcessorDescriptor; rt_deadline_ms : Z;
  rt_max_concurrency : Z; rt_remote_egress_preapproved : bool
}.
Definition rt_spec (r : DataProcessingRoute) : ForecastTaskSpec := dt_forecast_spec (rt_task r).

Record Codec := mkCodec {
  compute_input_digest : TaskIdentity -> BindingIdentity -> string -> option ArtifactSelector -> ProcessingFrame -> ForecastOptions -> option string;
  encode_request : DataProcessingRequest -> option Z;
  encode_result : ProcessingResult -> bool;
  validate_commissioned_route_contract : DataProcessingTask -> BindingIdentity -> option ArtifactSelector -> string -> string -> list string -> bool;
  uuid_v5 : string -> string
}.

Definition count_role (role : FeatureRole) (task : DataProcessingTask) : Z := Z.of_nat (length (features_of role (dt_features task))).

Definition maximum_task_cell_count (task : DataProcessingTask) : AR Z :=
  let spec := dt_forecast_spec task in
  ok_or (InvalidProcessingConfiguration CellLimitOverflow)
    (count ← checked_mul 64 (count_role RHistory task) (fs_history_steps spec);
     future ← checked_mul 64 (count_role RFutureCovariate task) (fs_max_horizon_steps spec);
     count ← checked_add 64 count future;
     checked_add 64 count (count_role RStatic task)).

Definition validate_commissioned_binding (task : DataProcessingTask) (binding : DataProcessingBinding) : AR unit :=
  let expected_static := features_of RStatic (dt_features task) in
  let? _ := config_check (negb (length expected_static =? length (db_static_features binding))%nat ||
    existsb (fun d => negb (existsb (fun f => definition_eqb (sf_definition f) d) (db_static_features binding))) expected_static) StaticFeaturesMismatch in
  let? _ := config_check (existsb (fun p => is_writable (lp_kind (pb_address p)) ||
    negb (existsb (fun f => string_eqb (fd_name f) (pb_feature p) && has_role RHistory f && bool_decide (fd_value_type f = VNumber)) (dt_features task)))
    (db_point_features binding)) PointMappingsInvalid in
  let spec := dt_forecast_spec task in
  let? _ := config_check (existsb (fun p => pb_live_tail p && negb (bool_decide (history_aggregation_for spec (pb_feature p) = AggLast)))
    (db_point_features binding)) LiveTailAggregation in
  config_check (negb (existsb (fun p => string_eqb (pb_feature p) (ft_name (fs_target spec))) (db_point_features binding))) TargetNotCommissioned.

Section Routes.
Context (codec : Codec).

Definition route_new (task : DataProcessingTask) (binding : DataProcessingBinding) (descriptor : DataProcessorDescriptor) (deadline_ms : Z)
  : AR DataProcessingRoute :=
  let? _ := config_check (negb (validate_commissioned_route_contract codec task (db_identity binding) (db_artifact binding) (pd_id descriptor)
    (pd_version descriptor) (pd_supported_contracts descriptor))) ContractNotRepresentable in
  let? maximum_frame_cells := maximum_task_cell_count task in
  let? _ := config_check ((deadline_ms =? 0) || negb (supports descriptor) || negb (supports_contract descriptor (dt_processor_contract task)) ||
    (pd_max_frame_samples descriptor <? maximum_frame_cells) ||
    (bool_decide (pd_data_boundary descriptor = BRemote) && (negb (dt_remote_egress_allowed task) || negb (db_remote_egress_allowed binding)))) LimitsNotSatisfied in
  let? _ := validate_commissioned_binding task binding in
  Ok (mkRoute task binding descriptor deadline_ms 1 false).

Definition with_max_concurrency (r : DataProcessingRoute) (max_concurrency : Z) : AR DataProcessingRoute :=
  let? _ := config_check ((max_concurrency =? 0) || (64 <? max_concurrency)) ConcurrencyOutOfRange in
  Ok (mkRoute (rt_task r) (rt_binding r) (rt_descriptor r) (rt_deadline_ms r) max_concurrency (rt_remote_egress_preapproved r)).
Definition with_preapproved_remote_egress (r : DataProcessingRoute) : DataProcessingRoute :=
  mkRoute (rt_task r) (rt_binding r) (rt_descriptor r) (rt_deadline_ms r) (rt_max_concurrency r) true.

End Routes.

Definition same_route (a b : DataProcessingRoute) : bool :=
  bool_decide (dt_identity (rt_task a) = dt_identity (rt_task b)) && bool_decide (db_identity (rt_binding a) = db_identity (rt_binding b)).

(** The loop of [DataProcessingApplication::new]. *)
Fixpoint check_routes (covariates : bool) (seen routes : list DataProcessingRoute) : AR unit :=
  match routes with
  | [] => Ok tt
  | r :: routes =>
      let? _ := config_check (existsb (fun s => same_route s r) seen) RoutesNotUnique in
      let? _ := validate_commissioned_binding (rt_task r) (rt_binding r) in
      let? _ := config_check (existsb (has_role RFutureCovariate) (dt_features (rt_task r)) && negb covariates) CovariateSourceMissing in
      check_routes covariates (seen ++ [r]) routes
  end.

Record DataProcessingApplication := mkDataApplication { da_routes : list DataProcessingRoute; da_covariates : bool }.
Definition data_application_new (routes : list DataProcessingRoute) (covariates : bool) : AR DataProcessingApplication :=
  let? _ := check_routes covariates [] routes in Ok (mkDataApplication routes covariates).

(** ** Frame checks *)

Definition regular_timestamps (start cadence_ms count : Z) : AR (list Z) :=
  map_result (fun index => window_of (offset ← checked_mul 64 cadence_ms index; checked_add 64 start offset)) (seqZ 0 count).

Definition validate_segment (segment : DataSegment) (features : list FeatureDefinition) (timestamps : list Z) : AR unit :=
  quality_check (negb (bool_decide (sg_timestamps segment = timestamps)) || negb (length (sg_series segment) =? length features)%nat ||
    existsb (fun d => negb (existsb (fun s => definition_eqb (se_definition s) d) (sg_series segment))) features) InvalidProcessingWindow.

Definition violates (c : NumericFeatureConstraints) (value : FeatureValue) : bool :=
  negb (is_missing value) && match as_number value with Some number => negb (accepts c number) | None => true end.
Definition validate_feature_constraints (segment : DataSegment) : AR unit :=
  quality_check (existsb (fun s => on_some (fun c => existsb (violates c) (se_values s)) (fd_numeric_constraints (se_definition s))) (sg_series segment))
    InvalidFrameQuality.

Definition validate_segment_provenance (provenance : list SourceProvenance) (features : list FeatureDefinition) (segment : SegmentKind) : AR unit :=
  let sources := List.filter (fun s => bool_decide (sp_segment s = segment)) provenance in
  quality_check (negb (length sources =? length features)%nat ||
    existsb (fun f => negb (length (List.filter (fun s => string_eqb (sp_feature s) (fd_name f)) sources) =? 1)%nat) features) InvalidFrameQuality.

Definition count_quality (q : SampleQuality) (qualities : list SampleQuality) : Z := Z.of_nat (length (List.filter (quality_is q) qualities)).
(** [saturating_add] of a count per series. *)
Definition count_cells (count : Series -> Z) (series : list Series) (statics : Z) : Z :=
  saturating_add64 (fold_left (fun n s => saturating_add64 n (count s)) series 0) statics.

Definition frame_cell_counts (history : DataSegment) (future : option DataSegment) (statics : list StaticFeature) : Z * Z * Z :=
  let series := sg_series history ++ opt_series future in
  (count_cells (fun s => count_quality SQMissing (se_quality s)) series (count_quality SQMissing (List.map sf_quality statics)),
   count_cells (fun s => count_quality SQSubstituted (se_quality s)) series (count_quality SQSubstituted (List.map sf_quality statics)),
   count_cells series_len series (Z.of_nat (length statics))).

Fixpoint try_sum (lens : list Z) (acc : Z) : option Z :=
  match lens with [] => Some acc | n :: lens => acc ← checked_add 64 acc n; try_sum lens acc end.
Definition frame_cell_count (frame : ProcessingFrame) : AR Z :=
  window_of (history ← try_sum (List.map series_len (sg_series (pf_history frame))) 0;
             future ← try_sum (List.map series_len (opt_series (pf_future_covariates frame))) 0;
             count ← checked_add 64 future history;
             checked_add 64 count (Z.of_nat (length (pf_static_features frame)))).

(** [missing as f64 / cells as f64]. *)
Definition ratio_of (missing cells : Z) : Z :=
  if cells =? 0 then 0 else to_bits (f64_div (of_bits (f64_of_Z missing)) (of_bits (f64_of_Z cells))).

(** ** Results *)

(** [rposition]: the last index that satisfies the test. *)
Fixpoint rposition {A} (f : A -> bool) (l : list A) : option nat :=
  match l with
  | [] => None
  | x :: l => match rposition f l with Some i => Some (S i) | None => if f x then Some 0%nat else None end
  end.

(** [list[index]]. *)
Definition index_of {E A} (l : list A) (i : nat) : outcome E A := match l !! i with Some a => Ok a | None => Panic end.

(** [to_bits() != to_bits()]. *)
Definition differs (source point : Z) : bool := negb (point =? source).
Definition point_differs (source : Z) (p : ForecastPoint) : bool :=
  differs source (pt_value p) || existsb (fun q => differs source (q_value q)) (pt_quantiles p).

Definition artifact_matches (selector : ArtifactSelector) (artifact : ArtifactProvenance) : bool :=
  string_eqb (ap_kind artifact) (as_kind selector) && string_eqb (ap_family artifact) (as_family selector) &&
  negb (on_some (fun v => negb (string_eqb v (ap_version artifact))) (as_version selector)) &&
  negb (on_some (fun d => negb (string_eqb d (ap_digest artifact))) (as_digest selector)).

(** The block for [ProcessingStatus::Fallback]. *)
Definition validate_fallback (spec : ForecastTaskSpec) (request : DataProcessingRequest) (result : ProcessingResult) : AR unit :=
  let? fallback := ok_or (InvalidProcessorResult FallbackMetadataMissing) (pr_fallback result) in
  let? _ := result_check (negb (existsb (fun item => string_eqb item (fi_strategy fallback)) (fs_allowed_fallbacks spec))) FallbackUndeclared in
  let history := pf_history (dr_frame request) in
  let? history_cut := ok_or (InvalidProcessorResult FallbackHistoryEmpty) (list.last (sg_timestamps history)) in
  let? _ := result_check (history_cut <? fi_based_on_data_through fallback) FallbackBeyondHistory in
  let? source := ok_or (InvalidProcessorResult FallbackSourceAbsent)
    (List.find (fun s => string_eqb (series_name s) (fi_source_feature fallback)) (sg_series history)) in
  let? source_index := ok_or (InvalidProcessorResult FallbackSourceUnusable)
    (rposition (fun c : FeatureValue * SampleQuality => usable c.1 c.2) (zip (se_values source) (se_quality source))) in
  let? label := index_of (sg_timestamps history) source_index in
  let? _ := result_check (negb (label =? fi_based_on_data_through fallback)) FallbackNotLatest in
  let? policy := ok_or (InvalidProcessorResult FallbackPolicyAbsent) (fallback_policy spec (fi_strategy fallback)) in
  let? _ := result_check (negb (string_eqb (fi_strategy_version fallback) (fp_version policy)) ||
    negb (string_eqb (fi_source_feature fallback) (fp_source_feature policy))) FallbackPolicyMismatch in
  let? expiry := ok_or (InvalidProcessorResult FallbackExpiryMissing) (pr_expires_at result) in
  let? _ := result_check (fp_max_output_age_ms policy <? saturating_sub expiry (pr_produced_at result)) FallbackExpiryExceeds in
  if string_eqb (fi_strategy fallback) "persistence" then
    let? value := index_of (se_values source) source_index in
    let? source_value := ok_or (InvalidProcessorResult PersistenceNotNumeric) (as_number value) in
    let? output := ok_or (InvalidProcessorResult PersistenceOutputMissing) (pr_output result) in
    result_check (existsb (point_differs source_value) (fc_points output)) PersistenceDiffers
  else Ok tt.

(** The checks on a usable output. *)
Definition validate_forecast (spec : ForecastTaskSpec) (request : DataProcessingRequest) (result : ProcessingResult) : AR unit :=
  let? output := ok_or (InvalidProcessorResult OutputMissing) (pr_output result) in
  let options := dr_options request in
  let? _ := result_check (negb (string_eqb (fc_target output) (ft_name (fs_target spec))) || negb (string_eqb (fc_unit output) (ft_unit (fs_target spec))) ||
    negb (string_eqb (fc_sign_convention output) (ft_sign_convention (fs_target spec))) || negb (fc_cadence_ms output =? fs_cadence_ms spec) ||
    negb (Z.of_nat (length (fc_points output)) =? fo_horizon_steps options)) ShapeMismatch in
  let? expected :=
    match pf_future_covariates (dr_frame request) with
    | Some future => Ok (sg_timestamps future)
    | None =>
        let? start := ok_or (InvalidProcessorResult TimeAxisOverflow) (checked_add 64 (pf_as_of (dr_frame request)) (fs_cadence_ms spec)) in
        map_err (fun _ => InvalidProcessorResult TimeAxisInvalid) (regular_timestamps start (fs_cadence_ms spec) (fo_horizon_steps options))
    end in
  result_check (negb (length (fc_points output) =? length expected)%nat ||
    existsb (fun c : ForecastPoint * Z => negb (pt_timestamp c.1 =? c.2)) (zip (fc_points output) expected) ||
    existsb (fun p => negb (length (pt_quantiles p) =? length (fo_quantiles options))%nat ||
      existsb (fun c : ForecastQuantile * Z => negb (f64_same (q_probability c.1) c.2)) (zip (pt_quantiles p) (fo_quantiles options))) (fc_points output))
    TimeAxisMismatch.

Definition validate_processor_result (codec : Codec) (route : DataProcessingRoute) (request : DataProcessingRequest) (result : ProcessingResult) : AR unit :=
  let? _ := result_check (negb (encode_result codec result)) WireContractViolated in
  let descriptor := rt_descriptor route in
  let? _ := result_check (negb (string_eqb (pr_request_id result) (dr_request_id request)) || negb (bool_decide (pr_task result = dr_task request)) ||
    negb (bool_decide (pr_binding result = dr_binding request)) || negb (string_eqb (pr_input_digest result) (dr_input_digest request)) ||
    negb (pr_input_watermark result =? fq_input_watermark (pf_quality (dr_frame request))) ||
    negb (string_eqb (pp_id (pr_processor result)) (pd_id descriptor)) || negb (string_eqb (pp_version (pr_processor result)) (pd_version descriptor)) ||
    negb (string_eqb (pp_contract (pr_processor result)) (dr_processor_contract request)) ||
    (pr_produced_at result <? dr_submitted_at request) || (dr_deadline request <? pr_produced_at result)) CorrelationMismatch in
  let? _ := result_check (match dr_artifact_selector request, pr_artifact result with
    | Some selector, Some artifact => negb (artifact_matches selector artifact) | _, _ => false end) ArtifactMismatch in
  let? _ := result_check (bool_decide (pr_status result = Produced) && is_some (dr_artifact_selector request) && negb (is_some (pr_artifact result)))
    ArtifactMissing in
  let? _ := result_check (on_some (fun expiry => fs_max_output_age_ms (rt_spec route) <? saturating_sub expiry (pr_produced_at result)) (pr_expires_at result))
    ExpiryExceedsTask in
  match pr_status result with
  | Unavailable => Ok tt
  | Fallback => let? _ := validate_fallback (rt_spec route) request result in validate_forecast (rt_spec route) request result
  | Produced => validate_forecast (rt_spec route) request result
  end.

(** ** One call *)

(** What a port answers before its timeout. *)
Inductive Reply (A : Type) := Answered (a : A) | Refused (e : PortErrorKind) | Elapsed.
Arguments Answered {A} _.
Arguments Refused {A} _.
Arguments Elapsed {A}.

(** The text of an audit record. *)
Inductive AuditDetail :=
| DetailError (e : DataError)
| DetailPort (e : PortErrorKind)
| DetailAttempt (task binding digest processor processor_request : string)
| DetailNone.

Record DataAudit := mkDataAudit {
  da_request_id : string; da_actor_id : string; da_capability : string; da_outcome : AuditOutcome; da_timestamp : Z; da_detail : AuditDetail
}.

Inductive DataEvent :=
| EvAudit (record : DataAudit) (reply : Reply unit)
| EvPermit (granted : bool)
| EvHistory (window : HistoryWindow) (reply : Reply SourcedSegment)
| EvLive (addresses : list PointAddress) (reply : Reply (list (option PointSample)))
| EvCovariates (window : CovariateWindow) (reply : Reply SourcedSegment)
| EvProcess (request : DataProcessingRequest) (reply : Reply ProcessingResult)
| EvClock (reply : PortErrorKind + Z)
| EvHealth (processor : string) (reply : PortErrorKind + ProcessorHealth).

Record DataPorts := mkDataPorts {
  ask_audit : list DataEvent -> DataAudit -> Reply unit;
  ask_permit : list DataEvent -> DataProcessingRoute -> bool;
  ask_history : list DataEvent -> HistoryWindow -> Reply SourcedSegment;
  ask_live : list DataEvent -> list PointAddress -> Reply (list (option PointSample));
  ask_covariates : list DataEvent -> CovariateWindow -> Reply SourcedSegment;
  ask_process : list DataEvent -> DataProcessingRoute -> DataProcessingRequest -> Reply ProcessingResult;
  ask_clock : list DataEvent -> PortErrorKind + Z;
  ask_health : list DataEvent -> DataProcessingRoute -> PortErrorKind + ProcessorHealth
}.

Definition DataM (A : Type) : Type := ST (list DataEvent) DataError A.

(** Work under [tokio::time::timeout] fails, or the timeout ends it. *)
Inductive Stopped := StoppedBy (e : DataError) | OutOfTime.
Definition WorkM (A : Type) : Type := ST (list DataEvent) Stopped A.

Definition ask {E R} (event : R -> DataEvent) (answer : list DataEvent -> R) : ST (list DataEvent) E R :=
  fun tr => let reply := answer tr in (tr ++ [event reply], Ok reply).
Definition work {A} (c : AR A) : WorkM A := st_lift (map_err StoppedBy c).
Definition answered {A} (e : PortErrorKind -> DataError) (reply : Reply A) : WorkM A :=
  match reply with Answered a => st_ret a | Refused k => st_fail (StoppedBy (e k)) | Elapsed => st_fail OutOfTime end.
Definition catch {St E E' A} (c : ST St E A) (handler : E -> ST St E' A) : ST St E' A :=
  fun s => match c s with (s', Ok a) => (s', Ok a) | (s', Err e) => handler e s' | (s', Panic) => (s', Panic) end.

Section Calls.
Context (codec : Codec) (app : DataProcessingApplication) (ports : DataPorts).

(** *** Frame assembly *)

(** The samples that may replace the tail, all or none. *)
Fixpoint accept_samples (as_of : Z) (pairs : list (PointFeatureBinding * option PointSample)) : option (list (PointFeatureBinding * PointSample)) :=
  match pairs with
  | [] => Some []
  | (_, None) :: _ => None
  | (mapping, Some sample) :: pairs =>
      if negb (bool_decide (ps_address sample = pb_address mapping)) || negb (f64_is_finite (ps_value sample)) || negb (ps_timestamp sample =? as_of) ||
         negb (match ps_quality sample with Good | Uncertain => true | Bad | QUnavailable => false end)
      then None
      else rest ← accept_samples as_of pairs; Some ((mapping, sample) :: rest)
  end.

(** [*list.last_mut() = x], when there is a last. *)
Definition set_last {A} (x : A) (l : list A) : option (list A) :=
  match l with [] => None | _ => Some (removelast l ++ [x]) end.

Definition tail_quality (q : PointQuality) : option SampleQuality :=
  match q with Good => Some SQGood | Uncertain => Some SQUncertain | Bad | QUnavailable => None end.

(** One turn of the loop over the stored series; [None] returns the stored
    history. *)
Definition merge_series (provenance : list SourceProvenance) (accepted : list (PointFeatureBinding * PointSample)) (stored : Series)
  : AR (option (Series * SourceProvenance)) :=
  match List.find (fun c : PointFeatureBinding * PointSample => string_eqb (pb_feature c.1) (series_name stored)) accepted with
  | None =>
      let? source := ok_or (InvalidProcessingConfiguration ProvenanceIncomplete)
        (List.find (fun s => string_eqb (sp_feature s) (series_name stored)) provenance) in
      Ok (Some (stored, source))
  | Some (mapping, sample) =>
      let? _ := ok_or (InvalidProcessingConfiguration LiveTailSeriesEmpty) (list.last (se_values stored)) in
      let? latest := invalid_request (feature_number (ps_value sample)) in
      let? values := ok_or (InvalidProcessingConfiguration LiveTailSeriesEmpty) (set_last latest (se_values stored)) in
      let? _ := ok_or (InvalidProcessingConfiguration LiveTailSeriesEmpty) (list.last (se_quality stored)) in
      match tail_quality (ps_quality sample) with
      | None => Ok None
      | Some q =>
          let? quality := ok_or (InvalidProcessingConfiguration LiveTailSeriesEmpty) (set_last q (se_quality stored)) in
          let? series := invalid_request (series_new (se_definition stored) values quality) in
          let source_ref := s ← List.find (fun s => string_eqb (sp_feature s) (pb_feature mapping)) provenance; sp_source_ref s in
          let? source := invalid_request (source_new KHistory (pb_feature mapping) SHistoryAndLive source_ref (ps_timestamp sample)) in
          Ok (Some (series, source))
      end
  end.

Fixpoint merge_all (provenance : list SourceProvenance) (accepted : list (PointFeatureBinding * PointSample)) (stored : list Series)
  : AR (option (list (Series * SourceProvenance))) :=
  match stored with
  | [] => Ok (Some [])
  | s :: stored =>
      let? merged := merge_series provenance accepted s in
      match merged with
      | None => Ok None
      | Some m => let? rest := merge_all provenance accepted stored in Ok (rest ← rest; Some (m :: rest))
      end
  end.

Definition merge_live_tail (route : DataProcessingRoute) (as_of : Z) (history : SourcedSegment) : WorkM (SourcedSegment * bool) :=
  let mappings := List.filter pb_live_tail (db_point_features (rt_binding route)) in
  let stored := st_ret (history, false) in
  if (length mappings =? 0)%nat then stored
  else if negb (bool_decide (list.last (sg_timestamps (ss_segment history)) = Some as_of)) then stored
  else
    let addresses := List.map pb_address mappings in
    let! reply := ask (EvLive addresses) (fun tr => ask_live ports tr addresses) in
    match reply with
    | Elapsed => st_fail OutOfTime
    | Refused _ => stored
    | Answered samples =>
        if negb (length samples =? length mappings)%nat then stored
        else match accept_samples as_of (zip mappings samples) with
             | None => stored
             | Some accepted =>
                 let! merged := work (merge_all (ss_provenance history) accepted (sg_series (ss_segment history))) in
                 match merged with
                 | None => stored
                 | Some merged =>
                     let! segment := work (invalid_request (segment_new (sg_timestamps (ss_segment history)) (List.map fst merged))) in
                     let! sourced := work (port_failed (sourced_new segment (List.map snd merged))) in
                     st_ret (sourced, true)
                 end
             end
    end.

(** The history window of a request. *)
Definition history_window (route : DataProcessingRoute) (request : ProcessTaskRequest) : AR HistoryWindow :=
  let spec := rt_spec route in
  let features := features_of RHistory (dt_features (rt_task route)) in
  let? policies := map_result (fun f => invalid_request (history_policy_new (fd_name f) (history_aggregation_for spec (fd_name f))
                                                           (history_duplicate_policy_for spec (fd_name f)))) features in
  let? history_span := window_of (checked_mul 64 (fs_cadence_ms spec) (saturating_sub (fs_history_steps spec) 1)) in
  let? history_start := window_of (if tr_as_of request <? history_span then None else Some (tr_as_of request - history_span)) in
  let? history_end := window_of (checked_add 64 (tr_as_of request) (fs_cadence_ms spec)) in
  port_failed
    (let? window := history_window_new (dt_identity (rt_task route)) (db_identity (rt_binding route)) features history_start history_end
                      (fs_history_steps spec) (fs_history_aggregation spec) (fs_history_duplicate_policy spec) in
     let? window := with_feature_policies window policies in
     with_cutoff window (tr_as_of request)).

(** The checks on a sourced segment. *)
Definition validate_sourced (sourced : SourcedSegment) (features : list FeatureDefinition) (start cadence_ms count : Z) (kind : SegmentKind) : AR unit :=
  let? expected := regular_timestamps start cadence_ms count in
  let? _ := validate_segment (ss_segment sourced) features expected in
  let? _ := validate_feature_constraints (ss_segment sourced) in
  validate_segment_provenance (ss_provenance sourced) features kind.

Definition covariate_window (route : DataProcessingRoute) (request : ProcessTaskRequest) : AR CovariateWindow :=
  let spec := rt_spec route in
  let options := tr_options request in
  let? start := window_of (checked_add 64 (tr_as_of request) (fs_cadence_ms spec)) in
  let? span := window_of (checked_mul 64 (fs_cadence_ms spec) (fo_horizon_steps options)) in
  let? end_ := window_of (checked_add 64 start span) in
  let? _ := config_check (negb (da_covariates app)) CovariateSourceMissing in
  port_failed (covariate_window_new (db_identity (rt_binding route)) (features_of RFutureCovariate (dt_features (rt_task route)))
                 (tr_as_of request) start end_ (fo_horizon_steps options)).

Definition resolve_future (route : DataProcessingRoute) (request : ProcessTaskRequest) : WorkM (option SourcedSegment) :=
  let features := features_of RFutureCovariate (dt_features (rt_task route)) in
  if (length features =? 0)%nat then st_ret None
  else
    let! window := work (covariate_window route request) in
    let! reply := ask (EvCovariates window) (fun tr => ask_covariates ports tr window) in
    let! sourced := answered CovariateSourceFailed reply in
    let! _ := work (validate_sourced sourced features (cw_start window) (fs_cadence_ms (rt_spec route)) (fo_horizon_steps (tr_options request))
                      KFutureCovariates) in
    st_ret (Some sourced).

(** The quality gates and the frame. *)
Definition finish_frame (route : DataProcessingRoute) (request : ProcessTaskRequest) (history : SourcedSegment) (live_tail : bool)
    (future : option SourcedSegment) : AR ProcessingFrame :=
  let spec := rt_spec route in
  let as_of := tr_as_of request in
  let statics := db_static_features (rt_binding route) in
  let? static_sources := map_result (fun f => invalid_request (source_new KStaticFeatures (static_name f) SConstant None as_of)) statics in
  let provenance := (ss_provenance history ++ match future with Some f => ss_provenance f | None => [] end) ++ static_sources in
  let history_features := features_of RHistory (dt_features (rt_task route)) in
  let future_features := features_of RFutureCovariate (dt_features (rt_task route)) in
  let static_definitions := List.map sf_definition statics in
  let? _ := validate_segment_provenance provenance history_features KHistory in
  let? _ := validate_segment_provenance provenance future_features KFutureCovariates in
  let? _ := validate_segment_provenance provenance static_definitions KStaticFeatures in
  let? expected_count := window_of (count ← checked_add 64 (Z.of_nat (length history_features)) (Z.of_nat (length future_features));
                                    checked_add 64 count (Z.of_nat (length static_definitions))) in
  let? _ := quality_check (negb (Z.of_nat (length provenance) =? expected_count)) InvalidFrameQuality in
  let? input_watermark := ok_or (InputQualityRejected InvalidFrameQuality) (newest_actual_watermark provenance) in
  let? _ := quality_check (existsb (fun s => (as_of <? sp_watermark s) || on_some (fun issued => as_of <? issued) (sp_issued_at s)) provenance)
    InvalidProcessingWindow in
  let? _ := quality_check (fs_require_future_issue_time spec &&
    existsb (fun s => bool_decide (sp_segment s = KFutureCovariates) && is_observed s && negb (is_some (sp_issued_at s))) provenance) InvalidFrameQuality in
  let? _ := quality_check (on_some (fun max_age_ms =>
    existsb (fun s => max_age_ms <? saturating_sub as_of (sp_watermark s)) (List.filter is_observed provenance)) (fs_max_input_age_ms spec))
    InvalidFrameQuality in
  let future_segment := ss_segment <$> future in
  let '(missing, substituted, cells) := frame_cell_counts (ss_segment history) future_segment statics in
  let missing_ratio := ratio_of missing cells in
  let? _ := quality_check (f64_lt (fs_max_missing_ratio spec) missing_ratio) InvalidFrameQuality in
  let max_gap_ms := maximum_observation_gap (ss_segment history) (fs_cadence_ms spec) in
  let? _ := quality_check (on_some (fun allowed => allowed <? max_gap_ms) (fs_max_gap_ms spec)) InvalidFrameQuality in
  let? quality := quality_rejected (frame_quality_new input_watermark missing_ratio max_gap_ms live_tail substituted) in
  quality_rejected (frame_new_checked as_of (fs_cadence_ms spec) (ss_segment history) future_segment statics quality provenance).

Definition assemble_frame (route : DataProcessingRoute) (request : ProcessTaskRequest) : WorkM ProcessingFrame :=
  let spec := rt_spec route in
  let options := tr_options request in
  let! _ := work (ensure (negb ((fs_max_horizon_steps spec <? fo_horizon_steps options) || (fs_max_quantiles spec <? Z.of_nat (length (fo_quantiles options)))))
                    (InvalidProcessingRequest InvalidProcessingWindow)) in
  let! window := work (history_window route request) in
  let! reply := ask (EvHistory window) (fun tr => ask_history ports tr window) in
  let! history := answered HistoryQueryFailed reply in
  let! _ := work (validate_sourced history (features_of RHistory (dt_features (rt_task route))) (hw_start window) (fs_cadence_ms spec)
                    (fs_history_steps spec) KHistory) in
  let! merged := merge_live_tail route (tr_as_of request) history in
  let! future := resolve_future route request in
  work (finish_frame route request merged.1 merged.2 future).

(** *** Audit *)

(** [record_audit], [record_audit_within] and [record_audit_for]: they differ in
    the time the sink has. *)
Definition audit_record (ctx : RequestContext) (o : AuditOutcome) (detail : AuditDetail) : DataAudit :=
  mkDataAudit (ctx_request_id ctx) (actor_id (ctx_actor ctx)) (cap_name PROCESS_DATA_CAPABILITY) o (ctx_timestamp ctx) detail.
Definition record_data_audit (ctx : RequestContext) (o : AuditOutcome) (detail : AuditDetail) : DataM unit :=
  let record := audit_record ctx o detail in
  let! reply := ask (EvAudit record) (fun tr => ask_audit ports tr record) in
  match reply with
  | Answered _ => st_ret tt
  | Refused e => st_fail (Governance (AuditUnavailable e))
  | Elapsed => st_fail (Governance (AuditUnavailable PTimeout))
  end.

(** Record how a call ends, then return its error. *)
Definition ends {A} (ctx : RequestContext) (o : AuditOutcome) (detail : AuditDetail) (e : DataError) : DataM A :=
  let! _ := record_data_audit ctx o detail in st_fail e.
Definition rejects {A} (ctx : RequestContext) (e : DataError) : DataM A := ends ctx Rejected (DetailError e) e.
Definition fails {A} (ctx : RequestContext) (e : DataError) : DataM A := ends ctx AuditFailed (DetailError e) e.

(** *** The call *)

Definition NUL : string := String (ascii_of_nat 0) EmptyString.
Definition stable_processing_id (scope outer_id input_digest : string) : string :=
  uuid_v5 codec ("aether.data-processing.v1" +:+ NUL +:+ scope +:+ NUL +:+ outer_id +:+ NUL +:+ input_digest).

Definition prepare_request (ctx : RequestContext) (route : DataProcessingRoute) (request : ProcessTaskRequest) (frame : ProcessingFrame)
  : AR DataProcessingRequest :=
  let task := rt_task route in
  let binding := rt_binding route in
  let? cells := frame_cell_count frame in
  let? _ := ensure (negb (pd_max_frame_samples (rt_descriptor route) <? cells)) (InvalidProcessingRequest InvalidProcessingWindow) in
  let? input_digest := ok_or ProcessingCodec (compute_input_digest codec (dt_identity task) (db_identity binding) (dt_processor_contract task)
                                                (db_artifact binding) frame (tr_options request)) in
  let? deadline := window_of (checked_add 64 (ctx_timestamp ctx) (rt_deadline_ms route)) in
  let? processor_request := invalid_request (request_new (stable_processing_id "processor-request" (ctx_request_id ctx) input_digest) (dt_identity task)
    (db_identity binding) frame (ctx_timestamp ctx) deadline (dt_processor_contract task) (db_artifact binding) input_digest (tr_options request)) in
  let? encoded_bytes := ok_or ProcessingCodec (encode_request codec processor_request) in
  let max_bytes := pd_max_request_bytes (rt_descriptor route) in
  let? _ := ensure (negb (max_bytes <? encoded_bytes)) (ProcessingRequestTooLarge encoded_bytes max_bytes) in
  Ok processor_request.

(** From the answer of the processor to accepted data. *)
Definition accept_result (ctx : RequestContext) (route : DataProcessingRoute) (request : DataProcessingRequest) (result : ProcessingResult) : DataM DerivedData :=
  let! _ := catch (st_lift (validate_processor_result codec route request result)) (rejects ctx) in
  if bool_decide (pr_status result = Unavailable) then
    let! unavailable := st_lift (ok_or (InvalidProcessorResult UnavailableMetadataMissing) (pr_unavailable result)) in
    fails ctx (ProcessingUnavailable (ui_reason unavailable) (ui_retryable unavailable) (ui_retry_after_ms unavailable))
  else
    let! now := ask EvClock (ask_clock ports) in
    match now with
    | inl e => fails ctx (Governance (PortFailed e))
    | inr accepted_at =>
        if (accepted_at <? pr_produced_at result) || (dr_deadline request <? accepted_at) then rejects ctx (InvalidProcessorResult OutsideAcceptanceWindow)
        else
          let! derived := catch (st_lift (map_err (fun e => InvalidProcessorResult (DerivedInconsistent e))
            (derived_accept (stable_processing_id "derived-data" (pr_request_id result) (pr_input_digest result)) accepted_at
               (pf_quality (dr_frame request)) result))) (rejects ctx) in
          let! _ := record_data_audit ctx Succeeded DetailNone in
          st_ret derived
    end.

(** From the frame to the accepted result. *)
Definition dispatch_frame (ctx : RequestContext) (route : DataProcessingRoute) (request : ProcessTaskRequest) (frame : ProcessingFrame) : DataM DerivedData :=
  let! processor_request := catch (st_lift (prepare_request ctx route request frame)) (rejects ctx) in
  let! _ := record_data_audit ctx Attempted
    (DetailAttempt (ti_id (dt_identity (rt_task route))) (bi_id (db_identity (rt_binding route))) (dr_input_digest processor_request)
       (pd_id (rt_descriptor route)) (dr_request_id processor_request)) in
  let! reply := ask (EvProcess processor_request) (fun tr => ask_process ports tr route processor_request) in
  match reply with
  | Elapsed => ends ctx AuditFailed (DetailPort PTimeout) (ProcessorFailed PTimeout)
  | Refused e => ends ctx AuditFailed (DetailPort e) (ProcessorFailed e)
  | Answered result => accept_result ctx route processor_request result
  end.

(** What happens while the permit is held. *)
Definition run_route (ctx : RequestContext) (route : DataProcessingRoute) (request : ProcessTaskRequest) : DataM DerivedData :=
  let! frame := catch (assemble_frame route request)
    (fun stopped => match stopped with
                    | OutOfTime => ends ctx AuditFailed (DetailPort PTimeout) (Governance (PortFailed PTimeout))
                    | StoppedBy e => fails ctx e
                    end) in
  dispatch_frame ctx route request frame.

Definition find_route (request : ProcessTaskRequest) : option DataProcessingRoute :=
  List.find (fun r => bool_decide (dt_identity (rt_task r) = tr_task request) && bool_decide (db_identity (rt_binding r) = tr_binding request)) (da_routes app).

(** [u64::is_multiple_of]. *)
Definition is_multiple_of (x y : Z) : bool := if y =? 0 then x =? 0 else x mod y =? 0.

Definition process (ctx : RequestContext) (request : ProcessTaskRequest) : DataM DerivedData :=
  match authorize PROCESS_DATA_CAPABILITY ctx with
  | Panic => st_lift Panic
  | Err e => rejects ctx (Governance e)
  | Ok _ =>
      if ctx_timestamp ctx <? tr_as_of request then rejects ctx (InvalidProcessingRequest InvalidProcessingWindow)
      else match find_route request with
           | None => rejects ctx (InvalidProcessingConfiguration NotEnabled)
           | Some route =>
               if negb (is_multiple_of (tr_as_of request) (fs_cadence_ms (rt_spec route))) then rejects ctx (InvalidProcessingRequest InvalidProcessingWindow)
               else if bool_decide (pd_data_boundary (rt_descriptor route) = BRemote) && negb (rt_remote_egress_preapproved route) && negb (ctx_confirmed ctx)
               then rejects ctx (Governance (ConfirmationRequired (cap_name PROCESS_DATA_CAPABILITY)))
               else
                 let! granted := ask EvPermit (fun tr => ask_permit ports tr route) in
                 if negb granted then rejects ctx (ProcessingUnavailable "ROUTE_CONCURRENCY_LIMIT" true (Some 250))
                 else run_route ctx route request
           end
  end.

(** *** Queries *)

Record DataProcessingTaskSummary := mkTaskSummary {
  ts_task : TaskIdentity; ts_definition : DataProcessingTask; ts_binding : BindingIdentity; ts_artifact : option ArtifactSelector; ts_processor_id : string;
  ts_processor_version : string; ts_processor_contract : string; ts_data_boundary : DataBoundary; ts_deadline_ms : Z; ts_max_concurrency : Z;
  ts_max_frame_samples : Z; ts_max_request_bytes : Z
}.
Definition task_summary (r : DataProcessingRoute) : DataProcessingTaskSummary :=
  let d := rt_descriptor r in
  mkTaskSummary (dt_identity (rt_task r)) (rt_task r) (db_identity (rt_binding r)) (db_artifact (rt_binding r)) (pd_id d) (pd_version d)
    (dt_processor_contract (rt_task r)) (pd_data_boundary d) (rt_deadline_ms r) (rt_max_concurrency r) (pd_max_frame_samples d) (pd_max_request_bytes d).
Definition list_tasks (ctx : RequestContext) : AR (list DataProcessingTaskSummary) :=
  let? _ := map_err Governance (authorize TASKS_LIST_CAPABILITY ctx) in Ok (List.map task_summary (da_routes app)).

Fixpoint health_of (routes : list DataProcessingRoute) : DataM (list (string * ProcessorHealth)) :=
  match routes with
  | [] => st_ret []
  | r :: routes =>
      let! reply := ask (EvHealth (pd_id (rt_descriptor r))) (fun tr => ask_health ports tr r) in
      let! rest := health_of routes in
      st_ret ((pd_id (rt_descriptor r), match reply with inl _ => PhUnavailable | inr h => h end) :: rest)
  end.
Definition processor_health (ctx : RequestContext) : DataM (list (string * ProcessorHealth)) :=
  let! _ := st_lift (map_err Governance (authorize PROCESSOR_HEALTH_CAPABILITY ctx)) in health_of (da_routes app).

End Calls.
