(* ===== verification/DataRuns.v ===== *)
(** * What a data-processing call guarantees

    The frame a processor receives, the governance of the call and the data a
    caller gets back, for every behaviour of the sources, the processor, the
    clock and the audit sink. *)

From S2P Require Import Prelude F64 Slot Bitmap Segment Snapshot Text BTree Manifest Publish Publication Acquisition Command Application DataTask DataProcessing.

(** ** Combinators *)

(** The intermediate results of a chain of checks that passed. *)
Ltac checks H :=
  repeat (apply obind_ok in H; let a := fresh "a" in let Ha := fresh "Ha" in destruct H as (a & Ha & H)).

Lemma existsb_false {A} (f : A -> bool) l : existsb f l = false <-> Forall (fun x => f x = false) l.
Proof.
  induction l as [|x l IH]; cbn; [by split|]. rewrite orb_false_iff, IH, list.Forall_cons. done.
Qed.

(** Facts of passed comparisons. *)
Ltac eqb_facts :=
  bool_facts; repeat match goal with
  | H : (_ =? _) = true |- _ => apply Z.eqb_eq in H
  | H : (_ =? _) = false |- _ => apply Z.eqb_neq in H
  | H : (_ =? _)%nat = true |- _ => apply Nat.eqb_eq in H
  | H : (_ <? _) = false |- _ => apply Z.ltb_ge in H
  | H : (_ <=? _) = false |- _ => apply Z.leb_gt in H
  | H : string_eqb _ _ = true |- _ => apply bool_decide_eq_true in H
  | H : existsb _ _ = false |- _ => apply existsb_false in H
  end.

Lemma map_err_ok {E E' A} (f : E -> E') (c : outcome E A) a : map_err f c = Ok a <-> c = Ok a.
Proof. destruct c; cbn; naive_solver. Qed.
Lemma map_err_panic {E E' A} (f : E -> E') (c : outcome E A) : map_err f c = Panic <-> c = Panic.
Proof. destruct c; cbn; naive_solver. Qed.
Lemma ensure_negb {E} b (e : E) u : ensure (negb b) e = Ok u <-> b = false.
Proof. destruct b, u; cbn; naive_solver. Qed.
Lemma window_of_ok {A} (o : option A) a : window_of o = Ok a <-> o = Some a.
Proof. apply ok_or_ok. Qed.

Lemma map_result_ok {E A B} (f : A -> outcome E B) l ys : map_result f l = Ok ys <-> Forall2 (fun x y => f x = Ok y) l ys.
Proof.
  revert ys. induction l as [|x l IH]; intros ys; cbn.
  - split; [by intros [= <-]|by inversion 1].
  - rewrite obind_ok. setoid_rewrite obind_ok. split.
    + intros (y & Hy & ys' & Hys & [= <-]). constructor; [done|by apply IH].
    + inversion 1; subst. eexists; split; [done|]. eexists; split; [by apply IH|done].
Qed.

Lemma map_result_panic {E A B} (f : A -> outcome E B) l : (forall x, f x <> Panic) -> map_result f l <> Panic.
Proof. intros Hf. induction l as [|x l IH]; cbn; [done|]. intros [H | (y & _ & H)]%obind_panic; [by apply Hf in H|]. by apply obind_panic in H as [H | (ys & _ & H)]. Qed.

(** ** Pure checks *)

Lemma string_eqb_true a b : string_eqb a b = true <-> a = b.
Proof. apply bool_decide_eq_true. Qed.

Definition grid (start cadence count : Z) : list Z := (fun i => start + cadence * i) <$> seqZ 0 count.

Lemma regular_timestamps_ok start cadence count ts : regular_timestamps start cadence count = Ok ts -> ts = grid start cadence count.
Proof.
  unfold regular_timestamps, grid. intros H%map_result_ok. induction H as [|i t l ts Ht _ IH]; cbn; [done|]. f_equal; [|done].
  apply window_of_ok in Ht. unfold checked_mul in Ht. destruct (_ <? _); [cbn in Ht|done]. by apply checked_add_Some in Ht as [-> _].
Qed.

Lemma regular_timestamps_no_panic start cadence count : regular_timestamps start cadence count <> Panic.
Proof. apply map_result_panic. intros i. unfold window_of. by destruct (_ ≫= _). Qed.

(** ** Observation gaps *)

Lemma gap_fold labels p m : let '(l, M) := fold_left gap_step labels (p, m) in
  m <= M /\ forall a, p <= a -> a < l -> exists t, t ∈ labels /\ a < t <= a + M.
Proof.
  revert p m. induction labels as [|t labels IH]; intros p m; cbn; [split; [lia|intros; lia]|].
  specialize (IH t (Z.max m (saturating_sub t p))). unfold gap_step at 2; cbn. destruct (fold_left _ _ _) as [l M]. destruct IH as [Hm IH].
  unfold saturating_sub in Hm. split; [lia|]. intros a Hp Hl. destruct (decide (a < t)) as [Ha|Ha].
  - exists t. split; [left|lia].
  - destruct (IH a) as (t' & Ht & ?); [lia..|]. exists t'. split; [by right|done].
Qed.

Lemma fold_max_le {A} (f : A -> Z) (step : Z -> A -> Z) l m g :
  (forall m x, step m x = Z.max m (f x)) -> fold_left step l m <= g -> m <= g /\ Forall (fun x => f x <= g) l.
Proof.
  intros Hs. revert m. induction l as [|x l IH]; intros m H; cbn in H; [by split|]. rewrite Hs in H. apply IH in H as [? ?].
  split; [lia|]. constructor; [lia|done].
Qed.

(** No series is silent for longer than [g] between one cadence before the first
    label and the last one. *)
Definition observed_within (g : Z) (history : DataSegment) (cadence : Z) : Prop :=
  forall s first last a, s ∈ sg_series history -> head (sg_timestamps history) = Some first -> list.last (sg_timestamps history) = Some last ->
    saturating_sub first cadence <= a -> a + g < last ->
    exists t, t ∈ usable_labels (sg_timestamps history) s /\ a < t <= a + g.

Lemma maximum_observation_gap_bounds history cadence g : maximum_observation_gap history cadence <= g -> observed_within g history cadence.
Proof.
  unfold maximum_observation_gap. intros H s first last a Hs Hf Hl Ha Hlast. destruct (sg_timestamps history) as [|t0 ts] eqn:Et; [done|].
  injection Hf as ->. rewrite Hl in H.
  set (f := fun s => let '(u, M) := fold_left gap_step (usable_labels (first :: ts) s) (saturating_sub first cadence, cadence) in Z.max M (saturating_sub last u)).
  apply (fold_max_le f) in H as [_ H]; [|intros m x; unfold f; by destruct (fold_left gap_step _ _)].
  apply (Forall_elem H) in Hs. unfold f in Hs.
  pose proof (gap_fold (usable_labels (first :: ts) s) (saturating_sub first cadence) cadence) as Hg.
  destruct (fold_left gap_step _ _) as [u M]. unfold saturating_sub in Hs. destruct Hg as [_ Hg]. destruct (Hg a) as (t & Ht & ?); [lia..|].
  exists t. split; [done|lia].
Qed.

(** ** Values of the contract types *)

Definition series_built (s : Series) : Prop := exists d values quality, series_new d values quality = Ok s.
Definition segment_built (g : DataSegment) : Prop := exists ts series, Forall series_built series /\ segment_new ts series = Ok g.
Definition sourced_built (s : SourcedSegment) : Prop := exists g provenance, segment_built g /\ sourced_new g provenance = Ok s.

Inductive result_built : ProcessingResult -> Prop :=
| built_result request_id task binding digest status processor artifact watermark produced expires output fallback unavailable r :
    result_new request_id task binding digest status processor artifact watermark produced expires output fallback unavailable = Ok r -> result_built r
| built_warned r warnings r' : result_built r -> with_warnings r warnings = Ok r' -> result_built r'.

Inductive route_built (codec : Codec) : DataProcessingRoute -> Prop :=
| built_route task binding descriptor deadline r : route_new codec task binding descriptor deadline = Ok r -> route_built codec r
| built_concurrency r n r' : route_built codec r -> with_max_concurrency r n = Ok r' -> route_built codec r'
| built_preapproved r : route_built codec r -> route_built codec (with_preapproved_remote_egress r).

(** A number passes the constraints of its feature, and a cell is flagged missing
    exactly when it is. *)
Definition sample_ok (d : FeatureDefinition) (value : FeatureValue) (quality : SampleQuality) : Prop :=
  (forall t, value_type value = Some t -> t = fd_value_type d) /\
  (value = FMissing <-> quality = SQMissing) /\
  (forall c x, fd_numeric_constraints d = Some c -> value = FNumber x -> accepts c x = true).
Definition series_ok (s : Series) : Prop :=
  length (se_values s) = length (se_quality s) /\
  forall i v q, se_values s !! i = Some v -> se_quality s !! i = Some q -> sample_ok (se_definition s) v q.

Lemma validate_sample_ok d v q u : validate_sample d v q = Ok u -> sample_ok d v q.
Proof.
  unfold validate_sample, sample_ok. intros H. destruct (on_some _ _) eqn:Et; [done|]. destruct (negb _) eqn:Em; [done|].
  split; [|split].
  - intros t Ht. rewrite Ht in Et. cbn in Et. by bool_facts.
  - destruct v, q; vm_compute in Em; done.
  - intros c x Hc ->. rewrite Hc in H. cbn in H. by destruct (accepts c x).
Qed.

Lemma validate_samples_ok d l u : validate_samples d l = Ok u -> Forall (fun c => sample_ok d c.1 c.2) l.
Proof.
  induction l as [|[v q] l IH]; cbn; [constructor|]. intros H. checks H. constructor; [by eapply validate_sample_ok|by apply IH].
Qed.

Lemma series_new_ok d values quality s :
  series_new d values quality = Ok s -> s = mkSeries d values quality /\ series_ok s.
Proof.
  unfold series_new. destruct (negb _) eqn:El; [done|]. intros H. checks H. injection H as <-. bool_facts. apply Nat.eqb_eq in El.
  split; [done|]. split; [done|]. intros i v q Hv Hq. apply validate_samples_ok in Ha. refine (Forall_elem (x := (v, q)) Ha _).
  apply list_elem_of_lookup. exists i. apply lookup_zip_with_Some. by eexists _, _.
Qed.

Lemma series_built_ok s : series_built s -> series_ok s.
Proof. by intros (d & v & q & H%series_new_ok%proj2). Qed.

(** A segment the constructor returned. *)
Definition segment_ok (g : DataSegment) : Prop :=
  Forall series_ok (sg_series g) /\ Forall (fun s => length (se_values s) = length (sg_timestamps g)) (sg_series g).

Lemma segment_new_ok ts series g : segment_new ts series = Ok g -> Forall series_ok series -> g = mkDataSegment ts series /\ segment_ok g.
Proof.
  unfold segment_new. intros H Hs. destruct (_ || _); [done|]. destruct (negb _); [done|]. destruct (existsb _ _) eqn:El; [done|].
  destruct (negb _); [done|]. injection H as <-. split; [done|]. split; [done|]. apply existsb_false in El.
  eapply list.Forall_impl; [exact El|]. intros s Hl. cbn in Hl. bool_facts. by apply Nat.eqb_eq in Hl.
Qed.

Lemma segment_built_ok g : segment_built g -> segment_ok g.
Proof. intros (ts & series & Hs & H). eapply segment_new_ok; [exact H|]. eapply list.Forall_impl; [exact Hs|]. apply series_built_ok. Qed.

Lemma sourced_new_ok g p s : sourced_new g p = Ok s -> s = mkSourced g p.
Proof. unfold sourced_new. destruct (_ || _); [done|]. by intros [= <-]. Qed.

Lemma sourced_built_ok s : sourced_built s -> segment_ok (ss_segment s).
Proof. intros (g & p & Hg & ->%sourced_new_ok). by apply segment_built_ok. Qed.

Lemma distinct_after_NoDup {A} (key : A -> string) seen l :
  distinct_after (fun a b => string_eqb (key a) (key b)) seen l = true -> NoDup (key <$> seen) -> NoDup (key <$> (seen ++ l)).
Proof.
  revert seen. induction l as [|x l IH]; intros seen H Hs; cbn in H; [by rewrite app_nil_r|]. bool_facts.
  replace (seen ++ x :: l) with ((seen ++ [x]) ++ l) by by rewrite <-app_assoc. apply IH; [done|].
  rewrite fmap_app. apply list.NoDup_app. split; [done|]. split; [|apply NoDup_singleton].
  intros k (y & -> & Hy)%list_elem_of_fmap Hx. cbn in Hx. apply list_elem_of_singleton in Hx. apply existsb_false in H.
  apply (Forall_elem H) in Hy. cbn in Hy. apply not_true_iff_false in Hy. apply Hy. by apply string_eqb_true.
Qed.

Lemma feature_names_NoDup features : feature_names_are_unique features = true -> NoDup (fd_name <$> features).
Proof. intros H. apply (distinct_after_NoDup fd_name []) in H; [done|constructor]. Qed.

Lemma definition_eqb_name a b : definition_eqb a b = true -> fd_name a = fd_name b.
Proof. unfold definition_eqb. intros H. bool_facts. by apply string_eqb_true. Qed.

(** ** What the frame holds *)

(** The series are those of the features, on the grid. *)
Definition segment_for (features : list FeatureDefinition) (start cadence count : Z) (g : DataSegment) : Prop :=
  sg_timestamps g = grid start cadence count /\ (series_name <$> sg_series g) ≡ₚ (fd_name <$> features) /\
  forall d, d ∈ features -> exists s, s ∈ sg_series g /\ definition_eqb (se_definition s) d = true.

Lemma validate_sourced_ok sourced features start cadence count kind u :
  validate_sourced sourced features start cadence count kind = Ok u -> NoDup (fd_name <$> features) ->
  segment_for features start cadence count (ss_segment sourced).
Proof.
  unfold validate_sourced, validate_segment, quality_check. intros H Hn. checks H. apply regular_timestamps_ok in Ha as ->.
  apply ensure_negb in Ha0. bool_facts. apply Nat.eqb_eq in H2. apply existsb_false in H1.
  assert (Hd : forall d, d ∈ features -> exists s, s ∈ sg_series (ss_segment sourced) /\ definition_eqb (se_definition s) d = true).
  { intros d Hd. apply (Forall_elem H1) in Hd. cbn in Hd. bool_facts. apply existsb_exists in Hd as (s & Hs & Hd). exists s.
    by rewrite list_elem_of_In. }
  split; [done|]. split; [|done]. symmetry. apply submseteq_length_Permutation; [|by rewrite !length_fmap, H2].
  apply NoDup_submseteq; [done|]. intros name (d & -> & (s & Hs & Hd')%Hd)%list_elem_of_fmap. apply list_elem_of_fmap. exists s.
  by apply definition_eqb_name in Hd'.
Qed.

(** A stored series, or one whose last cell is a sample read at [as_of] from the
    point commissioned for its feature. *)
Definition tail_from (points : list PointFeatureBinding) (samples : list (option PointSample)) (as_of : Z) (stored s : Series) : Prop :=
  s = stored \/
  exists b sample, b ∈ points /\ pb_live_tail b = true /\ pb_feature b = series_name stored /\ Some sample ∈ samples /\ ps_address sample = pb_address b /\
    ps_timestamp sample = as_of /\ ps_quality sample ∈ [Good; Uncertain] /\ se_definition s = se_definition stored /\
    removelast (se_values s) = removelast (se_values stored) /\ list.last (se_values s) = Some (FNumber (ps_value sample)) /\
    removelast (se_quality s) = removelast (se_quality stored).

Lemma accept_samples_ok as_of pairs accepted :
  accept_samples as_of pairs = Some accepted ->
  Forall (fun c : PointFeatureBinding * PointSample => (c.1, Some c.2) ∈ pairs /\ ps_address c.2 = pb_address c.1 /\ f64_is_finite (ps_value c.2) = true /\
            ps_timestamp c.2 = as_of /\ ps_quality c.2 ∈ [Good; Uncertain]) accepted.
Proof.
  revert accepted. induction pairs as [|[b [sample|]] pairs IH]; intros accepted H; cbn in H; [injection H as <-; constructor| |done].
  destruct (_ || _) eqn:Ec; [done|]. bool_facts. destruct (accept_samples as_of pairs) as [rest|]; [|done]. injection H as <-.
  constructor; cbn.
  - split; [left|]. eqb_facts. split; [done|]. split; [done|]. split; [done|]. destruct (ps_quality sample); try done; [left|right; left].
  - eapply list.Forall_impl; [by apply IH|]. cbn. intros c (Hc & Hr). split; [by right|done].
Qed.

Lemma set_last_ok {A} (x : A) l l' : set_last x l = Some l' -> removelast l' = removelast l /\ list.last l' = Some x.
Proof. destruct l as [|y l]; [done|]. intros [= <-]. by rewrite removelast_last, last_snoc. Qed.

(** A sample of a live point of the binding, read at [as_of]. *)
Definition sample_accepted (points : list PointFeatureBinding) (samples : list (option PointSample)) (as_of : Z) (c : PointFeatureBinding * PointSample) : Prop :=
  (c.1 ∈ points /\ pb_live_tail c.1 = true /\ Some c.2 ∈ samples) /\ ps_address c.2 = pb_address c.1 /\ f64_is_finite (ps_value c.2) = true /\
  ps_timestamp c.2 = as_of /\ ps_quality c.2 ∈ [Good; Uncertain].

Lemma accept_samples_accepted points samples as_of accepted :
  accept_samples as_of (zip (List.filter pb_live_tail points) samples) = Some accepted -> Forall (sample_accepted points samples as_of) accepted.
Proof.
  intros H%accept_samples_ok. eapply list.Forall_impl; [exact H|]. intros [b sample] (Hin & Hr). split; [|done]. cbn in *.
  apply elem_of_zip_with in Hin as (b' & o & [= <- <-] & Hb & Ho). apply list_elem_of_In, List.filter_In in Hb as [Hb ?].
  apply list_elem_of_In in Hb. done.
Qed.

Lemma merge_series_ok points samples as_of provenance accepted stored m :
  Forall (sample_accepted points samples as_of) accepted ->
  series_ok stored -> merge_series provenance accepted stored = Ok (Some m) -> tail_from points samples as_of stored m.1 /\ series_ok m.1.
Proof.
  unfold merge_series. intros Hacc Hs H. destruct (List.find _ accepted) as [[b sample]|] eqn:Ef.
  - apply List.find_some in Ef as [Hin Hname]. apply list_elem_of_In in Hin. apply string_eqb_true in Hname. cbn in Hname.
    apply (Forall_elem Hacc) in Hin as ((Hb & Hl & Hsm) & Haddr & _ & Hts & Hq). cbn in *. checks H. destruct (tail_quality _); [|done]. checks H.
    injection H as <-. cbn. apply map_err_ok, series_new_ok in Ha4 as [-> Hok]. split; [|done]. right. exists b, sample. cbn.
    apply map_err_ok in Ha0. unfold feature_number in Ha0. destruct (negb _); [done|]. injection Ha0 as <-.
    apply ok_or_ok, set_last_ok in Ha1 as [? ?]. apply ok_or_ok, set_last_ok in Ha3 as [? ?]. done.
  - checks H. injection H as <-. by split; [left|].
Qed.

Lemma merge_all_ok points samples as_of provenance accepted stored merged :
  Forall (sample_accepted points samples as_of) accepted ->
  Forall series_ok stored -> merge_all provenance accepted stored = Ok (Some merged) ->
  Forall2 (tail_from points samples as_of) stored (fst <$> merged) /\ Forall series_ok (fst <$> merged).
Proof.
  intros Hacc Hst. revert merged. induction Hst as [|s stored Hs Hst IH]; intros merged H; cbn in H; [injection H as <-; by split; constructor|].
  checks H. destruct a as [m|]; [|done]. checks H. destruct a as [rest|]; [|done]. injection H as <-.
  apply (merge_series_ok points samples as_of) in Ha as [? ?]; [|done..]. destruct (IH _ Ha0). split; by constructor.
Qed.

(** Where the history of a frame comes from: a query cut off at [as_of], and the
    live samples of its tail. *)
Definition history_from (points : list PointFeatureBinding) (as_of : Z) (evs : list DataEvent) (history : DataSegment) (live_tail : bool) : Prop :=
  exists w stored, EvHistory w (Answered stored) ∈ evs /\ hw_cutoff w = Some as_of /\
    if live_tail
    then exists addresses samples, EvLive addresses (Answered samples) ∈ evs /\ sg_timestamps history = sg_timestamps (ss_segment stored) /\
           Forall2 (tail_from points samples as_of) (sg_series (ss_segment stored)) (sg_series history)
    else history = ss_segment stored.

Definition future_from (features : list FeatureDefinition) (as_of cadence horizon : Z) (evs : list DataEvent) (future : option DataSegment) : Prop :=
  match future with
  | None => features = []
  | Some g => segment_for features (as_of + cadence) cadence horizon g /\ segment_ok g /\
      exists w sourced, EvCovariates w (Answered sourced) ∈ evs /\ cw_as_of w = as_of /\ g = ss_segment sourced
  end.

(** What a processor may be sent: the commissioned features on the exact grid,
    nothing observed after [as_of], and every quality limit of the task kept. *)
Record frame_sound (route : DataProcessingRoute) (request : ProcessTaskRequest) (evs : list DataEvent) (frame : ProcessingFrame) : Prop := {
  fr_as_of : pf_as_of frame = tr_as_of request;
  fr_cadence : pf_cadence_ms frame = fs_cadence_ms (rt_spec route);
  fr_limits : fo_horizon_steps (tr_options request) <= fs_max_horizon_steps (rt_spec route) /\
    Z.of_nat (length (fo_quantiles (tr_options request))) <= fs_max_quantiles (rt_spec route);
  fr_history : segment_for (features_of RHistory (dt_features (rt_task route)))
    (tr_as_of request - fs_cadence_ms (rt_spec route) * (fs_history_steps (rt_spec route) - 1)) (fs_cadence_ms (rt_spec route))
    (fs_history_steps (rt_spec route)) (pf_history frame);
  fr_history_ok : segment_ok (pf_history frame);
  fr_history_from : history_from (db_point_features (rt_binding route)) (tr_as_of request) evs (pf_history frame) (fq_live_tail_included (pf_quality frame));
  fr_future : future_from (features_of RFutureCovariate (dt_features (rt_task route))) (tr_as_of request) (fs_cadence_ms (rt_spec route))
    (fo_horizon_steps (tr_options request)) evs (pf_future_covariates frame);
  fr_static : pf_static_features frame = db_static_features (rt_binding route);
  fr_cutoff : Forall (fun s => sp_watermark s <= tr_as_of request /\ forall t, sp_issued_at s = Some t -> t <= tr_as_of request) (pf_provenance frame);
  fr_issued : fs_require_future_issue_time (rt_spec route) = true ->
    Forall (fun s => sp_segment s = KFutureCovariates -> is_observed s = true -> is_Some (sp_issued_at s)) (pf_provenance frame);
  fr_age : forall max_age, fs_max_input_age_ms (rt_spec route) = Some max_age ->
    Forall (fun s => is_observed s = true -> tr_as_of request - sp_watermark s <= max_age) (pf_provenance frame);
  fr_missing : fq_missing_ratio (pf_quality frame) =
      (let '(missing, _, cells) := frame_cell_counts (pf_history frame) (pf_future_covariates frame) (pf_static_features frame) in ratio_of missing cells) /\
    f64_lt (fs_max_missing_ratio (rt_spec route)) (fq_missing_ratio (pf_quality frame)) = false;
  fr_gap : forall g, fs_max_gap_ms (rt_spec route) = Some g -> observed_within g (pf_history frame) (fs_cadence_ms (rt_spec route));
  fr_sources : Forall (fun s => length (sources_of KHistory (series_name s) (pf_provenance frame)) = 1%nat) (sg_series (pf_history frame))
}.

Lemma frame_new_checked_ok as_of cadence history future statics quality provenance frame :
  frame_new_checked as_of cadence history future statics quality provenance = Ok frame ->
  frame = mkFrame as_of cadence history future statics quality provenance /\
  Forall (fun s => length (sources_of KHistory (series_name s) provenance) = 1%nat) (sg_series history).
Proof.
  unfold frame_new_checked. intros H. cbv zeta in H.
  do 3 (split_if_in H; [done|]). match type of H with (if ?b then _ else _) = _ => destruct b eqn:Ep; [done|] end. split_if_in H; [done|].
  injection H as <-. split; [done|]. eqb_facts.
  match goal with Hs : Forall (fun s => negb (has_one_source KHistory _ _) = false) _ |- _ => eapply list.Forall_impl; [exact Hs|] end.
  intros s Hs. cbn in Hs. unfold has_one_source in Hs. by eqb_facts.
Qed.

Lemma finish_frame_ok route request evs history live_tail future frame :
  finish_frame route request history live_tail future = Ok frame ->
  fo_horizon_steps (tr_options request) <= fs_max_horizon_steps (rt_spec route) /\
    Z.of_nat (length (fo_quantiles (tr_options request))) <= fs_max_quantiles (rt_spec route) ->
  segment_for (features_of RHistory (dt_features (rt_task route)))
    (tr_as_of request - fs_cadence_ms (rt_spec route) * (fs_history_steps (rt_spec route) - 1)) (fs_cadence_ms (rt_spec route))
    (fs_history_steps (rt_spec route)) (ss_segment history) ->
  segment_ok (ss_segment history) ->
  history_from (db_point_features (rt_binding route)) (tr_as_of request) evs (ss_segment history) live_tail ->
  future_from (features_of RFutureCovariate (dt_features (rt_task route))) (tr_as_of request) (fs_cadence_ms (rt_spec route))
    (fo_horizon_steps (tr_options request)) evs (ss_segment <$> future) ->
  frame_sound route request evs frame.
Proof.
  unfold finish_frame, quality_check. intros H Hlim Hseg Hok Hfrom Hfut. checks H. rename a into statics.
  set (p := (_ ++ _) ++ statics) in *.
  apply map_err_ok, frame_new_checked_ok in H as [-> Hsrc]. apply map_err_ok in Ha11. unfold frame_quality_new in Ha11.
  split_if_in Ha11; [done|]. injection Ha11 as <-.
  apply ensure_negb in Ha4, Ha6, Ha7, Ha8, Ha9, Ha10. eqb_facts. split; cbn; try done.
  - eapply list.Forall_impl; [exact Ha6|]. intros s Hs. cbn in Hs. eqb_facts. split; [done|]. intros t Ht. rewrite Ht in *. cbn in *. by eqb_facts.
  - intros Hr. rewrite Hr in Ha7. cbn in Ha7. eqb_facts. eapply list.Forall_impl; [exact Ha7|]. intros s Hs Hk Ho. cbn in Hs.
    rewrite Ho, (bool_decide_eq_true_2 _ Hk) in Hs. by destruct (sp_issued_at s).
  - intros max_age Hm. rewrite Hm in Ha8. cbn in Ha8. eqb_facts. apply list.Forall_forall. intros s Hs Ho.
    apply (Forall_elem (x := s)) in Ha8; [|apply list_elem_of_In, List.filter_In; by rewrite <-list_elem_of_In].
    cbn in Ha8. eqb_facts. unfold saturating_sub in Ha8. lia.
  - intros g Hg. rewrite Hg in Ha10. cbn in Ha10. eqb_facts. by apply maximum_observation_gap_bounds.
Qed.

(** ** No check panics or blames the audit sink *)

Definition audit_failure (e : DataError) : bool := match e with Governance (AuditUnavailable _) => true | _ => false end.
Definition clean {A} (c : AR A) : Prop := c <> Panic /\ forall e, c = Err e -> audit_failure e = false.

Create HintDb data_total.

Lemma nonempty_total s : nonempty s <> Panic.
Proof. unfold nonempty. by split_if. Qed.
#[export] Hint Resolve nonempty_total : data_total.

(** Walks through the binds and tests of a constructor. *)
Ltac total_step :=
  lazymatch goal with
  | |- obind _ _ <> Panic => apply obind_not_panic; [|intro]
  | |- (if _ then _ else _) <> Panic => split_if
  | |- map_result _ _ <> Panic => apply map_result_panic; intro
  | |- match ?x with Some _ => _ | None => _ end <> Panic => destruct x
  | |- _ => first [done | solve [eauto with data_total]]
  end.
Ltac total := repeat total_step.

Lemma feature_number_total x : feature_number x <> Panic.
Proof. unfold feature_number. total. Qed.
Lemma history_policy_total f a d : history_policy_new f a d <> Panic.
Proof. unfold history_policy_new. total. Qed.
Lemma source_new_total k f s r w : source_new k f s r w <> Panic.
Proof. unfold source_new. total. Qed.
Lemma validate_sample_total d v q : validate_sample d v q <> Panic.
Proof. unfold validate_sample. total. Qed.
#[export] Hint Resolve feature_number_total history_policy_total source_new_total validate_sample_total : data_total.

Lemma validate_samples_total d l : validate_samples d l <> Panic.
Proof. induction l as [|[v q] l IH]; cbn; total. Qed.
#[export] Hint Resolve validate_samples_total : data_total.
Lemma series_new_total d v q : series_new d v q <> Panic.
Proof. unfold series_new. total. Qed.
Lemma segment_new_total ts s : segment_new ts s <> Panic.
Proof. unfold segment_new. total. Qed.
Lemma sourced_new_total g p : sourced_new g p <> Panic.
Proof. unfold sourced_new. total. Qed.
Lemma frame_quality_new_total a b c d e : frame_quality_new a b c d e <> Panic.
Proof. unfold frame_quality_new. total. Qed.
Lemma frame_new_checked_total a b c d e f g : frame_new_checked a b c d e f g <> Panic.
Proof. unfold frame_new_checked. cbv zeta. total. Qed.
Lemma request_new_total a b c d e f g h i j : request_new a b c d e f g h i j <> Panic.
Proof. unfold request_new. total. Qed.
Lemma derived_accept_total a b c d : derived_accept a b c d <> Panic.
Proof. unfold derived_accept. total. Qed.
Lemma history_window_new_total a b c d e f g h : history_window_new a b c d e f g h <> Panic.
Proof. unfold history_window_new. total. by intros ?%map_err_panic%history_policy_total. Qed.
Lemma with_feature_policies_total w p : with_feature_policies w p <> Panic.
Proof. unfold with_feature_policies. total. Qed.
Lemma with_cutoff_total w c : with_cutoff w c <> Panic.
Proof. unfold with_cutoff. total. Qed.
Lemma covariate_window_new_total a b c d e f : covariate_window_new a b c d e f <> Panic.
Proof. unfold covariate_window_new. total. Qed.
#[export] Hint Resolve series_new_total segment_new_total sourced_new_total frame_quality_new_total frame_new_checked_total request_new_total
  derived_accept_total history_window_new_total with_feature_policies_total with_cutoff_total covariate_window_new_total : data_total.

Create HintDb data_clean.

Lemma clean_ok {A} (a : A) : clean (Ok a).
Proof. done. Qed.
Lemma clean_bind {A B} (c : AR A) (k : A -> AR B) : clean c -> (forall a, clean (k a)) -> clean (obind c k).
Proof. intros [Hp He] Hk. destruct c; cbn; [apply Hk| |done]. split; [done|]. by intros e' [= <-]; apply He. Qed.
Lemma clean_ok_or {A} e (o : option A) : audit_failure e = false -> clean (ok_or e o).
Proof. intros. destruct o; cbn; split; try done. by intros ? [= <-]. Qed.
Lemma clean_ensure b e : audit_failure e = false -> clean (ensure b e).
Proof. intros. destruct b; cbn; split; try done. by intros ? [= <-]. Qed.
Lemma clean_map_err {E A} (f : E -> DataError) (c : outcome E A) : c <> Panic -> (forall e, audit_failure (f e) = false) -> clean (map_err f c).
Proof. intros. destruct c; cbn; split; try done. by intros ? [= <-]. Qed.
Lemma clean_map_result {A B} (f : A -> AR B) l : (forall x, clean (f x)) -> clean (map_result f l).
Proof. intros Hf. induction l as [|x l IH]; cbn; [done|]. apply clean_bind; [done|]. intros y. by apply clean_bind. Qed.

Ltac clean_step :=
  lazymatch goal with
  | |- clean (obind _ _) => apply clean_bind; [|intro]
  | |- clean (Ok _) => apply clean_ok
  | |- clean (ok_or _ _) => by apply clean_ok_or
  | |- clean (window_of _) => by apply clean_ok_or
  | |- clean (ensure _ _) => by apply clean_ensure
  | |- clean (config_check _ _) => by apply clean_ensure
  | |- clean (quality_check _ _) => by apply clean_ensure
  | |- clean (result_check _ _) => by apply clean_ensure
  | |- clean (invalid_request _) => apply clean_map_err; [total|done]
  | |- clean (quality_rejected _) => apply clean_map_err; [total|done]
  | |- clean (port_failed _) => apply clean_map_err; [total|done]
  | |- clean (map_result _ _) => apply clean_map_result; intro
  | |- clean (if _ then _ else _) => split_if
  | |- clean (match ?x with Some _ => _ | None => _ end) => destruct x
  | |- clean (let '(_, _) := ?x in _) => destruct x
  | |- _ => solve [eauto with data_clean]
  end.
Ltac clean := cbv zeta; repeat clean_step.

Lemma regular_timestamps_clean a b c : clean (regular_timestamps a b c).
Proof. unfold regular_timestamps. clean. Qed.
#[export] Hint Resolve regular_timestamps_clean : data_clean.
Lemma validate_segment_provenance_clean a b c : clean (validate_segment_provenance a b c).
Proof. unfold validate_segment_provenance. clean. Qed.
#[export] Hint Resolve validate_segment_provenance_clean : data_clean.
Lemma validate_sourced_clean a b c d e f : clean (validate_sourced a b c d e f).
Proof. unfold validate_sourced, validate_segment, validate_feature_constraints. clean. Qed.
Lemma history_window_clean r q : clean (history_window r q).
Proof. unfold history_window. clean. Qed.
Lemma covariate_window_clean a r q : clean (covariate_window a r q).
Proof. unfold covariate_window. clean. Qed.
Lemma finish_frame_clean r q h l f : clean (finish_frame r q h l f).
Proof. unfold finish_frame, frame_cell_counts. clean. Qed.
Lemma merge_series_clean p a s : clean (merge_series p a s).
Proof. unfold merge_series. clean. Qed.
#[export] Hint Resolve validate_sourced_clean history_window_clean covariate_window_clean finish_frame_clean merge_series_clean : data_clean.
Lemma merge_all_clean p a s : clean (merge_all p a s).
Proof. induction s as [|x s IH]; cbn; clean. Qed.
Lemma prepare_request_clean codec ctx r q f : clean (prepare_request codec ctx r q f).
Proof. unfold prepare_request, frame_cell_count. clean. Qed.
#[export] Hint Resolve merge_all_clean prepare_request_clean : data_clean.

(** ** Assembly *)

(** Reads of the sources: what assembly may do. *)
Definition is_read (e : DataEvent) : bool := match e with EvHistory _ _ | EvLive _ _ | EvCovariates _ _ => true | _ => false end.

(** From [tr], [c] only reads, does not panic and, when it succeeds, ends in [Q]. *)
Definition reads {A} (tr : list DataEvent) (c : WorkM A) (Q : list DataEvent -> A -> Prop) : Prop :=
  exists evs r, c tr = (tr ++ evs, r) /\ Forall (fun e => is_read e = true) evs /\ r <> Panic /\
    (forall e, r = Err (StoppedBy e) -> audit_failure e = false) /\ (forall a, r = Ok a -> Q evs a).

Lemma reads_bind {A B} tr (c : WorkM A) (k : A -> WorkM B) Q Q' :
  reads tr c Q -> (forall evs a, Q evs a -> reads (tr ++ evs) (k a) (fun evs' b => Q' (evs ++ evs') b)) -> reads tr (st_bind c k) Q'.
Proof.
  intros (evs & r & Hc & Hr & Hp & He & HQ) Hk. destruct r as [a|e|]; [|exists evs, (Err e)|done].
  - destruct (Hk evs a (HQ a eq_refl)) as (evs' & r' & Hc' & Hr' & Hp' & He' & HQ'). exists (evs ++ evs'), r'.
    unfold st_bind. rewrite Hc, Hc', app_assoc. split; [done|]. split; [by apply Forall_app|done].
  - unfold st_bind. rewrite Hc. split_and!; [done..| |done]. by intros e' [= ->]; apply He.
Qed.

Lemma reads_work {A} tr (c : AR A) (Q : list DataEvent -> A -> Prop) : clean c -> (forall a, c = Ok a -> Q [] a) -> reads tr (work c) Q.
Proof.
  intros [Hp He] HQ. exists [], (map_err StoppedBy c). unfold work, st_lift. rewrite app_nil_r. split_and!; [done|constructor|by rewrite map_err_panic| |].
  - intros e H. destruct c; cbn in H; simplify_eq. by apply He.
  - intros a H%map_err_ok. by apply HQ.
Qed.

Lemma reads_ret {A} tr (a : A) (Q : list DataEvent -> A -> Prop) : Q [] a -> reads tr (st_ret a) Q.
Proof. intros. exists [], (Ok a). rewrite app_nil_r. split_and!; [done|constructor|done..|]. by intros ? [= <-]. Qed.

Lemma reads_out_of_time {A} tr (Q : list DataEvent -> A -> Prop) : reads tr (st_fail OutOfTime) Q.
Proof. exists [], (Err OutOfTime). rewrite app_nil_r. by split_and!. Qed.

Lemma reads_ask {R} tr (event : R -> DataEvent) answer (Q : list DataEvent -> R -> Prop) :
  is_read (event (answer tr)) = true -> Q [event (answer tr)] (answer tr) -> reads tr (ask event answer) Q.
Proof. intros. exists [event (answer tr)], (Ok (answer tr)). split_and!; [done|by constructor|done..|]. by intros ? [= <-]. Qed.

Lemma reads_answered {A} tr e (reply : Reply A) (Q : list DataEvent -> A -> Prop) :
  (forall k, audit_failure (e k) = false) -> (forall a, reply = Answered a -> Q [] a) -> reads tr (answered e reply) Q.
Proof.
  intros He HQ. destruct reply as [a|k|]; cbn; [apply reads_ret; by apply HQ| |apply reads_out_of_time].
  exists [], (Err (StoppedBy (e k))). rewrite app_nil_r. split_and!; [done|constructor|done| |done]. intros e' [= <-]. apply He.
Qed.

Section Assembly.
Context (app : DataProcessingApplication) (ports : DataPorts) (route : DataProcessingRoute) (request : ProcessTaskRequest).
Hypothesis history_built : forall tr w s, ask_history ports tr w = Answered s -> sourced_built s.
Hypothesis covariates_built : forall tr w s, ask_covariates ports tr w = Answered s -> sourced_built s.
Hypothesis steps_fit : fits 64 (fs_history_steps (rt_spec route)).

Let as_of := tr_as_of request.
Let cadence := fs_cadence_ms (rt_spec route).
Let history_features := features_of RHistory (dt_features (rt_task route)).
Let future_features := features_of RFutureCovariate (dt_features (rt_task route)).

Lemma history_window_ok w :
  history_window route request = Ok w ->
  hw_start w = as_of - cadence * (fs_history_steps (rt_spec route) - 1) /\ hw_cutoff w = Some as_of /\ NoDup (fd_name <$> history_features).
Proof.
  unfold history_window. intros H. checks H. apply map_err_ok in H. checks H. unfold history_window_new in Ha3. split_if_in Ha3; [done|]. checks Ha3.
  injection Ha3 as <-. unfold with_feature_policies in Ha4. split_if_in Ha4; [done|]. injection Ha4 as <-. unfold with_cutoff in H. split_if_in H; [done|].
  injection H as <-. cbn. split; [|split; [done|]].
  - apply window_of_ok in Ha0, Ha1. unfold checked_mul in Ha0. split_if_in Ha0; [|done]. split_if_in Ha1; [done|]. injection Ha0 as <-. injection Ha1 as <-.
    eqb_facts. unfold saturating_sub. destruct steps_fit. rewrite Z.max_r by lia. done.
  - bool_facts. by apply feature_names_NoDup.
Qed.

Lemma covariate_window_ok w :
  covariate_window app route request = Ok w -> cw_start w = as_of + cadence /\ cw_as_of w = as_of /\ NoDup (fd_name <$> future_features).
Proof.
  unfold covariate_window. intros H. checks H. apply map_err_ok in H. unfold covariate_window_new in H. split_if_in H; [done|]. injection H as <-. cbn.
  apply window_of_ok, checked_add_Some in Ha as [-> _]. bool_facts. split; [done|]. split; [done|]. by apply feature_names_NoDup.
Qed.

Definition merged_from (history : SourcedSegment) (evs : list DataEvent) (m : SourcedSegment * bool) : Prop :=
  segment_ok (ss_segment m.1) /\
  if m.2
  then exists addresses samples, EvLive addresses (Answered samples) ∈ evs /\ sg_timestamps (ss_segment m.1) = sg_timestamps (ss_segment history) /\
         Forall2 (tail_from (db_point_features (rt_binding route)) samples as_of) (sg_series (ss_segment history)) (sg_series (ss_segment m.1))
  else m.1 = history.

Lemma merge_live_tail_reads tr history : segment_ok (ss_segment history) -> reads tr (merge_live_tail ports route as_of history) (merged_from history).
Proof.
  intros Hok. unfold merge_live_tail.
  assert (Hst : forall evs, merged_from history evs (history, false)) by done.
  split_if; [by apply reads_ret|]. split_if; [by apply reads_ret|]. set (addresses := List.map _ _).
  apply (reads_bind _ _ _ (fun evs reply => evs = [EvLive addresses reply])); [by apply reads_ask|]. intros evs reply ->.
  destruct reply as [samples|e|]; [|by apply reads_ret|apply reads_out_of_time]. split_if; [by apply reads_ret|].
  destruct (accept_samples _ _) as [accepted|] eqn:Eacc; [|by apply reads_ret]. apply accept_samples_accepted in Eacc.
  apply (reads_bind _ _ _ (fun evs m => evs = [] /\ merge_all (ss_provenance history) accepted (sg_series (ss_segment history)) = Ok m)).
  { apply reads_work; [clean|]. by intros a Ha. }
  intros evs m [-> Hm]. destruct m as [merged|]; [|by apply reads_ret]. eapply merge_all_ok in Hm as [Ht Hs]; [|exact Eacc|apply Hok].
  apply (reads_bind _ _ _ (fun evs g => evs = [] /\ segment_new (sg_timestamps (ss_segment history)) (fst <$> merged) = Ok g)).
  { apply reads_work; [clean|]. by intros a Ha%map_err_ok. }
  intros evs g [-> [-> Hg]%segment_new_ok]; [|done].
  apply (reads_bind _ _ _ (fun evs s => evs = [] /\ s = mkSourced (mkDataSegment (sg_timestamps (ss_segment history)) (fst <$> merged)) (snd <$> merged))).
  { apply reads_work; [clean|]. by intros a Ha%map_err_ok%sourced_new_ok. }
  intros evs s [-> ->]. apply reads_ret. split; [done|]. exists addresses, samples. cbn. split; [left|done].
Qed.

Lemma resolve_future_reads tr :
  reads tr (resolve_future app ports route request) (fun evs future =>
    future_from future_features as_of cadence (fo_horizon_steps (tr_options request)) evs (ss_segment <$> future)).
Proof.
  unfold resolve_future. split_if. { apply reads_ret. cbn. apply Nat.eqb_eq in E. by apply nil_length_inv in E. }
  apply (reads_bind _ _ _ (fun evs w => evs = [] /\ covariate_window app route request = Ok w)). { apply reads_work; [clean|]. by intros. }
  intros evs w [-> (Hstart & Has & Hn)%covariate_window_ok]. rewrite app_nil_r.
  apply (reads_bind _ _ _ (fun evs reply => evs = [EvCovariates w reply] /\ forall s, reply = Answered s -> sourced_built s)).
  { apply reads_ask; [done|]. split; [done|]. apply covariates_built. }
  intros evs reply [-> Hb].
  apply (reads_bind _ _ _ (fun evs s => evs = [] /\ reply = Answered s)). { by apply reads_answered. }
  intros evs s [-> ->].
  apply (reads_bind _ _ _ (fun evs _ => evs = [] /\ segment_for future_features (as_of + cadence) cadence (fo_horizon_steps (tr_options request)) (ss_segment s))).
  { apply reads_work; [clean|]. intros u Hu. split; [done|]. rewrite <-Hstart. by eapply validate_sourced_ok. }
  intros evs _ [-> Hseg]. apply reads_ret. cbn. split; [done|]. split; [apply sourced_built_ok, Hb; done|]. exists w, s. split; [left|done].
Qed.

Lemma tail_definitions points samples stored series :
  Forall2 (tail_from points samples as_of) stored series -> se_definition <$> series = se_definition <$> stored.
Proof.
  induction 1 as [|s s' stored series Ht _ IH]; cbn; [done|]. f_equal; [|done]. destruct Ht as [-> | (b & sample & Ht)]; [done|]. by destruct_and! Ht.
Qed.

Lemma segment_for_definitions features start count g g' :
  sg_timestamps g' = sg_timestamps g -> se_definition <$> sg_series g' = se_definition <$> sg_series g ->
  segment_for features start cadence count g -> segment_for features start cadence count g'.
Proof.
  intros Hts Hd (? & Hn & Hf). split; [by rewrite Hts|]. split.
  - replace (series_name <$> sg_series g') with (fd_name <$> (se_definition <$> sg_series g')) by by rewrite <-list_fmap_compose.
    rewrite Hd, <-list_fmap_compose. exact Hn.
  - intros d (s & Hs & Heq)%Hf. assert (se_definition s ∈ se_definition <$> sg_series g') as (s' & Hs' & ?)%list_elem_of_fmap.
    { rewrite Hd. by apply list_elem_of_fmap_2. } exists s'. split; [done|]. by rewrite <-Hs'.
Qed.

Lemma assemble_frame_reads tr : reads tr (assemble_frame app ports route request) (frame_sound route request).
Proof.
  unfold assemble_frame.
  apply (reads_bind _ _ _ (fun evs _ => evs = [] /\ fo_horizon_steps (tr_options request) <= fs_max_horizon_steps (rt_spec route) /\
    Z.of_nat (length (fo_quantiles (tr_options request))) <= fs_max_quantiles (rt_spec route))).
  { apply reads_work; [clean|]. intros u Hu%ensure_negb. by eqb_facts. }
  intros evs _ [-> Hlim].
  apply (reads_bind _ _ _ (fun evs w => evs = [] /\ history_window route request = Ok w)). { apply reads_work; [clean|]. by intros. }
  intros evs w [-> (Hstart & Hcut & Hn)%history_window_ok]. rewrite !app_nil_r.
  apply (reads_bind _ _ _ (fun evs reply => evs = [EvHistory w reply] /\ forall s, reply = Answered s -> sourced_built s)).
  { apply reads_ask; [done|]. split; [done|]. apply history_built. }
  intros evs reply [-> Hb].
  apply (reads_bind _ _ _ (fun evs s => evs = [] /\ reply = Answered s)). { by apply reads_answered. }
  intros evs stored [-> ->]. specialize (Hb _ eq_refl). apply sourced_built_ok in Hb.
  apply (reads_bind _ _ _ (fun evs _ => evs = [] /\ segment_for history_features (as_of - cadence * (fs_history_steps (rt_spec route) - 1)) cadence
    (fs_history_steps (rt_spec route)) (ss_segment stored))).
  { apply reads_work; [clean|]. intros u Hu. split; [done|]. rewrite <-Hstart. by eapply validate_sourced_ok. }
  intros evs _ [-> Hseg]. eapply reads_bind; [by apply merge_live_tail_reads|]. intros evs1 [history live] (Hok & Hm).
  eapply reads_bind; [apply resolve_future_reads|]. intros evs2 future Hfut. apply reads_work; [clean|]. intros frame Hframe. cbn in *.
  eapply finish_frame_ok; [exact Hframe|done|..|done| |].
  - destruct live; [|by subst]. destruct Hm as (? & ? & _ & Hts & Ht). eapply segment_for_definitions; [exact Hts|by eapply tail_definitions|done].
  - exists w, stored. split; [left|]. split; [done|]. destruct live; [|by subst].
    destruct Hm as (addresses & samples & Hin & Hts & Ht). exists addresses, samples. split; [set_solver|done].
  - destruct future; [|done]. cbn in *. destruct Hfut as (? & ? & w' & sourced & ? & ?). split; [done|]. split; [done|]. exists w', sourced. split; [set_solver|done].
Qed.
End Assembly.

(** ** Results *)

(** The source of a fallback is its latest usable observation, and a persistence
    forecast repeats it bit for bit. *)
Definition fallback_sound (spec : ForecastTaskSpec) (history : DataSegment) (result : ProcessingResult) (output : ForecastOutput) : Prop :=
  exists info policy source i value quality,
    pr_fallback result = Some info /\ fi_strategy info ∈ fs_allowed_fallbacks spec /\ fallback_policy spec (fi_strategy info) = Some policy /\
    fi_strategy_version info = fp_version policy /\ fi_source_feature info = fp_source_feature policy /\
    source ∈ sg_series history /\ series_name source = fi_source_feature info /\
    sg_timestamps history !! i = Some (fi_based_on_data_through info) /\
    se_values source !! i = Some value /\ se_quality source !! i = Some quality /\ usable value quality = true /\
    (forall j v q, (i < j)%nat -> se_values source !! j = Some v -> se_quality source !! j = Some q -> usable v q = false) /\
    (forall e, pr_expires_at result = Some e -> e <= pr_produced_at result + fp_max_output_age_ms policy) /\
    (fi_strategy info = "persistence" ->
       exists x, value = FNumber x /\ Forall (fun p => pt_value p = x /\ Forall (fun q => q_value q = x) (pt_quantiles p)) (fc_points output)).

Definition artifact_pinned (selector : ArtifactSelector) (artifact : ArtifactProvenance) : Prop :=
  ap_kind artifact = as_kind selector /\ ap_family artifact = as_family selector /\
  (forall v, as_version selector = Some v -> ap_version artifact = v) /\ (forall d, as_digest selector = Some d -> ap_digest artifact = d).

Record result_sound (route : DataProcessingRoute) (request : DataProcessingRequest) (result : ProcessingResult) (output : ForecastOutput) : Prop := {
  rs_correlated : pr_request_id result = dr_request_id request /\ pr_task result = dr_task request /\ pr_binding result = dr_binding request /\
    pr_input_digest result = dr_input_digest request /\ pr_input_watermark result = fq_input_watermark (pf_quality (dr_frame request));
  rs_processor : pp_id (pr_processor result) = pd_id (rt_descriptor route) /\ pp_version (pr_processor result) = pd_version (rt_descriptor route) /\
    pp_contract (pr_processor result) = dr_processor_contract request;
  rs_time : dr_submitted_at request <= pr_produced_at result <= dr_deadline request;
  rs_artifact : forall selector, dr_artifact_selector request = Some selector ->
    (forall artifact, pr_artifact result = Some artifact -> artifact_pinned selector artifact) /\ (pr_status result = Produced -> is_Some (pr_artifact result));
  rs_output : pr_output result = Some output;
  rs_meaning : fc_target output = ft_name (fs_target (rt_spec route)) /\ fc_unit output = ft_unit (fs_target (rt_spec route)) /\
    fc_sign_convention output = ft_sign_convention (fs_target (rt_spec route)) /\ fc_cadence_ms output = fs_cadence_ms (rt_spec route);
  rs_axis : pt_timestamp <$> fc_points output = grid (pf_as_of (dr_frame request) + fs_cadence_ms (rt_spec route)) (fs_cadence_ms (rt_spec route))
    (fo_horizon_steps (dr_options request));
  rs_quantiles : Forall (fun p => Forall2 (fun q expected => f64_same (q_probability q) expected = true) (pt_quantiles p) (fo_quantiles (dr_options request)))
    (fc_points output);
  rs_expiry : forall e, pr_expires_at result = Some e -> e <= pr_produced_at result + fs_max_output_age_ms (rt_spec route);
  rs_fallback : pr_status result = Fallback -> fallback_sound (rt_spec route) (pf_history (dr_frame request)) result output
}.

Lemma rposition_Some {A} (f : A -> bool) l i : rposition f l = Some i ->
  exists x, l !! i = Some x /\ f x = true /\ forall j y, (i < j)%nat -> l !! j = Some y -> f y = false.
Proof.
  revert i. induction l as [|a l IH]; intros i H; cbn in H; [done|]. destruct (rposition f l) as [k|] eqn:Ek.
  - injection H as <-. destruct (IH k eq_refl) as (x & Hx & Hf & Hl). exists x. split; [done|]. split; [done|]. intros [|j] y Hj Hy; [lia|].
    eapply Hl; [|exact Hy]. lia.
  - destruct (f a) eqn:Ef; [|done]. injection H as <-. exists a. split; [done|]. split; [done|]. intros [|j] y Hj Hy; [lia|].
    clear -Ek Hy. revert j Hy. cbn. induction l as [|b l IHl]; intros j Hy; [done|]. cbn in Ek. destruct (rposition f l); [done|]. destruct (f b) eqn:Eb; [done|].
    destruct j; cbn in Hy; [by injection Hy as <-|by eapply IHl].
Qed.

Lemma zip_eqb_Forall2 {A B} (same : A -> B -> bool) l k :
  length l = length k -> Forall (fun c : A * B => negb (same c.1 c.2) = false) (zip l k) -> Forall2 (fun x y => same x y = true) l k.
Proof.
  revert k. induction l as [|x l IH]; intros [|y k] Hl H; try done. cbn in *. inversion H; subst. constructor; [by bool_facts|].
  apply IH; [lia|done].
Qed.

(** [history_cut] and [label] are found because the frame's segment is built. *)
Lemma validate_fallback_ok spec request result u :
  segment_ok (pf_history (dr_frame request)) -> validate_fallback spec request result = Ok u ->
  forall output, pr_output result = Some output -> fallback_sound spec (pf_history (dr_frame request)) result output.
Proof.
  unfold validate_fallback, result_check. intros [Hok Hlen] H output Hout. apply obind_ok in H as (info & Hi & H). checks H.
  apply ok_or_ok in Hi, Ha0, Ha2, Ha3, Ha6, Ha8. apply ensure_negb in Ha, Ha1, Ha5, Ha7, Ha9. rename a2 into source, a3 into i, a6 into policy, a8 into expiry.
  apply rposition_Some in Ha3 as ([value quality] & Hz & Hu & Hlast). apply lookup_zip_with_Some in Hz as (v & q & [= -> ->] & Hv & Hq).
  apply List.find_some in Ha2 as [Hin Hname]. apply list_elem_of_In in Hin. apply string_eqb_true in Hname.
  unfold index_of in Ha4. destruct (sg_timestamps _ !! i) as [t|] eqn:Et; [|done]. injection Ha4 as <-. eqb_facts. subst.
  exists info, policy, source, i, v, q. split_and!; try done.
  - apply existsb_exists in Ha as (item & Hitem & ->%string_eqb_true). by apply list_elem_of_In.
  - intros j v' q' Hj Hv' Hq'. apply (Hlast j (v', q') Hj). apply lookup_zip_with_Some. by eexists _, _.
  - intros e He. rewrite He in Ha8. injection Ha8 as <-. unfold saturating_sub in Ha9. lia.
  - intros Hp. rewrite Hp in H. cbn in H. unfold index_of in H. rewrite Hv in H. cbn in H. destruct v as [x| | |]; try done. cbn in H.
    rewrite Hout in H. cbn in H. apply ensure_negb in H. eqb_facts. exists x. split; [done|]. eapply list.Forall_impl; [exact H|]. intros p Hp'.
    unfold point_differs, differs in Hp'. eqb_facts. split; [done|]. eapply list.Forall_impl; [eassumption|]. intros c Hc. cbn in Hc. by eqb_facts.
Qed.

Lemma index_of_clean {A B} (l : list A) i (k : A -> AR B) : (i < length l)%nat -> (forall a, clean (k a)) -> clean (obind (index_of l i) k).
Proof. intros [a Ha]%lookup_lt_is_Some_2 Hk. unfold index_of. rewrite Ha. apply Hk. Qed.

Lemma validate_fallback_clean spec request result : segment_ok (pf_history (dr_frame request)) -> clean (validate_fallback spec request result).
Proof.
  intros [Hok Hlen]. unfold validate_fallback. do 4 (apply clean_bind; [clean|intro]).
  destruct (List.find _ _) as [source|] eqn:Es; cbn; [|split; [done|]; by intros ? [= <-]].
  destruct (rposition _ _) as [i|] eqn:Ei; cbn; [|split; [done|]; by intros ? [= <-]].
  apply List.find_some in Es as [Hin%list_elem_of_In _]. apply rposition_Some in Ei as ([v q] & Hz & _).
  apply lookup_zip_with_Some in Hz as (v' & q' & _ & Hv & _). apply lookup_lt_Some in Hv. apply (Forall_elem Hlen) in Hin.
  apply index_of_clean; [congruence|]. intro. do 5 (apply clean_bind; [clean|intro]). split_if; [|clean]. apply index_of_clean; [done|]. intro. clean.
Qed.

Lemma validate_forecast_clean spec request result : clean (validate_forecast spec request result).
Proof.
  unfold validate_forecast. do 2 (apply clean_bind; [clean|intro]). apply clean_bind; [|intro; clean].
  destruct (pf_future_covariates _); [clean|]. apply clean_bind; [clean|intro]. apply clean_map_err; [apply regular_timestamps_no_panic|done].
Qed.
#[export] Hint Resolve validate_forecast_clean : data_clean.

Lemma validate_processor_result_clean codec route request result :
  segment_ok (pf_history (dr_frame request)) -> clean (validate_processor_result codec route request result).
Proof.
  intros Hok. unfold validate_processor_result. do 5 (apply clean_bind; [clean|intro]). destruct (pr_status result); clean. by apply validate_fallback_clean.
Qed.

Lemma validate_forecast_ok route request result u features evs :
  validate_forecast (rt_spec route) request result = Ok u ->
  future_from features (pf_as_of (dr_frame request)) (fs_cadence_ms (rt_spec route)) (fo_horizon_steps (dr_options request)) evs
    (pf_future_covariates (dr_frame request)) ->
  exists output, pr_output result = Some output /\
    (fc_target output = ft_name (fs_target (rt_spec route)) /\ fc_unit output = ft_unit (fs_target (rt_spec route)) /\
     fc_sign_convention output = ft_sign_convention (fs_target (rt_spec route)) /\ fc_cadence_ms output = fs_cadence_ms (rt_spec route)) /\
    pt_timestamp <$> fc_points output = grid (pf_as_of (dr_frame request) + fs_cadence_ms (rt_spec route)) (fs_cadence_ms (rt_spec route))
      (fo_horizon_steps (dr_options request)) /\
    Forall (fun p => Forall2 (fun q expected => f64_same (q_probability q) expected = true) (pt_quantiles p) (fo_quantiles (dr_options request)))
      (fc_points output).
Proof.
  unfold validate_forecast. intros H Hfut. apply obind_ok in H as (output & Ho & H). apply ok_or_ok in Ho. apply obind_ok in H as (? & Hs & H).
  apply obind_ok in H as (expected & Hexp & H). apply ensure_negb in Hs, H. eqb_facts.
  exists output. split; [done|]. split; [done|].
  assert (expected = grid (pf_as_of (dr_frame request) + fs_cadence_ms (rt_spec route)) (fs_cadence_ms (rt_spec route)) (fo_horizon_steps (dr_options request))) as <-.
  { destruct (pf_future_covariates _) as [g|]; [injection Hexp as <-; apply Hfut|]. checks Hexp. apply ok_or_ok, checked_add_Some in Ha as [-> _].
    by apply map_err_ok, regular_timestamps_ok in Hexp. }
  split.
  - match goal with H : Forall (fun c => negb (pt_timestamp _ =? _) = false) _ |- _ => apply (zip_eqb_Forall2 (fun p t => pt_timestamp p =? t)) in H; [|done];
      clear -H; induction H as [|p t l k Hp _ IH]; cbn; [done|]; f_equal; [by apply Z.eqb_eq|done] end.
  - match goal with H : Forall (fun p => negb _ || _ = false) (fc_points output) |- _ => eapply list.Forall_impl; [exact H|] end. intros p Hp. cbn in Hp. eqb_facts.
    by apply (zip_eqb_Forall2 (fun q t => f64_same (q_probability q) t)).
Qed.

Lemma artifact_matches_ok selector artifact : artifact_matches selector artifact = true -> artifact_pinned selector artifact.
Proof.
  unfold artifact_matches, artifact_pinned. intros H. eqb_facts. split_and!; [done..| |].
  - intros v Hv. rewrite Hv in *. cbn in *. by eqb_facts.
  - intros d Hd. rewrite Hd in *. cbn in *. by eqb_facts.
Qed.

Lemma validate_processor_result_ok codec route request result u features evs :
  validate_processor_result codec route request result = Ok u -> pr_status result <> Unavailable ->
  segment_ok (pf_history (dr_frame request)) ->
  future_from features (pf_as_of (dr_frame request)) (fs_cadence_ms (rt_spec route)) (fo_horizon_steps (dr_options request)) evs
    (pf_future_covariates (dr_frame request)) ->
  exists output, result_sound route request result output.
Proof.
  unfold validate_processor_result, result_check. intros H Hst Hok Hfut. checks H. apply ensure_negb in Ha, Ha0, Ha1, Ha2, Ha3.
  assert (Hv : exists u, validate_forecast (rt_spec route) request result = Ok u /\
    (pr_status result = Fallback -> forall output, pr_output result = Some output -> fallback_sound (rt_spec route) (pf_history (dr_frame request)) result output)).
  { destruct (pr_status result) eqn:Es; [by exists u| |done]. apply obind_ok in H as (u0 & Hf & H). exists u. split; [done|]. intros _. by eapply validate_fallback_ok. }
  destruct Hv as (u' & Hv & Hfb). eapply validate_forecast_ok in Hv as (output & Ho & Hm & Hax & Hq); [|exact Hfut]. exists output. eqb_facts.
  split; try done; [| |by intros Hs; apply Hfb].
  - intros selector Hsel. rewrite Hsel in *. split.
    + intros artifact Hart. rewrite Hart in *. bool_facts. by apply artifact_matches_ok.
    + intros Hp. rewrite (bool_decide_eq_true_2 _ Hp) in Ha2. by destruct (pr_artifact result).
  - intros e He. rewrite He in *. cbn in *. eqb_facts. unfold saturating_sub in *. lia.
Qed.

(** ** Calls *)

Record ports_built (ports : DataPorts) : Prop := {
  pb_history : forall tr w s, ask_history ports tr w = Answered s -> sourced_built s;
  pb_covariates : forall tr w s, ask_covariates ports tr w = Answered s -> sourced_built s;
  pb_result : forall tr route request r, ask_process ports tr route request = Answered r -> result_built r
}.

Definition routes_built (codec : Codec) (app : DataProcessingApplication) : Prop :=
  Forall (fun r => route_built codec r /\ fits 64 (fs_history_steps (rt_spec r))) (da_routes app).

Lemma result_built_unavailable r : result_built r -> pr_status r = Unavailable -> is_Some (pr_unavailable r).
Proof.
  induction 1 as [? ? ? ? ? ? ? ? ? ? ? ? ? r H|r warnings r' _ IH H].
  - unfold result_new in H. split_if_in H; [done|]. split_if_in H; [done|]. checks H. injection H as <-. cbn. intros ->. bool_facts. cbn in E.
    destruct unavailable; [by eexists|]. by rewrite andb_false_r in E.
  - unfold with_warnings in H. apply obind_ok in H as (ws & _ & H). split_if_in H; [done|]. by injection H as <-.
Qed.

Lemma route_built_egress codec r : route_built codec r -> pd_data_boundary (rt_descriptor r) = BRemote ->
  dt_remote_egress_allowed (rt_task r) = true /\ db_remote_egress_allowed (rt_binding r) = true.
Proof.
  induction 1 as [task binding descriptor deadline r H|r n r' _ IH H|r _ IH]; [| |exact IH].
  - unfold route_new, config_check in H. apply obind_ok in H as (_ & _ & H). apply obind_ok in H as (cells & _ & H). apply obind_ok in H as (u & Hc & H).
    apply obind_ok in H as (_ & _ & H). injection H as <-. cbn. intros Hr. apply ensure_negb in Hc. bool_facts. rewrite (bool_decide_eq_true_2 _ Hr) in *. cbn in *. by bool_facts.
  - unfold with_max_concurrency in H. apply obind_ok in H as (_ & _ & H). by injection H as <-.
Qed.

Definition is_call (e : DataEvent) : bool := match e with EvProcess _ _ => true | _ => false end.
Definition no_call (tr : list DataEvent) : Prop := Forall (fun e => is_call e = false) tr.

(** How a call ends: its terminal audit record is stored, or the sink's failure is
    the error. *)
Definition exit_audited (ctx : RequestContext) (tr : list DataEvent) (r : outcome DataError DerivedData) : Prop :=
  match r with
  | Ok _ => list.last tr = Some (EvAudit (audit_record ctx Succeeded DetailNone) (Answered tt))
  | Err e => exists o detail reply, list.last tr = Some (EvAudit (audit_record ctx o detail) reply) /\
      if audit_failure e then reply <> Answered tt else o ∈ [Rejected; AuditFailed] /\ reply = Answered tt
  | Panic => False
  end.

Section Calls.
Context (codec : Codec) (app : DataProcessingApplication) (ports : DataPorts) (ctx : RequestContext).

Lemma record_data_audit_run o detail tr :
  exists reply, record_data_audit ports ctx o detail tr =
    (tr ++ [EvAudit (audit_record ctx o detail) reply],
     match reply with Answered _ => Ok tt | Refused e => Err (Governance (AuditUnavailable e)) | Elapsed => Err (Governance (AuditUnavailable PTimeout)) end).
Proof. exists (ask_audit ports tr (audit_record ctx o detail)). unfold record_data_audit, st_bind, ask. by destruct (ask_audit ports tr _). Qed.

(** A record of how the call ends is the last event. *)
Lemma ends_run {A} o detail e tr :
  o ∈ [Rejected; AuditFailed] -> audit_failure e = false ->
  exists reply r, ends (A := A) ports ctx o detail e tr = (tr ++ [EvAudit (audit_record ctx o detail) reply], Err r) /\
    exit_audited ctx (tr ++ [EvAudit (audit_record ctx o detail) reply]) (Err r).
Proof.
  intros Ho He. unfold ends, st_bind. destruct (record_data_audit_run o detail tr) as [reply ->]. destruct reply as [[]|k|].
  - exists (Answered tt), e. split; [done|]. eexists o, detail, _. rewrite last_snoc. split; [done|]. by rewrite He.
  - exists (Refused k), (Governance (AuditUnavailable k)). split; [done|]. eexists o, detail, _. by rewrite last_snoc.
  - exists Elapsed, (Governance (AuditUnavailable PTimeout)). split; [done|]. eexists o, detail, _. by rewrite last_snoc.
Qed.

(** Nothing is sent to a processor, the end is recorded, and nothing is returned. *)
Definition refused {A} (tr : list DataEvent) (c : DataM A) : Prop :=
  exists post e, c tr = (tr ++ post, Err e) /\ no_call post /\ exit_audited ctx (tr ++ post) (Err e).

Lemma refused_ends {A} tr o detail e : o ∈ [Rejected; AuditFailed] -> audit_failure e = false -> refused (A := A) tr (ends ports ctx o detail e).
Proof. intros Ho He. destruct (ends_run (A := A) o detail e tr Ho He) as (reply & r & H & Hx). exists [EvAudit (audit_record ctx o detail) reply], r. split; [done|]. by split; [repeat constructor|]. Qed.
Lemma refused_rejects {A} tr e : audit_failure e = false -> refused (A := A) tr (rejects ports ctx e).
Proof. intros. apply refused_ends; [set_solver|done]. Qed.
Lemma refused_fails {A} tr e : audit_failure e = false -> refused (A := A) tr (fails ports ctx e).
Proof. intros. apply refused_ends; [set_solver|done]. Qed.

Lemma refused_bind {A B} tr (c : DataM A) (k : A -> DataM B) : refused tr c -> refused tr (st_bind c k).
Proof. intros (post & e & Hc & Hr). exists post, e. split; [|done]. unfold st_bind. by rewrite Hc. Qed.

(** [c] makes no call, is recorded, and returns only data in [Q]. *)
Definition concludes (tr : list DataEvent) (c : DataM DerivedData) (Q : list DataEvent -> DerivedData -> Prop) : Prop :=
  exists post r, c tr = (tr ++ post, r) /\ no_call post /\ exit_audited ctx (tr ++ post) r /\ forall d, r = Ok d -> Q post d.

Lemma refused_concludes tr c Q : refused tr c -> concludes tr c Q.
Proof. intros (post & e & H & ? & ?). by exists post, (Err e). Qed.

(** A check whose failure is recorded as a rejection. *)
Lemma concludes_check {A} tr (c : AR A) (k : A -> DataM DerivedData) Q :
  clean c -> (forall a, c = Ok a -> concludes tr (k a) Q) -> concludes tr (st_bind (catch (st_lift c) (rejects ports ctx)) k) Q.
Proof.
  intros [Hp He] Hk. destruct c as [a|e|]; [by apply Hk| |done]. apply refused_concludes, refused_bind.
  destruct (refused_rejects (A := A) tr e (He e eq_refl)) as (post & e' & H & Hr). by exists post, e'.
Qed.

Lemma concludes_ask {R} tr (event : R -> DataEvent) answer k Q :
  is_call (event (answer tr)) = false -> concludes (tr ++ [event (answer tr)]) (k (answer tr)) (fun post d => Q (event (answer tr) :: post) d) ->
  concludes tr (st_bind (ask event answer) k) Q.
Proof.
  intros Hc (post & r & Hk & Hn & Hx & Hd). exists (event (answer tr) :: post), r. unfold st_bind, ask.
  rewrite <-app_assoc in Hk, Hx. split; [done|]. split; [by constructor|done].
Qed.

(** The success is recorded before the data is returned. *)
Lemma concludes_success tr (d : DerivedData) (Q : list DataEvent -> DerivedData -> Prop) :
  (forall reply, Q [EvAudit (audit_record ctx Succeeded DetailNone) reply] d) ->
  concludes tr (st_bind (record_data_audit ports ctx Succeeded DetailNone) (fun _ => st_ret d)) Q.
Proof.
  intros HQ. unfold concludes, st_bind. destruct (record_data_audit_run Succeeded DetailNone tr) as [reply ->].
  destruct reply as [[]|k|]; eexists [_], _; (split; [done|]); (split; [by repeat constructor|]); unfold exit_audited; rewrite last_snoc.
  - split; [done|]. intros ? [= <-]. apply HQ.
  - split; [|done]. by eexists _, _, _.
  - split; [|done]. by eexists _, _, _.
Qed.

(** What a caller gets. *)
Definition derived_sound (route : DataProcessingRoute) (request : DataProcessingRequest) (result : ProcessingResult) (post : list DataEvent) (d : DerivedData) : Prop :=
  dd_result d = result /\ dd_frame_quality d = pf_quality (dr_frame request) /\ EvClock (inr (dd_accepted_at d)) ∈ post /\
  pr_produced_at result <= dd_accepted_at d <= dr_deadline request /\ (exists e, pr_expires_at result = Some e /\ dd_accepted_at d < e) /\
  exists output, result_sound route request result output.

Lemma accept_result_concludes route request result tr features evs :
  result_built result -> segment_ok (pf_history (dr_frame request)) ->
  future_from features (pf_as_of (dr_frame request)) (fs_cadence_ms (rt_spec route)) (fo_horizon_steps (dr_options request)) evs
    (pf_future_covariates (dr_frame request)) ->
  concludes tr (accept_result codec ports ctx route request result) (derived_sound route request result).
Proof.
  intros Hb Hok Hfut. unfold accept_result. apply concludes_check; [by apply validate_processor_result_clean|]. intros u Hu. split_if.
  { destruct (result_built_unavailable result) as [info Hi]; [done|by bool_facts|]. rewrite Hi. by apply refused_concludes, (refused_fails (A := DerivedData)). }
  eapply validate_processor_result_ok in Hu as [output Hs]; [|by bool_facts|done|exact Hfut]. apply concludes_ask; [done|].
  destruct (ask_clock ports tr) as [e|t]; [by apply refused_concludes, refused_fails|]. split_if; [by apply refused_concludes, refused_rejects|].
  apply concludes_check; [by apply clean_map_err; [total|]|]. intros d Hd%map_err_ok. apply concludes_success. intros reply.
  unfold derived_accept in Hd. split_if_in Hd; [done|]. apply obind_ok in Hd as (id & _ & Hd). injection Hd as <-. eqb_facts. unfold derived_sound. cbn.
  split_and!; try done; [left|by destruct (pr_expires_at result) as [x|]; [exists x; eqb_facts|]|by exists output].
Qed.

(** What is sent for a request on a route. *)
Record request_sound (route : DataProcessingRoute) (request : ProcessTaskRequest) (reads : list DataEvent) (sent : DataProcessingRequest) : Prop := {
  sent_frame : frame_sound route request reads (dr_frame sent);
  sent_cells : exists cells, frame_cell_count (dr_frame sent) = Ok cells /\ cells <= pd_max_frame_samples (rt_descriptor route);
  sent_bytes : exists bytes, encode_request codec sent = Some bytes /\ bytes <= pd_max_request_bytes (rt_descriptor route);
  sent_identity : dr_task sent = dt_identity (rt_task route) /\ dr_binding sent = db_identity (rt_binding route) /\
    dr_processor_contract sent = dt_processor_contract (rt_task route) /\ dr_artifact_selector sent = db_artifact (rt_binding route) /\
    dr_options sent = tr_options request;
  sent_digest : compute_input_digest codec (dr_task sent) (dr_binding sent) (dr_processor_contract sent) (dr_artifact_selector sent) (dr_frame sent)
    (dr_options sent) = Some (dr_input_digest sent);
  sent_time : dr_submitted_at sent = ctx_timestamp ctx /\ dr_deadline sent = ctx_timestamp ctx + rt_deadline_ms route
}.

Lemma prepare_request_ok route request reads frame sent :
  prepare_request codec ctx route request frame = Ok sent -> frame_sound route request reads frame ->
  dr_frame sent = frame /\ request_sound route request reads sent.
Proof.
  unfold prepare_request. intros H Hf. checks H. injection H as <-. apply ensure_negb in Ha0, Ha5. apply ok_or_ok in Ha1, Ha4.
  apply window_of_ok, checked_add_Some in Ha2 as [-> _]. apply map_err_ok in Ha3. unfold request_new in Ha3. split_if_in Ha3; [done|].
  apply obind_ok in Ha3 as (id & _ & Ha3). unfold nonempty in Ha3. split_if_in Ha3; [done|]. cbn in Ha3. split_if_in Ha3; [done|]. injection Ha3 as <-.
  cbn. split; [done|]. eqb_facts. split; cbn; [done|by eexists|by eexists|done..].
Qed.

Definition attempt_of (route : DataProcessingRoute) (sent : DataProcessingRequest) : DataAudit :=
  audit_record ctx Attempted (DetailAttempt (ti_id (dt_identity (rt_task route))) (bi_id (db_identity (rt_binding route))) (dr_input_digest sent)
    (pd_id (rt_descriptor route)) (dr_request_id sent)).

(** After [reads], one recorded attempt, one call, and what followed. *)
Definition called (tr reads : list DataEvent) (route : DataProcessingRoute) (request : ProcessTaskRequest) (run : list DataEvent * outcome DataError DerivedData) : Prop :=
  exists sent reply post r,
    run = (tr ++ reads ++ EvAudit (attempt_of route sent) (Answered tt) :: EvProcess sent reply :: post, r) /\
    request_sound route request reads sent /\ no_call post /\ exit_audited ctx run.1 r /\
    forall d, r = Ok d -> exists result, reply = Answered result /\ derived_sound route sent result post d.

Lemma reads_no_call evs : Forall (fun e => is_read e = true) evs -> no_call evs.
Proof. intros H. eapply list.Forall_impl; [exact H|]. by intros []. Qed.

(** A refusal after some reads. *)
Lemma refused_after {A} tr reads (c c' : DataM A) :
  c tr = c' (tr ++ reads) -> Forall (fun e => is_read e = true) reads -> refused (tr ++ reads) c' -> refused tr c.
Proof.
  intros Hc Hr (post & e & H & Hn & Hx). exists (reads ++ post), e. rewrite Hc, H, app_assoc. split; [done|]. split; [|done].
  apply Forall_app. split; [by apply reads_no_call|done].
Qed.

Lemma concludes_weaken tr c (Q Q' : list DataEvent -> DerivedData -> Prop) : (forall post d, Q post d -> Q' post d) -> concludes tr c Q -> concludes tr c Q'.
Proof. intros HQ (post & r & ? & ? & ? & Hd). exists post, r. split_and!; [done..|]. intros d Hr. by apply HQ, Hd. Qed.

Lemma called_after tr reads route request sent reply c :
  request_sound route request reads sent ->
  concludes (tr ++ reads ++ [EvAudit (attempt_of route sent) (Answered tt); EvProcess sent reply]) c
    (fun post d => exists result, reply = Answered result /\ derived_sound route sent result post d) ->
  called tr reads route request (c (tr ++ reads ++ [EvAudit (attempt_of route sent) (Answered tt); EvProcess sent reply])).
Proof.
  intros Hs (post & r & -> & Hn & Hx & Hd). exists sent, reply, post, r. rewrite <-!app_assoc in *. simpl in *. done.
Qed.

(** An attempt that cannot be recorded ends the call. *)
Lemma refused_audit {A} tr o detail (k : unit -> DataM A) :
  (record_data_audit ports ctx o detail tr = (tr ++ [EvAudit (audit_record ctx o detail) (Answered tt)], Ok tt)) \/
  refused tr (st_bind (record_data_audit ports ctx o detail) k).
Proof.
  destruct (record_data_audit_run o detail tr) as [reply Hr]. destruct reply as [[]|e|]; [by left|right..];
    (eexists [_], _; split; [unfold st_bind; by rewrite Hr|]; split; [by repeat constructor|]); unfold exit_audited; rewrite last_snoc; by eexists _, _, _.
Qed.

Lemma dispatch_frame_called tr reads route request frame :
  ports_built ports -> frame_sound route request reads frame ->
  refused (tr ++ reads) (dispatch_frame codec ports ctx route request frame) \/
  called tr reads route request (dispatch_frame codec ports ctx route request frame (tr ++ reads)).
Proof.
  intros Hb Hf. unfold dispatch_frame. destruct (prepare_request_clean codec ctx route request frame) as [Hp He].
  destruct (prepare_request codec ctx route request frame) as [sent|e|] eqn:Ep; [| |done].
  2: { left. apply refused_bind. destruct (refused_rejects (A := DataProcessingRequest) (tr ++ reads) e (He e eq_refl)) as (post & e' & H & Hr). by exists post, e'. }
  apply (prepare_request_ok _ _ reads) in Ep as [<- Hs]; [|done].
  match goal with |- context [st_bind (catch (st_lift (Ok sent)) (rejects ports ctx)) ?k] =>
    change (st_bind (catch (st_lift (Ok sent)) (rejects ports ctx)) k) with (k sent); cbv beta end.
  match goal with |- _ \/ called _ _ _ _ (st_bind (record_data_audit _ _ ?o ?d) ?k _) => destruct (refused_audit (tr ++ reads) o d k) as [Ha | Ha] end; [right|by left].
  unfold st_bind at 1. rewrite Ha. unfold st_bind at 1, ask at 1. set (reply := ask_process _ _ _ _).
  assert (Hres : forall r, reply = Answered r -> result_built r) by apply (pb_result _ Hb).
  clearbody reply. fold (attempt_of route sent). rewrite <-!app_assoc. simpl.
  destruct Hf as [Has Hcad ? ? Hok ? Hfut]. destruct (sent_identity _ _ _ _ Hs) as (_ & _ & _ & _ & Hopt).
  destruct reply as [result|k|]; (apply called_after; [done|]); [|by apply refused_concludes, refused_ends; [set_solver|]..].
  eapply concludes_weaken; [|eapply accept_result_concludes; [by apply Hres|exact Hok|]].
  - intros post d Hd. by exists result.
  - rewrite Has, Hopt. exact Hfut.
Qed.

Lemma run_route_called tr route request :
  ports_built ports -> fits 64 (fs_history_steps (rt_spec route)) ->
  refused tr (run_route codec app ports ctx route request) \/
  exists reads, Forall (fun e => is_read e = true) reads /\ called tr reads route request (run_route codec app ports ctx route request tr).
Proof.
  intros Hb Hfit. destruct (assemble_frame_reads app ports route request (pb_history _ Hb) (pb_covariates _ Hb) Hfit tr) as (reads & r & Hrun & Hr & Hp & He & Hq).
  unfold run_route. destruct r as [frame|[e|]|]; [| | |done].
  - assert (Hc : forall h, st_bind (catch (assemble_frame app ports route request) h) (dispatch_frame codec ports ctx route request) tr =
                   dispatch_frame codec ports ctx route request frame (tr ++ reads)) by (intros h; unfold st_bind, catch; by rewrite Hrun).
    destruct (dispatch_frame_called tr reads route request frame) as [H | H]; [done|by apply Hq| |].
    + left. eapply refused_after; [apply Hc|done|done].
    + right. exists reads. split; [done|]. by rewrite Hc.
  - left. apply refused_bind. eapply (refused_after _ reads _ (fails ports ctx e)); [unfold catch; by rewrite Hrun|done|]. by apply refused_fails, He.
  - left. apply refused_bind. eapply (refused_after _ reads _ (ends ports ctx AuditFailed (DetailPort PTimeout) (Governance (PortFailed PTimeout))));
      [unfold catch; by rewrite Hrun|done|]. apply refused_ends; [set_solver|done].
Qed.
End Calls.
