(* ===== verification/DataCalls.v ===== *)
(** * Data-processing calls

    The two guarantees of [DataProcessingApplication::process]: what is sent to a
    processor, and what is returned to a caller; with a commissioned forecast on
    which both hold. *)

From S2P Require Import Prelude F64 Slot Bitmap Segment Snapshot Text BTree Manifest Publish Publication Acquisition Command Application DataTask DataProcessing DataRuns.

(** The caller may use the route. *)
Definition call_permitted (ctx : RequestContext) (app : DataProcessingApplication) (request : ProcessTaskRequest) (route : DataProcessingRoute) : Prop :=
  route ∈ da_routes app /\ dt_identity (rt_task route) = tr_task request /\ db_identity (rt_binding route) = tr_binding request /\
  has_permission (ctx_actor ctx) "data_processing.run" = true /\ tr_as_of request <= ctx_timestamp ctx /\
  is_multiple_of (tr_as_of request) (fs_cadence_ms (rt_spec route)) = true /\
  (pd_data_boundary (rt_descriptor route) = BRemote ->
     dt_remote_egress_allowed (rt_task route) = true /\ db_remote_egress_allowed (rt_binding route) = true /\
     (rt_remote_egress_preapproved route = true \/ ctx_confirmed ctx = true)).

Lemma authorize_run ctx u : authorize PROCESS_DATA_CAPABILITY ctx = Ok u -> has_permission (ctx_actor ctx) "data_processing.run" = true.
Proof. unfold authorize. split_if; [done|]. by bool_facts. Qed.

Lemma authorize_no_failure ctx e : authorize PROCESS_DATA_CAPABILITY ctx = Err e -> audit_failure (Governance e) = false.
Proof. unfold authorize. split_if; [|done]. by intros [= <-]. Qed.

(** A call is refused before a processor hears of it, or permitted and called once. *)
Definition process_shape (codec : Codec) (app : DataProcessingApplication) (ports : DataPorts) (ctx : RequestContext) (request : ProcessTaskRequest) : Prop :=
  refused ctx [] (process codec app ports ctx request) \/
  exists route reads, call_permitted ctx app request route /\ Forall (fun e => is_read e = true) reads /\
    called codec ctx [EvPermit true] reads route request (process codec app ports ctx request []).

Lemma process_shaped codec app ports ctx request : routes_built codec app -> ports_built ports -> process_shape codec app ports ctx request.
Proof.
  intros Hroutes Hports. unfold process_shape, process. destruct (authorize _ _) as [u|e|] eqn:Eauth.
  2: { left. apply refused_rejects. by eapply authorize_no_failure. }
  2: { exfalso. revert Eauth. unfold authorize. by repeat split_if. }
  split_if; [left; by apply refused_rejects|]. destruct (find_route app request) as [route|] eqn:Efind; [|left; by apply refused_rejects].
  split_if; [left; by apply refused_rejects|]. split_if; [left; by apply refused_rejects|].
  apply List.find_some in Efind as [Hin%list_elem_of_In Hid]. destruct (Forall_elem Hroutes Hin) as [Hb Hfit].
  assert (Hper : call_permitted ctx app request route).
  { eqb_facts. unfold call_permitted. split_and!; try done; [by eapply authorize_run|]. intros Hr. destruct (route_built_egress _ _ Hb Hr).
    rewrite (bool_decide_eq_true_2 _ Hr) in *. split_and!; [done..|]. destruct (rt_remote_egress_preapproved route), (ctx_confirmed ctx); naive_solver. }
  unfold st_bind, ask. destruct (ask_permit ports [] route) eqn:Ep; simpl.
  - destruct (run_route_called codec app ports ctx [EvPermit true] route request) as [(post & e & Hrun & Hn & Hx) | (reads & Hr & Hc)]; [done..| |].
    + left. exists (EvPermit true :: post), e. split; [simpl; rewrite Ep; exact Hrun|]. split; [by constructor|exact Hx].
    + right. by exists route, reads.
  - left. destruct (refused_rejects ports ctx (A := DerivedData) [EvPermit false] (ProcessingUnavailable "ROUTE_CONCURRENCY_LIMIT" true (Some 250)) eq_refl)
      as (post & e & Hrun & Hn & Hx). exists (EvPermit false :: post), e. split; [simpl; rewrite Ep; exact Hrun|]. split; [by constructor|exact Hx].
Qed.

(** C17. Governed data processing. A call ends with its terminal audit record, or
    with the error of the audit sink, and never panics. Either no processor is
    called and nothing is returned, or exactly one is, after a granted permit,
    reads of the sources and a stored attempt: the actor holds the permission, the
    cut is aligned and not in the future, data leaves the site only where task,
    binding and the caller or the deployment allow it, and the frame sent holds the
    commissioned features on the exact grid, nothing from after the cut, within
    every quality, size and age limit of the task. *)
Theorem processing_governed codec app ports ctx request tr r :
  routes_built codec app -> ports_built ports -> process codec app ports ctx request [] = (tr, r) ->
  exit_audited ctx tr r /\
  ((no_call tr /\ forall d, r <> Ok d) \/
   exists route reads sent reply post,
     tr = EvPermit true :: reads ++ EvAudit (attempt_of ctx route sent) (Answered tt) :: EvProcess sent reply :: post /\
     Forall (fun e => is_read e = true) reads /\ no_call post /\ call_permitted ctx app request route /\ request_sound codec ctx route request reads sent).
Proof.
  intros Hr Hp Hrun. destruct (process_shaped codec app ports ctx request Hr Hp) as [(post & e & H & Hn & Hx) | (route & reads & Hper & Hreads & Hc)].
  - rewrite Hrun in H. injection H as -> ->. split; [done|]. by left.
  - destruct Hc as (sent & reply & post & r' & H & Hs & Hn & Hx & _). rewrite Hrun in H. rewrite Hrun in Hx. injection H as -> ->. split; [exact Hx|].
    right. by exists route, reads, sent, reply, post.
Qed.

(** Sound derived data. What a call returns is the answer of the one processor
    call it made: correlated with the request and its digest, from the commissioned
    processor and pinned artifact, produced before the deadline, accepted by the
    clock before it expires, on exactly the requested time axis and quantiles; a
    fallback is one the task allows, rests on the latest usable observation of its
    source, and a persistence fallback repeats that observation bit for bit. *)
Lemma derived_data_sound codec app ports ctx request tr d :
  routes_built codec app -> ports_built ports -> process codec app ports ctx request [] = (tr, Ok d) ->
  exists route pre sent result post,
    tr = pre ++ EvProcess sent (Answered result) :: post /\ call_permitted ctx app request route /\ dr_options sent = tr_options request /\
    pf_as_of (dr_frame sent) = tr_as_of request /\ derived_sound route sent result post d.
Proof.
  intros Hr Hp Hrun. destruct (process_shaped codec app ports ctx request Hr Hp) as [(post & e & H & _) | (route & reads & Hper & _ & Hc)].
  - rewrite Hrun in H. congruence.
  - destruct Hc as (sent & reply & post & r' & H & Hs & _ & _ & Hd). rewrite Hrun in H. injection H as -> <-. destruct (Hd d eq_refl) as (result & -> & Hder).
    exists route, ([EvPermit true] ++ reads ++ [EvAudit (attempt_of ctx route sent) (Answered tt)]), sent, result, post.
    split; [by rewrite <-!app_assoc|]. split; [done|]. split; [apply Hs|]. split; [apply Hs|done].
Qed.

(** ** A commissioned forecast *)

Definition F64_10 : Z := 0x4024000000000000.
Definition F64_12 : Z := 0x4028000000000000.
Definition load_feature : FeatureDefinition := mkFeature "load" RHistory VNumber (Some "kW") None.
Definition weather_feature : FeatureDefinition := mkFeature "weather" RFutureCovariate VNumber (Some "Cel") None.
Definition demo_spec : ForecastTaskSpec :=
  mkForecastSpec (mkTarget "load" "kW" "import-positive") 1000 AggLast DupLatest [] 3 2 1 5000 F64_1 [] [] (Some 2000) (Some 2000) true.
Definition demo_task : DataProcessingTask := mkTask (mkTaskIdentity "site.load" 1) "forecast.v1" [load_feature; weather_feature] demo_spec false.
Definition demo_point : PointAddress := mkPointAddress 7 Telemetry 1.
Definition demo_binding : DataProcessingBinding :=
  mkDataBinding (mkBindingIdentity "site.binding" 1) [mkPointBinding "load" demo_point true] [] None false.
Definition demo_descriptor : DataProcessorDescriptor := mkDescriptor "local" "1.0" [Forecast] ["forecast.v1"] BLocal 100 65536.
Definition demo_codec : Codec := mkCodec (fun _ _ _ _ _ _ => Some "sha256:00") (fun _ => Some 512) (fun _ => true) (fun _ _ _ _ _ _ => true) (fun name => "id").
Definition demo_route : DataProcessingRoute := mkRoute demo_task demo_binding demo_descriptor 1000 1 false.
Definition demo_app : DataProcessingApplication := mkDataApplication [demo_route] true.

Definition demo_history : SourcedSegment :=
  mkSourced (mkDataSegment [1000; 2000; 3000] [mkSeries load_feature [FNumber F64_10; FMissing; FMissing] [SQGood; SQMissing; SQMissing]])
    [mkSource KHistory "load" SHistory None 2500 None].
Definition demo_weather : SourcedSegment :=
  mkSourced (mkDataSegment [4000; 5000] [mkSeries weather_feature [FNumber F64_10; FNumber F64_12] [SQGood; SQGood]])
    [mkSource KFutureCovariates "weather" SCovariate None 2900 (Some 2800)].
Definition demo_result : ProcessingResult :=
  mkResult "id" (mkTaskIdentity "site.load" 1) (mkBindingIdentity "site.binding" 1) "sha256:00" Produced (mkProcessor "local" "1.0" "forecast.v1") None
    3000 3300 (Some 8000) (Some (mkOutput "load" "kW" "import-positive" 1000 [mkPoint 4000 F64_12 []; mkPoint 5000 F64_12 []])) None None [].
Definition demo_ports : DataPorts :=
  mkDataPorts (fun _ _ => Answered tt) (fun _ _ => true) (fun _ _ => Answered demo_history)
    (fun _ _ => Answered [Some (mkPointSample demo_point F64_12 3000 Good)]) (fun _ _ => Answered demo_weather) (fun _ _ _ => Answered demo_result)
    (fun _ => inr 3400) (fun _ _ => inr PhHealthy).
Definition demo_caller : RequestContext := mkContext "call-1" (with_permission "data_processing.run" (actor_new "operator")) false 3200.
Definition demo_request : ProcessTaskRequest := mkTaskRequest (mkTaskIdentity "site.load" 1) (mkBindingIdentity "site.binding" 1) 3000 (mkOptions 2 []).

Lemma demo_routes_built : routes_built demo_codec demo_app.
Proof. repeat constructor; try done. by apply (built_route _ demo_task demo_binding demo_descriptor 1000). Qed.

Lemma demo_series_built d values quality : is_ok (series_new d values quality) = true -> series_built (mkSeries d values quality).
Proof. destruct (series_new d values quality) as [s| |] eqn:E; [|done..]. intros _. pose proof E as [-> _]%series_new_ok. by eexists _, _, _. Qed.

Lemma demo_sourced_built s :
  Forall series_built (sg_series (ss_segment s)) -> segment_new (sg_timestamps (ss_segment s)) (sg_series (ss_segment s)) = Ok (ss_segment s) ->
  sourced_new (ss_segment s) (ss_provenance s) = Ok s -> sourced_built s.
Proof. intros. exists (ss_segment s), (ss_provenance s). split; [|done]. by eexists _, _. Qed.

Lemma demo_ports_built : ports_built demo_ports.
Proof.
  split; intros; simplify_eq/=.
  - by apply demo_sourced_built; [repeat constructor; by apply demo_series_built|..].
  - by apply demo_sourced_built; [repeat constructor; by apply demo_series_built|..].
  - by apply (built_result "id" (mkTaskIdentity "site.load" 1) (mkBindingIdentity "site.binding" 1) "sha256:00" Produced (mkProcessor "local" "1.0" "forecast.v1") None
      3000 3300 (Some 8000) (Some (mkOutput "load" "kW" "import-positive" 1000 [mkPoint 4000 F64_12 []; mkPoint 5000 F64_12 []])) None None).
Qed.

(** The call succeeds, with the live sample as the tail of its frame. *)
Lemma demo_call : exists tr d, process demo_codec demo_app demo_ports demo_caller demo_request [] = (tr, Ok d).
Proof. eexists _, _. vm_compute. reflexivity. Qed.

Lemma processing_governed_witness :
  exists tr d, process demo_codec demo_app demo_ports demo_caller demo_request [] = (tr, Ok d) /\ exit_audited demo_caller tr (Ok d) /\
    ((no_call tr /\ forall d', @Ok DataError _ d <> Ok d') \/
     exists route reads sent reply post,
       tr = EvPermit true :: reads ++ EvAudit (attempt_of demo_caller route sent) (Answered tt) :: EvProcess sent reply :: post /\
       Forall (fun e => is_read e = true) reads /\ no_call post /\ call_permitted demo_caller demo_app demo_request route /\
       request_sound demo_codec demo_caller route demo_request reads sent).
Proof.
  destruct demo_call as (tr & d & H). exists tr, d. split; [exact H|]. exact (processing_governed _ _ _ _ _ tr (Ok d) demo_routes_built demo_ports_built H).
Defined.
