(* ===== verification/Registers.v ===== *)
(** * Values in 16-bit registers

    [services/io/src/protocols/codec/byte_order.rs] with the values and formats of
    [services/io/src/protocols/core/{data,point}.rs]: how a point's value is read
    from and written to the registers of a device, in four byte orders. *)

From S2P Require Import Prelude F64.
#[local] Open Scope Z_scope.

(** ** Single precision *)

Definition f32_exponent (b : Z) : Z := Z.land (Z.shiftr b 23) 255.
Definition f32_fraction (b : Z) : Z := Z.land b (Z.ones 23).
Definition f32_is_finite (b : Z) : bool := negb (f32_exponent b =? 255).

Definition of_bits32 (b : Z) : spec_float :=
  let s := Z.testbit b 31 in
  let e := f32_exponent b in
  let f := f32_fraction b in
  if e =? 255 then (if f =? 0 then S754_infinity s else S754_nan)
  else if e =? 0 then magnitude s f (-149)
  else magnitude s (2 ^ 23 + f) (e - 150).

Definition to_bits32 (x : spec_float) : Z :=
  let sign (s : bool) := if s then 2 ^ 31 else 0 in
  match x with
  | S754_zero s => sign s
  | S754_infinity s => sign s + 0x7F800000
  | S754_nan => 0x7FC00000
  | S754_finite s m e => wrap 32 (if Zpos m <? 2 ^ 23 then sign s + Zpos m else sign s + (e + 150) * 2 ^ 23 + (Zpos m - 2 ^ 23))
  end.

(** The casts: widening is exact, narrowing rounds to nearest even. *)
Definition f64_of_f32 (b : Z) : Z :=
  to_bits match of_bits32 b with S754_finite s m e => binary_round prec emax s m e | x => x end.
Definition f32_of_f64 (b : Z) : Z :=
  to_bits32 match of_bits b with S754_finite s m e => binary_round 24 128 s m e | x => x end.

(** [f64 as i64]: towards zero, saturating, a NaN is zero. *)
Definition f64_as_i64 (b : Z) : Z :=
  match of_bits b with
  | S754_zero _ | S754_nan => 0
  | S754_infinity s => if s then - 2 ^ 63 else 2 ^ 63 - 1
  | S754_finite s m e =>
      let a := if 0 <=? e then Zpos m * 2 ^ e else Zpos m / 2 ^ (- e) in
      if s then Z.max (- 2 ^ 63) (- a) else Z.min (2 ^ 63 - 1) a
  end.

(** ** Values and formats *)

(** A string is its UTF-8 bytes. *)
Inductive PointValue := PvFloat (bits : Z) | PvInteger (v : Z) | PvBool (b : bool) | PvString (utf8 : list Z) | PvBytes (bytes : list Z) | PvNull.

Definition f64_one_bits : Z := 0x3FF0000000000000.

Definition value_as_f64 (v : PointValue) : option Z :=
  match v with PvFloat x => Some x | PvInteger i => Some (f64_of_Z i) | PvBool b => Some (if b then f64_one_bits else 0) | _ => None end.
Definition value_as_i64 (v : PointValue) : option Z :=
  match v with PvInteger i => Some i | PvFloat x => Some (f64_as_i64 x) | PvBool b => Some (if b then 1 else 0) | _ => None end.
Definition value_as_bool (v : PointValue) : option bool :=
  match v with PvBool b => Some b | PvInteger i => Some (negb (i =? 0)) | PvFloat x => Some (negb (f64_eqb (of_bits x) f64_zero)) | _ => None end.
Definition value_as_string (v : PointValue) : option (list Z) := match v with PvString s => Some s | _ => None end.

Inductive DataFormat := FBool | FUInt16 | FInt16 | FUInt32 | FInt32 | FUInt64 | FInt64 | FFloat32 | FFloat64 | FString.
#[export] Instance DataFormat_eq_dec : EqDecision DataFormat.
Proof. solve_decision. Defined.

Definition register_count (f : DataFormat) : Z :=
  match f with FBool | FUInt16 | FInt16 => 1 | FUInt32 | FInt32 | FFloat32 => 2 | FUInt64 | FInt64 | FFloat64 => 4 | FString => 8 end.

Inductive ByteOrder := Abcd | Dcba | Badc | Cdab.

Inductive GatewayError := InvalidData | DataConversion | NotConnected | ConnectionFailed.

(** ** Bytes *)

Definition to_be (n : nat) (z : Z) : list Z := rev (to_le n z).
Definition from_be (bs : list Z) : Z := from_le (rev bs).

(** A [w]-bit pattern read as two's complement. *)
Definition signed (w z : Z) : Z := if z <? 2 ^ (w - 1) then z else z - 2 ^ w.

Definition reg_hi (r : Z) : Z := Z.shiftr r 8.
Definition reg_lo (r : Z) : Z := Z.land r 0xFF.
Definition reg_of (hi lo : Z) : Z := Z.lor (Z.shiftl hi 8) lo.

(** The order of the bytes, the same in both directions. *)
Definition reorder_32 (order : ByteOrder) (a b c d : Z) : list Z :=
  match order with Abcd => [a; b; c; d] | Dcba => [d; c; b; a] | Badc => [b; a; d; c] | Cdab => [c; d; a; b] end.
Definition reorder_64 (order : ByteOrder) (a b c d e f g h : Z) : list Z :=
  match order with
  | Abcd => [a; b; c; d; e; f; g; h]
  | Dcba => [h; g; f; e; d; c; b; a]
  | Badc => [b; a; d; c; f; e; h; g]
  | Cdab => [c; d; a; b; g; h; e; f]
  end.

Definition reorder_bytes_32 (r0 r1 : Z) (order : ByteOrder) : list Z := reorder_32 order (reg_hi r0) (reg_lo r0) (reg_hi r1) (reg_lo r1).
Definition reorder_bytes_64 (r0 r1 r2 r3 : Z) (order : ByteOrder) : list Z :=
  reorder_64 order (reg_hi r0) (reg_lo r0) (reg_hi r1) (reg_lo r1) (reg_hi r2) (reg_lo r2) (reg_hi r3) (reg_lo r3).

(** Pairs of bytes as registers. *)
Fixpoint registers_of (bytes : list Z) : list Z :=
  match bytes with hi :: lo :: bytes => reg_of hi lo :: registers_of bytes | _ => [] end.

Definition reorder_to_registers_32 (bytes : list Z) (order : ByteOrder) : list Z :=
  match bytes with [a; b; c; d] => registers_of (reorder_32 order a b c d) | _ => [] end.
Definition reorder_to_registers_64 (bytes : list Z) (order : ByteOrder) : list Z :=
  match bytes with [a; b; c; d; e; f; g; h] => registers_of (reorder_64 order a b c d e f g h) | _ => [] end.

(** ** Strings *)

(** [String::push] of a byte cast to [char]. *)
Definition push_latin (b : Z) : list Z := if b <? 128 then [b] else [Z.lor 0xC0 (Z.shiftr b 6); Z.lor 0x80 (Z.land b 0x3F)].
Definition push_nonzero (b : Z) : list Z := if b =? 0 then [] else push_latin b.
Definition string_chars (regs : list Z) : list Z := mjoin ((fun r => push_nonzero (reg_hi r) ++ push_nonzero (reg_lo r)) <$> regs).

Fixpoint drop_nuls (rev_bytes : list Z) : list Z := match rev_bytes with b :: l => if b =? 0 then drop_nuls l else rev_bytes | [] => [] end.
Definition trim_nuls (s : list Z) : list Z := rev (drop_nuls (rev s)).

(** [chunks(2)], a missing last byte being zero. *)
Fixpoint string_registers (bytes : list Z) : list Z :=
  match bytes with hi :: lo :: bytes => reg_of hi lo :: string_registers bytes | [hi] => [reg_of hi 0] | [] => [] end.

(** ** Decoding and encoding *)

Definition decode_registers (registers : list Z) (format : DataFormat) (byte_order : ByteOrder) (bit_position : option Z) : outcome GatewayError PointValue :=
  match format with
  | FBool =>
      match registers with
      | [] => Err InvalidData
      | r :: _ =>
          let bit := default 0 bit_position in
          if 15 <? bit then Err InvalidData else Ok (PvBool (Z.land (Z.shiftr r bit) 1 =? 1))
      end
  | FUInt16 => match registers with [] => Err InvalidData | r :: _ => Ok (PvInteger r) end
  | FInt16 => match registers with [] => Err InvalidData | r :: _ => Ok (PvInteger (signed 16 r)) end
  | FUInt32 | FInt32 =>
      match registers with
      | r0 :: r1 :: _ =>
          let v := from_be (reorder_bytes_32 r0 r1 byte_order) in
          Ok (PvInteger (if decide (format = FUInt32) then v else signed 32 v))
      | _ => Err InvalidData
      end
  | FFloat32 =>
      match registers with
      | r0 :: r1 :: _ =>
          let v := from_be (reorder_bytes_32 r0 r1 byte_order) in
          if f32_is_finite v then Ok (PvFloat (f64_of_f32 v)) else Err InvalidData
      | _ => Err InvalidData
      end
  | FUInt64 | FInt64 =>
      match registers with
      | r0 :: r1 :: r2 :: r3 :: _ => Ok (PvInteger (signed 64 (from_be (reorder_bytes_64 r0 r1 r2 r3 byte_order))))
      | _ => Err InvalidData
      end
  | FFloat64 =>
      match registers with
      | r0 :: r1 :: r2 :: r3 :: _ =>
          let v := from_be (reorder_bytes_64 r0 r1 r2 r3 byte_order) in
          if f64_is_finite v then Ok (PvFloat v) else Err InvalidData
      | _ => Err InvalidData
      end
  | FString => Ok (PvString (trim_nuls (string_chars registers)))
  end.

Definition in_range (lo hi v : Z) : bool := negb ((v <? lo) || (hi <? v)).

Definition encode_registers (value : PointValue) (format : DataFormat) (byte_order : ByteOrder) : outcome GatewayError (list Z) :=
  match format with
  | FBool => let? b := ok_or InvalidData (value_as_bool value) in Ok [if b : bool then 1 else 0]
  | FUInt16 =>
      let? v := ok_or InvalidData (value_as_i64 value) in
      let? _ := ensure (in_range 0 (2 ^ 16 - 1) v) InvalidData in Ok [v]
  | FInt16 =>
      let? v := ok_or InvalidData (value_as_i64 value) in
      let? _ := ensure (in_range (- 2 ^ 15) (2 ^ 15 - 1) v) InvalidData in Ok [wrap 16 v]
  | FUInt32 =>
      let? v := ok_or InvalidData (value_as_i64 value) in
      let? _ := ensure (in_range 0 (2 ^ 32 - 1) v) InvalidData in Ok (reorder_to_registers_32 (to_be 4 v) byte_order)
  | FInt32 =>
      let? v := ok_or InvalidData (value_as_i64 value) in
      let? _ := ensure (in_range (- 2 ^ 31) (2 ^ 31 - 1) v) InvalidData in Ok (reorder_to_registers_32 (to_be 4 (wrap 32 v)) byte_order)
  | FFloat32 =>
      let? v := ok_or InvalidData (value_as_f64 value) in
      let? _ := ensure (f64_is_finite v) InvalidData in Ok (reorder_to_registers_32 (to_be 4 (f32_of_f64 v)) byte_order)
  | FUInt64 | FInt64 =>
      let? v := ok_or InvalidData (value_as_i64 value) in Ok (reorder_to_registers_64 (to_be 8 (wrap 64 v)) byte_order)
  | FFloat64 =>
      let? v := ok_or InvalidData (value_as_f64 value) in
      let? _ := ensure (f64_is_finite v) InvalidData in Ok (reorder_to_registers_64 (to_be 8 v) byte_order)
  | FString => let? s := ok_or InvalidData (value_as_string value) in Ok (string_registers s)
  end.

(** ** Round trips *)

Ltac each_of := repeat first [apply Forall_nil_2|apply Forall_cons_2].

Lemma reg_hi_of hi lo : fits 8 lo -> reg_hi (reg_of hi lo) = hi.
Proof. intros Hl. unfold reg_hi, reg_of. rewrite Z.shiftr_lor, Z.shiftr_shiftl_l, Z.sub_diag, Z.shiftl_0_r, (Z.shiftr_div_pow2 lo), (Z.div_small lo) by (done || lia). apply Z.lor_0_r. Qed.

Lemma reg_lo_of hi lo : fits 8 lo -> reg_lo (reg_of hi lo) = lo.
Proof.
  intros Hl. unfold reg_lo, reg_of. change 0xFF with (Z.ones 8). rewrite Z.land_lor_distr_l, !Z.land_ones by lia.
  rewrite Z.shiftl_mul_pow2, Z_mod_mult, Z.lor_0_l by lia. by apply Z.mod_small.
Qed.

Lemma reg_of_bytes r : reg_of (reg_hi r) (reg_lo r) = r.
Proof. unfold reg_of, reg_hi, reg_lo. change 0xFF with (Z.ones 8). rewrite <-Z.ldiff_ones_r by lia. apply Z.lor_ldiff_and. Qed.

Lemma reg_of_fits hi lo : fits 8 hi -> fits 8 lo -> fits 16 (reg_of hi lo).
Proof.
  intros Hh Hl. apply fits_lor; [lia| |unfold fits in *; lia]. rewrite Z.shiftl_mul_pow2 by lia. unfold fits in *. lia.
Qed.

Lemma reg_hi_fits r : fits 16 r -> fits 8 (reg_hi r).
Proof. intros Hr. unfold reg_hi. rewrite Z.shiftr_div_pow2 by lia. unfold fits in *. split; [apply Z.div_pos; lia|apply Z.div_lt_upper_bound; lia]. Qed.

Lemma reg_lo_fits r : fits 8 (reg_lo r).
Proof. unfold reg_lo. change 0xFF with (Z.ones 8). rewrite Z.land_ones by lia. apply wrap_fits. lia. Qed.

Lemma to_be_bytes n z : length (to_be n z) = n /\ Forall (fits 8) (to_be n z).
Proof. unfold to_be. rewrite length_rev, to_le_length. split; [done|]. apply Forall_rev, to_le_bytes. Qed.

Lemma from_to_be n z : fits (8 * Z.of_nat n) z -> from_be (to_be n z) = z.
Proof. intros. unfold from_be, to_be. rewrite rev_involutive. by apply from_to_le_fits. Qed.

Lemma to_from_be bs : Forall (fits 8) bs -> to_be (length bs) (from_be bs) = bs.
Proof. intros. unfold from_be, to_be. rewrite <-(length_rev bs), to_from_le by by apply Forall_rev. apply rev_involutive. Qed.

Lemma from_be_fits bs : Forall (fits 8) bs -> fits (8 * Z.of_nat (length bs)) (from_be bs).
Proof. intros. unfold from_be. rewrite <-(length_rev bs). by apply from_le_fits, Forall_rev. Qed.

(** What was written in an order is read back in it, and the other way round. *)
Lemma reorder_written_32 bytes order : length bytes = 4%nat -> Forall (fits 8) bytes ->
  exists r0 r1, reorder_to_registers_32 bytes order = [r0; r1] /\ fits 16 r0 /\ fits 16 r1 /\ reorder_bytes_32 r0 r1 order = bytes.
Proof.
  destruct bytes as [|a [|b [|c [|d []]]]]; intros Hlen Hb; [done..| |done]. repeat (apply list.Forall_cons in Hb as [? Hb]).
  destruct order; cbn; eexists _, _; (split; [done|]); (split_and!; [by apply reg_of_fits..|]); unfold reorder_bytes_32; by rewrite ?reg_hi_of, ?reg_lo_of.
Qed.

Lemma reorder_written_64 bytes order : length bytes = 8%nat -> Forall (fits 8) bytes ->
  exists r0 r1 r2 r3, reorder_to_registers_64 bytes order = [r0; r1; r2; r3] /\ Forall (fits 16) [r0; r1; r2; r3] /\ reorder_bytes_64 r0 r1 r2 r3 order = bytes.
Proof.
  destruct bytes as [|a [|b [|c [|d [|e [|f [|g [|h []]]]]]]]]; intros Hlen Hb; [done..| |done]. repeat (apply list.Forall_cons in Hb as [? Hb]).
  destruct order; cbn; eexists _, _, _, _; (split; [done|]); (split; [each_of; by apply reg_of_fits|]); unfold reorder_bytes_64; by rewrite ?reg_hi_of, ?reg_lo_of.
Qed.

Lemma reorder_read_32 r0 r1 order : fits 16 r0 -> fits 16 r1 ->
  let bytes := reorder_bytes_32 r0 r1 order in length bytes = 4%nat /\ Forall (fits 8) bytes /\ reorder_to_registers_32 bytes order = [r0; r1].
Proof.
  intros H0 H1 bytes. subst bytes. unfold reorder_bytes_32.
  destruct order; cbn; (split; [done|]); (split; [each_of; by first [apply reg_hi_fits|apply reg_lo_fits]|]); by rewrite !reg_of_bytes.
Qed.

Lemma reorder_read_64 r0 r1 r2 r3 order : Forall (fits 16) [r0; r1; r2; r3] ->
  let bytes := reorder_bytes_64 r0 r1 r2 r3 order in length bytes = 8%nat /\ Forall (fits 8) bytes /\ reorder_to_registers_64 bytes order = [r0; r1; r2; r3].
Proof.
  intros H bytes. subst bytes. unfold reorder_bytes_64. repeat (apply list.Forall_cons in H as [? H]).
  destruct order; cbn; (split; [done|]); (split; [each_of; by first [apply reg_hi_fits|apply reg_lo_fits]|]); by rewrite !reg_of_bytes.
Qed.

Lemma signed_wrap w v : 0 < w -> - 2 ^ (w - 1) <= v < 2 ^ (w - 1) -> signed w (wrap w v) = v.
Proof.
  intros Hw Hv. unfold signed, wrap. assert (2 ^ w = 2 * 2 ^ (w - 1)) as Hp by (rewrite <-Z.pow_succ_r by lia; f_equal; lia).
  destruct (Z.ltb_spec v 0).
  - replace (v mod 2 ^ w) with (v + 2 ^ w) by (symmetry; rewrite <-(Z.mod_add _ 1) by lia; rewrite Z.mul_1_l; apply Z.mod_small; lia). split_if; lia.
  - rewrite Z.mod_small by lia. split_if; lia.
Qed.

Lemma wrap_signed w v : 0 < w -> fits w v -> wrap w (signed w v) = v /\ - 2 ^ (w - 1) <= signed w v < 2 ^ (w - 1).
Proof.
  intros Hw Hv. unfold signed, wrap, fits in *. assert (2 ^ w = 2 * 2 ^ (w - 1)) as Hp by (rewrite <-Z.pow_succ_r by lia; f_equal; lia). split_if.
  - rewrite Z.mod_small by lia. lia.
  - replace (v - 2 ^ w) with (v + (-1) * 2 ^ w) by lia. rewrite Z.mod_add, Z.mod_small by lia. lia.
Qed.

(** *** Ranges *)

Definition value_fits (v : PointValue) : Prop :=
  match v with PvFloat x => fits 64 x | PvInteger i => - 2 ^ 63 <= i < 2 ^ 63 | PvString s => Forall (fits 8) s | _ => True end.

Lemma f64_as_i64_range b : - 2 ^ 63 <= f64_as_i64 b < 2 ^ 63.
Proof.
  unfold f64_as_i64. destruct (of_bits b) as [s|s| |s m e]; [lia|destruct s; lia|lia|]. set (a := if 0 <=? e then _ else _).
  assert (0 <= a) by (subst a; split_if; [apply Z.mul_nonneg_nonneg; [lia|apply Z.pow_nonneg; lia]|apply Z.div_pos; [lia|apply pow2_pos; lia]]). destruct s; lia.
Qed.

Lemma value_i64_range v i : value_fits v -> value_as_i64 v = Some i -> - 2 ^ 63 <= i < 2 ^ 63.
Proof. destruct v as [x|z|b|s|s|]; cbn; intros Hv [= <-]; [apply f64_as_i64_range|done|destruct b; lia]. Qed.

Lemma value_f64_fits v x : value_fits v -> value_as_f64 v = Some x -> fits 64 x.
Proof. destruct v as [y|z|b|s|s|]; cbn; intros Hv [= <-]; [done|apply f64_of_Z_fits|]. unfold fits, f64_one_bits. by destruct b. Qed.

Lemma to_bits32_fits x : fits 32 (to_bits32 x).
Proof. destruct x as [s|s| |s m e]; cbn [to_bits32]; [| | |by apply wrap_fits]; unfold fits; try destruct s; lia. Qed.

Lemma in_range_iff lo hi v : in_range lo hi v = true <-> lo <= v <= hi.
Proof. unfold in_range. rewrite negb_true_iff, orb_false_iff, !Z.ltb_ge. lia. Qed.

(** *** Strings of ASCII *)

Definition ascii_text (s : list Z) : Prop := Forall (fun b => 0 < b < 128) s.

Lemma push_ascii b : 0 < b < 128 -> push_nonzero b = [b].
Proof. intros Hb. unfold push_nonzero, push_latin. by replace (b =? 0) with false by lia; replace (b <? 128) with true by lia. Qed.

Lemma fits_ascii b : 0 < b < 128 -> fits 8 b.
Proof. unfold fits. lia. Qed.

Lemma string_chars_registers s : ascii_text s -> string_chars (string_registers s) = s.
Proof.
  revert s. fix IH 1. intros [|a [|b s]] Hs; [done| |]; repeat (apply list.Forall_cons in Hs as [? Hs]); unfold string_chars in *; cbn [string_registers fmap list_fmap mjoin list_join].
  - rewrite reg_hi_of, reg_lo_of by done. rewrite push_ascii by done. done.
  - rewrite reg_hi_of, reg_lo_of, !push_ascii by (done || by apply fits_ascii). cbn. do 2 f_equal. by apply IH.
Qed.

Lemma trim_ascii s : ascii_text s -> trim_nuls s = s.
Proof.
  intros Hs. unfold trim_nuls. destruct (rev s) as [|b l] eqn:E; cbn [drop_nuls].
  - by rewrite <-(rev_involutive s), E.
  - assert (0 < b < 128). { apply (Forall_elem Hs). apply list_elem_of_In, in_rev. rewrite E. by left. } replace (b =? 0) with false by lia. by rewrite <-E, rev_involutive.
Qed.

Lemma string_registers_fits s : Forall (fits 8) s -> Forall (fits 16) (string_registers s).
Proof.
  revert s. fix IH 1. intros [|a [|b s]] Hs; [constructor| |]; repeat (apply list.Forall_cons in Hs as [? Hs]); cbn.
  - constructor; [|constructor]. by apply reg_of_fits.
  - constructor; [by apply reg_of_fits|]. by apply IH.
Qed.

(** ** The codec *)

(** What is read back from the registers a value was written to. *)
Definition read_back (format : DataFormat) (value : PointValue) : option PointValue :=
  match format with
  | FBool => PvBool <$> value_as_bool value
  | FFloat32 =>
      x ← value_as_f64 value;
      let single := f32_of_f64 x in
      if f32_is_finite single then Some (PvFloat (f64_of_f32 single)) else None
  | FFloat64 => PvFloat <$> value_as_f64 value
  | FString => PvString <$> value_as_string value
  | _ => PvInteger <$> value_as_i64 value
  end.

Definition written (format : DataFormat) (value : PointValue) (order : ByteOrder) (regs : list Z) : Prop :=
  (format <> FString -> Z.of_nat (length regs) = register_count format) /\ Forall (fits 16) regs /\
  ((format = FString -> forall s, value_as_string value = Some s -> ascii_text s) -> decode_registers regs format order None = ok_or InvalidData (read_back format value)).

Lemma written_32 format value order z : format = FUInt32 \/ format = FInt32 \/ format = FFloat32 -> fits 32 z ->
  (forall r0 r1, from_be (reorder_bytes_32 r0 r1 order) = z -> decode_registers [r0; r1] format order None = ok_or InvalidData (read_back format value)) ->
  written format value order (reorder_to_registers_32 (to_be 4 z) order).
Proof.
  intros Hf Hz Hd. destruct (to_be_bytes 4 z) as [Hlen Hb]. destruct (reorder_written_32 _ order Hlen Hb) as (r0 & r1 & -> & H0 & H1 & Hr). split_and!.
  - intros _. by destruct Hf as [-> | [-> | ->]].
  - by each_of.
  - intros _. apply Hd. rewrite Hr. by apply from_to_be.
Qed.

Lemma written_64 format value order z : format = FUInt64 \/ format = FInt64 \/ format = FFloat64 -> fits 64 z ->
  (forall r0 r1 r2 r3, from_be (reorder_bytes_64 r0 r1 r2 r3 order) = z -> decode_registers [r0; r1; r2; r3] format order None = ok_or InvalidData (read_back format value)) ->
  written format value order (reorder_to_registers_64 (to_be 8 z) order).
Proof.
  intros Hf Hz Hd. destruct (to_be_bytes 8 z) as [Hlen Hb]. destruct (reorder_written_64 _ order Hlen Hb) as (r0 & r1 & r2 & r3 & -> & H & Hr). split_and!.
  - intros _. by destruct Hf as [-> | [-> | ->]].
  - done.
  - intros _. apply Hd. rewrite Hr. by apply from_to_be.
Qed.

Lemma encode_written value format order regs : value_fits value -> encode_registers value format order = Ok regs -> written format value order regs.
Proof.
  intros Hv He. destruct format; cbn [encode_registers] in He; apply obind_ok in He as (v & Hval & He); apply ok_or_ok in Hval.
  - injection He as <-. split_and!; [done|by each_of; destruct v|]. intros _. cbn. rewrite Hval. by destruct v.
  - apply obind_ok in He as ([] & Hr%ensure_ok%in_range_iff & [= <-]). split_and!; [done|each_of; unfold fits; lia|]. intros _. cbn. by rewrite Hval.
  - apply obind_ok in He as ([] & Hr%ensure_ok%in_range_iff & [= <-]). split_and!; [done|each_of; by apply wrap_fits|]. intros _. cbn. rewrite Hval. cbn. by rewrite signed_wrap by lia.
  - apply obind_ok in He as ([] & Hr%ensure_ok%in_range_iff & [= <-]). apply written_32; [by left|unfold fits; lia|]. intros r0 r1 Hz. cbn. by rewrite Hval, Hz.
  - apply obind_ok in He as ([] & Hr%ensure_ok%in_range_iff & [= <-]). apply written_32; [by right; left|by apply wrap_fits|]. intros r0 r1 Hz. cbn. rewrite Hval, Hz. cbn. by rewrite signed_wrap by lia.
  - injection He as <-. apply written_64; [by left|by apply wrap_fits|]. intros r0 r1 r2 r3 Hz. cbn. rewrite Hval, Hz. cbn.
    pose proof (value_i64_range _ _ Hv Hval). by rewrite signed_wrap by lia.
  - injection He as <-. apply written_64; [by right; left|by apply wrap_fits|]. intros r0 r1 r2 r3 Hz. cbn. rewrite Hval, Hz. cbn.
    pose proof (value_i64_range _ _ Hv Hval). by rewrite signed_wrap by lia.
  - apply obind_ok in He as ([] & Hr%ensure_ok & [= <-]). apply written_32; [by right; right|apply to_bits32_fits|]. intros r0 r1 Hz. cbn. rewrite Hval, Hz. cbn. by destruct (f32_is_finite _).
  - apply obind_ok in He as ([] & Hr%ensure_ok & [= <-]). apply written_64; [by right; right|by eapply value_f64_fits|]. intros r0 r1 r2 r3 Hz. cbn. by rewrite Hval, Hz, Hr.
  - injection He as <-. destruct value as [| | |s| |]; try done. injection Hval as <-. split_and!; [done|by apply string_registers_fits|]. intros Ht. specialize (Ht eq_refl s eq_refl). cbn.
    by rewrite string_chars_registers, trim_ascii.
Qed.

(** Formats whose registers carry nothing but the value. *)
Definition lossless (format : DataFormat) : bool := match format with FBool | FFloat32 | FString => false | _ => true end.

Lemma bytes_read_32 r0 r1 order : fits 16 r0 -> fits 16 r1 ->
  let z := from_be (reorder_bytes_32 r0 r1 order) in fits 32 z /\ reorder_to_registers_32 (to_be 4 z) order = [r0; r1].
Proof.
  intros H0 H1 z. destruct (reorder_read_32 r0 r1 order H0 H1) as (Hlen & Hb & Hr). pose proof (from_be_fits _ Hb) as Hz. rewrite Hlen in Hz. split; [exact Hz|].
  unfold z. pose proof (to_from_be _ Hb) as Ht. rewrite Hlen in Ht. by rewrite Ht.
Qed.

Lemma bytes_read_64 r0 r1 r2 r3 order : Forall (fits 16) [r0; r1; r2; r3] ->
  let z := from_be (reorder_bytes_64 r0 r1 r2 r3 order) in fits 64 z /\ reorder_to_registers_64 (to_be 8 z) order = [r0; r1; r2; r3].
Proof.
  intros H z. destruct (reorder_read_64 r0 r1 r2 r3 order H) as (Hlen & Hb & Hr). pose proof (from_be_fits _ Hb) as Hz. rewrite Hlen in Hz. split; [exact Hz|].
  unfold z. pose proof (to_from_be _ Hb) as Ht. rewrite Hlen in Ht. by rewrite Ht.
Qed.

Lemma decode_reencodes regs format order bit v : lossless format = true -> Forall (fits 16) regs -> Z.of_nat (length regs) = register_count format ->
  decode_registers regs format order bit = Ok v -> encode_registers v format order = Ok regs.
Proof.
  intros Hlo Hf Hlen Hd. destruct format; try done; cbn [register_count] in Hlen;
    destruct regs as [|r0 [|r1 [|r2 [|r3 [|r4 regs]]]]]; cbn [length] in Hlen; try lia; cbn [decode_registers] in Hd.
  - injection Hd as <-. apply list.Forall_cons in Hf as [Hr _]. cbn. replace (in_range _ _ _) with true; [done|]. symmetry. apply in_range_iff. unfold fits in Hr. lia.
  - injection Hd as <-. apply list.Forall_cons in Hf as [Hr _]. destruct (wrap_signed 16 r0 ltac:(lia) Hr) as [Hw Hs]. cbn [encode_registers value_as_i64 ok_or obind].
    replace (in_range _ _ _) with true; [cbn; by rewrite Hw|]. symmetry. apply in_range_iff. lia.
  - injection Hd as <-. destruct (bytes_read_32 r0 r1 order) as [Hz Hb]; [by repeat (apply list.Forall_cons in Hf as [? Hf])..|].
    cbn -[from_be reorder_bytes_32 to_be]. replace (in_range _ _ _) with true; [by cbn -[from_be reorder_bytes_32 to_be]; rewrite Hb|]. symmetry. apply in_range_iff. unfold fits in Hz. lia.
  - injection Hd as <-. destruct (bytes_read_32 r0 r1 order) as [Hz Hb]; [by repeat (apply list.Forall_cons in Hf as [? Hf])..|]. destruct (wrap_signed 32 _ ltac:(lia) Hz) as [Hw Hs].
    cbn -[from_be reorder_bytes_32 to_be wrap signed]. replace (in_range _ _ _) with true; [by cbn -[from_be reorder_bytes_32 to_be wrap signed]; rewrite Hw, Hb|]. symmetry. apply in_range_iff. lia.
  - injection Hd as <-. destruct (bytes_read_64 r0 r1 r2 r3 order Hf) as [Hz Hb]. destruct (wrap_signed 64 _ ltac:(lia) Hz) as [Hw Hs]. cbn -[from_be reorder_bytes_64 to_be wrap signed]. by rewrite Hw, Hb.
  - injection Hd as <-. destruct (bytes_read_64 r0 r1 r2 r3 order Hf) as [Hz Hb]. destruct (wrap_signed 64 _ ltac:(lia) Hz) as [Hw Hs]. cbn -[from_be reorder_bytes_64 to_be wrap signed]. by rewrite Hw, Hb.
  - destruct (bytes_read_64 r0 r1 r2 r3 order Hf) as [Hz Hb]. destruct (f64_is_finite _) eqn:Hfin; [|done]. injection Hd as <-. cbn -[from_be reorder_bytes_64 to_be f64_is_finite]. by rewrite Hfin; cbn -[from_be reorder_bytes_64 to_be]; rewrite Hb.
Qed.

(** The register codec: for every format and byte order, what is encoded takes
    the number of registers of its format, each of 16 bits, and decodes to the value
    written: an integer or a double exactly, a float as the nearest single or as
    invalid data when there is none, a string if it is ASCII; and registers that
    decode in an integer or double format are encoded to themselves again. *)
Lemma registers_roundtrip format order :
  (forall value regs, value_fits value -> encode_registers value format order = Ok regs ->
    (format <> FString -> Z.of_nat (length regs) = register_count format) /\ Forall (fits 16) regs /\
    ((format = FString -> forall s, value_as_string value = Some s -> ascii_text s) -> decode_registers regs format order None = ok_or InvalidData (read_back format value))) /\
  (forall regs bit v, lossless format = true -> Forall (fits 16) regs -> Z.of_nat (length regs) = register_count format ->
    decode_registers regs format order bit = Ok v -> encode_registers v format order = Ok regs).
Proof. split; [intros; by eapply encode_written|intros; by eapply decode_reencodes]. Qed.

(** A finite double without a nearest single is written as an infinity, which no
    reader accepts. *)
Example overflow_written : f64_is_finite 0x4841DA48D1F2FFFF = true /\ encode_registers (PvFloat 0x4841DA48D1F2FFFF) FFloat32 Abcd = Ok [0x7F80; 0] /\
  decode_registers [0x7F80; 0] FFloat32 Abcd None = Err InvalidData.
Proof. vm_compute. done. Qed.

(** A NaN written to an integer register is a zero. *)
Example nan_written_as_zero : encode_registers (PvFloat F64_NAN) FUInt16 Abcd = Ok [0].
Proof. reflexivity. Qed.

(** An unsigned 64-bit counter above [2^63] reads as a negative number. *)
Example large_counter_negative : decode_registers [0x8000; 0; 0; 0] FUInt64 Abcd None = Ok (PvInteger (- 2 ^ 63)).
Proof. reflexivity. Qed.
