(* ===== verification/Modbus.v ===== *)
(** * The Modbus channel

    [services/io/src/protocols/adapters/{modbus,modbus_poll,command_batcher}.rs]
    with the points of [services/io/src/protocols/core/point.rs]: polling in
    segments of registers, control and adjustment writes, and batched writes. The
    answers of the device are inputs; the requests made are kept in order. *)

From S2P Require Import Prelude F64 Registers.
#[local] Open Scope Z_scope.

(** ** Points *)

Inductive PointType := PtTelemetry | PtSignal | PtControl | PtAdjustment.
#[export] Instance PointType_eq_dec : EqDecision PointType.
Proof. solve_decision. Defined.

Record ModbusAddress := mkModbusAddress { ma_slave_id : Z; ma_function_code : Z; ma_register : Z; ma_format : DataFormat; ma_byte_order : ByteOrder; ma_bit_position : option Z }.

(** Addresses of other protocols are all treated alike. *)
Inductive ProtocolAddress := AddrModbus (a : ModbusAddress) | AddrOther.

Record TransformConfig := mkTransform { tr_scale : Z; tr_offset : Z; tr_reverse : bool; tr_deadband : option Z; tr_min_value : option Z; tr_max_value : option Z }.

(** The derived [Default]. *)
Definition transform_default : TransformConfig := mkTransform 0 0 false None None None.
Definition transform_linear (scale offset : Z) : TransformConfig := mkTransform scale offset false None None None.
(** [SignalPoint::transform] and [ControlPoint::transform]. *)
Definition transform_digital (reverse : bool) : TransformConfig := mkTransform (tr_scale transform_default) (tr_offset transform_default) reverse None None None.

Definition transform_apply (t : TransformConfig) (raw : Z) : Z := to_bits (f64_add (f64_mul (of_bits raw) (of_bits (tr_scale t))) (of_bits (tr_offset t))).
Definition reverse_apply (t : TransformConfig) (value : Z) : outcome GatewayError Z :=
  if f64_eqb (of_bits (tr_scale t)) f64_zero then Err DataConversion
  else Ok (to_bits (f64_div (f64_sub (of_bits value) (of_bits (tr_offset t))) (of_bits (tr_scale t)))).
Definition apply_bool (t : TransformConfig) (raw : bool) : bool := if tr_reverse t then negb raw else raw.

Record PointConfig := mkPointConfig { pc_id : Z; pc_point_type : PointType; pc_address : ProtocolAddress; pc_transform : TransformConfig }.

Definition modbus_of (p : PointConfig) : option ModbusAddress := match pc_address p with AddrModbus a => Some a | AddrOther => None end.

(** A point read: its quality is good and its time the gateway's. *)
Record DataPoint := mkDataPoint { dp_id : Z; dp_point_type : PointType; dp_value : PointValue }.

Definition apply_transform (v : PointValue) (t : TransformConfig) : PointValue :=
  match v with
  | PvFloat x => PvFloat (transform_apply t x)
  | PvInteger i => PvFloat (transform_apply t (f64_of_Z i))
  | PvBool b => PvBool (apply_bool t b)
  | other => other
  end.

Definition data_point (p : PointConfig) (v : PointValue) : DataPoint := mkDataPoint (pc_id p) (pc_point_type p) (apply_transform v (pc_transform p)).

(** ** Sorting by key

    [sort_by_key] keeps the order of equal keys. *)
Section Sort.
Context {A : Type} (key : A -> Z).
Fixpoint insert_by (x : A) (l : list A) : list A :=
  match l with [] => [x] | y :: l' => if key x <=? key y then x :: l else y :: insert_by x l' end.
Definition sort_by_key (l : list A) : list A := foldr insert_by [] l.
End Sort.

(** ** Requests *)

Inductive ModbusRequest :=
| Read01 (slave_id address quantity : Z)
| Read02 (slave_id address quantity : Z)
| Read03Batch (slave_id address quantity max_read_registers : Z)
| Read04Batch (slave_id address quantity max_read_registers : Z)
| Write05 (slave_id address : Z) (value : bool)
| Write06 (slave_id address value : Z)
| Write10 (slave_id address : Z) (values : list Z).

Inductive ModbusError := RequestFailed.

Record ModbusWorld := mkModbusWorld { mw_tick : nat; mw_log : list (ModbusRequest * bool) }.
Definition MM (A : Type) : Type := ST ModbusWorld ModbusError A.

(** [u16] arithmetic, checked in a debug build. *)
Definition add_u16 {E} (dbg : bool) (x y : Z) : outcome E Z := if x + y <? 2 ^ 16 then Ok (x + y) else if dbg then Panic else Ok (wrap 16 (x + y)).
Definition sub_u16 {E} (dbg : bool) (x y : Z) : outcome E Z := if y <=? x then Ok (x - y) else if dbg then Panic else Ok (wrap 16 (x - y)).

Section Modbus.
(** The build, and what the device answers to a request at a tick. *)
Context (dbg : bool).
Context (bits_of : nat -> ModbusRequest -> option (list bool)).
Context (regs_of : nat -> ModbusRequest -> option (list Z)).
Context (acked : nat -> ModbusRequest -> bool).

Definition request {A} (answer : nat -> ModbusRequest -> option A) (r : ModbusRequest) : MM A := fun w =>
  let a := answer (mw_tick w) r in
  (mkModbusWorld (S (mw_tick w)) (mw_log w ++ [(r, bool_decide (is_Some a))]), ok_or RequestFailed a).
Definition read_bits (r : ModbusRequest) : MM (list bool) := request bits_of r.
Definition read_regs (r : ModbusRequest) : MM (list Z) := request regs_of r.
Definition write_request (r : ModbusRequest) : MM unit := request (fun t r => if acked t r then Some tt else None) r.

(** An error is an answer to the caller. *)
Definition try {A} (m : MM A) : MM (option A) := fun w => match m w with (w, Ok a) => (w, Ok (Some a)) | (w, Err _) => (w, Ok None) | (w, Panic) => (w, Panic) end.

(** ** Polling *)

Fixpoint read_coils_individually (points : list PointConfig) (slave_id function_code : Z) : MM (list (Z * DataPoint)) :=
  match points with
  | [] => st_ret []
  | p :: points =>
      match modbus_of p with
      | None => read_coils_individually points slave_id function_code
      | Some a =>
          let coil (r : ModbusRequest) :=
            let! answer := try (read_bits r) in
            let! rest := read_coils_individually points slave_id function_code in
            st_ret match answer with
                   | Some coils => (pc_id p, data_point p (PvBool (default false (head coils)))) :: rest
                   | None => rest
                   end in
          if function_code =? 1 then coil (Read01 slave_id (ma_register a) 1)
          else if function_code =? 2 then coil (Read02 slave_id (ma_register a) 1)
          else read_coils_individually points slave_id function_code
      end
  end.

Record RegisterSegment := mkSegment { rs_start : Z; rs_end : Z; rs_points : list (Z * Z * PointConfig) }.

(** One round of the loop, on the finished segments and the current one. *)
Definition segment_step (max_gap max_batch_size : Z) (state : list RegisterSegment * option RegisterSegment) (x : Z * Z * PointConfig)
    : outcome ModbusError (list RegisterSegment * option RegisterSegment) :=
  let '(segments, current) := state in
  let '(addr, count, _) := x in
  let? stop := add_u16 dbg addr count in
  match current with
  | None => Ok (segments, Some (mkSegment addr stop [x]))
  | Some seg =>
      let gap := saturating_sub addr (rs_end seg) in
      let new_total := saturating_sub stop (rs_start seg) in
      if (gap <=? max_gap) && (new_total <=? max_batch_size) then Ok (segments, Some (mkSegment (rs_start seg) stop (rs_points seg ++ [x])))
      else Ok (segments ++ [seg], Some (mkSegment addr stop [x]))
  end.

Fixpoint build_segments (max_gap max_batch_size : Z) (sorted_points : list (Z * Z * PointConfig)) (state : list RegisterSegment * option RegisterSegment)
    : outcome ModbusError (list RegisterSegment) :=
  match sorted_points with
  | [] => Ok (state.1 ++ match state.2 with Some seg => [seg] | None => [] end)
  | x :: l => let? state := segment_step max_gap max_batch_size state x in build_segments max_gap max_batch_size l state
  end.
Definition build_register_segments (sorted_points : list (Z * Z * PointConfig)) (max_gap max_batch_size : Z) : outcome ModbusError (list RegisterSegment) :=
  build_segments max_gap max_batch_size sorted_points ([], None).

(** The points of a segment, decoded from the registers read. *)
Fixpoint decode_points (registers : list Z) (start : Z) (points : list (Z * Z * PointConfig)) : outcome ModbusError (list (Z * DataPoint)) :=
  match points with
  | [] => Ok []
  | (addr, count, p) :: points =>
      let? offset := sub_u16 dbg addr start in
      let? rest := decode_points registers start points in
      Ok match slice (Z.to_nat offset) (Z.to_nat count) registers, modbus_of p with
         | Some point_regs, Some a =>
             match decode_registers point_regs (ma_format a) (ma_byte_order a) (ma_bit_position a) with
             | Ok value => (pc_id p, data_point p value) :: rest
             | _ => rest
             end
         | _, _ => rest
         end
  end.

Definition read_register_segment (slave_id function_code : Z) (segment : RegisterSegment) (max_batch_size : Z) : MM (list (Z * DataPoint)) :=
  let! total_registers := st_lift (sub_u16 dbg (rs_end segment) (rs_start segment)) in
  let finish (r : ModbusRequest) :=
    let! registers := read_regs r in
    st_lift (decode_points registers (rs_start segment) (rs_points segment)) in
  if function_code =? 3 then finish (Read03Batch slave_id (rs_start segment) total_registers max_batch_size)
  else if function_code =? 4 then finish (Read04Batch slave_id (rs_start segment) total_registers max_batch_size)
  else st_ret [].

Fixpoint read_segments (slave_id function_code max_batch_size : Z) (segments : list RegisterSegment) : MM (list (Z * DataPoint)) :=
  match segments with
  | [] => st_ret []
  | s :: segments =>
      let! results := try (read_register_segment slave_id function_code s max_batch_size) in
      let! rest := read_segments slave_id function_code max_batch_size segments in
      st_ret (default [] results ++ rest)
  end.

Definition register_points (points : list PointConfig) : list (Z * Z * PointConfig) :=
  omap (fun p => (fun a => (ma_register a, register_count (ma_format a), p)) <$> modbus_of p) points.

Definition read_registers_batched (points : list PointConfig) (slave_id function_code max_batch_size max_gap : Z) : MM (list (Z * DataPoint)) :=
  match register_points points with
  | [] => st_ret []
  | sorted_points =>
      let! segments := st_lift (build_register_segments sorted_points max_gap max_batch_size) in
      read_segments slave_id function_code max_batch_size segments
  end.

Definition read_point_group (points : list PointConfig) (max_batch_size max_gap : Z) : MM (list (Z * DataPoint)) :=
  match points with
  | [] => st_ret []
  | p :: _ =>
      match modbus_of p with
      | None => st_ret []
      | Some a =>
          if (ma_function_code a =? 1) || (ma_function_code a =? 2) then read_coils_individually points (ma_slave_id a) (ma_function_code a)
          else read_registers_batched points (ma_slave_id a) (ma_function_code a) max_batch_size max_gap
      end
  end.

(** ** Writing *)

Inductive WriteFailure := PointNotFound | InvalidAddressType | UnsupportedFunctionCode | ZeroScale | NonNumeric | EncodeFailed | RequestRefused | MergeAborted.

Record WriteResult := mkWriteResult { wr_success_count : nat; wr_failures : list (Z * WriteFailure) }.

Definition encode_value (value : Z) (format : DataFormat) (byte_order : ByteOrder) : outcome GatewayError (list Z) := encode_registers (PvFloat value) format byte_order.

(** FC06 for one register, FC16 for several. *)
Definition write_registers_request (slave_id address : Z) (regs : list Z) : ModbusRequest :=
  match regs with [r] => Write06 slave_id address r | _ => Write10 slave_id address regs end.

Definition write_value (slave_id address value : Z) (format : DataFormat) (byte_order : ByteOrder) : MM (option WriteFailure) :=
  match encode_value value format byte_order with
  | Ok regs => let! done := try (write_request (write_registers_request slave_id address regs)) in st_ret (match done with Some _ => None | None => Some RequestRefused end)
  | Err _ => st_ret (Some EncodeFailed)
  | Panic => st_lift Panic
  end.

Definition write_single_value (a : ModbusAddress) (raw_value : Z) : MM (option WriteFailure) :=
  write_value (ma_slave_id a) (ma_register a) raw_value (ma_format a) (ma_byte_order a).

Definition tally (id : Z) (outcome : option WriteFailure) (rest : WriteResult) : WriteResult :=
  match outcome with
  | None => mkWriteResult (S (wr_success_count rest)) (wr_failures rest)
  | Some e => mkWriteResult (wr_success_count rest) ((id, e) :: wr_failures rest)
  end.

Definition find_point (points : list PointConfig) (id : Z) (t : PointType) : option PointConfig := List.find (fun p => (pc_id p =? id) && bool_decide (pc_point_type p = t)) points.

Definition control_one (points : list PointConfig) (id : Z) (value : bool) : MM (option WriteFailure) :=
  match find_point points id PtControl with
  | None => st_ret (Some PointNotFound)
  | Some p =>
      match modbus_of p with
      | None => st_ret (Some InvalidAddressType)
      | Some a =>
          let value := apply_bool (pc_transform p) value in
          let send r := let! done := try (write_request r) in st_ret (match done with Some _ => None | None => Some RequestRefused end) in
          let reg : Z := if value then 1 else 0 in
          if ma_function_code a =? 5 then send (Write05 (ma_slave_id a) (ma_register a) value)
          else if ma_function_code a =? 6 then send (Write06 (ma_slave_id a) (ma_register a) reg)
          else if ma_function_code a =? 16 then send (Write10 (ma_slave_id a) (ma_register a) [reg])
          else st_ret (Some UnsupportedFunctionCode)
      end
  end.

Definition adjust_one (points : list PointConfig) (id value : Z) : MM (option WriteFailure) :=
  match find_point points id PtAdjustment with
  | None => st_ret (Some PointNotFound)
  | Some p =>
      match modbus_of p with
      | None => st_ret (Some InvalidAddressType)
      | Some a =>
          match reverse_apply (pc_transform p) value with
          | Ok raw => write_single_value a raw
          | Err _ => st_ret (Some ZeroScale)
          | Panic => st_lift Panic
          end
      end
  end.

Fixpoint write_each {C} (one : C -> MM (option WriteFailure)) (id : C -> Z) (commands : list C) : MM WriteResult :=
  match commands with
  | [] => st_ret (mkWriteResult 0 [])
  | c :: commands =>
      let! outcome := one c in
      let! rest := write_each one id commands in
      st_ret (tally (id c) outcome rest)
  end.

(** ** Batched writes *)

Record BatchCommand := mkBatchCommand {
  bc_point_id : Z; bc_value : PointValue; bc_slave_id : Z; bc_function_code : Z; bc_register_address : Z; bc_data_format : DataFormat; bc_byte_order : ByteOrder
}.

Definition BATCH_WINDOW_MS : Z := 20.
Definition MAX_BATCH_SIZE : nat := 100.

Record CommandBatcher := mkBatcher { cb_pending_commands : gmap (Z * Z) (list BatchCommand); cb_last_batch_time : Z; cb_total_pending : nat }.

Definition batcher_new (now : Z) : CommandBatcher := mkBatcher ∅ now 0.
Definition should_execute (now : Z) (b : CommandBatcher) : bool := (BATCH_WINDOW_MS <=? now - cb_last_batch_time b) || (MAX_BATCH_SIZE <=? cb_total_pending b)%nat.
Definition take_commands (now : Z) (b : CommandBatcher) : CommandBatcher * gmap (Z * Z) (list BatchCommand) := (mkBatcher ∅ now 0, cb_pending_commands b).
Definition batch_key (c : BatchCommand) : Z * Z := (bc_slave_id c, bc_function_code c).
Definition add_command (c : BatchCommand) (b : CommandBatcher) : CommandBatcher :=
  mkBatcher (<[batch_key c := default [] (cb_pending_commands b !! batch_key c) ++ [c]]> (cb_pending_commands b)) (cb_last_batch_time b) (S (cb_total_pending b)).

(** Each command starts where the one before it ends. *)
Fixpoint consecutive_from (expected : Z) (commands : list BatchCommand) : outcome ModbusError bool :=
  match commands with
  | [] => Ok true
  | c :: commands =>
      if bc_register_address c =? expected then
        let? next := add_u16 dbg expected (register_count (bc_data_format c)) in
        consecutive_from next commands
      else Ok false
  end.

Definition by_register (commands : list BatchCommand) : list BatchCommand := sort_by_key bc_register_address commands.

Definition are_strictly_consecutive (commands : list BatchCommand) : outcome ModbusError bool :=
  if (length commands <? 2)%nat then Ok false
  else match by_register commands with [] => Ok false | (c :: _) as sorted => consecutive_from (bc_register_address c) sorted end.

Definition write_single_command (c : BatchCommand) : MM (option WriteFailure) :=
  match value_as_f64 (bc_value c) with
  | None => st_ret (Some NonNumeric)
  | Some raw => write_value (bc_slave_id c) (bc_register_address c) raw (bc_data_format c) (bc_byte_order c)
  end.

(** The registers of a command, if it can be written. *)
Definition command_registers (c : BatchCommand) : option (list Z) :=
  raw ← value_as_f64 (bc_value c);
  match encode_value raw (bc_data_format c) (bc_byte_order c) with Ok regs => Some regs | _ => None end.

Fixpoint merge_registers (commands : list BatchCommand) : option (list Z) :=
  match commands with
  | [] => Some []
  | c :: commands => regs ← command_registers c; rest ← merge_registers commands; Some (regs ++ rest)
  end.

Definition all_failed (e : WriteFailure) (commands : list BatchCommand) : WriteResult := mkWriteResult 0 ((fun c => (bc_point_id c, e)) <$> commands).

(** One request for all commands; a value that cannot be encoded aborts the merge. *)
Definition execute_merged_fc16 (slave_id : Z) (commands : list BatchCommand) : MM WriteResult :=
  match by_register commands with
  | [] => st_lift Panic
  | (c :: _) as sorted =>
      match merge_registers sorted with
      | None => st_ret (all_failed MergeAborted sorted)
      | Some [] => st_ret (mkWriteResult 0 [])
      | Some registers =>
          let! _ := write_request (Write10 slave_id (bc_register_address c) registers) in
          st_ret (mkWriteResult (length commands) [])
      end
  end.

Definition merge_results (a b : WriteResult) : WriteResult := mkWriteResult (wr_success_count a + wr_success_count b) (wr_failures a ++ wr_failures b).

Definition execute_group (group : Z * Z * list BatchCommand) : MM WriteResult :=
  let '(slave_id, fc, commands) := group in
  let! consecutive := if (fc =? 16) && (1 <? length commands)%nat then st_lift (are_strictly_consecutive commands) else st_ret false in
  if consecutive : bool then
    let! merged := try (execute_merged_fc16 slave_id commands) in
    st_ret (default (all_failed RequestRefused commands) merged)
  else write_each write_single_command bc_point_id commands.

Fixpoint execute_groups (groups : list (Z * Z * list BatchCommand)) : MM WriteResult :=
  match groups with
  | [] => st_ret (mkWriteResult 0 [])
  | g :: groups =>
      let! a := execute_group g in
      let! b := execute_groups groups in
      st_ret (merge_results a b)
  end.
(** ** The channel *)

Inductive ConnectionState := Disconnected | Connecting | Connected | ConnError.

Record ModbusChannel := mkModbusChannel {
  ch_points : list PointConfig; ch_max_batch_size : Z; ch_max_gap : Z; ch_client : bool; ch_state : ConnectionState; ch_batcher : CommandBatcher;
  ch_read_count : Z; ch_write_count : Z; ch_error_count : Z
}.

Record ChannelWorld := mkChannelWorld { cw_channel : ModbusChannel; cw_bus : ModbusWorld }.
Definition CM (A : Type) : Type := ST ChannelWorld GatewayError A.

Definition on_bus {A} (m : MM A) : CM A := fun cw => let (w, r) := m (cw_bus cw) in (mkChannelWorld (cw_channel cw) w, map_err (fun _ => ConnectionFailed) r).
Definition with_channel (f : ModbusChannel -> ModbusChannel) : CM unit := st_modify (fun cw => mkChannelWorld (f (cw_channel cw)) (cw_bus cw)).

Definition set_link (client : bool) (state : ConnectionState) (c : ModbusChannel) : ModbusChannel :=
  mkModbusChannel (ch_points c) (ch_max_batch_size c) (ch_max_gap c) client state (ch_batcher c) (ch_read_count c) (ch_write_count c) (ch_error_count c).
Definition set_batcher (b : CommandBatcher) (c : ModbusChannel) : ModbusChannel :=
  mkModbusChannel (ch_points c) (ch_max_batch_size c) (ch_max_gap c) (ch_client c) (ch_state c) b (ch_read_count c) (ch_write_count c) (ch_error_count c).
Definition count_io (reads writes errors : nat) (c : ModbusChannel) : ModbusChannel :=
  mkModbusChannel (ch_points c) (ch_max_batch_size c) (ch_max_gap c) (ch_client c) (ch_state c) (ch_batcher c) (wrap 64 (ch_read_count c + Z.of_nat reads))
    (wrap 64 (ch_write_count c + Z.of_nat writes)) (wrap 64 (ch_error_count c + Z.of_nat errors)).

(** A question to the environment. *)
Definition tick : CM nat := fun cw => (mkChannelWorld (cw_channel cw) (mkModbusWorld (S (mw_tick (cw_bus cw))) (mw_log (cw_bus cw))), Ok (mw_tick (cw_bus cw))).

(** Points by slave and function code, each group by register. *)
Definition group_point (groups : gmap (Z * Z) (list PointConfig)) (p : PointConfig) : gmap (Z * Z) (list PointConfig) :=
  match modbus_of p with
  | Some a => let key := (ma_slave_id a, ma_function_code a) in <[key := default [] (groups !! key) ++ [p]]> groups
  | None => groups
  end.
Definition point_register (p : PointConfig) : Z := match modbus_of p with Some a => ma_register a | None => 2 ^ 16 - 1 end.
Definition grouped_points (points : list PointConfig) : gmap (Z * Z) (list PointConfig) := sort_by_key point_register <$> foldl group_point ∅ points.

Record PollResult := mkPollResult { pr_data : list DataPoint; pr_failures : list Z }.

Section Channel.
(** Hash maps are walked in some order; the clock and the transport answer. *)
Context (walk_points : gmap (Z * Z) (list PointConfig) -> list (Z * Z * list PointConfig)).
Context (walk_commands : gmap (Z * Z) (list BatchCommand) -> list (Z * Z * list BatchCommand)).
Context (clock : nat -> Z) (connects : nat -> bool).

Definition connect : CM unit :=
  let! _ := with_channel (fun c => set_link (ch_client c) Connecting c) in
  let! t := tick in
  if connects t then with_channel (set_link true Connected)
  else let! _ := with_channel (fun c => count_io 0 0 1 (set_link (ch_client c) ConnError c)) in st_fail ConnectionFailed.

Definition disconnect : CM unit := with_channel (set_link false Disconnected).

Fixpoint poll_groups (max_batch_size max_gap : Z) (groups : list (Z * Z * list PointConfig)) : MM (list DataPoint * list Z * nat) :=
  match groups with
  | [] => st_ret ([], [], 0%nat)
  | (_, points) :: groups =>
      let! results := read_point_group points max_batch_size max_gap in
      let! rest := poll_groups max_batch_size max_gap groups in
      let '(data, failures, errors) := rest in
      let silent := match results, points with [], _ :: _ => true | _, _ => false end in
      st_ret ((snd <$> results) ++ data, (if silent then pc_id <$> points else []) ++ failures, if silent then S errors else errors)
  end.

Definition poll_once : CM PollResult :=
  let! cw := st_get in
  let c := cw_channel cw in
  if ch_client c then
    let! polled := on_bus (poll_groups (ch_max_batch_size c) (ch_max_gap c) (walk_points (grouped_points (ch_points c)))) in
    let '(data, failures, errors) := polled in
    let! _ := with_channel (count_io (length data) 0 errors) in
    st_ret (mkPollResult data failures)
  else st_ret (mkPollResult [] (pc_id <$> ch_points c)).

Definition finish_write (m : MM WriteResult) : CM WriteResult :=
  let! result := on_bus m in
  let! _ := with_channel (count_io 0 (wr_success_count result) (length (wr_failures result))) in
  st_ret result.

Definition write_control (commands : list (Z * bool)) : CM WriteResult :=
  let! cw := st_get in
  if ch_client (cw_channel cw) then finish_write (write_each (fun c => control_one (ch_points (cw_channel cw)) c.1 c.2) fst commands) else st_fail NotConnected.

Definition write_adjustment (adjustments : list (Z * Z)) : CM WriteResult :=
  let! cw := st_get in
  if ch_client (cw_channel cw) then finish_write (write_each (fun c => adjust_one (ch_points (cw_channel cw)) c.1 c.2) fst adjustments) else st_fail NotConnected.

Definition enqueue_command (command : BatchCommand) : CM unit := with_channel (fun c => set_batcher (add_command command (ch_batcher c)) c).

Definition execute_batched_commands : CM WriteResult :=
  let! t := tick in
  let! cw := st_get in
  let (batcher, batches) := take_commands (clock t) (ch_batcher (cw_channel cw)) in
  let! _ := with_channel (set_batcher batcher) in
  if bool_decide (batches = ∅) then st_ret (mkWriteResult 0 [])
  else if ch_client (cw_channel cw) then finish_write (execute_groups (walk_commands batches)) else st_fail NotConnected.
End Channel.
End Modbus.
