(* ===== verification/ModbusPolls.v ===== *)
(** * What a Modbus poll reports

    Segments cover their points, a value reported is read from the point's own
    registers, and every point that can be read is reported. *)

From stdpp Require Import sorting.
From S2P Require Import Prelude F64 Registers Modbus.
#[local] Open Scope Z_scope.

(** ** Sorting *)

Section Sort.
Context {A : Type} (key : A -> Z).
Notation le := (fun x y => key x <= key y).

Lemma insert_by_perm x l : insert_by key x l ≡ₚ x :: l.
Proof. induction l as [|y l IH]; [done|]. cbn. destruct (key x <=? key y); [done|]. rewrite IH. apply perm_swap. Qed.

Lemma sort_by_key_perm l : sort_by_key key l ≡ₚ l.
Proof. induction l as [|x l IH]; [done|]. cbn. rewrite insert_by_perm. by apply Permutation_cons. Qed.

Lemma insert_by_sorted x l : StronglySorted le l -> StronglySorted le (insert_by key x l).
Proof.
  induction 1 as [|y l Hl IH Hy]; [repeat constructor|]. cbn. destruct (Z.leb_spec (key x) (key y)).
  - constructor; [by constructor|]. constructor; [done|]. eapply list.Forall_impl; [exact Hy|]. cbn. lia.
  - constructor; [done|]. rewrite insert_by_perm. constructor; [lia|done].
Qed.

Lemma sort_by_key_sorted l : StronglySorted le (sort_by_key key l).
Proof. induction l as [|x l IH]; [constructor|]. by apply insert_by_sorted. Qed.
End Sort.

(** ** Segments *)

Definition sp_addr (x : Z * Z * PointConfig) : Z := x.1.1.
Definition sp_count (x : Z * Z * PointConfig) : Z := x.1.2.
Definition sp_stop (x : Z * Z * PointConfig) : Z := sp_addr x + sp_count x.

(** The registers of a point lie below the last address. *)
Definition in_space (x : Z * Z * PointConfig) : Prop := 0 <= sp_addr x /\ 0 < sp_count x /\ sp_stop x < 2 ^ 16.

(** What a segment is: its points start in it, and it ends with its last point. *)
Definition segment_ok (max_batch_size : Z) (s : RegisterSegment) : Prop :=
  0 <= rs_start s < rs_end s /\ rs_end s < 2 ^ 16 /\ Forall (fun x => rs_start s <= sp_addr x) (rs_points s) /\
  (exists l x, rs_points s = l ++ [x] /\ rs_end s = sp_stop x) /\ (rs_end s - rs_start s <= max_batch_size \/ length (rs_points s) = 1%nat).

Lemma add_u16_ok {E} dbg x y : x + y < 2 ^ 16 -> @add_u16 E dbg x y = Ok (x + y).
Proof. intros H. unfold add_u16. by replace (x + y <? 2 ^ 16) with true by lia. Qed.

Lemma sub_u16_ok {E} dbg x y : y <= x -> @sub_u16 E dbg x y = Ok (x - y).
Proof. intros H. unfold sub_u16. by replace (y <=? x) with true by lia. Qed.

Section Segments.
Context (dbg : bool) (max_gap max_batch_size : Z).

Definition state_points (state : list RegisterSegment * option RegisterSegment) : list (Z * Z * PointConfig) :=
  mjoin (rs_points <$> state.1) ++ match state.2 with Some s => rs_points s | None => [] end.
Definition state_ok (state : list RegisterSegment * option RegisterSegment) : Prop :=
  Forall (segment_ok max_batch_size) state.1 /\ match state.2 with Some s => segment_ok max_batch_size s | None => True end.

Lemma single_segment x : in_space x -> segment_ok max_batch_size (mkSegment (sp_addr x) (sp_stop x) [x]).
Proof.
  intros (H1 & H2 & H3). unfold sp_stop in *. split_and!; cbn; try lia; [each_of; lia|exists [], x; split; [done|]; unfold sp_stop; lia].
Qed.

Lemma segment_step_ok state x : in_space x -> state_ok state -> Forall (fun y => sp_addr y <= sp_addr x) (state_points state) ->
  exists state', segment_step dbg max_gap max_batch_size state x = Ok state' /\ state_ok state' /\ state_points state' = state_points state ++ [x].
Proof.
  destruct state as [segs cur], x as [[addr count] p]. intros Hx [Hs Hc] Hle. pose proof (single_segment _ Hx) as H1. destruct Hx as (Ha & Hn & Hstop). unfold sp_stop, sp_addr, sp_count in *. cbn in *.
  rewrite add_u16_ok by lia. cbn. destruct cur as [seg|].
  - unfold state_points in *. cbn in *. destruct ((_ <=? max_gap) && _) eqn:E.
    + eexists. split; [done|]. split; [split; [done|]|cbn; by rewrite app_assoc]. cbn. apply andb_prop in E as [_ Ht]. unfold saturating_sub in Ht. destruct Hc as (H2 & H3 & H4 & H5 & H6).
      assert (rs_start seg <= addr). { destruct H5 as (l & y & Hl & _). apply Forall_app in Hle as [_ Hle]. rewrite Hl in Hle, H4. apply Forall_app in Hle as [_ [Hy _]%list.Forall_cons], H4 as [_ [Hy' _]%list.Forall_cons]. unfold sp_addr in *. lia. }
      split_and!; cbn; try lia; [|exists (rs_points seg), (addr, count, p); by split; [|unfold sp_stop, sp_addr, sp_count; cbn]].
      apply Forall_app. split; [done|]. each_of. cbn. lia.
    + eexists. split; [done|]. split; [split; [by apply Forall_app; split; [|each_of]|done]|]. cbn. rewrite fmap_app, join_app. cbn. by rewrite app_nil_r.
  - eexists. split; [done|]. split; [by split|]. unfold state_points. cbn. by rewrite app_nil_r.
Qed.

Lemma build_segments_ok l state : Forall in_space l -> StronglySorted (fun x y => sp_addr x <= sp_addr y) (state_points state ++ l) -> state_ok state ->
  exists segs, build_segments dbg max_gap max_batch_size l state = Ok segs /\ Forall (segment_ok max_batch_size) segs /\ mjoin (rs_points <$> segs) = state_points state ++ l.
Proof.
  revert state. induction l as [|x l IH]; intros state Hl Hsort Hok; cbn [build_segments].
  - eexists. split; [done|]. destruct Hok as [Hs Hc]. destruct state as [segs [cur|]]; cbn in *.
    + split; [by apply Forall_app; split; [|each_of]|]. unfold state_points. rewrite fmap_app, join_app. cbn. by rewrite !app_nil_r.
    + unfold state_points. cbn. by rewrite !app_nil_r.
  - apply list.Forall_cons in Hl as [Hx Hl]. destruct (segment_step_ok state x Hx Hok) as (state' & -> & Hok' & Hp).
    { apply StronglySorted_app in Hsort as (Hall & _ & _). apply list.Forall_forall. intros y Hy. apply Hall; [done|left]. }
    cbn [obind]. destruct (IH state' Hl) as (segs & H1 & H2 & H3); [by rewrite Hp, <-app_assoc|done|]. exists segs. split_and!; [done..|]. by rewrite H3, Hp, <-app_assoc.
Qed.
End Segments.

(** ** Devices *)

(** The registers and coils of a device, per slave and table, at a tick. *)
Record ModbusDevice := mkDevice { dv_register : nat -> Z -> Z -> Z -> Z; dv_coil : nat -> Z -> Z -> Z -> bool }.

Definition window (d : ModbusDevice) (t : nat) (slave fc addr : Z) (n : nat) : list Z := (fun i => dv_register d t slave fc (addr + Z.of_nat i)) <$> seq 0 n.

Lemma slice_window d t slave fc start addr count total : 0 <= count -> start <= addr -> addr + count <= start + total ->
  slice (Z.to_nat (addr - start)) (Z.to_nat count) (window d t slave fc start (Z.to_nat total)) = Some (window d t slave fc addr (Z.to_nat count)).
Proof.
  intros Hc Ha Ht. unfold slice, window. rewrite length_fmap, length_seq, bool_decide_eq_true_2 by lia. f_equal. rewrite <-fmap_drop, <-fmap_take.
  apply list_eq. intros i. rewrite !list_lookup_fmap. destruct (decide (i < Z.to_nat count)%nat) as [Hi | Hi].
  - rewrite lookup_take_lt, lookup_drop by lia. rewrite !lookup_seq_lt by lia. cbn. do 2 f_equal. lia.
  - rewrite lookup_take_ge by lia. rewrite lookup_seq_ge by lia. done.
Qed.

Lemma slice_window_inv d t slave fc start addr count total l : 0 <= count -> start <= addr -> 0 <= total ->
  slice (Z.to_nat (addr - start)) (Z.to_nat count) (window d t slave fc start (Z.to_nat total)) = Some l -> l = window d t slave fc addr (Z.to_nat count).
Proof.
  intros Hc Ha Ht H. assert (addr + count <= start + total). { unfold slice, window in H. rewrite length_fmap, length_seq in H. destruct (bool_decide _) eqn:E; [|done]. apply bool_decide_eq_true in E. lia. }
  rewrite slice_window in H by lia. by injection H.
Qed.

Section Polls.
Context (dbg : bool) (bits_of : nat -> ModbusRequest -> option (list bool)) (regs_of : nat -> ModbusRequest -> option (list Z)).
Context (d : ModbusDevice).

(** The device answers with what it holds, or not at all. *)
Definition faithful : Prop := forall t s a q m l b,
  (regs_of t (Read03Batch s a q m) = Some l -> l = window d t s 3 a (Z.to_nat q)) /\
  (regs_of t (Read04Batch s a q m) = Some l -> l = window d t s 4 a (Z.to_nat q)) /\
  (bits_of t (Read01 s a 1) = Some b -> b = [dv_coil d t s 1 a]) /\
  (bits_of t (Read02 s a 1) = Some b -> b = [dv_coil d t s 2 a]).

Definition reliable : Prop := forall t r, is_Some (regs_of t r) /\ is_Some (bits_of t r).

(** The value of a point at a tick. *)
Definition value_at (t : nat) (p : PointConfig) (v : PointValue) : Prop :=
  match modbus_of p with
  | None => False
  | Some a =>
      if (ma_function_code a =? 1) || (ma_function_code a =? 2) then v = PvBool (dv_coil d t (ma_slave_id a) (ma_function_code a) (ma_register a))
      else (ma_function_code a = 3 \/ ma_function_code a = 4) /\
        decode_registers (window d t (ma_slave_id a) (ma_function_code a) (ma_register a) (Z.to_nat (register_count (ma_format a)))) (ma_format a) (ma_byte_order a) (ma_bit_position a) = Ok v
  end.

Definition from_registers (points : list PointConfig) (r : Z * DataPoint) : Prop := exists p t v, p ∈ points /\ value_at t p v /\ r = (pc_id p, data_point p v).
Definition readable (p : PointConfig) : Prop := forall t, exists v, value_at t p v.
Definition covers (results : list (Z * DataPoint)) (p : PointConfig) : Prop := exists t v, value_at t p v /\ (pc_id p, data_point p v) ∈ results.

Definition group_of (slave fc : Z) (p : PointConfig) : Prop := exists a, modbus_of p = Some a /\ ma_slave_id a = slave /\ ma_function_code a = fc.

(** The outcome of a read of some points: sound, and complete under a condition if
    no request fails. *)
Definition reads (full : Prop) (points : list PointConfig) (results : list (Z * DataPoint)) (_ : ModbusWorld) : Prop :=
  Forall (from_registers points) results /\ (reliable -> full -> Forall (fun p => readable p -> covers results p) points).
Definition unreliable (_ : ModbusError) (_ : ModbusWorld) : Prop := ~ reliable.

Lemma try_spec {A} P (m : MM A) Q : etriple P m Q (fun e w => unreliable e w) -> etriple P (try m) (fun o w => match o with Some a => Q a w | None => ~ reliable end) (fun _ _ => False).
Proof. intros H w Hw. specialize (H w Hw). unfold try. destruct (m w) as [w' [a|e|]]; [done|exact H|done]. Qed.

Lemma from_registers_mono points points' r : (forall p, p ∈ points -> p ∈ points') -> from_registers points r -> from_registers points' r.
Proof. intros Hp (p & t & v & Hin & H). exists p, t, v. split; [by apply Hp|done]. Qed.

Lemma covers_mono results results' p : (forall r, r ∈ results -> r ∈ results') -> covers results p -> covers results' p.
Proof. intros Hr (t & v & Hv & Hin). exists t, v. split; [done|by apply Hr]. Qed.

Lemma reads_app full ps qs rs ss w : reads full ps rs w -> reads full qs ss w -> reads full (ps ++ qs) (rs ++ ss) w.
Proof.
  intros [H1 H2] [H3 H4]. split.
  - apply Forall_app. split; (eapply list.Forall_impl; [first [exact H1|exact H3]|]); intros r; apply from_registers_mono; intros p Hp; apply elem_of_app; [by left|by right].
  - intros Hr Hf. specialize (H2 Hr Hf). specialize (H4 Hr Hf). apply Forall_app. split.
    + eapply list.Forall_impl; [exact H2|]. intros p Hp Hrd. eapply covers_mono; [|by apply Hp]. intros r Hin. apply elem_of_app. by left.
    + eapply list.Forall_impl; [exact H4|]. intros p Hp Hrd. eapply covers_mono; [|by apply Hp]. intros r Hin. apply elem_of_app. by right.
Qed.

Lemma reads_failed full ps w : ~ reliable -> reads full ps [] w.
Proof. intros Hr. split; [constructor|]. by intros Hr'. Qed.

(** *** Coils *)

Lemma read_bits_spec r : etriple (fun _ => True) (read_bits bits_of r) (fun l _ => exists t, bits_of t r = Some l) unreliable.
Proof.
  intros w _. unfold read_bits, request. destruct (bits_of (mw_tick w) r) as [l|] eqn:E; cbn; [by exists (mw_tick w)|]. intros Hr. destruct (Hr (mw_tick w) r) as [_ [l Hl]]. congruence.
Qed.

Lemma read_regs_spec r : etriple (fun _ => True) (read_regs regs_of r) (fun l _ => exists t, regs_of t r = Some l) unreliable.
Proof.
  intros w _. unfold read_regs, request. destruct (regs_of (mw_tick w) r) as [l|] eqn:E; cbn; [by exists (mw_tick w)|]. intros Hr. destruct (Hr (mw_tick w) r) as [[l Hl] _]. congruence.
Qed.

Lemma etriple_const {A} (p : Prop) (m : MM A) Q R : (p -> etriple (fun _ => True) m Q R) -> etriple (fun _ => p) m Q R.
Proof. intros H w Hp. by apply H. Qed.

Lemma reads_one full p t v : value_at t p v -> reads full [p] [(pc_id p, data_point p v)] (mkModbusWorld 0 []).
Proof. intros Hv. split; each_of; [exists p, t, v; split; [left|done]|]. intros _ _. each_of. intros _. exists t, v. split; [done|left]. Qed.

Lemma coils_spec full points slave fc : faithful -> fc = 1 \/ fc = 2 -> Forall (group_of slave fc) points ->
  etriple (fun _ => True) (read_coils_individually bits_of points slave fc) (reads full points) (fun _ _ => False).
Proof.
  intros Hfaith Hfc. induction points as [|p points IH]; intros Hg; cbn [read_coils_individually].
  { apply etriple_ret. intros w _. split; [constructor|]. intros _ _. constructor. }
  apply list.Forall_cons in Hg as [(a & Ha & Hs & Hc) Hg]. rewrite Ha. specialize (IH Hg).
  assert (forall r, (forall t l, bits_of t r = Some l -> l = [dv_coil d t slave fc (ma_register a)]) ->
    etriple (fun _ => True) (let! answer := try (read_bits bits_of r) in let! rest := read_coils_individually bits_of points slave fc in
      st_ret match answer with Some coils => (pc_id p, data_point p (PvBool (default false (head coils)))) :: rest | None => rest end) (reads full (p :: points)) (fun _ _ => False)) as H.
  - intros r Hr. eapply etriple_bind; [apply try_spec, read_bits_spec|]. intros answer. cbn beta.
    assert (forall w, match answer with Some l => exists t, bits_of t r = Some l | None => ~ reliable end ->
      reads full [p] match answer with Some coils => [(pc_id p, data_point p (PvBool (default false (head coils))))] | None => [] end w) as H1.
    { intros w. destruct answer as [l|]; [|apply reads_failed]. intros (t & ->%Hr). apply (reads_one full p t). unfold value_at. rewrite Ha, Hs, Hc. by replace ((fc =? 1) || (fc =? 2)) with true by lia. }
    apply (etriple_const (match answer with Some l => exists t, bits_of t r = Some l | None => ~ reliable end)). intros Hans.
    eapply etriple_bind; [exact IH|]. intros rest. cbn beta. apply etriple_ret. intros w Hw. specialize (H1 w Hans). destruct answer; by apply (reads_app full [p] points _ rest w H1 Hw).
  - pose proof (fun t s a q m l b => Hfaith t s a q m l b) as Hf. destruct Hfc as [-> | ->]; cbn; apply H; intros t l Hl; by eapply (Hf t slave (ma_register a) 0 0 [] l).
Qed.
(** *** Registers *)

(** A point of a group with its place. *)
Definition placed (slave fc : Z) (x : Z * Z * PointConfig) : Prop :=
  exists a, modbus_of x.2 = Some a /\ ma_slave_id a = slave /\ ma_function_code a = fc /\ sp_addr x = ma_register a /\ sp_count x = register_count (ma_format a).

Lemma decode_points_ok (full : Prop) t slave fc start total points w : fc = 3 \/ fc = 4 -> 0 <= total -> Forall (placed slave fc) points -> Forall (fun x => start <= sp_addr x) points ->
  (full -> Forall (fun x => sp_stop x <= start + total) points) ->
  exists rs, decode_points dbg (window d t slave fc start (Z.to_nat total)) start points = Ok rs /\ reads full (snd <$> points) rs w.
Proof.
  intros Hfc Ht. induction points as [|[[addr count] p] points IH]; intros Hp Hs Hf; cbn [decode_points].
  { eexists. split; [done|]. split; [constructor|]. intros _ _. constructor. }
  apply list.Forall_cons in Hp as [(a & Ha & Hsl & Hc & Hr & Hn) Hp], Hs as [Hs Hss]. unfold sp_stop, sp_addr, sp_count in *. cbn [fst snd] in *. rewrite sub_u16_ok by done. cbn [obind].
  destruct IH as (rest & -> & Hrest); [done..| |]; [intros Hfull; specialize (Hf Hfull); by apply list.Forall_cons in Hf as [_ ?]|]. cbn [obind]. rewrite Ha. rewrite fmap_cons. cbn [snd].
  assert (0 <= count) by (rewrite Hn; by destruct (ma_format a)).
  assert (forall v, value_at t p v <-> decode_registers (window d t slave fc addr (Z.to_nat count)) (ma_format a) (ma_byte_order a) (ma_bit_position a) = Ok v) as Hval.
  { intros v. unfold value_at. rewrite Ha, Hsl, Hc, Hr, Hn. replace ((fc =? 1) || (fc =? 2)) with false by lia. naive_solver. }
  assert (forall rs, reads full [p] rs w -> reads full (p :: (snd <$> points)) (rs ++ rest) w) as Hcons by (intros rs Hrs; by apply (reads_app full [p])).
  destruct (slice _ _ _) as [l|] eqn:Hsl'.
  - apply slice_window_inv in Hsl' as ->; [|done..]. destruct (decode_registers _ _ _ _) as [v|e|] eqn:Hd; eexists; (split; [done|]).
    + apply (Hcons [_]). by apply (reads_one full p t), Hval.
    + apply (Hcons []). split; [constructor|]. intros _ _. each_of. intros Hread. destruct (Hread t) as [v Hv%Hval]. congruence.
    + apply (Hcons []). split; [constructor|]. intros _ _. each_of. intros Hread. destruct (Hread t) as [v Hv%Hval]. congruence.
  - eexists. split; [done|]. apply (Hcons []). split; [constructor|]. intros _ Hfull. specialize (Hf Hfull). apply list.Forall_cons in Hf as [Hf _]. cbn [fst snd] in Hf. by rewrite slice_window in Hsl' by lia.
Qed.

Lemma segment_spec full slave fc max s : faithful -> segment_ok max s -> Forall (placed slave fc) (rs_points s) -> fc <> 1 -> fc <> 2 -> (full -> Forall (fun x => sp_stop x <= rs_end s) (rs_points s)) ->
  etriple (fun _ => True) (read_register_segment dbg regs_of slave fc s max) (reads full (snd <$> rs_points s)) unreliable.
Proof.
  intros Hfaith (H1 & H2 & H3 & _ & _) Hp Hf1 Hf2 Hf. unfold read_register_segment. rewrite sub_u16_ok by lia.
  assert (fc = 3 \/ fc = 4 -> forall r, (forall t l, regs_of t r = Some l -> l = window d t slave fc (rs_start s) (Z.to_nat (rs_end s - rs_start s))) ->
    etriple (fun _ => True) (let! registers := read_regs regs_of r in st_lift (decode_points dbg registers (rs_start s) (rs_points s))) (reads full (snd <$> rs_points s)) unreliable) as H.
  { intros Hfc r Hr. eapply etriple_bind; [apply read_regs_spec|]. intros registers. cbn beta. intros w (t & ->%Hr).
    destruct (decode_points_ok full t slave fc (rs_start s) (rs_end s - rs_start s) (rs_points s) w) as (rs & Hd & Hrs); try done; [lia|intros Hfull; eapply list.Forall_impl; [by apply Hf|]; cbn; lia|].
    unfold st_lift. by rewrite Hd. }
  eapply etriple_bind; [apply (etriple_lift (fun _ => True) _ (fun q _ => q = rs_end s - rs_start s)); [by intros q w [= <-]|done|done]|]. intros total. cbn beta. apply etriple_const. intros ->.
  destruct (Z.eqb_spec fc 3) as [-> | H3']; [|destruct (Z.eqb_spec fc 4) as [-> | H4']]; [apply H; [by left|]; intros t l Hl; by eapply (Hfaith t slave (rs_start s) _ max l [])|
    apply H; [by right|]; intros t l Hl; by eapply (Hfaith t slave (rs_start s) _ max l [])|].
  apply etriple_ret. intros w _. split; [constructor|]. intros _ _. apply Forall_fmap. eapply list.Forall_impl; [exact Hp|]. intros x (a & Ha & _ & Hc & _) Hread. destruct (Hread 0%nat) as [v Hv].
  unfold value_at in Hv. rewrite Ha, Hc in Hv. replace ((fc =? 1) || (fc =? 2)) with false in Hv by lia. lia.
Qed.

Lemma read_segments_spec full slave fc max segs : faithful -> Forall (segment_ok max) segs -> Forall (placed slave fc) (mjoin (rs_points <$> segs)) -> fc <> 1 -> fc <> 2 ->
  (full -> Forall (fun s => Forall (fun x => sp_stop x <= rs_end s) (rs_points s)) segs) ->
  etriple (fun _ => True) (read_segments dbg regs_of slave fc max segs) (reads full (snd <$> mjoin (rs_points <$> segs))) (fun _ _ => False).
Proof.
  intros Hfaith Hok Hp Hf1 Hf2. induction segs as [|s segs IH]; intros Hf; cbn [read_segments].
  { apply etriple_ret. intros w _. split; [constructor|]. intros _ _. constructor. }
  apply list.Forall_cons in Hok as [Hs Hok]. cbn in Hp. apply Forall_app in Hp as [Hps Hp].
  eapply etriple_bind; [apply try_spec, (segment_spec full slave fc max s); try done; intros Hfull; by apply Hf, list.Forall_cons in Hfull as [? _]|]. intros results. cbn beta. intros w Hres.
  eassert (etriple (fun _ => True) (read_segments dbg regs_of slave fc max segs) _ (fun _ _ => False)) as IH' by (apply IH; try done; intros Hfull; by apply Hf, list.Forall_cons in Hfull as [_ ?]).
  specialize (IH' w I). unfold st_bind, st_ret. destruct (read_segments _ _ _ _ _ segs w) as [w' [rest|e|]]; [|done..]. rewrite fmap_cons. cbn [mjoin list_join]. rewrite fmap_app.
  apply reads_app; [|exact IH']. destruct results as [rs|]; [exact Hres|by apply reads_failed].
Qed.
(** *** Groups *)

(** No point ends behind one that starts after it. *)
Definition no_straddle (points : list PointConfig) : Prop := forall p q a b, p ∈ points -> q ∈ points -> modbus_of p = Some a -> modbus_of q = Some b ->
  ma_register a <= ma_register b -> ma_register a + register_count (ma_format a) <= ma_register b + register_count (ma_format b).

Definition registers_in_space (p : PointConfig) : Prop := forall a, modbus_of p = Some a -> 0 <= ma_register a /\ ma_register a + register_count (ma_format a) < 2 ^ 16.

Lemma register_points_placed slave fc points : Forall (group_of slave fc) points ->
  Forall (placed slave fc) (register_points points) /\ snd <$> register_points points = points /\ sp_addr <$> register_points points = point_register <$> points.
Proof.
  unfold register_points. induction 1 as [|p points (a & Ha & Hs & Hc) _ (IH1 & IH2 & IH3)]; [done|]. cbn [omap list_omap]. rewrite Ha. cbn [fmap option_fmap option_map]. rewrite !fmap_cons, IH2, IH3. split_and!.
  - constructor; [|done]. by exists a.
  - done.
  - f_equal. unfold point_register. by rewrite Ha.
Qed.

Lemma sorted_fmap {A B} (R : B -> B -> Prop) (f : A -> B) l : StronglySorted R (f <$> l) <-> StronglySorted (fun x y => R (f x) (f y)) l.
Proof.
  induction l as [|x l IH]; [split; constructor|]. rewrite fmap_cons. split; intros [H2 H1]%StronglySorted_cons; constructor; try by apply IH.
  - exact (proj1 (Forall_fmap f (R (f x)) l) H2).
  - exact (proj2 (Forall_fmap f (R (f x)) l) H2).
Qed.

Lemma batched_spec points slave fc max gap : faithful -> Forall (group_of slave fc) points -> Forall registers_in_space points -> StronglySorted Z.le (point_register <$> points) ->
  fc <> 1 -> fc <> 2 -> etriple (fun _ => True) (read_registers_batched dbg regs_of points slave fc max gap) (reads (no_straddle points) points) (fun _ _ => False).
Proof.
  intros Hfaith Hg Hsp Hsort Hf1 Hf2. destruct (register_points_placed slave fc points Hg) as (Hp & Hsnd & Haddr). unfold read_registers_batched.
  assert (Forall in_space (register_points points)) as Hin.
  { apply list.Forall_forall. intros x Hx. apply (Forall_elem Hp) in Hx as Hpl. destruct Hpl as (a & Ha & _ & _ & Hr & Hn).
    assert (x.2 ∈ points) as Hx2 by (rewrite <-Hsnd; by apply list_elem_of_fmap_2). destruct (Forall_elem Hsp Hx2 a Ha). unfold in_space, sp_stop. rewrite Hr, Hn.
    split_and!; [done|by destruct (ma_format a)|done]. }
  rewrite <-Haddr in Hsort. apply (sorted_fmap Z.le sp_addr) in Hsort. destruct (register_points points) as [|x l] eqn:E.
  { apply etriple_ret. intros w _. rewrite <-Hsnd. split; [constructor|]. intros _ _. constructor. }
  destruct (build_segments_ok dbg gap max (x :: l) ([], None) Hin Hsort) as (segs & Hb & Hok & Hj); [by split|]. cbn in Hj. unfold build_register_segments. rewrite Hb.
  eapply etriple_bind; [apply (etriple_lift (fun _ => True) _ (fun q _ => q = segs)); [by intros q w [= <-]|done|done]|]. intros segs'. cbn beta. apply etriple_const. intros ->.
  eapply etriple_conseq; [apply (read_segments_spec (no_straddle points) slave fc max segs); try done|done| |done].
  - by rewrite Hj.
  - intros Hns. apply list.Forall_forall. intros s Hs. apply (Forall_elem Hok) in Hs as Hso. destruct Hso as (_ & _ & _ & (pre & last & Hpre & Hend) & _). apply list.Forall_forall. intros y Hy. rewrite Hend.
    assert (forall z, z ∈ rs_points s -> z ∈ x :: l) as Hsub. { intros z Hz. rewrite <-Hj. apply list_elem_of_join. exists (rs_points s). split; [done|]. by apply list_elem_of_fmap_2. }
    assert (sp_addr y <= sp_addr last) as Hle.
    { rewrite <-Hj in Hsort. apply list_elem_of_split in Hs as (s1 & s2 & ->). rewrite fmap_app, fmap_cons, join_app in Hsort. cbn in Hsort.
      apply StronglySorted_app in Hsort as (_ & _ & Hsort). apply StronglySorted_app in Hsort as (_ & Hsort & _). rewrite Hpre in Hsort, Hy. apply StronglySorted_app in Hsort as (Hall & _ & _).
      apply elem_of_app in Hy as [Hy | ->%list_elem_of_singleton]; [|lia]. apply Hall; [done|left]. }
    assert (last ∈ rs_points s) as Hlast by (rewrite Hpre; apply elem_of_app; right; left).
    destruct (Forall_elem Hp (Hsub y Hy)) as (a & Ha & _ & _ & Hr & Hn), (Forall_elem Hp (Hsub last Hlast)) as (b & Hb' & _ & _ & Hr' & Hn').
    unfold sp_stop. rewrite Hr, Hn, Hr', Hn'. apply (Hns y.2 last.2 a b); [|rewrite <-Hsnd..|done|done|lia].
    + rewrite <-Hsnd. by apply list_elem_of_fmap_2, Hsub.
    + by apply list_elem_of_fmap_2, Hsub.
  - intros rs w Hrs. by rewrite Hj, Hsnd in Hrs.
Qed.

Lemma group_spec points slave fc max gap : faithful -> points <> [] -> Forall (group_of slave fc) points -> Forall registers_in_space points -> StronglySorted Z.le (point_register <$> points) ->
  etriple (fun _ => True) (read_point_group dbg bits_of regs_of points max gap) (reads (no_straddle points) points) (fun _ _ => False).
Proof.
  intros Hfaith Hne Hg Hsp Hsort. unfold read_point_group. destruct points as [|p l]; [done|]. pose proof (Forall_elem Hg (list_elem_of_here p l)) as (a & Ha & <- & <-). rewrite Ha.
  destruct ((_ =? 1) || (_ =? 2)) eqn:E.
  - apply coils_spec; [done|lia|done].
  - apply batched_spec; (done || lia).
Qed.
End Polls.
