(* ===== verification/ModbusRuns.v ===== *)
(** * The Modbus channel, run

    What a poll of a channel reports, and what its writes do to the registers of a
    device. *)

From stdpp Require Import sorting.
From S2P Require Import Prelude F64 Registers Modbus ModbusPolls.
#[local] Open Scope Z_scope.

(** ** Groups *)

Definition key_of (p : PointConfig) : option (Z * Z) := (fun a => (ma_slave_id a, ma_function_code a)) <$> modbus_of p.
Definition group_points (k : Z * Z) (points : list PointConfig) : list PointConfig := filter (fun p => key_of p = Some k) points.

Lemma group_lookup points m k : default [] (foldl group_point m points !! k) = default [] (m !! k) ++ group_points k points.
Proof.
  revert m. induction points as [|p points IH]; intros m; cbn [foldl]; [by rewrite app_nil_r|]. rewrite IH. unfold group_points. rewrite list.filter_cons. unfold group_point, key_of.
  destruct (modbus_of p) as [a|]; cbn [fmap option_fmap option_map]; [|by rewrite decide_False]. destruct (decide (Some (ma_slave_id a, ma_function_code a) = Some k)) as [[= <-] | Hne].
  - rewrite lookup_insert_eq. cbn. by rewrite <-app_assoc.
  - by rewrite lookup_insert_ne by congruence.
Qed.

Lemma group_nonempty points m : (forall k, m !! k <> Some []) -> forall k, foldl group_point m points !! k <> Some [].
Proof.
  revert m. induction points as [|p points IH]; intros m Hm; [done|]. apply IH. intros k. unfold group_point. destruct (modbus_of p) as [a|]; [|done].
  destruct (decide ((ma_slave_id a, ma_function_code a) = k)) as [<- | Hne]; [rewrite lookup_insert_eq; intros [= H]; by destruct (default [] _)|by rewrite lookup_insert_ne].
Qed.

Lemma grouped_lookup points k l : grouped_points points !! k = Some l -> l <> [] /\ l ≡ₚ group_points k points /\ StronglySorted Z.le (point_register <$> l).
Proof.
  unfold grouped_points. rewrite lookup_fmap. destruct (foldl group_point ∅ points !! k) as [l'|] eqn:E; [|done]. intros [= <-].
  pose proof (group_lookup points ∅ k) as H. rewrite E, lookup_empty in H. cbn in H. subst l'. split_and!.
  - intros Hn. pose proof (sort_by_key_perm point_register (group_points k points)) as Hp. rewrite Hn in Hp. apply Permutation_nil_l in Hp. rewrite <-Hp in E. by apply (group_nonempty points ∅) in E.
  - apply sort_by_key_perm.
  - apply (sorted_fmap Z.le point_register). apply sort_by_key_sorted.
Qed.

Lemma grouped_complete points p k : p ∈ points -> key_of p = Some k -> exists l, grouped_points points !! k = Some l /\ p ∈ l.
Proof.
  intros Hp Hk. pose proof (group_lookup points ∅ k) as H. rewrite lookup_empty in H. cbn in H. unfold grouped_points.
  assert (p ∈ group_points k points) as Hin by by apply list_elem_of_filter. rewrite lookup_fmap. destruct (foldl group_point ∅ points !! k) as [l|].
  - exists (sort_by_key point_register l). split; [done|]. rewrite sort_by_key_perm. cbn in H. by subst l.
  - cbn in H. rewrite <-H in Hin. by apply elem_of_nil in Hin.
Qed.

Lemma group_points_group k points : Forall (group_of k.1 k.2) (group_points k points).
Proof.
  apply list.Forall_forall. intros p [Hk _]%list_elem_of_filter. unfold key_of in Hk. destruct (modbus_of p) as [a|] eqn:Ha; [|done]. injection Hk as <-. by exists a.
Qed.

Lemma no_straddle_perm l l' : l ≡ₚ l' -> no_straddle l' -> no_straddle l.
Proof. intros Hp Hn p q a b H1 H2. apply (Hn p q a b); by rewrite <-Hp. Qed.

(** ** Polls *)

Section Polls.
Context (dbg : bool) (bits_of : nat -> ModbusRequest -> option (list bool)) (regs_of : nat -> ModbusRequest -> option (list Z)) (d : ModbusDevice).
Notation reliable := (reliable bits_of regs_of).

Definition sound_point (points : list PointConfig) (dp : DataPoint) : Prop := exists p t v, p ∈ points /\ value_at d t p v /\ dp = data_point p v.
Definition has_point (data : list DataPoint) (p : PointConfig) : Prop := exists t v, value_at d t p v /\ data_point p v ∈ data.

Definition group_ok (points : list PointConfig) (g : Z * Z * list PointConfig) : Prop :=
  g.2 <> [] /\ g.2 ≡ₚ group_points g.1 points /\ StronglySorted Z.le (point_register <$> g.2).

Definition polled (points : list PointConfig) (groups : list (Z * Z * list PointConfig)) (x : list DataPoint * list Z * nat) : Prop :=
  Forall (sound_point points) x.1.1 /\ Forall (fun id => id ∈ pc_id <$> points) x.1.2 /\
  (reliable -> Forall (fun g => no_straddle g.2 -> Forall (fun p => readable d p -> has_point x.1.1 p) g.2) groups).

Lemma poll_groups_spec points max gap groups : faithful bits_of regs_of d -> Forall registers_in_space points -> Forall (group_ok points) groups ->
  etriple (fun _ => True) (poll_groups dbg bits_of regs_of max gap groups) (fun x _ => polled points groups x) (fun _ _ => False).
Proof.
  intros Hfaith Hsp. induction groups as [|[k l] groups IH]; intros Hg; cbn [poll_groups].
  { apply etriple_ret. intros w _. split_and!; [constructor..|]. intros _. constructor. }
  apply list.Forall_cons in Hg as [(Hne & Hperm & Hsort) Hg]. cbn [fst snd] in *. specialize (IH Hg).
  assert (forall p, p ∈ l -> p ∈ points) as Hsub by (intros p; rewrite Hperm; by intros [_ ?]%list_elem_of_filter).
  eapply etriple_bind; [apply (group_spec dbg bits_of regs_of d l k.1 k.2 max gap); [done|done|rewrite Hperm; apply group_points_group| |done]; apply list.Forall_forall; intros p Hp; apply (Forall_elem Hsp), Hsub, Hp|].
  intros results. cbn beta. intros w [Hs Hc]. specialize (IH w I). unfold st_bind, st_ret. destruct (poll_groups _ _ _ _ _ groups w) as [w' [[[data failures] errors]|e|]]; [|done..].
  destruct IH as (H1 & H2 & H3). cbn [fst snd] in *. split_and!; cbn [fst snd].
  - apply Forall_app. split; [|done]. apply Forall_fmap. eapply list.Forall_impl; [exact Hs|]. intros r (p & t & v & Hin & Hv & ->). exists p, t, v. split; [by apply Hsub|done].
  - apply Forall_app. split; [|done]. assert (Forall (fun id => id ∈ pc_id <$> points) (pc_id <$> l)) as Hl; [|destruct results; [destruct l|]; [constructor|exact Hl|constructor]].
    apply list.Forall_forall. intros id (p & -> & Hp)%list_elem_of_fmap. by apply list_elem_of_fmap_2, Hsub.
  - intros Hr. constructor.
    + cbn [snd]. intros Hns. eapply list.Forall_impl; [by apply Hc|]. intros p Hp Hrd. destruct (Hp Hrd) as (t & v & Hv & Hin). exists t, v. split; [done|]. apply elem_of_app. left. apply list_elem_of_fmap. by exists (pc_id p, data_point p v).
    + eapply list.Forall_impl; [by apply H3|]. intros g Hg' Hns. eapply list.Forall_impl; [by apply Hg'|]. intros p Hp Hrd. destruct (Hp Hrd) as (t & v & Hv & Hin). exists t, v. split; [done|]. apply elem_of_app. by right.
Qed.
End Polls.


(** ** Writes *)

(** One write: at most one request, and its answer is the outcome. *)
Definition one_write (allowed : ModbusRequest -> Prop) (m : MM (option WriteFailure)) : Prop := forall w w' r, m w = (w', r) ->
  exists e, r = Ok e /\ ((mw_log w' = mw_log w /\ is_Some e) \/ exists req, allowed req /\ mw_log w' = mw_log w ++ [(req, bool_decide (e = None))]).

Definition acknowledged (entries : list (ModbusRequest * bool)) : nat := length (filter (fun x => x.2 = true) entries).

Lemma write_each_spec {C} (one : C -> MM (option WriteFailure)) id (allowed : C -> ModbusRequest -> Prop) commands w w' r :
  (forall c, one_write (allowed c) (one c)) -> write_each one id commands w = (w', r) ->
  exists res entries, r = Ok res /\ mw_log w' = mw_log w ++ entries /\ (wr_success_count res + length (wr_failures res) = length commands)%nat /\ wr_success_count res = acknowledged entries /\
    Forall (fun x => exists c, c ∈ commands /\ allowed c x.1) entries.
Proof.
  intros Hone. revert w w' r. induction commands as [|c commands IH]; intros w w' r; cbn [write_each].
  { intros [= <- <-]. exists (mkWriteResult 0 []), []. rewrite app_nil_r. split_and!; [done..|constructor]. }
  unfold st_bind, st_ret. destruct (one c w) as [w1 r1] eqn:E. destruct (Hone c w w1 r1 E) as (e & -> & He).
  destruct (write_each one id commands w1) as [w2 r2] eqn:E2. destruct (IH w1 w2 r2 E2) as (res & entries & -> & Hlog & Hcount & Hack & Hall). intros [= <- <-].
  assert (Forall (fun x : ModbusRequest * bool => exists c', c' ∈ c :: commands /\ allowed c' x.1) entries) as Hall'.
  { eapply list.Forall_impl; [exact Hall|]. intros x (c' & Hc' & Hx). exists c'. split; [by right|done]. }
  destruct He as [[Hw Hs] | (req & Hreq & Hw)].
  - exists (tally (id c) e res), entries. rewrite Hlog, Hw. destruct Hs as [f ->]. cbn. split_and!; [done..|lia|done|done].
  - exists (tally (id c) e res), ((req, bool_decide (e = None)) :: entries). rewrite Hlog, Hw, <-app_assoc. unfold acknowledged in *. rewrite list.filter_cons.
    split_and!; [done..| | |constructor; [exists c; split; [left|done]|done]].
    + destruct e; cbn; lia.
    + destruct e as [f|]; cbn; [exact Hack|by rewrite Hack].
Qed.

Lemma encode_no_panic v format order : encode_registers v format order <> Panic.
Proof.
  assert (forall A (o : option A), ok_or InvalidData o <> Panic) as Ho by by intros A [].
  destruct format; cbn [encode_registers]; (apply obind_not_panic; [apply Ho|intros x]); try done; (apply obind_not_panic; [apply ensure_not_panic|done]).
Qed.

Section Writes.
Context (acked : nat -> ModbusRequest -> bool).

Lemma sent_one (allowed : ModbusRequest -> Prop) r : allowed r ->
  one_write allowed (let! done := try (write_request acked r) in st_ret (match done with Some _ => None | None => Some RequestRefused end)).
Proof.
  intros Hr w w' res. unfold st_bind, try, write_request, request. destruct (acked (mw_tick w) r) eqn:E; cbn; intros [= <- <-]; cbn; eexists; (split; [done|]); right; exists r; by split.
Qed.

Lemma write_value_one (allowed : ModbusRequest -> Prop) slave addr value format order :
  (forall regs, encode_value value format order = Ok regs -> allowed (write_registers_request slave addr regs)) -> one_write allowed (write_value acked slave addr value format order).
Proof.
  intros Ha. unfold write_value. destruct (encode_value value format order) as [regs|e|] eqn:E.
  - by apply sent_one, Ha.
  - intros w w' r [= <- <-]. eexists. split; [done|]. left. split; [done|by eexists].
  - by apply encode_no_panic in E.
Qed.

(** What an adjustment of a point may write: the raw value of the setpoint, encoded
    for the registers of the point. *)
Definition adjusts (points : list PointConfig) (adj : Z * Z) (r : ModbusRequest) : Prop :=
  exists p a raw regs, p ∈ points /\ pc_id p = adj.1 /\ pc_point_type p = PtAdjustment /\ modbus_of p = Some a /\ reverse_apply (pc_transform p) adj.2 = Ok raw /\
    encode_value raw (ma_format a) (ma_byte_order a) = Ok regs /\ r = write_registers_request (ma_slave_id a) (ma_register a) regs.

Definition controls (points : list PointConfig) (cmd : Z * bool) (r : ModbusRequest) : Prop :=
  exists p a, p ∈ points /\ pc_id p = cmd.1 /\ pc_point_type p = PtControl /\ modbus_of p = Some a /\
    let on := apply_bool (pc_transform p) cmd.2 in
    let reg : Z := if on then 1 else 0 in
    (ma_function_code a = 5 /\ r = Write05 (ma_slave_id a) (ma_register a) on) \/
    (ma_function_code a = 6 /\ r = Write06 (ma_slave_id a) (ma_register a) reg) \/
    (ma_function_code a = 16 /\ r = Write10 (ma_slave_id a) (ma_register a) [reg]).

Lemma find_point_spec points id t p : find_point points id t = Some p -> p ∈ points /\ pc_id p = id /\ pc_point_type p = t.
Proof. intros [Hin H]%List.find_some. apply list_elem_of_In in Hin. apply andb_prop in H as [H1%Z.eqb_eq H2%bool_decide_eq_true]. done. Qed.

Lemma failed_one allowed e : one_write allowed (st_ret (Some e)).
Proof. intros w w' r [= <- <-]. eexists. split; [done|]. left. split; [done|by eexists]. Qed.

Lemma adjust_one_spec points adj : one_write (adjusts points adj) (adjust_one acked points adj.1 adj.2).
Proof.
  unfold adjust_one. destruct (find_point _ _ _) as [p|] eqn:Hf; [|apply failed_one]. apply find_point_spec in Hf as (Hin & Hid & Ht). destruct (modbus_of p) as [a|] eqn:Ha; [|apply failed_one].
  destruct (reverse_apply _ _) as [raw|e|] eqn:Hr; [|apply failed_one|unfold reverse_apply in Hr; by destruct (f64_eqb _ _)].
  apply write_value_one. intros regs Hregs. by exists p, a, raw, regs.
Qed.

Lemma control_one_spec points cmd : one_write (controls points cmd) (control_one acked points cmd.1 cmd.2).
Proof.
  unfold control_one. destruct (find_point _ _ _) as [p|] eqn:Hf; [|apply failed_one]. apply find_point_spec in Hf as (Hin & Hid & Ht). destruct (modbus_of p) as [a|] eqn:Ha; [|apply failed_one]. cbn zeta.
  destruct (Z.eqb_spec (ma_function_code a) 5); [|destruct (Z.eqb_spec (ma_function_code a) 6); [|destruct (Z.eqb_spec (ma_function_code a) 16); [|apply failed_one]]];
    apply sent_one; exists p, a; (split_and!; [done..|]); cbn zeta; [by left|by right; left|by right; right].
Qed.
End Writes.

(** ** Effects of writes on the registers of a device *)

Notation RegisterFile := (gmap (Z * Z) Z).

Fixpoint put_registers (slave addr : Z) (values : list Z) (m : RegisterFile) : RegisterFile :=
  match values with [] => m | v :: values => put_registers slave (addr + 1) values (<[(slave, addr) := v]> m) end.

Definition write_effect (r : ModbusRequest) (m : RegisterFile) : RegisterFile :=
  match r with
  | Write06 slave addr v => <[(slave, addr) := v]> m
  | Write10 slave addr values => put_registers slave addr values m
  | _ => m
  end.

(** The requests that were acknowledged, in order. *)
Definition replay (log : list (ModbusRequest * bool)) (m : RegisterFile) : RegisterFile := foldl (fun m (x : ModbusRequest * bool) => if x.2 then write_effect x.1 m else m) m log.

Lemma put_registers_app slave addr xs ys m : put_registers slave addr (xs ++ ys) m = put_registers slave (addr + Z.of_nat (length xs)) ys (put_registers slave addr xs m).
Proof.
  revert addr m. induction xs as [|x xs IH]; intros addr m; cbn [app put_registers length]; [f_equal; lia|]. rewrite IH. f_equal. lia.
Qed.

Lemma put_registers_lookup slave addr xs m s a : put_registers slave addr xs m !! (s, a) =
  if decide (s = slave /\ addr <= a < addr + Z.of_nat (length xs)) then xs !! Z.to_nat (a - addr) else m !! (s, a).
Proof.
  revert addr m. induction xs as [|x xs IH]; intros addr m; cbn [put_registers length].
  { rewrite decide_False; [done|]. lia. }
  rewrite IH. destruct (decide (s = slave /\ addr + 1 <= a < addr + 1 + Z.of_nat (length xs))) as [H | H].
  - rewrite decide_True by lia. replace (Z.to_nat (a - addr)) with (S (Z.to_nat (a - (addr + 1)))) by lia. done.
  - destruct (decide ((slave, addr) = (s, a))) as [[= -> ->] | Hne].
    + rewrite lookup_insert_eq, decide_True by lia. by rewrite Z.sub_diag.
    + rewrite lookup_insert_ne by done. rewrite decide_False; [done|]. intros [-> Ha]. apply Hne. f_equal. lia.
Qed.

Lemma put_registers_comm s1 a1 xs s2 a2 ys m : s1 <> s2 \/ a1 + Z.of_nat (length xs) <= a2 \/ a2 + Z.of_nat (length ys) <= a1 ->
  put_registers s1 a1 xs (put_registers s2 a2 ys m) = put_registers s2 a2 ys (put_registers s1 a1 xs m).
Proof.
  intros Hd. apply map_eq. intros [s a]. rewrite !put_registers_lookup. repeat (case_decide; try done). lia.
Qed.

(** *** Commands *)

Lemma command_registers_length c regs : command_registers c = Some regs -> Z.of_nat (length regs) = register_count (bc_data_format c).
Proof.
  unfold command_registers. destruct (value_as_f64 (bc_value c)) as [raw|]; [|done]. cbn. destruct (encode_value raw _ _) as [l|e|] eqn:E; [|done..]. intros [= <-].
  assert (forall z, length (reorder_to_registers_32 (to_be 4 z) (bc_byte_order c)) = 2%nat) as H32.
  { intros z. destruct (to_be_bytes 4 z) as [H1 H2]. by destruct (reorder_written_32 _ (bc_byte_order c) H1 H2) as (? & ? & -> & _). }
  assert (forall z, length (reorder_to_registers_64 (to_be 8 z) (bc_byte_order c)) = 4%nat) as H64.
  { intros z. destruct (to_be_bytes 8 z) as [H1 H2]. by destruct (reorder_written_64 _ (bc_byte_order c) H1 H2) as (? & ? & ? & ? & -> & _). }
  unfold encode_value in E. destruct (bc_data_format c); cbn [encode_registers value_as_bool value_as_i64 value_as_f64 value_as_string ok_or obind] in E; try done;
    try (apply obind_ok in E as ([] & _ & E)); apply Ok_inj in E; rewrite <-E, ?H32, ?H64; reflexivity.
Qed.

Definition command_effect (c : BatchCommand) (m : RegisterFile) : RegisterFile := put_registers (bc_slave_id c) (bc_register_address c) (default [] (command_registers c)) m.

(** Each command starts where the one before it ends. *)
Fixpoint chain (addr : Z) (commands : list BatchCommand) : Prop :=
  match commands with [] => True | c :: commands => bc_register_address c = addr /\ chain (addr + register_count (bc_data_format c)) commands end.

Definition addressed (slave : Z) (c : BatchCommand) : Prop := bc_slave_id c = slave /\ 0 <= bc_register_address c < 2 ^ 16.

Lemma register_count_range f : 0 < register_count f < 2 ^ 16.
Proof. by destruct f. Qed.

Lemma consecutive_chain dbg slave addr commands : Forall (addressed slave) commands -> StronglySorted (fun x y => bc_register_address x <= bc_register_address y) commands ->
  consecutive_from dbg addr commands = Ok true -> chain addr commands.
Proof.
  revert addr. induction commands as [|c commands IH]; intros addr Ha Hs Hc; [done|]. cbn in Hc. destruct (Z.eqb_spec (bc_register_address c) addr) as [<- |]; [|done]. split; [done|].
  apply list.Forall_cons in Ha as [[_ Ha] Has]. apply StronglySorted_cons in Hs as [Hle Hs]. apply obind_ok in Hc as (next & Hn & Hc). pose proof (register_count_range (bc_data_format c)) as Hr.
  unfold add_u16 in Hn. destruct (Z.ltb_spec (bc_register_address c + register_count (bc_data_format c)) (2 ^ 16)).
  - injection Hn as <-. by apply IH.
  - destruct dbg; [done|]. injection Hn as <-. destruct commands as [|c2 commands]; [done|]. exfalso. cbn in Hc.
    apply list.Forall_cons in Hle as [Hle _]. destruct (Z.eqb_spec (bc_register_address c2) (wrap 16 (bc_register_address c + register_count (bc_data_format c)))) as [E |]; [|done].
    unfold wrap in E. rewrite <-(Z.mod_add _ (-1)), Z.mod_small in E by lia. lia.
Qed.

Lemma merge_effect slave addr commands regs m : Forall (addressed slave) commands -> chain addr commands -> merge_registers commands = Some regs ->
  put_registers slave addr regs m = foldl (fun m c => command_effect c m) m commands.
Proof.
  revert addr regs m. induction commands as [|c commands IH]; intros addr regs m Ha Hc Hm; cbn in Hm; [by injection Hm as <-|]. apply list.Forall_cons in Ha as [[Hs _] Ha]. destruct Hc as [Haddr Hc].
  destruct (command_registers c) as [l|] eqn:E; [|done]. cbn in Hm. destruct (merge_registers commands) as [rest|]; [|done]. injection Hm as <-.
  rewrite put_registers_app, (command_registers_length _ _ E). cbn [foldl]. rewrite (IH _ rest) by done. do 2 f_equal. unfold command_effect. by rewrite E, Hs, Haddr.
Qed.

(** Commands of a chain do not overlap. *)
Lemma chain_later addr commands c : chain addr commands -> c ∈ commands -> addr <= bc_register_address c.
Proof.
  revert addr. induction commands as [|c' commands IH]; intros addr Hc Hin; [by apply elem_of_nil in Hin|]. destruct Hc as [Ha Hc]. pose proof (register_count_range (bc_data_format c')).
  apply elem_of_cons in Hin as [-> | Hin]; [lia|]. specialize (IH _ Hc Hin). lia.
Qed.

Lemma effect_length c : Z.of_nat (length (default [] (command_registers c))) <= register_count (bc_data_format c).
Proof. destruct (command_registers c) as [l|] eqn:E; cbn; [by rewrite (command_registers_length _ _ E)|pose proof (register_count_range (bc_data_format c)); lia]. Qed.

Lemma foldl_foldr {A B} (f : A -> B -> B) b l : foldl (fun b a => f a b) b l = foldr f b (reverse l).
Proof. revert b. induction l as [|x l IH]; intros b; [done|]. cbn [foldl]. by rewrite IH, reverse_cons, foldr_app. Qed.

Lemma chain_disjoint addr commands i j x y m : chain addr commands -> i <> j -> commands !! i = Some x -> commands !! j = Some y ->
  command_effect x (command_effect y m) = command_effect y (command_effect x m).
Proof.
  intros Hc Hij Hx Hy. apply put_registers_comm. right. pose proof (effect_length x) as Lx. pose proof (effect_length y) as Ly.
  assert (forall addr k l u v, chain addr commands -> (k < l)%nat -> commands !! k = Some u -> commands !! l = Some v -> bc_register_address u + register_count (bc_data_format u) <= bc_register_address v) as H.
  { clear. induction commands as [|c commands IH]; intros addr k l u v Hc Hkl Hu Hv; [done|]. destruct Hc as [Ha Hc]. destruct l as [|l]; [lia|]. destruct k as [|k]; cbn in Hu, Hv.
    - injection Hu as <-. rewrite Ha. eapply chain_later; [exact Hc|]. by eapply list_elem_of_lookup_2.
    - apply (IH _ k l u v Hc); [lia|done|done]. }
  destruct (decide (i < j)%nat); [left; specialize (H addr i j x y Hc)|right; specialize (H addr j i y x Hc)]; lia || (specialize (H ltac:(lia)); specialize (H ltac:(done) ltac:(done)); lia).
Qed.

Lemma effects_commute addr commands commands' m : chain addr commands -> commands ≡ₚ commands' ->
  foldl (fun m c => command_effect c m) m commands = foldl (fun m c => command_effect c m) m commands'.
Proof.
  intros Hc Hp. rewrite !foldl_foldr. apply (foldr_permutation eq); [by intros x m1 m2 ->| |by rewrite !reverse_Permutation].
  intros i x j y m' Hij [Hx Hi]%reverse_lookup_Some [Hy Hj]%reverse_lookup_Some. apply (chain_disjoint addr commands (length commands - S i) (length commands - S j)); [done|lia|done|done].
Qed.

(** *** Single and merged writes *)

Definition single_request (c : BatchCommand) : ModbusRequest := write_registers_request (bc_slave_id c) (bc_register_address c) (default [] (command_registers c)).

Lemma write_single_sent acked c regs w : command_registers c = Some regs ->
  write_single_command acked c w = (mkModbusWorld (S (mw_tick w)) (mw_log w ++ [(single_request c, acked (mw_tick w) (single_request c))]),
    Ok (if acked (mw_tick w) (single_request c) then None else Some RequestRefused)).
Proof.
  intros Hc. unfold single_request. rewrite Hc. unfold command_registers in Hc. unfold write_single_command, write_value. destruct (value_as_f64 (bc_value c)) as [raw|]; [|done]. cbn in Hc.
  destruct (encode_value raw _ _) as [l|e|]; [|done..]. injection Hc as ->. unfold st_bind, try, write_request, request. cbn [default from_option]. by destruct (acked _ _).
Qed.

Lemma single_effect c regs m : command_registers c = Some regs -> write_effect (single_request c) m = command_effect c m.
Proof. intros Hc. unfold single_request, command_effect. rewrite Hc. cbn [default from_option]. by destruct regs as [|r [|r' regs]]. Qed.

Lemma singles_replay commands w m : Forall (fun c => is_Some (command_registers c)) commands ->
  replay (mw_log (write_each (write_single_command (fun _ _ => true)) bc_point_id commands w).1) m = foldl (fun m c => command_effect c m) (replay (mw_log w) m) commands.
Proof.
  revert w. induction commands as [|c commands IH]; intros w Hc; [done|]. apply list.Forall_cons in Hc as [[regs Hr] Hc]. cbn [write_each foldl]. unfold st_bind at 1. rewrite (write_single_sent _ c regs w Hr).
  set (w1 := mkModbusWorld _ _). specialize (IH w1 Hc). unfold st_bind, st_ret. destruct (write_each _ _ commands w1) as [w2 r2] eqn:E2. cbn [fst] in IH.
  assert (mw_log (match r2 with Ok a => (w2, Ok (tally (bc_point_id c) None a)) | Err e => (w2, Err e) | Panic => (w2, Panic) end).1 = mw_log w2) as -> by by destruct r2.
  rewrite IH. f_equal. unfold w1, replay. cbn [mw_log]. rewrite foldl_app. cbn. by rewrite (single_effect c regs _ Hr).
Qed.

Lemma merge_registers_some commands : is_Some (merge_registers commands) <-> Forall (fun c => is_Some (command_registers c)) commands.
Proof.
  induction commands as [|c commands IH]; cbn; [split; [constructor|by eexists]|]. rewrite list.Forall_cons, <-IH. destruct (command_registers c) as [l|]; cbn; [|split; [by intros [? ?]|by intros [[? ?] _]]].
  destruct (merge_registers commands); cbn; split; [intros _; split; by eexists|by eexists|by intros [? ?]|by intros [_ [? ?]]].
Qed.

Lemma all_failed_ids e commands : fst <$> wr_failures (all_failed e commands) = bc_point_id <$> commands.
Proof. cbn. by rewrite <-list_fmap_compose. Qed.

Lemma merged_nonempty c commands regs : merge_registers (c :: commands) = Some regs -> exists r l, regs = r :: l.
Proof.
  cbn. destruct (command_registers c) as [l|] eqn:E; [|done]. cbn. destruct (merge_registers commands); [|done]. intros [= <-]. pose proof (command_registers_length _ _ E) as Hl.
  pose proof (register_count_range (bc_data_format c)). destruct l; [cbn in Hl; lia|by eexists _, _].
Qed.

(** C19. Batched writes change a device as single ones do: commands on consecutive
    registers of a slave are written in one request, with the effect of writing each
    of them by itself in the order they were given, and are reported as written
    exactly if that request is acknowledged; if one of them cannot be encoded,
    nothing is sent and each is reported as failed. *)
Theorem merged_write_equivalent dbg acked slave commands w w' res :
  are_strictly_consecutive dbg commands = Ok true -> Forall (addressed slave) commands -> execute_merged_fc16 acked slave commands w = (w', res) ->
  if forallb (fun c => bool_decide (is_Some (command_registers c))) commands then
    exists r b, mw_log w' = mw_log w ++ [(r, b)] /\ res = (if b : bool then Ok (mkWriteResult (length commands) []) else Err RequestFailed) /\
      forall m, write_effect r m = replay (mw_log (write_each (write_single_command (fun _ _ => true)) bc_point_id commands (mkModbusWorld 0 [])).1) m
  else w' = w /\ exists failures, res = Ok (mkWriteResult 0 failures) /\ fst <$> failures ≡ₚ bc_point_id <$> commands.
Proof.
  unfold are_strictly_consecutive, execute_merged_fc16. intros Hcons Haddr He. destruct (_ <? 2)%nat; [done|]. pose proof (sort_by_key_perm bc_register_address commands) as Hperm. fold (by_register commands) in Hperm.
  pose proof (sort_by_key_sorted bc_register_address commands) as Hsort. fold (by_register commands) in Hsort. destruct (by_register commands) as [|c l]; [done|].
  assert (Forall (addressed slave) (c :: l)) as Haddr' by by rewrite Hperm. pose proof (consecutive_chain _ slave _ _ Haddr' Hsort Hcons) as Hchain.
  destruct (forallb _ commands) eqn:Hall.
  - assert (Forall (fun c => is_Some (command_registers c)) commands) as Henc. { apply list.Forall_forall. intros x Hx. rewrite forallb_forall in Hall. apply list_elem_of_In, Hall, bool_decide_eq_true in Hx. done. }
    assert (Forall (fun c => is_Some (command_registers c)) (c :: l)) as [regs Hm]%merge_registers_some by by rewrite Hperm. destruct (merged_nonempty _ _ _ Hm) as (r0 & rl & ->). rewrite Hm in He.
    exists (Write10 slave (bc_register_address c) (r0 :: rl)), (acked (mw_tick w) (Write10 slave (bc_register_address c) (r0 :: rl))).
    unfold st_bind, write_request, request in He. split_and!.
    + destruct (acked _ _); injection He as <- <-; done.
    + destruct (acked _ _); by injection He as <- <-.
    + intros m. rewrite (singles_replay _ _ _ Henc). cbn [mw_log replay foldl write_effect]. rewrite (merge_effect slave (bc_register_address c) (c :: l) _ m Haddr' Hchain Hm). by apply (effects_commute (bc_register_address c)).
  - destruct (merge_registers (c :: l)) as [regs|] eqn:Hm.
    + exfalso. assert (is_Some (merge_registers (c :: l))) as Hs by by eexists. apply merge_registers_some in Hs. rewrite Hperm in Hs. apply not_true_iff_false in Hall. apply Hall, forallb_forall. intros x Hx%list_elem_of_In.
      apply bool_decide_eq_true. by apply (Forall_elem Hs).
    + injection He as <- <-. split; [done|]. exists (wr_failures (all_failed MergeAborted (c :: l))). split; [done|]. rewrite all_failed_ids. by apply fmap_Permutation.
Qed.

(** *** Accounting *)

Definition command_in_space (c : BatchCommand) : Prop := 0 <= bc_register_address c /\ bc_register_address c + register_count (bc_data_format c) < 2 ^ 16.

Lemma consecutive_no_panic dbg addr commands : Forall command_in_space commands -> exists b, consecutive_from dbg addr commands = Ok b.
Proof.
  revert addr. induction commands as [|c commands IH]; intros addr Hs; [by eexists|]. apply list.Forall_cons in Hs as [[_ Hc] Hs]. cbn. destruct (Z.eqb_spec (bc_register_address c) addr) as [<- |]; [|by eexists].
  rewrite add_u16_ok by done. by apply IH.
Qed.

Lemma strictly_consecutive_no_panic dbg commands : Forall command_in_space commands -> exists b, are_strictly_consecutive dbg commands = Ok b.
Proof.
  intros Hs. unfold are_strictly_consecutive. destruct (_ <? 2)%nat; [by eexists|]. destruct (by_register commands) as [|c l] eqn:E; [by eexists|]. apply consecutive_no_panic. rewrite <-E. unfold by_register. by rewrite sort_by_key_perm.
Qed.

Definition accounted (n : nat) (r : WriteResult) : Prop := (wr_success_count r + length (wr_failures r) = n)%nat.

Lemma merged_accounted acked slave commands w w' res : commands <> [] -> execute_merged_fc16 acked slave commands w = (w', res) ->
  match res with Ok r => accounted (length commands) r | Err _ => True | Panic => False end.
Proof.
  intros Hne He. unfold execute_merged_fc16 in He. pose proof (sort_by_key_perm bc_register_address commands) as Hperm. fold (by_register commands) in Hperm.
  destruct (by_register commands) as [|c l]; [by apply Permutation_nil_l in Hperm|]. destruct (merge_registers (c :: l)) as [regs|] eqn:Hm.
  - destruct (merged_nonempty _ _ _ Hm) as (r0 & rl & ->). unfold st_bind, write_request, request in He. destruct (acked _ _); injection He as <- <-; [|done]. unfold accounted. cbn. lia.
  - injection He as <- <-. unfold accounted. cbn [all_failed wr_success_count wr_failures]. by rewrite length_fmap, Hperm.
Qed.

Lemma single_command_one acked c : one_write (fun _ => True) (write_single_command acked c).
Proof. unfold write_single_command. destruct (value_as_f64 _); [by apply write_value_one|apply failed_one]. Qed.

Lemma group_accounted dbg acked k commands w : commands <> [] -> Forall command_in_space commands ->
  exists w' r, execute_group dbg acked (k, commands) w = (w', Ok r) /\ accounted (length commands) r.
Proof.
  destruct k as [slave fc]. intros Hne Hs. unfold execute_group. destruct (strictly_consecutive_no_panic dbg commands Hs) as [b Hb].
  assert (exists b', (if (fc =? 16) && (1 <? length commands)%nat then st_lift (are_strictly_consecutive dbg commands) else st_ret false) w = (w, Ok b')) as [b' E] by (rewrite Hb; destruct (_ && _); by eexists).
  unfold st_bind at 1. rewrite E. destruct b'.
  - unfold st_bind, try, st_ret. destruct (execute_merged_fc16 acked slave commands w) as [w1 res] eqn:Em. apply merged_accounted in Em; [|done]. destruct res as [r|e|]; [by eexists _, _|eexists _, _; split; [done|]|done].
    unfold accounted. cbn. by rewrite length_fmap.
  - destruct (write_each _ _ commands w) as [w1 res] eqn:Ew. apply (write_each_spec _ _ (fun _ _ => True)) in Ew as (r & entries & -> & _ & Hc & _); [by eexists _, _|]. intros c. apply single_command_one.
Qed.

Lemma groups_accounted dbg acked groups w : Forall (fun g : Z * Z * list BatchCommand => g.2 <> [] /\ Forall command_in_space g.2) groups ->
  exists w' r, execute_groups dbg acked groups w = (w', Ok r) /\ accounted (sum_list (length ∘ snd <$> groups)) r.
Proof.
  revert w. induction groups as [|[k l] groups IH]; intros w Hg; [by eexists _, _|]. apply list.Forall_cons in Hg as [[Hne Hs] Hg]. cbn [execute_groups]. destruct (group_accounted dbg acked k l w Hne Hs) as (w1 & a & E & Ha).
  destruct (IH w1 Hg) as (w2 & b & E2 & Hb). unfold st_bind. rewrite E, E2. eexists _, _. split; [done|]. unfold accounted in *. cbn in *. rewrite length_app. lia.
Qed.

(** The batcher counts what it holds, in groups that are never empty. *)
Definition batcher_ok (b : CommandBatcher) : Prop :=
  cb_total_pending b = sum_list (length ∘ snd <$> map_to_list (cb_pending_commands b)) /\ map_Forall (fun _ l => l <> [] /\ Forall command_in_space l) (cb_pending_commands b).

Lemma batcher_new_ok now : batcher_ok (batcher_new now).
Proof. split; cbn; [by rewrite map_to_list_empty|apply map_Forall_empty]. Qed.

#[local] Instance sum_list_perm : Proper ((≡ₚ) ==> eq) sum_list.
Proof. induction 1; cbn; lia. Qed.

Lemma add_command_ok c b : command_in_space c -> batcher_ok b -> batcher_ok (add_command c b).
Proof.
  intros Hc [Ht Hm]. split; cbn.
  - rewrite Ht. destruct (cb_pending_commands b !! batch_key c) as [l|] eqn:E; cbn.
    + rewrite <-(map_to_list_delete _ _ _ E), <-(insert_delete_eq _ (batch_key c) (l ++ [c])), map_to_list_insert by apply lookup_delete_eq. cbn. rewrite length_app. cbn. lia.
    + rewrite map_to_list_insert by done. done.
  - apply map_Forall_insert_2; [|done]. split; [by destruct (default [] _)|]. apply Forall_app. split; [|by each_of].
    destruct (cb_pending_commands b !! batch_key c) as [l|] eqn:E; cbn; [|constructor]. by apply Hm in E as [_ ?].
Qed.

(** What a write of a channel may do: without a connection nothing; otherwise every
    request is allowed for one of the commands and every command is counted once, as
    a success exactly for an acknowledged request. *)
Definition governed_write {C} (allowed : C -> ModbusRequest -> Prop) (commands : list C) (cw cw' : ChannelWorld) (res : outcome GatewayError WriteResult) : Prop :=
  if ch_client (cw_channel cw) then
    exists r entries, res = Ok r /\ mw_log (cw_bus cw') = mw_log (cw_bus cw) ++ entries /\ accounted (length commands) r /\ wr_success_count r = acknowledged entries /\
      Forall (fun x => exists c, c ∈ commands /\ allowed c x.1) entries
  else res = Err NotConnected /\ cw' = cw.

Lemma finish_each {C} (one : C -> MM (option WriteFailure)) id (allowed : C -> ModbusRequest -> Prop) commands cw cw' res :
  ch_client (cw_channel cw) = true -> (forall c, one_write (allowed c) (one c)) -> finish_write (write_each one id commands) cw = (cw', res) -> governed_write allowed commands cw cw' res.
Proof.
  intros Hc Hone. unfold governed_write. rewrite Hc. unfold finish_write, st_bind, on_bus, with_channel, st_modify, st_ret. destruct (write_each one id commands (cw_bus cw)) as [w r] eqn:E.
  apply (write_each_spec _ _ allowed) in E as (r' & entries & -> & Hlog & Hn & Hs & Hall); [|done]. cbn. intros [= <- <-]. by exists r', entries.
Qed.

(** The writes of a Modbus channel: whatever the device answers, an adjustment
    sends nothing but the registers of a configured adjustment point with the encoded
    raw value of the setpoint, a control nothing but the coil or register of a
    configured control point, and without a connection nothing is sent; every command
    is counted once, as a success exactly for an acknowledged request. Batched
    commands are all counted, too, and the batch is empty afterwards. *)
Lemma modbus_writes_governed acked cw :
  (forall adjustments cw' res, write_adjustment acked adjustments cw = (cw', res) -> governed_write (adjusts (ch_points (cw_channel cw))) adjustments cw cw' res) /\
  (forall commands cw' res, write_control acked commands cw = (cw', res) -> governed_write (controls (ch_points (cw_channel cw))) commands cw cw' res) /\
  (forall dbg walk clock cw' res, (forall m, walk m ≡ₚ map_to_list m) -> batcher_ok (ch_batcher (cw_channel cw)) -> execute_batched_commands dbg acked walk clock cw = (cw', res) ->
    cb_pending_commands (ch_batcher (cw_channel cw')) = ∅ /\
    if ch_client (cw_channel cw) || bool_decide (cb_pending_commands (ch_batcher (cw_channel cw)) = ∅)
    then exists r, res = Ok r /\ accounted (cb_total_pending (ch_batcher (cw_channel cw))) r else res = Err NotConnected).
Proof.
  split_and!.
  - intros adjustments cw' res. unfold write_adjustment, st_bind at 1, st_get. destruct (ch_client (cw_channel cw)) eqn:Hc; [apply finish_each; [done|]; intros c; apply adjust_one_spec|].
    intros [= <- <-]. unfold governed_write. by rewrite Hc.
  - intros commands cw' res. unfold write_control, st_bind at 1, st_get. destruct (ch_client (cw_channel cw)) eqn:Hc; [apply finish_each; [done|]; intros c; apply control_one_spec|].
    intros [= <- <-]. unfold governed_write. by rewrite Hc.
  - intros dbg walk clock cw' res Hwalk [Ht Hm]. unfold execute_batched_commands. cbn [st_bind tick st_get take_commands with_channel st_modify set_batcher ch_client cw_channel].
    destruct (bool_decide _) eqn:Hempty.
    + intros [= <- <-]. rewrite orb_true_r. split; [done|]. eexists. split; [done|]. apply bool_decide_eq_true in Hempty. unfold accounted. by rewrite Ht, Hempty, map_to_list_empty.
    + rewrite orb_false_r. destruct (ch_client (cw_channel cw)) eqn:Hc; [|by intros [= <- <-]].
      unfold finish_write, st_bind, on_bus, with_channel, st_modify, st_ret. cbn [cw_bus cw_channel].
      destruct (groups_accounted dbg acked (walk (cb_pending_commands (ch_batcher (cw_channel cw)))) (mkModbusWorld (S (mw_tick (cw_bus cw))) (mw_log (cw_bus cw)))) as (w' & r & E & Hr).
      { rewrite Hwalk. apply list.Forall_forall. intros [k l] Hin%elem_of_map_to_list. by apply Hm in Hin. }
      rewrite E. cbn. intros [= <- <-]. split; [done|]. exists r. split; [done|]. unfold accounted in *. by rewrite Hr, Ht, Hwalk.
Qed.

(** ** Concrete channels *)

(** A device whose registers hold their addresses and which answers every request. *)
Definition address_device : ModbusDevice := mkDevice (fun _ _ _ a => wrap 16 a) (fun _ _ _ _ => true).
Definition address_regs (t : nat) (r : ModbusRequest) : option (list Z) :=
  Some match r with
       | Read03Batch s a q _ => window address_device t s 3 a (Z.to_nat q)
       | Read04Batch s a q _ => window address_device t s 4 a (Z.to_nat q)
       | _ => []
       end.
Definition address_bits (t : nat) (r : ModbusRequest) : option (list bool) := Some [true].

Lemma address_faithful : faithful address_bits address_regs address_device.
Proof. intros t s a q m l b. unfold address_regs, address_bits. split_and!; by intros [= <-]. Qed.

Lemma address_reliable : reliable address_bits address_regs.
Proof. intros t r. split; by eexists. Qed.

Definition holding (id register : Z) (format : DataFormat) (t : PointType) (transform : TransformConfig) : PointConfig :=
  mkPointConfig id t (AddrModbus (mkModbusAddress 1 3 register format Abcd None)) transform.
Definition unity : TransformConfig := transform_linear f64_one_bits 0.
Definition channel_of (points : list PointConfig) : ChannelWorld :=
  mkChannelWorld (mkModbusChannel points 64 10 true Connected (batcher_new 0) 0 0 0) (mkModbusWorld 0 []).
Notation poll_points points := (poll_once true address_bits address_regs map_to_list (channel_of points)).

Definition two_points : list PointConfig := [holding 1 100 FUInt16 PtTelemetry unity; holding 2 102 FUInt32 PtTelemetry unity].

Lemma two_points_readable p : p ∈ two_points -> readable address_device p.
Proof.
  intros Hp t. unfold two_points in Hp. repeat (apply elem_of_cons in Hp as [-> | Hp]; [eexists; unfold value_at; cbn; split; [by left|reflexivity]|]). by apply elem_of_nil in Hp.
Qed.


Definition setpoint (id register value : Z) : BatchCommand := mkBatchCommand id (PvInteger value) 1 16 register FUInt16 Abcd.
Definition two_setpoints : list BatchCommand := [setpoint 2 101 8; setpoint 1 100 7].

Lemma merged_write_equivalent_witness :
  let w := mkModbusWorld 0 [] in
  let step := execute_merged_fc16 (fun _ _ => true) 1 two_setpoints w in
  step.2 = Ok (mkWriteResult 2 []) /\ mw_log step.1 = [(Write10 1 100 [7; 8], true)] /\
  forall m, write_effect (Write10 1 100 [7; 8]) m = replay (mw_log (write_each (write_single_command (fun _ _ => true)) bc_point_id two_setpoints w).1) m.
Proof.
  intros w step. assert (are_strictly_consecutive true two_setpoints = Ok true) as Hc by (vm_compute; reflexivity).
  assert (Forall (addressed 1) two_setpoints) as Ha by (each_of; by unfold addressed; cbn).
  assert (forallb (fun c => bool_decide (is_Some (command_registers c))) two_setpoints = true) as Hf by (vm_compute; reflexivity).
  pose proof (merged_write_equivalent true (fun _ _ => true) 1 two_setpoints w step.1 step.2 Hc Ha (surjective_pairing _)) as H. rewrite Hf in H.
  assert (step.2 = Ok (mkWriteResult 2 [])) as Hres by (vm_compute; reflexivity). assert (mw_log step.1 = [(Write10 1 100 [7; 8], true)]) as Hlog by (vm_compute; reflexivity).
  split; [exact Hres|]. split; [exact Hlog|]. destruct H as (r & b & Hl & _ & Hm). rewrite Hlog in Hl. injection Hl as <- <-. exact Hm.
Defined.

(** A setpoint with a scale of two, and a reversed coil; the control meant for the
    setpoint is refused. *)
Definition writable_points : list PointConfig :=
  [mkPointConfig 1 PtAdjustment (AddrModbus (mkModbusAddress 1 16 100 FUInt16 Abcd None)) (transform_linear 0x4000000000000000 0);
   mkPointConfig 2 PtControl (AddrModbus (mkModbusAddress 1 5 7 FBool Abcd None)) (transform_digital true)].
(** Two points that start at one register: the end of the segment is that of the
    last, and the longer one is neither reported nor counted as failed. *)
Example overlapping_point_lost : exists r, (poll_points [holding 1 100 FUInt32 PtTelemetry unity; holding 2 100 FUInt16 PtTelemetry unity]).2 = Ok r /\
  dp_id <$> pr_data r = [2] /\ pr_failures r = [].
Proof. eexists. vm_compute. done. Qed.

(** A digital point read from a register has a scale of zero. *)
Example signal_register_reads_zero : exists r, (poll_points [holding 1 100 FUInt16 PtSignal (transform_digital false)]).2 = Ok r /\ dp_value <$> pr_data r = [PvFloat 0].
Proof. eexists. vm_compute. done. Qed.

(** A point that can only be written fails at every poll. *)
Example write_point_polled : exists r, (poll_points [mkPointConfig 1 PtAdjustment (AddrModbus (mkModbusAddress 1 6 100 FUInt16 Abcd None)) unity]).2 = Ok r /\ pr_failures r = [1].
Proof. eexists. vm_compute. done. Qed.
